(* ===== verification/_CoqProject ===== *)
-Q . S2P
Prelude.v
Transport.v
Channel.v
Peer.v
SeqRing.v
AckAdvance.v
WindowReceiver.v
ReceiverSpec.v
WindowSender.v
WindowSession.v
WindowLoss.v
SenderSpec.v
WindowLatency.v
WindowAckLoss.v
WindowProtocol.v
WindowSystem.v
StopWait.v
Fuel.v
StopWaitSession.v
StopWaitProtocol.v
StopWaitSystem.v
IntRange.v
