(* ===== verification/Prelude.v ===== *)
(** * Reliable delivery over UDP: stop-and-wait and sliding window

    A verification development for [src/udp.cpp], the five functions that
    implement two ARQ protocols over a datagram socket:

    - [clientStopWait] / [serverReliable]: the alternating-bit protocol;
    - [clientSlidingWindow] / [serverEarlyRetrans]: a window of [windowSize]
      frames with cumulative acknowledgments, sequence numbers drawn from a
      ring of [2 * windowSize + 1];
    - [ackAdvance]: the helper with which the window sender reads one
      acknowledgment and decides how far its trailing edge moves.

    ** How the program is modelled

    The code is translated function by function (a shallow embedding).  C
    [int]s are [Z]; the [%] operator is [cmod] (truncating, [Z.rem]), the
    bit operators are [Z.land] and [Z.lxor]; a comparison used as an integer
    goes through [b2i].  Arrays are lists read and written through [load]
    and [store], which return [None] outside the object, so an access the
    C++ standard leaves undefined is a value of the model ([Fault]) and not
    a silent no-op.  A variable-length array that the code never
    initialises holds [option Z] cells, [None] being an indeterminate value.

    The functions talk to a [UdpSocket] and a [Timer], which are not part of
    the sources.  They are modelled from the specification as an interface,
    the class [Transport] of [Transport.v], and the functions are written
    once, for every world type [W] that implements it, in the monad
    [prog W A = W -> outcome W A].  An [outcome] is [Done] (the call
    returned), [Blocked] (a blocking [recvFrom] with nothing left to
    deliver: the call never returns), [Fault] (undefined behaviour was
    reached) or [OutOfFuel].

    Loops.  The [for] loops of the source have a known trip count and are
    structural ([for_range]).  The [while] and [do ... while] loops wait for
    the network and have no bound in the source: [while_do] and [do_while]
    take a [fuel : nat], the number of iterations a run may use.  Each loop
    instance receives the fuel afresh.  Theorems about results are stated
    as "with at least this much fuel the call returns this", never only as
    "if it returns"; the bound is given by the theorem ([seqRange] for the
    receiver's slide loop, the arrival time of the acknowledgment for the
    sender's polling loops).

    ** Files

    - [Prelude.v] (this file): C integers, checked array access, the
      [outcome] type and the [prog] monad, the loop combinators with their
      lemmas (unfolding, monotonicity in the fuel, invariants, termination
      by a measure, divergence of a [while] loop whose condition holds
      in every state it reaches, [preserves] for properties of the world,
      [leads] for a property that a program turns into another however
      it ends, [settles] for programs that neither wait nor loop), the
      tactics [zbool], [prog_simp] and [prog_inv], and the hint databases
      [cint], [prog], [cint_rw] and [prog_rw].
    - [Transport.v]: the socket and timer interface ([Transport],
      [TransportLaws]), the call sites of the source as programs
      ([sendTo_array], [sendTo_addr], [ackTo_int], [pollRecvFrom],
      [recvFrom_array], [recvFrom_int], [timer_start], [timer_lap]), the
      properties of the world that every operation keeps ([stable]) or
      that every operation but the sending of a frame keeps ([calm]), the
      round trip of an array through [sendTo_array] and [recvFrom_array],
      and, in [Module SimNet], a discrete-event network that implements the
      interface: an inbox of datagrams with arrival times, an outbox that
      logs what was handed to the transport, and a clock that advances by
      one at every poll.
    - [Peer.v]: the two programs of a pair put together.  Both servers
      are a [for] loop around a [do ... while] that reads one frame and
      answers it: [Server] is the body and the guard of that loop,
      [serve] the loop, [pass] one iteration.  A [peer] is a server
      between two frames (the index of its [for] loop, its locals), and
      [hear] hands it a frame by running [pass] on a socket that holds
      this frame.  [serve_hear_all]: for a server whose pass reads one
      frame and nothing else of the world ([ServerLaws]), the peer that
      has heard a list of frames is the server run on a socket that
      holds them.  [Module Wire] is a second implementation of
      [Transport], the world of a client: what is handed to [sendTo]
      reaches the peer at once or is lost, as a schedule ([lost], one
      boolean per frame to come) says; an answer of the peer is dropped
      when a second schedule says so ([dropped], one boolean per answer
      to come), and is otherwise on its way ([flight]) for the time
      [latency] before it is there to be read ([answers]); answers
      arrive in the order they were sent; a poll takes one unit of
      time, and a receive with nothing to read waits for the first
      answer on its way.  [Wire.launch] is the wire at the start,
      [Wire.start] the one that loses frames only ([Wire.plain]:
      [deliver_plain], [wait_plain]).  [tracks] is the invariant
      that ties the far end to the frames delivered; it is kept by every
      operation of the transport, hence by every client.  [on_schedule]
      relates the frames delivered to the part of the schedule that has
      been used.
    - [SeqRing.v]: the ring of [2 * windowSize + 1] sequence numbers:
      [seq_of], [ring_dist] and the lemmas that relate them to the [%] of
      the code.
    - [AckAdvance.v]: [ackAdvance] ([src/udp.cpp] lines 167-181): the range
      check and the distance as the pure function [ack_distance], and the
      socket-facing function on top.  Theorems: the function computes the
      distance on the ring ([ack_reference]); the result is in
      [0, windowSize]; a stale acknowledgment moves nothing; an
      acknowledgment for [k] outstanding frames yields [k]; the arithmetic
      stays inside [int]; a value far below the ring yields an advance that
      is not positive; the call never blocks.
    - [WindowReceiver.v]: [serverEarlyRetrans] (lines 197-231).  State
      [rstate] (the occupancy buffer and the two cursors); [accept_offset],
      [mark], [slide] and [recv_frame] are the body of the receive loop,
      [receive_and_ack] and [serverEarlyRetrans] the loops around it.
      Theorems on one frame: the invariant [rstate_ok] and its
      preservation, termination of the slide loop within [windowSize]
      iterations, no-gap advancement, that stale frames leave the buffer
      and the cursors alone, that a copy of a buffered frame is taken for
      a new one by the loop of line 229, and that a first word outside the
      ring can be used as a subscript.  Theorems on the function, run on
      [SimNet]: it never leaves its arrays on frames that carry sequence
      numbers, whatever their order ([safe]), and what it has sent when
      it returns is one sequence number per frame read ([answered]); on
      frames in order it consumes one per message and answers each with
      the next number.
    - [ReceiverSpec.v]: what the receiver promises, stated on frame
      numbers instead of sequence numbers ([Module WRSpec]: the set of
      frames received, the first missing frame, the step [deliver]), the
      relation [represents] between the locals of the code and a state of
      that specification, and the refinement: [recv_frame] takes the step
      of the specification for every frame at most [windowSize + 1] behind
      and less than [windowSize] ahead of the first missing frame; hence
      every acknowledgment is cumulative.  As transition systems
      ([rstep], [astep]): every state the code reaches represents a
      state the specification reaches, and the code takes a step on
      every sequence number.  A run shows that a copy that is older than
      the reach is taken for a new frame.
    - [WindowSender.v]: [clientSlidingWindow] (lines 108-152): the ring of
      [windowSize + 1] slots in a flat buffer, the retransmission of the
      outstanding frames, the two calls of [ackAdvance]; [send_message]
      is one pass of the [for] loop, [send_tail] its part after the
      waiting loop (lines 138-148).  Theorems: the
      invariant [wstate_ok] of the locals (cursors in the ring, a
      sequence number at the head of every written slot) is kept by
      every pass that completes while the answers are sequence numbers;
      the ring is not full when the waiting loop is left, so at most
      [windowSize] frames are outstanding; the function never blocks;
      when every answer is there in time it sends each message once, in
      order, and returns 0; whenever it returns, each frame was handed to
      the transport exactly once and the value returned is the number of
      the other datagrams, the retransmissions, each of which hands
      [sendTo] the first word of an outstanding slot as an address
      ([Wild]); the read of line 135 leaves the buffer when the trailing
      edge is at the last slot.  Runs on [SimNet]: scenario B of the
      specification, the run
      that reaches the read of line 135, the copy of line 144 leaving the
      buffer when [max] is less than the words copied, and the return
      with frames that were never acknowledged.
    - [WindowSession.v]: the window sender run against the window
      receiver.  [window_server] is the loop of [serverEarlyRetrans] as
      a [Server], and the sender runs on the [Wire] whose far end it is.
      Theorems: on a wire that loses nothing the two functions transfer
      [max] messages, the sender returns 0 and the receiver has read
      the frame of each message once, in order, has the words of the
      last frame in its array and has returned; however a run of the
      sender ends and whatever is lost, the far end of the wire is where
      [serverEarlyRetrans] itself is after the frames that were
      delivered; when the wire loses one of the frames, fewer than [max]
      frames are ever delivered and [serverEarlyRetrans] does not
      return, since the sender hands each frame to the transport once
      and its retransmissions are addresses.
    - [WindowLoss.v]: the two window functions after a loss.  The far
      end of the wire takes the steps of the specification of
      [ReceiverSpec.v] ([hear_refines]); while it misses frame [i] it
      answers every later frame of the window with the number of [i]
      ([misses], [awaits]), which [ackAdvance] takes for a stale
      acknowledgment, so that the sender's trailing edge stays at the
      slot of frame [i] ([stuck]).  Theorems: when frame [i] is the first
      the wire loses and more than [windowSize] messages follow,
      [clientSlidingWindow] does not return; it is cut short in the
      waiting loop of message [i + windowSize] for every fuel, or, when
      the trailing edge is at the last slot, it reads [buffer] at its
      length in the first turn of that loop.  When fewer than
      [windowSize] messages follow, it returns 0 while the receiver still
      misses frame [i].  Hence, on a wire that delays nothing, the count
      that [clientSlidingWindow] returns is 0 in every session.
    - [SenderSpec.v]: what the sender promises, stated on frame numbers
      ([Module WSSpec]: the first frame that is not acknowledged and the
      next frame to send, the steps [send] and [ack], and as a
      transition system the window bound [reach_wf]), the relation
      [holds_window] between the locals of the code and such a state,
      and the refinement, for every transport that keeps the laws: the
      part of a pass after the waiting loop takes the step [send]
      ([send_tail_refines]), a turn of the waiting loop counts the
      outstanding frames as retransmitted when the timer has run out
      and reads [buffer] at its length when the trailing edge is at the
      last slot ([wait_for_room_refines]), and the call of [ackAdvance]
      in which both end takes the step [ack] for an acknowledgment in
      reach, leaves the locals alone when nothing is there, and uses a
      variable without a value on an empty datagram ([reads]).
    - [WindowLatency.v]: the two window functions on a wire that loses
      nothing and delivers every acknowledgment [latency] polls after
      its frame.  The sender polls once per message (line 147), so time
      counts the messages sent.  [pipeline] is the wire between two
      messages: the receiver waits for frame [j] and the acknowledgments
      of the frames from [a] on are in a queue with their due times
      ([Wire.queued], [acks_at]); the sender is [stuck] of [WindowLoss.v]
      with [j - a] frames outstanding.  A message is sent and nothing is
      read ([send_message_quiet]), or the acknowledgment of frame [a] is
      read ([send_message_read]); with the ring full the waiting loop
      polls until that acknowledgment is due ([wait_loop]).  Theorems:
      with [latency < windowSize], or no more than [windowSize]
      messages, the sender never waits and returns 0 with the
      acknowledgments of the last [latency] frames unread; with
      [windowSize <= latency] it waits before message [windowSize]
      ([late] is the invariant from then on) and, when more than
      [2 * windowSize] messages are to be sent, waits again before
      message [2 * windowSize] with the trailing edge at the last slot,
      where line 135 reads [buffer] at its length; with fewer messages
      it returns, and what it returns is [windowSize] for every time
      the timer ran out during the wait ([wait_loop] counts the turns
      of the waiting loop against [MAX_TIME]; [lapse] and [turned], of
      [WindowLoss.v], are the timer and one turn of that loop).
    - [WindowAckLoss.v]: the two window functions on a wire that
      delivers every frame, answers at once and drops the
      acknowledgments a schedule names.  [acking] is the wire between
      two messages; [stalls_at] follows the trailing edge of the sender
      through the schedule and gives the oldest outstanding frame when
      a message finds the ring full, if one does ([stalls_at_run]: the
      acknowledgments of [windowSize] frames in a row are dropped and a
      message is left).  [send_message_dropping] is one message: the
      acknowledgment is dropped and one more frame is outstanding, or
      it arrives and [ackAdvance] moves the trailing edge over every
      outstanding frame ([advance_cumulative]); [session_dropping] is
      the induction on the messages left.  Theorems: when [stalls_at]
      finds nothing the sender returns 0 and the receiver has read
      every frame in order; when it finds frame [i] the sender does not
      return: it waits with nothing on the wire for every fuel
      ([send_message_silent] of [WindowLoss.v]), or reads [buffer] at
      its length when [i] is at the last slot.
    - [WindowProtocol.v]: what the two window functions promise
      together, stated on frame numbers ([Module WPSpec]).  A [link] is a
      sender of [SenderSpec.v], a receiver of [ReceiverSpec.v], the
      frames on their way and the acknowledgments on their way back.
      Its steps ([step]): the sender sends the next frame while fewer
      than [windowSize] are outstanding; frames change their order; a
      frame is lost or delivered, and a delivered frame is answered with
      the first missing number; an acknowledgment is lost, or the
      oldest one is read.  [safe] is the invariant of every link that
      is reached ([reach_safe]): both sides are well formed, what is
      acknowledged was received, what was received was sent, no frame
      is on its way twice or after it was received, and the
      acknowledgments on their way are in order between the two
      cursors.  A frame that was sent and is neither on its way nor
      received ([lost]) stays so along every step ([reach_lost]).
    - [Channel.v]: [Module Chan], a third implementation of
      [Transport] and one world for both programs of a pair: the frames
      on their way up, the acknowledgments on their way down, a clock;
      the client side sends up and reads down, the server side the
      other way round, and what a retransmission of the window sender
      hands over reaches nobody.  Both sides keep the laws of the
      interface ([client_laws], [server_laws]).  What the network does
      by itself is left to the systems that use the channel.
    - [WindowSystem.v]: [clientSlidingWindow] and [serverEarlyRetrans]
      as one transition system on the channel ([Module Win] holds its
      definitions).  A [config] is the state of both programs between two
      pieces of code and the channel; [place] says where the client is
      ([Top j]: at the head of the [for] loop with message [j];
      [Loop j]: at the test of the waiting loop; [Sent j]: before the
      call of [ackAdvance] of line 147).  A step ([cstep]) is a piece
      of the client that returned ([client_step]: the timer of line
      119, one turn of the waiting loop, the sending of the frame in
      lines 139-145, the call of line 147), one pass of the server's
      [do ... while] that returned ([server_step]), or a move of the
      channel ([channel_step]: a frame is lost or overtakes the ones
      before it, an acknowledgment is lost, time passes).
      Each piece has one operation the other side can observe, so the
      server may answer a frame before or after the client polls for
      its acknowledgment.  [play] is the same as a
      function of a [move], so that a configuration that is reached
      can be computed ([plays_sound]).  [holds] relates a
      configuration to a link of [WindowProtocol.v].  Theorems, for
      every interleaving, loss, order of the frames and timing: every
      configuration that is reached holds a link that the
      specification reaches ([system_refines]); hence the cursors of
      the two programs are ordered and at most [windowSize] frames are
      outstanding ([system_cursors_ordered]); the server's pass returns
      on every frame on its way and counts it when it is the first
      missing one ([server_counts_every_frame]); the piece of the
      client that is next returns, unless it is the turn of the waiting
      loop with the trailing edge at the last slot, which reads
      [buffer] at its length ([client_faults_at_last_slot_only]); after
      the loss of the frame of message [i] the client gets to message
      [i + windowSize] at most and the server counts fewer frames than
      that, in every continuation ([system_loss_is_final]); for every
      window and number of messages there is a path on which both
      functions get through their loops with nothing retransmitted,
      the one on which the server answers each frame before the client
      polls for it ([system_can_complete], [quiet] being the system
      between two messages on that path);
      and the functions themselves are paths of the system:
      a call of [clientSlidingWindow] or [serverEarlyRetrans] that
      returns on the channel is a sequence of steps
      ([functions_are_paths]).
    - [StopWait.v]: [clientStopWait] (lines 33-61) and [serverReliable]
      (lines 73-82).  Theorems on the client: it never blocks; on the
      network, while the answers are bits, it sends the messages in order
      and returns the number of retransmissions; it returns when the
      answers come, with fuel for the polls until the last arrival; with
      nothing lost it returns 0; scenario A of the specification.  Theorems
      on the server: the guard of line 80 as C++ parses it ([!=] binds
      tighter than [&]), that the server never gets past message 2 on
      frames numbered with a bit, and that it answers every frame with its
      first word.  The pieces of the two functions between two
      operations on the socket ([number_message], [send_once],
      [no_reply], [read_answer], [try_again]) are definitions of their
      own, and the loops are proved to be their composition.
    - [Fuel.v]: the fuel decides nothing but whether a run is cut
      short.  [fuel_mono] says of a program that takes fuel that a run
      which is not [OutOfFuel] has the same outcome with every larger
      fuel; it is closed under the combinators of the monad, and it
      holds of [clientStopWait], [serverReliable],
      [clientSlidingWindow] and [serverEarlyRetrans], which pass their
      fuel to nested loops.
    - [StopWaitSession.v]: the stop-and-wait client run against its
      server ([reliable_server]) on a wire that loses frames, drops
      acknowledgments and delays them by up to [MAX_TIME].  [sw_step]
      is the wire between two attempts to send the frame of a message,
      [accounted] the bookkeeping of a run: what the client has counted
      against what the schedules have lost.  An attempt fails when the
      frame is lost or its answer dropped ([attempt_failed]: the timer
      runs out and the frame is sent again) and succeeds otherwise
      ([attempt_heard]); [wait_reply_session] is the induction on what
      is left of the two schedules.  Theorems: when [max] is at least 3
      or no acknowledgment is dropped, the client returns for all
      schedules, what it returns is the number of frames lost and
      acknowledgments dropped, and the server has read the frame of
      each message, in order, once more than its acknowledgment was
      dropped ([arrivals]); the server has counted the first two
      messages only, so that with three messages or more
      [serverReliable], run on the frames delivered, has read them all
      and still waits.  When [max] is 1 or 2 the server returns after
      the last frame, and if the acknowledgment of that frame is
      dropped the client never returns ([doomed] is the invariant of
      its polling loop from then on).  An acknowledgment that takes
      longer than [MAX_TIME] makes the client send every frame twice
      (example [stopwait_late_ack]).
    - [StopWaitProtocol.v]: what the two stop-and-wait functions
      promise together ([Module SWSpec]).  A [link] is the message the
      sender is at, the messages whose frames and whose acknowledgments
      are on their way, oldest first, the messages the receiver has
      read, and the number of frames sent.  Its steps ([step]): a frame
      of the current message is sent; a frame or an acknowledgment is
      lost; the oldest frame is delivered and answered; the oldest
      acknowledgment is read, and the sender goes on to the next
      message when it is that of the current one.  [safe] is the
      invariant of every link that is reached ([link_reach_safe]): what
      is on its way, acknowledgments first, is in ascending order and
      names the current message or the one before it; what was read is
      in ascending order, ends before what is on its way begins, and
      names every message before the current one.  [counted] is what a
      receiver that leaves its loop on messages 0 and 1 only has
      counted.
    - [StopWaitSystem.v]: [clientStopWait] and [serverReliable] as one
      transition system on the channel ([Module SW] holds its
      definitions).  [place] says where the client is ([Head j]: at the
      head of the [for] loop with message [j]; [Send j]: at the head of
      the [do ... while]; [Poll j]: at the test of the polling loop).
      A step ([cstep]) is a piece of the client that returned
      ([client_step]: line 40; lines 43-44; a turn of the polling loop
      that found nothing, lines 46-52; the reading of an answer with
      the test of line 57), a pass of the server's [do ... while] that
      returned ([server_step]), or a move of the channel
      ([channel_step]: a frame or an acknowledgment is lost, time
      passes); the pieces are definitions of [StopWait.v], where the
      functions are proved to be their composition.  A configuration
      also records what the programs do not keep: the frames the
      server has read ([log]) and the number of frames the client has
      handed over ([handed]).  [holds] relates a configuration to a
      link of [StopWaitProtocol.v].  Theorems, for every interleaving,
      loss and timing, the answers that take longer than [MAX_TIME]
      included: every configuration that is reached holds a link that
      the specification reaches ([stopwait_system_refines]); the frames
      the server has read are those of the messages in order, none
      missing before the one the client is at, and the server has
      counted the first two of them ([stopwait_delivers_in_order]);
      [retrans] is the number of frames handed over beyond one per
      message ([stopwait_counts_every_resend]); the piece of the client
      that is next returns, and so does a pass of the server on every
      frame ([stopwait_pieces_return]); for every number of messages
      there is a path on which the client gets through its loop with
      nothing retransmitted ([stopwait_can_complete], [sw_quiet] being
      the system between two messages on that path); and a call of
      [clientStopWait] or of [serverReliable] that returns on the
      channel is a sequence of steps ([stopwait_functions_are_paths]).
      A run in which one acknowledgment overtakes another shows that
      the order kept by the channel is needed
      ([stale_answer_accepted]).  The count of the client never
      decreases along a path ([sw_creach_monotone]).
    - [IntRange.v]: the width of the integers.  The values that the
      arithmetic of [clientSlidingWindow], [serverEarlyRetrans] and
      [clientStopWait] forms, expression by expression
      ([sender_values], [receiver_values], [stopwait_values]; those of
      [ackAdvance] are [ack_intermediates]), are values of type [int]
      under the invariants of the locals ([sender_values_int],
      [receiver_values_int], [stopwait_values_int]) and hence in every
      configuration the two systems reach
      ([window_system_values_int], [stopwait_system_values_int]).  A
      frame whose first word is [INT_MIN] and an answer that is not a
      bit leave [int] ([offset_overflows], [retrans_overflows]).

    ** Fuel

    [slide] needs [windowSize + 1] evaluations of its condition in a state
    that satisfies the invariant ([slide_terminates]).  The polling loop of
    [clientStopWait] needs one poll per unit of time until the answer has
    arrived, and one more ([wait_reply_returns]); the [do ... while] around
    it needs one pass per answer read.  The fuel is given afresh to every
    loop instance, so one number that covers the longest wait is enough
    for a whole run ([covers]).  The receiver's [do ... while] needs one
    pass per frame read; on frames in order that is one pass, and fuel 2
    covers both of its loops.  The waiting loop of the window sender is
    not entered when the answers are prompt, and any positive fuel
    serves; the theorems on safety and on blocking hold for every fuel,
    [OutOfFuel] being neither a fault nor a blocked call.  On the wire a
    lost frame or a dropped acknowledgment costs the stop-and-wait
    client [MAX_TIME + 1 = 1501] polls before the frame is sent again,
    and the attempt that succeeds one poll per unit of latency and one
    more, at most 1501: fuel above [1501 * (n + 1)] covers two
    schedules of [n] entries together.  A
    server run on [n] frames needs fuel above [n] for its
    [do ... while].  The theorem on a lost frame of the window session
    holds for every fuel and every outcome of the sender: it is proved
    with [leads], which follows the world through a run that ends in
    [OutOfFuel] or [Fault] as well.  That a loop does not end is stated
    as: for every fuel the run is cut short ([OutOfFuel]); the sender's
    waiting loop after a loss is the instance ([while_do_diverges]).
    There the far end needs fuel [windowSize + 1], which covers its slide
    loop on frames in any order.  With acknowledgments that take
    [latency >= windowSize] polls the waiting loop of the window sender
    turns [latency - windowSize + 1] times before message [windowSize];
    fuel [latency - windowSize + 2] covers it.  In the system of
    [WindowSystem.v] a step is one piece of code between two loop
    tests, so only the loops inside a piece take fuel: the server's
    slide loop, for which [windowSize + 1] is assumed ([well_sized]).  The
    pieces of the system of [StopWaitSystem.v] hold no loop and take no
    fuel.  Whatever a run establishes with some fuel (a result, a fault,
    a blocked call) holds with every larger fuel ([Fuel.v]).

    ** What is not modelled

    Socket creation and binding, the wire, and the clock itself are outside
    the sources; [SimNet] is one model of them, used to run the functions
    on concrete traffic.  Signed overflow is undefined in C++ and is not
    given a wrap-around meaning: [ack_intermediates_int] and the
    theorems of [IntRange.v] show that under the stated ranges of
    [windowSize], [max], the sequence numbers and [retrans] every value
    the functions form fits in [int], so [Z] arithmetic is exact there;
    what the code does outside these ranges is not modelled.  Payload words beyond [message[0]] are carried but never
    inspected, as in the code.  The wire of [Peer.v] loses frames on the
    way to the server, drops acknowledgments on the way back and delays
    them by a time that is the same for all; it does not reorder or
    duplicate, and a frame that is not lost reaches the server at once.
    The sessions of the window functions, which say what the two
    functions return, are proved on three wires: one that loses frames,
    one that drops acknowledgments, one that delays them.  Two of these
    together, and frames that overtake each other, are covered by the
    system of [WindowSystem.v], which shows what holds in every state
    that is reached, which piece of code returns there, and that one
    path ends with both functions through their loops; that every run
    ends under some fairness of the channel is not shown (it does not
    hold: a run that enters the waiting loop with the trailing edge at
    the last slot ends in the read of line 135).  The channel of that
    system does not duplicate a datagram and keeps the acknowledgments
    in order.  The channel of the stop-and-wait system loses and delays
    datagrams and neither duplicates them nor changes their order: with
    one bit as sequence number the order is needed, as the run
    [stale_answer_accepted] shows.  For both systems the theorems say
    what holds in every configuration and that one path completes;
    completion under a fairness assumption on the channel is not
    stated.  What a retransmission of the window
    sender hands over, the bytes at an address that is no object of the
    program, reaches nobody on the wire.  The program that calls the
    five functions is not in the repository. *)

From stdpp Require Import prelude.

#[local] Open Scope Z_scope.

Declare Scope cint_scope.
Delimit Scope cint_scope with cint.

Create HintDb cint discriminated.
Create HintDb prog discriminated.
Create Rewrite HintDb cint_rw.
Create Rewrite HintDb prog_rw.

(** ** C integers *)

Definition INT_MAX : Z := 2147483647.
Definition INT_MIN : Z := -2147483648.

(** [z] is a value of type [int]. *)
Definition int_range (z : Z) : Prop := INT_MIN ≤ z ≤ INT_MAX.

(** The [%] operator of C++11: the quotient truncates towards zero, so the
    remainder has the sign of the dividend. *)
Definition cmod (a b : Z) : Z := Z.rem a b.

(** A [bool] used as an [int], and an [int] used as a condition. *)
Definition b2i (b : bool) : Z := if b then 1 else 0.
Definition i2b (z : Z) : bool := negb (z =? 0).

Notation "a %% b" := (cmod a b) (at level 40, left associativity) : cint_scope.
#[local] Open Scope cint_scope.

(** ** Arrays with checked subscripts *)

(** [a[i]] as an rvalue: [None] when [i] is outside the array. *)
Definition load {A : Type} (a : list A) (i : Z) : option A :=
  if (0 <=? i) && (i <? Z.of_nat (length a)) then a !! Z.to_nat i else None.

(** [a[i] = v]: [None] when [i] is outside the array. *)
Definition store {A : Type} (a : list A) (i : Z) (v : A) : option (list A) :=
  if (0 <=? i) && (i <? Z.of_nat (length a)) then Some (<[Z.to_nat i := v]> a) else None.

(** Copy the words [ws] over the front of [a], as a read of [length ws]
    words into the array does; [None] when they do not fit. *)
Definition blit {A : Type} (ws a : list A) : option (list A) :=
  if (length ws <=? length a)%nat then Some (ws ++ drop (length ws) a) else None.

(** ** Outcomes and the program monad *)

Inductive fault : Type :=
| OutOfBounds (i : Z)
| Indeterminate
| DivideByZero.

Inductive outcome (W A : Type) : Type :=
| Done (a : A) (w : W)
| Blocked (w : W)
| Fault (f : fault) (w : W)
| OutOfFuel (w : W).
Arguments Done {W A} a w.
Arguments Blocked {W A} w.
Arguments Fault {W A} f w.
Arguments OutOfFuel {W A} w.

Definition prog (W A : Type) : Type := W → outcome W A.

Definition prog_ret {W A : Type} (a : A) : prog W A := λ w, Done a w.

Definition prog_bind {W A B : Type} (f : A → prog W B) (m : prog W A) : prog W B :=
  λ w, match m w with
       | Done a w' => f a w'
       | Blocked w' => Blocked w'
       | Fault e w' => Fault e w'
       | OutOfFuel w' => OutOfFuel w'
       end.

#[export] Instance prog_mret {W : Type} : MRet (prog W) := @prog_ret W.
#[export] Instance prog_mbind {W : Type} : MBind (prog W) := @prog_bind W.

(** Reaching undefined behaviour, and lifting a checked access. *)
Definition fail {W A : Type} (e : fault) : prog W A := λ w, Fault e w.

Definition checked {W A : Type} (e : fault) (o : option A) : prog W A :=
  match o with Some a => mret a | None => fail e end.

(** An operation of the world that always returns, one that returns a
    value, and one that may block for ever. *)
Definition act {W : Type} (f : W → W) : prog W unit := λ w, Done tt (f w).
Definition ask {W A : Type} (f : W → A * W) : prog W A := λ w, Done (f w).1 (f w).2.
Definition await {W A : Type} (f : W → option (A * W)) : prog W A :=
  λ w, match f w with Some (a, w') => Done a w' | None => Blocked w end.

(** The local variables of a function as the state of a program: reading
    them, assigning them, and running such a program from inside one that
    acts on a world [W]. *)
Definition get {S : Type} : prog S S := λ s, Done s s.
Definition put {S : Type} (s : S) : prog S unit := λ _, Done tt s.
Definition local {W S A : Type} (m : prog S A) (s : S) : prog W (A * S) :=
  λ w, match m s with
       | Done a s' => Done (a, s') w
       | Blocked _ => Blocked w
       | Fault e _ => Fault e w
       | OutOfFuel _ => OutOfFuel w
       end.

(** ** Loops *)

(** One iteration either continues with a new loop state ([inl]) or leaves
    the loop with a result ([inr]). *)
Fixpoint loop {W X A : Type} (fuel : nat) (body : X → prog W (X + A)) (x : X) : prog W A :=
  match fuel with
  | O => λ w, OutOfFuel w
  | S n => r ← body x; match r with inl x' => loop n body x' | inr a => mret a end
  end.

(** [while (cond) body] *)
Definition while_do {W X : Type} (fuel : nat)
    (cond : X → prog W bool) (body : X → prog W X) : X → prog W X :=
  loop fuel (λ x, b ← cond x; if b : bool then x' ← body x; mret (inl x') else mret (inr x)).

(** [do body while (cond)] *)
Definition do_while {W X : Type} (fuel : nat)
    (body : X → prog W X) (cond : X → prog W bool) : X → prog W X :=
  loop fuel (λ x, x' ← body x; b ← cond x'; mret (if b : bool then inl x' else inr x')).

(** [for (i = lo; i < hi; ++i) body], the bounds not assigned in the body. *)
Fixpoint for_count {W X : Type} (n : nat) (i : Z) (body : Z → X → prog W X) (x : X) : prog W X :=
  match n with
  | O => mret x
  | S k => x' ← body i x; for_count k (i + 1) body x'
  end.

Definition for_range {W X : Type} (lo hi : Z) (body : Z → X → prog W X) : X → prog W X :=
  for_count (Z.to_nat (hi - lo)) lo body.

(** What a run says about termination. *)
Definition returns {W A : Type} (o : outcome W A) : Prop :=
  match o with Done _ _ => True | _ => False end.

Definition out_of_fuel {W A : Type} (o : outcome W A) : Prop :=
  match o with OutOfFuel _ => True | _ => False end.

Definition is_fault {W A : Type} (o : outcome W A) : Prop :=
  match o with Fault _ _ => True | _ => False end.

Definition is_blocked {W A : Type} (o : outcome W A) : Prop :=
  match o with Blocked _ => True | _ => False end.

(** The run ended by itself: it returned or it faulted. *)
Definition settles {W A : Type} (o : outcome W A) : Prop := returns o ∨ is_fault o.

(** The run did not fault, and [Q] holds of what it returned if it
    returned: partial correctness together with the absence of undefined
    behaviour. *)
Definition safe {W A : Type} (Q : A → W → Prop) (o : outcome W A) : Prop :=
  match o with
  | Done a w => Q a w
  | Fault _ _ => False
  | Blocked _ | OutOfFuel _ => True
  end.

(** The world in which a run ended, however it ended. *)
Definition world_of {W A : Type} (o : outcome W A) : W :=
  match o with
  | Done _ w | Blocked w | Fault _ w | OutOfFuel w => w
  end.

(** [P] holds of the world at the end of every run of [m] that starts in a
    world where it holds, whether the run returns, blocks, faults or is
    cut short: [P] is an invariant of the world across [m]. *)
Definition preserves {W A : Type} (P : W → Prop) (m : prog W A) : Prop :=
  ∀ w, P w → P (world_of (m w)).

(** From a world where [P] holds every run of [m] ends in a world where
    [Q] holds, whether the run returns, blocks, faults or is cut short. *)
Definition leads {W A : Type} (P Q : W → Prop) (m : prog W A) : Prop :=
  ∀ w, P w → Q (world_of (m w)).

(** ** Tactics *)

(** Case analysis on the boolean comparisons of the goal and context. *)
Ltac zbool_step :=
  match goal with
  | |- context [?a <? ?b] => destruct (Z.ltb_spec a b)
  | |- context [?a <=? ?b] => destruct (Z.leb_spec a b)
  | |- context [?a =? ?b] => destruct (Z.eqb_spec a b)
  | H : context [?a <? ?b] |- _ => destruct (Z.ltb_spec a b)
  | H : context [?a <=? ?b] |- _ => destruct (Z.leb_spec a b)
  | H : context [?a =? ?b] |- _ => destruct (Z.eqb_spec a b)
  end.
Ltac zbool := repeat (zbool_step; simpl in *; try lia; try done).

(** [lia] with the equations of division and remainder. *)
Ltac zmod := unfold cmod in *; Z.to_euclidean_division_equations; nia.

(** Unfold one layer of the monad. *)
Ltac prog_unfold :=
  unfold mbind, mret, prog_mbind, prog_mret, prog_bind, prog_ret,
    fail, checked, act, ask, await, get, put, local in *.
Ltac prog_simp := repeat (prog_unfold; simpl in *).

(** ** C arithmetic *)

Lemma cmod_mod a b : 0 ≤ a → 0 < b → a %% b = a `mod` b.
Proof. apply Z.rem_mod_nonneg. Qed.

Lemma cmod_range a b : 0 ≤ a → 0 < b → 0 ≤ a %% b < b.
Proof. intros. rewrite cmod_mod by done. by apply Z.mod_pos_bound. Qed.

Lemma cmod_small a b : 0 ≤ a < b → a %% b = a.
Proof. intros. unfold cmod. by apply Z.rem_small. Qed.

Lemma cmod_neg_range a b : a ≤ 0 → 0 < b → - b < a %% b ≤ 0.
Proof. intros. zmod. Qed.

Lemma cmod_between a b :
  0 < b → (0 ≤ a → 0 ≤ a %% b ≤ a) ∧ (a ≤ 0 → a ≤ a %% b ≤ 0).
Proof.
  intros Hb. unfold cmod. split; intros Ha.
  - pose proof (Z.rem_bound_pos a b). pose proof (Z.rem_le a b). lia.
  - pose proof (Z.rem_le (- a) b ltac:(lia) Hb) as Hle.
    rewrite Z.rem_opp_l in Hle by lia. pose proof (Z.rem_nonpos a b). lia.
Qed.

Lemma cmod_int_range a b : int_range a → 0 < b → int_range (a %% b).
Proof.
  unfold int_range, INT_MIN, INT_MAX. intros ? Hb.
  destruct (cmod_between a b Hb). lia.
Qed.

Lemma b2i_range b : 0 ≤ b2i b ≤ 1.
Proof. destruct b; simpl; lia. Qed.

Lemma b2i_land_1 b : Z.land (b2i b) 1 = b2i b.
Proof. by destruct b. Qed.

Lemma i2b_b2i b : i2b (b2i b) = b.
Proof. by destruct b. Qed.

Lemma land_1_mod z : Z.land z 1 = z `mod` 2.
Proof. change 1 with (Z.ones 1). by rewrite Z.land_ones. Qed.

Lemma land_1_range z : 0 ≤ Z.land z 1 ≤ 1.
Proof. rewrite land_1_mod. pose proof (Z.mod_pos_bound z 2). lia. Qed.

Lemma lxor_bits a b : 0 ≤ a ≤ 1 → 0 ≤ b ≤ 1 → Z.lxor a b = b2i (negb (a =? b)).
Proof.
  intros Ha Hb.
  assert (a = 0 ∨ a = 1) as [-> | ->] by lia;
    assert (b = 0 ∨ b = 1) as [-> | ->] by lia; done.
Qed.

Lemma lxor_eq_0 a b : Z.lxor a b = 0 ↔ a = b.
Proof. apply Z.lxor_eq_0_iff. Qed.

(** ** Arithmetic on a ring of [n] sequence numbers *)

Lemma ring_add_mod a b n : 0 < n → ((a `mod` n) + b) `mod` n = (a + b) `mod` n.
Proof. intros. by rewrite Zplus_mod_idemp_l. Qed.

Lemma ring_succ_neq a n : 1 < n → (a + 1) `mod` n ≠ a `mod` n.
Proof.
  intros Hn Heq. rewrite <- (ring_add_mod a 1 n) in Heq by lia.
  pose proof (Z.mod_pos_bound a n ltac:(lia)) as Hr.
  destruct (decide (a `mod` n + 1 < n)).
  - rewrite Z.mod_small in Heq; lia.
  - replace (a `mod` n + 1) with n in Heq by lia. rewrite Z_mod_same_full in Heq. lia.
Qed.

Lemma ring_dist_small a k n : 0 ≤ k < n → ((a + k) `mod` n - a `mod` n) `mod` n = k.
Proof.
  intros. rewrite Zminus_mod_idemp_l, Zminus_mod_idemp_r.
  replace (a + k - a) with k by lia. by apply Z.mod_small.
Qed.

Lemma ring_inj a b n : 0 ≤ a - b < n → a `mod` n = b `mod` n → a = b.
Proof.
  intros Hr Heq. assert ((a - b) `mod` n = 0) as H0.
  { rewrite Zminus_mod, Heq, Z.sub_diag. apply Z.mod_0_l. lia. }
  rewrite Z.mod_small in H0 by done. lia.
Qed.

Lemma ring_ahead_neq a k n : 0 < k < n → (a + k) `mod` n ≠ a `mod` n.
Proof. intros Hk Heq%ring_inj; lia. Qed.

Lemma ring_sub_mod a b n : 0 < n → (a - b `mod` n) `mod` n = (a - b) `mod` n.
Proof. intros. by rewrite Zminus_mod_idemp_r. Qed.

(** ** Arrays *)

Lemma load_Some {A} (a : list A) i x :
  load a i = Some x ↔ (0 ≤ i < Z.of_nat (length a)) ∧ a !! Z.to_nat i = Some x.
Proof.
  unfold load. split.
  - intros H. zbool.
  - intros [? ?]. zbool.
Qed.

Lemma load_None {A} (a : list A) i :
  load a i = None ↔ ¬ (0 ≤ i < Z.of_nat (length a)).
Proof.
  unfold load. split.
  - intros H. zbool. apply lookup_ge_None in H. lia.
  - intros ?. zbool.
Qed.

Lemma load_is_Some {A} (a : list A) i :
  is_Some (load a i) ↔ 0 ≤ i < Z.of_nat (length a).
Proof.
  rewrite <- not_eq_None_Some, load_None. split; [|tauto].
  intros ?. destruct (decide (0 ≤ i < Z.of_nat (length a))); tauto.
Qed.

Lemma store_Some {A} (a : list A) i v a' :
  store a i v = Some a' ↔ (0 ≤ i < Z.of_nat (length a)) ∧ a' = <[Z.to_nat i := v]> a.
Proof.
  unfold store. split.
  - intros H. zbool. by simplify_eq.
  - intros [? ->]. zbool.
Qed.

Lemma store_None {A} (a : list A) i v :
  store a i v = None ↔ ¬ (0 ≤ i < Z.of_nat (length a)).
Proof. unfold store. split; intros; zbool. Qed.

Lemma store_length {A} (a : list A) i v a' : store a i v = Some a' → length a' = length a.
Proof. intros (_ & ->)%store_Some. by rewrite length_insert. Qed.

Lemma load_store_eq {A} (a : list A) i v a' : store a i v = Some a' → load a' i = Some v.
Proof.
  intros (? & ->)%store_Some. apply load_Some.
  rewrite length_insert. split; [done|]. apply list_lookup_insert_eq. lia.
Qed.

Lemma load_store_ne {A} (a : list A) i j v a' :
  store a i v = Some a' → i ≠ j → load a' j = load a j.
Proof.
  intros (? & ->)%store_Some ?. unfold load. rewrite length_insert.
  destruct ((0 <=? j) && (j <? Z.of_nat (length a))) eqn:E; [|done].
  apply list_lookup_insert_ne. zbool.
Qed.

Lemma load_replicate {A} n (x : A) i :
  0 ≤ i < Z.of_nat n → load (replicate n x) i = Some x.
Proof.
  intros. apply load_Some. rewrite length_replicate. split; [done|].
  apply lookup_replicate. split; [done|lia].
Qed.

Lemma tail_drop {A} n (l : list A) : tail (drop n l) = drop (S n) l.
Proof. revert l. induction n as [|n IH]; intros [|x l]; simpl; done. Qed.

Lemma blit_length {A} (ws a a' : list A) : blit ws a = Some a' → length a' = length a.
Proof.
  unfold blit. case_match eqn:E; [|done]. intros [= <-].
  apply Nat.leb_le in E. rewrite length_app, length_drop. lia.
Qed.

Lemma blit_head {A} (w : A) ws a a' : blit (w :: ws) a = Some a' → load a' 0 = Some w.
Proof.
  unfold blit. case_match; [|done]. intros [= <-]. by apply load_Some; simpl; split; [lia|].
Qed.

Lemma blit_take_head {A} n (w : A) ws a a' :
  (1 ≤ n)%nat → blit (take n (w :: ws)) a = Some a' → load a' 0 = Some w.
Proof. destruct n; [lia|]. intros _. apply blit_head. Qed.

(** What lies beyond the copied words is unchanged. *)
Lemma blit_tail {A} (ws a a' : list A) i :
  blit ws a = Some a' → Z.of_nat (length ws) ≤ i → load a' i = load a i.
Proof.
  unfold blit. case_match eqn:Hle; [|done]. intros [= <-] Hi. apply Nat.leb_le in Hle.
  unfold load. rewrite length_app, length_drop.
  replace (length ws + (length a - length ws))%nat with (length a) by lia.
  case_match; [|done]. rewrite lookup_app_r, lookup_drop by lia. f_equal. lia.
Qed.

Lemma blit_nil {A} (a : list A) : blit [] a = Some a.
Proof. done. Qed.

Lemma blit_is_Some {A} (ws a : list A) : (length ws ≤ length a)%nat → is_Some (blit ws a).
Proof. intros Hle. unfold blit. by apply Nat.leb_le in Hle as ->. Qed.

Lemma blit_take_is_Some {A} n (d a : list A) : (n ≤ length a)%nat → is_Some (blit (take n d) a).
Proof. intros. apply blit_is_Some. rewrite length_take. lia. Qed.

(** A list under a map that splits around an element. *)
Lemma fmap_split {X Y} (f : X → Y) xs ys1 y ys2 :
  f <$> xs = ys1 ++ y :: ys2 →
  ∃ xs1 x xs2, xs = xs1 ++ x :: xs2 ∧ ys1 = f <$> xs1 ∧ y = f x ∧ ys2 = f <$> xs2.
Proof.
  intros (xs1 & xs' & -> & (x & xs2 & -> & -> & ->)%eq_sym%fmap_cons_inv & ->)%fmap_app_inv.
  by exists xs1, x, xs2.
Qed.

(** ** The monad *)

Section prog_lemmas.
Context {W : Type}.

Lemma bind_Done {A B} (m : prog W A) (f : A → prog W B) w a w' :
  m w = Done a w' → (m ≫= f) w = f a w'.
Proof. prog_simp. by intros ->. Qed.

Lemma bind_inv_Done {A B} (m : prog W A) (f : A → prog W B) w b w'' :
  (m ≫= f) w = Done b w'' → ∃ a w', m w = Done a w' ∧ f a w' = Done b w''.
Proof. prog_simp. destruct (m w); naive_solver. Qed.

Lemma bind_not_Done {A B} (m : prog W A) (f : A → prog W B) w :
  ¬ returns (m w) → ¬ returns ((m ≫= f) w).
Proof. prog_simp. by destruct (m w). Qed.

Lemma bind_Blocked {A B} (m : prog W A) (f : A → prog W B) w :
  is_blocked ((m ≫= f) w) →
  is_blocked (m w) ∨ ∃ a w', m w = Done a w' ∧ is_blocked (f a w').
Proof. prog_simp. destruct (m w); naive_solver. Qed.

Lemma act_run (f : W → W) w : act f w = Done tt (f w).
Proof. done. Qed.

Lemma checked_Some {A} e (a : A) (w : W) : checked e (Some a) w = Done a w.
Proof. done. Qed.

Lemma checked_None {A} e (w : W) : checked (A:=A) e None w = Fault e w.
Proof. done. Qed.

Lemma bind_assoc {A B C} (m : prog W A) (f : A → prog W B) (g : B → prog W C) w :
  ((m ≫= f) ≫= g) w = (m ≫= λ a, f a ≫= g) w.
Proof. prog_simp. by destruct (m w). Qed.

Lemma bind_ret_l {A B} (a : A) (f : A → prog W B) w : (mret a ≫= f) w = f a w.
Proof. done. Qed.

Lemma bind_Fault {A B} (m : prog W A) (f : A → prog W B) w e w' :
  m w = Fault e w' → (m ≫= f) w = Fault e w'.
Proof. intros E. prog_simp. by rewrite E. Qed.

Lemma bind_OutOfFuel {A B} (m : prog W A) (f : A → prog W B) w w' :
  m w = OutOfFuel w' → (m ≫= f) w = OutOfFuel w'.
Proof. intros E. prog_simp. by rewrite E. Qed.

Lemma bind_Blocked_l {A B} (m : prog W A) (f : A → prog W B) w w' :
  m w = Blocked w' → (m ≫= f) w = Blocked w'.
Proof. intros E. prog_simp. by rewrite E. Qed.

Lemma returns_Done {A} (o : outcome W A) : returns o ↔ ∃ a w, o = Done a w.
Proof. split; [destruct o; [by eexists _, _|done..]|by intros (a & w & ->)]. Qed.

(** *** Programs that neither wait nor loop *)

Lemma settles_ret {A} (a : A) (w : W) : settles ((mret a : prog W A) w).
Proof. by left. Qed.

Lemma settles_checked {A} e (o : option A) (w : W) : settles (checked e o w).
Proof. destruct o; [by left|by right]. Qed.

Lemma settles_bind {A B} (m : prog W A) (f : A → prog W B) w :
  settles (m w) → (∀ a w', m w = Done a w' → settles (f a w')) → settles ((m ≫= f) w).
Proof.
  intros Hm Hf. prog_simp.
  destruct (m w) as [a w'| | |]; [by apply Hf|by destruct Hm|by right|by destruct Hm].
Qed.

Lemma settles_not_blocked {A} (o : outcome W A) : settles o → ¬ is_blocked o.
Proof. destruct o; intros [|]; simpl in *; tauto. Qed.

Lemma settles_cases {A} (o : outcome W A) :
  settles o → (∃ a w, o = Done a w) ∨ (∃ e w, o = Fault e w).
Proof. destruct o; intros [|]; try done; [left|right]; by eexists _, _. Qed.

(** *** Runs that returned, read backwards *)

Lemma ret_inv_Done {A} (a b : A) (w w' : W) :
  (mret a : prog W A) w = Done b w' → b = a ∧ w' = w.
Proof. by intros [= <- <-]. Qed.

Lemma checked_inv_Done {A} e (o : option A) (w : W) a w' :
  checked e o w = Done a w' → o = Some a ∧ w' = w.
Proof. destruct o; [by intros [= <- <-]|done]. Qed.

Lemma act_inv_Done (f : W → W) w u w' : act f w = Done u w' → w' = f w.
Proof. by intros [= <-]. Qed.

Lemma ask_inv_Done {A} (f : W → A * W) w a w' : ask f w = Done a w' → a = (f w).1 ∧ w' = (f w).2.
Proof. by intros [= <- <-]. Qed.

Lemma local_run {S A} (m : prog S A) s a s' (w : W) :
  m s = Done a s' → local m s w = Done (a, s') w.
Proof. unfold local. by intros ->. Qed.

Lemma local_Fault {S A} (m : prog S A) s e s' (w : W) :
  m s = Fault e s' → local m s w = Fault e w.
Proof. unfold local. by intros ->. Qed.

Lemma local_inv_Done {S A} (m : prog S A) s (w : W) r w' :
  local m s w = Done r w' → m s = Done r.1 r.2 ∧ w' = w.
Proof. unfold local. destruct (m s); [|done..]. by intros [= <- <-]. Qed.

Lemma await_inv_Done {A} (f : W → option (A * W)) w a w' :
  await f w = Done a w' → f w = Some (a, w').
Proof. unfold await. destruct (f w) as [[]|]; [by intros [= <- <-]|done]. Qed.

(** *** Loops: unfolding *)

Lemma loop_S {X A} n (body : X → prog W (X + A)) x w :
  loop (S n) body x w =
  match body x w with
  | Done (inl x') w' => loop n body x' w'
  | Done (inr a) w' => Done a w'
  | Blocked w' => Blocked w'
  | Fault e w' => Fault e w'
  | OutOfFuel w' => OutOfFuel w'
  end.
Proof. simpl. prog_simp. by destruct (body x w) as [[]| | |]. Qed.

Lemma while_do_O {X} (cond : X → prog W bool) (body : X → prog W X) x w :
  while_do 0 cond body x w = OutOfFuel w.
Proof. done. Qed.

Lemma while_do_S {X} n (cond : X → prog W bool) (body : X → prog W X) x w :
  while_do (S n) cond body x w =
  match cond x w with
  | Done true w1 =>
      match body x w1 with
      | Done x' w2 => while_do n cond body x' w2
      | Blocked w2 => Blocked w2
      | Fault e w2 => Fault e w2
      | OutOfFuel w2 => OutOfFuel w2
      end
  | Done false w1 => Done x w1
  | Blocked w1 => Blocked w1
  | Fault e w1 => Fault e w1
  | OutOfFuel w1 => OutOfFuel w1
  end.
Proof.
  unfold while_do. rewrite loop_S. prog_simp.
  destruct (cond x w) as [[] w1| | |]; [|done..]. by destruct (body x w1).
Qed.

Lemma do_while_O {X} (body : X → prog W X) (cond : X → prog W bool) x w :
  do_while 0 body cond x w = OutOfFuel w.
Proof. done. Qed.

Lemma do_while_S {X} n (body : X → prog W X) (cond : X → prog W bool) x w :
  do_while (S n) body cond x w =
  match body x w with
  | Done x' w1 =>
      match cond x' w1 with
      | Done true w2 => do_while n body cond x' w2
      | Done false w2 => Done x' w2
      | Blocked w2 => Blocked w2
      | Fault e w2 => Fault e w2
      | OutOfFuel w2 => OutOfFuel w2
      end
  | Blocked w1 => Blocked w1
  | Fault e w1 => Fault e w1
  | OutOfFuel w1 => OutOfFuel w1
  end.
Proof.
  unfold do_while. rewrite loop_S. prog_simp.
  destruct (body x w) as [x' w1| | |]; [|done..]. by destruct (cond x' w1) as [[] ?| | |].
Qed.

(** A [while] loop whose condition holds in every state its body can
    lead to does not end: whatever the fuel, the run is cut short. *)
Lemma while_do_diverges {X} (I : X → W → Prop) n
    (cond : X → prog W bool) (body : X → prog W X) x w :
  (∀ x w, I x w → ∃ w1 x' w2, cond x w = Done true w1 ∧ body x w1 = Done x' w2 ∧ I x' w2) →
  I x w → ∃ x' w', while_do n cond body x w = OutOfFuel w' ∧ I x' w'.
Proof.
  intros Hstep. revert x w. induction n as [|n IH]; intros x w HI; [by exists x, w|].
  destruct (Hstep x w HI) as (w1 & x' & w2 & Hc & Hb & HI').
  rewrite while_do_S, Hc, Hb. by apply IH.
Qed.

(** *** Loops: fuel is only a bound *)

(** A run that did not exhaust its fuel gives the same outcome with more. *)
Lemma loop_fuel_mono {X A} n m (body : X → prog W (X + A)) x w :
  (n ≤ m)%nat → ¬ out_of_fuel (loop n body x w) → loop m body x w = loop n body x w.
Proof.
  revert m x w. induction n as [|n IH]; intros m x w Hle Hnf.
  - by destruct Hnf.
  - destruct m as [|m]; [lia|]. rewrite !loop_S in *.
    destruct (body x w) as [[x'|a] w'| | |]; try done. apply IH; [lia|done].
Qed.

Lemma loop_Done_mono {X A} n m (body : X → prog W (X + A)) x w a w' :
  (n ≤ m)%nat → loop n body x w = Done a w' → loop m body x w = Done a w'.
Proof. intros ? H. rewrite <- H. apply loop_fuel_mono; [done|]. rewrite H. by intros []. Qed.

Lemma while_do_fuel_mono {X} n m (cond : X → prog W bool) (body : X → prog W X) x w :
  (n ≤ m)%nat → ¬ out_of_fuel (while_do n cond body x w) →
  while_do m cond body x w = while_do n cond body x w.
Proof. apply loop_fuel_mono. Qed.

Lemma do_while_fuel_mono {X} n m (body : X → prog W X) (cond : X → prog W bool) x w :
  (n ≤ m)%nat → ¬ out_of_fuel (do_while n body cond x w) →
  do_while m body cond x w = do_while n body cond x w.
Proof. apply loop_fuel_mono. Qed.

(** *** Loops: invariants *)

(** An invariant of the loop state and the world that every continuing
    iteration preserves holds when the loop is left, and the last iteration
    is the one that produced the result. *)
Lemma loop_invariant {X A} (I : X → W → Prop) n (body : X → prog W (X + A)) x w a w' :
  (∀ x w x' w', I x w → body x w = Done (inl x') w' → I x' w') →
  I x w → loop n body x w = Done a w' →
  ∃ x1 w1, I x1 w1 ∧ body x1 w1 = Done (inr a) w'.
Proof.
  intros Hpres. revert x w. induction n as [|n IH]; intros x w HI; [done|].
  rewrite loop_S. destruct (body x w) as [[x1|a1] w1| | |] eqn:E; try done.
  - apply IH. eauto.
  - intros [= -> ->]. eauto.
Qed.

(** A property of the world that the body and the condition of a loop
    preserve holds when the loop returns. *)
Lemma do_while_world {X} (P : W → Prop) n (body : X → prog W X) (cond : X → prog W bool)
    x w x' w' :
  (∀ x w x' w', P w → body x w = Done x' w' → P w') →
  (∀ x w b w', P w → cond x w = Done b w' → P w') →
  P w → do_while n body cond x w = Done x' w' → P w'.
Proof.
  intros Hbody Hcond. revert x w. induction n as [|n IH]; intros x w HP; [done|].
  rewrite do_while_S. destruct (body x w) as [x1 w1| | |] eqn:Eb; try done.
  destruct (cond x1 w1) as [[] w2| | |] eqn:Ec; try done.
  - apply IH. eauto.
  - intros [= <- <-]. eauto.
Qed.

Lemma while_do_world {X} (P : W → Prop) n (cond : X → prog W bool) (body : X → prog W X)
    x w x' w' :
  (∀ x w x' w', P w → body x w = Done x' w' → P w') →
  (∀ x w b w', P w → cond x w = Done b w' → P w') →
  P w → while_do n cond body x w = Done x' w' → P w'.
Proof.
  intros Hbody Hcond. revert x w. induction n as [|n IH]; intros x w HP; [done|].
  rewrite while_do_S. destruct (cond x w) as [[] w1| | |] eqn:Ec; try done.
  - destruct (body x w1) as [x2 w2| | |] eqn:Eb; try done. apply IH. eauto.
  - intros [= <- <-]. eauto.
Qed.

(** Invariants that follow the loop state: [I] at the head of an
    iteration, [J] after the body of a [do ... while]; when the loop is
    left the condition has just been found false. *)
Lemma do_while_invariant {X} (I J : X → W → Prop) n
    (body : X → prog W X) (cond : X → prog W bool) x w x' w' :
  (∀ x w x' w', I x w → body x w = Done x' w' → J x' w') →
  (∀ x w w', J x w → cond x w = Done true w' → I x w') →
  I x w → do_while n body cond x w = Done x' w' →
  ∃ w1, J x' w1 ∧ cond x' w1 = Done false w'.
Proof.
  intros Hbody Hcond. revert x w. induction n as [|n IH]; intros x w HI; [done|].
  rewrite do_while_S. destruct (body x w) as [x1 w1| | |] eqn:Eb; try done.
  destruct (cond x1 w1) as [[] w2| | |] eqn:Ec; try done.
  - apply IH. eauto.
  - intros [= <- <-]. eauto.
Qed.

Lemma while_do_invariant {X} (I : X → W → Prop) n
    (cond : X → prog W bool) (body : X → prog W X) x w x' w' :
  (∀ x w x' w1 w', I x w → cond x w = Done true w1 → body x w1 = Done x' w' → I x' w') →
  I x w → while_do n cond body x w = Done x' w' →
  ∃ w1, I x' w1 ∧ cond x' w1 = Done false w'.
Proof.
  intros Hbody. revert x w. induction n as [|n IH]; intros x w HI; [done|].
  rewrite while_do_S. destruct (cond x w) as [[] w1| | |] eqn:Ec; try done.
  - destruct (body x w1) as [x2 w2| | |] eqn:Eb; try done. apply IH. eauto.
  - intros [= <- <-]. eauto.
Qed.

(** A sequence blocks only where one of its parts does. *)
Lemma bind_not_blocked {A B} (m : prog W A) (f : A → prog W B) w :
  ¬ is_blocked (m w) → (∀ a w', m w = Done a w' → ¬ is_blocked (f a w')) →
  ¬ is_blocked ((m ≫= f) w).
Proof.
  intros Hm Hf. prog_simp. destruct (m w) as [a w'| | |]; try (simpl in *; tauto).
  by apply Hf.
Qed.

(** A loop whose body never blocks does not block. *)
Lemma loop_not_blocked {X A} n (body : X → prog W (X + A)) x w :
  (∀ x w, ¬ is_blocked (body x w)) → ¬ is_blocked (loop n body x w).
Proof.
  intros Hb. revert x w. induction n as [|n IH]; intros x w; [simpl; tauto|].
  rewrite loop_S. specialize (Hb x w).
  destruct (body x w) as [[x1|a1] w1| | |]; try (simpl in *; tauto). apply IH.
Qed.

(** A measure that every continuing iteration decreases bounds the number
    of iterations, when the body itself does not run out of fuel. *)
Lemma loop_terminates {X A} (I : X → W → Prop) (μ : X → W → nat) n
    (body : X → prog W (X + A)) x w :
  (∀ x w x' w', I x w → body x w = Done (inl x') w' → I x' w' ∧ (μ x' w' < μ x w)%nat) →
  (∀ x w, I x w → ¬ out_of_fuel (body x w)) →
  I x w → (μ x w < n)%nat → ¬ out_of_fuel (loop n body x w).
Proof.
  intros Hdec Hbody. revert x w. induction n as [|n IH]; intros x w HI Hlt; [lia|].
  rewrite loop_S. specialize (Hbody x w HI).
  destruct (body x w) as [[x1|a1] w1| | |] eqn:E; try (simpl in *; tauto).
  destruct (Hdec _ _ _ _ HI E). apply IH; [done|lia].
Qed.

(** *** [for] loops *)

Lemma for_count_S {X} n i (body : Z → X → prog W X) x w :
  for_count (S n) i body x w =
  match body i x w with
  | Done x' w' => for_count n (i + 1) body x' w'
  | Blocked w' => Blocked w'
  | Fault e w' => Fault e w'
  | OutOfFuel w' => OutOfFuel w'
  end.
Proof. simpl. prog_simp. by destruct (body i x w). Qed.

Lemma for_range_empty {X} lo hi (body : Z → X → prog W X) x w :
  hi ≤ lo → for_range lo hi body x w = Done x w.
Proof. intros. unfold for_range. by replace (Z.to_nat (hi - lo)) with 0%nat by lia. Qed.

Lemma for_range_step {X} lo hi (body : Z → X → prog W X) x w :
  lo < hi →
  for_range lo hi body x w =
  match body lo x w with
  | Done x' w' => for_range (lo + 1) hi body x' w'
  | Blocked w' => Blocked w'
  | Fault e w' => Fault e w'
  | OutOfFuel w' => OutOfFuel w'
  end.
Proof.
  intros. unfold for_range.
  replace (Z.to_nat (hi - lo)) with (S (Z.to_nat (hi - (lo + 1)))) by lia.
  apply for_count_S.
Qed.

Lemma for_count_not_blocked {X} n i (body : Z → X → prog W X) x w :
  (∀ j x w, ¬ is_blocked (body j x w)) → ¬ is_blocked (for_count n i body x w).
Proof.
  intros Hb. revert i x w. induction n as [|n IH]; intros i x w; [simpl; tauto|].
  rewrite for_count_S. specialize (Hb i x w).
  destruct (body i x w); try (simpl in *; tauto). apply IH.
Qed.

Lemma settles_for_count {X} n i (body : Z → X → prog W X) x w :
  (∀ j x w, settles (body j x w)) → settles (for_count n i body x w).
Proof.
  intros Hb. revert i x w. induction n as [|n IH]; intros i x w; [by left|].
  rewrite for_count_S. specialize (Hb i x w).
  destruct (body i x w); [apply IH|by destruct Hb|by right|by destruct Hb].
Qed.

(** A [for] loop returns when each iteration does, from any state that
    satisfies the invariant. *)
Lemma for_count_returns {X} (I : Z → X → W → Prop) n i (body : Z → X → prog W X) x w :
  (∀ j x w, i ≤ j < i + Z.of_nat n → I j x w →
     ∃ x' w', body j x w = Done x' w' ∧ I (j + 1) x' w') →
  I i x w → ∃ x' w', for_count n i body x w = Done x' w' ∧ I (i + Z.of_nat n) x' w'.
Proof.
  revert i x w. induction n as [|n IH]; intros i x w Hbody HI.
  - exists x, w. by replace (i + Z.of_nat 0) with i by lia.
  - destruct (Hbody i x w) as (x1 & w1 & E & HI1); [lia|done|].
    rewrite for_count_S, E. replace (i + Z.of_nat (S n)) with ((i + 1) + Z.of_nat n) by lia.
    apply IH; [|done]. intros j ? ? ?. apply Hbody. lia.
Qed.

Lemma for_range_returns {X} (I : Z → X → W → Prop) lo hi (body : Z → X → prog W X) x w :
  lo ≤ hi →
  (∀ j x w, lo ≤ j < hi → I j x w → ∃ x' w', body j x w = Done x' w' ∧ I (j + 1) x' w') →
  I lo x w → ∃ x' w', for_range lo hi body x w = Done x' w' ∧ I hi x' w'.
Proof.
  intros Hle Hbody HI.
  destruct (for_count_returns I (Z.to_nat (hi - lo)) lo body x w) as (x' & w' & E & HI');
    [|done|].
  - intros j ? ? ?. apply Hbody. lia.
  - exists x', w'. split; [done|]. by replace hi with (lo + Z.of_nat (Z.to_nat (hi - lo))) by lia.
Qed.

(** The first iterations of a [for] loop return, and the loop goes on
    from where they end. *)
Lemma for_count_upto {X} (I : Z → X → W → Prop) n m i (body : Z → X → prog W X) x w :
  (∀ j x w, i ≤ j < i + Z.of_nat n → I j x w →
     ∃ x' w', body j x w = Done x' w' ∧ I (j + 1) x' w') →
  I i x w →
  ∃ x' w', I (i + Z.of_nat n) x' w' ∧
    for_count (n + m) i body x w = for_count m (i + Z.of_nat n) body x' w'.
Proof.
  revert i x w. induction n as [|n IH]; intros i x w Hbody HI.
  - exists x, w. by replace (i + Z.of_nat 0) with i by lia.
  - destruct (Hbody i x w) as (x1 & w1 & E & HI1); [lia|done|].
    change (S n + m)%nat with (S (n + m)). rewrite for_count_S, E.
    replace (i + Z.of_nat (S n)) with ((i + 1) + Z.of_nat n) by lia.
    apply IH; [|done]. intros j ? ? ?. apply Hbody. lia.
Qed.

Lemma for_range_upto {X} (I : Z → X → W → Prop) lo mid hi (body : Z → X → prog W X) x w :
  lo ≤ mid ≤ hi →
  (∀ j x w, lo ≤ j < mid → I j x w → ∃ x' w', body j x w = Done x' w' ∧ I (j + 1) x' w') →
  I lo x w →
  ∃ x' w', I mid x' w' ∧ for_range lo hi body x w = for_range mid hi body x' w'.
Proof.
  intros Hle Hbody HI. unfold for_range.
  replace (Z.to_nat (hi - lo)) with (Z.to_nat (mid - lo) + Z.to_nat (hi - mid))%nat by lia.
  destruct (for_count_upto I (Z.to_nat (mid - lo)) (Z.to_nat (hi - mid)) lo body x w)
    as (x' & w' & HI' & E); [|done|].
  - intros j ? ? ?. apply Hbody. lia.
  - exists x', w'. by replace (lo + Z.of_nat (Z.to_nat (mid - lo))) with mid in * by lia.
Qed.

(** An invariant indexed by the loop counter. *)
Lemma for_count_invariant {X} (I : Z → X → W → Prop) n i (body : Z → X → prog W X) x w x' w' :
  (∀ j x w x' w', i ≤ j < i + Z.of_nat n → I j x w → body j x w = Done x' w' → I (j + 1) x' w') →
  I i x w → for_count n i body x w = Done x' w' → I (i + Z.of_nat n) x' w'.
Proof.
  revert i x w. induction n as [|n IH]; intros i x w Hpres HI.
  - intros [= <- <-]. by replace (i + Z.of_nat 0) with i by lia.
  - rewrite for_count_S. destruct (body i x w) as [x1 w1| | |] eqn:E; try done.
    intros Hrun. replace (i + Z.of_nat (S n)) with ((i + 1) + Z.of_nat n) by lia.
    eapply IH; [| |done].
    + intros j ? ? ? ? ?. apply Hpres. lia.
    + eapply Hpres; [lia|done..].
Qed.

(** When a [for] loop returns, every one of its iterations returned, each
    from a state that satisfies the invariant. *)
Lemma for_count_body_returns {X} (I : Z → X → W → Prop) n i
    (body : Z → X → prog W X) x w :
  (∀ j x w x' w', i ≤ j < i + Z.of_nat n → I j x w → body j x w = Done x' w' → I (j + 1) x' w') →
  I i x w → returns (for_count n i body x w) →
  ∀ j, i ≤ j < i + Z.of_nat n → ∃ xj wj, I j xj wj ∧ returns (body j xj wj).
Proof.
  revert i x w. induction n as [|n IH]; intros i x w Hpres HI Hret j Hj; [lia|].
  rewrite for_count_S in Hret. destruct (body i x w) as [x1 w1| | |] eqn:E; try done.
  destruct (decide (j = i)) as [-> | Hne].
  - exists x, w. by rewrite E.
  - eapply (IH (i + 1)); [| |done|lia].
    + intros ? ? ? ? ? ?. apply Hpres. lia.
    + eapply Hpres; [lia|done..].
Qed.

Lemma for_range_body_returns {X} (I : Z → X → W → Prop) lo hi
    (body : Z → X → prog W X) x w :
  (∀ j x w x' w', lo ≤ j < hi → I j x w → body j x w = Done x' w' → I (j + 1) x' w') →
  I lo x w → returns (for_range lo hi body x w) →
  ∀ j, lo ≤ j < hi → ∃ xj wj, I j xj wj ∧ returns (body j xj wj).
Proof.
  intros Hpres HI Hret j Hj. eapply for_count_body_returns; [|done..|lia].
  intros ? ? ? ? ? ?. apply Hpres. lia.
Qed.

Lemma for_range_invariant {X} (I : Z → X → W → Prop) lo hi
    (body : Z → X → prog W X) x w x' w' :
  lo ≤ hi →
  (∀ j x w x' w', lo ≤ j < hi → I j x w → body j x w = Done x' w' → I (j + 1) x' w') →
  I lo x w → for_range lo hi body x w = Done x' w' → I hi x' w'.
Proof.
  intros Hle Hpres HI Hrun. replace hi with (lo + Z.of_nat (Z.to_nat (hi - lo))) by lia.
  eapply for_count_invariant; [|done..]. intros ? ? ? ? ? ?. apply Hpres. lia.
Qed.

(** *** Safety: no fault, and an invariant where the run returns *)

Lemma safe_bind {A B} (Q : A → W → Prop) (R : B → W → Prop) (m : prog W A) (f : A → prog W B) w :
  safe Q (m w) → (∀ a w', Q a w' → safe R (f a w')) → safe R ((m ≫= f) w).
Proof. intros Hm Hf. prog_simp. destruct (m w); try done. by apply Hf. Qed.

Lemma safe_mono {A} (Q Q' : A → W → Prop) (o : outcome W A) :
  (∀ a w, Q a w → Q' a w) → safe Q o → safe Q' o.
Proof. intros HQ. destruct o; try done. apply HQ. Qed.

Lemma safe_Done {A} (Q : A → W → Prop) (o : outcome W A) a w : safe Q o → o = Done a w → Q a w.
Proof. by intros Hs ->. Qed.

Lemma safe_not_fault {A} (Q : A → W → Prop) (o : outcome W A) : safe Q o → ¬ is_fault o.
Proof. destruct o; simpl; tauto. Qed.

Lemma safe_do_while {X} (I : X → W → Prop) (J : X → W → Prop) n
    (body : X → prog W X) (cond : X → prog W bool) x w :
  (∀ x w, I x w → safe J (body x w)) →
  (∀ x w, J x w → safe (λ (b : bool) w', if b then I x w' else J x w') (cond x w)) →
  I x w → safe J (do_while n body cond x w).
Proof.
  intros Hbody Hcond. revert x w. induction n as [|n IH]; intros x w HI; [done|].
  rewrite do_while_S. specialize (Hbody x w HI).
  destruct (body x w) as [x1 w1| | |]; try done.
  specialize (Hcond x1 w1 Hbody). destruct (cond x1 w1) as [[] w2| | |]; try done.
  by apply IH.
Qed.

Lemma safe_while_do {X} (I : X → W → Prop) n
    (cond : X → prog W bool) (body : X → prog W X) x w :
  (∀ x w, I x w → safe (λ _ w', I x w') (cond x w)) →
  (∀ x w, I x w → safe I (body x w)) →
  I x w → safe I (while_do n cond body x w).
Proof.
  intros Hcond Hbody. revert x w. induction n as [|n IH]; intros x w HI; [done|].
  rewrite while_do_S. specialize (Hcond x w HI).
  destruct (cond x w) as [[] w1| | |]; try done.
  specialize (Hbody x w1 Hcond). destruct (body x w1) as [x2 w2| | |]; try done.
  by apply IH.
Qed.

Lemma safe_for_count {X} (I : Z → X → W → Prop) n i (body : Z → X → prog W X) x w :
  (∀ j x w, i ≤ j < i + Z.of_nat n → I j x w → safe (I (j + 1)) (body j x w)) →
  I i x w → safe (I (i + Z.of_nat n)) (for_count n i body x w).
Proof.
  revert i x w. induction n as [|n IH]; intros i x w Hbody HI.
  - simpl. by replace (i + Z.of_nat 0) with i by lia.
  - rewrite for_count_S. pose proof (Hbody i x w ltac:(lia) HI) as Hb.
    destruct (body i x w) as [x1 w1| | |]; try done.
    replace (i + Z.of_nat (S n)) with ((i + 1) + Z.of_nat n) by lia.
    apply IH; [|done]. intros j ? ? ?. apply Hbody. lia.
Qed.

Lemma safe_for_range {X} (I : Z → X → W → Prop) lo hi (body : Z → X → prog W X) x w :
  lo ≤ hi →
  (∀ j x w, lo ≤ j < hi → I j x w → safe (I (j + 1)) (body j x w)) →
  I lo x w → safe (I hi) (for_range lo hi body x w).
Proof.
  intros Hle Hbody HI.
  pose proof (safe_for_count I (Z.to_nat (hi - lo)) lo body x w) as Hs.
  replace (lo + Z.of_nat (Z.to_nat (hi - lo))) with hi in Hs by lia.
  apply Hs; [|done]. intros j ? ? ?. apply Hbody. lia.
Qed.

(** *** Invariants of the world *)

Section preserves.
Context (P : W → Prop).

Lemma preserves_ret {A} (a : A) : preserves P (mret a).
Proof. by intros w. Qed.

Lemma preserves_fail {A} e : preserves P (fail (A:=A) e).
Proof. by intros w. Qed.

Lemma preserves_checked {A} e (o : option A) : preserves P (checked e o).
Proof. by destruct o; intros w. Qed.

Lemma preserves_bind {A B} (m : prog W A) (f : A → prog W B) :
  preserves P m → (∀ a, preserves P (f a)) → preserves P (m ≫= f).
Proof.
  intros Hm Hf w HP. specialize (Hm w HP). prog_simp.
  destruct (m w) as [a w'| | |]; try done. by apply Hf.
Qed.

Lemma preserves_act (f : W → W) : (∀ w, P w → P (f w)) → preserves P (act f).
Proof. intros Hf w HP. by apply Hf. Qed.

Lemma preserves_ask {A} (f : W → A * W) : (∀ w, P w → P (f w).2) → preserves P (ask f).
Proof. intros Hf w HP. by apply Hf. Qed.

Lemma preserves_await {A} (f : W → option (A * W)) :
  (∀ w a w', P w → f w = Some (a, w') → P w') → preserves P (await f).
Proof.
  intros Hf w HP. unfold await. destruct (f w) as [[a w']|] eqn:E; [|done]. by eapply Hf.
Qed.

Lemma preserves_local {S A} (m : prog S A) (s : S) : preserves P (local m s).
Proof. intros w HP. unfold local. by destruct (m s). Qed.

Lemma preserves_if {A} (b : bool) (m1 m2 : prog W A) :
  preserves P m1 → preserves P m2 → preserves P (if b then m1 else m2).
Proof. by destruct b. Qed.

Lemma preserves_loop {X A} n (body : X → prog W (X + A)) x :
  (∀ x, preserves P (body x)) → preserves P (loop n body x).
Proof.
  intros Hb. revert x. induction n as [|n IH]; intros x w HP; [done|].
  rewrite loop_S. specialize (Hb x w HP).
  destruct (body x w) as [[x'|a] w'| | |]; try done. by apply IH.
Qed.

Lemma preserves_while_do {X} n (cond : X → prog W bool) (body : X → prog W X) x :
  (∀ x, preserves P (cond x)) → (∀ x, preserves P (body x)) →
  preserves P (while_do n cond body x).
Proof.
  intros Hc Hb. apply preserves_loop. intros x'.
  apply preserves_bind; [done|]. intros [].
  - apply preserves_bind; [done|]. intros. apply preserves_ret.
  - apply preserves_ret.
Qed.

Lemma preserves_do_while {X} n (body : X → prog W X) (cond : X → prog W bool) x :
  (∀ x, preserves P (body x)) → (∀ x, preserves P (cond x)) →
  preserves P (do_while n body cond x).
Proof.
  intros Hb Hc. apply preserves_loop. intros x'.
  apply preserves_bind; [done|]. intros x''.
  apply preserves_bind; [done|]. intros. apply preserves_ret.
Qed.

Lemma preserves_for_count {X} n i (body : Z → X → prog W X) x :
  (∀ j x, preserves P (body j x)) → preserves P (for_count n i body x).
Proof.
  intros Hb. revert i x. induction n as [|n IH]; intros i x; [apply preserves_ret|].
  simpl. apply preserves_bind; [done|]. intros. apply IH.
Qed.

Lemma preserves_for_range {X} lo hi (body : Z → X → prog W X) x :
  (∀ j x, preserves P (body j x)) → preserves P (for_range lo hi body x).
Proof. apply preserves_for_count. Qed.

(** An invariant of the world holds where a run returned. *)
Lemma preserves_Done {A} (m : prog W A) w a w' :
  preserves P m → P w → m w = Done a w' → P w'.
Proof. intros Hm HP E. specialize (Hm w HP). by rewrite E in Hm. Qed.

End preserves.

(** *** From one property of the world to the next *)

Lemma preserves_leads (P : W → Prop) {A} (m : prog W A) : preserves P m → leads P P m.
Proof. done. Qed.

Lemma leads_weaken (P P' Q Q' : W → Prop) {A} (m : prog W A) :
  (∀ w, P' w → P w) → (∀ w, Q w → Q' w) → leads P Q m → leads P' Q' m.
Proof. intros HP HQ Hm w Hw. by apply HQ, Hm, HP. Qed.

(** A run of [m ≫= f] may end inside [m]: what holds between the two
    must be enough for the end. *)
Lemma leads_bind (P R Q : W → Prop) {A B} (m : prog W A) (f : A → prog W B) :
  leads P R m → (∀ w, R w → Q w) → (∀ a, leads R Q (f a)) → leads P Q (m ≫= f).
Proof.
  intros Hm HRQ Hf w HP. specialize (Hm w HP). prog_simp.
  destruct (m w) as [a w'| | |]; try by apply HRQ. by apply Hf.
Qed.

(** A [for] loop whose pass [j] leads from [P j] to [P (j + 1)], for a
    [P] that grows with [j]. *)
Lemma grows_steps (P : Z → W → Prop) i (k : nat) w :
  (∀ j w, P j w → P (j + 1) w) → P i w → P (i + Z.of_nat k) w.
Proof.
  intros Hmono HP. induction k as [|k IH]; [by rewrite Z.add_0_r|].
  replace (i + Z.of_nat (S k)) with (i + Z.of_nat k + 1) by lia. by apply Hmono.
Qed.

Lemma leads_for_count (P : Z → W → Prop) {X} n i (body : Z → X → prog W X) x :
  (∀ j w, P j w → P (j + 1) w) →
  (∀ j x, i ≤ j < i + Z.of_nat n → leads (P j) (P (j + 1)) (body j x)) →
  leads (P i) (P (i + Z.of_nat n)) (for_count n i body x).
Proof.
  intros Hmono. revert i x. induction n as [|n IH]; intros i x Hbody w HP.
  - simpl. by replace (i + Z.of_nat 0) with i by lia.
  - rewrite for_count_S. pose proof (Hbody i x ltac:(lia) w HP) as Hb.
    replace (i + Z.of_nat (S n)) with (i + 1 + Z.of_nat n) by lia.
    destruct (body i x w) as [x1 w1| | |]; simpl in *; [|by apply grows_steps..].
    apply IH; [|done]. intros. apply Hbody. lia.
Qed.

Lemma leads_for_range (P : Z → W → Prop) {X} lo hi (body : Z → X → prog W X) x :
  lo ≤ hi → (∀ j w, P j w → P (j + 1) w) →
  (∀ j x, lo ≤ j < hi → leads (P j) (P (j + 1)) (body j x)) →
  leads (P lo) (P hi) (for_range lo hi body x).
Proof.
  intros Hle Hmono Hbody.
  pose proof (leads_for_count P (Z.to_nat (hi - lo)) lo body x Hmono) as Hl.
  replace (lo + Z.of_nat (Z.to_nat (hi - lo))) with hi in Hl by lia.
  apply Hl. intros j ? ?. apply Hbody. lia.
Qed.

End prog_lemmas.

(** Takes apart a hypothesis that says a program returned, one statement
    at a time. *)
Ltac prog_inv_step :=
  match goal with
  | H : (_ ≫= _) _ = Done _ _ |- _ =>
      let a := fresh "a" in let w := fresh "w" in let Ha := fresh "Hrun" in
      apply bind_inv_Done in H as (a & w & Ha & H)
  | H : mret _ _ = Done _ _ |- _ => apply ret_inv_Done in H as [? ?]
  | H : checked _ _ _ = Done _ _ |- _ => apply checked_inv_Done in H as [? ?]
  | H : act _ _ = Done _ _ |- _ => apply act_inv_Done in H
  | H : ask _ _ = Done _ _ |- _ => apply ask_inv_Done in H as [? ?]
  | H : await _ _ = Done _ _ |- _ => apply await_inv_Done in H
  | H : (if ?b then _ else _) _ = Done _ _ |- _ => destruct b eqn:?
  | H : Fault _ _ = Done _ _ |- _ => discriminate H
  | H : fail _ _ = Done _ _ |- _ => discriminate H
  end.
Ltac prog_inv := repeat (prog_inv_step; subst).

#[export] Hint Resolve preserves_ret preserves_fail preserves_checked preserves_local : prog.

#[export] Hint Rewrite cmod_mod using lia : cint_rw.
#[export] Hint Rewrite cmod_small using lia : cint_rw.
#[export] Hint Resolve cmod_range cmod_int_range b2i_range land_1_range : cint.
#[export] Hint Rewrite @checked_Some @checked_None @act_run : prog_rw.
