(* ===== verification/Transport.v ===== *)
(** * The socket and the timer

    [src/udp.cpp] includes [UdpSocket.h] and [Timer.h], which are not part
    of the sources.  This file states what the five functions use of them,
    following sections 3 and 6 of the specification:

    - [Transport]: the operations of a world [W] that holds the socket and
      the clock, and [TransportLaws], the promises the functions rely on;
    - the call sites of the source as programs over any such world
      ([sendTo_array], [sendTo_addr], [ackTo_int], [pollRecvFrom],
      [recvFrom_array], [recvFrom_int]) and the [Timer] object
      ([timer_start], [timer_lap]);
    - [stable] and [calm]: the properties of the world that every
      operation keeps, and those that every operation keeps but the
      sending of a frame, with the rule of each call site;
    - [Module SimNet]: a discrete-event network that implements the
      interface and on which the functions can be run, and the round trip
      of an array through the two call sites on it. *)

From stdpp Require Import prelude.
From S2P Require Import Prelude.

#[local] Open Scope Z_scope.

(** ** Sizes *)

(** [message] is declared [int message[]] as a parameter, so
    [sizeof(message)] is the size of a pointer; both sizes are fixed by the
    platform. *)
Class Platform : Type := {
  sizeof_int : Z;
  sizeof_ptr : Z
}.

Definition LP64 : Platform := {| sizeof_int := 4; sizeof_ptr := 8 |}.
Definition ILP32 : Platform := {| sizeof_int := 4; sizeof_ptr := 4 |}.

(** The number of [int]s that [len] bytes hold. *)
Definition words_of {PF : Platform} (len : Z) : nat := Z.to_nat (len / sizeof_int).

(** The retransmission timeout, in the unit of [Timer::lap]. *)
Definition MAX_TIME : Z := 1500.

(** ** The interface *)

(** What is handed to the transport: the words read from an array of the
    program, or [len] bytes at a machine address that is not an object of
    the program. *)
Inductive datagram : Type :=
| Words (ws : list Z)
| Wild (addr len : Z).

#[export] Instance datagram_eq_dec : EqDecision datagram.
Proof. solve_decision. Defined.

Class Transport (W : Type) : Type := {
  (** best-effort transmission to the peer *)
  sock_sendTo : datagram → W → W;
  (** the same, used by the receiving side for acknowledgments *)
  sock_ackTo : datagram → W → W;
  (** non-blocking: a positive count when a datagram is available *)
  sock_pollRecvFrom : W → Z * W;
  (** blocking: consumes one datagram, truncated to the words asked for;
      [None] when nothing will ever arrive *)
  sock_recvFrom : nat → W → option (list Z * W);
  (** the time now *)
  clock : W → Z * W
}.

Class TransportLaws (W : Type) {TW : Transport W} : Prop := {
  (** after a poll that reported a datagram, a receive does not block *)
  poll_ready w n :
    0 < (sock_pollRecvFrom w).1 → is_Some (sock_recvFrom n (sock_pollRecvFrom w).2);
  (** a receive delivers no more than it was asked for *)
  recv_truncated w n ws w' :
    sock_recvFrom n w = Some (ws, w') → (length ws ≤ n)%nat
}.

(** A property of the world that every operation of the transport keeps. *)
Record stable {W : Type} {TW : Transport W} (P : W → Prop) : Prop := {
  stable_sendTo d w : P w → P (sock_sendTo d w);
  stable_ackTo d w : P w → P (sock_ackTo d w);
  stable_poll w : P w → P (sock_pollRecvFrom w).2;
  stable_recv n w ws w' : P w → sock_recvFrom n w = Some (ws, w') → P w';
  stable_clock w : P w → P (clock w).2
}.

(** A property of the world that every operation keeps, except possibly
    the sending of a frame ([Words]). *)
Record calm {W : Type} {TW : Transport W} (P : W → Prop) : Prop := {
  calm_sendTo addr len w : P w → P (sock_sendTo (Wild addr len) w);
  calm_ackTo d w : P w → P (sock_ackTo d w);
  calm_poll w : P w → P (sock_pollRecvFrom w).2;
  calm_recv n w ws w' : P w → sock_recvFrom n w = Some (ws, w') → P w';
  calm_clock w : P w → P (clock w).2
}.

(** ** The call sites of the source *)

Section calls.
Context {W : Type} {TW : Transport W} {PF : Platform}.

(** [sock.sendTo((char* )message, len)]: reads [len] bytes of the array. *)
Definition sendTo_array (message : list Z) (len : Z) : prog W unit :=
  if (words_of len <=? length message)%nat
  then act (sock_sendTo (Words (take (words_of len) message)))
  else fail (OutOfBounds (Z.of_nat (length message))).

(** [sock.sendTo((char* )v, len)] with [v] an [int]: the integer is used
    as the address of the bytes to send. *)
Definition sendTo_addr (v : Z) (len : Z) : prog W unit :=
  act (sock_sendTo (Wild v len)).

(** [sock.ackTo((char* )&v, sizeof(int))] *)
Definition ackTo_int (v : Z) : prog W unit :=
  act (sock_ackTo (Words [v])).

(** [sock.pollRecvFrom()] *)
Definition pollRecvFrom : prog W Z := ask sock_pollRecvFrom.

(** [sock.recvFrom((char* )message, len)]: the array after the call. *)
Definition recvFrom_array (message : list Z) (len : Z) : prog W (list Z) :=
  ws ← await (sock_recvFrom (words_of len));
  checked (OutOfBounds (Z.of_nat (length message))) (blit ws message).

(** [sock.recvFrom((char* )&x, sizeof(int))]: the variable after the call;
    [x] keeps its old value, possibly indeterminate, when the datagram is
    empty. *)
Definition recvFrom_int (x : option Z) : prog W (option Z) :=
  ws ← await (sock_recvFrom (words_of sizeof_int));
  mret (match ws with v :: _ => Some v | [] => x end).

(** ** The timer *)

(** A [Timer] remembers when it was started. *)
Record Timer : Type := { startTime : Z }.

(** [timeout.start()] *)
Definition timer_start : prog W Timer :=
  t ← ask clock; mret {| startTime := t |}.

(** [timeout.lap()] *)
Definition timer_lap (tm : Timer) : prog W Z :=
  t ← ask clock; mret (t - startTime tm).

(** ** What the call sites do *)

Lemma sendTo_array_run message len w :
  (words_of len ≤ length message)%nat →
  sendTo_array message len w = Done tt (sock_sendTo (Words (take (words_of len) message)) w).
Proof. intros Hle. unfold sendTo_array. by apply Nat.leb_le in Hle as ->. Qed.

Lemma sendTo_array_fault message len w :
  (length message < words_of len)%nat →
  sendTo_array message len w = Fault (OutOfBounds (Z.of_nat (length message))) w.
Proof. intros Hlt. unfold sendTo_array. by apply Nat.leb_gt in Hlt as ->. Qed.

Lemma sendTo_array_not_blocked message len w : ¬ is_blocked (sendTo_array message len w).
Proof. unfold sendTo_array. case_match; simpl; tauto. Qed.

Lemma pollRecvFrom_run w :
  pollRecvFrom w = Done (sock_pollRecvFrom w).1 (sock_pollRecvFrom w).2.
Proof. done. Qed.

Lemma timer_start_run w : timer_start w = Done {| startTime := (clock w).1 |} (clock w).2.
Proof. done. Qed.

Lemma timer_lap_run tm w : timer_lap tm w = Done ((clock w).1 - startTime tm) (clock w).2.
Proof. done. Qed.

Lemma recvFrom_int_run x n w ws w' :
  words_of sizeof_int = n → sock_recvFrom n w = Some (ws, w') →
  recvFrom_int x w = Done (match ws with v :: _ => Some v | [] => x end) w'.
Proof. intros <- Hr. unfold recvFrom_int. prog_simp. by rewrite Hr. Qed.

Lemma recvFrom_int_blocked x w :
  sock_recvFrom (words_of sizeof_int) w = None → recvFrom_int x w = Blocked w.
Proof. intros Hr. unfold recvFrom_int. prog_simp. by rewrite Hr. Qed.

Lemma recvFrom_array_run message len w ws w' message' :
  sock_recvFrom (words_of len) w = Some (ws, w') → blit ws message = Some message' →
  recvFrom_array message len w = Done message' w'.
Proof. intros Hr Hb. unfold recvFrom_array. prog_simp. by rewrite Hr, Hb. Qed.

Lemma recvFrom_array_blocked message len w :
  sock_recvFrom (words_of len) w = None → recvFrom_array message len w = Blocked w.
Proof. intros Hr. unfold recvFrom_array. prog_simp. by rewrite Hr. Qed.

Lemma sendTo_array_inv message len w u w' :
  sendTo_array message len w = Done u w' →
  (words_of len ≤ length message)%nat ∧
  w' = sock_sendTo (Words (take (words_of len) message)) w.
Proof.
  unfold sendTo_array. destruct (Nat.leb_spec (words_of len) (length message)); [|done].
  by intros [= <-].
Qed.

Lemma recvFrom_int_inv x w r w' :
  recvFrom_int x w = Done r w' →
  ∃ ws, sock_recvFrom (words_of sizeof_int) w = Some (ws, w') ∧
        r = match ws with v :: _ => Some v | [] => x end.
Proof. unfold recvFrom_int. intros Hrun. prog_inv. eauto. Qed.

Lemma recvFrom_array_inv message len w message' w' :
  recvFrom_array message len w = Done message' w' →
  ∃ ws, sock_recvFrom (words_of len) w = Some (ws, w') ∧ blit ws message = Some message'.
Proof. unfold recvFrom_array. intros Hrun. prog_inv. eauto. Qed.

Lemma timer_start_inv w tm w' :
  timer_start w = Done tm w' → tm = {| startTime := (clock w).1 |} ∧ w' = (clock w).2.
Proof. by intros [= <- <-]. Qed.

Lemma timer_lap_inv tm w t w' :
  timer_lap tm w = Done t w' → t = (clock w).1 - startTime tm ∧ w' = (clock w).2.
Proof. by intros [= <- <-]. Qed.

Lemma pollRecvFrom_inv w n w' :
  pollRecvFrom w = Done n w' → n = (sock_pollRecvFrom w).1 ∧ w' = (sock_pollRecvFrom w).2.
Proof. by intros [= <- <-]. Qed.

(** After a successful poll the receive that follows returns. *)
Lemma recvFrom_int_after_poll `{!TransportLaws W} x w :
  0 < (sock_pollRecvFrom w).1 → returns (recvFrom_int x (sock_pollRecvFrom w).2).
Proof.
  intros Hp. destruct (poll_ready w (words_of sizeof_int) Hp) as [[ws w'] Hr].
  by erewrite recvFrom_int_run.
Qed.

(** *** Stable properties are invariants of every call *)

Lemma stable_calm (P : W → Prop) : stable P → calm P.
Proof. intros [Hs Ha Hp Hr Hc]. split; [intros; apply Hs|..]; done. Qed.

Section calm_calls.
Context (P : W → Prop) (HP : calm P).

Lemma preserves_sendTo_addr v len : preserves P (sendTo_addr v len).
Proof. apply preserves_act. intros. by apply calm_sendTo. Qed.

Lemma preserves_ackTo_int v : preserves P (ackTo_int v).
Proof. apply preserves_act. intros. by apply calm_ackTo. Qed.

Lemma preserves_pollRecvFrom : preserves P pollRecvFrom.
Proof. apply preserves_ask. intros. by apply calm_poll. Qed.

Lemma preserves_recv n : preserves P (await (sock_recvFrom n)).
Proof. apply preserves_await. intros w ws w' Hw Hr. by eapply calm_recv. Qed.

Lemma preserves_recvFrom_array message len : preserves P (recvFrom_array message len).
Proof.
  apply preserves_bind; [apply preserves_recv|]. intros. apply preserves_checked.
Qed.

Lemma preserves_recvFrom_int x : preserves P (recvFrom_int x).
Proof. apply preserves_bind; [apply preserves_recv|]. intros. apply preserves_ret. Qed.

Lemma preserves_timer_start : preserves P timer_start.
Proof.
  apply preserves_bind; [|intros; apply preserves_ret].
  apply preserves_ask. intros. by apply calm_clock.
Qed.

Lemma preserves_timer_lap tm : preserves P (timer_lap tm).
Proof.
  apply preserves_bind; [|intros; apply preserves_ret].
  apply preserves_ask. intros. by apply calm_clock.
Qed.

End calm_calls.

Section stable_calls.
Context (P : W → Prop) (HP : stable P).

Lemma preserves_sendTo_array message len : preserves P (sendTo_array message len).
Proof.
  unfold sendTo_array. apply preserves_if; [|apply preserves_fail].
  apply preserves_act. intros. by apply stable_sendTo.
Qed.

End stable_calls.

End calls.

#[export] Hint Rewrite @pollRecvFrom_run @timer_start_run @timer_lap_run : prog_rw.
#[export] Hint Resolve stable_calm preserves_sendTo_array preserves_sendTo_addr
  preserves_ackTo_int preserves_pollRecvFrom preserves_recvFrom_array preserves_recvFrom_int
  preserves_timer_start preserves_timer_lap : prog.

(** Takes apart a hypothesis that says a program made of the call sites
    returned. *)
Ltac calls_inv_step :=
  match goal with
  | H : sendTo_array _ _ _ = Done _ _ |- _ => apply sendTo_array_inv in H as [? ?]
  | H : sendTo_addr _ _ _ = Done _ _ |- _ => apply act_inv_Done in H
  | H : ackTo_int _ _ = Done _ _ |- _ => apply act_inv_Done in H
  | H : recvFrom_int _ _ = Done _ _ |- _ => apply recvFrom_int_inv in H as (? & ? & ?)
  | H : recvFrom_array _ _ _ = Done _ _ |- _ => apply recvFrom_array_inv in H as (? & ? & ?)
  | H : timer_start _ = Done _ _ |- _ => apply timer_start_inv in H as [? ?]
  | H : timer_lap _ _ = Done _ _ |- _ => apply timer_lap_inv in H as [? ?]
  | H : pollRecvFrom _ = Done _ _ |- _ => apply pollRecvFrom_inv in H as [? ?]
  | _ => prog_inv_step
  end.
Ltac calls_inv := repeat (calls_inv_step; subst).

(** Solves [preserves P m] for a program [m] built from the call sites, the
    loops and the monad, given [stable P] among the hypotheses, or
    [calm P] when the program sends no frame. *)
Ltac preserves_tac :=
  repeat first
    [ progress eauto 3 with prog
    | apply preserves_bind; [|intros]
    | apply preserves_if
    | apply preserves_while_do; intros
    | apply preserves_do_while; intros
    | apply preserves_for_range; intros
    | apply preserves_loop; intros
    | case_match ].

(** ** A discrete-event network *)

Module SimNet.

(** The world: the time, the datagrams still to arrive with their arrival
    times, in the order the socket will deliver them, and a log of what was
    handed to the transport, with the time of the call. *)
Record net : Type := {
  now : Z;
  inbox : list (Z * list Z);
  outbox : list (Z * datagram)
}.

Definition start (inb : list (Z * list Z)) : net :=
  {| now := 0; inbox := inb; outbox := [] |}.

(** A datagram is available: the first one has arrived. *)
Definition ready (w : net) : bool :=
  match inbox w with
  | (t, _) :: _ => t <=? now w
  | [] => false
  end.

Definition send (d : datagram) (w : net) : net :=
  {| now := now w; inbox := inbox w; outbox := outbox w ++ [(now w, d)] |}.

(** A poll takes one unit of time. *)
Definition poll (w : net) : Z * net :=
  (b2i (ready w), {| now := now w + 1; inbox := inbox w; outbox := outbox w |}).

(** A receive waits for the arrival of the first datagram. *)
Definition recv (n : nat) (w : net) : option (list Z * net) :=
  match inbox w with
  | (t, ws) :: rest =>
      Some (take n ws, {| now := Z.max (now w) t; inbox := rest; outbox := outbox w |})
  | [] => None
  end.

Definition read_clock (w : net) : Z * net := (now w, w).

#[global] Instance net_transport : Transport net := {|
  sock_sendTo := send;
  sock_ackTo := send;
  sock_pollRecvFrom := poll;
  sock_recvFrom := recv;
  clock := read_clock
|}.

(** The datagrams handed to the transport, in order. *)
Definition sent (w : net) : list datagram := (outbox w).*2.

(** Every datagram still to arrive satisfies [Q]. *)
Definition inbox_all (Q : list Z → Prop) (w : net) : Prop :=
  Forall (λ d, Q d.2) (inbox w).

(** [w] is a later state of the network than [w0]: time has not gone
    back, nothing was added to what is to arrive, and nothing was removed
    from the log. *)
Definition later (w0 w : net) : Prop :=
  now w0 ≤ now w ∧ inbox w `suffix_of` inbox w0 ∧ outbox w0 `prefix_of` outbox w.

Lemma ready_inbox w : ready w = true → inbox w ≠ [].
Proof. unfold ready. by destruct (inbox w). Qed.

#[global] Instance net_laws : TransportLaws net.
Proof.
  split.
  - intros w n. simpl. unfold b2i. destruct (ready w) eqn:E; [|lia]. intros _.
    unfold recv. simpl. apply ready_inbox in E. destruct (inbox w) as [|[t ws] rest]; [done|eauto].
  - intros w n ws w'. simpl. unfold recv. destruct (inbox w) as [|[t d] rest]; [done|].
    intros [= <- _]. rewrite length_take. lia.
Qed.

Lemma sent_send d w : sent (send d w) = sent w ++ [d].
Proof. unfold sent, send. simpl. by rewrite fmap_app. Qed.

Lemma now_send d w : now (send d w) = now w.
Proof. done. Qed.

Lemma inbox_send d w : inbox (send d w) = inbox w.
Proof. done. Qed.

Lemma poll_now w : now (poll w).2 = now w + 1.
Proof. done. Qed.

Lemma recv_ready n w t ws rest :
  inbox w = (t, ws) :: rest →
  recv n w = Some (take n ws, {| now := Z.max (now w) t; inbox := rest; outbox := outbox w |}).
Proof. unfold recv. by intros ->. Qed.

Lemma recv_inv n w ws w' :
  recv n w = Some (ws, w') →
  ∃ t d, inbox w = (t, d) :: inbox w' ∧ ws = take n d ∧
         now w' = Z.max (now w) t ∧ outbox w' = outbox w.
Proof.
  unfold recv. destruct (inbox w) as [|[t d] rest]; [done|].
  intros [= <- <-]. by exists t, d.
Qed.

Lemma stable_inbox_all Q : stable (inbox_all Q).
Proof.
  split; try done. intros n w ws w' Hall (t & d & Hin & _)%recv_inv.
  unfold inbox_all in *. rewrite Hin in Hall. by apply Forall_cons in Hall as [_ ?].
Qed.

Lemma stable_later w0 : stable (later w0).
Proof.
  split; try done.
  - intros d w (? & ? & ?). split_and!; [done..|]. simpl. by apply prefix_app_r.
  - intros d w (? & ? & ?). split_and!; [done..|]. simpl. by apply prefix_app_r.
  - intros w (? & ? & ?). split_and!; [simpl; lia|done..].
  - intros n w ws w' (? & Hsuf & ?) (t & d & Hin & _ & Hnow & Hout)%recv_inv.
    split_and!; [lia| |by rewrite Hout].
    etrans; [|done]. rewrite Hin. by apply suffix_cons_r.
Qed.

Lemma later_refl w : later w w.
Proof. done. Qed.

End SimNet.

#[export] Hint Resolve SimNet.stable_inbox_all SimNet.stable_later : prog.

(** ** What is sent is what is received *)


