(* ===== verification/Channel.v ===== *)
(** * A channel between a client and a server

    The world of two programs that run at the two ends of a datagram
    channel.  [Chan.chan] holds the datagrams on their way to the server
    ([up]), those on their way to the client ([down]), oldest first, and
    the time.  Each side has its own socket on that world
    ([Chan.client_side], [Chan.server_side], two implementations of
    [Transport]): what one side hands to [sendTo] or [ackTo] is appended
    to the queue the other side reads from; a poll says whether that
    queue holds a datagram, a receive takes the oldest one and blocks
    when there is none; reading the clock does not advance it.  What a
    [sendTo] of an address that is no object of the program hands over
    ([Wild]) reaches nobody.  Loss, reordering and the passing of time
    are steps of the systems that use the channel ([WindowSystem.v],
    [StopWaitSystem.v]). *)

From stdpp Require Import prelude.
From S2P Require Import Prelude Transport.

#[local] Open Scope Z_scope.

Module Chan.

(** The datagrams on their way to the server, those on their way to the
    client, oldest first, and the time. *)
Record chan : Type := Chan {
  up : list (list Z);
  down : list (list Z);
  now : Z
}.

(** What either side does with a datagram: the words of an array are
    put on the channel; bytes at an address that is no object of the
    program reach nobody. *)
Definition client_send (d : datagram) (c : chan) : chan :=
  match d with
  | Words ws => Chan (up c ++ [ws]) (down c) (now c)
  | Wild _ _ => c
  end.

Definition server_send (d : datagram) (c : chan) : chan :=
  match d with
  | Words ws => Chan (up c) (down c ++ [ws]) (now c)
  | Wild _ _ => c
  end.

Definition client_poll (c : chan) : Z * chan := (if down c is [] then 0 else 1, c).
Definition server_poll (c : chan) : Z * chan := (if up c is [] then 0 else 1, c).

Definition client_recv (n : nat) (c : chan) : option (list Z * chan) :=
  match down c with
  | d :: rest => Some (take n d, Chan (up c) rest (now c))
  | [] => None
  end.

Definition server_recv (n : nat) (c : chan) : option (list Z * chan) :=
  match up c with
  | d :: rest => Some (take n d, Chan rest (down c) (now c))
  | [] => None
  end.

Definition read_clock (c : chan) : Z * chan := (now c, c).

(** The socket of each side. *)
Definition client_side : Transport chan :=
  {| sock_sendTo := client_send; sock_ackTo := client_send;
     sock_pollRecvFrom := client_poll; sock_recvFrom := client_recv; clock := read_clock |}.

Definition server_side : Transport chan :=
  {| sock_sendTo := server_send; sock_ackTo := server_send;
     sock_pollRecvFrom := server_poll; sock_recvFrom := server_recv; clock := read_clock |}.

Lemma client_laws : TransportLaws chan (TW := client_side).
Proof.
  split; simpl; unfold client_poll, client_recv.
  - intros c n. simpl. destruct (down c); [lia|eauto].
  - intros c n ws c'. destruct (down c); [done|]. intros [= <- _]. rewrite length_take. lia.
Qed.

Lemma server_laws : TransportLaws chan (TW := server_side).
Proof.
  split; simpl; unfold server_poll, server_recv.
  - intros c n. simpl. destruct (up c); [lia|eauto].
  - intros c n ws c'. destruct (up c); [done|]. intros [= <- _]. rewrite length_take. lia.
Qed.

End Chan.
