(* ===== verification/Peer.v ===== *)
(** * A wire: a link with a server at its far end

    The functions of the source come in pairs: [clientStopWait] talks to
    [serverReliable], [clientSlidingWindow] to [serverEarlyRetrans].  Both
    servers have the same shape, a [for] loop over the messages whose body
    is a [do ... while] that receives one frame and answers it.  [Server]
    is that shape: the body of the [do ... while] and its guard, for the
    message of a given index.  [serve] is the loop built from them, [pass]
    one iteration of the [do ... while] with the value of its guard.

    A [peer] is a server between two frames; [hear] hands it one frame, by
    running [pass] on a socket that holds this frame and nothing else.
    [serve_hear_all] shows that this is the server: on a socket that holds
    a list of frames, [serve] ends as [hear_all] says, returning when the
    last message is counted and waiting for the next frame otherwise.

    [Module Wire] is a world for a client, an instance of [Transport]: what
    the client sends reaches the peer at once, unless the loss schedule of
    the wire says this frame is lost; what the peer answers is dropped
    when the drop schedule says so ([kept]), and is otherwise on its way
    for the latency of the wire, after which it is queued for the client
    to read ([landed], [aloft]).  A datagram that is not a frame (an
    address, [Wild]) reaches nobody.  [tracks] ties the far end to the
    frames delivered, [on_schedule] the frames delivered to the part of
    the loss schedule that has been used; [plain] is the wire that loses
    frames only, [still] says that no answer arrives for some time. *)

From stdpp Require Import prelude.
From S2P Require Import Prelude Transport.

#[local] Open Scope Z_scope.

(** ** Servers *)

Class Server (L : Type) : Type := {
  (** the body of the [do ... while] for the message of this index *)
  body : Z → L → prog SimNet.net L;
  (** its guard: true when the loop goes round again *)
  again : Z → L → prog SimNet.net bool
}.

(** One iteration of the [do ... while]: the locals after it and whether
    the loop goes round again. *)
Definition pass {L : Type} {SV : Server L} (i : Z) (s : L) : prog SimNet.net (L * bool) :=
  s' ← body i s; b ← again i s'; mret (s', b).

(** [for (i = 0; i < max; ++i) do body while (again)] *)
Definition serve {L : Type} {SV : Server L} (fuel : nat) (max : Z) : L → prog SimNet.net L :=
  for_range 0 max (λ i, do_while fuel (body i) (again i)).

(** A pass reads one frame, the first of the socket, and looks at nothing
    else of the world: it waits when no frame is there, and with a frame
    there it does what it does when that frame is alone. *)
Class ServerLaws (L : Type) {SV : Server L} : Prop := {
  pass_waits i s w : SimNet.inbox w = [] → pass i s w = Blocked w;
  pass_frame i s w t ws rest :
    SimNet.inbox w = (t, ws) :: rest →
    match pass i s (SimNet.start [(0, ws)]) with
    | Done r n => ∃ w', pass i s w = Done r w' ∧ SimNet.inbox w' = rest ∧
                        SimNet.sent w' = SimNet.sent w ++ SimNet.sent n
    | Fault e _ => ∃ w', pass i s w = Fault e w'
    | OutOfFuel _ => ∃ w', pass i s w = OutOfFuel w'
    | Blocked _ => False
    end
}.

(** ** The server between two frames *)

Record peer (L : Type) : Type := {
  count : Z;            (* the index of the [for] loop *)
  heard : nat;          (* the frames read so far *)
  locals : L;
  failed : bool         (* a pass did not return *)
}.
Arguments count {L} _.
Arguments heard {L} _.
Arguments locals {L} _.
Arguments failed {L} _.

Section peer.
Context {L : Type} {SV : Server L}.

(** The server at entry. *)
Definition waiting (s : L) : peer L :=
  {| count := 0; heard := 0; locals := s; failed := false |}.

(** The server is in its loop. *)
Definition running (max : Z) (p : peer L) : bool := negb (failed p) && (count p <? max).

(** One frame reaches the server: the peer after it and what it answered.
    A server that has returned or failed reads nothing. *)
Definition hear (max : Z) (ws : list Z) (p : peer L) : peer L * list datagram :=
  if running max p then
    match pass (count p) (locals p) (SimNet.start [(0, ws)]) with
    | Done r n =>
        ({| count := if r.2 then count p else count p + 1; heard := S (heard p);
            locals := r.1; failed := false |}, SimNet.sent n)
    | _ => ({| count := count p; heard := heard p; locals := locals p; failed := true |}, [])
    end
  else (p, []).

Fixpoint hear_all (max : Z) (frames : list (list Z)) (p : peer L) : peer L * list datagram :=
  match frames with
  | [] => (p, [])
  | ws :: frames =>
      let r := hear max ws p in
      let r' := hear_all max frames r.1 in (r'.1, r.2 ++ r'.2)
  end.

End peer.

(** ** The wire *)

(** The number of frames a schedule loses. *)
Definition losses (l : list bool) : nat := length (filter Is_true l).

(** Among the first [n] frames a schedule loses none, or there is a
    first one that it loses. *)
Lemma first_loss (lost : list bool) (n : nat) :
  (∀ k, (k < n)%nat → lost !! k ≠ Some true) ∨
  ∃ i, (i < n)%nat ∧ lost !! i = Some true ∧ ∀ k, (k < i)%nat → lost !! k ≠ Some true.
Proof.
  induction n as [|n [IH | (i & Hi & Hl & Hfirst)]]; [left; lia| |right; exists i; auto with lia].
  destruct (decide (lost !! n = Some true)) as [Hn|Hn]; [right; by exists n; auto with lia|].
  left. intros k Hk. destruct (decide (k = n)) as [->|]; [done|apply IH; lia].
Qed.

(** The answers that a drop schedule lets through. *)
Fixpoint kept (sched : list bool) (ds : list datagram) {struct ds} : list datagram :=
  match ds with
  | [] => []
  | d :: ds' =>
      match sched with
      | true :: sched' => kept sched' ds'
      | false :: sched' => d :: kept sched' ds'
      | [] => ds
      end
  end.

(** The answers on their way that have arrived by the time [t]: those at
    the front whose time has come, since no answer overtakes another. *)
Fixpoint landed (t : Z) (fl : list (Z * datagram)) : list datagram :=
  match fl with
  | (due, d) :: fl' => if decide (due ≤ t) then d :: landed t fl' else []
  | [] => []
  end.

(** Those still on their way at the time [t]. *)
Fixpoint aloft (t : Z) (fl : list (Z * datagram)) : list (Z * datagram) :=
  match fl with
  | (due, d) :: fl' => if decide (due ≤ t) then aloft t fl' else fl
  | [] => []
  end.

Lemma kept_nil ds : kept [] ds = ds.
Proof. by destruct ds. Qed.

Lemma kept_one sched d : kept sched [d] = if decide (head sched = Some true) then [] else [d].
Proof. by destruct sched as [|[] ?]. Qed.

Lemma landed_all t due ds : due ≤ t → landed t ((λ d, (due, d)) <$> ds) = ds.
Proof.
  intros Ht. induction ds as [|d ds IH]; [done|].
  rewrite fmap_cons. cbn [landed]. rewrite decide_True by done. by f_equal.
Qed.

Lemma aloft_all t due ds : due ≤ t → aloft t ((λ d, (due, d)) <$> ds) = [].
Proof.
  intros Ht. induction ds as [|d ds IH]; [done|].
  rewrite fmap_cons. cbn [aloft]. by rewrite decide_True.
Qed.

(** Nothing has arrived by [t']: nothing had arrived before. *)
Lemma landed_none t' t fl : landed t' fl = [] → t ≤ t' → landed t fl = [] ∧ aloft t fl = fl.
Proof.
  destruct fl as [|[due d] fl]; simpl; [done|]. intros Hl Ht.
  destruct (decide (due ≤ t')); [done|]. by rewrite !decide_False by lia.
Qed.

(** What is still on its way has not arrived. *)
Lemma landed_aloft_same t fl : landed t (aloft t fl) = [].
Proof.
  induction fl as [|[due d] fl IH]; simpl; [done|].
  destruct (decide (due ≤ t)) as [|Hdue]; [done|]. simpl. by rewrite decide_False.
Qed.

Lemma landed_aloft t t' fl : t ≤ t' → landed t fl ++ landed t' (aloft t fl) = landed t' fl.
Proof.
  intros Ht. induction fl as [|[due d] fl IH]; simpl; [done|].
  destruct (decide (due ≤ t)); [by rewrite decide_True, <- IH by lia|done].
Qed.

(** An answer sent now is behind those on their way. *)
Lemma landed_snoc t fl due d : t < due → landed t (fl ++ [(due, d)]) = landed t fl.
Proof.
  intros Ht. induction fl as [|[due' d'] fl IH]; simpl; [by rewrite decide_False by lia|].
  destruct (decide (due' ≤ t)); [by rewrite IH|done].
Qed.

Lemma aloft_snoc t fl due d : t < due → aloft t (fl ++ [(due, d)]) = aloft t fl ++ [(due, d)].
Proof.
  intros Ht. induction fl as [|[due' d'] fl IH]; simpl; [by rewrite decide_False by lia|].
  by destruct (decide (due' ≤ t)).
Qed.

(** Every answer has arrived or is on its way. *)
Lemma landed_aloft_all t fl : landed t fl ++ (aloft t fl).*2 = fl.*2.
Proof.
  induction fl as [|[due d] fl IH]; [done|]. cbn [landed aloft].
  destruct (decide (due ≤ t)); [|done]. rewrite fmap_cons. simpl. by f_equal.
Qed.

Lemma aloft_aloft t t' fl : t ≤ t' → aloft t' (aloft t fl) = aloft t' fl.
Proof.
  intros Ht. induction fl as [|[due d] fl IH]; simpl; [done|].
  destruct (decide (due ≤ t)); [by rewrite decide_True by lia|done].
Qed.


Module Wire.

Section wire.
Context {L : Type} {SV : Server L}.

Record wire : Type := {
  goal : Z;                         (* the [max] the server was called with *)
  far : peer L;
  answers : list datagram;          (* what has arrived and the client has not read *)
  flight : list (Z * datagram);     (* answers on their way, with the time each arrives *)
  lost : list bool;                 (* for the frames to come: is this one lost? *)
  dropped : list bool;              (* for the answers to come: is this one lost? *)
  latency : Z;                      (* the time an answer takes to arrive *)
  delivered : list (list Z);        (* the frames that reached the server *)
  now : Z
}.

Definition launch (max : Z) (s : L) (lost dropped : list bool) (latency : Z) : wire :=
  {| goal := max; far := waiting s; answers := []; flight := []; lost := lost;
     dropped := dropped; latency := latency; delivered := []; now := 0 |}.

(** A wire that loses frames only: an answer is there as soon as it was
    sent. *)
Definition start (max : Z) (s : L) (lost : list bool) : wire := launch max s lost [] 0.

(** The answers whose time has come are there to be read. *)
Definition settle (w : wire) : wire :=
  {| goal := goal w; far := far w; answers := answers w ++ landed (now w) (flight w);
     flight := aloft (now w) (flight w); lost := lost w; dropped := dropped w;
     latency := latency w; delivered := delivered w; now := now w |}.

(** The frame reaches the far end; what the far end answers is on its way,
    unless the drop schedule says otherwise. *)
Definition deliver (ws : list Z) (l : list bool) (w : wire) : wire :=
  let r := hear (goal w) ws (far w) in
  settle {| goal := goal w; far := r.1; answers := answers w;
            flight := flight w ++ ((λ d, (now w + latency w, d)) <$> kept (dropped w) r.2);
            lost := l; dropped := drop (length r.2) (dropped w); latency := latency w;
            delivered := delivered w ++ [ws]; now := now w |}.

(** The frame is lost. *)
Definition lose (l : list bool) (w : wire) : wire :=
  {| goal := goal w; far := far w; answers := answers w; flight := flight w; lost := l;
     dropped := dropped w; latency := latency w; delivered := delivered w; now := now w |}.

Definition send (d : datagram) (w : wire) : wire :=
  match d with
  | Words ws =>
      match lost w with
      | true :: l => lose l w
      | false :: l => deliver ws l w
      | [] => deliver ws [] w
      end
  | Wild _ _ => w
  end.

(** Time passes. *)
Definition wait (n : Z) (w : wire) : wire :=
  settle {| goal := goal w; far := far w; answers := answers w; flight := flight w;
            lost := lost w; dropped := dropped w; latency := latency w;
            delivered := delivered w; now := now w + n |}.

(** A poll takes one unit of time. *)
Definition poll (w : wire) : Z * wire :=
  (b2i (bool_decide (answers w ≠ [])), wait 1 w).

(** The first answer is taken from the queue. *)
Definition read (w : wire) : wire :=
  {| goal := goal w; far := far w; answers := tail (answers w); flight := flight w;
     lost := lost w; dropped := dropped w; latency := latency w;
     delivered := delivered w; now := now w |}.

(** With nothing to read, a receive waits for the first answer that is on
    its way. *)
Definition await (w : wire) : wire :=
  match answers w, flight w with
  | [], (due, _) :: _ => wait (Z.max 0 (due - now w)) w
  | _, _ => w
  end.

Definition recv (n : nat) (w : wire) : option (list Z * wire) :=
  match answers (await w) with
  | d :: _ => Some (match d with Words ws => take n ws | Wild _ _ => [] end, read (await w))
  | [] => None
  end.

#[global] Instance wire_transport : Transport wire := {|
  sock_sendTo := send;
  sock_ackTo := λ _ w, w;
  sock_pollRecvFrom := poll;
  sock_recvFrom := recv;
  clock := λ w, (now w, w)
|}.

(** An answer that is there stays first in the queue. *)
Lemma await_ready w : answers w ≠ [] → await w = w.
Proof. unfold await. by destruct (answers w). Qed.

#[global] Instance wire_laws : TransportLaws wire.
Proof.
  split.
  - intros w n. simpl. case_bool_decide as Ha; simpl; [|lia]. intros _.
    unfold recv. rewrite await_ready by (simpl; by destruct (answers w)).
    simpl. by destruct (answers w).
  - intros w n ws w'. unfold sock_recvFrom. simpl. unfold recv.
    destruct (answers (await w)) as [|[v|] rest]; intros [= <- <-]; simpl; [|lia].
    rewrite length_take. lia.
Qed.

(** The far end is the server after the frames that were delivered. *)
Definition tracks (max : Z) (s : L) (w : wire) : Prop :=
  goal w = max ∧ far w = (hear_all max (delivered w) (waiting s)).1.

(** A wire that loses frames only: its answers take no time and none is
    dropped. *)
Record plain (w : wire) : Prop := {
  plain_latency : latency w = 0;
  plain_flight : flight w = [];
  plain_dropped : dropped w = []
}.

(** The answers sent to the client and not yet read are [acks], each with
    the time it arrives: those whose time has come are there to be
    read, the others are on their way. *)
Record queued (acks : list (Z * datagram)) (w : wire) : Prop := {
  queued_answers : answers w = landed (now w) acks;
  queued_flight : flight w = aloft (now w) acks
}.

(** No answer arrives within the next [n] units of time. *)
Definition still (n : Z) (w : wire) : Prop := landed (now w + n) (flight w) = [].

(** The wire [w] at another time. *)
Definition at_time (t : Z) (w : wire) : wire :=
  {| goal := goal w; far := far w; answers := answers w; flight := flight w; lost := lost w;
     dropped := dropped w; latency := latency w; delivered := delivered w; now := t |}.

(** A socket that holds the frames that were delivered, and to which
    nothing more will arrive. *)
Definition replay (w : wire) : SimNet.net :=
  SimNet.start ((λ ws, (0, ws)) <$> delivered w).

(** At most [n] frames were handed to the wire, those delivered and
    those lost, and the schedule [lost0] was followed: [used] is the part
    of it that was consulted, one entry per frame until it ran out. *)
Definition on_schedule (lost0 : list bool) (n : nat) (w : wire) : Prop :=
  ∃ used, lost0 = used ++ lost w ∧
    (length (delivered w) + losses used ≤ n)%nat ∧
    (lost w ≠ [] → (length (delivered w) + losses used)%nat = length used).

(** The frame the schedule marks is lost. *)
Lemma send_lost ws l w : lost w = true :: l → send (Words ws) w = lose l w.
Proof. unfold send. by intros ->. Qed.

(** Any other frame reaches the far end. *)
Lemma send_deliver ws w :
  head (lost w) ≠ Some true → send (Words ws) w = deliver ws (tail (lost w)) w.
Proof. unfold send. by destruct (lost w) as [|[] l]. Qed.

Lemma recv_answer n w ws rest :
  answers w = Words ws :: rest → recv n w = Some (take n ws, read w).
Proof. intros Ha. unfold recv. rewrite await_ready by by rewrite Ha. by rewrite Ha. Qed.

Lemma send_keeps_time d w : now (send d w) = now w.
Proof. destruct d as [ws|]; [|done]. unfold send. by destruct (lost w) as [|[] ?]. Qed.

(** On a plain wire the answer to a frame is there at once. *)
Lemma deliver_plain ws l w :
  plain w →
  deliver ws l w =
  {| goal := goal w; far := (hear (goal w) ws (far w)).1;
     answers := answers w ++ (hear (goal w) ws (far w)).2; flight := []; lost := l;
     dropped := []; latency := 0; delivered := delivered w ++ [ws]; now := now w |}.
Proof.
  intros [Hl Hf Hd]. unfold deliver, settle. simpl. rewrite Hl, Hf, Hd, kept_nil, drop_nil.
  simpl. by rewrite landed_all, aloft_all by lia.
Qed.

Lemma plain_launch max s lost0 : plain (start max s lost0).
Proof. done. Qed.

Lemma plain_deliver ws l w : plain w → plain (deliver ws l w).
Proof. intros Hw. by rewrite deliver_plain. Qed.

Lemma plain_send d w : plain w → plain (send d w).
Proof.
  intros Hw. destruct d as [ws|]; [|done]. unfold send.
  destruct (lost w) as [|[] l]; [by apply plain_deliver|by destruct Hw|by apply plain_deliver].
Qed.

(** While no answer arrives, only the time changes. *)
Lemma still_wait n i w : still n w → i ≤ n → wait i w = at_time (now w + i) w.
Proof.
  unfold still, wait, settle, at_time. intros Hn Hi. simpl.
  destruct (landed_none (now w + n) (now w + i) (flight w)) as [-> ->]; [done|lia|].
  by rewrite app_nil_r.
Qed.

Lemma still_flight n w : flight w = [] → still n w.
Proof. unfold still. by intros ->. Qed.

Lemma wait_plain n w : flight w = [] → wait n w = at_time (now w + n) w.
Proof. intros Hf. apply (still_wait n); [by apply still_flight|done]. Qed.

Lemma plain_wait n w : plain w → plain (wait n w).
Proof. intros [? Hf ?]. by rewrite wait_plain. Qed.

Lemma plain_read w : plain w → plain (read w).
Proof. by intros []. Qed.

Lemma still_settle w : still 0 (settle w).
Proof. unfold still. simpl. rewrite Z.add_0_r. apply landed_aloft_same. Qed.

Lemma still_deliver ws l w : still 0 (deliver ws l w).
Proof. apply still_settle. Qed.

Lemma still_wait_0 n w : still 0 (wait n w).
Proof. apply still_settle. Qed.

(** The far end does not answer: nothing changes for the client. *)
Lemma deliver_silent ws l w :
  flight w = [] → (hear (goal w) ws (far w)).2 = [] →
  deliver ws l w =
  {| goal := goal w; far := (hear (goal w) ws (far w)).1; answers := answers w; flight := [];
     lost := l; dropped := dropped w; latency := latency w;
     delivered := delivered w ++ [ws]; now := now w |}.
Proof.
  intros Hf Hd. unfold deliver, settle. simpl. rewrite Hf, Hd. simpl.
  by rewrite app_nil_r, drop_0.
Qed.

(** The answer of the far end is dropped. *)
Lemma deliver_dropped ws l w d :
  flight w = [] → (hear (goal w) ws (far w)).2 = [d] → head (dropped w) = Some true →
  deliver ws l w =
  {| goal := goal w; far := (hear (goal w) ws (far w)).1; answers := answers w; flight := [];
     lost := l; dropped := tail (dropped w); latency := latency w;
     delivered := delivered w ++ [ws]; now := now w |}.
Proof.
  intros Hf Hd Hdrop. unfold deliver, settle. simpl.
  rewrite Hf, Hd, kept_one, decide_True by done. simpl.
  rewrite app_nil_r. by destruct (dropped w).
Qed.

(** The answer of the far end is on its way: it is there after the time
    it takes, and not before. *)
Lemma deliver_kept ws l w d :
  flight w = [] → (hear (goal w) ws (far w)).2 = [d] → head (dropped w) ≠ Some true →
  0 ≤ latency w →
  wait (latency w) (deliver ws l w) =
  {| goal := goal w; far := (hear (goal w) ws (far w)).1; answers := answers w ++ [d];
     flight := []; lost := l; dropped := tail (dropped w); latency := latency w;
     delivered := delivered w ++ [ws]; now := now w + latency w |} ∧
  ∀ i, 0 ≤ i < latency w → answers (wait i (deliver ws l w)) = answers w.
Proof.
  intros Hf Hd Hkeep Hlat. unfold wait, deliver, settle. simpl.
  rewrite Hf, Hd, kept_one, decide_False by done. simpl.
  assert (drop 1 (dropped w) = tail (dropped w)) as -> by by destruct (dropped w).
  destruct (decide (now w + latency w ≤ now w)) as [H0|H0]; simpl.
  - split; [|lia]. by rewrite app_nil_r.
  - rewrite app_nil_r, !decide_True by lia. split; [done|]. intros i Hi.
    by rewrite decide_False, app_nil_r by lia.
Qed.

(** *** The queue of answers *)

Lemma queued_wait n acks w : 0 ≤ n → queued acks w → queued acks (wait n w).
Proof.
  intros Hn [Ha Hf]. split; simpl; rewrite ?Ha, Hf.
  - apply landed_aloft. lia.
  - apply aloft_aloft. lia.
Qed.

(** The first answer is read. *)
Lemma queued_read due d acks w :
  queued ((due, d) :: acks) w → due ≤ now w →
  answers w = d :: landed (now w) acks ∧ queued acks (read w).
Proof.
  intros [Ha Hf] Hdue. simpl in Ha, Hf. destruct (decide (due ≤ now w)); [|done].
  split; [done|]. split; simpl; [by rewrite Ha|done].
Qed.

(** The far end answers a frame: its answer joins the queue. *)
Lemma queued_deliver ws l acks w d :
  queued acks w → (hear (goal w) ws (far w)).2 = [d] → dropped w = [] → 0 < latency w →
  queued (acks ++ [(now w + latency w, d)]) (deliver ws l w).
Proof.
  intros [Ha Hf] Hd Hdrop Hlat. unfold deliver, settle.
  split; simpl; rewrite Hd, Hdrop, kept_nil, ?Ha, Hf; simpl.
  - rewrite <- (aloft_snoc (now w) acks) by lia.
    rewrite <- (landed_snoc (now w) acks (now w + latency w) d) at 1 by lia.
    by rewrite landed_aloft.
  - rewrite <- (aloft_snoc (now w) acks) by lia. by rewrite aloft_aloft.
Qed.

Lemma wait_wait n m w : 0 ≤ n → 0 ≤ m → wait m (wait n w) = wait (n + m) w.
Proof.
  intros Hn Hm. unfold wait, settle. simpl.
  by rewrite Z.add_assoc, aloft_aloft, <- app_assoc, landed_aloft by lia.
Qed.

Lemma at_time_now w : at_time (now w) w = w.
Proof. by destruct w. Qed.

Lemma wait_0 w : still 0 w → wait 0 w = w.
Proof. intros Hw. rewrite (still_wait 0) by done. by rewrite Z.add_0_r, at_time_now. Qed.

Lemma on_schedule_start max s lost0 : on_schedule lost0 0 (start max s lost0).
Proof. by exists []. Qed.

Lemma on_schedule_mono lost0 n m w : (n ≤ m)%nat → on_schedule lost0 n w → on_schedule lost0 m w.
Proof. intros Hnm (used & ? & ? & ?). exists used. split_and!; [done|lia|done]. Qed.

(** One more frame is handed to the wire. *)
Lemma on_schedule_send lost0 n ws w :
  on_schedule lost0 n w → on_schedule lost0 (S n) (send (Words ws) w).
Proof.
  intros (used & Hused & Hn & Hfull). unfold send.
  destruct (lost w) as [|b l] eqn:Hl.
  - exists used. cbn [lost delivered deliver settle]. rewrite length_app. simpl.
    split_and!; [done|lia|done].
  - specialize (Hfull ltac:(done)). exists (used ++ [b]). unfold losses in *.
    rewrite filter_app, !length_app, <- app_assoc.
    destruct b; cbn [lost delivered lose deliver settle].
    + rewrite filter_cons_True by done. simpl. split_and!; [done|lia|lia].
    + rewrite filter_cons_False by tauto. rewrite !length_app. simpl.
      split_and!; [done|lia|lia].
Qed.

(** A frame the schedule loses within the first [n] is missing among
    those delivered. *)
Lemma on_schedule_lost lost0 n (i : nat) w :
  lost0 !! i = Some true → (i < n)%nat → on_schedule lost0 n w →
  (length (delivered w) < n)%nat.
Proof.
  intros Hi Hin (used & Hused & Hn & Hfull). destruct (decide (i < length used)%nat) as [Hu|Hu].
  - rewrite Hused, lookup_app_l in Hi by done.
    assert (true ∈ filter Is_true used) as Hin'
      by (apply list_elem_of_filter; split; [done|by eapply list_elem_of_lookup_2]).
    unfold losses in Hn. destruct (filter Is_true used); [by apply elem_of_nil in Hin'|].
    simpl in Hn. lia.
  - apply lookup_lt_Some in Hi. rewrite Hused, length_app in Hi.
    rewrite <- Hfull in Hu by (destruct (lost w); [simpl in Hi; lia|done]). lia.
Qed.

End wire.

Arguments wire : clear implicits.

End Wire.

(** ** The peer is the server *)

Section peer_lemmas.
Context {L : Type} {SV : Server L}.

Lemma hear_stopped max ws (p : peer L) : running max p = false → hear max ws p = (p, []).
Proof. unfold hear. by intros ->. Qed.

Lemma hear_all_stopped max frames (p : peer L) :
  running max p = false → hear_all max frames p = (p, []).
Proof.
  intros Hp. induction frames as [|ws frames IH]; [done|].
  simpl. rewrite hear_stopped by done. simpl. by rewrite IH.
Qed.

Lemma hear_all_app max fs gs (p : peer L) :
  hear_all max (fs ++ gs) p =
  ((hear_all max gs (hear_all max fs p).1).1,
   (hear_all max fs p).2 ++ (hear_all max gs (hear_all max fs p).1).2).
Proof.
  revert p. induction fs as [|ws fs IH]; intros p; simpl.
  - by destruct (hear_all max gs p).
  - rewrite IH. simpl. by rewrite app_assoc.
Qed.

Lemma hear_all_failed max frames (p : peer L) :
  failed p = true → failed (hear_all max frames p).1 = true.
Proof. intros Hp. rewrite hear_all_stopped; [done|]. unfold running. by rewrite Hp. Qed.

Lemma hear_heard max ws (p : peer L) : (heard p ≤ heard (hear max ws p).1)%nat.
Proof. unfold hear. repeat case_match; simpl; lia. Qed.

Lemma hear_all_heard max frames (p : peer L) : (heard p ≤ heard (hear_all max frames p).1)%nat.
Proof.
  revert p. induction frames as [|ws frames IH]; intros p; simpl; [done|].
  etrans; [apply (hear_heard max ws)|apply IH].
Qed.

Lemma hear_count max ws (p : peer L) : count (hear max ws p).1 ≤ count p + 1.
Proof. unfold hear. repeat case_match; simpl; lia. Qed.

Lemma hear_all_count max frames (p : peer L) :
  count (hear_all max frames p).1 ≤ count p + Z.of_nat (length frames).
Proof.
  revert p. induction frames as [|ws frames IH]; intros p; simpl; [lia|].
  specialize (IH (hear max ws p).1). pose proof (hear_count max ws p). lia.
Qed.

(** The far end has counted no more messages than frames were delivered. *)
Lemma tracks_count max (s : L) (w : Wire.wire L) :
  Wire.tracks max s w → count (Wire.far w) ≤ Z.of_nat (length (Wire.delivered w)).
Proof. intros [_ ->]. apply (hear_all_count max _ (waiting s)). Qed.

Lemma do_while_pass n i (s : L) w :
  do_while (S n) (body i) (again i) s w =
  (pass i s ≫= λ r : L * bool,
     if r.2 then do_while n (body i) (again i) r.1 else mret r.1) w.
Proof.
  rewrite do_while_S. unfold pass. prog_simp.
  destruct (body i s w) as [s' w1| | |]; [|done..]. by destruct (again i s' w1) as [[] ?| | |].
Qed.

End peer_lemmas.

(** The rest of the server's run from inside the [do ... while] of message
    [i], with [k] iterations of fuel left for it. *)
Definition serve_from {L : Type} {SV : Server L} (fuel k : nat) (max i : Z) (s : L) :
    prog SimNet.net L :=
  s' ← do_while k (body i) (again i) s; for_range (i + 1) max (λ i, do_while fuel (body i) (again i)) s'.

(** How a run of the server ends on a socket that holds [frames] and
    nothing more will arrive: it has returned, or it is waiting for the
    next frame. *)
Definition ends_as {L : Type} (max : Z) (p : peer L) (out : list datagram)
    (w : SimNet.net) (o : outcome SimNet.net L) : Prop :=
  ∃ w', SimNet.sent w' = SimNet.sent w ++ out ∧
        SimNet.inbox w' = drop (heard p) (SimNet.inbox w) ∧
        o = if count p <? max then Blocked w' else Done (locals p) w'.

Section serve.
Context {L : Type} {SV : Server L} {SL : ServerLaws L}.

Lemma serve_from_S fuel k max i (s : L) w :
  serve_from fuel (S k) max i s w =
  match pass i s w with
  | Done r w' =>
      if r.2 then serve_from fuel k max i r.1 w'
      else if i + 1 <? max then serve_from fuel fuel max (i + 1) r.1 w' else Done r.1 w'
  | Blocked w' => Blocked w'
  | Fault e w' => Fault e w'
  | OutOfFuel w' => OutOfFuel w'
  end.
Proof.
  unfold serve_from at 1. unfold mbind, prog_mbind, prog_bind at 1. rewrite do_while_pass.
  unfold mbind, prog_mbind, prog_bind at 1.
  destruct (pass i s w) as [[s' []] w'| | |]; simpl; [done| |done..].
  destruct (Z.ltb_spec (i + 1) max); [by rewrite for_range_step|by rewrite for_range_empty by lia].
Qed.

Lemma serve_from_hear_all fuel max inb : ∀ w k i s h,
  SimNet.inbox w = inb →
  (length inb < k)%nat → (length inb < fuel)%nat → i < max →
  let r := hear_all max inb.*2 {| count := i; heard := h; locals := s; failed := false |} in
  failed r.1 = false →
  ∃ w', SimNet.sent w' = SimNet.sent w ++ r.2 ∧
        SimNet.inbox w' = drop (heard r.1 - h) inb ∧
        serve_from fuel k max i s w = if count r.1 <? max then Blocked w' else Done (locals r.1) w'.
Proof.
  induction inb as [|[t ws] inb IH]; intros w k i s h Hinb Hk Hfuel Hi r Hr;
    (destruct k as [|k]; [simpl in Hk; lia|]); rewrite serve_from_S.
  - subst r. simpl in *. exists w. rewrite app_nil_r, pass_waits by done.
    destruct (Z.ltb_spec i max); [|lia]. by rewrite Nat.sub_diag.
  - pose proof (pass_frame i s w t ws inb Hinb) as Hpass. subst r.
    rewrite fmap_cons in *. cbn [hear_all length] in *. unfold hear, running in *.
    cbn [failed count locals heard negb andb snd] in *.
    destruct (Z.ltb_spec i max); [|lia].
    destruct (pass i s (SimNet.start [(0, ws)])) as [[s' b] n| | |];
      [|cbn [fst] in Hr; by rewrite hear_all_failed in Hr..].
    destruct Hpass as (w1 & -> & Hinb1 & Hsent). cbn [fst snd] in *.
    set (p1 := {| count := if b then i else i + 1; heard := S h; locals := s'; failed := false |}) in *.
    pose proof (hear_all_heard max inb.*2 p1) as Hh. simpl in Hh.
    replace (heard (hear_all max inb.*2 p1).1 - h)%nat
      with (S (heard (hear_all max inb.*2 p1).1 - S h)) by lia.
    rewrite app_assoc, <- Hsent. cbn [drop]. subst p1. destruct b.
    + apply IH; [done|lia..|done].
    + destruct (Z.ltb_spec (i + 1) max); [apply IH; [done|lia..|done]|].
      rewrite hear_all_stopped by (unfold running; simpl; lia). simpl.
      exists w1. rewrite app_nil_r, Nat.sub_diag.
      destruct (Z.ltb_spec (i + 1) max); [lia|done].
Qed.

(** *** A server reads a frame for every message *)

Lemma pass_reads i (s : L) w r w' :
  pass i s w = Done r w' → length (SimNet.inbox w) = S (length (SimNet.inbox w')).
Proof.
  intros Hrun. destruct (SimNet.inbox w) as [|[t ws] rest] eqn:Hinb.
  - by rewrite pass_waits in Hrun.
  - pose proof (pass_frame i s w t ws rest Hinb) as Hp.
    destruct (pass i s (SimNet.start [(0, ws)])) as [r0 n| | |];
      [|done|destruct Hp as [w1 Hp]; by rewrite Hp in Hrun..].
    destruct Hp as (w1 & Hp & Hrest & _). rewrite Hp in Hrun. injection Hrun as <- <-.
    by rewrite Hrest.
Qed.

Lemma do_while_reads k i (s : L) w s' w' :
  do_while k (body i) (again i) s w = Done s' w' →
  (length (SimNet.inbox w') < length (SimNet.inbox w))%nat.
Proof.
  revert s w. induction k as [|k IH]; intros s w; [done|].
  rewrite do_while_pass. intros ([s1 b] & w1 & Hpass%pass_reads & Hrest)%bind_inv_Done.
  destruct b; simpl in Hrest; [apply IH in Hrest; lia|]. injection Hrest as <- <-. lia.
Qed.

Lemma serve_reads fuel max (s : L) w s' w' :
  0 ≤ max → serve fuel max s w = Done s' w' →
  (Z.to_nat max + length (SimNet.inbox w') ≤ length (SimNet.inbox w))%nat.
Proof.
  intros Hmax Hrun.
  eapply (for_range_invariant
            (λ j _ w1, (Z.to_nat j + length (SimNet.inbox w1) ≤ length (SimNet.inbox w))%nat))
    in Hrun; [done|done| |simpl; lia].
  intros j s1 w1 s2 w2 Hj HI Hpass%do_while_reads. lia.
Qed.

Lemma serve_start fuel max (s : L) w :
  0 < max → serve fuel max s w = serve_from fuel fuel max 0 s w.
Proof.
  intros Hmax. unfold serve, serve_from. rewrite for_range_step by done.
  prog_simp. by destruct (do_while fuel (body 0) (again 0) s w).
Qed.

(** On a socket that holds the frames [inb] and to which nothing more
    will arrive, the server ends as the peer that has heard these frames:
    it has sent the peer's answers and read the frames the peer has read;
    it has returned with the peer's locals when the peer has counted
    [max] messages, and it waits for a frame otherwise. *)
Theorem serve_hear_all fuel max (s : L) w :
  (length (SimNet.inbox w) < fuel)%nat →
  let r := hear_all max (SimNet.inbox w).*2 (waiting s) in
  failed r.1 = false → ends_as max r.1 r.2 w (serve fuel max s w).
Proof.
  intros Hfuel r Hr. unfold ends_as. destruct (Z.ltb_spec 0 max) as [Hmax|Hmax].
  - rewrite serve_start by done.
    destruct (serve_from_hear_all fuel max _ w fuel 0 s 0%nat eq_refl Hfuel Hfuel Hmax Hr)
      as (w' & Hsent & Hinb & Hrun).
    exists w'. by rewrite Nat.sub_0_r in Hinb.
  - subst r. rewrite hear_all_stopped by (unfold running; simpl; lia). simpl.
    exists w. rewrite app_nil_r. unfold serve. rewrite for_range_empty by lia.
    destruct (Z.ltb_spec 0 max); [lia|done].
Qed.

End serve.

(** ** The wire keeps the peer *)

Lemma tracks_launch {L : Type} {SV : Server L} max (s : L) lost dropped latency :
  Wire.tracks max s (Wire.launch max s lost dropped latency).
Proof. done. Qed.

Lemma tracks_start {L : Type} {SV : Server L} max (s : L) lost :
  Wire.tracks max s (Wire.start max s lost).
Proof. done. Qed.

Lemma calm_on_schedule {L : Type} {SV : Server L} lost0 n :
  calm (Wire.on_schedule (L := L) lost0 n).
Proof.
  split; try done. intros m w ws w' Hw. simpl. unfold Wire.recv, Wire.await.
  by repeat case_match; intros [= _ <-].
Qed.

Lemma stable_tracks {L : Type} {SV : Server L} max (s : L) : stable (Wire.tracks max s).
Proof.
  split; try done.
  - intros [ws|] w [Hgoal Hfar]; [|done]. simpl. unfold Wire.send.
    assert (Wire.tracks max s (Wire.deliver ws [] w) ∧ ∀ l, Wire.tracks max s (Wire.deliver ws l w))
      as [? ?]; [|by destruct (Wire.lost w) as [|[] l]].
    unfold Wire.tracks, Wire.deliver. simpl. rewrite hear_all_app, Hgoal, <- Hfar. done.
  - intros n w ws w' Htr. simpl. unfold Wire.recv, Wire.await.
    by repeat case_match; intros [= _ <-].
Qed.

(** Whatever a client has done on the wire, the far end is in the state
    in which the server is after reading the frames that were delivered. *)
Lemma tracks_serve {L : Type} {SV : Server L} {SL : ServerLaws L} fuel max (s : L)
    (w : Wire.wire L) :
  Wire.tracks max s w → failed (Wire.far w) = false → (length (Wire.delivered w) < fuel)%nat →
  ends_as max (Wire.far w) (hear_all max (Wire.delivered w) (waiting s)).2
    (Wire.replay w) (serve fuel max s (Wire.replay w)).
Proof.
  intros [Hgoal Hfar] Hup Hfuel. rewrite Hfar in *.
  pose proof (serve_hear_all fuel max s (Wire.replay w)) as Hs. simpl in Hs.
  rewrite length_fmap, <- list_fmap_compose, list_fmap_id in Hs. by apply Hs.
Qed.
