(* ===== verification/SeqRing.v ===== *)
(** * The ring of sequence numbers

    The windowed protocol numbers its frames modulo [2 * windowSize + 1];
    each of the three functions that use it computes that size into a local
    [seqRange].  This file holds the definition and the arithmetic on that
    ring that the sender, the receiver and [ackAdvance] share: distances on
    the ring, the image [seq_of] of an unbounded frame number, and the fact
    that makes the ring large enough that a window of [windowSize] numbers
    ahead and [windowSize + 1] behind are told apart. *)

From stdpp Require Import prelude.
From S2P Require Import Prelude.

#[local] Open Scope Z_scope.
#[local] Open Scope cint_scope.

(** [int seqRange = windowSize * 2 + 1] *)
Definition seqRange (windowSize : Z) : Z := windowSize * 2 + 1.

(** The sequence number that frame number [n] carries. *)
Definition seq_of (windowSize n : Z) : Z := n `mod` seqRange windowSize.

(** How far [a] is ahead of [b] on the ring. *)
Definition ring_dist (windowSize a b : Z) : Z := (a - b) `mod` seqRange windowSize.

(** [s] is a sequence number. *)
Definition is_seq (windowSize s : Z) : Prop := 0 ≤ s < seqRange windowSize.

(** A datagram of the windowed protocol, frame or acknowledgment: its
    first word is a sequence number. *)
Definition seq_frame (windowSize : Z) (d : list Z) : Prop :=
  ∃ m rest, d = m :: rest ∧ is_seq windowSize m.

(** The largest window for which [seqRange] and the sums the code forms
    with it fit in an [int]. *)
Definition MAX_WINDOW : Z := 536870911.

Section ring.
Context (windowSize : Z) (Hw : 0 ≤ windowSize).
#[local] Abbreviation R := (seqRange windowSize).

Lemma seqRange_pos : 0 < R.
Proof. unfold seqRange. lia. Qed.

Lemma seqRange_gt_window : windowSize < R.
Proof. unfold seqRange. lia. Qed.

Lemma seqRange_odd : R = 2 * windowSize + 1.
Proof. unfold seqRange. lia. Qed.

Lemma seq_of_is_seq n : is_seq windowSize (seq_of windowSize n).
Proof. apply Z.mod_pos_bound, seqRange_pos. Qed.

Lemma seq_of_small s : is_seq windowSize s → seq_of windowSize s = s.
Proof. apply Z.mod_small. Qed.

(** What [n % seqRange] computes when [n] is not negative. *)
Lemma cmod_seq_of n : 0 ≤ n → n %% R = seq_of windowSize n.
Proof. intros. apply cmod_mod; [done|apply seqRange_pos]. Qed.

Lemma seq_of_add n k : seq_of windowSize (seq_of windowSize n + k) = seq_of windowSize (n + k).
Proof. apply ring_add_mod, seqRange_pos. Qed.

Lemma ring_dist_range a b : 0 ≤ ring_dist windowSize a b < R.
Proof. apply Z.mod_pos_bound, seqRange_pos. Qed.

Lemma ring_dist_seq_of a b :
  ring_dist windowSize (seq_of windowSize a) (seq_of windowSize b) = ring_dist windowSize a b.
Proof. unfold ring_dist, seq_of. by rewrite <- Zminus_mod. Qed.

Lemma ring_dist_exact a b : 0 ≤ a - b < R → ring_dist windowSize a b = a - b.
Proof. apply Z.mod_small. Qed.

(** A number at most [windowSize + 1] behind is at distance more than
    [windowSize - 1] ahead: it cannot be taken for one of the window. *)
Lemma ring_dist_behind a b :
  - (windowSize + 1) ≤ a - b < 0 → ring_dist windowSize a b = a - b + R.
Proof.
  intros. unfold ring_dist.
  rewrite <- (Z.mod_small (a - b + R) R) by (unfold seqRange; lia).
  by rewrite <- Z.add_mod_idemp_r, Z_mod_same_full, Z.add_0_r by (unfold seqRange; lia).
Qed.

(** What the code computes with [%] is the distance on the ring, as long
    as the operands are sequence numbers shifted by at most one. *)
Lemma cmod_ring_dist a b :
  - R ≤ a - b → (a - b + R) %% R = ring_dist windowSize a b.
Proof.
  intros. rewrite cmod_mod by (pose proof seqRange_pos; lia). unfold ring_dist.
  by rewrite <- Z.add_mod_idemp_r, Z_mod_same_full, Z.add_0_r by (unfold seqRange; lia).
Qed.

(** One step back on the ring. *)
Lemma ring_dist_pred a s :
  ring_dist windowSize a (s + 1) =
  if ring_dist windowSize a s =? 0 then windowSize * 2 else ring_dist windowSize a s - 1.
Proof.
  unfold ring_dist. pose proof seqRange_pos as HR.
  pose proof (Z.mod_pos_bound (a - s) _ HR) as Hd.
  replace (a - (s + 1)) with ((a - s) - 1) by lia.
  rewrite <- Zminus_mod_idemp_l.
  destruct (Z.eqb_spec ((a - s) `mod` R) 0) as [-> | Hne].
  - change (0 - 1) with (-1). unfold seqRange in *.
    rewrite <- (Z_mod_plus_full _ 1), Z.mod_small; lia.
  - apply Z.mod_small. lia.
Qed.

(** [k] steps back on the ring, short of wrapping. *)
Lemma ring_dist_sub a s k :
  0 ≤ k ≤ ring_dist windowSize a s →
  ring_dist windowSize a (s + k) = ring_dist windowSize a s - k.
Proof.
  intros Hk. pose proof (ring_dist_range a s) as Hd. unfold ring_dist in *.
  replace (a - (s + k)) with ((a - s) - k) by lia.
  rewrite <- Zminus_mod_idemp_l. apply Z.mod_small. lia.
Qed.

(** [k] steps back on the ring, past [a]. *)
Lemma ring_dist_sub_wrap a s k :
  ring_dist windowSize a s < k ≤ R →
  ring_dist windowSize a (s + k) = ring_dist windowSize a s - k + R.
Proof.
  intros Hk. pose proof (ring_dist_range a s) as Hd. unfold ring_dist in *.
  replace (a - (s + k)) with ((a - s) - k) by lia.
  rewrite <- Zminus_mod_idemp_l.
  rewrite <- (Z_mod_plus_full _ 1), Z.mod_small; lia.
Qed.

(** The distance up to [b + k], from the distance after [b]. *)
Lemma ring_dist_flip a b k :
  ring_dist windowSize (b + k) a = (k - ring_dist windowSize a b) `mod` R.
Proof. unfold ring_dist. rewrite Zminus_mod_idemp_r. f_equal. lia. Qed.

Lemma ring_dist_eq_0 a b :
  is_seq windowSize a → is_seq windowSize b → ring_dist windowSize a b = 0 → a = b.
Proof.
  unfold is_seq, ring_dist. intros Ha Hb H0. destruct (decide (b ≤ a)).
  - rewrite Z.mod_small in H0; lia.
  - rewrite <- (Z_mod_plus_full _ 1), Z.mod_small in H0; lia.
Qed.

Lemma ring_dist_seq_of_l a b :
  ring_dist windowSize (seq_of windowSize a) b = ring_dist windowSize a b.
Proof. unfold ring_dist, seq_of. by rewrite Zminus_mod_idemp_l. Qed.

Lemma ring_dist_seq_of_r a b :
  ring_dist windowSize a (seq_of windowSize b) = ring_dist windowSize a b.
Proof. unfold ring_dist, seq_of. by rewrite Zminus_mod_idemp_r. Qed.

(** The number [k] steps after [b] is at distance [k]. *)
Lemma ring_dist_after b k :
  0 ≤ k < R → ring_dist windowSize (seq_of windowSize (b + k)) b = k.
Proof.
  intros. rewrite ring_dist_seq_of_l. unfold ring_dist.
  replace (b + k - b) with k by lia. by apply Z.mod_small.
Qed.

(** A sequence number is the one at its distance after [b]. *)
Lemma seq_of_ring_dist a b :
  is_seq windowSize a → seq_of windowSize (b + ring_dist windowSize a b) = a.
Proof.
  intros Ha. unfold seq_of, ring_dist. rewrite Zplus_mod_idemp_r.
  replace (b + (a - b)) with a by lia. by apply Z.mod_small.
Qed.

Lemma seq_of_inj a b : 0 ≤ a - b < R → seq_of windowSize a = seq_of windowSize b → a = b.
Proof. apply ring_inj. Qed.

Lemma seq_of_succ_neq n : 0 < windowSize → seq_of windowSize (n + 1) ≠ seq_of windowSize n.
Proof. intros. apply ring_succ_neq. unfold seqRange. lia. Qed.

End ring.

#[export] Hint Resolve seqRange_pos seq_of_is_seq ring_dist_range : cint.
