(* ===== verification/AckAdvance.v ===== *)
(** * [ackAdvance]: how far an acknowledgment moves the trailing edge

    [src/udp.cpp] lines 167-181.  The function polls the socket once.  When
    a datagram is there it reads one [int], the acknowledgment, and returns
    its distance from [lastSeqRec] on the ring if that distance is in
    [1, windowSize], and 0 otherwise; with no datagram it returns 0.

    [ack_in_range] and [ack_distance] are the arithmetic of lines 175-176,
    [ackAdvance] the whole function.  [ack_reference] is the same decision
    written with the distance on the ring; [ack_distance_reference] shows
    that the code computes it when the operands are sequence numbers. *)

From stdpp Require Import prelude.
From S2P Require Import Prelude Transport SeqRing.

#[local] Open Scope Z_scope.
#[local] Open Scope cint_scope.

(** ** The function *)

(** The test of line 175. *)
Definition ack_in_range (recAckNum lastSeqRec windowSize : Z) : bool :=
  (recAckNum - (lastSeqRec + 1) + seqRange windowSize) %% seqRange windowSize <? windowSize.

(** Lines 175-180 once [recAckNum] is read. *)
Definition ack_distance (recAckNum lastSeqRec windowSize : Z) : Z :=
  if ack_in_range recAckNum lastSeqRec windowSize
  then (recAckNum - lastSeqRec + seqRange windowSize) %% seqRange windowSize
  else 0.

(** Every value the evaluation of lines 169-176 forms. *)
Definition ack_intermediates (recAckNum lastSeqRec windowSize : Z) : list Z :=
  let R := seqRange windowSize in
  [ windowSize * 2; R;
    lastSeqRec + 1; recAckNum - (lastSeqRec + 1); recAckNum - (lastSeqRec + 1) + R;
    (recAckNum - (lastSeqRec + 1) + R) %% R;
    recAckNum - lastSeqRec; recAckNum - lastSeqRec + R;
    (recAckNum - lastSeqRec + R) %% R ].

(** The decision stated on the ring: the acknowledgment is between 1 and
    [windowSize] ahead of [lastSeqRec]. *)
Definition ack_reference (recAckNum lastSeqRec windowSize : Z) : Z :=
  let d := ring_dist windowSize recAckNum lastSeqRec in
  if (1 <=? d) && (d <=? windowSize) then d else 0.

Section ackAdvance.
Context {W : Type} {TW : Transport W} {PF : Platform}.

(** [int ackAdvance(UdpSocket &sock, int lastSeqRec, int windowSize)].
    [recAckNum] is declared without an initial value. *)
Definition ackAdvance (lastSeqRec windowSize : Z) : prog W Z :=
  n ← pollRecvFrom;
  if 0 <? n then
    r ← recvFrom_int None;
    recAckNum ← checked Indeterminate r;
    mret (ack_distance recAckNum lastSeqRec windowSize)
  else mret 0.

End ackAdvance.

(** ** The arithmetic *)

Section distance.
Context (windowSize : Z) (Hw : 0 ≤ windowSize).

Lemma ack_in_range_ring a s :
  is_seq windowSize a → is_seq windowSize s →
  ack_in_range a s windowSize = (ring_dist windowSize a (s + 1) <? windowSize).
Proof.
  unfold is_seq, ack_in_range. intros. by rewrite cmod_ring_dist by lia.
Qed.

(** Lines 175-180 in terms of the distance on the ring. *)
Lemma ack_distance_ring a s :
  is_seq windowSize a → is_seq windowSize s →
  ack_distance a s windowSize =
  if (1 <=? ring_dist windowSize a s) && (ring_dist windowSize a s <=? windowSize)
  then ring_dist windowSize a s else 0.
Proof.
  intros Ha Hs. unfold ack_distance.
  rewrite ack_in_range_ring, ring_dist_pred by done.
  unfold is_seq in *. rewrite cmod_ring_dist by lia.
  pose proof (ring_dist_range windowSize Hw a s). zbool.
Qed.

End distance.

(** C36: on sequence numbers the result of lines 175-180 is the distance
    of the acknowledgment ahead of [lastSeqRec] on the ring when that
    distance is between 1 and [windowSize], and 0 otherwise. *)
Theorem ack_distance_reference windowSize a s :
  0 ≤ windowSize → is_seq windowSize a → is_seq windowSize s →
  ack_distance a s windowSize = ack_reference a s windowSize.
Proof.
  intros Hw Ha Hs. unfold ack_reference. by apply ack_distance_ring.
Qed.

Lemma ack_distance_reference_witness : ack_distance 4 3 2 = ack_reference 4 3 2.
Proof. apply ack_distance_reference; unfold is_seq, seqRange; lia. Defined.

(** The advance is between 0 and [windowSize], as the comment of the
    function promises, when both numbers are sequence numbers. *)
Theorem ack_distance_range windowSize a s :
  0 ≤ windowSize → is_seq windowSize a → is_seq windowSize s →
  0 ≤ ack_distance a s windowSize ≤ windowSize.
Proof.
  intros Hw Ha Hs. rewrite ack_distance_ring by done.
  pose proof (ring_dist_range windowSize Hw a s). zbool.
Qed.

Lemma ack_distance_range_witness : 0 ≤ ack_distance 0 4 2 ≤ 2.
Proof. apply ack_distance_range; unfold is_seq, seqRange; lia. Defined.

(** An acknowledgment for [k] of the outstanding frames, the oldest
    of which has number [n], advances the trailing edge by exactly [k]. *)
Theorem ack_distance_exact windowSize n k :
  0 ≤ windowSize → 1 ≤ k ≤ windowSize →
  ack_distance (seq_of windowSize (n + k)) (seq_of windowSize n) windowSize = k.
Proof.
  intros Hw Hk. rewrite ack_distance_ring by auto with cint.
  rewrite ring_dist_seq_of, ring_dist_exact by (unfold seqRange; lia).
  replace (n + k - n) with k by lia. zbool.
Qed.

Lemma ack_distance_exact_witness : ack_distance (seq_of 2 (4 + 2)) (seq_of 2 4) 2 = 2.
Proof. apply ack_distance_exact; lia. Defined.

(** Stale-acknowledgment immunity.  An acknowledgment that repeats
    the number of the oldest outstanding frame [n], or names any of the
    [windowSize] numbers before it, moves nothing. *)
Theorem ack_distance_stale windowSize n k :
  0 ≤ windowSize → 0 ≤ k ≤ windowSize →
  ack_distance (seq_of windowSize (n - k)) (seq_of windowSize n) windowSize = 0.
Proof.
  intros Hw Hk. rewrite ack_distance_ring by auto with cint.
  rewrite ring_dist_seq_of.
  destruct (decide (k = 0)) as [-> | Hne].
  - rewrite ring_dist_exact by (unfold seqRange; lia). zbool.
  - rewrite ring_dist_behind by lia. unfold seqRange. zbool.
Qed.

Lemma ack_distance_stale_witness : ack_distance (seq_of 2 (7 - 2)) (seq_of 2 7) 2 = 0.
Proof. apply ack_distance_stale; lia. Defined.

(** C39: for a window of at most [MAX_WINDOW] and sequence numbers as
    operands, every value formed while evaluating lines 169-176 is an
    [int]: no signed overflow occurs. *)
Theorem ack_intermediates_int windowSize a s :
  0 ≤ windowSize ≤ MAX_WINDOW → is_seq windowSize a → is_seq windowSize s →
  Forall int_range (ack_intermediates a s windowSize).
Proof.
  unfold is_seq, MAX_WINDOW. intros Hw Ha Hs.
  assert (0 < seqRange windowSize) as HR by (unfold seqRange; lia).
  unfold ack_intermediates. repeat apply Forall_cons_2; try apply Forall_nil_2;
    try (apply cmod_int_range; [|done]);
    unfold int_range, INT_MIN, INT_MAX, seqRange in *; lia.
Qed.

Lemma ack_intermediates_int_witness : Forall int_range (ack_intermediates 4 0 2).
Proof. apply ack_intermediates_int; unfold is_seq, seqRange, MAX_WINDOW; lia. Defined.

(** The range promised by the comment does not hold for every
    [int]: a received value so far below [lastSeqRec] that the dividend of
    line 175 is negative passes the test, since [%] then yields a value
    that is not positive, and the advance returned is not positive
    either. *)
Theorem ack_distance_negative windowSize a s :
  0 < windowSize → a - s + seqRange windowSize < 0 →
  ack_in_range a s windowSize = true ∧
  ack_distance a s windowSize = (a - s + seqRange windowSize) %% seqRange windowSize ∧
  - seqRange windowSize < ack_distance a s windowSize ≤ 0.
Proof.
  intros Hw Hneg. assert (0 < seqRange windowSize) as HR by (unfold seqRange; lia).
  assert (ack_in_range a s windowSize = true) as Hin.
  { unfold ack_in_range. apply Z.ltb_lt.
    pose proof (cmod_neg_range (a - (s + 1) + seqRange windowSize) _ ltac:(lia) HR). lia. }
  unfold ack_distance. rewrite Hin. do 2 (split; [done|]).
  apply cmod_neg_range; lia.
Qed.

Lemma ack_distance_negative_witness :
  ack_in_range (-7) 0 2 = true ∧
  ack_distance (-7) 0 2 = (-7 - 0 + seqRange 2) %% seqRange 2 ∧
  - seqRange 2 < ack_distance (-7) 0 2 ≤ 0.
Proof. apply ack_distance_negative; unfold seqRange; lia. Defined.

(** The acknowledgment of one frame, the oldest outstanding. *)
Lemma ack_distance_next windowSize j :
  1 ≤ windowSize →
  ack_distance (seq_of windowSize (j + 1)) (seq_of windowSize j) windowSize = 1.
Proof.
  intros Hw. rewrite ack_distance_ring by (lia || apply seq_of_is_seq; lia).
  rewrite ring_dist_seq_of, ring_dist_exact by (unfold seqRange; lia).
  replace (j + 1 - j) with 1 by lia. zbool.
Qed.

(** The acknowledgment that repeats the number of the oldest outstanding
    frame. *)
Lemma ack_distance_same windowSize v :
  0 ≤ windowSize → is_seq windowSize v → ack_distance v v windowSize = 0.
Proof.
  intros Hw Hv. rewrite ack_distance_ring by done. unfold ring_dist.
  by rewrite Z.sub_diag, Z.mod_0_l by (unfold seqRange; lia).
Qed.

(** ** The call *)

Section ackAdvance_run.
Context {W : Type} {TW : Transport W} {PF : Platform}.
Context (Hint : words_of sizeof_int = 1%nat).

Lemma ackAdvance_no_data s windowSize w :
  (sock_pollRecvFrom w).1 ≤ 0 →
  ackAdvance s windowSize w = Done 0 (sock_pollRecvFrom w).2.
Proof.
  intros Hp. unfold ackAdvance. erewrite bind_Done by apply pollRecvFrom_run.
  by destruct (Z.ltb_spec 0 (sock_pollRecvFrom w).1); [lia|].
Qed.

Lemma ackAdvance_data s windowSize w v ws w' :
  0 < (sock_pollRecvFrom w).1 →
  sock_recvFrom 1 (sock_pollRecvFrom w).2 = Some (v :: ws, w') →
  ackAdvance s windowSize w = Done (ack_distance v s windowSize) w'.
Proof.
  intros Hp Hr. unfold ackAdvance. erewrite bind_Done by apply pollRecvFrom_run.
  destruct (Z.ltb_spec 0 (sock_pollRecvFrom w).1); [|lia].
  by erewrite bind_Done by (by eapply recvFrom_int_run).
Qed.

Lemma ackAdvance_empty_datagram s windowSize w w' :
  0 < (sock_pollRecvFrom w).1 →
  sock_recvFrom 1 (sock_pollRecvFrom w).2 = Some ([], w') →
  ackAdvance s windowSize w = Fault Indeterminate w'.
Proof.
  intros Hp Hr. unfold ackAdvance. erewrite bind_Done by apply pollRecvFrom_run.
  destruct (Z.ltb_spec 0 (sock_pollRecvFrom w).1); [|lia].
  by erewrite bind_Done by (by eapply recvFrom_int_run).
Qed.

(** The three cases above are all there is. *)
Lemma ackAdvance_cases `{!TransportLaws W} s windowSize w :
  ackAdvance s windowSize w = Done 0 (sock_pollRecvFrom w).2 ∨
  (∃ v w', ackAdvance s windowSize w = Done (ack_distance v s windowSize) w') ∨
  (∃ w', ackAdvance s windowSize w = Fault Indeterminate w').
Proof.
  destruct (decide (0 < (sock_pollRecvFrom w).1)) as [Hp | Hp].
  - destruct (poll_ready w 1%nat Hp) as [[[|v ws] w'] Hr].
    + right; right. eauto using ackAdvance_empty_datagram.
    + right; left. eauto using ackAdvance_data.
  - left. apply ackAdvance_no_data. lia.
Qed.

End ackAdvance_run.

Section ackAdvance_inv.
Context {W : Type} {TW : Transport W} {PF : Platform}.

Lemma ackAdvance_preserves (P : W → Prop) (HP : calm P) v windowSize :
  preserves P (ackAdvance v windowSize).
Proof. unfold ackAdvance. preserves_tac. Qed.

(** What a call that returned has read. *)
Lemma ackAdvance_inv v windowSize (w : W) a w' :
  ackAdvance v windowSize w = Done a w' →
  (a = 0 ∧ w' = (sock_pollRecvFrom w).2) ∨
  ∃ ack rest, sock_recvFrom (words_of sizeof_int) (sock_pollRecvFrom w).2 = Some (ack :: rest, w') ∧
    a = ack_distance ack v windowSize.
Proof.
  unfold ackAdvance. intros Hrun. calls_inv; [right|by left].
  lazymatch goal with H : match ?x with [] => _ | _ => _ end = Some _ |- _ =>
    destruct x as [|ack rest]; [done|]; injection H as -> end.
  eauto.
Qed.
End ackAdvance_inv.

(** [ackAdvance] never blocks: it calls the blocking [recvFrom] only
    after a poll that reported a datagram.  This holds on every transport
    that keeps the promise [poll_ready]. *)
Theorem ackAdvance_not_blocked {W : Type} {TW : Transport W} {PF : Platform} {TL : TransportLaws W}
    (s windowSize : Z) (w : W) :
  words_of sizeof_int = 1%nat → ¬ is_blocked (ackAdvance s windowSize w).
Proof.
  intros Hint. destruct (ackAdvance_cases Hint s windowSize w)
    as [-> | [(v & w' & ->) | (w' & ->)]]; simpl; tauto.
Qed.

Lemma ackAdvance_not_blocked_witness :
  ¬ is_blocked (ackAdvance (PF := LP64) 0 2 (SimNet.start [(0, [1])])).
Proof. by apply (ackAdvance_not_blocked (PF := LP64)). Defined.
