(* ===== verification/WindowReceiver.v ===== *)
(** * [serverEarlyRetrans]: the window receiver

    [src/udp.cpp] lines 197-231.  The receiver keeps an occupancy buffer
    indexed by sequence number and two cursors, [lastAckSent] and
    [largestAccFrame].  For each frame it computes the frame's offset in
    the acceptance window, marks the slot if the offset is positive, slides
    [lastAckSent] over the marked slots that follow it, and acknowledges
    with the next sequence number it expects.

    [rstate] holds the local variables; [mark], [slide] and [recv_frame]
    are the body of the receive loop as programs on that state,
    [receive_and_ack] adds the socket calls, and [serverEarlyRetrans] is
    the function.  The theorems of this file are about the state machine:
    the invariant [rstate_ok], what [slide] does and that it terminates,
    and how duplicates, stale frames and malformed frames are treated; on
    the network, that the function stays within its arrays and that what
    it sends is one sequence number per frame read ([answered]). *)

From stdpp Require Import prelude.
From S2P Require Import Prelude Transport SeqRing.

#[local] Open Scope Z_scope.
#[local] Open Scope cint_scope.

(** ** State *)

Record rstate : Type := {
  buffer : list bool;
  lastAckSent : Z;
  largestAccFrame : Z;
  offset : Z
}.

(** Lines 199-207: the locals after the initialisation loop. *)
Definition rinit (windowSize : Z) : rstate :=
  {| buffer := replicate (Z.to_nat (seqRange windowSize)) false;
     lastAckSent := seqRange windowSize - 1;
     largestAccFrame := windowSize - 1;
     offset := 0 |}.

(** ** The body of the receive loop *)

(** Lines 214-215: the position of sequence number [m] in the window. *)
Definition accept_offset (windowSize largestAccFrame m : Z) : Z :=
  windowSize - (seqRange windowSize + largestAccFrame - m) %% seqRange windowSize.

(** Assignments to [offset] and to [buffer]. *)
Definition set_offset (off : Z) (st : rstate) : rstate :=
  {| buffer := buffer st; lastAckSent := lastAckSent st;
     largestAccFrame := largestAccFrame st; offset := off |}.

Definition set_buffer (b : list bool) (st : rstate) : rstate :=
  {| buffer := b; lastAckSent := lastAckSent st;
     largestAccFrame := largestAccFrame st; offset := offset st |}.

(** Lines 214-219. *)
Definition mark (windowSize m : Z) : prog rstate unit :=
  st ← get;
  let st := set_offset (accept_offset windowSize (largestAccFrame st) m) st in
  if 0 <? offset st
  then b ← checked (OutOfBounds m) (store (buffer st) m true); put (set_buffer b st)
  else put st.

(** [(lastAckSent + 1) % seqRange] *)
Definition next_slot (windowSize : Z) (st : rstate) : Z :=
  (lastAckSent st + 1) %% seqRange windowSize.

(** Line 221: the condition of the slide loop. *)
Definition slide_cond (windowSize : Z) : prog rstate bool :=
  st ← get;
  checked (OutOfBounds (next_slot windowSize st)) (load (buffer st) (next_slot windowSize st)).

(** Lines 222-224: one iteration. *)
Definition slide_body (windowSize : Z) : prog rstate unit :=
  st ← get;
  b ← checked (OutOfBounds (lastAckSent st)) (store (buffer st) (lastAckSent st) false);
  put {| buffer := b;
         lastAckSent := (lastAckSent st + 1) %% seqRange windowSize;
         largestAccFrame := (largestAccFrame st + 1) %% seqRange windowSize;
         offset := offset st |}.

(** Lines 221-225. *)
Definition slide (fuel : nat) (windowSize : Z) : prog rstate unit :=
  while_do fuel (λ _, slide_cond windowSize) (λ _, slide_body windowSize) tt.

(** Lines 214-227: what one frame with sequence number [m] does to the
    locals, and the acknowledgment it is answered with. *)
Definition recv_frame (fuel : nat) (windowSize m : Z) : prog rstate Z :=
  mark windowSize m;;
  slide fuel windowSize;;
  st ← get;
  mret (next_slot windowSize st).

(** ** The function *)

Section server.
Context {W : Type} {TW : Transport W} {PF : Platform}.

(** Lines 213-228: one iteration of the [do ... while]. *)
Definition receive_and_ack (fuel : nat) (windowSize : Z)
    (s : rstate * list Z) : prog W (rstate * list Z) :=
  message ← recvFrom_array s.2 sizeof_ptr;
  m ← checked (OutOfBounds 0) (load message 0);
  r ← local (recv_frame fuel windowSize m) s.1;
  message ← checked (OutOfBounds 0) (store message 0 r.1);
  ackTo_int r.1;;
  mret (r.2, message).

(** [void serverEarlyRetrans(UdpSocket &sock, const int max, int message[],
    int windowSize)]; the result is the final value of the locals and of
    [message]. *)
Definition serverEarlyRetrans (fuel : nat) (max : Z) (message : list Z)
    (windowSize : Z) : prog W (rstate * list Z) :=
  for_range 0 max
    (λ _, do_while fuel (receive_and_ack fuel windowSize)
                        (λ s, mret (offset s.1 <=? 0)))
    (rinit windowSize, message).

End server.

(** ** The invariant *)

(** The buffer has one slot per sequence number, [lastAckSent] is a
    sequence number, [largestAccFrame] is [windowSize] ahead of it, and a
    marked slot is either [lastAckSent] itself or one of the [windowSize]
    numbers that follow it. *)
Record rstate_ok (windowSize : Z) (st : rstate) : Prop := {
  ok_length : Z.of_nat (length (buffer st)) = seqRange windowSize;
  ok_las : is_seq windowSize (lastAckSent st);
  ok_laf : largestAccFrame st = seq_of windowSize (lastAckSent st + windowSize);
  ok_marked i :
    load (buffer st) i = Some true →
    i = lastAckSent st ∨ 1 ≤ ring_dist windowSize i (lastAckSent st) ≤ windowSize
}.

(** The slot after [lastAckSent] is not marked: the slide loop has run. *)
Definition settled (windowSize : Z) (st : rstate) : Prop :=
  load (buffer st) (next_slot windowSize st) = Some false.

(** One iteration of the slide loop as a function, for a state in which
    both subscripts are inside the buffer. *)
Definition slide_step (windowSize : Z) (st : rstate) : rstate :=
  {| buffer := <[Z.to_nat (lastAckSent st) := false]> (buffer st);
     lastAckSent := (lastAckSent st + 1) %% seqRange windowSize;
     largestAccFrame := (largestAccFrame st + 1) %% seqRange windowSize;
     offset := offset st |}.

(** [n] iterations. *)
Definition slide_n (windowSize : Z) (n : nat) (st : rstate) : rstate :=
  Nat.iter n (slide_step windowSize) st.

(** The slots at distance [1 .. k - 1] after [lastAckSent] are marked and
    the one at distance [k] is not. *)
Definition gap (windowSize : Z) (st : rstate) (k : nat) : Prop :=
  (∀ j, 1 ≤ j < Z.of_nat k →
        load (buffer st) (seq_of windowSize (lastAckSent st + j)) = Some true) ∧
  load (buffer st) (seq_of windowSize (lastAckSent st + Z.of_nat k)) = Some false.

(** No slot is marked but that of [lastAckSent]: nothing is buffered ahead
    of the cursor. *)
Definition clean (st : rstate) : Prop :=
  ∀ i, load (buffer st) i = Some true → i = lastAckSent st.

(** The frames as the sender numbers them (line 139), arriving in order:
    the frame of index [i] carries [i % seqRange]. *)
Definition in_order (windowSize : Z) (frames : list (Z * list Z)) : Prop :=
  ∀ i t d, frames !! i = Some (t, d) → hd_error d = Some (seq_of windowSize (Z.of_nat i)).

(** The answers to [n] frames in order, the first of index [i]: each
    names the frame after the one it answers. *)
Fixpoint in_order_acks (windowSize : Z) (i : Z) (n : nat) : list datagram :=
  match n with
  | O => []
  | S n => Words [seq_of windowSize (i + 1)] :: in_order_acks windowSize (i + 1) n
  end.

(** An acknowledgment: one word, a sequence number. *)
Definition is_ack (windowSize : Z) (d : datagram) : Prop :=
  ∃ a, d = Words [a] ∧ is_seq windowSize a.

(** Between [w0] and [w] the receiver has sent one acknowledgment for
    each frame it has read, and nothing else. *)
Definition answered (windowSize : Z) (w0 w : SimNet.net) : Prop :=
  ∃ acks, SimNet.sent w = SimNet.sent w0 ++ acks ∧ Forall (is_ack windowSize) acks ∧
          (length acks + length (SimNet.inbox w))%nat = length (SimNet.inbox w0).

(** ** Running the pieces *)

Lemma mark_run windowSize m st :
  mark windowSize m st =
  let off := accept_offset windowSize (largestAccFrame st) m in
  if 0 <? off
  then match store (buffer st) m true with
       | Some b => Done tt (set_buffer b (set_offset off st))
       | None => Fault (OutOfBounds m) st
       end
  else Done tt (set_offset off st).
Proof.
  unfold mark. prog_simp. destruct (0 <? _); [|done]. by destruct (store _ _ _).
Qed.

Lemma slide_O windowSize st : slide 0 windowSize st = OutOfFuel st.
Proof. done. Qed.

Lemma slide_S fuel windowSize st :
  slide (S fuel) windowSize st =
  match load (buffer st) (next_slot windowSize st) with
  | Some true =>
      match store (buffer st) (lastAckSent st) false with
      | Some _ => slide fuel windowSize (slide_step windowSize st)
      | None => Fault (OutOfBounds (lastAckSent st)) st
      end
  | Some false => Done tt st
  | None => Fault (OutOfBounds (next_slot windowSize st)) st
  end.
Proof.
  unfold slide. rewrite while_do_S. unfold slide_cond, slide_body. prog_simp.
  destruct (load _ _) as [[]|]; [|done..].
  destruct (store _ _ _) as [b|] eqn:Hs; [|done].
  apply store_Some in Hs as [_ ->]. done.
Qed.

Section invariant.
Context (windowSize : Z) (Hw : 0 < windowSize).
#[local] Abbreviation R := (seqRange windowSize).

Lemma rinit_ok : rstate_ok windowSize (rinit windowSize).
Proof.
  assert (0 < R) by (unfold seqRange; lia). split; simpl.
  - rewrite length_replicate. lia.
  - unfold is_seq. lia.
  - unfold seq_of. replace (R - 1 + windowSize) with (windowSize - 1 + 1 * R) by lia.
    rewrite Z_mod_plus_full, Z.mod_small; unfold seqRange; lia.
  - intros i (_ & Hi)%load_Some. by apply lookup_replicate in Hi as [? _].
Qed.

Lemma rinit_settled : settled windowSize (rinit windowSize).
Proof.
  unfold settled, next_slot. simpl. apply load_replicate.
  assert (0 < R) by (unfold seqRange; lia).
  pose proof (cmod_range (R - 1 + 1) R ltac:(lia) ltac:(lia)). lia.
Qed.

Lemma next_slot_seq st :
  rstate_ok windowSize st → next_slot windowSize st = seq_of windowSize (lastAckSent st + 1).
Proof.
  intros [_ Hlas _ _]. unfold next_slot, is_seq in *. by rewrite cmod_mod by lia.
Qed.

Lemma next_slot_is_seq st : rstate_ok windowSize st → is_seq windowSize (next_slot windowSize st).
Proof. intros Hok. rewrite next_slot_seq by done. apply seq_of_is_seq. lia. Qed.

Lemma load_buffer_is_Some st i :
  rstate_ok windowSize st → is_seq windowSize i → is_Some (load (buffer st) i).
Proof. intros [Hlen _ _ _] Hi. apply load_is_Some. unfold is_seq in Hi. lia. Qed.

(** On sequence numbers the offset is the window size minus the distance
    from the frame up to the leading edge of the window. *)
Lemma accept_offset_ring st m :
  rstate_ok windowSize st → is_seq windowSize m →
  accept_offset windowSize (largestAccFrame st) m =
  windowSize - ring_dist windowSize (lastAckSent st + windowSize) m.
Proof.
  intros [_ Hlas Hlaf _] Hm. unfold accept_offset. rewrite Hlaf.
  pose proof (seq_of_is_seq windowSize ltac:(lia) (lastAckSent st + windowSize)) as Hs.
  unfold is_seq in *.
  replace (R + seq_of windowSize (lastAckSent st + windowSize) - m)
    with (seq_of windowSize (lastAckSent st + windowSize) - m + R) by lia.
  rewrite cmod_ring_dist by lia.
  rewrite <- (seq_of_small windowSize m) at 1 by done.
  by rewrite ring_dist_seq_of by lia.
Qed.

Lemma accept_offset_pos st m :
  rstate_ok windowSize st → is_seq windowSize m →
  0 < accept_offset windowSize (largestAccFrame st) m ↔
  1 ≤ ring_dist windowSize m (lastAckSent st) ≤ windowSize.
Proof.
  intros Hok Hm. rewrite accept_offset_ring, ring_dist_flip by done.
  pose proof (ring_dist_range windowSize ltac:(lia) m (lastAckSent st)) as Hd.
  set (d := ring_dist windowSize m (lastAckSent st)) in *.
  destruct (decide (d ≤ windowSize)).
  - rewrite Z.mod_small by (unfold seqRange in *; lia). lia.
  - replace (windowSize - d) with (windowSize - d + R + (-1) * R) by lia.
    rewrite Z_mod_plus_full, Z.mod_small by (unfold seqRange in *; lia).
    unfold seqRange in *. lia.
Qed.

Lemma store_buffer st i v :
  rstate_ok windowSize st → is_seq windowSize i →
  store (buffer st) i v = Some (<[Z.to_nat i := v]> (buffer st)).
Proof. intros [Hlen _ _ _] Hi. apply store_Some. unfold is_seq in Hi. split; [lia|done]. Qed.

Lemma load_is_seq st i b :
  rstate_ok windowSize st → load (buffer st) i = Some b → is_seq windowSize i.
Proof. intros [Hlen _ _ _] [Hi _]%load_Some. unfold is_seq. lia. Qed.

Lemma rstate_ok_set_offset off st :
  rstate_ok windowSize st → rstate_ok windowSize (set_offset off st).
Proof. by intros []. Qed.

(** *** Marking *)

Lemma mark_accept st m :
  rstate_ok windowSize st → is_seq windowSize m →
  0 < accept_offset windowSize (largestAccFrame st) m →
  mark windowSize m st =
  Done tt (set_buffer (<[Z.to_nat m := true]> (buffer st))
             (set_offset (accept_offset windowSize (largestAccFrame st) m) st)).
Proof.
  intros Hok Hm Hoff. rewrite mark_run. simpl.
  apply Z.ltb_lt in Hoff as ->. by rewrite store_buffer.
Qed.

Lemma mark_reject st m :
  accept_offset windowSize (largestAccFrame st) m ≤ 0 →
  mark windowSize m st =
  Done tt (set_offset (accept_offset windowSize (largestAccFrame st) m) st).
Proof. intros Hoff. rewrite mark_run. simpl. by apply Z.ltb_ge in Hoff as ->. Qed.

Lemma mark_accept_ok st m off :
  rstate_ok windowSize st → is_seq windowSize m →
  1 ≤ ring_dist windowSize m (lastAckSent st) ≤ windowSize →
  rstate_ok windowSize (set_buffer (<[Z.to_nat m := true]> (buffer st)) (set_offset off st)).
Proof.
  intros Hok Hm Hd. destruct Hok as [Hlen Hlas Hlaf Hmk]. split; simpl; try done.
  - by rewrite length_insert.
  - intros i Hi. destruct (decide (i = m)) as [-> | Hne]; [by right|].
    apply Hmk. rewrite <- Hi. symmetry. eapply load_store_ne; [|done].
    apply store_Some. unfold is_seq in Hm. split; [lia|done].
Qed.

(** *** One iteration of the slide loop *)

Lemma slide_step_las st :
  rstate_ok windowSize st →
  lastAckSent (slide_step windowSize st) = seq_of windowSize (lastAckSent st + 1).
Proof. intros Hok. apply (next_slot_seq st Hok). Qed.

Lemma seq_of_after_neq st j :
  rstate_ok windowSize st → 1 ≤ j < R → seq_of windowSize (lastAckSent st + j) ≠ lastAckSent st.
Proof.
  intros [_ Hlas _ _] Hj Heq.
  assert (ring_dist windowSize (seq_of windowSize (lastAckSent st + j)) (lastAckSent st) = j)
    as Hd by (apply ring_dist_after; lia).
  rewrite Heq in Hd. unfold ring_dist in Hd. rewrite Z.sub_diag, Z.mod_0_l in Hd; lia.
Qed.

Lemma load_slide_step st i :
  rstate_ok windowSize st → i ≠ lastAckSent st →
  load (buffer (slide_step windowSize st)) i = load (buffer st) i.
Proof.
  intros Hok Hne. simpl. eapply load_store_ne; [|done].
  apply store_buffer; [done|]. apply Hok.
Qed.

Lemma load_slide_step_las st :
  rstate_ok windowSize st →
  load (buffer (slide_step windowSize st)) (lastAckSent st) = Some false.
Proof. intros Hok. simpl. eapply load_store_eq, store_buffer; [done|]. apply Hok. Qed.

Lemma slide_step_ok st :
  rstate_ok windowSize st → rstate_ok windowSize (slide_step windowSize st).
Proof.
  intros Hok. pose proof Hok as [Hlen Hlas Hlaf Hmk].
  assert (0 ≤ windowSize) as Hw0 by lia. split.
  - simpl. by rewrite length_insert.
  - rewrite slide_step_las by done. by apply seq_of_is_seq.
  - rewrite slide_step_las by done. simpl. rewrite Hlaf.
    pose proof (seq_of_is_seq windowSize Hw0 (lastAckSent st + windowSize)).
    unfold is_seq in *. rewrite cmod_seq_of, !seq_of_add by lia. f_equal. lia.
  - intros i Hi. rewrite slide_step_las by done.
    destruct (decide (i = lastAckSent st)) as [-> | Hne].
    { by rewrite load_slide_step_las in Hi. }
    rewrite load_slide_step in Hi by done.
    destruct (Hmk i Hi) as [? | Hd]; [done|].
    rewrite ring_dist_seq_of_r, ring_dist_sub by lia.
    destruct (decide (ring_dist windowSize i (lastAckSent st) = 1)) as [H1 | ?]; [|right; lia].
    left. rewrite <- H1. symmetry. apply seq_of_ring_dist. by eapply load_is_seq.
Qed.

(** *** The run of marked slots ahead of the cursor *)

Lemma gap_search st (n : nat) :
  rstate_ok windowSize st →
  (∃ k, (1 ≤ k ≤ n)%nat ∧ gap windowSize st k) ∨
  (∀ j, 1 ≤ j ≤ Z.of_nat n →
        load (buffer st) (seq_of windowSize (lastAckSent st + j)) = Some true).
Proof.
  intros Hok. induction n as [|n [(k & ? & ?) | IH]].
  - right. intros. lia.
  - left. exists k. split; [lia|done].
  - destruct (load_buffer_is_Some st (seq_of windowSize (lastAckSent st + Z.of_nat (S n))) Hok)
      as [[] Hb]; [apply seq_of_is_seq; lia|..].
    + right. intros j Hj. destruct (decide (j = Z.of_nat (S n))) as [-> | ?]; [done|].
      apply IH. lia.
    + left. exists (S n). split; [lia|]. split; [|done]. intros j Hj. apply IH. lia.
Qed.

(** The run ends within the window: the slot [windowSize + 1] ahead is
    never marked. *)
Lemma gap_exists st :
  rstate_ok windowSize st → ∃ k, (1 ≤ k)%nat ∧ Z.of_nat k ≤ windowSize + 1 ∧ gap windowSize st k.
Proof.
  intros Hok. destruct (gap_search st (Z.to_nat (windowSize + 1)) Hok) as [(k & ? & ?) | Hall].
  { exists k. split_and!; [lia|lia|done]. }
  specialize (Hall (windowSize + 1) ltac:(lia)).
  apply (ok_marked _ _ Hok) in Hall as [Heq | Hd].
  - by apply seq_of_after_neq in Heq; [|done|unfold seqRange; lia].
  - rewrite ring_dist_after in Hd by (unfold seqRange; lia). lia.
Qed.

Lemma gap_step st k :
  rstate_ok windowSize st → Z.of_nat (S (S k)) ≤ windowSize + 1 →
  gap windowSize st (S (S k)) → gap windowSize (slide_step windowSize st) (S k).
Proof.
  intros Hok Hk [Htrue Hfalse]. assert (0 ≤ windowSize) as Hw0 by lia.
  assert (∀ j, 1 ≤ j ≤ Z.of_nat (S k) →
    load (buffer (slide_step windowSize st))
      (seq_of windowSize (lastAckSent (slide_step windowSize st) + j)) =
    load (buffer st) (seq_of windowSize (lastAckSent st + (j + 1)))) as Hshift.
  { intros j Hj. rewrite slide_step_las, seq_of_add by done.
    replace (lastAckSent st + 1 + j) with (lastAckSent st + (j + 1)) by lia.
    apply load_slide_step; [done|]. apply seq_of_after_neq; [done|]. unfold seqRange. lia. }
  split.
  - intros j Hj. rewrite Hshift by lia. apply Htrue. lia.
  - rewrite Hshift by lia. rewrite <- Hfalse. do 2 f_equal. lia.
Qed.

(** What the slide loop does: with a run of [k - 1] marked slots ahead it
    makes [k - 1] iterations and stops. *)
Lemma slide_gap k : ∀ fuel st,
  rstate_ok windowSize st → gap windowSize st k → (1 ≤ k)%nat →
  Z.of_nat k ≤ windowSize + 1 → (k ≤ fuel)%nat →
  slide fuel windowSize st = Done tt (Nat.iter (k - 1) (slide_step windowSize) st).
Proof.
  induction k as [|k IH]; intros fuel st Hok Hgap ? ? ?; [lia|].
  destruct fuel as [|fuel]; [lia|]. rewrite slide_S, next_slot_seq by done.
  destruct k as [|k].
  - destruct Hgap as [_ Hfalse]. change (Z.of_nat 1) with 1 in Hfalse. by rewrite Hfalse.
  - pose proof Hgap as [Htrue _]. rewrite (Htrue 1) by lia.
    rewrite store_buffer by (done || apply Hok).
    rewrite IH; [|by apply slide_step_ok|by apply gap_step|lia..].
    replace (S (S k) - 1)%nat with (S k) by lia. replace (S k - 1)%nat with k by lia.
    by rewrite Nat.iter_succ_r.
Qed.

(** *** The state after [n] iterations *)

Lemma slide_n_ok n st : rstate_ok windowSize st → rstate_ok windowSize (slide_n windowSize n st).
Proof. apply Nat.iter_invariant, slide_step_ok. Qed.

Lemma slide_n_las n st :
  rstate_ok windowSize st →
  lastAckSent (slide_n windowSize n st) = seq_of windowSize (lastAckSent st + Z.of_nat n).
Proof.
  intros Hok. induction n as [|n IH].
  - simpl. rewrite Z.add_0_r. symmetry. apply seq_of_small, Hok.
  - change (slide_n windowSize (S n) st)
      with (slide_step windowSize (slide_n windowSize n st)).
    rewrite slide_step_las, IH, seq_of_add by (lia || by apply slide_n_ok). f_equal. lia.
Qed.

Lemma slide_n_offset n st : offset (slide_n windowSize n st) = offset st.
Proof. induction n as [|n IH]; [done|]. by rewrite <- IH. Qed.

(** A sequence number is the [n]-th after the cursor exactly when it is at
    distance [n]. *)
Lemma seq_of_after_iff b i n :
  is_seq windowSize i → 0 ≤ n < R →
  i = seq_of windowSize (b + n) ↔ ring_dist windowSize i b = n.
Proof.
  intros Hi Hn. split.
  - intros ->. apply ring_dist_after; lia.
  - intros <-. symmetry. by apply seq_of_ring_dist.
Qed.

(** The slots the cursor has passed are cleared; the others are as they
    were. *)
Lemma load_slide_n n st i :
  rstate_ok windowSize st → is_seq windowSize i → Z.of_nat n ≤ R →
  load (buffer (slide_n windowSize n st)) i =
  if ring_dist windowSize i (lastAckSent st) <? Z.of_nat n then Some false
  else load (buffer st) i.
Proof.
  intros Hok Hi. induction n as [|n IH]; intros Hn.
  - simpl. pose proof (ring_dist_range windowSize ltac:(lia) i (lastAckSent st)). zbool.
  - change (slide_n windowSize (S n) st)
      with (slide_step windowSize (slide_n windowSize n st)).
    pose proof (slide_n_ok n st Hok) as Hokn.
    destruct (decide (i = lastAckSent (slide_n windowSize n st))) as [-> | Hne].
    + rewrite load_slide_step_las by done.
      rewrite slide_n_las, ring_dist_after by (done || lia). zbool.
    + rewrite load_slide_step, IH by (done || lia).
      rewrite slide_n_las, seq_of_after_iff in Hne by (done || lia). zbool.
Qed.

(** What the slide loop does, for any fuel above the window size. *)
Lemma slide_spec fuel st :
  rstate_ok windowSize st → (Z.to_nat windowSize + 1 ≤ fuel)%nat →
  ∃ n : nat, Z.of_nat n ≤ windowSize ∧
    slide fuel windowSize st = Done tt (slide_n windowSize n st) ∧
    (∀ j, 1 ≤ j ≤ Z.of_nat n →
          load (buffer st) (seq_of windowSize (lastAckSent st + j)) = Some true) ∧
    settled windowSize (slide_n windowSize n st).
Proof.
  intros Hok Hfuel. destruct (gap_exists st Hok) as (k & Hk1 & Hk & Hgap).
  exists (k - 1)%nat. split_and!; [lia| |..].
  - apply slide_gap; (done || lia).
  - intros j Hj. apply Hgap. lia.
  - unfold settled.
    rewrite next_slot_seq, slide_n_las, seq_of_add by (lia || done || by apply slide_n_ok).
    rewrite load_slide_n; [|done|apply seq_of_is_seq; lia|unfold seqRange; lia].
    replace (lastAckSent st + Z.of_nat (k - 1) + 1) with (lastAckSent st + Z.of_nat k) by lia.
    rewrite ring_dist_after by (unfold seqRange; lia).
    destruct Hgap as [_ ->]. zbool.
Qed.

(** *** One frame *)

Lemma recv_frame_run fuel m st st1 st2 :
  mark windowSize m st = Done tt st1 → slide fuel windowSize st1 = Done tt st2 →
  recv_frame fuel windowSize m st = Done (next_slot windowSize st2) st2.
Proof.
  intros Hm Hs. unfold recv_frame.
  erewrite bind_Done by done. by erewrite bind_Done by done.
Qed.

(** A frame outside the window, or one whose slot is already marked,
    changes nothing but [offset]. *)
Lemma recv_frame_unchanged fuel m st :
  rstate_ok windowSize st → settled windowSize st → is_seq windowSize m → (1 ≤ fuel)%nat →
  accept_offset windowSize (largestAccFrame st) m ≤ 0 ∨ load (buffer st) m = Some true →
  recv_frame fuel windowSize m st =
  Done (next_slot windowSize st)
       (set_offset (accept_offset windowSize (largestAccFrame st) m) st).
Proof.
  intros Hok Hset Hm Hfuel Hcase. destruct fuel as [|fuel]; [lia|].
  set (off := accept_offset windowSize (largestAccFrame st) m) in *.
  assert (mark windowSize m st = Done tt (set_offset off st)) as Hmark.
  { destruct (decide (off ≤ 0)) as [|Hpos]; [by apply mark_reject|].
    destruct Hcase as [|Hld]; [done|]. rewrite mark_accept by (done || lia).
    apply load_Some in Hld as [_ Hld]. by rewrite list_insert_id. }
  rewrite (recv_frame_run (S fuel) m st _ (set_offset off st) Hmark); [done|].
  rewrite slide_S.
  change (load (buffer (set_offset off st)) (next_slot windowSize (set_offset off st)))
    with (load (buffer st) (next_slot windowSize st)).
  by rewrite Hset.
Qed.

(** Marking a sequence number never fails, keeps the invariant and the
    cursor, and touches no slot but that of the frame. *)
Lemma mark_total st m :
  rstate_ok windowSize st → is_seq windowSize m →
  ∃ st1, mark windowSize m st = Done tt st1 ∧ rstate_ok windowSize st1 ∧
         lastAckSent st1 = lastAckSent st ∧
         (∀ i, i ≠ m → load (buffer st1) i = load (buffer st) i) ∧
         (0 < accept_offset windowSize (largestAccFrame st) m → load (buffer st1) m = Some true).
Proof.
  intros Hok Hm.
  destruct (decide (0 < accept_offset windowSize (largestAccFrame st) m)) as [Hpos | Hneg].
  - eexists. split; [by apply mark_accept|].
    pose proof (store_buffer st m true Hok Hm) as Hst. split_and!; try done.
    + apply mark_accept_ok; [done..|]. by apply accept_offset_pos.
    + intros i Hi. simpl. by eapply load_store_ne.
    + intros _. simpl. by eapply load_store_eq.
  - eexists. split; [apply mark_reject; lia|].
    split_and!; [by apply rstate_ok_set_offset|done|done|intros; lia].
Qed.

(** The receive step as a whole: the frame is marked, the cursor slides
    over a run of [n] marked slots, and the state is settled again. *)
Lemma recv_frame_spec fuel m st :
  rstate_ok windowSize st → is_seq windowSize m → (Z.to_nat windowSize + 1 ≤ fuel)%nat →
  ∃ (n : nat) st1,
    mark windowSize m st = Done tt st1 ∧ rstate_ok windowSize st1 ∧
    Z.of_nat n ≤ windowSize ∧
    recv_frame fuel windowSize m st =
      Done (next_slot windowSize (slide_n windowSize n st1)) (slide_n windowSize n st1) ∧
    (∀ j, 1 ≤ j ≤ Z.of_nat n →
          load (buffer st1) (seq_of windowSize (lastAckSent st + j)) = Some true) ∧
    settled windowSize (slide_n windowSize n st1).
Proof.
  intros Hok Hm Hfuel. destruct (mark_total st m Hok Hm) as (st1 & Hmark & Hok1 & Hlas & _).
  destruct (slide_spec fuel st1 Hok1 Hfuel) as (n & Hn & Hslide & Hrun & Hset).
  exists n, st1. rewrite <- Hlas. split_and!; try done. by eapply recv_frame_run.
Qed.

(** *** Values that are not sequence numbers *)

(** A value that differs from [largestAccFrame] by a multiple of the ring
    gets the largest offset. *)
Lemma accept_offset_multiple laf k :
  accept_offset windowSize laf (laf + k * R) = windowSize.
Proof.
  unfold accept_offset. replace (R + laf - (laf + k * R)) with ((1 - k) * R) by lia.
  unfold cmod. rewrite Z.rem_mul by (unfold seqRange; lia). lia.
Qed.

Lemma recv_frame_fault fuel m st :
  0 < accept_offset windowSize (largestAccFrame st) m →
  ¬ (0 ≤ m < Z.of_nat (length (buffer st))) →
  recv_frame fuel windowSize m st = Fault (OutOfBounds m) st.
Proof.
  intros Hoff Hm. unfold recv_frame. prog_simp. rewrite mark_run. simpl.
  apply Z.ltb_lt in Hoff as ->. by rewrite (proj2 (store_None _ _ _)).
Qed.

(** *** The next frame in order *)

Lemma clean_rinit : clean (rinit windowSize).
Proof. intros i (_ & Hi)%load_Some. by apply lookup_replicate in Hi as [? _]. Qed.

Lemma next_slot_dist st :
  rstate_ok windowSize st → ring_dist windowSize (next_slot windowSize st) (lastAckSent st) = 1.
Proof.
  intros Hok. rewrite next_slot_seq by done. apply ring_dist_after; unfold seqRange; lia.
Qed.

(** After the next frame in order is marked, the run of marked slots ahead
    of the cursor is that frame alone. *)
Lemma gap_after_next st off :
  rstate_ok windowSize st → clean st →
  gap windowSize
    (set_buffer (<[Z.to_nat (next_slot windowSize st) := true]> (buffer st)) (set_offset off st)) 2.
Proof.
  intros Hok Hclean. pose proof (store_buffer st _ true Hok (next_slot_is_seq st Hok)) as Hst.
  rewrite next_slot_seq in * by done. split; simpl.
  - intros j Hj. replace j with 1 by lia. by eapply load_store_eq.
  - change (Z.of_nat 2) with 2.
    assert (seq_of windowSize (lastAckSent st + 1) ≠ seq_of windowSize (lastAckSent st + 2)).
    { replace (lastAckSent st + 2) with (lastAckSent st + 1 + 1) by lia.
      intros Heq. by eapply (seq_of_succ_neq windowSize). }
    rewrite (load_store_ne _ _ _ _ _ Hst) by done.
    destruct (load_buffer_is_Some st (seq_of windowSize (lastAckSent st + 2)) Hok)
      as [[] Hb]; [apply seq_of_is_seq; lia| |done].
    apply Hclean in Hb. by apply seq_of_after_neq in Hb; [|done|unfold seqRange; lia].
Qed.

(** The frame the receiver expects, arriving when nothing is buffered
    ahead: the cursor moves by one, the answer is the number after it, and
    again nothing is buffered ahead. *)
Lemma recv_frame_next fuel st :
  rstate_ok windowSize st → clean st → (2 ≤ fuel)%nat →
  ∃ st', recv_frame fuel windowSize (next_slot windowSize st) st =
           Done (seq_of windowSize (lastAckSent st + 2)) st' ∧
         rstate_ok windowSize st' ∧ clean st' ∧
         lastAckSent st' = next_slot windowSize st ∧ 0 < offset st'.
Proof.
  intros Hok Hclean Hfuel. set (m := next_slot windowSize st).
  pose proof (next_slot_is_seq st Hok) as Hm. pose proof (next_slot_dist st Hok) as Hd.
  assert (0 < accept_offset windowSize (largestAccFrame st) m) as Hoff
    by (apply accept_offset_pos; [done..|fold m in Hd; lia]).
  set (st1 := set_buffer (<[Z.to_nat m := true]> (buffer st))
                (set_offset (accept_offset windowSize (largestAccFrame st) m) st)).
  assert (rstate_ok windowSize st1) as Hok1 by (apply mark_accept_ok; [done..|fold m in Hd; lia]).
  exists (slide_step windowSize st1).
  rewrite (recv_frame_run fuel m st st1 (slide_step windowSize st1)).
  - rewrite (next_slot_seq _ (slide_step_ok _ Hok1)), slide_step_las, seq_of_add by (done || lia).
    split_and!; [do 2 f_equal; simpl; lia|by apply slide_step_ok|
                 |symmetry; by apply (next_slot_seq st)|done].
    intros i. destruct (decide (i = lastAckSent st)) as [-> | Hne].
    { change (lastAckSent st) with (lastAckSent st1). by rewrite load_slide_step_las. }
    rewrite load_slide_step by done. rewrite slide_step_las by done. simpl.
    destruct (decide (i = m)) as [-> | Hne']; [by rewrite <- next_slot_seq|].
    erewrite load_store_ne; [|by apply store_buffer|done]. intros ?%Hclean. done.
  - by apply mark_accept.
  - apply (slide_gap 2); [done|by apply gap_after_next|lia|lia|done].
Qed.

End invariant.

(** The locals are the whole world of [recv_frame]: it waits for nothing. *)
Lemma mark_not_blocked windowSize m st : ¬ is_blocked (mark windowSize m st).
Proof. unfold mark. prog_simp. repeat case_match; simplify_eq; simpl; tauto. Qed.

Lemma recv_frame_not_blocked fuel windowSize m st :
  ¬ is_blocked (recv_frame fuel windowSize m st).
Proof.
  unfold recv_frame. apply bind_not_blocked; [apply mark_not_blocked|]. intros _ st1 _.
  apply bind_not_blocked; [|simpl; tauto]. apply loop_not_blocked. intros [] st2.
  unfold slide_cond, slide_body. prog_simp. repeat case_match; simplify_eq; simpl; tauto.
Qed.

(** ** Theorems *)

(** C1: the invariant of the receiver.  From a state that satisfies
    [rstate_ok], a frame whose sequence number is in the ring is processed
    without fault and within [windowSize + 1] evaluations of the slide
    loop's condition; the acknowledgment is the sequence number after the
    new [lastAckSent]; the new state satisfies [rstate_ok] and the slot
    after [lastAckSent] is not marked. *)
Theorem recv_frame_preserves_ok windowSize fuel m st :
  0 < windowSize → rstate_ok windowSize st → is_seq windowSize m →
  (Z.to_nat windowSize + 1 ≤ fuel)%nat →
  ∃ st', recv_frame fuel windowSize m st = Done (seq_of windowSize (lastAckSent st' + 1)) st' ∧
         rstate_ok windowSize st' ∧ settled windowSize st'.
Proof.
  intros Hw Hok Hm Hfuel.
  destruct (recv_frame_spec windowSize Hw fuel m st Hok Hm Hfuel)
    as (n & st1 & _ & Hok1 & _ & Hrun & _ & Hset).
  exists (slide_n windowSize n st1). rewrite <- next_slot_seq by (done || by apply slide_n_ok).
  split_and!; [done|by apply slide_n_ok|done].
Qed.

Lemma recv_frame_preserves_ok_witness :
  ∃ st', recv_frame 3 2 0 (rinit 2) = Done (seq_of 2 (lastAckSent st' + 1)) st' ∧
         rstate_ok 2 st' ∧ settled 2 st'.
Proof.
  apply recv_frame_preserves_ok; [lia|apply rinit_ok; lia|unfold is_seq, seqRange; lia|simpl; lia].
Defined.

(** C35: the slide loop of lines 221-225 terminates.  In a state that
    satisfies the invariant it returns for every fuel above [windowSize]:
    it makes at most [windowSize] iterations. *)
Theorem slide_terminates windowSize fuel st :
  0 < windowSize → rstate_ok windowSize st → (Z.to_nat windowSize + 1 ≤ fuel)%nat →
  ∃ n : nat, Z.of_nat n ≤ windowSize ∧
    slide fuel windowSize st = Done tt (slide_n windowSize n st).
Proof.
  intros Hw Hok Hfuel.
  destruct (slide_spec windowSize Hw fuel st Hok Hfuel) as (n & ? & ? & _). eauto.
Qed.

Lemma slide_terminates_witness :
  ∃ n : nat, Z.of_nat n ≤ 2 ∧ slide 3 2 (rinit 2) = Done tt (slide_n 2 n (rinit 2)).
Proof. apply slide_terminates; [lia|apply rinit_ok; lia|simpl; lia]. Defined.

(** C32: no-gap advancement.  While processing a frame, [lastAckSent]
    advances by some [n <= windowSize], and every sequence number it
    passes is that of the frame just received or was marked as received
    before. *)
Theorem recv_frame_no_gap windowSize fuel m st :
  0 < windowSize → rstate_ok windowSize st → is_seq windowSize m →
  (Z.to_nat windowSize + 1 ≤ fuel)%nat →
  ∃ n ack st', recv_frame fuel windowSize m st = Done ack st' ∧
    0 ≤ n ≤ windowSize ∧
    lastAckSent st' = seq_of windowSize (lastAckSent st + n) ∧
    ∀ j, 1 ≤ j ≤ n →
      seq_of windowSize (lastAckSent st + j) = m ∨
      load (buffer st) (seq_of windowSize (lastAckSent st + j)) = Some true.
Proof.
  intros Hw Hok Hm Hfuel.
  destruct (mark_total windowSize Hw st m Hok Hm) as (st1 & Hmark & Hok1 & Hlas & Hother & _).
  destruct (recv_frame_spec windowSize Hw fuel m st Hok Hm Hfuel)
    as (n & st1' & Hmark' & _ & Hn & Hrun & Hmarked & _).
  assert (st1' = st1) as -> by congruence.
  exists (Z.of_nat n). eexists _, _. split_and!; [done|lia|done|..].
  - rewrite slide_n_las, Hlas by done. done.
  - intros j Hj. destruct (decide (seq_of windowSize (lastAckSent st + j) = m)); [by left|].
    right. rewrite <- Hother by done. by apply Hmarked.
Qed.

Lemma recv_frame_no_gap_witness :
  ∃ n ack st', recv_frame 3 2 1 (rinit 2) = Done ack st' ∧
    0 ≤ n ≤ 2 ∧ lastAckSent st' = seq_of 2 (lastAckSent (rinit 2) + n) ∧
    ∀ j, 1 ≤ j ≤ n →
      seq_of 2 (lastAckSent (rinit 2) + j) = 1 ∨
      load (buffer (rinit 2)) (seq_of 2 (lastAckSent (rinit 2) + j)) = Some true.
Proof.
  apply recv_frame_no_gap; [lia|apply rinit_ok; lia|unfold is_seq, seqRange; lia|simpl; lia].
Defined.

(** A frame outside the acceptance window (a copy of a frame that was
    acknowledged, scenario C of the specification) is discarded: the
    offset it is given is not positive, the buffer and both cursors are
    unchanged, and the acknowledgment repeats the next expected number. *)
Theorem recv_frame_stale windowSize fuel m st :
  0 < windowSize → rstate_ok windowSize st → settled windowSize st → is_seq windowSize m →
  ¬ (1 ≤ ring_dist windowSize m (lastAckSent st) ≤ windowSize) → (1 ≤ fuel)%nat →
  accept_offset windowSize (largestAccFrame st) m ≤ 0 ∧
  recv_frame fuel windowSize m st =
    Done (next_slot windowSize st)
         (set_offset (accept_offset windowSize (largestAccFrame st) m) st).
Proof.
  intros Hw Hok Hset Hm Hout Hfuel.
  assert (accept_offset windowSize (largestAccFrame st) m ≤ 0) as Hoff.
  { rewrite <- (accept_offset_pos windowSize Hw st m Hok Hm) in Hout. lia. }
  split; [done|]. apply recv_frame_unchanged; auto.
Qed.

Lemma recv_frame_stale_witness :
  accept_offset 2 (largestAccFrame (rinit 2)) 4 ≤ 0 ∧
  recv_frame 1 2 4 (rinit 2) =
    Done (next_slot 2 (rinit 2))
         (set_offset (accept_offset 2 (largestAccFrame (rinit 2)) 4) (rinit 2)).
Proof.
  apply recv_frame_stale;
    [lia|apply rinit_ok; lia|apply rinit_settled; lia|unfold is_seq, seqRange; lia| |lia].
  vm_compute. intros [? ?]. congruence.
Defined.

(** ** The receiver on the network *)

(** One pass of the receive loop, on every transport: the frame
    received is copied into [message], its first word is processed, and
    the answer is stored in [message[0]] and handed to [ackTo]. *)
Lemma receive_and_ack_on {W : Type} {TW : Transport W} {PF : Platform}
    fuel windowSize st msg (w : W) m d w1 ack st' :
  sock_recvFrom (words_of sizeof_ptr) w = Some (m :: d, w1) →
  (length (m :: d) ≤ length msg)%nat →
  recv_frame fuel windowSize m st = Done ack st' →
  ∃ msg', receive_and_ack fuel windowSize (st, msg) w =
            Done (st', msg') (sock_ackTo (Words [ack]) w1) ∧
    length msg' = length msg.
Proof.
  intros Hrecv Hlen Hrun. unfold receive_and_ack.
  destruct (blit_is_Some (m :: d) msg Hlen) as [msg1 Hblit].
  pose proof (blit_length _ _ _ Hblit) as Hl1.
  rewrite (bind_Done _ _ _ _ _ (recvFrom_array_run _ _ _ _ _ _ Hrecv Hblit)).
  rewrite (blit_head _ _ _ _ Hblit), (bind_Done _ _ _ _ _ (checked_Some _ _ _)).
  rewrite (bind_Done _ _ _ _ _ (local_run _ _ _ _ _ Hrun)). simpl in *.
  destruct (store msg1 0 ack) as [msg'|] eqn:Hst; [|apply store_None in Hst; lia].
  rewrite (bind_Done _ _ _ _ _ (checked_Some _ _ _)).
  exists msg'. split; [done|]. apply store_length in Hst. congruence.
Qed.

Section receiver_net.
Context {PF : Platform} (windowSize : Z) (Hw : 0 < windowSize).
Context (Hptr : (1 ≤ words_of sizeof_ptr)%nat).

(** One pass of the receive loop on a frame whose first word is [m]. *)
Lemma receive_and_ack_run fuel st msg (w : SimNet.net) t m d rest ack st' :
  SimNet.inbox w = (t, m :: d) :: rest → (words_of sizeof_ptr ≤ length msg)%nat →
  recv_frame fuel windowSize m st = Done ack st' →
  ∃ msg' w', receive_and_ack fuel windowSize (st, msg) w = Done (st', msg') w' ∧
    length msg' = length msg ∧ SimNet.inbox w' = rest ∧
    SimNet.sent w' = SimNet.sent w ++ [Words [ack]].
Proof.
  intros Hin Hlen Hrun. unfold receive_and_ack.
  destruct (blit_take_is_Some (words_of sizeof_ptr) (m :: d) msg Hlen) as [msg1 Hblit].
  pose proof (blit_take_head _ _ _ _ _ Hptr Hblit) as Hm.
  pose proof (blit_length _ _ _ Hblit) as Hl1.
  erewrite bind_Done by (eapply recvFrom_array_run; [by apply SimNet.recv_ready|done]).
  rewrite Hm, (bind_Done _ _ _ _ _ (checked_Some _ _ _)).
  rewrite (bind_Done _ _ _ _ _ (local_run _ _ _ _ _ Hrun)). simpl.
  destruct (store msg1 0 ack) as [msg'|] eqn:Hst; [|apply store_None in Hst; lia].
  rewrite (bind_Done _ _ _ _ _ (checked_Some _ _ _)).
  eexists _, _. split; [done|]. apply store_length in Hst.
  split_and!; [congruence|done|]. by rewrite SimNet.sent_send.
Qed.

(** The answer to a frame is the slot after the new [lastAckSent]. *)
Lemma recv_frame_answer fuel m st a st' :
  recv_frame fuel windowSize m st = Done a st' → a = next_slot windowSize st'.
Proof. unfold recv_frame. intros Hrun. prog_inv. by injection Hrun2 as <- <-. Qed.

(** What a pass that returns has done: it has read one frame, sent one
    acknowledgment, the slot after the new [lastAckSent], and left in
    [message] the words received with the acknowledgment in place of the
    first. *)
Lemma receive_and_ack_stores fuel st msg (w : SimNet.net) s' w' :
  receive_and_ack fuel windowSize (st, msg) w = Done s' w' →
  ∃ t d, SimNet.inbox w = (t, d) :: SimNet.inbox w' ∧
    SimNet.sent w' = SimNet.sent w ++ [Words [next_slot windowSize s'.1]] ∧
    s'.2 = <[0%nat := next_slot windowSize s'.1]>
             (take (words_of sizeof_ptr) d ++
              drop (length (take (words_of sizeof_ptr) d)) msg).
Proof.
  unfold receive_and_ack. intros Hrun. calls_inv. simpl in *.
  match goal with H : SimNet.recv _ _ = Some _ |- _ =>
    apply SimNet.recv_inv in H as (t & d & Hin & -> & _ & Hout) end.
  match goal with H : blit _ _ = Some _ |- _ => unfold blit in H; case_match; [|done];
    injection H as <- end.
  match goal with H : store _ _ _ = Some _ |- _ => apply store_Some in H as [_ ->] end.
  match goal with H : local _ _ _ = Done _ _ |- _ =>
    apply local_inv_Done in H as [->%recv_frame_answer ->] end.
  exists t, d. split; [done|]. split; [|done].
  by rewrite SimNet.sent_send; unfold SimNet.sent; rewrite Hout.
Qed.

(** The invariant of the receive loops on the network. *)
Definition served (msg : list Z) (s : rstate * list Z) (w : SimNet.net) : Prop :=
  rstate_ok windowSize s.1 ∧ settled windowSize s.1 ∧
  SimNet.inbox_all (seq_frame windowSize) w ∧ length s.2 = length msg.

Lemma receive_and_ack_safe fuel msg s (w : SimNet.net) :
  (words_of sizeof_ptr ≤ length msg)%nat → (Z.to_nat windowSize + 1 ≤ fuel)%nat →
  served msg s w → safe (served msg) (receive_and_ack fuel windowSize s w).
Proof.
  intros Hlen Hfuel (Hok & _ & Hall & Hl). destruct s as [st m0]. simpl in *.
  destruct (SimNet.inbox w) as [|[t d] rest] eqn:Hin.
  - unfold receive_and_ack. erewrite bind_Blocked_l; [done|].
    apply recvFrom_array_blocked. simpl. unfold SimNet.recv. by rewrite Hin.
  - unfold SimNet.inbox_all in Hall. rewrite Hin in Hall.
    apply Forall_cons in Hall as [(m & d' & Hd & Hm) Hall]. simpl in Hd. subst d.
    destruct (recv_frame_spec windowSize Hw fuel m st Hok Hm Hfuel)
      as (n & st1 & _ & Hok1 & _ & Hrun & _ & Hset).
    destruct (receive_and_ack_run fuel st m0 w t m d' rest _ _ Hin ltac:(lia) Hrun)
      as (msg' & w' & -> & Hl' & Hin' & _).
    split_and!; simpl; [by apply slide_n_ok|done| |congruence].
    unfold SimNet.inbox_all. by rewrite Hin'.
Qed.

Lemma receive_and_ack_answers fuel msg s (w0 w : SimNet.net) :
  (words_of sizeof_ptr ≤ length msg)%nat → (Z.to_nat windowSize + 1 ≤ fuel)%nat →
  served msg s w → answered windowSize w0 w →
  safe (λ s' w', served msg s' w' ∧ answered windowSize w0 w')
       (receive_and_ack fuel windowSize s w).
Proof.
  intros Hlen Hfuel Hs (acks & Hsent & Hacks & Hn).
  pose proof (receive_and_ack_safe fuel msg s w Hlen Hfuel Hs) as Hsafe.
  destruct (receive_and_ack fuel windowSize s w) as [s' w'| | |] eqn:Hrun; [|done..].
  split; [done|]. destruct s as [st m0]. destruct Hsafe as (Hok' & _).
  apply receive_and_ack_stores in Hrun as (t & d & Hin & Hsent' & _).
  exists (acks ++ [Words [next_slot windowSize s'.1]]).
  rewrite Hsent', Hsent, app_assoc, length_app. simpl.
  split_and!; [done| |rewrite Hin in Hn; simpl in Hn; lia].
  apply Forall_app. split; [done|]. apply Forall_singleton. eexists. split; [done|].
  by apply next_slot_is_seq.
Qed.
End receiver_net.

(** C34: on frames whose first word is a sequence number the receiver
    never reads or writes outside [buffer] or [message], whatever the
    order, the repetitions and the losses among the frames; where it
    returns, its state satisfies the invariant and the slot after
    [lastAckSent] is not marked.  The fuel is that of the slide loop. *)
Theorem serverEarlyRetrans_safe {PF : Platform} fuel max message windowSize (w : SimNet.net) :
  0 < windowSize → (1 ≤ words_of sizeof_ptr ≤ length message)%nat →
  (Z.to_nat windowSize + 1 ≤ fuel)%nat → SimNet.inbox_all (seq_frame windowSize) w →
  safe (λ s _, rstate_ok windowSize s.1 ∧ settled windowSize s.1)
       (serverEarlyRetrans fuel max message windowSize w).
Proof.
  intros Hw [Hptr Hlen] Hfuel Hall. unfold serverEarlyRetrans.
  destruct (decide (0 ≤ max)) as [Hmax | Hmax]; [|rewrite for_range_empty by lia; simpl; split; [by apply rinit_ok|by apply rinit_settled]].
  eapply safe_mono; [|apply (safe_for_range (λ _, served windowSize message)); [done| |]].
  - by intros s w' (? & ? & _).
  - intros j s w1 _ Hs. apply (safe_do_while (served windowSize message) (served windowSize message)); [| |done].
    + intros. by apply receive_and_ack_safe.
    + intros s1 w2 Hs1. simpl. by destruct (_ <=? _).
  - split_and!; [by apply rinit_ok|by apply rinit_settled|done..].
Qed.

(** C30: what the receiver sends.  On frames whose first word is a
    sequence number, in any order, a run of [serverEarlyRetrans] does not
    fault, and when it returns it has sent exactly one datagram for each
    frame it has read, each of them an acknowledgment: one word, which is
    a sequence number. *)
Theorem serverEarlyRetrans_acknowledges {PF : Platform} fuel max message windowSize
    (w : SimNet.net) :
  0 < windowSize → (1 ≤ words_of sizeof_ptr ≤ length message)%nat →
  (Z.to_nat windowSize + 1 ≤ fuel)%nat → SimNet.inbox_all (seq_frame windowSize) w →
  safe (λ _ w', answered windowSize w w') (serverEarlyRetrans fuel max message windowSize w).
Proof.
  intros Hw [Hptr Hlen] Hfuel Hall. unfold serverEarlyRetrans.
  assert (answered windowSize w w) as Hnil by (exists []; by rewrite app_nil_r).
  destruct (decide (0 ≤ max)) as [Hmax | Hmax]; [|by rewrite for_range_empty by lia].
  pose (I := λ (s : rstate * list Z) w', served windowSize message s w' ∧ answered windowSize w w').
  eapply safe_mono; [|apply (safe_for_range (λ _, I)); [done| |]].
  - by intros s w' [_ ?].
  - intros j s w1 _ [Hs Ha]. apply (safe_do_while I I); [| |done].
    + intros s1 w2 [? ?]. by apply receive_and_ack_answers.
    + intros s1 w2 Hs1. simpl. by destruct (_ <=? _).
  - split; [|done]. split_and!; [by apply rinit_ok|by apply rinit_settled|done..].
Qed.

Lemma serverEarlyRetrans_acknowledges_witness :
  safe (λ _ w', answered 2 (SimNet.start [(0, [1; 7]); (1, [0; 7])]) w')
       (serverEarlyRetrans (PF := LP64) 3 2 [0; 0] 2 (SimNet.start [(0, [1; 7]); (1, [0; 7])])).
Proof.
  apply (serverEarlyRetrans_acknowledges (PF := LP64));
    [lia|change (1 ≤ 2 ≤ 2)%nat; lia|simpl; lia|].
  repeat constructor; eexists _, _; (split; [reflexivity|unfold is_seq, seqRange; lia]).
Defined.

Lemma in_order_acks_end windowSize i n :
  in_order_acks windowSize i (S n) =
  in_order_acks windowSize i n ++ [Words [seq_of windowSize (i + Z.of_nat n + 1)]].
Proof.
  revert i. induction n as [|n IH]; intros i.
  - simpl. by rewrite Z.add_0_r.
  - change (in_order_acks windowSize i (S (S n)))
      with (Words [seq_of windowSize (i + 1)] :: in_order_acks windowSize (i + 1) (S n)).
    rewrite IH. simpl. by replace (i + Z.of_nat (S n) + 1) with (i + 1 + Z.of_nat n + 1) by lia.
Qed.

(** Completion when the frames arrive in order, as the sender
    numbers them: the receiver consumes one frame per message and returns;
    it has answered the frame of index [i] with the sequence number of
    index [i + 1], and [lastAckSent] is the number of the last frame. *)
Theorem serverEarlyRetrans_in_order {PF : Platform} fuel message windowSize
    (w : SimNet.net) frames rest :
  0 < windowSize → (1 ≤ words_of sizeof_ptr ≤ length message)%nat → (2 ≤ fuel)%nat →
  SimNet.inbox w = frames ++ rest → in_order windowSize frames →
  ∃ st msg w',
    serverEarlyRetrans fuel (Z.of_nat (length frames)) message windowSize w = Done (st, msg) w' ∧
    SimNet.inbox w' = rest ∧
    SimNet.sent w' = SimNet.sent w ++ in_order_acks windowSize 0 (length frames) ∧
    lastAckSent st = seq_of windowSize (Z.of_nat (length frames) - 1) ∧
    rstate_ok windowSize st ∧ clean st.
Proof.
  intros Hw [Hptr Hlen] Hfuel Hin Hord. unfold serverEarlyRetrans.
  pose (I := λ (j : Z) (s : rstate * list Z) (w1 : SimNet.net),
    rstate_ok windowSize s.1 ∧ clean s.1 ∧ lastAckSent s.1 = seq_of windowSize (j - 1) ∧
    length s.2 = length message ∧ SimNet.inbox w1 = drop (Z.to_nat j) frames ++ rest ∧
    SimNet.sent w1 = SimNet.sent w ++ in_order_acks windowSize 0 (Z.to_nat j)).
  destruct (for_range_returns I 0 (Z.of_nat (length frames))
              (λ _, do_while fuel (receive_and_ack fuel windowSize)
                      (λ s, mret (offset s.1 <=? 0)))
              (rinit windowSize, message) w)
    as ([st msg] & w' & Hrun & Hok & Hclean & Hlas & _ & Hin' & Hsent); [lia| | |].
  - intros j [st msg] w1 Hj (Hok & Hclean & Hlas & Hl & Hin1 & Hsent). simpl in *.
    destruct (lookup_lt_is_Some_2 frames (Z.to_nat j)) as [[t d] Hjth]; [lia|].
    rewrite (drop_S _ _ _ Hjth) in Hin1.
    pose proof (Hord _ _ _ Hjth) as Hd. rewrite Z2Nat.id in Hd by lia.
    destruct d as [|m d]; [done|]. injection Hd as ->.
    assert (next_slot windowSize st = seq_of windowSize j) as Hnext.
    { rewrite next_slot_seq, Hlas, seq_of_add by (done || lia). f_equal. lia. }
    destruct (recv_frame_next windowSize Hw fuel st Hok Hclean Hfuel)
      as (st' & Hframe & Hok' & Hclean' & Hlas' & Hoff).
    rewrite Hnext in Hframe, Hlas'.
    destruct (receive_and_ack_run windowSize Hptr fuel st msg w1 _ _ _ _ _ _ Hin1 ltac:(lia) Hframe)
      as (msg' & w2 & Hrun & Hl' & Hin2 & Hsent2).
    exists (st', msg'), w2. split.
    + destruct fuel as [|fuel]; [lia|]. cbv beta. rewrite do_while_S, Hrun. simpl.
      by destruct (Z.leb_spec (offset st') 0); [lia|].
    + unfold I. simpl. replace (Z.to_nat (j + 1)) with (S (Z.to_nat j)) by lia.
      rewrite in_order_acks_end, app_assoc, <- Hsent, Hsent2, Hlas, seq_of_add by lia.
      split_and!; [done|done|rewrite Hlas'; f_equal; lia|congruence|done|].
      by replace (0 + Z.of_nat (Z.to_nat j) + 1) with (j - 1 + 2) by lia.
  - unfold I. simpl. rewrite app_nil_r.
    split_and!; [by apply rinit_ok|by apply clean_rinit| |done..].
    unfold seq_of, seqRange. rewrite <- (Z_mod_plus_full _ 1), Z.mod_small; lia.
  - exists st, msg, w'. rewrite Nat2Z.id, drop_all in *. by rewrite Hrun.
Qed.

Lemma serverEarlyRetrans_in_order_witness :
  ∃ st msg w',
    serverEarlyRetrans (PF := LP64) 2 (Z.of_nat (length [(0, [0; 7]); (3, [1; 7]); (5, [2; 7])]))
      [9; 9] 2 (SimNet.start [(0, [0; 7]); (3, [1; 7]); (5, [2; 7])]) = Done (st, msg) w' ∧
    SimNet.inbox w' = [] ∧
    SimNet.sent w' = [] ++ in_order_acks 2 0 3 ∧
    lastAckSent st = seq_of 2 (3 - 1) ∧ rstate_ok 2 st ∧ clean st.
Proof.
  apply (serverEarlyRetrans_in_order (PF := LP64) 2 [9; 9] 2
           (SimNet.start [(0, [0; 7]); (3, [1; 7]); (5, [2; 7])])
           [(0, [0; 7]); (3, [1; 7]); (5, [2; 7])] []);
    [lia|change (1 ≤ 2 ≤ 2)%nat; lia|lia|done|].
  intros [|[|[|i]]] t d; simpl; [by intros [= <- <-]..|done].
Defined.

Lemma serverEarlyRetrans_safe_witness :
  safe (λ s _, rstate_ok 2 s.1 ∧ settled 2 s.1)
    (serverEarlyRetrans (PF := LP64) 3 2 [9; 9] 2
       (SimNet.start [(0, [1; 7]); (3, [1; 7]); (5, [0; 7]); (6, [4; 7])])).
Proof.
  apply serverEarlyRetrans_safe; [lia|change (1 ≤ 2 ≤ 2)%nat; lia|simpl; lia|].
  repeat apply Forall_cons_2; try apply Forall_nil_2; simpl;
    eexists _, _; (split; [done|unfold is_seq, seqRange; lia]).
Defined.

(** A frame that is buffered ahead of the cursor and arrives again
    changes neither the buffer nor the cursors and gets the same answer;
    but its offset is positive, so the loop of line 229 ends on it and the
    copy is counted as one of the [max] messages. *)
Theorem recv_frame_duplicate windowSize fuel m st :
  0 < windowSize → rstate_ok windowSize st → settled windowSize st →
  load (buffer st) m = Some true → m ≠ lastAckSent st → (1 ≤ fuel)%nat →
  0 < accept_offset windowSize (largestAccFrame st) m ∧
  recv_frame fuel windowSize m st =
    Done (next_slot windowSize st)
         (set_offset (accept_offset windowSize (largestAccFrame st) m) st).
Proof.
  intros Hw Hok Hset Hm Hne Hfuel. pose proof (load_is_seq windowSize st m true Hok Hm) as Hseq.
  split; [|apply recv_frame_unchanged; auto].
  apply accept_offset_pos; [done..|]. by destruct (ok_marked _ _ Hok m Hm).
Qed.

Lemma recv_frame_duplicate_witness :
  0 < accept_offset 2 (largestAccFrame (set_buffer [false; true; false; false; false] (rinit 2))) 1 ∧
  recv_frame 1 2 1 (set_buffer [false; true; false; false; false] (rinit 2)) =
    Done (next_slot 2 (set_buffer [false; true; false; false; false] (rinit 2)))
         (set_offset
            (accept_offset 2
               (largestAccFrame (set_buffer [false; true; false; false; false] (rinit 2))) 1)
            (set_buffer [false; true; false; false; false] (rinit 2))).
Proof.
  apply recv_frame_duplicate; [lia| |done|done|done|lia].
  apply (mark_accept_ok 2 (rinit 2) 1 0); [apply rinit_ok; lia|by vm_compute..].
Defined.

(** C40: a first word that is not a sequence number can pass the test of
    line 217: every value that differs from [largestAccFrame] by a
    non-zero multiple of the ring size gets the offset [windowSize], and
    line 218 writes outside [buffer]. *)
Theorem recv_frame_out_of_bounds windowSize fuel st k :
  0 < windowSize → rstate_ok windowSize st → k ≠ 0 →
  recv_frame fuel windowSize (largestAccFrame st + k * seqRange windowSize) st =
  Fault (OutOfBounds (largestAccFrame st + k * seqRange windowSize)) st.
Proof.
  intros Hw [Hlen Hlas Hlaf _] Hk. apply recv_frame_fault.
  - rewrite accept_offset_multiple; lia.
  - pose proof (seq_of_is_seq windowSize ltac:(lia) (lastAckSent st + windowSize)) as Hs.
    rewrite <- Hlaf in Hs. unfold is_seq in Hs. rewrite Hlen. nia.
Qed.

Lemma recv_frame_out_of_bounds_witness :
  recv_frame 3 2 (largestAccFrame (rinit 2) + 1 * seqRange 2) (rinit 2) =
  Fault (OutOfBounds (largestAccFrame (rinit 2) + 1 * seqRange 2)) (rinit 2).
Proof. apply recv_frame_out_of_bounds; [lia|apply rinit_ok; lia|lia]. Defined.

(** The server counts a repeated frame as a message: asked for two
    messages and given frame 1 twice, it returns without having received
    frame 0, both times asking for frame 0. *)
Example serverEarlyRetrans_counts_duplicate :
  serverEarlyRetrans (PF := LP64) 3 2 [9; 9] 2 (SimNet.start [(0, [1; 7]); (4, [1; 7])]) =
  Done ({| buffer := [false; true; false; false; false]; lastAckSent := 4;
           largestAccFrame := 1; offset := 2 |}, [0; 7])
       {| SimNet.now := 4; SimNet.inbox := [];
          SimNet.outbox := [(0, Words [0]); (4, Words [0])] |}.
Proof. by vm_compute. Qed.
