(* ===== verification/ReceiverSpec.v ===== *)
(** * The window receiver against a specification on frame numbers

    [serverEarlyRetrans] works on sequence numbers, the frame numbers
    modulo [2 * windowSize + 1], and on a buffer of booleans.  What it is
    meant to do is stated more simply on the frame numbers themselves:
    the receiver knows which frames it has received; it accepts a frame
    when its number is among the [windowSize] numbers from the first frame
    it misses, and it answers every frame with the number of the first
    frame it misses.

    [Module WRSpec] is that specification: the state [astate], the step
    [deliver], the answer [answer], and the invariant [wf] which says
    that an answer [n] is cumulative (every frame below [n] was
    received).  [represents] relates the locals of the code to a state of
    the specification.  The theorems show that [recv_frame]
    ([src/udp.cpp] lines 214-227) simulates [deliver] for every frame
    whose number is at most [windowSize + 1] behind and less than
    [windowSize] ahead of the first missing frame, which are the
    [2 * windowSize + 1] numbers a ring of that size tells apart, and
    that a frame one step further behind is taken for a new one.

    The two sides are also given as transition systems, [rstep] for the
    code (one call of [recv_frame] on a sequence number) and [astep] for
    the specification (a frame within reach arrives), both labelled with
    the frame and the answer.  Since every sequence number is that of
    exactly one frame within reach, the simulation holds from the
    initial state on, by induction on the steps: every state the code
    reaches represents a state the specification reaches. *)

From stdpp Require Import gmap.
From S2P Require Import Prelude Transport SeqRing WindowReceiver.

#[local] Open Scope Z_scope.

(** ** The specification *)

Module WRSpec.

(** The first frame that was not received, and the frames received. *)
Record astate : Type := {
  expected : Z;
  received : gset Z
}.

Definition init : astate := {| expected := 0; received := ∅ |}.

(** The frame [i] is one of the [w] frames from the first missing one. *)
Definition accepts (w : Z) (a : astate) (i : Z) : bool :=
  bool_decide (expected a ≤ i < expected a + w).

(** The first number from [e] on that is not in [X], among [n] numbers. *)
Fixpoint first_missing (n : nat) (X : gset Z) (e : Z) : Z :=
  match n with
  | O => e
  | S n => if decide (e ∈ X) then first_missing n X (e + 1) else e
  end.

(** The state after frame [i] has arrived. *)
Definition deliver (w : Z) (a : astate) (i : Z) : astate :=
  if accepts w a i then
    {| expected := first_missing (Z.to_nat w) ({[i]} ∪ received a) (expected a);
       received := {[i]} ∪ received a |}
  else a.

(** The acknowledgment: the sequence number of the first missing frame. *)
Definition answer (w : Z) (a : astate) : Z := seq_of w (expected a).

(** The states after each of the frames [frames], and the answers. *)
Fixpoint run (w : Z) (a : astate) (frames : list Z) : astate :=
  match frames with
  | [] => a
  | i :: frames => run w (deliver w a i) frames
  end.

Fixpoint answers (w : Z) (a : astate) (frames : list Z) : list Z :=
  match frames with
  | [] => []
  | i :: frames => answer w (deliver w a i) :: answers w (deliver w a i) frames
  end.

(** The numbers a ring of [2 * w + 1] tells apart around the first
    missing frame: at most [w + 1] behind, less than [w] ahead. *)
Definition in_reach (w : Z) (a : astate) (i : Z) : bool :=
  bool_decide (expected a - w - 1 ≤ i < expected a + w).

(** Every frame of the list is in reach when it arrives. *)
Fixpoint admissible (w : Z) (a : astate) (frames : list Z) : bool :=
  match frames with
  | [] => true
  | i :: frames => in_reach w a i && admissible w (deliver w a i) frames
  end.

(** The invariant: every frame below [expected] was received, [expected]
    was not, and nothing beyond the window was. *)
Record wf (w : Z) (a : astate) : Prop := {
  wf_nonneg : 0 ≤ expected a;
  wf_below j : 0 ≤ j < expected a → j ∈ received a;
  wf_expected : expected a ∉ received a;
  wf_window j : j ∈ received a → 0 ≤ j < expected a + w
}.

(** *** The first missing number *)

Lemma first_missing_range n X e : e ≤ first_missing n X e ≤ e + Z.of_nat n.
Proof.
  revert e. induction n as [|n IH]; intros e; simpl; [lia|].
  destruct (decide (e ∈ X)); [|lia]. specialize (IH (e + 1)). lia.
Qed.

Lemma first_missing_below n X e j : e ≤ j < first_missing n X e → j ∈ X.
Proof.
  revert e. induction n as [|n IH]; intros e; simpl; [lia|].
  destruct (decide (e ∈ X)) as [He|]; [|lia].
  intros Hj. destruct (decide (j = e)) as [-> | ?]; [done|]. apply (IH (e + 1)). lia.
Qed.

Lemma first_missing_stop n X e :
  first_missing n X e < e + Z.of_nat n → first_missing n X e ∉ X.
Proof.
  revert e. induction n as [|n IH]; intros e; simpl; [lia|].
  destruct (decide (e ∈ X)); [|done]. intros. apply IH. lia.
Qed.

Lemma first_missing_eq n X e (k : nat) :
  (∀ j, e ≤ j < e + Z.of_nat k → j ∈ X) → e + Z.of_nat k ∉ X → (k ≤ n)%nat →
  first_missing n X e = e + Z.of_nat k.
Proof.
  revert e k. induction n as [|n IH]; intros e k Hin Hout Hk.
  - simpl. lia.
  - simpl. destruct (decide (e ∈ X)) as [He | He].
    + destruct k as [|k]; [by rewrite Z.add_0_r in Hout|].
      rewrite (IH (e + 1) k); [lia| |by replace (e + 1 + Z.of_nat k) with (e + Z.of_nat (S k)) by lia|lia].
      intros j Hj. apply Hin. lia.
    + destruct k as [|k]; [lia|]. destruct He. apply Hin. lia.
Qed.

(** *** The invariant *)

Lemma wf_init w : 0 ≤ w → wf w init.
Proof. intros. split; simpl; [lia|lia|set_solver|set_solver]. Qed.

(** An answer is cumulative: the step keeps [wf]. *)
Lemma wf_deliver w a i : 0 ≤ w → wf w a → wf w (deliver w a i).
Proof.
  intros Hw [Hn Hb He Hwin]. unfold deliver, accepts. case_bool_decide as Hi; [|done].
  pose proof (first_missing_range (Z.to_nat w) ({[i]} ∪ received a) (expected a)) as Hr.
  split; simpl.
  - lia.
  - intros j Hj. destruct (decide (j < expected a)); [apply elem_of_union_r, Hb; lia|].
    eapply first_missing_below. split; [|apply Hj]. lia.
  - destruct (decide (first_missing (Z.to_nat w) ({[i]} ∪ received a) (expected a)
                      < expected a + Z.of_nat (Z.to_nat w))) as [|Hend].
    + by apply first_missing_stop.
    + intros [?%elem_of_singleton | Hin%Hwin]%elem_of_union; lia.
  - intros j [?%elem_of_singleton | Hin%Hwin]%elem_of_union; lia.
Qed.

Lemma wf_run w a frames : 0 ≤ w → wf w a → wf w (run w a frames).
Proof. intros Hw. revert a. induction frames; simpl; auto using wf_deliver. Qed.

Lemma expected_deliver w a i : expected a ≤ expected (deliver w a i).
Proof.
  unfold deliver. destruct (accepts w a i); [|done]. apply first_missing_range.
Qed.

(** The first missing frame moves it. *)
Lemma expected_deliver_next w a : 1 ≤ w → expected a < expected (deliver w a (expected a)).
Proof.
  intros Hw. unfold deliver, accepts. rewrite bool_decide_eq_true_2 by lia. simpl.
  destruct (Z.to_nat w) as [|n] eqn:Hn; [lia|]. simpl.
  rewrite decide_True by (apply elem_of_union_l; by apply elem_of_singleton).
  pose proof (first_missing_range n ({[expected a]} ∪ received a) (expected a + 1)). lia.
Qed.

(** A frame ahead of the first missing one does not move it. *)
Lemma expected_deliver_ahead w a i :
  wf w a → expected a < i → expected (deliver w a i) = expected a.
Proof.
  intros Hwf Hi. unfold deliver. destruct (accepts w a i); [|done]. simpl.
  rewrite (first_missing_eq _ _ _ 0); [lia|intros; lia| |lia].
  rewrite Z.add_0_r. pose proof (wf_expected _ _ Hwf).
  intros [?%elem_of_singleton | ?]%elem_of_union; [lia|done].
Qed.

Lemma received_deliver w a i j :
  j ∈ received (deliver w a i) → j = i ∨ j ∈ received a.
Proof. unfold deliver. destruct (accepts w a i); simpl; set_solver. Qed.

Lemma received_run w a frames j :
  j ∈ received (run w a frames) → j ∈ frames ∨ j ∈ received a.
Proof.
  revert a. induction frames as [|i frames IH]; intros a; simpl; [auto|].
  intros [? | [-> | ?]%received_deliver]%IH; set_solver.
Qed.

End WRSpec.

Import WRSpec.

(** ** The code's locals as a state of the specification *)

(** The buffer of [st] marks, among the [w] slots after [lastAckSent],
    those of the frames of [X], the cursor being just before frame [e]. *)
Record marks (w : Z) (st : rstate) (e : Z) (X : gset Z) : Prop := {
  marks_las : lastAckSent st = seq_of w (e - 1);
  marks_window j : j ∈ X → j < e + w;
  marks_held j : 1 ≤ j ≤ w →
    load (buffer st) (seq_of w (e - 1 + j)) = Some true ↔ e - 1 + j ∈ X
}.

Record represents (w : Z) (st : rstate) (a : astate) : Prop := {
  rep_ok : rstate_ok w st;
  rep_wf : wf w a;
  rep_marks : marks w st (expected a) (received a)
}.

(** The answers of the code to the sequence numbers [ms], one call of
    [recv_frame] for each. *)
Fixpoint recv_frames (fuel : nat) (w : Z) (ms : list Z) : prog rstate (list Z) :=
  match ms with
  | [] => mret []
  | m :: ms => r ← recv_frame fuel w m; rs ← recv_frames fuel w ms; mret (r :: rs)
  end.

(** ** The receiver and its specification as transition systems *)

(** A step of the code: [recv_frame] processes the sequence number [m]
    and answers [ack]. *)
Inductive rstep (fuel : nat) (w : Z) : rstate → Z * Z → rstate → Prop :=
| rstep_frame st m ack st' :
    is_seq w m → recv_frame fuel w m st = Done ack st' → rstep fuel w st (m, ack) st'.

(** A step of the specification: frame [i], within reach, arrives and
    is answered. *)
Inductive astep (w : Z) : astate → Z * Z → astate → Prop :=
| astep_deliver a i :
    in_reach w a i → astep w a (i, answer w (deliver w a i)) (deliver w a i).

(** The states either system reaches, whatever the frames. *)
Definition rreach (fuel : nat) (w : Z) : relation rstate :=
  rtc (λ st st', ∃ l, rstep fuel w st l st').

Definition areach (w : Z) : relation astate :=
  rtc (λ a a', ∃ l, astep w a l a').

Section refinement.
Context (w : Z) (Hw : 0 < w).

Lemma represents_init : represents w (rinit w) init.
Proof.
  split; [by apply rinit_ok|apply wf_init; lia|]. split; simpl.
  - unfold seq_of, seqRange. rewrite <- (Z_mod_plus_full _ 1), Z.mod_small; lia.
  - set_solver.
  - intros j _. split; [|set_solver].
    intros (_ & Hj)%load_Some. by apply lookup_replicate in Hj as [? _].
Qed.

Lemma represents_settled st a : represents w st a → settled w st.
Proof.
  intros [Hok Hwf [Hlas _ Hheld]]. unfold settled.
  rewrite next_slot_seq, Hlas, seq_of_add by (done || lia).
  destruct (load_buffer_is_Some w st (seq_of w (expected a - 1 + 1)) Hok) as [[] Hb];
    [apply seq_of_is_seq; lia| |done].
  apply Hheld in Hb; [|lia]. replace (expected a - 1 + 1) with (expected a) in Hb by lia.
  by destruct (wf_expected _ _ Hwf).
Qed.

Lemma represents_set_offset off st a : represents w st a → represents w (set_offset off st) a.
Proof. intros [Hok ? []]. split; [by apply rstate_ok_set_offset|done|by split]. Qed.

(** The frame's sequence number is as far ahead of [lastAckSent] as the
    frame is ahead of the last frame received in order. *)
Lemma frame_dist st a i :
  represents w st a →
  ring_dist w (seq_of w i) (lastAckSent st) = (i - expected a + 1) `mod` seqRange w.
Proof.
  intros [_ _ [-> _ _]]. rewrite ring_dist_seq_of by lia. unfold ring_dist. f_equal. lia.
Qed.

(** Within reach, the test of line 217 is the test of the specification. *)
Lemma accepts_offset st a i :
  represents w st a → in_reach w a i →
  0 < accept_offset w (largestAccFrame st) (seq_of w i) ↔ accepts w a i.
Proof.
  intros Hrep Hreach%bool_decide_unpack.
  rewrite accept_offset_pos, (frame_dist st a) by (done || apply Hrep || apply seq_of_is_seq; lia).
  unfold accepts. rewrite bool_decide_spec.
  destruct (decide (expected a - 1 ≤ i)).
  - rewrite Z.mod_small by (unfold seqRange; lia). lia.
  - rewrite <- (Z_mod_plus_full _ 1), Z.mod_small by (unfold seqRange; lia).
    unfold seqRange. lia.
Qed.

(** Two frames of one window have different sequence numbers. *)
Lemma seq_of_window_inj i j e :
  e ≤ i < e + w → e ≤ j < e + w → seq_of w i = seq_of w j → i = j.
Proof.
  intros Hi Hj Heq. destruct (decide (j ≤ i)).
  - apply (seq_of_inj w); [unfold seqRange; lia|done].
  - symmetry. apply (seq_of_inj w); [unfold seqRange; lia|done].
Qed.

(** Line 218 on an accepted frame: the frame joins the frames marked. *)
Lemma mark_marks st a i :
  represents w st a → in_reach w a i → accepts w a i →
  ∃ st1, mark w (seq_of w i) st = Done tt st1 ∧ rstate_ok w st1 ∧
    0 < offset st1 ∧ marks w st1 (expected a) ({[i]} ∪ received a).
Proof.
  intros Hrep Hreach Hacc. pose proof Hrep as [Hok Hwf [Hlas Hwin Hheld]].
  pose proof (proj2 (accepts_offset st a i Hrep Hreach) Hacc) as Hoff.
  apply bool_decide_unpack in Hacc.
  assert (is_seq w (seq_of w i)) as Hm by (apply seq_of_is_seq; lia).
  eexists. split; [by apply mark_accept|].
  split_and!; [apply mark_accept_ok; [done..|by apply accept_offset_pos]|done|].
  pose proof (store_buffer w st (seq_of w i) true Hok Hm) as Hst.
  split; simpl; [done|intros j [->%elem_of_singleton | ?%Hwin]%elem_of_union; lia|].
  intros j Hj. destruct (decide (expected a - 1 + j = i)) as [<- | Hne].
  - rewrite (load_store_eq _ _ _ _ Hst), elem_of_union, elem_of_singleton. tauto.
  - rewrite (load_store_ne _ _ _ _ _ Hst), Hheld by (done || intros ?%(seq_of_window_inj _ _ (expected a)); lia).
    rewrite elem_of_union, elem_of_singleton. tauto.
Qed.

(** The slots the slide loop leaves marked, [n] iterations on. *)
Lemma slide_n_marks st e X (n : nat) :
  rstate_ok w st → marks w st e X → Z.of_nat n ≤ w →
  marks w (slide_n w n st) (e + Z.of_nat n) X.
Proof.
  intros Hok [Hlas Hwin Hheld] Hn. split.
  - rewrite slide_n_las, Hlas, seq_of_add by (done || lia). f_equal. lia.
  - intros j ?%Hwin. lia.
  - intros j Hj.
    rewrite load_slide_n, Hlas, ring_dist_seq_of by (done || apply seq_of_is_seq || unfold seqRange; lia).
    replace (e + Z.of_nat n - 1 + j) with (e - 1 + (Z.of_nat n + j)) by lia.
    rewrite ring_dist_exact by (unfold seqRange; lia).
    replace (e - 1 + (Z.of_nat n + j) - (e - 1)) with (Z.of_nat n + j) by lia.
    destruct (Z.ltb_spec (Z.of_nat n + j) (Z.of_nat n)); [lia|].
    destruct (decide (Z.of_nat n + j ≤ w)); [apply Hheld; lia|]. split.
    + intros [Heq | Hd]%(ok_marked _ _ Hok); exfalso.
      * rewrite Hlas in Heq. apply (seq_of_inj w) in Heq; [lia|unfold seqRange; lia].
      * rewrite Hlas, ring_dist_seq_of, ring_dist_exact in Hd by (unfold seqRange; lia). lia.
    + intros ?%Hwin. lia.
Qed.

(** The slide loop stops at the first missing frame. *)
Lemma slide_first_missing st e X (n : nat) :
  rstate_ok w st → marks w st e X → Z.of_nat n ≤ w →
  (∀ j, 1 ≤ j ≤ Z.of_nat n → load (buffer st) (seq_of w (lastAckSent st + j)) = Some true) →
  settled w (slide_n w n st) →
  first_missing (Z.to_nat w) X e = e + Z.of_nat n.
Proof.
  intros Hok Hmarks Hn Hrun Hset. pose proof Hmarks as [Hlas Hwin Hheld].
  apply first_missing_eq; [| |lia].
  - intros j Hj. replace j with (e - 1 + (j - e + 1)) by lia. apply Hheld; [lia|].
    rewrite <- (seq_of_add w ltac:(lia)), <- Hlas. apply Hrun. lia.
  - destruct (decide (Z.of_nat n = w)) as [Heq | Hne]; [intros ?%Hwin; lia|].
    destruct (slide_n_marks st e X n Hok Hmarks Hn) as [Hlas' _ Hheld'].
    unfold settled in Hset.
    rewrite next_slot_seq, Hlas', seq_of_add in Hset by (lia || by apply slide_n_ok).
    intros Hin. replace (e + Z.of_nat n) with (e + Z.of_nat n - 1 + 1) in Hin by lia.
    apply (Hheld' 1) in Hin; [|lia]. congruence.
Qed.

(** One frame: the code takes the step of the specification. *)
Lemma recv_frame_simulates fuel st a i :
  represents w st a → in_reach w a i → (Z.to_nat w + 1 ≤ fuel)%nat →
  ∃ st', recv_frame fuel w (seq_of w i) st = Done (answer w (deliver w a i)) st' ∧
    represents w st' (deliver w a i) ∧ (0 < offset st' ↔ accepts w a i).
Proof.
  intros Hrep Hreach Hfuel. pose proof (accepts_offset st a i Hrep Hreach) as Hoff.
  pose proof (rep_wf _ _ _ Hrep) as Hwf. unfold deliver, answer.
  destruct (accepts w a i) eqn:Hacc.
  - destruct (mark_marks st a i Hrep Hreach) as (st1 & Hmark & Hok1 & Hoff1 & Hmarks);
      [by rewrite Hacc|].
    destruct (slide_spec w Hw fuel st1 Hok1 Hfuel) as (n & Hn & Hslide & Hrun & Hset).
    pose proof (slide_first_missing st1 _ _ n Hok1 Hmarks Hn Hrun Hset) as Hfm.
    pose proof (slide_n_marks st1 _ _ n Hok1 Hmarks Hn) as Hmarks'.
    exists (slide_n w n st1). rewrite (recv_frame_run w fuel _ st st1 _ Hmark Hslide). simpl.
    rewrite next_slot_seq, (marks_las _ _ _ _ Hmarks'), seq_of_add, Hfm
      by (lia || by apply slide_n_ok).
    split_and!; [do 2 f_equal; lia| |by rewrite slide_n_offset].
    pose proof (wf_deliver w a i ltac:(lia) Hwf) as Hwf'. unfold deliver in Hwf'.
    rewrite Hacc, Hfm in Hwf'. split; [by apply slide_n_ok|done|done].
  - assert (accept_offset w (largestAccFrame st) (seq_of w i) ≤ 0) as Hle.
    { destruct (decide (0 < accept_offset w (largestAccFrame st) (seq_of w i))) as [Hp|]; [|lia].
      by apply Hoff in Hp. }
    pose proof Hrep as [Hok _ [Hlas _ _]].
    rewrite recv_frame_unchanged, next_slot_seq, Hlas, seq_of_add;
      [|lia|done|done|by eapply represents_settled|apply seq_of_is_seq; lia|lia|by left].
    eexists. split_and!; [do 2 f_equal; lia|by apply represents_set_offset|simpl; split; [lia|done]].
Qed.

(** A sequence of frames, each in reach when it arrives. *)
Lemma recv_frames_simulate fuel frames : ∀ st a,
  represents w st a → admissible w a frames → (Z.to_nat w + 1 ≤ fuel)%nat →
  ∃ st', recv_frames fuel w (seq_of w <$> frames) st = Done (answers w a frames) st' ∧
    represents w st' (run w a frames).
Proof.
  induction frames as [|i frames IH]; intros st a Hrep Hadm Hfuel; simpl in *.
  - by exists st.
  - apply andb_prop_elim in Hadm as [Hreach Hadm].
    destruct (recv_frame_simulates fuel st a i Hrep Hreach Hfuel) as (st1 & Hrun1 & Hrep1 & _).
    destruct (IH st1 _ Hrep1 Hadm Hfuel) as (st' & Hrun & Hrep').
    exists st'. by rewrite (bind_Done _ _ _ _ _ Hrun1), (bind_Done _ _ _ _ _ Hrun).
Qed.

(** *** The simulation *)

(** Every sequence number is that of exactly one frame within reach:
    the ring of [2 * w + 1] numbers is as large as the reach. *)
Lemma seq_in_reach a m :
  is_seq w m → ∃ i, in_reach w a i ∧ seq_of w i = m.
Proof.
  intros Hm. pose proof (Z.mod_pos_bound (m - (expected a - w - 1)) (seqRange w)) as Hr.
  exists (expected a - w - 1 + (m - (expected a - w - 1)) `mod` seqRange w). split.
  - apply bool_decide_pack. unfold seqRange in *. lia.
  - unfold seq_of. rewrite Zplus_mod_idemp_r.
    replace (expected a - w - 1 + (m - (expected a - w - 1))) with m by lia.
    by apply Z.mod_small.
Qed.

(** A step of the code from a state that represents [a] is a step of
    the specification from [a], with the same answer. *)
Lemma rstep_simulated fuel st a m ack st' :
  (Z.to_nat w + 1 ≤ fuel)%nat → represents w st a → rstep fuel w st (m, ack) st' →
  ∃ i, seq_of w i = m ∧ astep w a (i, ack) (deliver w a i) ∧ represents w st' (deliver w a i).
Proof.
  intros Hfuel Hrep Hstep. inversion Hstep as [? ? ? ? Hm Hrun]; subst.
  destruct (seq_in_reach a m Hm) as (i & Hreach & Hi).
  destruct (recv_frame_simulates fuel st a i Hrep Hreach Hfuel) as (st1 & Hrun1 & Hrep1 & _).
  rewrite Hi, Hrun in Hrun1. injection Hrun1 as -> ->.
  exists i. split; [done|]. split; [by constructor|done].
Qed.

(** From a state that represents a state of the specification the code
    takes a step on every sequence number. *)
Lemma rstep_total fuel st a m :
  (Z.to_nat w + 1 ≤ fuel)%nat → represents w st a → is_seq w m →
  ∃ ack st', rstep fuel w st (m, ack) st'.
Proof.
  intros Hfuel Hrep Hm. destruct (seq_in_reach a m Hm) as (i & Hreach & Hi).
  destruct (recv_frame_simulates fuel st a i Hrep Hreach Hfuel) as (st1 & Hrun1 & _).
  rewrite Hi in Hrun1. eexists _, st1. by constructor.
Qed.

(** The states the code reaches represent states the specification
    reaches. *)
Lemma rreach_simulated fuel st :
  (Z.to_nat w + 1 ≤ fuel)%nat → rreach fuel w (rinit w) st →
  ∃ a, areach w init a ∧ represents w st a.
Proof.
  intros Hfuel. apply (rtc_ind_r (λ st, ∃ a, areach w init a ∧ represents w st a)).
  - exists init. split; [apply rtc_refl|apply represents_init].
  - intros st1 st2 _ [[m ack] Hstep] (a & Hreach & Hrep).
    destruct (rstep_simulated fuel st1 a m ack st2 Hfuel Hrep Hstep) as (i & _ & Hastep & Hrep').
    exists (deliver w a i). split; [|done]. eapply rtc_r; [done|by eexists].
Qed.

End refinement.

(** The answer to the frame at position [k] is that of the state the
    frames up to it lead to. *)
Lemma answers_lookup w frames : ∀ a k ack,
  answers w a frames !! k = Some ack → ack = answer w (run w a (take (S k) frames)).
Proof.
  induction frames as [|i frames IH]; intros a k ack; [done|].
  destruct k as [|k]; simpl; [by intros [= <-]|apply IH].
Qed.

(** ** Theorems *)

(** C2: refinement.  In a state of the locals that represents the state
    [a] of the specification, processing the sequence number of a frame
    within reach returns, with the fuel of the slide loop; the value sent
    back is the answer of the specification, the new locals represent
    the state [deliver] gives, and [offset] is positive exactly when the
    specification accepts the frame. *)
Theorem recv_frame_refines w fuel st a i :
  0 < w → represents w st a → in_reach w a i → (Z.to_nat w + 1 ≤ fuel)%nat →
  ∃ st', recv_frame fuel w (seq_of w i) st = Done (answer w (deliver w a i)) st' ∧
    represents w st' (deliver w a i) ∧ (0 < offset st' ↔ accepts w a i).
Proof. intros. by apply recv_frame_simulates. Qed.

Lemma recv_frame_refines_witness :
  ∃ st', recv_frame 3 2 (seq_of 2 1) (rinit 2) = Done (answer 2 (deliver 2 init 1)) st' ∧
    represents 2 st' (deliver 2 init 1) ∧ (0 < offset st' ↔ accepts 2 init 1).
Proof.
  apply recv_frame_refines; [lia|apply represents_init; lia|done|simpl; lia].
Defined.

(** C3: the code refines the specification as a transition system.
    Every state the locals reach from their initial values, by calls of
    [recv_frame] on sequence numbers in any order and with the fuel of
    the slide loop, represents a state that the specification reaches
    by frames within reach; and from there the code takes a step on
    every sequence number [m]: it returns, and the step is the step of
    the specification for the one frame within reach that [m] numbers,
    with the same answer. *)
Theorem rreach_refines w fuel st :
  0 < w → (Z.to_nat w + 1 ≤ fuel)%nat → rreach fuel w (rinit w) st →
  ∃ a, areach w init a ∧ represents w st a ∧
    ∀ m, is_seq w m → ∃ i ack st',
      seq_of w i = m ∧ rstep fuel w st (m, ack) st' ∧
      astep w a (i, ack) (deliver w a i) ∧ represents w st' (deliver w a i).
Proof.
  intros Hw Hfuel (a & Hreach & Hrep)%rreach_simulated; [|done..].
  exists a. split; [done|]. split; [done|]. intros m Hm.
  destruct (rstep_total w Hw fuel st a m Hfuel Hrep Hm) as (ack & st' & Hstep).
  destruct (rstep_simulated w Hw fuel st a m ack st' Hfuel Hrep Hstep) as (i & ? & ? & ?).
  by exists i, ack, st'.
Qed.

Lemma rreach_refines_witness :
  let st := {| buffer := [false; true; false; false; false]; lastAckSent := 1;
               largestAccFrame := 3; offset := 1 |} in
  ∃ a, areach 2 init a ∧ represents 2 st a ∧
    ∀ m, is_seq 2 m → ∃ i ack st',
      seq_of 2 i = m ∧ rstep 3 2 st (m, ack) st' ∧
      astep 2 a (i, ack) (deliver 2 a i) ∧ represents 2 st' (deliver 2 a i).
Proof.
  apply (rreach_refines 2 3); [lia|simpl; lia|].
  eapply rtc_l; [exists (1, 0); by constructor|].
  apply rtc_once. exists (0, 2). by constructor.
Defined.

(** The acknowledgments are cumulative.  From the initial locals, on
    frames that are each within reach when they arrive, in any order and
    with any repetitions, the code gives the answers of the
    specification, and every answer is the sequence number of a frame
    number [n] such that each frame below [n] is among the frames that
    had arrived by then. *)
Theorem recv_frames_cumulative w fuel frames :
  0 < w → admissible w init frames → (Z.to_nat w + 1 ≤ fuel)%nat →
  ∃ st', recv_frames fuel w (seq_of w <$> frames) (rinit w) = Done (answers w init frames) st' ∧
    represents w st' (run w init frames) ∧
    ∀ k ack, answers w init frames !! k = Some ack →
      ∃ n, ack = seq_of w n ∧ ∀ j, 0 ≤ j < n → j ∈ take (S k) frames.
Proof.
  intros Hw Hadm Hfuel.
  destruct (recv_frames_simulate w Hw fuel frames _ _ (represents_init w Hw) Hadm Hfuel)
    as (st' & Hrun & Hrep).
  exists st'. split_and!; [done..|]. intros k ack ->%answers_lookup.
  eexists. split; [done|]. intros j Hj.
  pose proof (wf_run w init (take (S k) frames) ltac:(lia) (wf_init w ltac:(lia))) as Hwf.
  apply (wf_below _ _ Hwf), received_run in Hj as [? | ?]; [done|set_solver].
Qed.

Lemma recv_frames_cumulative_witness :
  ∃ st', recv_frames 3 2 (seq_of 2 <$> [1; 0; 0; 3; 2]) (rinit 2) =
           Done (answers 2 init [1; 0; 0; 3; 2]) st' ∧
    represents 2 st' (run 2 init [1; 0; 0; 3; 2]) ∧
    ∀ k ack, answers 2 init [1; 0; 0; 3; 2] !! k = Some ack →
      ∃ n, ack = seq_of 2 n ∧ ∀ j, 0 ≤ j < n → j ∈ take (S k) [1; 0; 0; 3; 2].
Proof. apply recv_frames_cumulative; [lia|by vm_compute|simpl; lia]. Defined.

(** The reach cannot be widened.  With a window of 2, a copy of
    frame 0 that arrives when the frames 0 to 3 have been received is 4
    behind the first missing frame; its sequence number is that of frame
    5, the code buffers it, and when frame 4 arrives the receiver asks
    for frame 6, where the specification asks for frame 5. *)
Example recv_frames_alias_out_of_reach :
  admissible 2 init [0; 1; 2; 3; 0; 4] = false ∧
  answers 2 init [0; 1; 2; 3; 0; 4] = [1; 2; 3; 4; 4; seq_of 2 5] ∧
  recv_frames 3 2 (seq_of 2 <$> [0; 1; 2; 3; 0; 4]) (rinit 2) =
  Done [1; 2; 3; 4; 4; seq_of 2 6]
       {| buffer := [true; false; false; false; false]; lastAckSent := 0;
          largestAccFrame := 2; offset := 1 |}.
Proof. by vm_compute. Qed.
