(* ===== verification/WindowSender.v ===== *)
(** * The windowed sender: [clientSlidingWindow]

    [src/udp.cpp] lines 108-152.  The sender keeps the frames it has sent
    and not yet seen acknowledged in [buffer], a ring of [windowSize + 1]
    slots of [max] words each, between the cursors [lastAckRec] (trailing
    edge) and [lastFrameSent] (leading edge).  For each message it first
    waits while the ring is full, resending every outstanding frame when
    the timer passes [MAX_TIME] and asking [ackAdvance] how far the
    trailing edge may move; then it numbers the message, sends it, copies
    it into the slot at the new leading edge and asks [ackAdvance] once
    more.

    [wstate] holds the locals; a cell of [buffer] is [None] until it is
    written, since the array is declared without an initial value.
    [retransmit_outstanding] is the loop of lines 124-130,
    [wait_for_room] the body of the [while] of line 121, [window_full]
    its condition, [copy_message] the loop of lines 143-145,
    [send_message] the body of the [for] and [clientSlidingWindow] the
    function.  Every index into [buffer] and [message] is checked, and the
    first division by [windowSize + 1] is checked for a zero divisor.

    [wstate_ok] is the invariant of the locals, [idle] the state between
    two messages when nothing is outstanding, [sends] and [resends] say
    what a piece of the function hands to the transport.  The lemmas on
    single steps hold on every transport, as do the rules for the
    properties of the world that the function keeps ([calm], [stable])
    or moves forward by one frame per message (Section [one_frame]); the
    theorems on runs are stated on the network [SimNet]. *)

From stdpp Require Import prelude.
From S2P Require Import Prelude Transport SeqRing AckAdvance.

#[local] Open Scope Z_scope.
#[local] Open Scope cint_scope.

(** ** The state *)

Record wstate : Type := {
  retrans : Z;
  lastAckRec : Z;
  lastFrameSent : Z;
  timeout : Timer;
  buffer : list (option Z);
  message : list Z
}.

(** Lines 110-115: the locals at entry. *)
Definition winit (max : Z) (message : list Z) (windowSize : Z) : wstate :=
  {| retrans := 0; lastAckRec := 0; lastFrameSent := 0;
     timeout := {| startTime := 0 |};
     buffer := replicate (Z.to_nat ((windowSize + 1) * max)) None;
     message := message |}.

Definition count_retrans (s : wstate) : wstate :=
  {| retrans := retrans s + 1; lastAckRec := lastAckRec s; lastFrameSent := lastFrameSent s;
     timeout := timeout s; buffer := buffer s; message := message s |}.

Definition with_lastAckRec (v : Z) (s : wstate) : wstate :=
  {| retrans := retrans s; lastAckRec := v; lastFrameSent := lastFrameSent s;
     timeout := timeout s; buffer := buffer s; message := message s |}.

Definition with_lastFrameSent (v : Z) (s : wstate) : wstate :=
  {| retrans := retrans s; lastAckRec := lastAckRec s; lastFrameSent := v;
     timeout := timeout s; buffer := buffer s; message := message s |}.

Definition with_timeout (tm : Timer) (s : wstate) : wstate :=
  {| retrans := retrans s; lastAckRec := lastAckRec s; lastFrameSent := lastFrameSent s;
     timeout := tm; buffer := buffer s; message := message s |}.

Definition with_buffer (b : list (option Z)) (s : wstate) : wstate :=
  {| retrans := retrans s; lastAckRec := lastAckRec s; lastFrameSent := lastFrameSent s;
     timeout := timeout s; buffer := b; message := message s |}.

Definition with_message (msg : list Z) (s : wstate) : wstate :=
  {| retrans := retrans s; lastAckRec := lastAckRec s; lastFrameSent := lastFrameSent s;
     timeout := timeout s; buffer := buffer s; message := msg |}.

(** The number of frames between the cursors, as line 125 computes it. *)
Definition outstanding (windowSize : Z) (s : wstate) : Z :=
  (lastFrameSent s - lastAckRec s + windowSize + 1) %% (windowSize + 1).

(** The index of the first word of the slot [i] places after the trailing
    edge, as lines 127 and 147 compute it. *)
Definition slot_index (max windowSize : Z) (s : wstate) (i : Z) : Z :=
  ((lastAckRec s + i) %% (windowSize + 1)) * max.

(** The index line 135 computes for the slot after the trailing edge:
    without the reduction modulo [windowSize + 1]. *)
Definition unwrapped_index (max : Z) (s : wstate) : Z :=
  (lastAckRec s + 1) * max.

(** ** The function *)

Section sender.
Context {W : Type} {TW : Transport W} {PF : Platform}.

(** The value of [buffer[i]]. *)
Definition read_buffer (s : wstate) (i : Z) : prog W Z :=
  c ← checked (OutOfBounds i) (load (buffer s) i);
  checked Indeterminate c.

(** Lines 127-129: the word at the head of the slot is converted to a
    pointer and handed to [sendTo]. *)
Definition resend_slot (max windowSize : Z) (i : Z) (s : wstate) : prog W wstate :=
  v ← read_buffer s (slot_index max windowSize s i);
  sendTo_addr v sizeof_ptr;;
  mret (count_retrans s).

(** Lines 124-130. *)
Definition retransmit_outstanding (max windowSize : Z) (s : wstate) : prog W wstate :=
  for_range 1 (outstanding windowSize s + 1) (resend_slot max windowSize) s.

(** The assignment of lines 135-136 and 147-148, [lastSeqRec] being the
    word of [buffer] at [index]. *)
Definition advance_trailing_edge (windowSize index : Z) (s : wstate) : prog W wstate :=
  v ← read_buffer s index;
  a ← ackAdvance v windowSize;
  mret (with_lastAckRec ((lastAckRec s + a) %% (windowSize + 1)) s).

(** Lines 122-136: the body of the [while]. *)
Definition wait_for_room (max windowSize : Z) (s : wstate) : prog W wstate :=
  t ← timer_lap (timeout s);
  s ← (if MAX_TIME <? t then
         s ← retransmit_outstanding max windowSize s;
         tm ← timer_start;
         mret (with_timeout tm s)
       else mret s);
  advance_trailing_edge windowSize (unwrapped_index max s) s.

(** Line 121: the ring is full. *)
Definition window_full (windowSize : Z) (s : wstate) : prog W bool :=
  if windowSize + 1 =? 0 then fail DivideByZero
  else mret (lastAckRec s =? (lastFrameSent s + 1) %% (windowSize + 1)).

(** Line 144, for one [i]. *)
Definition copy_word (max : Z) (i : Z) (s : wstate) : prog W wstate :=
  m ← checked (OutOfBounds i) (load (message s) i);
  b ← checked (OutOfBounds (lastFrameSent s * max + i))
        (store (buffer s) (lastFrameSent s * max + i) (Some m));
  mret (with_buffer b s).

(** Lines 143-145: [sizeof(message) / sizeof(int)] words are copied. *)
Definition copy_message (max : Z) (s : wstate) : prog W wstate :=
  for_range 0 (Z.of_nat (words_of sizeof_ptr)) (copy_word max) s.

(** Lines 139-141: number the message, send it, move the leading edge. *)
Definition send_new (windowSize msgNum : Z) (s : wstate) : prog W wstate :=
  msg ← checked (OutOfBounds 0) (store (message s) 0 (msgNum %% seqRange windowSize));
  sendTo_array msg sizeof_ptr;;
  mret (with_lastFrameSent ((lastFrameSent s + 1) %% (windowSize + 1)) (with_message msg s)).

(** Lines 139-145: the message is numbered and sent, and copied into the
    slot at the new leading edge. *)
Definition send_frame (max windowSize msgNum : Z) (s : wstate) : prog W wstate :=
  s ← send_new windowSize msgNum s;
  copy_message max s.

(** Lines 138-148: what follows the waiting loop. *)
Definition send_tail (max windowSize msgNum : Z) (s : wstate) : prog W wstate :=
  s ← send_new windowSize msgNum s;
  s ← copy_message max s;
  advance_trailing_edge windowSize (slot_index max windowSize s 1) s.

(** Lines 119-148: the body of the [for]. *)
Definition send_message (fuel : nat) (max windowSize msgNum : Z) (s : wstate) : prog W wstate :=
  tm ← timer_start;
  s ← while_do fuel (window_full windowSize) (wait_for_room max windowSize) (with_timeout tm s);
  send_tail max windowSize msgNum s.

(** [int clientSlidingWindow(UdpSocket &sock, const int max, int message[],
    int windowSize)] *)
Definition clientSlidingWindow (fuel : nat) (max : Z) (message : list Z) (windowSize : Z)
    : prog W Z :=
  s ← for_range 0 max (send_message fuel max windowSize) (winit max message windowSize);
  mret (retrans s).

End sender.

(** ** Invariants and specifications *)

(** Both cursors are slots of the ring. *)
Definition cursors_ok (windowSize : Z) (s : wstate) : Prop :=
  0 ≤ lastAckRec s ≤ windowSize ∧ 0 ≤ lastFrameSent s ≤ windowSize.

(** [s'] differs from [s] in [retrans] and [timeout] at most. *)
Definition same_ring (s s' : wstate) : Prop :=
  lastAckRec s' = lastAckRec s ∧ lastFrameSent s' = lastFrameSent s ∧
  buffer s' = buffer s ∧ message s' = message s.

(** The first words of the outstanding slots [i], [i + 1], ..., [i + n - 1]
    places after the trailing edge, when all of them have been written. *)
Fixpoint slot_heads (max windowSize : Z) (s : wstate) (i : Z) (n : nat) : option (list Z) :=
  match n with
  | O => Some []
  | S n =>
      match load (buffer s) (slot_index max windowSize s i) with
      | Some (Some v) => (v ::.) <$> slot_heads max windowSize s (i + 1) n
      | _ => None
      end
  end.

(** The frame for message [msgNum]: the caller's buffer with the sequence
    number of [msgNum] in its first word. *)
Definition window_frame {PF : Platform} (windowSize : Z) (message : list Z) (msgNum : Z) : datagram :=
  Words (take (words_of sizeof_ptr) (<[0%nat := seq_of windowSize msgNum]> message)).

(** The frames for [n] messages, the first of index [i]. *)
Fixpoint window_frames {PF : Platform} (windowSize : Z) (message : list Z) (i : Z) (n : nat)
    : list datagram :=
  match n with
  | O => []
  | S n => window_frame windowSize message i :: window_frames windowSize message (i + 1) n
  end.

(** The state between two messages when every answer has come in time:
    nothing is outstanding. *)
Definition idle (max windowSize : Z) (msg : list Z) (c : Z) (s : wstate) : Prop :=
  lastAckRec s = c ∧ lastFrameSent s = c ∧ retrans s = 0 ∧
  Z.of_nat (length (buffer s)) = (windowSize + 1) * max ∧
  ∃ x, message s = <[0%nat := x]> msg.

(** One answer per message, each naming the frame after the one it
    answers, all of them arrived by [now]. *)
Definition prompt_acks (windowSize now : Z) (acks : list (Z * list Z)) : Prop :=
  ∀ i t d, acks !! i = Some (t, d) →
    hd_error d = Some (seq_of windowSize (Z.of_nat i + 1)) ∧ t ≤ now.

(** The datagram is a frame: words read from an array of the program. *)
Definition is_frame (d : datagram) : bool :=
  match d with Words _ => true | Wild _ _ => false end.

(** What the retransmission of the slots with first words [vs] sends. *)
Definition resent_slots {PF : Platform} (vs : list Z) : list datagram :=
  (λ v, Wild v sizeof_ptr) <$> vs.

(** From [s], [w] to [s'], [w'] the datagrams [ds] were handed to the
    transport, [retrans] grew by [k] and [message] did not change. *)
Definition sends (ds : list datagram) (k : Z) (s : wstate) (w : SimNet.net)
    (s' : wstate) (w' : SimNet.net) : Prop :=
  SimNet.sent w' = SimNet.sent w ++ ds ∧ retrans s' = retrans s + k ∧ message s' = message s.

(** Nothing but retransmissions was sent, each counted. *)
Definition resends {PF : Platform} (s : wstate) (w : SimNet.net) (s' : wstate) (w' : SimNet.net)
    : Prop :=
  ∃ vs, sends (resent_slots vs) (Z.of_nat (length vs)) s w s' w'.

(** The datagrams sent up to message [j]: the frames of the messages
    before [j], each once and in order, and retransmissions, all counted. *)
Definition trace_upto {PF : Platform} (windowSize : Z) (msg : list Z) (w0 : SimNet.net) (j : Z)
    (s : wstate) (w : SimNet.net) : Prop :=
  (∃ x, message s = <[0%nat := x]> msg) ∧
  ∃ ds, SimNet.sent w = SimNet.sent w0 ++ ds ∧
    filter (λ d, is_frame d) ds = window_frames windowSize msg 0 (Z.to_nat j) ∧
    retrans s = Z.of_nat (length (filter (λ d, ¬ is_frame d) ds)).

(** The invariant of the sender's locals: the cursors are slots of the
    ring, [buffer] has [windowSize + 1] slots of [max] words, [message]
    holds the words that are sent, and a first word of a slot that has
    been written is a sequence number. *)
Record wstate_ok {PF : Platform} (max windowSize : Z) (s : wstate) : Prop := {
  wok_cursors : cursors_ok windowSize s;
  wok_length : Z.of_nat (length (buffer s)) = (windowSize + 1) * max;
  wok_message : (1 ≤ words_of sizeof_ptr ≤ length (message s))%nat;
  wok_heads c v :
    0 ≤ c ≤ windowSize → load (buffer s) (c * max) = Some (Some v) → is_seq windowSize v
}.

Lemma with_lastAckRec_same s : with_lastAckRec (lastAckRec s) s = s.
Proof. by destruct s. Qed.

Lemma same_ring_refl s : same_ring s s.
Proof. done. Qed.

Lemma same_ring_trans s1 s2 s3 : same_ring s1 s2 → same_ring s2 s3 → same_ring s1 s3.
Proof. unfold same_ring. intros (-> & -> & -> & ->) (-> & -> & -> & ->). done. Qed.

Lemma slot_heads_same_ring max windowSize s s' i n :
  same_ring s s' → slot_heads max windowSize s' i n = slot_heads max windowSize s i n.
Proof.
  intros (Hl & _ & Hb & _). revert i. induction n as [|n IH]; intros i; [done|].
  simpl. unfold slot_index. by rewrite Hl, Hb, IH.
Qed.

Section sender_lemmas.
Context {W : Type} {TW : Transport W} {PF : Platform}.

Lemma settles_read_buffer s i (w : W) : settles (read_buffer s i w).
Proof. apply settles_bind; [apply settles_checked|]. intros. apply settles_checked. Qed.

Lemma read_buffer_inv s i (w : W) v w' :
  read_buffer s i w = Done v w' → load (buffer s) i = Some (Some v) ∧ w' = w.
Proof. unfold read_buffer. intros Hrun. by prog_inv. Qed.

Lemma read_buffer_out_of_bounds s i (w : W) :
  Z.of_nat (length (buffer s)) ≤ i → read_buffer s i w = Fault (OutOfBounds i) w.
Proof.
  intros Hi. unfold read_buffer. prog_simp.
  by rewrite (proj2 (load_None _ _)) by lia.
Qed.

Lemma resend_slot_inv max windowSize i s (w : W) s' w' :
  resend_slot max windowSize i s w = Done s' w' →
  ∃ v, load (buffer s) (slot_index max windowSize s i) = Some (Some v) ∧
       w' = sock_sendTo (Wild v sizeof_ptr) w ∧ s' = count_retrans s.
Proof.
  unfold resend_slot. intros Hrun. calls_inv.
  lazymatch goal with H : read_buffer _ _ _ = _ |- _ => apply read_buffer_inv in H as [? ->] end.
  eauto.
Qed.

Lemma resend_slot_run max windowSize i s (w : W) v :
  load (buffer s) (slot_index max windowSize s i) = Some (Some v) →
  resend_slot max windowSize i s w = Done (count_retrans s) (sock_sendTo (Wild v sizeof_ptr) w).
Proof. intros Hv. unfold resend_slot, read_buffer. rewrite Hv. by prog_simp. Qed.

Lemma settles_resend_slot max windowSize i s (w : W) : settles (resend_slot max windowSize i s w).
Proof.
  apply settles_bind; [apply settles_read_buffer|]. intros. by left.
Qed.

Lemma settles_retransmit_outstanding max windowSize s (w : W) :
  settles (retransmit_outstanding max windowSize s w).
Proof. apply settles_for_count. intros. apply settles_resend_slot. Qed.

(** The retransmission loop changes only [retrans]. *)
Lemma retransmit_outstanding_state max windowSize s (w : W) s' w' :
  retransmit_outstanding max windowSize s w = Done s' w' →
  same_ring s s' ∧ timeout s' = timeout s ∧
  retrans s' = retrans s + Z.max 0 (outstanding windowSize s).
Proof.
  intros Hrun. unfold retransmit_outstanding in Hrun.
  destruct (decide (0 ≤ outstanding windowSize s)) as [Hn | Hn].
  - apply (for_range_invariant (λ j s1 _, same_ring s s1 ∧ timeout s1 = timeout s ∧
             retrans s1 = retrans s + (j - 1))) in Hrun as (? & ? & ?); [|lia| |].
    + split_and!; [done..|lia].
    + intros j s1 w1 s2 w2 _ (Hring & Htm & Hr) (v & _ & _ & ->)%resend_slot_inv.
      split_and!; [done..|simpl; lia].
    + split_and!; [done..|lia].
  - rewrite for_range_empty in Hrun by lia. injection Hrun as <- <-.
    split_and!; [done..|lia].
Qed.

(** The index of line 135 is beyond the array when the trailing edge is at
    the last slot. *)
Lemma advance_out_of_bounds windowSize index s (w : W) :
  Z.of_nat (length (buffer s)) ≤ index →
  advance_trailing_edge windowSize index s w = Fault (OutOfBounds index) w.
Proof.
  intros Hi. unfold advance_trailing_edge.
  pose proof (read_buffer_out_of_bounds s index w Hi) as Hr. prog_simp. by rewrite Hr.
Qed.

(** *** The steps of one message *)

Lemma window_full_run windowSize s (w : W) :
  windowSize + 1 ≠ 0 →
  window_full windowSize s w =
  Done (lastAckRec s =? (lastFrameSent s + 1) %% (windowSize + 1)) w.
Proof. intros Hne. unfold window_full. by apply Z.eqb_neq in Hne as ->. Qed.

Lemma window_full_inv windowSize s (w : W) b w' :
  window_full windowSize s w = Done b w' → w' = w.
Proof. unfold window_full. intros Hrun. by calls_inv. Qed.

Lemma send_new_run windowSize msgNum s (w : W) :
  (1 ≤ length (message s))%nat → (words_of sizeof_ptr ≤ length (message s))%nat →
  send_new windowSize msgNum s w =
  Done (with_lastFrameSent ((lastFrameSent s + 1) %% (windowSize + 1))
          (with_message (<[0%nat := msgNum %% seqRange windowSize]> (message s)) s))
       (sock_sendTo (Words (take (words_of sizeof_ptr)
                              (<[0%nat := msgNum %% seqRange windowSize]> (message s)))) w).
Proof.
  intros Hl1 Hln. unfold send_new.
  destruct (store (message s) 0 _) as [msg|] eqn:Hst; [|apply store_None in Hst; lia].
  apply store_Some in Hst as [_ ->].
  rewrite (bind_Done _ _ _ _ _ (checked_Some _ _ _)).
  assert (words_of sizeof_ptr ≤ length (<[Z.to_nat 0 := msgNum %% seqRange windowSize]> (message s)))%nat
    as Hln' by by rewrite length_insert.
  by rewrite (bind_Done _ _ _ _ _ (sendTo_array_run _ _ _ Hln')).
Qed.

(** The copy loop writes the first words of [message] into the slot at the
    leading edge and nothing else. *)
Lemma copy_message_spec max s (w : W) :
  (words_of sizeof_ptr ≤ length (message s))%nat →
  0 ≤ lastFrameSent s * max →
  lastFrameSent s * max + Z.of_nat (words_of sizeof_ptr) ≤ Z.of_nat (length (buffer s)) →
  ∃ b, copy_message max s w = Done (with_buffer b s) w ∧ length b = length (buffer s) ∧
    (∀ i x, (i < words_of sizeof_ptr)%nat → message s !! i = Some x →
       load b (lastFrameSent s * max + Z.of_nat i) = Some (Some x)) ∧
    (∀ k, ¬ (lastFrameSent s * max ≤ k < lastFrameSent s * max + Z.of_nat (words_of sizeof_ptr)) →
       load b k = load (buffer s) k).
Proof.
  intros Hlen Hlo Hhi. unfold copy_message.
  pose (I := λ (j : Z) (s1 : wstate) (w1 : W),
    w1 = w ∧ ∃ b, s1 = with_buffer b s ∧ length b = length (buffer s) ∧
    (∀ i x, Z.of_nat i < j → message s !! i = Some x →
       load b (lastFrameSent s * max + Z.of_nat i) = Some (Some x)) ∧
    (∀ k, ¬ (lastFrameSent s * max ≤ k < lastFrameSent s * max + j) →
       load b k = load (buffer s) k)).
  destruct (for_range_returns I 0 (Z.of_nat (words_of sizeof_ptr)) (copy_word max) s w)
    as (s' & w' & Hrun & -> & b & -> & Hlb & Hin & Hout); [lia| | |].
  - intros j s1 w1 Hj (-> & b & -> & Hlb & Hin & Hout).
    destruct (lookup_lt_is_Some_2 (message s) (Z.to_nat j)) as [x Hx]; [lia|].
    unfold copy_word. simpl.
    rewrite (proj2 (load_Some (message s) j x)) by (split; [lia|done]).
    rewrite (bind_Done _ _ _ _ _ (checked_Some _ _ _)).
    destruct (store b (lastFrameSent s * max + j) (Some x)) as [b'|] eqn:Hst;
      [|apply store_None in Hst; lia].
    rewrite (bind_Done _ _ _ _ _ (checked_Some _ _ _)).
    eexists _, _. split; [done|]. split; [done|]. exists b'.
    split_and!; [done|by rewrite (store_length _ _ _ _ Hst)| |].
    + intros i y Hi Hy. destruct (decide (Z.of_nat i = j)) as [<- | Hne].
      * rewrite Nat2Z.id in Hx. rewrite (load_store_eq _ _ _ _ Hst). congruence.
      * rewrite (load_store_ne _ _ _ _ _ Hst) by lia. apply Hin; [lia|done].
    + intros k Hk. rewrite (load_store_ne _ _ _ _ _ Hst) by lia. apply Hout. lia.
  - split; [done|]. exists (buffer s). split_and!; [by destruct s|done|intros; lia|done].
  - exists b. split_and!; [done|done| |done]. intros i x Hi. apply Hin. lia.
Qed.

(** *** The sender only receives through [ackAdvance] *)

Section sender_polls.
Context {TL : TransportLaws W} (Hint : words_of sizeof_int = 1%nat).

Lemma advance_trailing_edge_not_blocked windowSize index s (w : W) :
  ¬ is_blocked (advance_trailing_edge windowSize index s w).
Proof.
  apply bind_not_blocked; [apply settles_not_blocked, settles_read_buffer|].
  intros v w1 _. apply bind_not_blocked; [|simpl; tauto].
  destruct (ackAdvance_cases Hint v windowSize w1)
    as [-> | [(a & w' & ->) | (w' & ->)]]; simpl; tauto.
Qed.

Lemma wait_for_room_not_blocked max windowSize s (w : W) :
  ¬ is_blocked (wait_for_room max windowSize s w).
Proof.
  unfold wait_for_room. rewrite (bind_Done _ _ _ _ _ (timer_lap_run _ _)).
  apply bind_not_blocked; [|intros; apply advance_trailing_edge_not_blocked].
  case_match; [|simpl; tauto].
  apply bind_not_blocked;
    [apply settles_not_blocked, settles_retransmit_outstanding|simpl; tauto].
Qed.

Lemma window_full_not_blocked windowSize s (w : W) : ¬ is_blocked (window_full windowSize s w).
Proof. unfold window_full. case_match; simpl; tauto. Qed.

Lemma copy_message_not_blocked max s (w : W) : ¬ is_blocked (copy_message max s w).
Proof.
  apply for_count_not_blocked. intros i s1 w1.
  apply bind_not_blocked; [apply settles_not_blocked, settles_checked|]. intros.
  apply bind_not_blocked; [apply settles_not_blocked, settles_checked|]. simpl. tauto.
Qed.

Lemma send_new_not_blocked windowSize msgNum s (w : W) :
  ¬ is_blocked (send_new windowSize msgNum s w).
Proof.
  apply bind_not_blocked; [apply settles_not_blocked, settles_checked|]. intros.
  apply bind_not_blocked; [apply sendTo_array_not_blocked|]. simpl. tauto.
Qed.

Lemma send_message_not_blocked fuel max windowSize msgNum s (w : W) :
  ¬ is_blocked (send_message fuel max windowSize msgNum s w).
Proof.
  unfold send_message, send_tail. rewrite (bind_Done _ _ _ _ _ (timer_start_run _)).
  apply bind_not_blocked; [|intros s1 w1 _].
  { apply loop_not_blocked. intros s1 w1.
    apply bind_not_blocked; [apply window_full_not_blocked|]. intros [] w2 _; [|simpl; tauto].
    apply bind_not_blocked; [apply wait_for_room_not_blocked|simpl; tauto]. }
  apply bind_not_blocked; [apply send_new_not_blocked|]. intros s2 w2 _.
  apply bind_not_blocked; [apply copy_message_not_blocked|]. intros.
  apply advance_trailing_edge_not_blocked.
Qed.

End sender_polls.

End sender_lemmas.

(** ** The cursors and the slots *)

(** A ring that is not full has fewer than [windowSize] frames outstanding. *)
Lemma not_full_outstanding windowSize s :
  cursors_ok windowSize s →
  lastAckRec s ≠ (lastFrameSent s + 1) %% (windowSize + 1) →
  0 ≤ outstanding windowSize s < windowSize.
Proof.
  intros [Hlar Hlfs] Hne. unfold outstanding. rewrite cmod_mod in * by lia.
  destruct (decide (lastAckRec s ≤ lastFrameSent s)).
  - replace (lastFrameSent s - lastAckRec s + windowSize + 1)
      with (lastFrameSent s - lastAckRec s + 1 * (windowSize + 1)) by lia.
    rewrite Z_mod_plus_full, Z.mod_small by lia.
    destruct (decide (lastFrameSent s = windowSize)) as [Heq | ?]; [|lia].
    rewrite Heq, Z_mod_same_full in Hne. lia.
  - rewrite Z.mod_small by lia. rewrite Z.mod_small in Hne by lia. lia.
Qed.

Lemma slot_heads_end max windowSize s i n vs v :
  slot_heads max windowSize s i n = Some vs →
  load (buffer s) (slot_index max windowSize s (i + Z.of_nat n)) = Some (Some v) →
  slot_heads max windowSize s i (S n) = Some (vs ++ [v]).
Proof.
  revert i vs. induction n as [|n IH]; intros i vs Hvs Hv.
  - injection Hvs as <-. simpl. rewrite Z.add_0_r in Hv. by rewrite Hv.
  - change (slot_heads max windowSize s i (S (S n))) with
      (match load (buffer s) (slot_index max windowSize s i) with
       | Some (Some v) => (v ::.) <$> slot_heads max windowSize s (i + 1) (S n)
       | _ => None
       end).
    simpl in Hvs. destruct (load _ (slot_index max windowSize s i)) as [[x|]|]; try done.
    destruct (slot_heads max windowSize s (i + 1) n) as [vs'|] eqn:Hvs'; [|done].
    injection Hvs as <-. rewrite (IH (i + 1) vs' Hvs'); [done|].
    rewrite <- Hv. do 2 f_equal. lia.
Qed.

(** ** The sender on the network *)

Lemma succ_slot windowSize c :
  1 ≤ windowSize → 0 ≤ c ≤ windowSize →
  (c + 1) %% (windowSize + 1) ≠ c ∧ 0 ≤ (c + 1) %% (windowSize + 1) ≤ windowSize.
Proof.
  intros Hw Hc. rewrite cmod_mod by lia. destruct (decide (c = windowSize)) as [-> | Hne].
  - rewrite Z_mod_same_full. lia.
  - rewrite Z.mod_small; lia.
Qed.

Lemma window_frames_end {PF : Platform} windowSize msg i n :
  window_frames windowSize msg i (S n) =
  window_frames windowSize msg i n ++ [window_frame windowSize msg (i + Z.of_nat n)].
Proof.
  revert i. induction n as [|n IH]; intros i.
  - simpl. by rewrite Z.add_0_r.
  - change (window_frames windowSize msg i (S (S n)))
      with (window_frame windowSize msg i :: window_frames windowSize msg (i + 1) (S n)).
    rewrite IH. simpl. by replace (i + 1 + Z.of_nat n) with (i + Z.of_nat (S n)) by lia.
Qed.

Lemma idle_winit max windowSize msg :
  0 ≤ (windowSize + 1) * max → idle max windowSize msg 0 (winit max msg windowSize).
Proof.
  intros. unfold idle. simpl. rewrite length_replicate. split_and!; [done..|lia|].
  exists (hd 0 msg). by destruct msg.
Qed.

(** *** One message, answered at once *)

Section sender_acked.
Context {W : Type} {TW : Transport W} {PF : Platform} (Hint : words_of sizeof_int = 1%nat).

(** The trailing edge moves by the distance of the answer that is read. *)
Lemma advance_data windowSize index s (w : W) v a ws w' :
  load (buffer s) index = Some (Some v) →
  0 < (sock_pollRecvFrom w).1 → sock_recvFrom 1 (sock_pollRecvFrom w).2 = Some (a :: ws, w') →
  advance_trailing_edge windowSize index s w =
  Done (with_lastAckRec ((lastAckRec s + ack_distance a v windowSize) %% (windowSize + 1)) s) w'.
Proof.
  intros Hv Hpoll Hrecv. unfold advance_trailing_edge, read_buffer.
  rewrite Hv, bind_assoc, (bind_Done _ _ _ _ _ (checked_Some _ _ _)).
  rewrite (bind_Done _ _ _ _ _ (checked_Some _ _ _)).
  by rewrite (bind_Done _ _ _ _ _ (ackAdvance_data Hint v windowSize w a _ _ Hpoll Hrecv)).
Qed.

(** An empty datagram leaves [recAckNum] without a value. *)
Lemma advance_empty_datagram windowSize index s (w : W) v w' :
  load (buffer s) index = Some (Some v) →
  0 < (sock_pollRecvFrom w).1 → sock_recvFrom 1 (sock_pollRecvFrom w).2 = Some ([], w') →
  advance_trailing_edge windowSize index s w = Fault Indeterminate w'.
Proof.
  intros Hv Hpoll Hrecv. unfold advance_trailing_edge, read_buffer.
  rewrite Hv, bind_assoc, (bind_Done _ _ _ _ _ (checked_Some _ _ _)).
  rewrite (bind_Done _ _ _ _ _ (checked_Some _ _ _)).
  apply bind_Fault. by apply ackAdvance_empty_datagram.
Qed.

(** With no answer there the trailing edge stays. *)
Lemma advance_no_data windowSize index s (w : W) v :
  load (buffer s) index = Some (Some v) → (sock_pollRecvFrom w).1 ≤ 0 →
  advance_trailing_edge windowSize index s w =
  Done (with_lastAckRec ((lastAckRec s + 0) %% (windowSize + 1)) s) (sock_pollRecvFrom w).2.
Proof.
  intros Hv Hpoll. unfold advance_trailing_edge, read_buffer.
  rewrite Hv, bind_assoc, (bind_Done _ _ _ _ _ (checked_Some _ _ _)).
  rewrite (bind_Done _ _ _ _ _ (checked_Some _ _ _)).
  by rewrite (bind_Done _ _ _ _ _ (ackAdvance_no_data Hint v windowSize w Hpoll)).
Qed.

(** What follows the waiting loop is the sending of the frame and the
    call of [ackAdvance] of line 147. *)
Lemma send_tail_frame max windowSize j s (w : W) :
  send_tail max windowSize j s w =
  (s ← send_frame max windowSize j s;
   advance_trailing_edge windowSize (slot_index max windowSize s 1) s) w.
Proof. unfold send_tail, send_frame. by rewrite bind_assoc. Qed.

(** A message that finds room in the ring: its frame is sent and
    copied into the slot at the new leading edge. *)
Lemma send_frame_room max windowSize msg j x s (w : W) :
  1 ≤ windowSize → 0 ≤ j → 0 ≤ lastFrameSent s ≤ windowSize →
  (1 ≤ words_of sizeof_ptr ≤ length msg)%nat → Z.of_nat (words_of sizeof_ptr) ≤ max →
  Z.of_nat (length (buffer s)) = (windowSize + 1) * max → message s = <[0%nat := x]> msg →
  let lfs := (lastFrameSent s + 1) %% (windowSize + 1) in
  ∃ b, length b = length (buffer s) ∧
    load b (lfs * max) = Some (Some (seq_of windowSize j)) ∧
    (∀ k, ¬ (lfs * max ≤ k < lfs * max + Z.of_nat (words_of sizeof_ptr)) →
       load b k = load (buffer s) k) ∧
    send_frame max windowSize j s w =
    Done (with_buffer b (with_lastFrameSent lfs
            (with_message (<[0%nat := seq_of windowSize j]> msg) s)))
         (sock_sendTo (window_frame windowSize msg j) w).
Proof.
  intros Hw Hj Hlfs [Hptr Hlen] Hmax Hlb Hx lfs.
  pose proof (cmod_range (lastFrameSent s + 1) (windowSize + 1) ltac:(lia) ltac:(lia)) as Hslot.
  unfold send_frame.
  erewrite bind_Done; cycle 1.
  { apply send_new_run; simpl; rewrite Hx, length_insert; lia. }
  simpl. rewrite Hx, list_insert_insert_eq, cmod_seq_of by lia.
  fold (window_frame windowSize msg j). fold lfs.
  lazymatch goal with |- ∃ _, _ ∧ _ ∧ _ ∧ copy_message max ?s2 ?w1 = _ =>
    destruct (copy_message_spec max s2 w1) as (b & Hcopy & Hlb' & Hcell & Hout);
      [simpl; rewrite length_insert; lia|simpl; nia|simpl; rewrite Hlb; nia|];
    rewrite Hcopy; clear Hcopy end.
  simpl in Hcell, Hlb', Hout.
  specialize (Hcell 0%nat (seq_of windowSize j) ltac:(lia)).
  rewrite Z.add_0_r, list_lookup_insert_eq in Hcell by lia.
  exists b. split_and!; [done|by apply Hcell|done|done].
Qed.

(** What is then left of the body is the call of [ackAdvance] of line
    147. *)
Lemma send_tail_room max windowSize msg j x s (w : W) :
  1 ≤ windowSize → 0 ≤ j → 0 ≤ lastFrameSent s ≤ windowSize →
  (1 ≤ words_of sizeof_ptr ≤ length msg)%nat → Z.of_nat (words_of sizeof_ptr) ≤ max →
  Z.of_nat (length (buffer s)) = (windowSize + 1) * max → message s = <[0%nat := x]> msg →
  let lfs := (lastFrameSent s + 1) %% (windowSize + 1) in
  let w1 := sock_sendTo (window_frame windowSize msg j) w in
  ∃ b, length b = length (buffer s) ∧
    load b (lfs * max) = Some (Some (seq_of windowSize j)) ∧
    (∀ k, ¬ (lfs * max ≤ k < lfs * max + Z.of_nat (words_of sizeof_ptr)) →
       load b k = load (buffer s) k) ∧
    let s' := with_buffer b (with_lastFrameSent lfs
                (with_message (<[0%nat := seq_of windowSize j]> msg) s)) in
    send_tail max windowSize j s w =
    advance_trailing_edge windowSize (slot_index max windowSize s' 1) s' w1.
Proof.
  intros Hw Hj Hlfs Hlen Hmax Hlb Hx lfs w1.
  destruct (send_frame_room max windowSize msg j x s w) as (b & ? & ? & ? & Hrun); [done..|].
  exists b. split_and!; [done..|]. simpl. by rewrite send_tail_frame, (bind_Done _ _ _ _ _ Hrun).
Qed.

(** A message that finds room in the ring does not wait. *)
Lemma send_message_room fuel max windowSize msg j x s (w : W) :
  1 ≤ windowSize → 0 ≤ j → 0 ≤ lastFrameSent s ≤ windowSize →
  lastAckRec s ≠ (lastFrameSent s + 1) %% (windowSize + 1) →
  (1 ≤ words_of sizeof_ptr ≤ length msg)%nat → Z.of_nat (words_of sizeof_ptr) ≤ max →
  Z.of_nat (length (buffer s)) = (windowSize + 1) * max → message s = <[0%nat := x]> msg →
  let lfs := (lastFrameSent s + 1) %% (windowSize + 1) in
  let w1 := sock_sendTo (window_frame windowSize msg j) (clock w).2 in
  ∃ b, length b = length (buffer s) ∧
    load b (lfs * max) = Some (Some (seq_of windowSize j)) ∧
    (∀ k, ¬ (lfs * max ≤ k < lfs * max + Z.of_nat (words_of sizeof_ptr)) →
       load b k = load (buffer s) k) ∧
    let s' := with_buffer b (with_lastFrameSent lfs
                (with_message (<[0%nat := seq_of windowSize j]> msg)
                   (with_timeout {| startTime := (clock w).1 |} s))) in
    send_message (S fuel) max windowSize j s w =
    advance_trailing_edge windowSize (slot_index max windowSize s' 1) s' w1.
Proof.
  intros Hw Hj Hlfs Hne Hlen Hmax Hlb Hx lfs w1.
  unfold send_message. rewrite (bind_Done _ _ _ _ _ (timer_start_run _)).
  erewrite bind_Done; cycle 1.
  { rewrite while_do_S, window_full_run by lia. simpl. by apply Z.eqb_neq in Hne as ->. }
  by apply (send_tail_room max windowSize msg j x (with_timeout _ s)).
Qed.

(** With nothing outstanding, a message whose frame is answered by the
    time line 147 polls leaves nothing outstanding: this holds on every
    transport. *)
Lemma send_message_acked fuel max windowSize msg j c s (w : W) ws w' :
  1 ≤ windowSize → 0 ≤ j → 0 ≤ c ≤ windowSize →
  (1 ≤ words_of sizeof_ptr ≤ length msg)%nat → Z.of_nat (words_of sizeof_ptr) ≤ max →
  idle max windowSize msg c s →
  let w1 := sock_sendTo (window_frame windowSize msg j) (clock w).2 in
  0 < (sock_pollRecvFrom w1).1 →
  sock_recvFrom 1 (sock_pollRecvFrom w1).2 = Some (seq_of windowSize (j + 1) :: ws, w') →
  ∃ s', send_message (S fuel) max windowSize j s w = Done s' w' ∧
    idle max windowSize msg ((c + 1) %% (windowSize + 1)) s'.
Proof.
  intros Hw Hj Hc Hlen Hmax (Hlar & Hlfs & Hr & Hlb & x & Hx) w1 Hpoll Hrecv.
  destruct (succ_slot windowSize c Hw Hc) as [Hne Hc'].
  destruct (send_message_room fuel max windowSize msg j x s w)
    as (b & Hlb' & Hcell & _ & ->); [done|done|lia|congruence|done..|].
  unfold slot_index. simpl. rewrite Hlar, Hlfs.
  erewrite advance_data; [|by rewrite Hlfs in Hcell|done..].
  rewrite ack_distance_next by lia.
  eexists. split; [done|]. unfold idle. simpl.
  split_and!; [congruence|congruence|done|by rewrite Hlb'|by exists (seq_of windowSize j)].
Qed.

End sender_acked.

Section sender_net.
Context {PF : Platform} (Hint : words_of sizeof_int = 1%nat).

Lemma send_message_prompt fuel max windowSize msg j c s (w : SimNet.net) t d rest :
  1 ≤ windowSize → 0 ≤ j → 0 ≤ c ≤ windowSize →
  (1 ≤ words_of sizeof_ptr ≤ length msg)%nat → Z.of_nat (words_of sizeof_ptr) ≤ max →
  idle max windowSize msg c s →
  SimNet.inbox w = (t, seq_of windowSize (j + 1) :: d) :: rest → t ≤ SimNet.now w →
  ∃ s' w', send_message (S fuel) max windowSize j s w = Done s' w' ∧
    idle max windowSize msg ((c + 1) %% (windowSize + 1)) s' ∧
    SimNet.inbox w' = rest ∧ SimNet.now w ≤ SimNet.now w' ∧
    SimNet.sent w' = SimNet.sent w ++ [window_frame windowSize msg j].
Proof.
  intros Hw Hj Hc Hptr Hmax Hidle Hin Ht.
  edestruct (send_message_acked Hint fuel max windowSize msg j c s w) as (s' & Hrun & Hidle');
    [done..| | |].
  - simpl. unfold SimNet.ready. simpl. rewrite Hin.
    by destruct (Z.leb_spec t (SimNet.now w)); [|lia].
  - simpl. unfold SimNet.recv. simpl. by rewrite Hin.
  - eexists _, _. split; [done|]. unfold SimNet.sent. simpl.
    split_and!; [done|done|lia|by rewrite fmap_app].
Qed.
End sender_net.

(** ** The invariant of the sender *)

(** The waiting loop sends no frame. *)
Section calm_sender.
Context {W : Type} {TW : Transport W} {PF : Platform} (P : W → Prop) (HP : calm P).

Lemma advance_preserves windowSize index s :
  preserves P (advance_trailing_edge windowSize index s).
Proof.
  unfold advance_trailing_edge. apply preserves_bind; [unfold read_buffer; preserves_tac|intros].
  apply preserves_bind; [by apply ackAdvance_preserves|intros; auto with prog].
Qed.

Lemma wait_for_room_preserves max windowSize s : preserves P (wait_for_room max windowSize s).
Proof.
  unfold wait_for_room, retransmit_outstanding, resend_slot, read_buffer.
  repeat first [apply advance_preserves | progress preserves_tac].
Qed.

Lemma wait_loop_preserves fuel max windowSize s :
  preserves P (while_do fuel (window_full windowSize) (wait_for_room max windowSize) s).
Proof.
  apply preserves_while_do; intros; [unfold window_full; preserves_tac|].
  by apply wait_for_room_preserves.
Qed.

Lemma copy_message_preserves max s : preserves P (copy_message max s).
Proof. unfold copy_message, copy_word. preserves_tac. Qed.
End calm_sender.

Section stable_sender.
Context {W : Type} {TW : Transport W} {PF : Platform} (P : W → Prop) (HP : stable P).

Lemma send_message_preserves fuel max windowSize j s :
  preserves P (send_message fuel max windowSize j s).
Proof.
  unfold send_message, send_tail, send_new.
  repeat first [apply advance_preserves | apply wait_loop_preserves
               | apply copy_message_preserves | progress preserves_tac].
Qed.

Lemma clientSlidingWindow_preserves fuel max message windowSize :
  preserves P (clientSlidingWindow fuel max message windowSize).
Proof.
  unfold clientSlidingWindow. apply preserves_bind; [|intros; auto with prog].
  apply preserves_for_range. intros. apply send_message_preserves.
Qed.
End stable_sender.

(** ** One frame for each message *)

(** [P j] holds of the world before the pass for message [j], [P] grows
    with [j], no operation but the sending of a frame can falsify [P j],
    and the sending of a frame leads from [P j] to [P (j + 1)]: then a
    run of the sender leads from [P 0] to [P max] however it ends, since
    every pass hands one frame to the transport, or none. *)
Section one_frame.
Context {W : Type} {TW : Transport W} {PF : Platform} (P : Z → W → Prop).
Context (Hcalm : ∀ j, calm (P j)) (Hgrows : ∀ j w, P j w → P (j + 1) w).
Context (Hframe : ∀ j ws w, P j w → P (j + 1) (sock_sendTo (Words ws) w)).

Lemma send_new_leads windowSize j msgNum s :
  leads (P j) (P (j + 1)) (send_new windowSize msgNum s).
Proof.
  unfold send_new. eapply leads_bind; [apply preserves_checked|apply Hgrows|].
  intros msg. eapply leads_bind; [|done|intros; apply preserves_ret].
  intros w Hw. unfold sendTo_array. case_match; [by apply Hframe|by apply Hgrows].
Qed.

Lemma send_message_leads fuel max windowSize j s :
  leads (P j) (P (j + 1)) (send_message fuel max windowSize j s).
Proof.
  unfold send_message, send_tail.
  eapply leads_bind; [by apply preserves_timer_start|apply Hgrows|intros tm].
  eapply leads_bind; [by apply wait_loop_preserves|apply Hgrows|intros s1].
  eapply leads_bind; [apply send_new_leads|done|intros s2].
  apply preserves_bind; [by apply copy_message_preserves|intros; by apply advance_preserves].
Qed.

Lemma clientSlidingWindow_leads fuel max message windowSize :
  0 ≤ max → leads (P 0) (P max) (clientSlidingWindow fuel max message windowSize).
Proof.
  intros Hmax. unfold clientSlidingWindow.
  eapply leads_bind; [|done|intros; apply preserves_ret].
  apply leads_for_range; [done|done|]. intros. apply send_message_leads.
Qed.
End one_frame.

Section sender_invariant.
Context {PF : Platform} (max windowSize : Z) (Hw : 0 ≤ windowSize) (Hmax : 0 < max).
Context (Hwords : Z.of_nat (words_of sizeof_ptr) ≤ max).

#[local] Abbreviation acks_ok := (SimNet.inbox_all (seq_frame windowSize)).

Lemma winit_ok msg :
  (1 ≤ words_of sizeof_ptr ≤ length msg)%nat → wstate_ok max windowSize (winit max msg windowSize).
Proof.
  intros Hlen. split; simpl; [unfold cursors_ok; simpl; lia| |done|].
  - rewrite length_replicate. nia.
  - intros c v _ (_ & Hc)%load_Some. by apply lookup_replicate in Hc as [? _].
Qed.

Lemma wstate_ok_same_ring s s' : same_ring s s' → wstate_ok max windowSize s → wstate_ok max windowSize s'.
Proof.
  intros (Hl & Hf & Hb & Hm) [Hc Hlen Hmsg Hh]. split; unfold cursors_ok in *.
  - by rewrite Hl, Hf.
  - by rewrite Hb.
  - by rewrite Hm.
  - intros c v. rewrite Hb. apply Hh.
Qed.

Lemma wstate_ok_with_timeout tm s : wstate_ok max windowSize s → wstate_ok max windowSize (with_timeout tm s).
Proof. by apply wstate_ok_same_ring. Qed.

(** The slot in which an index that was read lies. *)
Lemma slot_in_ring s c v :
  wstate_ok max windowSize s → 0 ≤ c → load (buffer s) (c * max) = Some (Some v) → 0 ≤ c ≤ windowSize.
Proof. intros [_ Hlen _ _] Hc [Hi _]%load_Some. nia. Qed.

Lemma advance_ok c s (w : SimNet.net) s' w' :
  wstate_ok max windowSize s → acks_ok w → 0 ≤ c →
  advance_trailing_edge windowSize (c * max) s w = Done s' w' →
  wstate_ok max windowSize s' ∧ acks_ok w'.
Proof.
  intros Hok Hacks Hc Hrun.
  split; [|by eapply (preserves_Done _ _ _ _ _
                         (advance_preserves _ (stable_calm _ (SimNet.stable_inbox_all _)) _ _ _))].
  unfold advance_trailing_edge in Hrun. calls_inv.
  lazymatch goal with H : read_buffer _ _ _ = _ |- _ => apply read_buffer_inv in H as [Hv ->] end.
  pose proof (slot_in_ring _ _ _ Hok Hc Hv) as Hc'. pose proof (wok_heads _ _ _ Hok c _ Hc' Hv) as Hseq.
  assert (0 ≤ a0 ≤ windowSize) as Ha.
  { lazymatch goal with H : ackAdvance _ _ _ = _ |- _ =>
      apply ackAdvance_inv in H as [[-> _] | (ack & rest & Hrecv & ->)] end; [lia|].
    apply SimNet.recv_inv in Hrecv as (t & d & Hin & Hd & _).
    unfold SimNet.inbox_all in Hacks. simpl in Hin. rewrite Hin in Hacks.
    apply Forall_cons in Hacks as [Hd1 _]. simpl in Hd1, Hd. destruct Hd1 as (m & rest' & -> & Hm).
    destruct (words_of sizeof_int); [done|]. injection Hd as -> _.
    rewrite ack_distance_ring by done.
    pose proof (ring_dist_range windowSize Hw m a). zbool. }
  destruct Hok as [[Hlar Hlfs] Hlen Hmsg Hh]. split; simpl; [|done..].
  split; [|done]. simpl. rewrite cmod_mod by lia.
  pose proof (Z.mod_pos_bound (lastAckRec s + a0) (windowSize + 1)). lia.
Qed.

Lemma wait_for_room_ok s (w : SimNet.net) s' w' :
  wstate_ok max windowSize s → acks_ok w → wait_for_room max windowSize s w = Done s' w' →
  wstate_ok max windowSize s' ∧ acks_ok w'.
Proof.
  intros Hok Hacks Hrun. pose proof Hok as [[Hlar _] _ _ _].
  unfold wait_for_room, unwrapped_index in Hrun. calls_inv;
    lazymatch goal with H : advance_trailing_edge _ ((lastAckRec ?x + 1) * _) _ ?w1 = _ |- _ =>
      apply (advance_ok (lastAckRec x + 1) x w1); [| | |exact H] end; [| | |done..|lia].
  - lazymatch goal with H : retransmit_outstanding _ _ _ _ = _ |- _ =>
      apply retransmit_outstanding_state in H as [Hring _] end.
    by apply wstate_ok_with_timeout, (wstate_ok_same_ring s).
  - lazymatch goal with H : retransmit_outstanding _ _ _ _ = _ |- _ =>
      apply (preserves_Done (SimNet.inbox_all (seq_frame windowSize))) in H;
        [done|unfold retransmit_outstanding, resend_slot, read_buffer; preserves_tac|done] end.
  - lazymatch goal with H : retransmit_outstanding _ _ _ _ = _ |- _ =>
      apply retransmit_outstanding_state in H as [(Hl & _) _] end.
    simpl. lia.
Qed.

(** The waiting loop keeps the invariant, and leaves a ring that is not
    full. *)
Lemma wait_loop_ok fuel s (w : SimNet.net) s' w' :
  wstate_ok max windowSize s → acks_ok w →
  while_do fuel (window_full windowSize) (wait_for_room max windowSize) s w = Done s' w' →
  wstate_ok max windowSize s' ∧ acks_ok w' ∧ 0 ≤ outstanding windowSize s' < windowSize.
Proof.
  intros Hok Hacks Hrun.
  apply (while_do_invariant (λ s1 w1, wstate_ok max windowSize s1 ∧ acks_ok w1))
    in Hrun as (w1 & [Hok' Hacks'] & Hc); [| |done].
  - unfold window_full in Hc. calls_inv. do 2 (split; [done|]).
    apply not_full_outstanding; [apply Hok'|]. by apply Z.eqb_neq.
  - intros s1 w1 s2 w2 w3 [Hok1 Hacks1] ->%window_full_inv. by apply wait_for_room_ok.
Qed.

Lemma send_new_ok j s (w : SimNet.net) s' w' :
  wstate_ok max windowSize s → acks_ok w → 0 ≤ j →
  send_new windowSize j s w = Done s' w' →
  acks_ok w' ∧ cursors_ok windowSize s' ∧ buffer s' = buffer s ∧
  (1 ≤ words_of sizeof_ptr ≤ length (message s'))%nat ∧
  message s' !! 0%nat = Some (seq_of windowSize j).
Proof.
  intros [[Hlar Hlfs] Hlen Hmsg Hh] Hacks Hj Hrun. unfold send_new in Hrun. calls_inv.
  lazymatch goal with H : store _ _ _ = Some _ |- _ => apply store_Some in H as [_ ->] end.
  simpl. rewrite length_insert, cmod_seq_of, list_lookup_insert_eq by lia.
  split_and!; [done| |done|lia|lia|done].
  split; [done|]. simpl. rewrite cmod_mod by lia.
  pose proof (Z.mod_pos_bound (lastFrameSent s + 1) (windowSize + 1)). lia.
Qed.

(** The copy of lines 143-145 writes one slot, whose first word is the
    number of the frame. *)
Lemma copy_message_ok s (w : SimNet.net) s' w' m0 :
  cursors_ok windowSize s → Z.of_nat (length (buffer s)) = (windowSize + 1) * max →
  (1 ≤ words_of sizeof_ptr ≤ length (message s))%nat →
  (∀ c v, 0 ≤ c ≤ windowSize → load (buffer s) (c * max) = Some (Some v) → is_seq windowSize v) →
  message s !! 0%nat = Some m0 → is_seq windowSize m0 →
  copy_message max s w = Done s' w' → wstate_ok max windowSize s' ∧ w' = w.
Proof.
  intros [Hlar Hlfs] Hlen Hmsg Hh Hm0 Hseq Hrun.
  destruct (copy_message_spec max s w) as (b & Hcopy & Hlb & Hin & Hout); [lia|nia|nia|].
  rewrite Hcopy in Hrun. injection Hrun as <- <-. split; [|done].
  split; simpl; [done|by rewrite Hlb|done|]. intros c v Hc Hv.
  destruct (decide (c = lastFrameSent s)) as [-> | Hne].
  - pose proof (Hin 0%nat m0 ltac:(lia) Hm0) as H0. rewrite Z.add_0_r in H0. congruence.
  - rewrite Hout in Hv by nia. by eapply Hh.
Qed.

(** One message keeps the invariant. *)
Lemma send_message_ok fuel j s (w : SimNet.net) s' w' :
  wstate_ok max windowSize s → acks_ok w → 0 ≤ j →
  send_message fuel max windowSize j s w = Done s' w' →
  wstate_ok max windowSize s' ∧ acks_ok w'.
Proof.
  intros Hok Hacks Hj Hrun. unfold send_message, send_tail in Hrun. calls_inv.
  lazymatch goal with H : while_do _ _ _ _ _ = _ |- _ =>
    apply wait_loop_ok in H as (Hok1 & Hacks1 & _); [|by apply wstate_ok_with_timeout|done] end.
  lazymatch goal with H : send_new _ _ _ _ = _ |- _ =>
    pose proof (wok_length _ _ _ Hok1) as Hlen1; pose proof (wok_heads _ _ _ Hok1) as Hh1;
    apply send_new_ok in H as (Hacks2 & Hc2 & Hb2 & Hm2 & Hhd2); [|done..] end.
  rewrite <- Hb2 in Hlen1, Hh1.
  lazymatch goal with H : copy_message _ _ _ = _ |- _ =>
    eapply copy_message_ok in H as [Hok3 ->]; [|done..|apply seq_of_is_seq; lia] end.
  unfold slot_index in *.
  lazymatch goal with H : advance_trailing_edge _ _ _ _ = _ |- _ =>
    eapply advance_ok in H; [done|done|done|] end.
  rewrite cmod_mod by (destruct Hok3 as [[? _] _ _ _]; lia).
  apply Z.mod_pos_bound. lia.
Qed.
End sender_invariant.

(** ** What the sender hands to the transport *)

Section sender_trace.
Context {PF : Platform}.

Lemma sends_nil s w s' :
  retrans s' = retrans s → message s' = message s → sends [] 0 s w s' w.
Proof. intros Hr Hm. unfold sends. by rewrite app_nil_r, Z.add_0_r. Qed.

Lemma sends_trans ds1 k1 ds2 k2 s1 w1 s2 w2 s3 w3 :
  sends ds1 k1 s1 w1 s2 w2 → sends ds2 k2 s2 w2 s3 w3 →
  sends (ds1 ++ ds2) (k1 + k2) s1 w1 s3 w3.
Proof.
  intros (Hs & Hr & Hm) (Hs' & Hr' & Hm'). unfold sends.
  rewrite Hs', Hs, Hr', Hr, Hm', Hm, app_assoc. split_and!; [done|lia|done].
Qed.

Lemma resends_refl s w : resends s w s w.
Proof. exists []. by apply sends_nil. Qed.

Lemma resends_trans s1 w1 s2 w2 s3 w3 :
  resends s1 w1 s2 w2 → resends s2 w2 s3 w3 → resends s1 w1 s3 w3.
Proof.
  intros (vs & H1) (vs' & H2). exists (vs ++ vs'). unfold resent_slots.
  rewrite fmap_app, length_app, Nat2Z.inj_add. by eapply sends_trans.
Qed.

Lemma sends_resends s1 w1 s2 w2 s3 w3 :
  sends [] 0 s1 w1 s2 w2 → resends s2 w2 s3 w3 → resends s1 w1 s3 w3.
Proof. intros H1 (vs & H2). exists vs. apply (sends_trans [] 0 _ _ _ _ _ _ _ _ H1 H2). Qed.

(** [ackAdvance] sends nothing. *)
Lemma ackAdvance_sent v windowSize (w : SimNet.net) a w' :
  ackAdvance v windowSize w = Done a w' → SimNet.sent w' = SimNet.sent w.
Proof.
  unfold ackAdvance. intros Hrun. calls_inv; [|done].
  lazymatch goal with H : sock_recvFrom _ _ = Some _ |- _ =>
    apply SimNet.recv_inv in H as (? & ? & _ & _ & _ & Hout) end.
  unfold SimNet.sent. by rewrite Hout.
Qed.

Lemma advance_quiet windowSize index s (w : SimNet.net) s' w' :
  advance_trailing_edge windowSize index s w = Done s' w' → sends [] 0 s w s' w'.
Proof.
  unfold advance_trailing_edge. intros Hrun. calls_inv.
  lazymatch goal with H : read_buffer _ _ _ = _ |- _ => apply read_buffer_inv in H as [_ ->] end.
  lazymatch goal with H : ackAdvance _ _ _ = _ |- _ => apply ackAdvance_sent in H as Hs end.
  unfold sends. simpl. by rewrite Hs, app_nil_r, Z.add_0_r.
Qed.

Lemma retransmit_resends max windowSize s (w : SimNet.net) s' w' :
  retransmit_outstanding max windowSize s w = Done s' w' → resends s w s' w'.
Proof.
  intros Hrun. unfold retransmit_outstanding in Hrun.
  destruct (decide (0 ≤ outstanding windowSize s)) as [Hn | Hn].
  - apply (for_range_invariant (λ _ s1 w1, resends s w s1 w1)) in Hrun; [done|lia| |apply resends_refl].
    intros j s1 w1 s2 w2 _ Hres (v & _ & -> & ->)%resend_slot_inv.
    eapply resends_trans; [done|]. exists [v].
    split_and!; [apply SimNet.sent_send|simpl; lia|done].
  - rewrite for_range_empty in Hrun by lia. injection Hrun as <- <-. apply resends_refl.
Qed.

Lemma wait_for_room_resends max windowSize s (w : SimNet.net) s' w' :
  wait_for_room max windowSize s w = Done s' w' → resends s w s' w'.
Proof.
  unfold wait_for_room. intros Hrun. calls_inv;
    lazymatch goal with H : advance_trailing_edge _ _ _ _ = _ |- _ =>
      apply advance_quiet in H as Hquiet end; [|by exists []].
  lazymatch goal with H : retransmit_outstanding _ _ _ _ = _ |- _ =>
    apply retransmit_resends in H as (vs & Hs' & Hr' & Hm') end.
  destruct Hquiet as (Hs & Hr & Hm). exists vs. unfold sends. simpl in *.
  rewrite Hs, Hr, Hm, Hs', Hr', Hm', app_nil_r. split_and!; [done|lia|done].
Qed.

Lemma wait_loop_resends fuel max windowSize s (w : SimNet.net) s' w' :
  while_do fuel (window_full windowSize) (wait_for_room max windowSize) s w = Done s' w' →
  resends s w s' w'.
Proof.
  intros Hrun.
  apply (while_do_invariant (λ s1 w1, resends s w s1 w1)) in Hrun as (w1 & Hres & ->%window_full_inv);
    [done| |apply resends_refl].
  intros s1 w1 s2 w2 w3 Hres ->%window_full_inv ?%wait_for_room_resends.
  by eapply resends_trans.
Qed.

Lemma send_new_inv windowSize msgNum s (w : SimNet.net) s' w' :
  send_new windowSize msgNum s w = Done s' w' →
  SimNet.sent w' = SimNet.sent w ++
    [Words (take (words_of sizeof_ptr) (<[0%nat := msgNum %% seqRange windowSize]> (message s)))] ∧
  retrans s' = retrans s ∧
  message s' = <[0%nat := msgNum %% seqRange windowSize]> (message s).
Proof.
  unfold send_new. intros Hrun. calls_inv.
  lazymatch goal with H : store _ _ _ = Some _ |- _ => apply store_Some in H as [_ ->] end.
  by rewrite SimNet.sent_send.
Qed.

Lemma copy_message_quiet max s (w : SimNet.net) s' w' :
  copy_message max s w = Done s' w' → sends [] 0 s w s' w'.
Proof.
  unfold copy_message. intros Hrun.
  apply (for_range_invariant (λ _ s1 w1, sends [] 0 s w s1 w1)) in Hrun;
    [done|lia| |by apply sends_nil].
  intros j s1 w1 s2 w2 _ Hres Hstep. unfold copy_word in Hstep. calls_inv.
  apply (sends_trans [] 0 [] 0 _ _ _ _ _ _ Hres). by apply sends_nil.
Qed.

(** One message: retransmissions while the ring is full, then the frame. *)
Lemma send_message_trace fuel max windowSize j s (w : SimNet.net) s' w' :
  send_message fuel max windowSize j s w = Done s' w' →
  ∃ vs, SimNet.sent w' = SimNet.sent w ++ resent_slots vs ++
          [Words (take (words_of sizeof_ptr) (<[0%nat := j %% seqRange windowSize]> (message s)))] ∧
        retrans s' = retrans s + Z.of_nat (length vs) ∧
        message s' = <[0%nat := j %% seqRange windowSize]> (message s).
Proof.
  unfold send_message, send_tail. intros Hrun. calls_inv.
  lazymatch goal with H : while_do _ _ _ _ _ = _ |- _ =>
    apply wait_loop_resends in H as (vs & Hs1 & Hr1 & Hm1) end.
  lazymatch goal with H : send_new _ _ _ _ = _ |- _ =>
    apply send_new_inv in H as (Hs2 & Hr2 & Hm2) end.
  lazymatch goal with H : copy_message _ _ _ = _ |- _ =>
    apply copy_message_quiet in H as (Hs3 & Hr3 & Hm3) end.
  lazymatch goal with H : advance_trailing_edge _ _ _ _ = _ |- _ =>
    apply advance_quiet in H as (Hs4 & Hr4 & Hm4) end.
  exists vs. simpl in *.
  rewrite Hs4, Hs3, Hs2, Hs1, Hr4, Hr3, Hr2, Hr1, Hm4, Hm3, Hm2, Hm1, !app_nil_r, <- app_assoc.
  split_and!; [done|lia|done].
Qed.

Lemma frames_resent_slots vs : filter (λ d, is_frame d) (resent_slots vs) = [].
Proof.
  induction vs as [|v vs IH]; [done|]. unfold resent_slots in *.
  by rewrite fmap_cons, filter_cons_False by (simpl; tauto).
Qed.

Lemma wilds_resent_slots vs :
  length (filter (λ d, ¬ is_frame d) (resent_slots vs)) = length vs.
Proof.
  induction vs as [|v vs IH]; [done|]. unfold resent_slots in *.
  rewrite fmap_cons, filter_cons_True by (simpl; tauto). simpl. by rewrite IH.
Qed.

Lemma trace_upto_step fuel max windowSize msg w0 j s (w : SimNet.net) s' w' :
  0 ≤ windowSize → 0 ≤ j → trace_upto windowSize msg w0 j s w →
  send_message fuel max windowSize j s w = Done s' w' →
  trace_upto windowSize msg w0 (j + 1) s' w'.
Proof.
  intros Hw Hj ([x Hx] & ds & Hs & Hf & Hr) (vs & Hs' & Hr' & Hm')%send_message_trace.
  rewrite Hx, list_insert_insert_eq, cmod_seq_of in * by lia.
  split; [by eexists|]. exists (ds ++ resent_slots vs ++ [window_frame windowSize msg j]).
  replace (Z.to_nat (j + 1)) with (S (Z.to_nat j)) by lia.
  rewrite !filter_app, !length_app, frames_resent_slots, wilds_resent_slots, window_frames_end, Hf.
  rewrite Z.add_0_l, Z2Nat.id, Hs', Hs, Hr', Hr, <- app_assoc by lia.
  split_and!; [done|done|]. rewrite filter_cons_False by (simpl; tauto). simpl. lia.
Qed.
End sender_trace.


(** On any transport on which a receive that follows a successful
    poll does not block, the windowed sender never blocks: it receives
    only inside [ackAdvance], after a poll. *)
Theorem clientSlidingWindow_not_blocked {W : Type} {TW : Transport W} {PF : Platform}
    {TL : TransportLaws W} fuel max message windowSize (w : W) :
  words_of sizeof_int = 1%nat →
  ¬ is_blocked (clientSlidingWindow fuel max message windowSize w).
Proof.
  intros Hint. unfold clientSlidingWindow. apply bind_not_blocked; [|simpl; tauto].
  apply for_count_not_blocked. intros. by apply send_message_not_blocked.
Qed.

Lemma clientSlidingWindow_not_blocked_witness :
  ¬ is_blocked (clientSlidingWindow (PF := LP64) 3 4 [9; 9] 2 (SimNet.start [(0, [1])])).
Proof. by apply (clientSlidingWindow_not_blocked (TL := SimNet.net_laws)). Defined.

(** The read of line 135 is out of the bounds of [buffer] whenever
    the ring is found full with the trailing edge at its last slot: the
    index [(lastAckRec + 1) * max] is not reduced modulo [windowSize + 1]
    as it is at line 147, and [wait_for_room] cannot complete. *)
Theorem wait_for_room_out_of_bounds {W : Type} {TW : Transport W} {PF : Platform}
    max windowSize s (w : W) :
  lastAckRec s = windowSize → Z.of_nat (length (buffer s)) = (windowSize + 1) * max →
  is_fault (wait_for_room max windowSize s w).
Proof.
  intros Hlar Hlen. unfold wait_for_room.
  rewrite (bind_Done _ _ _ _ _ (timer_lap_run _ _)).
  destruct (MAX_TIME <? _).
  - destruct (settles_cases _ (settles_retransmit_outstanding max windowSize s (clock w).2))
      as [(s1 & w1 & Hrun) | (e & w1 & Hrun)].
    + rewrite bind_assoc, (bind_Done _ _ _ _ _ Hrun).
      apply retransmit_outstanding_state in Hrun as ((Hl & _ & Hb & _) & _).
      rewrite bind_assoc, (bind_Done _ _ _ _ _ (timer_start_run _)), bind_ret_l.
      rewrite advance_out_of_bounds; [done|]. unfold unwrapped_index. simpl. rewrite Hb, Hl. lia.
    + by rewrite bind_assoc, (bind_Fault _ _ _ _ _ Hrun).
  - rewrite bind_ret_l, advance_out_of_bounds; [done|]. unfold unwrapped_index. lia.
Qed.

Lemma wait_for_room_out_of_bounds_witness :
  is_fault (wait_for_room (PF := LP64) 3 1
    {| retrans := 0; lastAckRec := 1; lastFrameSent := 0; timeout := {| startTime := 1 |};
       buffer := [Some 2; Some 9; None; Some 1; Some 9; None]; message := [2; 9] |}
    (SimNet.start [])).
Proof. by apply wait_for_room_out_of_bounds. Defined.

(** A run that reaches that state: window 1, three messages, the
    first acknowledged at once and the second not yet.  The third message
    finds the ring full with [lastAckRec = 1 = windowSize], and the read of
    line 135 is at index 6 of an array of 6 words. *)
Example clientSlidingWindow_out_of_bounds :
  clientSlidingWindow (PF := LP64) 5 3 [9; 9] 1 (SimNet.start [(0, [1])]) =
  Fault (OutOfBounds 6)
    {| SimNet.now := 2; SimNet.inbox := [];
       SimNet.outbox := [(0, Words [0; 9]); (1, Words [1; 9])] |}.
Proof. by vm_compute. Qed.

(** When every answer has come by the time it is asked for, the
    windowed sender does not wait and does not retransmit: it returns 0,
    has sent each message exactly once, in order, numbered modulo
    [2 * windowSize + 1], and has consumed exactly one answer per
    message. *)
Theorem clientSlidingWindow_prompt {PF : Platform} fuel msg windowSize (w : SimNet.net) acks rest :
  words_of sizeof_int = 1%nat → 1 ≤ windowSize →
  (1 ≤ words_of sizeof_ptr ≤ length msg)%nat → (words_of sizeof_ptr ≤ length acks)%nat →
  SimNet.inbox w = acks ++ rest → prompt_acks windowSize (SimNet.now w) acks →
  ∃ w', clientSlidingWindow (S fuel) (Z.of_nat (length acks)) msg windowSize w = Done 0 w' ∧
    SimNet.inbox w' = rest ∧
    SimNet.sent w' = SimNet.sent w ++ window_frames windowSize msg 0 (length acks).
Proof.
  intros Hint Hw Hptr Hmax Hin Hacks. unfold clientSlidingWindow.
  set (max := Z.of_nat (length acks)).
  pose (I := λ (j : Z) (s : wstate) (w1 : SimNet.net),
    idle max windowSize msg (j `mod` (windowSize + 1)) s ∧
    SimNet.inbox w1 = drop (Z.to_nat j) acks ++ rest ∧ SimNet.now w ≤ SimNet.now w1 ∧
    SimNet.sent w1 = SimNet.sent w ++ window_frames windowSize msg 0 (Z.to_nat j)).
  destruct (for_range_returns I 0 max (send_message (S fuel) max windowSize)
              (winit max msg windowSize) w)
    as (s' & w' & Hrun & (_ & _ & Hr & _) & Hin' & _ & Hsent); [lia| | |].
  - intros j s1 w1 Hj (Hidle & Hin1 & Hnow & Hsent).
    destruct (lookup_lt_is_Some_2 acks (Z.to_nat j)) as [[t d] Hjth]; [lia|].
    rewrite (drop_S _ _ _ Hjth) in Hin1. destruct (Hacks _ _ _ Hjth) as [Hd Ht].
    destruct d as [|a d]; [done|]. injection Hd as ->. rewrite Z2Nat.id in Hin1 by lia.
    pose proof (Z.mod_pos_bound j (windowSize + 1) ltac:(lia)) as Hc.
    assert (Z.of_nat (words_of sizeof_ptr) ≤ max) as Hmax' by (unfold max; lia).
    destruct (send_message_prompt Hint fuel max windowSize msg j
                (j `mod` (windowSize + 1)) s1 w1 t d _
                Hw (proj1 Hj) ltac:(lia) Hptr Hmax' Hidle Hin1 ltac:(lia))
      as (s2 & w2 & Hrun & Hidle' & Hin2 & Hnow2 & Hsent2).
    exists s2, w2. split; [done|]. unfold I.
    replace (Z.to_nat (j + 1)) with (S (Z.to_nat j)) by lia.
    rewrite window_frames_end, Z2Nat.id, Z.add_0_l, app_assoc, <- Hsent by lia.
    rewrite cmod_mod, Zplus_mod_idemp_l in Hidle' by lia.
    split_and!; [done|done|lia|done].
  - unfold I. simpl. rewrite app_nil_r, Z.mod_0_l by lia.
    split_and!; [apply idle_winit; lia|done..].
  - rewrite (bind_Done _ _ _ _ _ Hrun). exists w'. unfold max in *. rewrite Nat2Z.id, drop_all in *.
    split_and!; [simpl; by rewrite Hr|done..].
Qed.

Lemma clientSlidingWindow_prompt_witness :
  ∃ w', clientSlidingWindow (PF := LP64) 1 (Z.of_nat (length [(0, [1]); (0, [2]); (0, [3])]))
          [9; 9] 2 (SimNet.start [(0, [1]); (0, [2]); (0, [3])]) = Done 0 w' ∧
    SimNet.inbox w' = [] ∧
    SimNet.sent w' = [] ++ window_frames (PF := LP64) 2 [9; 9] 0 3.
Proof.
  apply (clientSlidingWindow_prompt (PF := LP64) 0 [9; 9] 2
           (SimNet.start [(0, [1]); (0, [2]); (0, [3])]) [(0, [1]); (0, [2]); (0, [3])] []);
    [done|lia|change (1 ≤ 2 ≤ 2)%nat; lia|change (2 ≤ 3)%nat; lia|done|].
  intros [|[|[|i]]] t d; simpl; [by intros [= <- <-]..|done].
Defined.

(** Window bound.  The waiting loop of line 121 keeps the invariant
    of the locals while the answers it reads are sequence numbers, and
    when it is left the ring is not full: fewer than [windowSize] frames
    are outstanding, so that the frame sent next brings their number to
    [windowSize] at most. *)
Theorem room_after_wait {PF : Platform} fuel max windowSize s (w : SimNet.net) s' w' :
  0 ≤ windowSize → 0 < max → Z.of_nat (words_of sizeof_ptr) ≤ max →
  wstate_ok max windowSize s → SimNet.inbox_all (seq_frame windowSize) w →
  while_do fuel (window_full windowSize) (wait_for_room max windowSize) s w = Done s' w' →
  wstate_ok max windowSize s' ∧ 0 ≤ outstanding windowSize s' < windowSize.
Proof.
  intros Hw Hmax Hwords Hok Hacks Hrun.
  by destruct (wait_loop_ok max windowSize Hw Hmax fuel s w s' w' Hok Hacks Hrun) as (? & _ & ?).
Qed.

Lemma room_after_wait_witness :
  wstate_ok (PF := LP64) 3 2
    {| retrans := 0; lastAckRec := 1; lastFrameSent := 2; timeout := {| startTime := 0 |};
       buffer := [None; None; None; Some 0; Some 9; None; Some 1; Some 9; None];
       message := [1; 9] |} ∧
  0 ≤ outstanding 2
    {| retrans := 0; lastAckRec := 1; lastFrameSent := 2; timeout := {| startTime := 0 |};
       buffer := [None; None; None; Some 0; Some 9; None; Some 1; Some 9; None];
       message := [1; 9] |} < 2.
Proof.
  apply (room_after_wait (PF := LP64) 2 3 2
           {| retrans := 0; lastAckRec := 0; lastFrameSent := 2; timeout := {| startTime := 0 |};
              buffer := [None; None; None; Some 0; Some 9; None; Some 1; Some 9; None];
              message := [1; 9] |}
           (SimNet.start [(0, [1])]) _
           {| SimNet.now := 1; SimNet.inbox := []; SimNet.outbox := [] |});
    [lia|lia|change (2 ≤ 3); lia| | |by vm_compute].
  - split; [unfold cursors_ok; simpl; lia|done|change (1 ≤ 2 ≤ 2)%nat; lia|].
    intros c v Hc Hv. assert (c = 0 ∨ c = 1 ∨ c = 2) as [-> | [-> | ->]] by lia;
      vm_compute in Hv; simplify_eq; unfold is_seq, seqRange; lia.
  - repeat apply Forall_cons_2; try apply Forall_nil_2. simpl.
    eexists _, _. split; [done|]. unfold is_seq, seqRange. lia.
Defined.

(** What a retransmission hands to the transport.  For each
    outstanding frame, oldest first, the loop of lines 124-130 passes to
    [sendTo] not the stored frame but the address whose value is the
    frame's first word, and counts one retransmission. *)
Theorem retransmit_outstanding_sends_addresses {PF : Platform} max windowSize s
    (w : SimNet.net) s' w' :
  retransmit_outstanding max windowSize s w = Done s' w' →
  ∃ vs, slot_heads max windowSize s 1 (Z.to_nat (outstanding windowSize s)) = Some vs ∧
    SimNet.sent w' = SimNet.sent w ++ ((λ v, Wild v sizeof_ptr) <$> vs) ∧
    retrans s' = retrans s + Z.of_nat (length vs) ∧ SimNet.inbox w' = SimNet.inbox w.
Proof.
  intros Hrun. unfold retransmit_outstanding in Hrun.
  destruct (decide (0 ≤ outstanding windowSize s)) as [Hn | Hn].
  - apply (for_range_invariant (λ j s1 w1, same_ring s s1 ∧
      ∃ vs, slot_heads max windowSize s 1 (Z.to_nat (j - 1)) = Some vs ∧
        SimNet.sent w1 = SimNet.sent w ++ ((λ v, Wild v sizeof_ptr) <$> vs) ∧
        retrans s1 = retrans s + Z.of_nat (length vs) ∧ SimNet.inbox w1 = SimNet.inbox w))
      in Hrun as (_ & vs & Hvs & ?); [|lia| |].
    + exists vs. by replace (outstanding windowSize s + 1 - 1) with (outstanding windowSize s) in Hvs by lia.
    + intros j s1 w1 s2 w2 Hj (Hring & vs & Hvs & Hsent & Hr & Hin) (v & Hv & -> & ->)%resend_slot_inv.
      split; [done|]. exists (vs ++ [v]).
      replace (Z.to_nat (j + 1 - 1)) with (S (Z.to_nat (j - 1))) by lia.
      destruct Hring as (Hl & _ & Hb & _). unfold slot_index in Hv. rewrite Hl, Hb in Hv.
      split_and!.
      * apply slot_heads_end; [done|]. rewrite <- Hv. unfold slot_index. do 3 f_equal. lia.
      * simpl. by rewrite SimNet.sent_send, Hsent, fmap_app, app_assoc.
      * simpl. rewrite length_app. simpl. lia.
      * done.
    + split; [done|]. exists []. simpl. by rewrite app_nil_r, Z.add_0_r.
  - rewrite for_range_empty in Hrun by lia. injection Hrun as <- <-.
    exists []. replace (Z.to_nat (outstanding windowSize s)) with 0%nat by lia.
    simpl. by rewrite app_nil_r, Z.add_0_r.
Qed.

Lemma retransmit_outstanding_sends_addresses_witness :
  ∃ vs,
    slot_heads 3 2
      {| retrans := 0; lastAckRec := 0; lastFrameSent := 2; timeout := {| startTime := 0 |};
         buffer := [None; None; None; Some 0; Some 9; None; Some 1; Some 9; None];
         message := [1; 9] |} 1
      (Z.to_nat (outstanding 2
         {| retrans := 0; lastAckRec := 0; lastFrameSent := 2; timeout := {| startTime := 0 |};
            buffer := [None; None; None; Some 0; Some 9; None; Some 1; Some 9; None];
            message := [1; 9] |})) = Some vs ∧
    [Wild 0 8; Wild 1 8] = [] ++ ((λ v, Wild v (sizeof_ptr (Platform := LP64))) <$> vs) ∧
    2 = 0 + Z.of_nat (length vs) ∧ [] = @nil (Z * list Z).
Proof.
  apply (retransmit_outstanding_sends_addresses (PF := LP64) 3 2
           {| retrans := 0; lastAckRec := 0; lastFrameSent := 2; timeout := {| startTime := 0 |};
              buffer := [None; None; None; Some 0; Some 9; None; Some 1; Some 9; None];
              message := [1; 9] |} (SimNet.start [])
           {| retrans := 2; lastAckRec := 0; lastFrameSent := 2; timeout := {| startTime := 0 |};
              buffer := [None; None; None; Some 0; Some 9; None; Some 1; Some 9; None];
              message := [1; 9] |}
           {| SimNet.now := 0; SimNet.inbox := [];
              SimNet.outbox := [(0, Wild 0 8); (0, Wild 1 8)] |}).
  by vm_compute.
Defined.

(** Scenario B of the specification: five messages, window 2, the
    answer to frame 0 lost and the cumulative answer to frame 1 late.  The
    ring fills after two frames; at the timeout the sender retransmits
    for both outstanding frames (handing over the addresses 0 and 1),
    counts 2, and goes on when the answer arrives. *)
Example clientSlidingWindow_scenario_B :
  clientSlidingWindow (PF := LP64) 1700 5 [9; 9] 2
    (SimNet.start [(1600, [2]); (1600, [3]); (1600, [4]); (1600, [0])]) =
  Done 2 {| SimNet.now := 1604; SimNet.inbox := [];
            SimNet.outbox := [(0, Words [0; 9]); (1, Words [1; 9]); (1503, Wild 0 8);
                              (1503, Wild 1 8); (1601, Words [2; 9]); (1602, Words [3; 9]);
                              (1603, Words [4; 9])] |}.
Proof. by vm_compute. Qed.

(** The slots of [buffer] are [max] words apart, but
    [sizeof(message) / sizeof(int)] words are copied into a slot: with one
    message to send, a window of 1 and pointers of two words, the copy of
    line 144 writes index 2 of an array of 2 words. *)
Example clientSlidingWindow_copy_overflow :
  clientSlidingWindow (PF := LP64) 3 1 [9; 9] 1 (SimNet.start []) =
  Fault (OutOfBounds 2)
    {| SimNet.now := 0; SimNet.inbox := []; SimNet.outbox := [(0, Words [0; 9])] |}.
Proof. by vm_compute. Qed.

(** An acknowledgment ahead of what was sent.  With a window of 3 and
    one frame outstanding, the answer 3 is within [windowSize] of the
    oldest outstanding number, so that line 175 accepts it: the
    trailing edge moves to slot 3, past the leading edge at slot 1, and
    line 147 of the next message reads a slot that was never written. *)
Example clientSlidingWindow_stray_ack :
  (∃ s w, send_message (PF := LP64) 3 2 3 0 (winit 2 [9; 9] 3) (SimNet.start [(0, [3])]) = Done s w ∧
     lastAckRec s = 3 ∧ lastFrameSent s = 1) ∧
  clientSlidingWindow (PF := LP64) 3 2 [9; 9] 3 (SimNet.start [(0, [3])]) =
  Fault Indeterminate
    {| SimNet.now := 1; SimNet.inbox := [];
       SimNet.outbox := [(0, Words [0; 9]); (1, Words [1; 9])] |}.
Proof. split; [eexists _, _; by vm_compute|by vm_compute]. Qed.

(** The sender does not wait for the answers to its last frames: with
    two messages, a window of 3 and no answer at all, it sends both
    frames and returns, neither of them acknowledged. *)
Example clientSlidingWindow_returns_unacknowledged :
  clientSlidingWindow (PF := LP64) 3 2 [9; 9] 3 (SimNet.start []) =
  Done 0 {| SimNet.now := 2; SimNet.inbox := [];
            SimNet.outbox := [(0, Words [0; 9]); (1, Words [1; 9])] |}.
Proof. by vm_compute. Qed.

(** C33: whenever the windowed sender returns, the frame of each message
    was handed to the transport exactly once, in the order of the
    messages; everything else it sent is a retransmission, which hands
    over an address and never a frame, and the value returned is the
    number of those.  A frame that is lost is therefore never sent
    again. *)
Theorem clientSlidingWindow_sends_each_frame_once {PF : Platform} fuel max msg windowSize
    (w : SimNet.net) r w' :
  0 ≤ windowSize → clientSlidingWindow fuel max msg windowSize w = Done r w' →
  ∃ ds, SimNet.sent w' = SimNet.sent w ++ ds ∧
    filter (λ d, is_frame d) ds = window_frames windowSize msg 0 (Z.to_nat max) ∧
    r = Z.of_nat (length (filter (λ d, ¬ is_frame d) ds)).
Proof.
  intros Hw Hrun. unfold clientSlidingWindow in Hrun. calls_inv.
  assert (trace_upto windowSize msg w 0 (winit max msg windowSize) w) as Hinit.
  { split; [exists (hd 0 msg); by destruct msg|]. exists []. by rewrite app_nil_r. }
  destruct (decide (0 ≤ max)) as [Hmax | Hmax].
  - lazymatch goal with H : for_range _ _ _ _ _ = _ |- _ =>
      apply (for_range_invariant (trace_upto windowSize msg w)) in H as [_ Hds]; [done|done| |done] end.
    intros j s1 w1 s2 w2 Hj Htr Hstep. eapply trace_upto_step; [done| |done..]. lia.
  - lazymatch goal with H : for_range _ _ _ _ _ = _ |- _ =>
      rewrite for_range_empty in H by lia; injection H as <- <- end.
    exists []. replace (Z.to_nat max) with 0%nat by lia. by rewrite app_nil_r.
Qed.

Lemma clientSlidingWindow_sends_each_frame_once_witness :
  ∃ ds,
    SimNet.sent {| SimNet.now := 1604; SimNet.inbox := [];
                   SimNet.outbox := [(0, Words [0; 9]); (1, Words [1; 9]); (1503, Wild 0 8);
                                     (1503, Wild 1 8); (1601, Words [2; 9]);
                                     (1602, Words [3; 9]); (1603, Words [4; 9])] |} =
    SimNet.sent (SimNet.start [(1600, [2]); (1600, [3]); (1600, [4]); (1600, [0])]) ++ ds ∧
    filter (λ d, is_frame d) ds = window_frames (PF := LP64) 2 [9; 9] 0 (Z.to_nat 5) ∧
    2 = Z.of_nat (length (filter (λ d, ¬ is_frame d) ds)).
Proof.
  apply (clientSlidingWindow_sends_each_frame_once (PF := LP64) 1700 5 [9; 9] 2);
    [lia|by vm_compute].
Defined.

(** C27: the invariant of the sender.  While the answers it reads are
    sequence numbers, a pass of the loop of lines 118-149 that completes
    leaves the cursors inside the ring, [buffer] and [message] at their
    sizes, and a sequence number at the head of every slot that was
    written; the answers still to come are untouched. *)
Theorem send_message_preserves_ok {PF : Platform} fuel max windowSize j s (w : SimNet.net) s' w' :
  0 ≤ windowSize → 0 < max → Z.of_nat (words_of sizeof_ptr) ≤ max →
  wstate_ok max windowSize s → SimNet.inbox_all (seq_frame windowSize) w → 0 ≤ j →
  send_message fuel max windowSize j s w = Done s' w' →
  wstate_ok max windowSize s' ∧ SimNet.inbox_all (seq_frame windowSize) w'.
Proof. intros Hw Hmax Hwords. by apply send_message_ok. Qed.

Lemma send_message_preserves_ok_witness :
  wstate_ok (PF := LP64) 3 2
    {| retrans := 0; lastAckRec := 1; lastFrameSent := 1; timeout := {| startTime := 0 |};
       buffer := [None; None; None; Some 0; Some 9; None; None; None; None];
       message := [0; 9] |} ∧
  SimNet.inbox_all (seq_frame 2)
    {| SimNet.now := 1; SimNet.inbox := []; SimNet.outbox := [(0, Words [0; 9])] |}.
Proof.
  apply (send_message_preserves_ok (PF := LP64) 1 3 2 0 (winit 3 [9; 9] 2)
           (SimNet.start [(0, [1])])); [lia|lia|change (2 ≤ 3); lia| | |lia|by vm_compute].
  - apply winit_ok; [lia..|change (1 ≤ 2 ≤ 2)%nat; lia].
  - repeat apply Forall_cons_2; try apply Forall_nil_2. simpl.
    eexists _, _. split; [done|]. unfold is_seq, seqRange. lia.
Defined.
