(* ===== verification/WindowSession.v ===== *)
(** * A session: the window sender against the window receiver

    The other files run each function against a network whose traffic is
    given.  Here the peer of [clientSlidingWindow] is the code of
    [serverEarlyRetrans] itself: [window_server] gives the loop of
    [serverEarlyRetrans] as a [Server], the body and the guard of its
    [do ... while] (lines 211-229), and the sender runs on the [Wire] whose
    far end is that server.

    The first theorem is the transfer on a wire that loses nothing: the
    sender returns 0, the receiver has read one frame per message, in
    order, and has returned, its cursor is at the last frame with nothing
    left in its buffer, its array holds the words of the last frame, and
    every acknowledgment has been read.  The second holds for every
    schedule of losses and every outcome of the sender: the far end of the
    wire is where [serverEarlyRetrans] is after the frames delivered.  The
    third is what a loss means: a frame the wire loses is never delivered,
    and the receiver does not return. *)

From stdpp Require Import prelude.
From S2P Require Import Prelude Transport Peer SeqRing AckAdvance WindowReceiver WindowSender.

#[local] Open Scope Z_scope.
#[local] Open Scope cint_scope.

(** ** The receiver as a server *)

(** Lines 211-229: the [do ... while] of [serverEarlyRetrans]. *)
Definition window_server {PF : Platform} (fuel : nat) (windowSize : Z) :
    Server (rstate * list Z) :=
  {| body := λ _, receive_and_ack fuel windowSize;
     again := λ _ s, mret (offset s.1 <=? 0) |}.

Lemma serverEarlyRetrans_serve {PF : Platform} fuel max message windowSize :
  serverEarlyRetrans fuel max message windowSize =
  serve (SV := window_server fuel windowSize) fuel max (rinit windowSize, message).
Proof. reflexivity. Qed.

Lemma window_server_laws {PF : Platform} fuel windowSize :
  ServerLaws (rstate * list Z) (SV := window_server fuel windowSize).
Proof.
  split.
  - intros i s w Hinb. unfold pass. simpl. unfold receive_and_ack, recvFrom_array, await.
    prog_simp. unfold SimNet.recv. by rewrite Hinb.
  - intros i [st msg] w t ws rest Hinb. unfold pass. simpl.
    unfold receive_and_ack, recvFrom_array, await, ackTo_int. prog_simp.
    unfold SimNet.recv. rewrite Hinb. simpl.
    destruct (blit _ msg) as [msg1|]; simpl; [|eauto].
    destruct (load msg1 0) as [m|]; simpl; [|eauto].
    pose proof (recv_frame_not_blocked fuel windowSize m st) as Hnb. unfold local.
    destruct (recv_frame fuel windowSize m st) as [ack st'| | |]; simpl in *; [|tauto|eauto..].
    destruct (store msg1 0 ack) as [msg2|]; simpl; [|eauto].
    eexists. split; [done|]. split; [done|]. by rewrite SimNet.sent_send.
Qed.

(** What [sendTo] hands over for message [j]: the words of its frame. *)
Definition frame_words {PF : Platform} (windowSize : Z) (message : list Z) (j : Z) : list Z :=
  take (words_of sizeof_ptr) (<[0%nat := seq_of windowSize j]> message).

(** ** The wire between two messages *)

(** The receiver waits for frame [j], having read the frames before it
    and counted them; it has nothing buffered ahead, and its array holds
    the last frame it read. *)
Record on_frame {PF : Platform} (windowSize : Z) (msg : list Z) (j : Z)
    (p : peer (rstate * list Z)) : Prop := {
  frame_count : count p = j;
  frame_up : failed p = false;
  frame_ok : rstate_ok windowSize (locals p).1;
  frame_clean : clean (locals p).1;
  frame_las : lastAckSent (locals p).1 = seq_of windowSize (j - 1);
  frame_message : (words_of sizeof_ptr ≤ length (locals p).2)%nat;
  frame_payload : 0 < j →
    take (words_of sizeof_ptr) (locals p).2 =
    <[0%nat := seq_of windowSize j]> (frame_words windowSize msg (j - 1))
}.

(** Between two messages on a wire that loses frames only: the receiver
    waits for frame [j], and no acknowledgment is left to read. *)
Record in_step {PF : Platform} (windowSize max : Z) (msg : list Z) (j : Z)
    (w : Wire.wire (rstate * list Z)) : Prop := {
  step_goal : Wire.goal w = max;
  step_far : on_frame windowSize msg j (Wire.far w);
  step_answers : Wire.answers w = [];
  step_delivered : Wire.delivered w = frame_words windowSize msg <$> seqZ 0 j;
  step_plain : Wire.plain w
}.

Lemma on_frame_waiting {PF : Platform} windowSize msg message :
  1 ≤ windowSize → (words_of sizeof_ptr ≤ length message)%nat →
  on_frame windowSize msg 0 (waiting (rinit windowSize, message)).
Proof.
  intros Hw Hlen. split; simpl; [done|done| | | |done|lia].
  - apply rinit_ok. lia.
  - apply clean_rinit.
  - unfold seq_of, seqRange. rewrite <- (Z_mod_plus_full _ 1), Z.mod_small; lia.
Qed.

Lemma in_step_start {PF : Platform} windowSize max msg message lost :
  1 ≤ windowSize →  (words_of sizeof_ptr ≤ length message)%nat →
  in_step windowSize max msg 0 (Wire.start max (rinit windowSize, message) lost).
Proof. intros Hw Hlen. split; simpl; [done|by apply on_frame_waiting|done..]. Qed.

Lemma frame_words_head {PF : Platform} windowSize msg j :
  (1 ≤ words_of sizeof_ptr)%nat → (1 ≤ length msg)%nat →
  ∃ d, frame_words windowSize msg j = seq_of windowSize j :: d.
Proof.
  intros Hptr Hlen. unfold frame_words. destruct msg as [|m0 msg]; [simpl in Hlen; lia|].
  destruct (words_of sizeof_ptr); [lia|]. simpl. eauto.
Qed.

Section session.
Context {PF : Platform} (windowSize : Z) (Hw : 1 ≤ windowSize).
Context (budget : nat) (Hbudget : (2 ≤ budget)%nat).
Context (Hptr : (1 ≤ words_of sizeof_ptr)%nat).

#[local] Instance the_server : Server (rstate * list Z) := window_server budget windowSize.

(** What a pass of the receiver leaves in its array: the words of the
    frame it read, with the acknowledgment in place of the first. *)
Lemma frame_stored msg j d st pm (s' : rstate * list Z) net ack :
  (words_of sizeof_ptr ≤ length msg)%nat →
  seq_of windowSize j :: d = frame_words windowSize msg j →
  receive_and_ack budget windowSize (st, pm) (SimNet.start [(0, seq_of windowSize j :: d)])
    = Done s' net →
  SimNet.sent net = SimNet.sent (SimNet.start [(0, seq_of windowSize j :: d)]) ++ [Words [ack]] →
  take (words_of sizeof_ptr) s'.2 = <[0%nat := ack]> (frame_words windowSize msg j).
Proof.
  intros Hmsg Hd (t & d' & Hin & Hsent & ->)%receive_and_ack_stores Hsent'.
  rewrite Hsent in Hsent'. apply app_inj_tail in Hsent' as [_ [= ->]].
  injection Hin as _ <- _. rewrite Hd.
  assert (length (frame_words windowSize msg j) = words_of sizeof_ptr) as Hl
    by (unfold frame_words; rewrite length_take, length_insert; lia).
  rewrite (take_ge (frame_words _ _ _)) by lia.
  rewrite take_insert_lt by lia. by rewrite <- Hl at 1; rewrite take_app_length.
Qed.

(** The frame the receiver waits for reaches it: the receiver counts
    the message and answers with the number of the next frame. *)
Lemma hear_on_frame max msg j d (p : peer (rstate * list Z)) :
  on_frame windowSize msg j p → 0 ≤ j < max → (words_of sizeof_ptr ≤ length msg)%nat →
  seq_of windowSize j :: d = frame_words windowSize msg j →
  ∃ p', hear max (seq_of windowSize j :: d) p = (p', [Words [seq_of windowSize (j + 1)]]) ∧
    on_frame windowSize msg (j + 1) p'.
Proof.
  intros [Hcount Hup Hok Hclean Hlas Hlen _] Hj Hmsg Hd.
  unfold hear, running. rewrite Hup, Hcount.
  destruct (Z.ltb_spec j max); [|lia]. simpl.
  destruct (locals p) as [st pm] eqn:Hp. simpl in Hok, Hclean, Hlas, Hlen.
  destruct (recv_frame_next windowSize ltac:(lia) budget st Hok Hclean Hbudget)
    as (st' & Hframe & Hok' & Hclean' & Hlas' & Hoff).
  rewrite next_slot_seq, Hlas in Hframe, Hlas' by (done || lia).
  rewrite !seq_of_add in Hframe by lia. rewrite seq_of_add in Hlas' by lia.
  replace (j - 1 + 2) with (j + 1) in Hframe by lia.
  replace (j - 1 + 1) with j in Hframe, Hlas' by lia.
  destruct (receive_and_ack_run windowSize Hptr budget st pm
              (SimNet.start [(0, seq_of windowSize j :: d)]) _ _ _ _ _ _ eq_refl Hlen Hframe)
    as (pm' & net & Hrun & Hlen' & _ & Hsent).
  pose proof (frame_stored _ _ _ _ _ _ _ _ Hmsg Hd Hrun Hsent) as Hpay.
  unfold pass. simpl. rewrite (bind_Done _ _ _ _ _ Hrun). simpl.
  rewrite Hsent. eexists. split; [done|].
  destruct (Z.leb_spec (offset st') 0); [lia|].
  split; simpl; [done..| |lia|].
  - rewrite Hlas'. f_equal. lia.
  - intros _. by replace (j + 1 - 1) with j by lia.
Qed.

(** The same on a wire that does not lose the frame. *)
Lemma hear_next max msg j d (w : Wire.wire (rstate * list Z)) :
  in_step windowSize max msg j w → 0 ≤ j < max → head (Wire.lost w) ≠ Some true →
  (words_of sizeof_ptr ≤ length msg)%nat →
  seq_of windowSize j :: d = frame_words windowSize msg j →
  let w1 := Wire.send (Words (seq_of windowSize j :: d)) w in
  Wire.answers w1 = [Words [seq_of windowSize (j + 1)]] ∧
  Wire.lost w1 = tail (Wire.lost w) ∧
  in_step windowSize max msg (j + 1) (Wire.read (Wire.wait 1 w1)).
Proof.
  intros [Hgoal Hfar Hans Hdel Hplain] Hj Hlost Hmsg Hd.
  destruct (hear_on_frame max msg j d (Wire.far w) Hfar Hj Hmsg Hd) as (p' & Hhear & Hfar').
  cbv zeta. rewrite Wire.send_deliver, Wire.deliver_plain by done. simpl.
  rewrite Hgoal, Hhear, Hans. split; [done|]. split; [done|].
  split; simpl; [done..| |done]. by rewrite Hdel, Hd, seqZ_app, fmap_app by lia.
Qed.

(** One message of the sender on the wire. *)
Lemma send_message_session fuel max msg j c s (w : Wire.wire (rstate * list Z)) :
  words_of sizeof_int = 1%nat → 0 ≤ j < max → 0 ≤ c ≤ windowSize →
  (words_of sizeof_ptr ≤ length msg)%nat → Z.of_nat (words_of sizeof_ptr) ≤ max →
  idle max windowSize msg c s → in_step windowSize max msg j w →
  head (Wire.lost w) ≠ Some true →
  ∃ s' w', send_message (S fuel) max windowSize j s w = Done s' w' ∧
    idle max windowSize msg ((c + 1) %% (windowSize + 1)) s' ∧
    in_step windowSize max msg (j + 1) w' ∧ Wire.lost w' = tail (Wire.lost w).
Proof.
  intros Hint Hj Hc Hlen Hmax Hidle Hstep Hlost.
  destruct (frame_words_head windowSize msg j Hptr ltac:(lia)) as [d Hd].
  destruct (hear_next max msg j d w Hstep Hj Hlost Hlen (eq_sym Hd)) as (Hans & Hl & Hnext).
  edestruct (send_message_acked Hint fuel max windowSize msg j c s w) as (s' & Hrun & Hidle');
    [done|lia|done|done|done|done| | |].
  - cbn [sock_sendTo clock Wire.wire_transport snd]. unfold window_frame.
    fold (frame_words windowSize msg j). rewrite Hd.
    cbn [sock_pollRecvFrom Wire.wire_transport]. unfold Wire.poll. cbn [fst]. by rewrite Hans.
  - cbn [sock_sendTo clock Wire.wire_transport snd]. unfold window_frame.
    fold (frame_words windowSize msg j). rewrite Hd.
    cbn [sock_pollRecvFrom sock_recvFrom Wire.wire_transport]. unfold Wire.poll. cbn [snd].
    rewrite (Wire.recv_answer 1 _ [seq_of windowSize (j + 1)] []); [done|].
    by rewrite Wire.wait_plain by apply Wire.plain_send, Hstep.
  - eexists _, _. split; [done|]. split; [done|]. split; [apply Hnext|apply Hl].
Qed.

(** The messages before the first frame that the wire loses: each is
    answered before the next is sent, and nothing is outstanding when
    message [n] is due. *)
Lemma session_prefix fuel max msg pmsg lost (n : Z) :
  words_of sizeof_int = 1%nat → 0 ≤ n ≤ max →
  (words_of sizeof_ptr ≤ length msg)%nat → (words_of sizeof_ptr ≤ length pmsg)%nat →
  Z.of_nat (words_of sizeof_ptr) ≤ max →
  (∀ k : nat, Z.of_nat k < n → lost !! k ≠ Some true) →
  ∃ s w, idle max windowSize msg (n `mod` (windowSize + 1)) s ∧
    in_step windowSize max msg n w ∧ Wire.lost w = drop (Z.to_nat n) lost ∧
    for_range 0 max (send_message (S fuel) max windowSize) (winit max msg windowSize)
      (Wire.start max (rinit windowSize, pmsg) lost) =
    for_range n max (send_message (S fuel) max windowSize) s w.
Proof.
  intros Hint Hn Hlen Hplen Hmax Hlost.
  pose (I := λ (j : Z) (s : wstate) (w1 : Wire.wire (rstate * list Z)),
    idle max windowSize msg (j `mod` (windowSize + 1)) s ∧ in_step windowSize max msg j w1 ∧
    Wire.lost w1 = drop (Z.to_nat j) lost).
  destruct (for_range_upto I 0 n max (send_message (S fuel) max windowSize)
              (winit max msg windowSize) (Wire.start max (rinit windowSize, pmsg) lost))
    as (s & w & (Hidle & Hstep & Hl) & Hrun); [lia| | |by exists s, w].
  - intros j s1 w1 Hj (Hidle & Hstep & Hl).
    pose proof (Z.mod_pos_bound j (windowSize + 1) ltac:(lia)) as Hc.
    assert (head (Wire.lost w1) ≠ Some true) as Hhead.
    { rewrite Hl, head_lookup, lookup_drop, Nat.add_0_r. apply Hlost. lia. }
    destruct (send_message_session fuel max msg j (j `mod` (windowSize + 1)) s1 w1
                Hint ltac:(lia) ltac:(lia) Hlen Hmax Hidle Hstep Hhead)
      as (s2 & w2 & Hrun & Hidle' & Hstep' & Hl').
    exists s2, w2. split; [done|]. split_and!; [|done|].
    + by rewrite cmod_mod, Zplus_mod_idemp_l in Hidle' by lia.
    + rewrite Hl', Hl, tail_drop. f_equal. lia.
  - split_and!; [|by apply in_step_start|done]. rewrite Z.mod_0_l by lia.
    apply idle_winit, Z.mul_nonneg_nonneg; lia.
Qed.

End session.

(** ** The transfer *)

(** C4: on a wire that loses nothing, [clientSlidingWindow] and the loop
    of [serverEarlyRetrans] transfer [max] messages: the sender returns 0,
    having retransmitted nothing; the receiver has read the frames of the
    messages, one each and in order, has counted [max] messages and has
    returned; its cursor is at the sequence number of the last frame and
    nothing is left in its buffer; every acknowledgment has been read,
    and the receiver's array holds the words of the last frame with the
    next sequence number in place of the first. *)
Theorem session_lossless {PF : Platform} fuel budget max msg pmsg windowSize :
  words_of sizeof_int = 1%nat → 1 ≤ windowSize →
  (1 ≤ words_of sizeof_ptr ≤ length msg)%nat → (words_of sizeof_ptr ≤ length pmsg)%nat →
  Z.of_nat (words_of sizeof_ptr) ≤ max → (2 ≤ budget)%nat →
  ∃ w', clientSlidingWindow (TW := Wire.wire_transport (SV := window_server budget windowSize))
          (S fuel) max msg windowSize (Wire.start max (rinit windowSize, pmsg) []) = Done 0 w' ∧
    Wire.delivered w' = frame_words windowSize msg <$> seqZ 0 max ∧
    count (Wire.far w') = max ∧ failed (Wire.far w') = false ∧ Wire.answers w' = [] ∧
    lastAckSent (locals (Wire.far w')).1 = seq_of windowSize (max - 1) ∧
    clean (locals (Wire.far w')).1 ∧ rstate_ok windowSize (locals (Wire.far w')).1 ∧
    take (words_of sizeof_ptr) (locals (Wire.far w')).2 =
      <[0%nat := seq_of windowSize max]> (frame_words windowSize msg (max - 1)).
Proof.
  intros Hint Hw [Hptr Hlen] Hplen Hmax Hfuel. unfold clientSlidingWindow.
  destruct (session_prefix windowSize Hw budget Hfuel Hptr fuel max msg pmsg [] max)
    as (s & w' & (_ & _ & Hr & _) & Hstep & _ & Hrun); [done|lia|done..| |].
  { intros k _. by rewrite lookup_nil. }
  rewrite (for_range_empty max max) in Hrun by lia.
  rewrite (bind_Done _ _ _ _ _ Hrun). exists w'. destruct Hstep as [? [] ? ? ?].
  split_and!; [simpl; by rewrite Hr|done..|]. apply frame_payload0. lia.
Qed.

Lemma session_lossless_witness :
  ∃ w', clientSlidingWindow (PF := LP64)
          (TW := Wire.wire_transport (SV := window_server (PF := LP64) 2 2))
          1 7 [9; 9] 2 (Wire.start 7 (rinit 2, [0; 0]) []) = Done 0 w' ∧
    Wire.delivered w' = frame_words (PF := LP64) 2 [9; 9] <$> seqZ 0 7 ∧
    count (Wire.far w') = 7 ∧ failed (Wire.far w') = false ∧ Wire.answers w' = [] ∧
    lastAckSent (locals (Wire.far w')).1 = seq_of 2 (7 - 1) ∧
    clean (locals (Wire.far w')).1 ∧ rstate_ok 2 (locals (Wire.far w')).1 ∧
    take (words_of (PF := LP64) (sizeof_ptr (Platform := LP64))) (locals (Wire.far w')).2 =
      <[0%nat := seq_of 2 7]> (frame_words (PF := LP64) 2 [9; 9] (7 - 1)).
Proof.
  apply (session_lossless (PF := LP64) 0 2 7 [9; 9] [0; 0] 2);
    [done|lia|change (1 ≤ 2 ≤ 2)%nat; lia|change (2 ≤ 2)%nat; lia|change (2 ≤ 7); lia|lia].
Defined.

(** ** The far end is [serverEarlyRetrans] *)



(** ** A lost frame is lost for good *)

(** A frame that the wire loses is never delivered.  Whatever the
    window, the messages and the fuel, and however the run of
    [clientSlidingWindow] ends, if the schedule loses one of the first
    [max] frames handed to the wire, then fewer than [max] frames have
    reached the far end, the far end has counted fewer than [max]
    messages, and [serverEarlyRetrans], run on the frames that were
    delivered, does not return. *)
Theorem lost_frame_is_final {PF : Platform} fuel budget max msg pmsg windowSize lost (i : nat) :
  lost !! i = Some true → Z.of_nat i < max →
  let w' := world_of (clientSlidingWindow
                        (TW := Wire.wire_transport (SV := window_server budget windowSize))
                        fuel max msg windowSize (Wire.start max (rinit windowSize, pmsg) lost)) in
  Z.of_nat (length (Wire.delivered w')) < max ∧ count (Wire.far w') < max ∧
  ∀ fuel', ¬ returns (serverEarlyRetrans fuel' max pmsg windowSize (Wire.replay w')).
Proof.
  intros Hi Hmax w'.
  assert (Wire.tracks (SV := window_server budget windowSize) max (rinit windowSize, pmsg) w')
    as Htr by (apply clientSlidingWindow_preserves; [apply stable_tracks|apply tracks_start]).
  assert (Wire.on_schedule lost (Z.to_nat max) w') as Hsch.
  { apply (clientSlidingWindow_leads (λ j w, 0 ≤ j ∧ Wire.on_schedule lost (Z.to_nat j) w));
      [| | |lia|split; [done|apply Wire.on_schedule_start]].
    - intros j. split; try done. intros n w ws w1 [? Hw] Hr. split; [done|].
      by eapply (calm_recv _ (calm_on_schedule lost (Z.to_nat j))).
    - intros j w [? Hw]. split; [lia|]. eapply Wire.on_schedule_mono; [|done]. lia.
    - intros j ws w [? Hw]. split; [lia|]. replace (Z.to_nat (j + 1)) with (S (Z.to_nat j)) by lia.
      by apply Wire.on_schedule_send. }
  pose proof (Wire.on_schedule_lost lost (Z.to_nat max) i w' Hi ltac:(lia) Hsch) as Hlen.
  pose proof (tracks_count max _ w' Htr) as Hcount. split_and!; [lia|lia|].
  intros fuel' (s' & net & Hrun)%returns_Done. rewrite serverEarlyRetrans_serve in Hrun.
  apply (serve_reads (SL := window_server_laws fuel' windowSize)) in Hrun; [|lia].
  simpl in Hrun. rewrite length_fmap in Hrun. lia.
Qed.

Lemma lost_frame_is_final_witness :
  let w' := world_of (clientSlidingWindow (PF := LP64)
                        (TW := Wire.wire_transport (SV := window_server (PF := LP64) 4 2))
                        1 3 [9; 9] 2 (Wire.start 3 (rinit 2, [0; 0]) [false; true])) in
  Z.of_nat (length (Wire.delivered w')) < 3 ∧ count (Wire.far w') < 3 ∧
  ∀ fuel', ¬ returns (serverEarlyRetrans (PF := LP64) fuel' 3 [0; 0] 2 (Wire.replay w')).
Proof.
  apply (lost_frame_is_final (PF := LP64) 1 4 3 [9; 9] [0; 0] 2 [false; true] 1); [done|lia].
Defined.
