(* ===== verification/WindowLoss.v ===== *)
(** * A lost frame: the window sender against the window receiver

    [WindowSession.v] shows that a frame the wire loses is never
    delivered.  This file follows the two functions after the loss.  The
    receiver is described through its specification ([ReceiverSpec.v]):
    the far end of the wire [misses] frame [i] when its locals represent
    a state whose first missing frame is [i]; it then answers every
    later frame of the window with the sequence number of [i].  The
    sender keeps its trailing edge at the slot of frame [i] ([stuck]),
    since [ackAdvance] takes that answer for a stale one; it sends the
    [windowSize - 1] frames that follow, finds the ring full, and waits:
    what it retransmits are addresses, which reach nobody.  When the
    messages run out before the ring is full, it returns 0, as it does
    when nothing was lost.  These are all the sessions on a wire that
    only loses frames: whenever [clientSlidingWindow] returns there, it
    returns 0.

    The lemmas on the sender with frames outstanding serve the other
    sessions as well: [send_tail_stuck] (a frame is sent),
    [stuck_advanced] (an acknowledgment is read), [turned] and
    [wait_for_room_turn] (one turn of the waiting loop, with its timer
    and its count of retransmissions), [send_message_silent] (the
    waiting loop on a wire on which nothing is to come). *)

From stdpp Require Import gmap.
From S2P Require Import Prelude Transport Peer SeqRing AckAdvance WindowReceiver ReceiverSpec.
From S2P Require Import WindowSender WindowSession.
Import WRSpec.

#[local] Open Scope Z_scope.
#[local] Open Scope cint_scope.

(** ** The two ends after a loss *)

(** The server is in its loop and the first frame it misses is [i]. *)
Record misses {PF : Platform} (windowSize i : Z) (p : peer (rstate * list Z)) : Prop := {
  miss_up : failed p = false;
  miss_rep : ∃ a, represents windowSize (locals p).1 a ∧ expected a = i;
  miss_message : (words_of sizeof_ptr ≤ length (locals p).2)%nat
}.

(** No answer is waiting or on its way, and the far end misses frame [i]. *)
Record awaits {PF : Platform} (windowSize i : Z) (w : Wire.wire (rstate * list Z)) : Prop := {
  aw_answers : Wire.answers w = [];
  aw_far : misses windowSize i (Wire.far w);
  aw_plain : Wire.plain w
}.

(** The sender's locals when the frames [i] to [i + k - 1] are
    outstanding: the trailing edge is at the slot before that of frame
    [i], and the slot of each of these frames starts with its sequence
    number. *)
Record stuck (max windowSize : Z) (msg : list Z) (i k : Z) (s : wstate) : Prop := {
  stuck_lar : lastAckRec s = i `mod` (windowSize + 1);
  stuck_lfs : lastFrameSent s = (i + k) `mod` (windowSize + 1);
  stuck_length : Z.of_nat (length (buffer s)) = (windowSize + 1) * max;
  stuck_message : ∃ x, message s = <[0%nat := x]> msg;
  stuck_heads m : 1 ≤ m ≤ k →
    load (buffer s) ((i + m) `mod` (windowSize + 1) * max) = Some (Some (seq_of windowSize (i + m - 1)))
}.

(** What [timeout.lap()] returns at the time [now]. *)
Definition lapse (now : Z) (s : wstate) : Z := now - startTime (timeout s).

(** The sender after the first half of a turn of its waiting loop at the
    time [now] with [k] frames outstanding (lines 122-133): the frames
    are counted as retransmitted and the timer is started again when it
    had run out. *)
Definition turned (k now : Z) (s s1 : wstate) : Prop :=
  same_ring s s1 ∧
  retrans s1 = retrans s + (if MAX_TIME <? lapse now s then k else 0) ∧
  lapse (now + 1) s1 = if MAX_TIME <? lapse now s then 1 else lapse now s + 1.

(** ** The far end *)

Section after_loss.
Context {PF : Platform} (windowSize : Z) (Hw : 1 ≤ windowSize) (budget : nat).

#[local] Instance far_server : Server (rstate * list Z) := window_server budget windowSize.
#[local] Abbreviation slots := (windowSize + 1).

Section far_end.
Context (Hbudget : (Z.to_nat windowSize + 1 ≤ budget)%nat).
Context (Hptr : (1 ≤ words_of sizeof_ptr)%nat).

(** The far end takes the step of the specification: a frame within
    reach is answered with the number of the first missing frame, and
    counted as a message when the specification accepts it. *)
Lemma hear_refines max n d (p : peer (rstate * list Z)) a :
  failed p = false → count p < max → represents windowSize (locals p).1 a →
  in_reach windowSize a n → (words_of sizeof_ptr ≤ length (locals p).2)%nat →
  ∃ st' pm', hear max (seq_of windowSize n :: d) p =
    ({| count := if accepts windowSize a n then count p + 1 else count p;
        heard := S (heard p); locals := (st', pm'); failed := false |},
     [Words [answer windowSize (deliver windowSize a n)]]) ∧
    represents windowSize st' (deliver windowSize a n) ∧ length pm' = length (locals p).2.
Proof.
  intros Hup Hcount Hrep Hreach Hlen. unfold hear, running. rewrite Hup.
  destruct (Z.ltb_spec (count p) max); [|lia]. simpl.
  destruct (locals p) as [st pm] eqn:Hp. simpl in Hrep, Hlen.
  destruct (recv_frame_simulates windowSize ltac:(lia) budget st a n Hrep Hreach Hbudget)
    as (st' & Hframe & Hrep' & Hoff).
  destruct (receive_and_ack_run windowSize Hptr budget st pm
              (SimNet.start [(0, seq_of windowSize n :: d)]) _ _ _ _ _ _ eq_refl Hlen Hframe)
    as (pm' & net & Hrun & Hlen' & _ & Hsent).
  exists st', pm'. unfold pass. simpl. rewrite (bind_Done _ _ _ _ _ Hrun). simpl.
  rewrite Hsent. split_and!; [|done..]. do 2 f_equal.
  destruct Hoff as [Hoff1 Hoff2].
  destruct (accepts windowSize a n), (Z.leb_spec (offset st') 0) as [Hle|Hlt]; try done;
    [specialize (Hoff2 I); lia|by specialize (Hoff1 Hlt)].
Qed.

(** A frame of the window ahead of the missing one is answered with the
    number of the missing one, which stays missing. *)
Lemma misses_hear max i n d (p : peer (rstate * list Z)) :
  misses windowSize i p → i < n < i + windowSize →
  let r := hear max (seq_of windowSize n :: d) p in
  misses windowSize i r.1 ∧ (r.2 = [] ∨ r.2 = [Words [seq_of windowSize i]]).
Proof.
  intros Hmiss Hn. pose proof Hmiss as [Hup (a & Hrep & Ha) Hlen].
  destruct (decide (count p < max)) as [Hc|Hc]; cycle 1.
  { unfold hear, running. destruct (Z.ltb_spec (count p) max); [lia|].
    rewrite andb_false_r. simpl. auto. }
  pose proof (rep_wf _ _ _ Hrep) as Hwf.
  destruct (hear_refines max n d p a Hup Hc Hrep) as (st' & pm' & -> & Hrep' & Hlen'); [|done|].
  { apply bool_decide_pack. lia. }
  pose proof (expected_deliver_ahead windowSize a n Hwf ltac:(lia)) as He. simpl.
  split; [|right; unfold answer; by rewrite He, Ha].
  split; simpl; [done| |lia]. exists (deliver windowSize a n). split; [done|lia].
Qed.

(** A frame is handed to the wire while the far end misses frame [i]:
    the frame is lost, or it is one of the window ahead of [i]. *)
Lemma awaits_send i n d (w : Wire.wire (rstate * list Z)) :
  awaits windowSize i w → head (Wire.lost w) = Some true ∨ i < n < i + windowSize →
  let w1 := Wire.send (Words (seq_of windowSize n :: d)) w in
  misses windowSize i (Wire.far w1) ∧
  (Wire.answers w1 = [] ∨ Wire.answers w1 = [Words [seq_of windowSize i]]).
Proof.
  intros [Hans Hfar Hpl] Hn. cbv zeta.
  destruct (decide (head (Wire.lost w) = Some true)) as [Hl|Hl].
  - destruct (Wire.lost w) as [|[] l] eqn:El; try done.
    rewrite (Wire.send_lost _ l) by done. simpl. auto.
  - destruct Hn as [?|Hn]; [done|]. rewrite Wire.send_deliver, Wire.deliver_plain by done.
    simpl. rewrite Hans. by apply misses_hear.
Qed.

End far_end.

(** Between two messages of a session that has lost nothing, the far end
    misses the frame that is due. *)
Lemma in_step_awaits max msg j (w : Wire.wire (rstate * list Z)) :
  0 ≤ j → in_step windowSize max msg j w → awaits windowSize j w.
Proof.
  intros Hj [_ [_ Hup Hok Hclean Hlas Hlen _] Hans _ Hpl]. split; [done| |done].
  split; [done| |done].
  exists {| expected := j; received := list_to_set (seqZ 0 j) |}. split; [|done].
  split; [done| |]; split; simpl; try done.
  - intros k Hk. apply elem_of_list_to_set, elem_of_seqZ. lia.
  - intros Hin%elem_of_list_to_set%elem_of_seqZ. lia.
  - intros k Hin%elem_of_list_to_set%elem_of_seqZ. lia.
  - intros k Hin%elem_of_list_to_set%elem_of_seqZ. lia.
  - intros k Hk. split.
    + intros Hb%Hclean. rewrite Hlas in Hb.
      apply (seq_of_inj windowSize) in Hb; [lia|unfold seqRange; lia].
    + intros Hin%elem_of_list_to_set%elem_of_seqZ. lia.
Qed.

(** ** The sender's locals *)

Section stuck.
Context (max : Z) (msg : list Z) (i : Z).

Lemma stuck_same_ring k s s' : same_ring s s' → stuck max windowSize msg i k s →
  stuck max windowSize msg i k s'.
Proof.
  intros (Hlar & Hlfs & Hbuf & Hmsg) [? ? ? ? Hheads].
  split; rewrite ?Hlar, ?Hlfs, ?Hbuf, ?Hmsg; done.
Qed.

(** With nothing outstanding when message [i] is due, the sender is
    where the loss finds it. *)
Lemma idle_stuck s : idle max windowSize msg (i `mod` slots) s → stuck max windowSize msg i 0 s.
Proof.
  intros (Hlar & Hlfs & _ & Hlb & Hmsg). split; try done; [|lia]. by rewrite Z.add_0_r.
Qed.

Lemma stuck_cursors k s :
  stuck max windowSize msg i k s → 0 ≤ lastAckRec s ≤ windowSize ∧ 0 ≤ lastFrameSent s ≤ windowSize.
Proof.
  intros [-> -> _ _ _]. pose proof (Z.mod_pos_bound i slots). pose proof (Z.mod_pos_bound (i + k) slots).
  lia.
Qed.

(** The slot [j] places after the trailing edge is that of frame
    [i + j - 1]. *)
Lemma stuck_slot k s j :
  stuck max windowSize msg i k s → 1 ≤ j ≤ k →
  load (buffer s) (slot_index max windowSize s j) = Some (Some (seq_of windowSize (i + j - 1))).
Proof.
  intros Hst Hj. unfold slot_index. rewrite (stuck_lar _ _ _ _ _ _ Hst).
  pose proof (Z.mod_pos_bound i slots). rewrite cmod_mod, ring_add_mod by lia.
  by apply (stuck_heads _ _ _ _ _ _ Hst).
Qed.

(** The slot of the frame just sent is written, and those of the frames
    before it are as they were. *)
Lemma stuck_sent k s b msg' :
  stuck max windowSize msg i k s → 0 ≤ k < windowSize →
  Z.of_nat (words_of sizeof_ptr) ≤ max →
  let lfs := (lastFrameSent s + 1) %% slots in
  length b = length (buffer s) →
  load b (lfs * max) = Some (Some (seq_of windowSize (i + k))) →
  (∀ j, ¬ (lfs * max ≤ j < lfs * max + Z.of_nat (words_of sizeof_ptr)) →
     load b j = load (buffer s) j) →
  (∃ x, msg' = <[0%nat := x]> msg) →
  stuck max windowSize msg i (k + 1)
    (with_buffer b (with_lastFrameSent lfs (with_message msg' s))).
Proof.
  intros Hst Hk Hmax lfs Hlb Hcell Hout Hmsg.
  pose proof (Z.mod_pos_bound (i + k) slots ltac:(lia)) as Hlfs.
  assert (lfs = (i + k + 1) `mod` slots) as Elfs.
  { unfold lfs. by rewrite (stuck_lfs _ _ _ _ _ _ Hst), cmod_mod, ring_add_mod by lia. }
  split; simpl; [apply Hst|by rewrite Elfs, Z.add_assoc|by rewrite Hlb; apply Hst|done|].
  intros m Hm. destruct (decide (m = k + 1)) as [-> | Hne].
  - rewrite Z.add_assoc, <- Elfs, Hcell. do 3 f_equal. lia.
  - rewrite Hout; [apply Hst; lia|].
    pose proof (ring_ahead_neq (i + m) (k + 1 - m) slots ltac:(lia)) as Hslot.
    replace (i + m + (k + 1 - m)) with (i + k + 1) in Hslot by lia. rewrite <- Elfs in Hslot.
    destruct (Z.lt_total ((i + m) `mod` slots) lfs) as [?|[?|?]]; [nia|done|nia].
Qed.

(** An acknowledgment for the [m] oldest outstanding frames moves the
    trailing edge by [m] slots. *)
Lemma stuck_advanced k m s :
  stuck max windowSize msg i k s → 0 ≤ m ≤ k →
  stuck max windowSize msg (i + m) (k - m) (with_lastAckRec ((lastAckRec s + m) %% slots) s).
Proof.
  intros [Hlar Hlfs Hlb Hm Hheads] Hk. pose proof (Z.mod_pos_bound i slots ltac:(lia)).
  split; simpl; try done.
  - rewrite Hlar, cmod_mod by lia. apply ring_add_mod. lia.
  - rewrite Hlfs. f_equal; lia.
  - intros n Hn. replace (i + m + n) with (i + (m + n)) by lia. rewrite Hheads by lia.
    do 3 f_equal; lia.
Qed.

(** Lines 124-130 with [k] frames outstanding, on any transport: each
    of them is counted as retransmitted, and what is handed to [sendTo]
    are the first words of their slots as addresses. *)
Lemma retransmit_stuck {W : Type} {TW : Transport W} k s (w : W) :
  stuck max windowSize msg i k s → 0 ≤ k ≤ windowSize →
  ∃ s' w', retransmit_outstanding max windowSize s w = Done s' w' ∧ same_ring s s' ∧
    retrans s' = retrans s + k ∧ timeout s' = timeout s ∧
    ∀ P : W → Prop, (∀ v w0, P w0 → P (sock_sendTo (Wild v sizeof_ptr) w0)) → P w → P w'.
Proof.
  intros Hst Hk. unfold retransmit_outstanding.
  assert (outstanding windowSize s = k) as ->.
  { unfold outstanding. rewrite (stuck_lar _ _ _ _ _ _ Hst), (stuck_lfs _ _ _ _ _ _ Hst).
    pose proof (Z.mod_pos_bound i slots). pose proof (Z.mod_pos_bound (i + k) slots).
    rewrite cmod_mod by lia.
    replace ((i + k) `mod` slots - i `mod` slots + windowSize + 1)
      with ((i + k) `mod` slots - i `mod` slots + 1 * slots) by lia.
    rewrite Z_mod_plus_full, <- Zminus_mod, Z.mod_small; lia. }
  destruct (for_range_returns
              (λ j s1 w1, same_ring s s1 ∧ retrans s1 = retrans s + (j - 1) ∧
                 timeout s1 = timeout s ∧
                 ∀ P : W → Prop, (∀ v w0, P w0 → P (sock_sendTo (Wild v sizeof_ptr) w0)) →
                                 P w → P w1) 1 (k + 1)
              (resend_slot max windowSize) s w) as (s' & w' & Hrun & Hring & Hr & Ht & HP);
    [lia| |split_and!; [done|lia|done|auto]|exists s', w'; split_and!; [done|done|lia|done|done]].
  intros j s1 w1 Hj (Hring & Hr & Ht & HP). eexists _, _. split.
  - apply resend_slot_run, (stuck_slot k); [by eapply stuck_same_ring|lia].
  - simpl. split_and!; [|lia|done|intros P Hs ?; apply Hs; by apply HP].
    destruct Hring as (? & ? & ? & ?). by split_and!.
Qed.

(** Lines 139-145 with the frames from [i] on outstanding and room in
    the ring, on any transport: the frame is sent and its slot is
    written, so that one more frame is outstanding. *)
Lemma send_frame_stuck {W : Type} {TW : Transport W} k s (w : W) :
  words_of sizeof_int = 1%nat → (1 ≤ words_of sizeof_ptr ≤ length msg)%nat →
  Z.of_nat (words_of sizeof_ptr) ≤ max → 0 ≤ i →
  stuck max windowSize msg i k s → 0 ≤ k < windowSize →
  ∃ s', stuck max windowSize msg i (k + 1) s' ∧ retrans s' = retrans s ∧
    send_frame max windowSize (i + k) s w =
    Done s' (sock_sendTo (window_frame windowSize msg (i + k)) w).
Proof.
  intros Hint Hlen Hmax Hi Hst Hk. pose proof (stuck_cursors k s Hst) as [Hlar Hlfs].
  pose proof (stuck_message _ _ _ _ _ _ Hst) as [x Hx].
  destruct (send_frame_room Hint max windowSize msg (i + k) x s w)
    as (b & Hlb & Hcell & Hout & Hrun); [done|lia|done|done|done|apply Hst|done|].
  pose proof (stuck_sent k _ b (<[0%nat := seq_of windowSize (i + k)]> msg)
                Hst Hk Hmax Hlb Hcell Hout ltac:(by eexists)) as Hst'.
  eexists. split_and!; [exact Hst'|done|exact Hrun].
Qed.

(** The part of a message after the waiting loop: what is left when the
    frame is sent is the call of line 147, which finds the number of
    frame [i] in [buffer]. *)
Lemma send_tail_stuck {W : Type} {TW : Transport W} k s (w : W) :
  words_of sizeof_int = 1%nat → (1 ≤ words_of sizeof_ptr ≤ length msg)%nat →
  Z.of_nat (words_of sizeof_ptr) ≤ max → 0 ≤ i →
  stuck max windowSize msg i k s → 0 ≤ k < windowSize →
  ∃ s', stuck max windowSize msg i (k + 1) s' ∧ retrans s' = retrans s ∧
    load (buffer s') (slot_index max windowSize s' 1) = Some (Some (seq_of windowSize i)) ∧
    send_tail max windowSize (i + k) s w =
    advance_trailing_edge windowSize (slot_index max windowSize s' 1) s'
      (sock_sendTo (window_frame windowSize msg (i + k)) w).
Proof.
  intros Hint Hlen Hmax Hi Hst Hk.
  destruct (send_frame_stuck k s w Hint Hlen Hmax Hi Hst Hk) as (s' & Hst' & Hr & Hrun).
  pose proof (stuck_slot (k + 1) _ 1 Hst' ltac:(lia)) as Hhead.
  replace (i + 1 - 1) with i in Hhead by lia.
  exists s'. split_and!; [done..|]. by rewrite send_tail_frame, (bind_Done _ _ _ _ _ Hrun).
Qed.

(** Line 121 on such locals: the ring is full when [windowSize] frames
    are outstanding, on every transport. *)
Lemma window_full_outstanding {W : Type} k s (w : W) :
  stuck max windowSize msg i k s → 0 ≤ k ≤ windowSize →
  window_full windowSize s w = Done (bool_decide (k = windowSize)) w.
Proof.
  intros Hst Hk. rewrite window_full_run by lia.
  rewrite (stuck_lar _ _ _ _ _ _ Hst), (stuck_lfs _ _ _ _ _ _ Hst). f_equal.
  pose proof (Z.mod_pos_bound (i + k) slots ltac:(lia)).
  rewrite cmod_mod, ring_add_mod by lia. case_bool_decide as Hfull.
  - subst k. replace (i + windowSize + 1) with (i + 1 * slots) by lia.
    by rewrite Z_mod_plus_full, Z.eqb_refl.
  - apply Z.eqb_neq. pose proof (ring_ahead_neq i (k + 1) slots ltac:(lia)) as Hne.
    rewrite Z.add_assoc in Hne. intros Heq. by apply Hne.
Qed.

(** The index of line 135 is that of the slot of the oldest outstanding
    frame, unless the trailing edge is at the last slot: then it is the
    length of [buffer]. *)
Lemma stuck_unwrapped k s :
  stuck max windowSize msg i k s → 1 ≤ k → i `mod` slots ≠ windowSize →
  load (buffer s) (unwrapped_index max s) = Some (Some (seq_of windowSize i)).
Proof.
  intros Hst Hk Hlast. pose proof (Z.mod_pos_bound i slots ltac:(lia)).
  unfold unwrapped_index. rewrite (stuck_lar _ _ _ _ _ _ Hst).
  pose proof (stuck_heads _ _ _ _ _ _ Hst 1 ltac:(lia)) as Hh.
  rewrite <- (ring_add_mod i 1), Z.mod_small in Hh by lia.
  by replace (i + 1 - 1) with i in Hh by lia.
Qed.

Lemma stuck_unwrapped_last k s :
  stuck max windowSize msg i k s → i `mod` slots = windowSize →
  unwrapped_index max s = Z.of_nat (length (buffer s)).
Proof.
  intros Hst Hlast. unfold unwrapped_index.
  by rewrite (stuck_lar _ _ _ _ _ _ Hst), (stuck_length _ _ _ _ _ _ Hst), Hlast.
Qed.

(** Lines 122-134 on every transport: the outstanding frames are
    counted when the timer has run out, nothing but addresses is handed
    to the transport, and the call of [ackAdvance] follows. *)
Lemma wait_for_room_advance {W : Type} {TW : Transport W} k s (w : W) :
  stuck max windowSize msg i k s → 0 ≤ k ≤ windowSize →
  ∃ s1 w1, same_ring s s1 ∧
    retrans s1 = retrans s + (if MAX_TIME <? lapse (clock w).1 s then k else 0) ∧
    wait_for_room max windowSize s w =
      advance_trailing_edge windowSize (unwrapped_index max s1) s1 w1 ∧
    ∀ P : W → Prop, (∀ v w0, P w0 → P (sock_sendTo (Wild v sizeof_ptr) w0)) →
      (∀ w0, P w0 → P (clock w0).2) → P w → P w1.
Proof.
  intros Hst Hk. unfold wait_for_room, lapse. rewrite (bind_Done _ _ _ _ _ (timer_lap_run _ _)).
  destruct (MAX_TIME <? _).
  - destruct (retransmit_stuck k s (clock w).2 Hst Hk) as (s' & w' & Hrun & Hring & Hr & _ & Hw').
    exists (with_timeout {| startTime := (clock w').1 |} s'), (clock w').2.
    split_and!; [done|done|by rewrite bind_assoc, (bind_Done _ _ _ _ _ Hrun)|].
    intros P Hs Hc HP. apply Hc, Hw'; [done|]. by apply Hc.
  - exists s, (clock w).2. split_and!; [apply same_ring_refl|lia|done|].
    intros P _ Hc HP. by apply Hc.
Qed.

End stuck.

(** ** The sender on the wire *)

Section sender.
Context (Hbudget : (Z.to_nat windowSize + 1 ≤ budget)%nat).
Context (Hptr : (1 ≤ words_of sizeof_ptr)%nat) (Hint : words_of sizeof_int = 1%nat).
Context (max : Z) (msg : list Z) (i : Z) (Hi : 0 ≤ i).
Context (Hlen : (words_of sizeof_ptr ≤ length msg)%nat).
Context (Hmax : Z.of_nat (words_of sizeof_ptr) ≤ max).

(** An answer that names the oldest outstanding frame, or no answer at
    all: the trailing edge stays, and no answer is left. *)
Lemma advance_stale index s (w : Wire.wire (rstate * list Z)) v :
  load (buffer s) index = Some (Some v) → is_seq windowSize v → 0 ≤ lastAckRec s ≤ windowSize →
  Wire.plain w → Wire.answers w = [] ∨ Wire.answers w = [Words [v]] →
  ∃ w', advance_trailing_edge windowSize index s w = Done s w' ∧
    Wire.answers w' = [] ∧ Wire.far w' = Wire.far w ∧ Wire.plain w'.
Proof.
  intros Hv Hseq Hlar Hpl [Hans|Hans].
  all: pose proof (Wire.wait_plain 1 w (Wire.plain_flight _ Hpl)) as Hwait.
  - exists (Wire.wait 1 w). rewrite (advance_no_data Hint _ _ _ _ v Hv).
    + rewrite Z.add_0_r, cmod_small, with_lastAckRec_same by lia.
      split; [done|]. rewrite Hwait. by destruct Hpl.
    + simpl. rewrite Hans. by rewrite bool_decide_false by (by intros []).
  - exists (Wire.read (Wire.wait 1 w)).
    rewrite (advance_data Hint _ _ _ _ v v [] (Wire.read (Wire.wait 1 w)) Hv).
    + rewrite ack_distance_same, Z.add_0_r, cmod_small, with_lastAckRec_same by (done || lia).
      split; [done|]. rewrite Hwait. simpl. rewrite Hans. by destruct Hpl.
    + simpl. rewrite Hans. by rewrite bool_decide_true.
    + cbn [sock_pollRecvFrom sock_recvFrom Wire.wire_transport]. unfold Wire.poll. cbn [snd].
      rewrite (Wire.recv_answer 1 _ [v] []); [done|]. by rewrite Hwait.
Qed.

(** Message [i + k] while frame [i] is missing: its frame is sent, and
    the trailing edge stays where it is. *)
Lemma send_message_unanswered fuel k s (w : Wire.wire (rstate * list Z)) :
  stuck max windowSize msg i k s → 0 ≤ k < windowSize → awaits windowSize i w →
  (k = 0 → head (Wire.lost w) = Some true) →
  ∃ s' w', send_message (S fuel) max windowSize (i + k) s w = Done s' w' ∧
    stuck max windowSize msg i (k + 1) s' ∧ awaits windowSize i w' ∧ retrans s' = retrans s.
Proof.
  intros Hst Hk Haw Hlost. pose proof (stuck_cursors max msg i k s Hst) as [Hlar Hlfs].
  pose proof (stuck_message _ _ _ _ _ _ Hst) as [x Hx].
  destruct (frame_words_head windowSize msg (i + k) Hptr ltac:(lia)) as [d Hd].
  destruct (send_message_room Hint fuel max windowSize msg (i + k) x s w)
    as (b & Hlb & Hcell & Hout & ->); [done|lia|done| |done|done|apply Hst|done|].
  { pose proof (Z.mod_pos_bound (i + k) slots ltac:(lia)).
    rewrite (stuck_lar _ _ _ _ _ _ Hst), (stuck_lfs _ _ _ _ _ _ Hst), cmod_mod, ring_add_mod by lia.
    pose proof (ring_ahead_neq i (k + 1) slots ltac:(lia)) as Hne. by rewrite Z.add_assoc in Hne. }
  cbn [clock sock_sendTo Wire.wire_transport fst snd]. unfold window_frame.
  fold (frame_words windowSize msg (i + k)). rewrite Hd.
  destruct (awaits_send Hbudget Hptr i (i + k) d w Haw) as [Hmiss Hans];
    [destruct (decide (k = 0)); [left; auto|right; lia]|].
  set (w1 := Wire.send _ w) in *.
  assert (stuck max windowSize msg i k (with_timeout {| startTime := Wire.now w |} s)) as Hst0
    by by apply (stuck_same_ring max msg i k s).
  pose proof (stuck_sent max msg i k _ b (<[0%nat := seq_of windowSize (i + k)]> msg)
                Hst0 Hk Hmax Hlb Hcell Hout ltac:(by eexists)) as Hst'.
  pose proof (stuck_slot max msg i (k + 1) _ 1 Hst' ltac:(lia)) as Hhead.
  replace (i + 1 - 1) with i in Hhead by lia.
  destruct (advance_stale _ _ w1 _ Hhead) as (w' & Hadv & Hans' & Hfar & Hpl);
    [apply seq_of_is_seq; lia|apply (stuck_cursors max msg i (k + 1)), Hst'
    |apply Wire.plain_send, Haw|done|].
  eexists _, w'. split; [apply Hadv|]. split; [done|]. split; [|done].
  split; [done|by rewrite Hfar|done].
Qed.

(** ** The ring is full *)

(** The ring is full when the [windowSize] frames from [i] on are
    outstanding. *)
Lemma window_full_stuck s (w : Wire.wire (rstate * list Z)) :
  stuck max windowSize msg i windowSize s → window_full windowSize s w = Done true w.
Proof.
  intros Hst. rewrite window_full_run by lia.
  rewrite (stuck_lar _ _ _ _ _ _ Hst), (stuck_lfs _ _ _ _ _ _ Hst).
  pose proof (Z.mod_pos_bound (i + windowSize) slots ltac:(lia)).
  rewrite cmod_mod, ring_add_mod by lia.
  replace (i + windowSize + 1) with (i + 1 * slots) by lia.
  by rewrite Z_mod_plus_full, Z.eqb_refl.
Qed.

(** One turn of the waiting loop up to line 135: when the timer has
    run out the [windowSize] outstanding frames are retransmitted, which
    changes nothing on the wire, and the timer is started again. *)
Lemma wait_for_room_turn s (w : Wire.wire (rstate * list Z)) :
  stuck max windowSize msg i windowSize s →
  ∃ s1, turned windowSize (Wire.now w) s s1 ∧
    wait_for_room max windowSize s w =
    advance_trailing_edge windowSize (unwrapped_index max s1) s1 w.
Proof.
  intros Hst. unfold wait_for_room, turned, lapse.
  rewrite (bind_Done _ _ _ _ _ (timer_lap_run _ _)).
  cbn [clock Wire.wire_transport fst snd]. destruct (MAX_TIME <? _).
  - destruct (retransmit_stuck max msg i windowSize s w Hst ltac:(lia))
      as (s' & w' & Hrun & Hring & Hr & Ht & HP).
    assert (w' = w) as -> by (by apply HP; [intros ? ? ->|]).
    exists (with_timeout {| startTime := Wire.now w |} s').
    split; [split; [done|split; simpl; lia]|].
    by rewrite bind_assoc, (bind_Done _ _ _ _ _ Hrun).
  - exists s. split; [split; [apply same_ring_refl|split; lia]|done].
Qed.

(** The trailing edge is not at the last slot: line 135 reads the
    number of frame [i], no answer is there, a poll passes and the
    sender is where it was. *)
Lemma wait_for_room_quiet s (w : Wire.wire (rstate * list Z)) :
  stuck max windowSize msg i windowSize s → i `mod` slots < windowSize →
  Wire.answers w = [] →
  ∃ s', wait_for_room max windowSize s w = Done s' (Wire.wait 1 w) ∧
    stuck max windowSize msg i windowSize s' ∧ turned windowSize (Wire.now w) s s'.
Proof.
  intros Hst Hc Hans. destruct (wait_for_room_turn s w Hst) as (s1 & Hturn & ->).
  pose proof (stuck_same_ring max msg i _ _ _ (proj1 Hturn) Hst) as Hst1.
  pose proof (stuck_cursors max msg i _ s1 Hst1) as [Hlar _].
  pose proof (Z.mod_pos_bound i slots ltac:(lia)) as Hpos.
  assert (load (buffer s1) (unwrapped_index max s1) = Some (Some (seq_of windowSize i))) as Hv.
  { unfold unwrapped_index. rewrite (stuck_lar _ _ _ _ _ _ Hst1).
    pose proof (stuck_heads _ _ _ _ _ _ Hst1 1 ltac:(lia)) as Hh.
    rewrite <- (ring_add_mod i 1), Z.mod_small in Hh by lia.
    by replace (i + 1 - 1) with i in Hh by lia. }
  rewrite (advance_no_data Hint _ _ _ _ _ Hv) by (simpl; by rewrite Hans).
  rewrite Z.add_0_r, cmod_small, with_lastAckRec_same by lia. by exists s1.
Qed.

Lemma wait_for_room_stuck s (w : Wire.wire (rstate * list Z)) :
  stuck max windowSize msg i windowSize s → awaits windowSize i w →
  i `mod` slots < windowSize →
  ∃ s' w', wait_for_room max windowSize s w = Done s' w' ∧
    stuck max windowSize msg i windowSize s' ∧ awaits windowSize i w'.
Proof.
  intros Hst [Hans Hfar Hpl] Hc.
  destruct (wait_for_room_quiet s w Hst Hc Hans) as (s' & Hrun & Hst' & _).
  exists s', (Wire.wait 1 w). split_and!; [done..|].
  pose proof (Wire.plain_wait 1 w Hpl). rewrite Wire.wait_plain in * by apply Hpl. by split.
Qed.

(** The trailing edge is at the last slot: the index of line 135 is the
    length of [buffer]. *)
Lemma wait_for_room_overrun s (w : Wire.wire (rstate * list Z)) :
  stuck max windowSize msg i windowSize s → i `mod` slots = windowSize →
  wait_for_room max windowSize s w = Fault (OutOfBounds (slots * max)) w.
Proof.
  intros Hst Hc. destruct (wait_for_room_turn s w Hst) as (s1 & [Hring _] & ->).
  pose proof (stuck_same_ring max msg i _ _ _ Hring Hst) as Hst1.
  rewrite advance_out_of_bounds; unfold unwrapped_index;
    rewrite (stuck_lar _ _ _ _ _ _ Hst1), Hc; [done|].
  rewrite (stuck_length _ _ _ _ _ _ Hst1). lia.
Qed.

(** With the ring full and nothing to come on the wire, a message is
    never sent: the waiting loop does not end, or reads [buffer] at its
    length in its first turn. *)
Lemma send_message_silent fuel j s (w : Wire.wire (rstate * list Z)) :
  stuck max windowSize msg i windowSize s → Wire.answers w = [] → Wire.flight w = [] →
  ∃ w', send_message (S fuel) max windowSize j s w =
    if decide (i `mod` slots = windowSize) then Fault (OutOfBounds (slots * max)) w'
    else OutOfFuel w'.
Proof.
  intros Hst Hans Hfl. unfold send_message, send_tail.
  rewrite (bind_Done _ _ _ _ _ (timer_start_run _)). cbn [clock Wire.wire_transport fst snd].
  assert (stuck max windowSize msg i windowSize (with_timeout {| startTime := Wire.now w |} s))
    as Hst0 by by apply (stuck_same_ring max msg i windowSize s).
  pose proof (Z.mod_pos_bound i slots ltac:(lia)) as Hpos.
  destruct (decide (i `mod` slots = windowSize)) as [Hc|Hc].
  - exists w. apply bind_Fault.
    by rewrite while_do_S, window_full_stuck, wait_for_room_overrun.
  - destruct (while_do_diverges
                (λ s w, stuck max windowSize msg i windowSize s ∧
                        Wire.answers w = [] ∧ Wire.flight w = [])
                (S fuel) (window_full windowSize) (wait_for_room max windowSize)
                (with_timeout {| startTime := Wire.now w |} s) w)
      as (_ & w' & Hrun & _); [|done|exists w'; by apply bind_OutOfFuel].
    intros s1 w1 (Hs & Ha & Hf). exists w1.
    destruct (wait_for_room_quiet s1 w1 Hs ltac:(lia) Ha) as (s2 & ? & ? & _).
    exists s2, (Wire.wait 1 w1). split; [by apply window_full_stuck|].
    by rewrite Wire.wait_plain in * by done.
Qed.

(** Message [i + windowSize] is never sent. *)
Lemma send_message_stalls fuel s (w : Wire.wire (rstate * list Z)) :
  stuck max windowSize msg i windowSize s → awaits windowSize i w →
  ∃ w', send_message (S fuel) max windowSize (i + windowSize) s w =
    if decide (i `mod` slots = windowSize) then Fault (OutOfBounds (slots * max)) w'
    else OutOfFuel w'.
Proof. intros Hst [Hans _ Hpl]. apply send_message_silent; [done..|apply Hpl]. Qed.

End sender.

End after_loss.

(** The sender before the first message. *)
Lemma stuck_winit windowSize max msg :
  1 ≤ windowSize → 0 ≤ max → stuck max windowSize msg 0 0 (winit max msg windowSize).
Proof. intros. apply idle_stuck. rewrite Z.mod_0_l by lia. apply idle_winit. nia. Qed.

(** ** The sender after a loss *)

(** The session up to message [n], at most [windowSize] messages after
    the first frame the wire loses: the frames from [i] on are
    outstanding, nothing was retransmitted, and the far end misses
    frame [i]. *)
Lemma session_after_loss {PF : Platform} fuel budget max msg pmsg windowSize lost (i : nat) n :
  words_of sizeof_int = 1%nat → 1 ≤ windowSize →
  (1 ≤ words_of sizeof_ptr ≤ length msg)%nat → (words_of sizeof_ptr ≤ length pmsg)%nat →
  Z.of_nat (words_of sizeof_ptr) ≤ max → (Z.to_nat windowSize + 1 ≤ budget)%nat →
  lost !! i = Some true → (∀ k : nat, (k < i)%nat → lost !! k ≠ Some true) →
  Z.of_nat i ≤ n ≤ max → n ≤ Z.of_nat i + windowSize →
  ∃ s w, stuck max windowSize msg (Z.of_nat i) (n - Z.of_nat i) s ∧
    awaits windowSize (Z.of_nat i) w ∧ retrans s = 0 ∧
    for_range 0 max
      (send_message (TW := Wire.wire_transport (SV := window_server budget windowSize))
         (S fuel) max windowSize)
      (winit max msg windowSize) (Wire.start max (rinit windowSize, pmsg) lost) =
    for_range n max
      (send_message (TW := Wire.wire_transport (SV := window_server budget windowSize))
         (S fuel) max windowSize) s w.
Proof.
  intros Hint Hw [Hptr Hlen] Hplen Hmax Hbudget Hi Hfirst Hn Hnw.
  destruct (session_prefix windowSize Hw budget ltac:(lia) Hptr fuel max msg pmsg lost (Z.of_nat i))
    as (s & w & Hidle & Hstep & Hl & Hrun); [done|lia|done..|intros k ?; apply Hfirst; lia|].
  pose (I := λ (j : Z) (s : wstate) (w : Wire.wire (rstate * list Z)),
    stuck max windowSize msg (Z.of_nat i) (j - Z.of_nat i) s ∧ awaits windowSize (Z.of_nat i) w ∧
    retrans s = 0 ∧ (j = Z.of_nat i → head (Wire.lost w) = Some true)).
  destruct (for_range_upto I (Z.of_nat i) n max
              (send_message (TW := Wire.wire_transport (SV := window_server budget windowSize))
                 (S fuel) max windowSize) s w)
    as (s1 & w1 & (Hst & Haw & Hr & _) & Hrun1); [lia| | |].
  - intros j s0 w0 Hj (Hst & Haw & Hr & Hh).
    destruct (send_message_unanswered windowSize Hw budget Hbudget Hptr Hint max msg (Z.of_nat i)
                ltac:(lia) Hlen Hmax fuel (j - Z.of_nat i) s0 w0 Hst ltac:(lia) Haw)
      as (s' & w' & Hsend & Hst' & Haw' & Hr'); [intros; apply Hh; lia|].
    replace (Z.of_nat i + (j - Z.of_nat i)) with j in Hsend by lia.
    exists s', w'. split; [done|]. split_and!; [|done|congruence|intros; lia].
    by replace (j + 1 - Z.of_nat i) with (j - Z.of_nat i + 1) by lia.
  - split_and!.
    + rewrite Z.sub_diag. by apply idle_stuck.
    + eapply in_step_awaits; [done|lia|done].
    + apply Hidle.
    + intros _. by rewrite Hl, head_lookup, lookup_drop, Nat.add_0_r, Nat2Z.id.
  - exists s1, w1. split_and!; [done..|]. by etrans.
Qed.

(** C19: the window sender does not recover from a loss.  When frame [i]
    is the first that the wire loses and more than [windowSize] messages
    follow, [clientSlidingWindow] does not return, whatever the fuel: it
    sends the [windowSize - 1] frames after [i], each answered with the
    number of frame [i] when it arrives, and then waits for room in its
    ring while its retransmissions reach nobody; the run is cut short in
    the waiting loop of message [i + windowSize].  When the trailing
    edge is then at the last slot of the ring, the first turn of that
    loop reads [buffer] at its length (line 135) instead. *)
Theorem lost_frame_stalls {PF : Platform} fuel budget max msg pmsg windowSize lost (i : nat) :
  words_of sizeof_int = 1%nat → 1 ≤ windowSize →
  (1 ≤ words_of sizeof_ptr ≤ length msg)%nat → (words_of sizeof_ptr ≤ length pmsg)%nat →
  Z.of_nat (words_of sizeof_ptr) ≤ max → (Z.to_nat windowSize + 1 ≤ budget)%nat →
  lost !! i = Some true → (∀ k : nat, (k < i)%nat → lost !! k ≠ Some true) →
  Z.of_nat i + windowSize < max →
  ∃ w', clientSlidingWindow (TW := Wire.wire_transport (SV := window_server budget windowSize))
          (S fuel) max msg windowSize (Wire.start max (rinit windowSize, pmsg) lost) =
        if decide (Z.of_nat i `mod` (windowSize + 1) = windowSize)
        then Fault (OutOfBounds ((windowSize + 1) * max)) w' else OutOfFuel w'.
Proof.
  intros Hint Hw Hlen Hplen Hmax Hbudget Hi Hfirst Himax. unfold clientSlidingWindow.
  destruct (session_after_loss fuel budget max msg pmsg windowSize lost i
              (Z.of_nat i + windowSize) Hint Hw Hlen Hplen Hmax Hbudget Hi Hfirst)
    as (s & w & Hst & Haw & _ & Hrun); [lia..|].
  replace (Z.of_nat i + windowSize - Z.of_nat i) with windowSize in Hst by lia.
  destruct (send_message_stalls windowSize Hw budget Hbudget (proj1 Hlen) Hint max msg
              (Z.of_nat i) (proj2 Hlen) fuel s w Hst Haw) as (w' & Hstall).
  unfold far_server in Hstall.
  exists w'. destruct (decide _); [apply bind_Fault|apply bind_OutOfFuel];
    (etrans; [exact Hrun|]); by rewrite for_range_step, Hstall by lia.
Qed.

Lemma lost_frame_stalls_witness :
  ∃ w', clientSlidingWindow (PF := LP64)
          (TW := Wire.wire_transport (SV := window_server (PF := LP64) 3 2))
          1 5 [9; 9] 2 (Wire.start 5 (rinit 2, [0; 0]) [false; true]) =
        if decide (Z.of_nat 1 `mod` (2 + 1) = 2)
        then Fault (OutOfBounds ((2 + 1) * 5)) w' else OutOfFuel w'.
Proof.
  apply (lost_frame_stalls (PF := LP64) 0 3 5 [9; 9] [0; 0] 2 [false; true] 1);
    [done|lia|change (1 ≤ 2 ≤ 2)%nat; lia|change (2 ≤ 2)%nat; lia|change (2 ≤ 5); lia
    |simpl; lia|done|intros [|k]; [done|lia]|lia].
Defined.

(** The two ways the run ends, on runs: with a window of 2 and five
    messages, the loss of the second frame leaves the sender in its
    waiting loop, and the loss of the third takes it to the read of
    line 135 at index 15, the length of [buffer]. *)
Example lost_frame_runs :
  out_of_fuel (clientSlidingWindow (PF := LP64)
                 (TW := Wire.wire_transport (SV := window_server (PF := LP64) 3 2))
                 4000 5 [9; 9] 2 (Wire.start 5 (rinit 2, [0; 0]) [false; true])) ∧
  ∃ w', clientSlidingWindow (PF := LP64)
          (TW := Wire.wire_transport (SV := window_server (PF := LP64) 3 2))
          1 5 [9; 9] 2 (Wire.start 5 (rinit 2, [0; 0]) [false; false; true]) =
        Fault (OutOfBounds 15) w'.
Proof. split; [by vm_compute|eexists; by vm_compute]. Qed.

(** C26: a loss near the end goes unnoticed.  When frame [i] is the first
    that the wire loses and fewer than [windowSize] messages follow,
    [clientSlidingWindow] returns 0, the value it returns when nothing
    was lost, while the far end still misses frame [i]: the server is in
    its loop, and its locals represent a state of the specification
    whose first missing frame is [i]. *)
Theorem lost_frame_unnoticed {PF : Platform} fuel budget max msg pmsg windowSize lost (i : nat) :
  words_of sizeof_int = 1%nat → 1 ≤ windowSize →
  (1 ≤ words_of sizeof_ptr ≤ length msg)%nat → (words_of sizeof_ptr ≤ length pmsg)%nat →
  Z.of_nat (words_of sizeof_ptr) ≤ max → (Z.to_nat windowSize + 1 ≤ budget)%nat →
  lost !! i = Some true → (∀ k : nat, (k < i)%nat → lost !! k ≠ Some true) →
  Z.of_nat i < max ≤ Z.of_nat i + windowSize →
  ∃ w', clientSlidingWindow (TW := Wire.wire_transport (SV := window_server budget windowSize))
          (S fuel) max msg windowSize (Wire.start max (rinit windowSize, pmsg) lost) = Done 0 w' ∧
    misses windowSize (Z.of_nat i) (Wire.far w').
Proof.
  intros Hint Hw Hlen Hplen Hmax Hbudget Hi Hfirst Himax. unfold clientSlidingWindow.
  destruct (session_after_loss fuel budget max msg pmsg windowSize lost i max
              Hint Hw Hlen Hplen Hmax Hbudget Hi Hfirst)
    as (s & w & Hst & Haw & Hr & Hrun); [lia..|].
  rewrite (for_range_empty max max) in Hrun by lia.
  exists w. split; [|apply Haw]. rewrite (bind_Done _ _ _ _ _ Hrun). simpl. by rewrite Hr.
Qed.

Lemma lost_frame_unnoticed_witness :
  ∃ w', clientSlidingWindow (PF := LP64)
          (TW := Wire.wire_transport (SV := window_server (PF := LP64) 3 2))
          1 3 [9; 9] 2 (Wire.start 3 (rinit 2, [0; 0]) [false; true]) = Done 0 w' ∧
    misses (PF := LP64) 2 (Z.of_nat 1) (Wire.far w').
Proof.
  apply (lost_frame_unnoticed (PF := LP64) 0 3 3 [9; 9] [0; 0] 2 [false; true] 1);
    [done|lia|change (1 ≤ 2 ≤ 2)%nat; lia|change (2 ≤ 2)%nat; lia|change (2 ≤ 3); lia
    |simpl; lia|done|intros [|k]; [done|lia]|lia].
Defined.

(** ** Every session *)

(** What [clientSlidingWindow] returns in a session.  On a wire that
    loses frames and delays nothing, against the loop of
    [serverEarlyRetrans], the count of retransmissions that
    [clientSlidingWindow] returns is 0 whatever the wire loses and
    whatever the fuel: when no frame is lost nothing is retransmitted,
    and after a loss the function returns before its ring is full or
    does not return at all. *)
Theorem session_returns_zero {PF : Platform} fuel budget max msg pmsg windowSize lost r w' :
  words_of sizeof_int = 1%nat → 1 ≤ windowSize →
  (1 ≤ words_of sizeof_ptr ≤ length msg)%nat → (words_of sizeof_ptr ≤ length pmsg)%nat →
  Z.of_nat (words_of sizeof_ptr) ≤ max → (Z.to_nat windowSize + 1 ≤ budget)%nat →
  clientSlidingWindow (TW := Wire.wire_transport (SV := window_server budget windowSize))
    fuel max msg windowSize (Wire.start max (rinit windowSize, pmsg) lost) = Done r w' →
  r = 0.
Proof.
  intros Hint Hw Hlen Hplen Hmax Hbudget Hrun. unfold clientSlidingWindow in Hrun.
  apply bind_inv_Done in Hrun as (s0 & w0 & Hfor & [= <- _]). destruct fuel as [|fuel].
  { rewrite for_range_step in Hfor by lia. unfold send_message, send_tail in Hfor.
    by rewrite (bind_Done _ _ _ _ _ (timer_start_run _)) in Hfor. }
  destruct (first_loss lost (Z.to_nat max)) as [Hnone | (i & Hi & Hl & Hfirst)].
  - destruct (session_prefix windowSize Hw budget ltac:(lia) (proj1 Hlen) fuel max msg pmsg lost max)
      as (s & w & (_ & _ & Hr & _) & _ & _ & Hpre);
      [done|lia|apply Hlen|done..|intros k ?; apply Hnone; lia|].
    unfold the_server in Hpre. rewrite Hpre, (for_range_empty max max) in Hfor by lia. congruence.
  - pose proof (session_after_loss fuel budget max msg pmsg windowSize lost i) as Hafter.
    destruct (decide (Z.of_nat i + windowSize < max)) as [Hfar | Hnear].
    + destruct (Hafter (Z.of_nat i + windowSize) Hint Hw Hlen Hplen Hmax Hbudget Hl Hfirst)
        as (s & w & Hst & Haw & Hr & Hpre); [lia..|]. rewrite Hpre in Hfor.
      replace (Z.of_nat i + windowSize - Z.of_nat i) with windowSize in Hst by lia.
      destruct (send_message_stalls windowSize Hw budget Hbudget (proj1 Hlen) Hint max msg
                  (Z.of_nat i) (proj2 Hlen) fuel s w Hst Haw) as (w1 & Hstall).
      unfold far_server in Hstall. rewrite for_range_step, Hstall in Hfor by lia.
      by destruct (decide _).
    + destruct (Hafter max Hint Hw Hlen Hplen Hmax Hbudget Hl Hfirst)
        as (s & w & _ & _ & Hr & Hpre); [lia..|].
      rewrite Hpre, (for_range_empty max max) in Hfor by lia. congruence.
Qed.

Lemma session_returns_zero_witness :
  match clientSlidingWindow (PF := LP64)
          (TW := Wire.wire_transport (SV := window_server (PF := LP64) 3 2))
          1 3 [9; 9] 2 (Wire.start 3 (rinit 2, [0; 0]) [false; true]) with
  | Done r _ => r = 0
  | _ => False
  end.
Proof.
  destruct (clientSlidingWindow _ _ _ _ _) as [r w'| | |] eqn:E; [|by vm_compute in E..].
  apply (session_returns_zero (PF := LP64) 1 3 3 [9; 9] [0; 0] 2 [false; true] r w');
    [done|lia|change (1 ≤ 2 ≤ 2)%nat; lia|change (2 ≤ 2)%nat; lia|change (2 ≤ 3); lia
    |simpl; lia|exact E].
Defined.
