(* ===== verification/SenderSpec.v ===== *)
(** * What the window sender promises

    [clientSlidingWindow] keeps a window of frames that were sent and not
    yet acknowledged.  On frame numbers, not sequence numbers, its state
    is two counters ([Module WSSpec]): the first frame that is not
    acknowledged and the next frame to send.  A frame is sent when fewer
    than [windowSize] are outstanding; an acknowledgment that names frame
    [n] as the next expected acknowledges every frame before [n], when
    [n] is among the outstanding frames or the one to send next, and is
    ignored when it is stale.  As a transition system ([step], [reach])
    the specification keeps the window bound and never moves a counter
    back.

    [holds_window] relates the locals of the code to such a state: it is
    [stuck] of [WindowLoss.v], the cursors at the slots of the two
    counters and the sequence number of each outstanding frame at the
    head of its slot.  The refinement is stated for the two halves of a
    pass of the loop, on every transport that keeps the laws of
    [Transport.v].  After the waiting loop (lines 138-148,
    [send_tail_refines]) the frame of the next message is sent, the step
    [send].  In a turn of the waiting loop (lines 122-136,
    [wait_for_room_refines]) the outstanding frames are counted as
    retransmitted when the timer has run out, and the read of line 135
    leaves [buffer] when the trailing edge is at the last slot.  Both
    end in a call of [ackAdvance], whose outcomes [reads] lists: nothing
    is read; an acknowledgment is read and the locals take the step
    [ack] for it when it is in reach; an empty datagram is read, which
    leaves [recAckNum] without a value. *)

From stdpp Require Import prelude.
From S2P Require Import Prelude Transport SeqRing AckAdvance WindowSender WindowLoss.

#[local] Open Scope Z_scope.
#[local] Open Scope cint_scope.

Module WSSpec.

(** Frames below [acked] are acknowledged, frames below [next] are sent. *)
Record astate : Type := { acked : Z; next : Z }.

Definition outstanding (σ : astate) : Z := next σ - acked σ.

Definition wf (windowSize : Z) (σ : astate) : Prop :=
  0 ≤ acked σ ≤ next σ ∧ outstanding σ ≤ windowSize.

(** The next frame is sent. *)
Definition send (σ : astate) : astate := {| acked := acked σ; next := next σ + 1 |}.

(** An acknowledgment arrives that names frame [n] as the next the
    receiver expects. *)
Definition ack (n : Z) (σ : astate) : astate :=
  if decide (acked σ < n ≤ next σ) then {| acked := n; next := next σ |} else σ.

(** The acknowledgments the sender tells apart: those of the
    outstanding frames, and the stale ones up to [windowSize] behind. *)
Definition in_reach (windowSize : Z) (σ : astate) (n : Z) : Prop :=
  acked σ - windowSize ≤ n ≤ next σ.

Lemma wf_send windowSize σ : wf windowSize σ → outstanding σ < windowSize → wf windowSize (send σ).
Proof. unfold wf, outstanding, send. simpl. lia. Qed.

Lemma wf_ack windowSize n σ : wf windowSize σ → wf windowSize (ack n σ).
Proof. unfold wf, outstanding, ack. destruct (decide _); simpl; lia. Qed.

Lemma outstanding_ack n σ : outstanding (ack n σ) ≤ outstanding σ.
Proof. unfold outstanding, ack. destruct (decide _); simpl; lia. Qed.

(** The specification as a transition system: a frame is sent when
    there is room in the window, and an acknowledgment may arrive at any
    time and name any frame. *)
Inductive label : Type := Sent (j : Z) | Acked (n : Z).

Inductive step (windowSize : Z) : astate → label → astate → Prop :=
  | step_send σ : outstanding σ < windowSize → step windowSize σ (Sent (next σ)) (send σ)
  | step_ack σ n : step windowSize σ (Acked n) (ack n σ).

Definition init : astate := {| acked := 0; next := 0 |}.

Definition reach (windowSize : Z) : astate → astate → Prop :=
  rtc (λ σ σ', ∃ l, step windowSize σ l σ').

Lemma step_wf windowSize σ l σ' : wf windowSize σ → step windowSize σ l σ' → wf windowSize σ'.
Proof. intros Hwf Hstep. destruct Hstep; [by apply wf_send|by apply wf_ack]. Qed.

(** Neither counter ever goes back. *)
Lemma step_mono windowSize σ l σ' :
  step windowSize σ l σ' → acked σ ≤ acked σ' ∧ next σ ≤ next σ'.
Proof. destruct 1; unfold send, ack; [|destruct (decide _)]; simpl; lia. Qed.

(** The window bound: whatever is acknowledged and whenever, no more
    than [windowSize] frames are outstanding, and no frame is
    acknowledged before it is sent. *)
Theorem reach_wf windowSize σ : 0 ≤ windowSize → reach windowSize init σ → wf windowSize σ.
Proof.
  intros Hw. apply (rtc_ind_r (λ σ, wf windowSize σ)).
  - unfold wf, outstanding, init. simpl. lia.
  - intros σ1 σ2 _ [l Hstep] Hwf. by eapply step_wf.
Qed.

Theorem reach_mono windowSize σ σ' :
  reach windowSize σ σ' → acked σ ≤ acked σ' ∧ next σ ≤ next σ'.
Proof.
  induction 1 as [|σ1 σ2 σ3 [l Hstep%step_mono] _ IH]; lia.
Qed.

End WSSpec.

Import WSSpec.

(** The locals of [clientSlidingWindow] hold the window of a state of
    the specification. *)
Definition holds_window (max windowSize : Z) (msg : list Z) (s : wstate) (σ : astate) : Prop :=
  stuck max windowSize msg (acked σ) (outstanding σ) s.

Lemma holds_window_winit windowSize max msg :
  1 ≤ windowSize → 0 ≤ max →
  holds_window max windowSize msg (winit max msg windowSize) init.
Proof. intros. by apply stuck_winit. Qed.

Section refinement.
Context {W : Type} {TW : Transport W} {PF : Platform}.
Context (Hint : words_of sizeof_int = 1%nat).
Context (windowSize : Z) (Hw : 1 ≤ windowSize) (max : Z) (msg : list Z).

#[local] Abbreviation slots := (windowSize + 1).

(** The distance [ackAdvance] computes for an acknowledgment in reach
    is the step of the specification. *)
Lemma ack_distance_in_reach σ n :
  wf windowSize σ → in_reach windowSize σ n →
  acked σ + ack_distance (seq_of windowSize n) (seq_of windowSize (acked σ)) windowSize =
  acked (ack n σ).
Proof.
  unfold wf, in_reach, outstanding, ack. intros Hwf Hn. destruct (decide _) as [Ha|Ha]; simpl.
  - pose proof (ack_distance_exact windowSize (acked σ) (n - acked σ)) as He.
    replace (acked σ + (n - acked σ)) with n in He by lia. rewrite He; lia.
  - pose proof (ack_distance_stale windowSize (acked σ) (acked σ - n)) as Hs.
    replace (acked σ - (acked σ - n)) with n in Hs by lia. rewrite Hs; lia.
Qed.

(** Lines 147-148 (and 135-136 while the trailing edge is not at the
    last slot) when an acknowledgment is read. *)
Lemma advance_refines index s σ (w : W) v rest w' :
  holds_window max windowSize msg s σ → wf windowSize σ →
  load (buffer s) index = Some (Some (seq_of windowSize (acked σ))) →
  0 < (sock_pollRecvFrom w).1 → sock_recvFrom 1 (sock_pollRecvFrom w).2 = Some (v :: rest, w') →
  ∃ s', advance_trailing_edge windowSize index s w = Done s' w' ∧ retrans s' = retrans s ∧
    ∀ n, v = seq_of windowSize n → in_reach windowSize σ n →
      holds_window max windowSize msg s' (ack n σ).
Proof.
  intros Hrep Hwf Hhead Hpoll Hrecv. rewrite (advance_data Hint _ _ _ _ _ _ _ _ Hhead Hpoll Hrecv).
  eexists. split; [done|]. split; [done|]. intros n -> Hn.
  pose proof (ack_distance_in_reach σ n Hwf Hn) as Hd. unfold holds_window.
  set (d := ack_distance _ _ _) in *. pose proof (outstanding_ack n σ) as Hout.
  assert (0 ≤ d ≤ outstanding σ) as Hdk.
  { unfold wf, in_reach, outstanding, ack in *.
    destruct (decide (acked σ < n ≤ next σ)); simpl in *; lia. }
  pose proof (stuck_advanced windowSize Hw max msg _ _ d s Hrep Hdk) as Hadv.
  rewrite Hd in Hadv. replace (outstanding σ - d) with (outstanding (ack n σ)) in Hadv; [done|].
  unfold outstanding, ack in *. destruct (decide (acked σ < n ≤ next σ)); simpl in *; lia.
Qed.

(** The step [send] on the locals. *)
Lemma holds_window_send s σ :
  stuck max windowSize msg (acked σ) (outstanding σ + 1) s →
  holds_window max windowSize msg s (send σ).
Proof.
  unfold holds_window, outstanding, send. simpl.
  by replace (next σ + 1 - acked σ) with (next σ - acked σ + 1) by lia.
Qed.

(** What a call of [ackAdvance] in the world [w], with the locals [s]
    that represent [σ], makes of the outcome [o] of the code around it:
    nothing is there to read and the locals stay; or an empty datagram is
    read and [recAckNum] is used without a value; or an acknowledgment is
    read and the locals take the step [ack] for it when it is in reach. *)
Definition reads (o : outcome W wstate) (s : wstate) (σ : astate) (w : W) : Prop :=
  if decide (0 < (sock_pollRecvFrom w).1) then
    ∃ ws w', sock_recvFrom 1 (sock_pollRecvFrom w).2 = Some (ws, w') ∧
      match ws with
      | [] => o = Fault Indeterminate w'
      | v :: _ =>
          ∃ s', o = Done s' w' ∧ retrans s' = retrans s ∧
            ∀ n, v = seq_of windowSize n → in_reach windowSize σ n →
              holds_window max windowSize msg s' (ack n σ)
      end
  else o = Done s (sock_pollRecvFrom w).2.

Lemma advance_reads `{!TransportLaws W} index s σ (w : W) :
  holds_window max windowSize msg s σ → wf windowSize σ →
  load (buffer s) index = Some (Some (seq_of windowSize (acked σ))) →
  reads (advance_trailing_edge windowSize index s w) s σ w.
Proof.
  intros Hrep Hwf Hhead. unfold reads. destruct (decide _) as [Hp|Hp].
  - destruct (poll_ready w 1%nat Hp) as [[ws w'] Hrecv]. exists ws, w'. split; [done|].
    destruct ws as [|v rest]; [by apply (advance_empty_datagram Hint _ _ _ _ _ _ Hhead)|].
    by apply (advance_refines _ _ _ _ _ rest).
  - rewrite (advance_no_data Hint _ _ _ _ _ Hhead) by lia.
    pose proof (stuck_cursors windowSize Hw max msg _ _ s Hrep) as [Hlar _].
    by rewrite Z.add_0_r, cmod_small, with_lastAckRec_same by lia.
Qed.

(** C10: lines 138-148 with room in the ring, on any transport that keeps
    its laws: the frame of the next message is sent and its slot
    written, which is the step [send]; then [ackAdvance] is called on the
    number of the oldest outstanding frame. *)
Theorem send_tail_refines `{!TransportLaws W} s σ (w : W) :
  (1 ≤ words_of sizeof_ptr ≤ length msg)%nat → Z.of_nat (words_of sizeof_ptr) ≤ max →
  holds_window max windowSize msg s σ → wf windowSize σ → outstanding σ < windowSize →
  ∃ s1, holds_window max windowSize msg s1 (send σ) ∧ retrans s1 = retrans s ∧
    reads (send_tail max windowSize (next σ) s w) s1 (send σ)
      (sock_sendTo (window_frame windowSize msg (next σ)) w).
Proof.
  intros Hlen Hmax Hrep Hwf Hroom. pose proof Hwf as [Ha Hk].
  destruct (send_tail_stuck windowSize Hw max msg (acked σ) (outstanding σ) s w Hint Hlen Hmax)
    as (s1 & Hst1%holds_window_send & Hr1 & Hhead & Hrun); [lia|done|unfold outstanding in *; lia|].
  replace (acked σ + outstanding σ) with (next σ) in Hrun by (unfold outstanding; lia).
  exists s1. rewrite Hrun. split_and!; [done..|]. apply advance_reads; [done| |done].
  by apply wf_send.
Qed.

(** C11: lines 122-136 with the ring full, on any transport that keeps its
    laws: the outstanding frames are counted as retransmitted when the
    timer has run out, which is no step of the specification; then
    [ackAdvance] is called on the number of the oldest outstanding frame,
    unless the trailing edge is at the last slot, where the index of line
    135 is the length of [buffer]. *)
Theorem wait_for_room_refines `{!TransportLaws W} s σ (w : W) :
  holds_window max windowSize msg s σ → wf windowSize σ → outstanding σ = windowSize →
  ∃ s1 w1, same_ring s s1 ∧
    retrans s1 = retrans s + (if MAX_TIME <? lapse (clock w).1 s then windowSize else 0) ∧
    if decide (acked σ `mod` slots = windowSize)
    then wait_for_room max windowSize s w = Fault (OutOfBounds (slots * max)) w1
    else reads (wait_for_room max windowSize s w) s1 σ w1.
Proof.
  intros Hrep Hwf Hfull. unfold holds_window in Hrep. rewrite Hfull in Hrep.
  destruct (wait_for_room_advance windowSize Hw max msg _ _ s w Hrep ltac:(lia))
    as (s1 & w1 & Hring & Hr & -> & _).
  pose proof (stuck_same_ring windowSize max msg _ _ _ _ Hring Hrep) as Hrep1.
  pose proof (Z.mod_pos_bound (acked σ) slots ltac:(lia)) as Hpos.
  exists s1, w1. split_and!; [done..|]. destruct (decide _) as [Hlast|Hlast].
  - pose proof (stuck_unwrapped_last windowSize max msg _ _ _ Hrep1 Hlast) as Hix.
    rewrite advance_out_of_bounds by lia. rewrite Hix, (stuck_length _ _ _ _ _ _ Hrep1). done.
  - apply advance_reads; [unfold holds_window; by rewrite Hfull|done|].
    apply (stuck_unwrapped windowSize Hw max msg _ _ _ Hrep1); [lia|done].
Qed.

End refinement.

Lemma send_tail_refines_witness :
  ∃ s1, holds_window 3 2 [9; 9] s1 (send {| acked := 0; next := 0 |}) ∧
    retrans s1 = retrans (winit 3 [9; 9] 2) ∧
    reads 2 3 [9; 9]
      (send_tail (PF := LP64) 3 2 0 (winit 3 [9; 9] 2) (SimNet.start [(0, [1])]))
      s1 (send {| acked := 0; next := 0 |})
      (sock_sendTo (window_frame (PF := LP64) 2 [9; 9] 0) (SimNet.start [(0, [1])])).
Proof.
  apply (send_tail_refines (PF := LP64) (TransportLaws0 := SimNet.net_laws) eq_refl 2 ltac:(lia)
           3 [9; 9] (winit 3 [9; 9] 2) {| acked := 0; next := 0 |}
           (SimNet.start [(0, [1])]));
    [change (1 ≤ 2 ≤ 2)%nat; lia|change (2 ≤ 3); lia|apply holds_window_winit; lia
    |unfold wf, outstanding; simpl; lia|unfold outstanding; simpl; lia].
Defined.

(** The ring of a window of 2 is full with the frames 0 and 1. *)
Definition full_ring : wstate :=
  {| retrans := 0; lastAckRec := 0; lastFrameSent := 2; timeout := {| startTime := 0 |};
     buffer := [None; None; None; Some 0; Some 9; None; Some 1; Some 9; None];
     message := [1; 9] |}.

Lemma full_ring_holds : holds_window 3 2 [9; 9] full_ring {| acked := 0; next := 2 |}.
Proof.
  split; simpl; [done|done|done|by exists 1|].
  intros m Hm. assert (m = 1 ∨ m = 2) as [-> | ->] by (unfold outstanding in Hm; simpl in Hm; lia); done.
Qed.

Lemma wait_for_room_refines_witness :
  ∃ s1 w1, same_ring full_ring s1 ∧
    retrans s1 = retrans full_ring +
      (if MAX_TIME <? lapse (clock (SimNet.start [(0, [1])])).1 full_ring then 2 else 0) ∧
    if decide (acked {| acked := 0; next := 2 |} `mod` (2 + 1) = 2)
    then wait_for_room (PF := LP64) 3 2 full_ring (SimNet.start [(0, [1])]) =
           Fault (OutOfBounds ((2 + 1) * 3)) w1
    else reads 2 3 [9; 9] (wait_for_room (PF := LP64) 3 2 full_ring (SimNet.start [(0, [1])]))
           s1 {| acked := 0; next := 2 |} w1.
Proof.
  apply (wait_for_room_refines (PF := LP64) (TransportLaws0 := SimNet.net_laws) eq_refl 2
           ltac:(lia) 3 [9; 9] full_ring {| acked := 0; next := 2 |} (SimNet.start [(0, [1])]));
    [apply full_ring_holds|unfold wf, outstanding; simpl; lia|done].
Defined.
