(* ===== verification/WindowLatency.v ===== *)
(** * The window session on a wire that delays

    The acknowledgment of a frame takes the time [latency] to reach the
    sender, a poll of the sender one unit of time, and nothing is lost.
    [pipeline] is the session between two messages: the receiver has read
    the frames of the messages so far, in order, and the acknowledgments
    of the frames from [a] on are queued for the sender, on their way or
    there to be read ([Wire.queued]); [stuck], of [WindowLoss.v], is the
    sender with these frames outstanding.

    Each message is one of two steps: the frame is sent and line 147
    finds nothing to read ([send_tail_quiet]), or it reads the
    acknowledgment of the oldest outstanding frame ([send_tail_read]).
    While the latency is smaller than the window the ring never fills:
    the sender returns 0, and it returns before the acknowledgments of
    the last frames have arrived.  When the latency is the window or more
    the ring fills at message [windowSize], the waiting loop reads the
    first acknowledgment, and [windowSize] messages later the sender
    waits with the trailing edge at the last slot: line 135 reads
    [buffer] at its length ([late] is the session between these two
    waits).  With no more than [2 * windowSize] messages the second wait
    is not reached and the sender returns; it has counted [windowSize]
    retransmissions for every [MAX_TIME + 1] polls of its one wait. *)

From stdpp Require Import prelude.
From S2P Require Import Prelude Transport Peer SeqRing AckAdvance WindowReceiver.
From S2P Require Import WindowSender WindowSession WindowLoss.

#[local] Open Scope Z_scope.
#[local] Open Scope cint_scope.

(** ** The queue of acknowledgments *)

(** The acknowledgment of frame [k]: the number of the next frame. *)
Definition ack_of (windowSize k : Z) : datagram := Words [seq_of windowSize (k + 1)].

(** The acknowledgments of [n] frames from [a] on, each sent at the time
    that is the index of its frame. *)
Definition acks_at (windowSize latency a n : Z) : list (Z * datagram) :=
  (λ k, (k + latency, ack_of windowSize k)) <$> seqZ a n.

(** Between two messages: the receiver waits for frame [j], and the
    acknowledgments of the frames [a] to [j - 1] have not been read. *)
Record pipeline {PF : Platform} (windowSize max : Z) (msg : list Z) (a j : Z)
    (acks : list (Z * datagram)) (w : Wire.wire (rstate * list Z)) : Prop := {
  pipe_goal : Wire.goal w = max;
  pipe_far : on_frame windowSize msg j (Wire.far w);
  pipe_delivered : Wire.delivered w = frame_words windowSize msg <$> seqZ 0 j;
  pipe_acks : acks.*2 = ack_of windowSize <$> seqZ a (j - a);
  pipe_queued : Wire.queued acks w;
  pipe_lost : Wire.lost w = [];
  pipe_dropped : Wire.dropped w = [];
  pipe_latency : 0 < Wire.latency w
}.

Lemma acks_at_cons windowSize latency a n :
  0 < n →
  acks_at windowSize latency a n =
  (a + latency, ack_of windowSize a) :: acks_at windowSize latency (a + 1) (n - 1).
Proof. intros Hn. unfold acks_at. by rewrite seqZ_cons by lia. Qed.

Lemma acks_at_snoc windowSize latency a n :
  0 ≤ n →
  acks_at windowSize latency a (n + 1) =
  acks_at windowSize latency a n ++ [(a + n + latency, ack_of windowSize (a + n))].
Proof. intros Hn. unfold acks_at. by rewrite seqZ_app, fmap_app by lia. Qed.

Lemma acks_at_values windowSize latency a n :
  (acks_at windowSize latency a n).*2 = ack_of windowSize <$> seqZ a n.
Proof. unfold acks_at. by rewrite <- list_fmap_compose. Qed.

Section latency.
Context {PF : Platform} (windowSize : Z) (Hw : 1 ≤ windowSize).
Context (budget : nat) (Hbudget : (Z.to_nat windowSize + 1 ≤ budget)%nat).
Context (Hptr : (1 ≤ words_of sizeof_ptr)%nat) (Hint : words_of sizeof_int = 1%nat).
Context (max : Z) (msg : list Z) (Hlen : (words_of sizeof_ptr ≤ length msg)%nat).
Context (Hmax : Z.of_nat (words_of sizeof_ptr) ≤ max).

#[local] Instance far_end : Server (rstate * list Z) := window_server budget windowSize.
#[local] Abbreviation slots := (windowSize + 1).

Implicit Types w : Wire.wire (rstate * list Z).

Lemma pipeline_launch pmsg latency :
  0 < latency → (words_of sizeof_ptr ≤ length pmsg)%nat →
  pipeline windowSize max msg 0 0 [] (Wire.launch max (rinit windowSize, pmsg) [] [] latency).
Proof. intros Hlat Hpm. split; simpl; [done|by apply on_frame_waiting|done..]. Qed.

(** Time passes. *)
Lemma pipeline_wait n a j acks w :
  0 ≤ n → pipeline windowSize max msg a j acks w →
  pipeline windowSize max msg a j acks (Wire.wait n w).
Proof. intros Hn []. split; simpl; try done. by apply Wire.queued_wait. Qed.

(** The frame of message [j] is sent: the receiver counts the message,
    and its acknowledgment joins the queue. *)
Lemma pipeline_send a j d acks w :
  pipeline windowSize max msg a j acks w → 0 ≤ a ≤ j → j < max →
  seq_of windowSize j :: d = frame_words windowSize msg j →
  pipeline windowSize max msg a (j + 1)
    (acks ++ [(Wire.now w + Wire.latency w, ack_of windowSize j)])
    (Wire.send (Words (seq_of windowSize j :: d)) w).
Proof.
  intros [Hgoal Hfar Hdel Hacks Hq Hlost Hdrop Hlat] Ha Hj Hd.
  destruct (hear_on_frame windowSize Hw budget ltac:(lia) Hptr max msg j d (Wire.far w))
    as (p' & Hhear & Hfar'); [done|lia|done|done|].
  rewrite <- Hgoal in Hhear. unfold the_server in Hhear.
  rewrite Wire.send_deliver by by rewrite Hlost. unfold far_end.
  split; simpl; [done|by rewrite Hhear| | |apply Wire.queued_deliver; by rewrite ?Hhear
                |by rewrite Hlost|by rewrite Hhear, Hdrop|done].
  - by rewrite Hdel, Hd, seqZ_app, fmap_app by lia.
  - rewrite fmap_app, Hacks. replace (j + 1 - a) with (j - a + 1) by lia.
    rewrite seqZ_app, fmap_app by lia. simpl. do 4 f_equal. lia.
Qed.

(** The first acknowledgment of the queue is read. *)
Lemma pipeline_read a j due d acks w :
  pipeline windowSize max msg a j ((due, d) :: acks) w → due ≤ Wire.now w → a < j →
  d = ack_of windowSize a ∧ Wire.answers w = d :: landed (Wire.now w) acks ∧
  pipeline windowSize max msg (a + 1) j acks (Wire.read w).
Proof.
  intros [Hgoal Hfar Hdel Hacks Hq Hlost Hdrop Hlat] Hdue Ha.
  destruct (Wire.queued_read due d acks w Hq Hdue) as [Hans Hq'].
  rewrite seqZ_cons in Hacks by lia. injection Hacks as -> Hacks.
  split; [done|]. split; [done|]. split; [done..| |done|done|done|done].
  etrans; [exact Hacks|]. f_equal. f_equal; lia.
Qed.

(** ** One message *)

(** The oldest outstanding frame is acknowledged. *)
Lemma stuck_acked a k s :
  stuck max windowSize msg a (k + 1) s → 0 ≤ k →
  stuck max windowSize msg (a + 1) k (with_lastAckRec ((lastAckRec s + 1) %% slots) s).
Proof.
  intros Hst Hk. pose proof (stuck_advanced windowSize Hw max msg a (k + 1) 1 s Hst ltac:(lia)) as H.
  by replace (k + 1 - 1) with k in H by lia.
Qed.

(** The frame of the message is sent and its slot written: what is left
    of the body is the call of line 147, which finds the number of the
    oldest outstanding frame in [buffer]. *)
Lemma send_tail_sent a k acks s w :
  stuck max windowSize msg a k s → 0 ≤ a → 0 ≤ k < windowSize → a + k < max →
  pipeline windowSize max msg a (a + k) acks w →
  ∃ s' w1, stuck max windowSize msg a (k + 1) s' ∧ retrans s' = retrans s ∧
    load (buffer s') (slot_index max windowSize s' 1) = Some (Some (seq_of windowSize a)) ∧
    pipeline windowSize max msg a (a + k + 1)
      (acks ++ [(Wire.now w + Wire.latency w, ack_of windowSize (a + k))]) w1 ∧
    Wire.now w1 = Wire.now w ∧ Wire.latency w1 = Wire.latency w ∧
    send_tail max windowSize (a + k) s w =
    advance_trailing_edge windowSize (slot_index max windowSize s' 1) s' w1.
Proof.
  intros Hst Ha Hk Hj Hpipe.
  destruct (send_tail_stuck windowSize Hw max msg a k s w Hint (conj Hptr Hlen) Hmax Ha Hst Hk)
    as (s' & Hst' & Hr & Hhead & Hrun).
  destruct (frame_words_head windowSize msg (a + k) Hptr ltac:(lia)) as [d Hd].
  exists s', (Wire.send (window_frame windowSize msg (a + k)) w).
  split_and!; [done|done|done| | | |exact Hrun].
  - unfold window_frame. fold (frame_words windowSize msg (a + k)). rewrite Hd.
    apply pipeline_send; [done|lia|done|done].
  - apply Wire.send_keeps_time.
  - unfold window_frame, Wire.send. by destruct Hpipe as [_ _ _ _ _ -> _ _].
Qed.

(** Nothing is there to read at line 147: one more frame is
    outstanding. *)
Lemma send_tail_quiet a k acks s w :
  stuck max windowSize msg a k s → 0 ≤ a → 0 ≤ k < windowSize → a + k < max →
  pipeline windowSize max msg a (a + k) acks w → landed (Wire.now w) acks = [] →
  ∃ s' w', send_tail max windowSize (a + k) s w = Done s' w' ∧
    stuck max windowSize msg a (k + 1) s' ∧ retrans s' = retrans s ∧
    pipeline windowSize max msg a (a + k + 1)
      (acks ++ [(Wire.now w + Wire.latency w, ack_of windowSize (a + k))]) w' ∧
    Wire.now w' = Wire.now w + 1 ∧ Wire.latency w' = Wire.latency w.
Proof.
  intros Hst Ha Hk Hj Hpipe Hnone.
  destruct (send_tail_sent a k acks s w)
    as (s' & w1 & Hst' & Hr & Hhead & Hp1 & Hnow & Hlat & ->); [done..|].
  pose proof (pipe_latency _ _ _ _ _ _ _ Hpipe) as Hpos.
  assert (Wire.answers w1 = []) as Hans.
  { destruct (pipe_queued _ _ _ _ _ _ _ Hp1) as [-> _]. by rewrite Hnow, landed_snoc by lia. }
  rewrite (advance_no_data Hint _ _ _ _ _ Hhead) by (simpl; by rewrite Hans).
  pose proof (stuck_cursors windowSize Hw max msg a (k + 1) s' Hst') as [Hlar _].
  rewrite Z.add_0_r, cmod_small, with_lastAckRec_same by lia.
  eexists _, _. split; [done|].
  split_and!; [done|done|by apply pipeline_wait|simpl; lia|done].
Qed.

(** Line 147 reads the acknowledgment of the oldest outstanding frame:
    the trailing edge moves by one slot. *)
Lemma send_tail_read a k due d acks s w :
  stuck max windowSize msg a k s → 0 ≤ a → 1 ≤ k < windowSize → a + k < max →
  pipeline windowSize max msg a (a + k) ((due, d) :: acks) w → due ≤ Wire.now w →
  ∃ s' w', send_tail max windowSize (a + k) s w = Done s' w' ∧
    stuck max windowSize msg (a + 1) k s' ∧ retrans s' = retrans s ∧
    pipeline windowSize max msg (a + 1) (a + k + 1)
      (acks ++ [(Wire.now w + Wire.latency w, ack_of windowSize (a + k))]) w' ∧
    Wire.now w' = Wire.now w + 1 ∧ Wire.latency w' = Wire.latency w.
Proof.
  intros Hst Ha Hk Hj Hpipe Hdue.
  destruct (send_tail_sent a k ((due, d) :: acks) s w Hst)
    as (s' & w1 & Hst' & Hr & Hhead & Hp1 & Hnow & Hlat & ->); [done|lia|done|done|].
  pose proof (pipe_latency _ _ _ _ _ _ _ Hpipe) as Hpos.
  destruct (Wire.queued_read due d _ w1 (pipe_queued _ _ _ _ _ _ _ Hp1)) as [Hans1 _]; [lia|].
  pose proof (pipeline_wait 1 _ _ _ _ ltac:(lia) Hp1) as Hp2.
  destruct (pipeline_read a (a + k + 1) due d _ (Wire.wait 1 w1) Hp2)
    as (-> & Hans2 & Hp3); [simpl; lia|lia|].
  rewrite (advance_data Hint _ _ _ _ (seq_of windowSize a) (seq_of windowSize (a + 1)) []
             (Wire.read (Wire.wait 1 w1)) Hhead).
  - rewrite ack_distance_next by lia. eexists _, _. split; [done|].
    split_and!; [by apply stuck_acked; [|lia]|done|done|simpl; lia|done].
  - simpl. rewrite Hans1. by rewrite bool_decide_true.
  - cbn [sock_pollRecvFrom sock_recvFrom Wire.wire_transport]. unfold Wire.poll. cbn [snd].
    by rewrite (Wire.recv_answer 1 _ [seq_of windowSize (a + 1)] _ Hans2).
Qed.

(** With fewer than [windowSize] frames outstanding the ring has room,
    and the message does not wait. *)
Lemma window_full_room a k s w :
  stuck max windowSize msg a k s → 0 ≤ k < windowSize →
  window_full windowSize s w = Done false w.
Proof.
  intros Hst Hk. rewrite window_full_run by lia.
  rewrite (stuck_lar _ _ _ _ _ _ Hst), (stuck_lfs _ _ _ _ _ _ Hst).
  pose proof (Z.mod_pos_bound (a + k) slots ltac:(lia)).
  rewrite cmod_mod, ring_add_mod by lia.
  pose proof (ring_ahead_neq a (k + 1) slots ltac:(lia)) as Hne. rewrite Z.add_assoc in Hne.
  by destruct (Z.eqb_spec (a `mod` slots) ((a + k + 1) `mod` slots)).
Qed.

Lemma send_message_free fuel a k j s w :
  stuck max windowSize msg a k s → 0 ≤ k < windowSize →
  send_message (S fuel) max windowSize j s w =
  send_tail max windowSize j (with_timeout {| startTime := Wire.now w |} s) w.
Proof.
  intros Hst Hk. unfold send_message. rewrite (bind_Done _ _ _ _ _ (timer_start_run _)).
  cbn [clock Wire.wire_transport fst snd]. erewrite bind_Done; [done|].
  by rewrite while_do_S, (window_full_room a k) by (done || by apply (stuck_same_ring _ _ _ _ _ s)).
Qed.

Lemma send_message_quiet fuel a k acks s w :
  stuck max windowSize msg a k s → 0 ≤ a → 0 ≤ k < windowSize → a + k < max →
  pipeline windowSize max msg a (a + k) acks w → landed (Wire.now w) acks = [] →
  ∃ s' w', send_message (S fuel) max windowSize (a + k) s w = Done s' w' ∧
    stuck max windowSize msg a (k + 1) s' ∧ retrans s' = retrans s ∧
    pipeline windowSize max msg a (a + k + 1)
      (acks ++ [(Wire.now w + Wire.latency w, ack_of windowSize (a + k))]) w' ∧
    Wire.now w' = Wire.now w + 1 ∧ Wire.latency w' = Wire.latency w.
Proof.
  intros Hst Ha Hk Hj Hpipe Hnone. rewrite (send_message_free fuel a k) by done.
  destruct (send_tail_quiet a k acks (with_timeout {| startTime := Wire.now w |} s) w)
    as (s' & w' & ? & ? & ? & ? & ? & ?); [by apply (stuck_same_ring _ _ _ _ _ s)|done..|].
  by exists s', w'.
Qed.

Lemma send_message_read fuel a k due d acks s w :
  stuck max windowSize msg a k s → 0 ≤ a → 1 ≤ k < windowSize → a + k < max →
  pipeline windowSize max msg a (a + k) ((due, d) :: acks) w → due ≤ Wire.now w →
  ∃ s' w', send_message (S fuel) max windowSize (a + k) s w = Done s' w' ∧
    stuck max windowSize msg (a + 1) k s' ∧ retrans s' = retrans s ∧
    pipeline windowSize max msg (a + 1) (a + k + 1)
      (acks ++ [(Wire.now w + Wire.latency w, ack_of windowSize (a + k))]) w' ∧
    Wire.now w' = Wire.now w + 1 ∧ Wire.latency w' = Wire.latency w.
Proof.
  intros Hst Ha Hk Hj Hpipe Hnone. rewrite (send_message_free fuel a k) by (done || lia).
  destruct (send_tail_read a k due d acks (with_timeout {| startTime := Wire.now w |} s) w)
    as (s' & w' & ? & ? & ? & ? & ? & ?); [by apply (stuck_same_ring _ _ _ _ _ s)|done..|].
  by exists s', w'.
Qed.

(** ** The ring does not fill *)

Lemma landed_acks_at_early t latency a n :
  t < a + latency → landed t (acks_at windowSize latency a n) = [].
Proof.
  intros Ht. destruct (decide (0 < n)) as [Hn|Hn].
  - rewrite acks_at_cons by done. simpl. by rewrite decide_False by lia.
  - unfold acks_at, seqZ. by replace (Z.to_nat n) with 0%nat by lia.
Qed.

(** The messages before [n], while fewer than [windowSize] frames are
    outstanding when a message is due: message [j] is sent at the time
    [j], and from the time [latency] on every message reads the
    acknowledgment of the frame sent [latency] messages before. *)
Lemma latency_prefix fuel pmsg latency n :
  0 < latency → (words_of sizeof_ptr ≤ length pmsg)%nat → 0 ≤ n ≤ max →
  latency < windowSize ∨ n ≤ windowSize →
  let a := Z.max 0 (n - latency) in
  ∃ s w, stuck max windowSize msg a (n - a) s ∧ retrans s = 0 ∧
    pipeline windowSize max msg a n (acks_at windowSize latency a (n - a)) w ∧
    Wire.now w = n ∧ Wire.latency w = latency ∧
    for_range 0 max (send_message (S fuel) max windowSize) (winit max msg windowSize)
      (Wire.launch max (rinit windowSize, pmsg) [] [] latency) =
    for_range n max (send_message (S fuel) max windowSize) s w.
Proof.
  intros Hlat Hpm Hn Hroom a.
  pose (I := λ (j : Z) (s : wstate) (w : Wire.wire (rstate * list Z)),
    let a := Z.max 0 (j - latency) in
    stuck max windowSize msg a (j - a) s ∧ retrans s = 0 ∧
    pipeline windowSize max msg a j (acks_at windowSize latency a (j - a)) w ∧
    Wire.now w = j ∧ Wire.latency w = latency).
  destruct (for_range_upto I 0 n max (send_message (S fuel) max windowSize)
              (winit max msg windowSize) (Wire.launch max (rinit windowSize, pmsg) [] [] latency))
    as (s & w & (Hst & Hr & Hp & Hnow & Hl) & Hrun); [lia| | |by exists s, w].
  - intros j s w Hj (Hst & Hr & Hp & Hnow & Hl). destruct (decide (j < latency)) as [Hlt|Hge].
    + replace (Z.max 0 (j - latency)) with 0 in * by lia. rewrite Z.sub_0_r in *.
      destruct (send_message_quiet fuel 0 j (acks_at windowSize latency 0 j) s w Hst)
        as (s' & w' & Hrun & Hst' & Hr' & Hp' & Hnow' & Hl'); [done|lia|lia|done| |].
      { rewrite Hnow. apply landed_acks_at_early. lia. }
      exists s', w'. split; [done|]. unfold I.
      replace (Z.max 0 (j + 1 - latency)) with 0 by lia. rewrite Z.sub_0_r.
      rewrite Hnow, Hl, ?Z.add_0_l in Hp'. rewrite acks_at_snoc, ?Z.add_0_l by lia.
      split_and!; [done|lia|done|lia|lia].
    + replace (Z.max 0 (j - latency)) with (j - latency) in * by lia.
      replace (j - (j - latency)) with latency in * by lia.
      rewrite acks_at_cons in Hp by done. replace (j - latency + latency) with j in Hp by lia.
      destruct (send_message_read fuel (j - latency) latency j (ack_of windowSize (j - latency))
                  (acks_at windowSize latency (j - latency + 1) (latency - 1)) s w Hst)
        as (s' & w' & Hrun & Hst' & Hr' & Hp' & Hnow' & Hl');
        [lia|lia|lia|by replace (j - latency + latency) with j by lia|lia|].
      replace (j - latency + latency) with j in * by lia.
      exists s', w'. split; [done|]. unfold I.
      replace (Z.max 0 (j + 1 - latency)) with (j - latency + 1) by lia.
      replace (j + 1 - (j - latency + 1)) with (latency - 1 + 1) by lia.
      rewrite acks_at_snoc by lia.
      replace (j - latency + 1 + (latency - 1)) with j by lia.
      replace (latency - 1 + 1) with latency by lia.
      rewrite Hnow, Hl in Hp'. split_and!; [done|lia|done|lia|lia].
  - unfold I. simpl. rewrite Z.max_l by lia. simpl. split_and!; [|done|by apply pipeline_launch|done..].
    apply stuck_winit; lia.
Qed.

(** ** The ring is full *)

(** With the trailing edge before the last slot, the index of line 135
    is that of the oldest outstanding frame. *)
Lemma stuck_oldest a s :
  stuck max windowSize msg a windowSize s → a `mod` slots < windowSize →
  load (buffer s) (unwrapped_index max s) = Some (Some (seq_of windowSize a)).
Proof.
  intros Hst Hc. unfold unwrapped_index. rewrite (stuck_lar _ _ _ _ _ _ Hst).
  pose proof (stuck_heads _ _ _ _ _ _ Hst 1 ltac:(lia)) as Hh.
  pose proof (Z.mod_pos_bound a slots ltac:(lia)).
  rewrite <- (ring_add_mod a 1), Z.mod_small in Hh by lia.
  by replace (a + 1 - 1) with a in Hh by lia.
Qed.

(** A turn that reads the acknowledgment of the oldest outstanding
    frame: the ring has room again. *)
Lemma wait_turn_read a j due d acks s w :
  stuck max windowSize msg a windowSize s → a `mod` slots < windowSize → a < j →
  pipeline windowSize max msg a j ((due, d) :: acks) w → due ≤ Wire.now w →
  ∃ s', wait_for_room max windowSize s w = Done s' (Wire.read (Wire.wait 1 w)) ∧
    stuck max windowSize msg (a + 1) (windowSize - 1) s' ∧
    pipeline windowSize max msg (a + 1) j acks (Wire.read (Wire.wait 1 w)) ∧
    retrans s' = retrans s + (if MAX_TIME <? lapse (Wire.now w) s then windowSize else 0).
Proof.
  intros Hst Hc Ha Hp Hdue.
  destruct (wait_for_room_turn windowSize Hw budget Hbudget Hptr Hint max msg a Hlen s w Hst)
    as (s1 & (Hring & Hr & _) & Hturn).
  unfold far_server in Hturn. unfold far_end. rewrite Hturn. clear Hturn.
  pose proof (stuck_same_ring _ _ _ _ _ _ _ Hring Hst) as Hst1.
  destruct (Wire.queued_read due d _ w (pipe_queued _ _ _ _ _ _ _ Hp) Hdue) as [Hans1 _].
  pose proof (pipeline_wait 1 _ _ _ _ ltac:(lia) Hp) as Hp2.
  destruct (pipeline_read a j due d _ (Wire.wait 1 w) Hp2) as (-> & Hans2 & Hp3);
    [simpl; lia|lia|].
  rewrite (advance_data Hint _ _ _ _ (seq_of windowSize a) (seq_of windowSize (a + 1)) []
             (Wire.read (Wire.wait 1 w)) (stuck_oldest a s1 Hst1 Hc)).
  - rewrite ack_distance_next by lia. eexists. split; [done|]. split; [|done].
    apply stuck_acked; [|lia]. by replace (windowSize - 1 + 1) with windowSize by lia.
  - simpl. rewrite Hans1. by rewrite bool_decide_true.
  - cbn [sock_pollRecvFrom sock_recvFrom Wire.wire_transport]. unfold Wire.poll. cbn [snd].
    by rewrite (Wire.recv_answer 1 _ [seq_of windowSize (a + 1)] _ Hans2).
Qed.

(** The timeouts of [n + 1] turns of a waiting loop, the timer having
    run for the time [e] at the first: one whenever it has run for more
    than [MAX_TIME]. *)
Lemma timeouts_last e :
  0 ≤ e ≤ MAX_TIME + 1 → e / (MAX_TIME + 1) = if MAX_TIME <? e then 1 else 0.
Proof.
  unfold MAX_TIME. intros. destruct (Z.ltb_spec 1500 e); Z.div_mod_to_equations; lia.
Qed.

Lemma timeouts_step e n :
  0 ≤ e ≤ MAX_TIME + 1 → 0 ≤ n →
  let e' := if MAX_TIME <? e then 1 else e + 1 in
  0 ≤ e' ≤ MAX_TIME + 1 ∧
  (e + (n + 1)) / (MAX_TIME + 1) = (if MAX_TIME <? e then 1 else 0) + (e' + n) / (MAX_TIME + 1).
Proof.
  unfold MAX_TIME. intros. destruct (Z.ltb_spec 1500 e); simpl.
  - split; [lia|]. replace e with 1501 by lia. Z.div_mod_to_equations. lia.
  - split; [lia|]. replace (e + 1 + n) with (e + (n + 1)) by lia. lia.
Qed.

(** The waiting loop of line 121 with the ring full: it polls until the
    acknowledgment of the oldest outstanding frame has arrived, reads
    it, and is left; meanwhile it has counted [windowSize]
    retransmissions whenever the timer ran out. *)
Lemma wait_loop (n : nat) : ∀ fuel a j due d acks s w,
  stuck max windowSize msg a windowSize s → a `mod` slots < windowSize → a < j →
  pipeline windowSize max msg a j ((due, d) :: acks) w → due = Wire.now w + Z.of_nat n →
  0 ≤ lapse (Wire.now w) s ≤ MAX_TIME + 1 →
  ∃ s' w', while_do (n + S (S fuel)) (window_full windowSize) (wait_for_room max windowSize) s w
           = Done s' w' ∧
    stuck max windowSize msg (a + 1) (windowSize - 1) s' ∧
    pipeline windowSize max msg (a + 1) j acks w' ∧
    Wire.now w' = due + 1 ∧ Wire.latency w' = Wire.latency w ∧
    retrans s' =
      retrans s + windowSize * ((lapse (Wire.now w) s + Z.of_nat n) / (MAX_TIME + 1)).
Proof.
  induction n as [|n IH]; intros fuel a j due d acks s w Hst Hc Ha Hp Hdue He.
  all: cbn [Nat.add]; rewrite while_do_S.
  all: rewrite (window_full_stuck windowSize Hw budget Hbudget Hptr Hint max msg a Hlen s w Hst).
  - destruct (wait_turn_read a j due d acks s w) as (s' & -> & Hst' & Hp' & Hr);
      [done|done|done|done|lia|].
    exists s', (Wire.read (Wire.wait 1 w)).
    rewrite while_do_S, (window_full_room (a + 1) (windowSize - 1)) by (done || lia).
    split_and!; [done|done|done|simpl; lia|done|].
    rewrite Hr, Z.add_0_r, timeouts_last by done. destruct (MAX_TIME <? _); lia.
  - destruct (wait_for_room_quiet windowSize Hw budget Hbudget Hptr Hint max msg a Hlen s w)
      as (s1 & Hturn & Hst1 & _ & Hr1 & Hl1); [done|done| |].
    { destruct (pipe_queued _ _ _ _ _ _ _ Hp) as [-> _]. simpl. by rewrite decide_False by lia. }
    unfold far_server in Hturn. unfold far_end. rewrite Hturn.
    destruct (timeouts_step (lapse (Wire.now w) s) (Z.of_nat n) He ltac:(lia)) as [He' Hq].
    rewrite <- Hl1 in He', Hq.
    destruct (IH fuel a j due d acks s1 (Wire.wait 1 w)) as (s' & w' & Hrun & ? & ? & ? & ? & Hr');
      [done|done|done|by apply pipeline_wait|simpl; lia|done|].
    exists s', w'. split_and!; [done..|]. rewrite Hr', Hr1, Nat2Z.inj_succ, <- Z.add_1_r, Hq.
    change (Wire.now (Wire.wait 1 w)) with (Wire.now w + 1). destruct (MAX_TIME <? _); lia.
Qed.

(** ** The latency is the window or more *)

Lemma send_message_waited fuel j s w s1 w1 :
  while_do fuel (window_full windowSize) (wait_for_room max windowSize)
    (with_timeout {| startTime := Wire.now w |} s) w = Done s1 w1 →
  send_message fuel max windowSize j s w = send_tail max windowSize j s1 w1.
Proof.
  intros Hrun. unfold send_message. rewrite (bind_Done _ _ _ _ _ (timer_start_run _)).
  cbn [clock Wire.wire_transport fst snd]. by rewrite (bind_Done _ _ _ _ _ Hrun).
Qed.

(** Message [j] is due after the first wait: the frames up to
    [windowSize - 1] were sent before it and their acknowledgments are
    read one per message; those of the later frames ([seg]) are due after
    twice the latency. *)
Definition late (latency j : Z) (s : wstate) (w : Wire.wire (rstate * list Z)) : Prop :=
  ∃ a seg, a = Z.min (j - windowSize + 1) windowSize ∧
    stuck max windowSize msg a (j - a) s ∧
    pipeline windowSize max msg a j (acks_at windowSize latency a (windowSize - a) ++ seg) w ∧
    Forall (λ p, 2 * latency + 1 ≤ p.1) seg ∧
    Wire.now w = latency + 1 + (j - windowSize) ∧ Wire.latency w = latency ∧
    retrans s = windowSize * ((latency - windowSize) / (MAX_TIME + 1)).

Lemma late_intro latency a k n j' j seg s w :
  stuck max windowSize msg a k s →
  pipeline windowSize max msg a j' (acks_at windowSize latency a n ++ seg) w →
  Forall (λ p, 2 * latency + 1 ≤ p.1) seg →
  a = Z.min (j - windowSize + 1) windowSize → k = j - a → j' = j → n = windowSize - a →
  Wire.now w = latency + 1 + (j - windowSize) → Wire.latency w = latency →
  retrans s = windowSize * ((latency - windowSize) / (MAX_TIME + 1)) →
  late latency j s w.
Proof. intros ??? Ha -> -> -> ???. by exists a, seg. Qed.

Lemma landed_later t fl : Forall (λ p : Z * datagram, t < p.1) fl → landed t fl = [].
Proof. destruct 1 as [|[due d] fl Hd _]; simpl in *; [done|]. by rewrite decide_False by lia. Qed.

(** Message [windowSize]: the ring is full, and the sender waits for
    the acknowledgment of frame 0. *)
Lemma late_first fuel latency s w :
  windowSize ≤ latency → windowSize < max →
  stuck max windowSize msg 0 windowSize s → retrans s = 0 →
  pipeline windowSize max msg 0 windowSize (acks_at windowSize latency 0 windowSize) w →
  Wire.now w = windowSize → Wire.latency w = latency →
  ∃ s' w', send_message (Z.to_nat (latency - windowSize) + S (S fuel)) max windowSize
             windowSize s w = Done s' w' ∧ late latency (windowSize + 1) s' w'.
Proof.
  intros HL Hlt Hst Hr Hp Hnow Hl. rewrite acks_at_cons in Hp by lia.
  destruct (wait_loop (Z.to_nat (latency - windowSize)) fuel 0 windowSize (0 + latency)
              (ack_of windowSize 0) (acks_at windowSize latency (0 + 1) (windowSize - 1))
              (with_timeout {| startTime := Wire.now w |} s) w)
    as (s1 & w1 & Hrun & Hst1 & Hp1 & Hnow1 & Hl1 & Hr1);
    [by apply (stuck_same_ring _ _ _ _ _ s)|rewrite Z.mod_0_l; lia|lia|done|lia
    |unfold lapse, MAX_TIME; simpl; lia|].
  assert (retrans s1 = windowSize * ((latency - windowSize) / (MAX_TIME + 1))) as Hr1'.
  { rewrite Hr1. unfold lapse. simpl. rewrite Hr, Z.sub_diag, Z2Nat.id by lia. done. }
  rewrite (send_message_waited _ _ _ _ _ _ Hrun).
  change (0 + 1) with 1 in *. change (0 + latency) with latency in *.
  destruct (decide (windowSize = 1)) as [Hone|Hne].
  - replace (windowSize - 1) with 0 in Hst1, Hp1 by lia.
    assert (Hp0 : pipeline windowSize max msg 1 (1 + 0) [] w1)
      by (by replace (1 + 0) with windowSize by lia).
    destruct (send_tail_quiet 1 0 [] s1 w1 Hst1) as (s' & w' & Hrun' & Hst' & Hr' & Hp' & Hnow' & Hl');
      [lia|lia|lia|exact Hp0|done|].
    replace (1 + 0) with windowSize in Hrun' by lia. rewrite Hrun'. exists s', w'. split; [done|].
    eapply (late_intro latency 1 _ 0 _ (windowSize + 1));
      [exact Hst'|exact Hp'|repeat constructor; simpl; lia|lia|lia|lia|lia|lia|lia|congruence].
  - rewrite acks_at_cons in Hp1 by lia.
    assert (Hp0 : pipeline windowSize max msg 1 (1 + (windowSize - 1))
                    ((1 + latency, ack_of windowSize 1)
                     :: acks_at windowSize latency (1 + 1) (windowSize - 1 - 1)) w1)
      by (by replace (1 + (windowSize - 1)) with windowSize by lia).
    destruct (send_tail_read 1 (windowSize - 1) _ _ _ s1 w1 Hst1 ltac:(lia) ltac:(lia) ltac:(lia) Hp0)
      as (s' & w' & Hrun' & Hst' & Hr' & Hp' & Hnow' & Hl'); [lia|].
    replace (1 + (windowSize - 1)) with windowSize in Hrun' by lia. rewrite Hrun'.
    exists s', w'. split; [done|].
    eapply (late_intro latency (1 + 1) _ _ _ (windowSize + 1));
      [exact Hst'|exact Hp'|repeat constructor; simpl; lia|lia|lia|lia|lia|lia|lia|congruence].
Qed.

(** The messages after it, up to [2 * windowSize - 1]: each is sent at
    once and reads the acknowledgment of one of the first [windowSize]
    frames, but for the last, which finds nothing to read. *)
Lemma late_step fuel latency j s w :
  windowSize ≤ latency → windowSize + 1 ≤ j < 2 * windowSize → j < max →
  late latency j s w →
  ∃ s' w', send_message (S fuel) max windowSize j s w = Done s' w' ∧ late latency (j + 1) s' w'.
Proof.
  intros HL Hj Hlt (a & seg & Ha & Hst & Hp & Hseg & Hnow & Hl & Hr).
  assert (j = a + (windowSize - 1)) as Hja by lia.
  replace (j - a) with (windowSize - 1) in Hst by lia. rewrite Hja in Hp.
  destruct (decide (a < windowSize)) as [Hlast|Hlast].
  - rewrite acks_at_cons, <- app_comm_cons in Hp by lia.
    destruct (send_message_read fuel a (windowSize - 1) _ _ _ s w Hst
                ltac:(lia) ltac:(lia) ltac:(lia) Hp ltac:(lia))
      as (s' & w' & Hrun & Hst' & Hr' & Hp' & Hnow' & Hl').
    rewrite <- Hja in Hrun. exists s', w'. split; [done|]. rewrite <- app_assoc in Hp'.
    eapply (late_intro latency (a + 1) _ _ _ (j + 1));
      [exact Hst'|exact Hp'| |lia|lia|lia|lia|lia|lia|congruence].
    apply Forall_app. split; [done|]. repeat constructor; simpl; lia.
  - replace (windowSize - a) with 0 in Hp by lia.
    change (acks_at windowSize latency a 0 ++ seg) with seg in Hp.
    destruct (send_message_quiet fuel a (windowSize - 1) seg s w Hst
                ltac:(lia) ltac:(lia) ltac:(lia) Hp)
      as (s' & w' & Hrun & Hst' & Hr' & Hp' & Hnow' & Hl').
    { apply landed_later. eapply Forall_impl; [exact Hseg|]. simpl. lia. }
    rewrite <- Hja in Hrun. exists s', w'. split; [done|].
    eapply (late_intro latency a _ 0 _ (j + 1) (seg ++ _));
      [exact Hst'|exact Hp'| |lia|lia|lia|lia|lia|lia|congruence].
    apply Forall_app. split; [done|]. repeat constructor; simpl; lia.
Qed.

(** Message [2 * windowSize]: the ring is full again and the oldest
    frame outstanding is in the last slot, so that the index line 135
    computes is the length of the buffer. *)
Lemma late_overrun fuel latency s w :
  late latency (2 * windowSize) s w →
  send_message (S fuel) max windowSize (2 * windowSize) s w =
    Fault (OutOfBounds (slots * max)) w.
Proof.
  intros (a & seg & Ha & Hst & _). assert (a = windowSize) as -> by lia.
  replace (2 * windowSize - windowSize) with windowSize in Hst by lia.
  pose proof (stuck_same_ring windowSize max msg windowSize windowSize s
                (with_timeout {| startTime := Wire.now w |} s) ltac:(done) Hst) as Hst'.
  unfold send_message. rewrite (bind_Done _ _ _ _ _ (timer_start_run _)).
  cbn [clock Wire.wire_transport fst snd]. apply bind_Fault. rewrite while_do_S.
  rewrite (window_full_stuck windowSize Hw budget Hbudget Hptr Hint max msg _ Hlen _ w Hst').
  pose proof (wait_for_room_overrun windowSize Hw budget Hbudget Hptr Hint max msg _ Hlen _ w Hst')
    as Hover.
  unfold far_server in Hover. unfold far_end. rewrite Hover; [done|].
  apply Z.mod_small. lia.
Qed.

(** The run up to message [n], past the first wait. *)
Lemma latency_late_prefix fuel pmsg latency n :
  windowSize ≤ latency → (words_of sizeof_ptr ≤ length pmsg)%nat →
  windowSize < n ≤ 2 * windowSize → n ≤ max →
  (Z.to_nat (latency - windowSize) + 2 ≤ fuel)%nat →
  ∃ s w, late latency n s w ∧
    for_range 0 max (send_message fuel max windowSize) (winit max msg windowSize)
      (Wire.launch max (rinit windowSize, pmsg) [] [] latency) =
    for_range n max (send_message fuel max windowSize) s w.
Proof.
  intros HL Hpm Hn Hlt Hfuel. destruct fuel as [|f]; [lia|].
  destruct (latency_prefix f pmsg latency windowSize)
    as (s0 & w0 & Hst0 & Hr0 & Hp0 & Hnow0 & Hl0 & ->); [lia|done|lia|by right|].
  replace (Z.max 0 (windowSize - latency)) with 0 in * by lia.
  replace (windowSize - 0) with windowSize in * by lia.
  destruct (late_first (f - Z.to_nat (latency - windowSize) - 1) latency s0 w0)
    as (s1 & w1 & Hrun1 & Hlate1); [done|lia|done|done|done|lia|done|].
  replace (_ + S (S _))%nat with (S f) in Hrun1 by lia.
  rewrite for_range_step, Hrun1 by lia.
  destruct (for_range_upto (late latency) (windowSize + 1) n max
              (send_message (S f) max windowSize) s1 w1) as (s2 & w2 & Hlate2 & ->);
    [lia| |done|by exists s2, w2].
  intros j s w Hj. apply late_step; [done|lia|lia].
Qed.

(** What is on the wire then: the frames of [j] messages have been read,
    and the acknowledgments of the last [windowSize], or of one fewer,
    have not reached the sender. *)
Lemma late_wire latency j s w :
  late latency j s w →
  Wire.delivered w = frame_words windowSize msg <$> seqZ 0 j ∧
  count (Wire.far w) = j ∧ failed (Wire.far w) = false ∧
  Wire.answers w ++ (Wire.flight w).*2 =
    ack_of windowSize <$> seqZ (Z.min (j - windowSize + 1) windowSize)
                              (Z.max (windowSize - 1) (j - windowSize)).
Proof.
  intros (a & seg & Ha & _ & [_ [Hc Hup _ _ _ _ _] Hdel Hacks [Hans Hfl] _ _ _] & _).
  split_and!; [done..|]. rewrite Hans, Hfl, landed_aloft_all, Hacks. do 2 f_equal; lia.
Qed.

End latency.

(** C21: on a wire that loses nothing and delays every acknowledgment by
    less than [windowSize] polls, [clientSlidingWindow] never waits: it
    returns 0, the receiver has read the frame of every message, in
    order, and has counted [max] messages.  The sender returns before the
    acknowledgments of the last [latency] frames have arrived: they are
    what is left on the wire.  The same holds for any delay at all when
    the messages are no more than [windowSize]. *)
Theorem window_latency_returns {PF : Platform} fuel budget max msg pmsg windowSize latency :
  words_of sizeof_int = 1%nat → 1 ≤ windowSize →
  (1 ≤ words_of sizeof_ptr ≤ length msg)%nat → (words_of sizeof_ptr ≤ length pmsg)%nat →
  Z.of_nat (words_of sizeof_ptr) ≤ max → (Z.to_nat windowSize + 1 ≤ budget)%nat →
  0 < latency → latency < windowSize ∨ max ≤ windowSize →
  ∃ w', clientSlidingWindow (TW := Wire.wire_transport (SV := window_server budget windowSize))
          (S fuel) max msg windowSize
          (Wire.launch max (rinit windowSize, pmsg) [] [] latency) = Done 0 w' ∧
    Wire.delivered w' = frame_words windowSize msg <$> seqZ 0 max ∧
    count (Wire.far w') = max ∧ failed (Wire.far w') = false ∧
    Wire.answers w' ++ (Wire.flight w').*2 =
      ack_of windowSize <$> seqZ (Z.max 0 (max - latency)) (Z.min max latency).
Proof.
  intros Hint Hw [Hptr Hlen] Hplen Hmax Hbudget Hlat Hroom. unfold clientSlidingWindow.
  destruct (latency_prefix windowSize Hw budget Hbudget Hptr Hint max msg Hlen Hmax
              fuel pmsg latency max)
    as (s & w' & _ & Hr & [_ [Hc Hup _ _ _ _ _] Hdel Hacks [Ha Hf] _ _ _] & _ & _ & Hrun);
    [done|done|lia|done|].
  unfold far_end in Hrun. rewrite (for_range_empty max max) in Hrun by lia.
  rewrite (bind_Done _ _ _ _ _ Hrun). exists w'.
  split_and!; [simpl; by rewrite Hr|done..|]. rewrite Ha, Hf, landed_aloft_all, Hacks.
  f_equal. f_equal. lia.
Qed.

Lemma window_latency_returns_witness :
  ∃ w', clientSlidingWindow (PF := LP64)
          (TW := Wire.wire_transport (SV := window_server (PF := LP64) 4 3))
          1 7 [9; 9] 3 (Wire.launch 7 (rinit 3, [0; 0]) [] [] 2) = Done 0 w' ∧
    Wire.delivered w' = frame_words (PF := LP64) 3 [9; 9] <$> seqZ 0 7 ∧
    count (Wire.far w') = 7 ∧ failed (Wire.far w') = false ∧
    Wire.answers w' ++ (Wire.flight w').*2 = ack_of 3 <$> seqZ (Z.max 0 (7 - 2)) (Z.min 7 2).
Proof.
  apply (window_latency_returns (PF := LP64) 0 4 7 [9; 9] [0; 0] 3 2);
    [done|lia|change (1 ≤ 2 ≤ 2)%nat; lia|change (2 ≤ 2)%nat; lia|change (2 ≤ 7); lia|lia|lia
    |left; lia].
Defined.

(** C20: on a wire that loses nothing and delays every acknowledgment by
    [windowSize] polls or more, [clientSlidingWindow] with more than
    [2 * windowSize] messages reads its buffer out of bounds: it waits
    for the acknowledgment of frame 0 before message [windowSize], sends
    the next [windowSize] messages while the acknowledgments of the first
    [windowSize] arrive, and waits again before message [2 * windowSize]
    with [lastAckRec = windowSize], where line 135 reads
    [buffer[(windowSize + 1) * max]].  The frames of [2 * windowSize]
    messages have reached the receiver by then. *)
Theorem window_latency_overrun {PF : Platform} fuel budget max msg pmsg windowSize latency :
  words_of sizeof_int = 1%nat → 1 ≤ windowSize →
  (1 ≤ words_of sizeof_ptr ≤ length msg)%nat → (words_of sizeof_ptr ≤ length pmsg)%nat →
  Z.of_nat (words_of sizeof_ptr) ≤ max → (Z.to_nat windowSize + 1 ≤ budget)%nat →
  windowSize ≤ latency → 2 * windowSize < max →
  (Z.to_nat (latency - windowSize) + 2 ≤ fuel)%nat →
  ∃ w', clientSlidingWindow (TW := Wire.wire_transport (SV := window_server budget windowSize))
          fuel max msg windowSize
          (Wire.launch max (rinit windowSize, pmsg) [] [] latency) =
          Fault (OutOfBounds ((windowSize + 1) * max)) w' ∧
    Wire.delivered w' = frame_words windowSize msg <$> seqZ 0 (2 * windowSize) ∧
    count (Wire.far w') = 2 * windowSize ∧ failed (Wire.far w') = false ∧
    Wire.answers w' ++ (Wire.flight w').*2 = ack_of windowSize <$> seqZ windowSize windowSize.
Proof.
  intros Hint Hw [Hptr Hlen] Hplen Hmax Hbudget Hlat Hlong Hfuel. unfold clientSlidingWindow.
  destruct (latency_late_prefix windowSize Hw budget Hbudget Hptr Hint max msg Hlen Hmax
              fuel pmsg latency (2 * windowSize)) as (s & w' & Hlate & Hrun); [done|done|lia..|].
  unfold far_end in Hrun. exists w'. split.
  - apply bind_Fault. rewrite Hrun, for_range_step by lia. destruct fuel as [|f]; [lia|].
    pose proof (late_overrun windowSize Hw budget Hbudget Hptr Hint max msg Hlen f latency s w'
                  Hlate) as Hover.
    unfold far_end in Hover. by rewrite Hover.
  - eapply late_wire in Hlate as (? & ? & ? & Hacks); [|eassumption..].
    split_and!; [done..|]. rewrite Hacks. do 2 f_equal; lia.
Qed.

Lemma window_latency_overrun_witness :
  ∃ w', clientSlidingWindow (PF := LP64)
          (TW := Wire.wire_transport (SV := window_server (PF := LP64) 3 2))
          3 5 [9; 9] 2 (Wire.launch 5 (rinit 2, [0; 0]) [] [] 3) =
          Fault (OutOfBounds ((2 + 1) * 5)) w' ∧
    Wire.delivered w' = frame_words (PF := LP64) 2 [9; 9] <$> seqZ 0 (2 * 2) ∧
    count (Wire.far w') = 2 * 2 ∧ failed (Wire.far w') = false ∧
    Wire.answers w' ++ (Wire.flight w').*2 = ack_of 2 <$> seqZ 2 2.
Proof.
  apply (window_latency_overrun (PF := LP64) 3 3 5 [9; 9] [0; 0] 2 3);
    [done|lia|change (1 ≤ 2 ≤ 2)%nat; lia|change (2 ≤ 2)%nat; lia|change (2 ≤ 5); lia|lia|lia
    |lia|lia].
Defined.

(** Between the two: with a latency of [windowSize] polls or more and
    more than [windowSize] but at most [2 * windowSize] messages the
    sender waits once, before message [windowSize], and returns; the
    receiver has read the frame of every message, and the acknowledgments
    of the last [windowSize] frames, or of one fewer, are not read.  What
    the sender returns is [windowSize] for every time its timer ran out
    while it waited, although every frame was sent once and none was
    lost. *)
Theorem window_latency_waits_once {PF : Platform} fuel budget max msg pmsg windowSize latency :
  words_of sizeof_int = 1%nat → 1 ≤ windowSize →
  (1 ≤ words_of sizeof_ptr ≤ length msg)%nat → (words_of sizeof_ptr ≤ length pmsg)%nat →
  Z.of_nat (words_of sizeof_ptr) ≤ max → (Z.to_nat windowSize + 1 ≤ budget)%nat →
  windowSize ≤ latency → windowSize < max ≤ 2 * windowSize →
  (Z.to_nat (latency - windowSize) + 2 ≤ fuel)%nat →
  ∃ w', clientSlidingWindow (TW := Wire.wire_transport (SV := window_server budget windowSize))
          fuel max msg windowSize
          (Wire.launch max (rinit windowSize, pmsg) [] [] latency) =
        Done (windowSize * ((latency - windowSize) / (MAX_TIME + 1))) w' ∧
    Wire.delivered w' = frame_words windowSize msg <$> seqZ 0 max ∧
    count (Wire.far w') = max ∧ failed (Wire.far w') = false ∧
    Wire.answers w' ++ (Wire.flight w').*2 =
      ack_of windowSize <$> seqZ (Z.min (max - windowSize + 1) windowSize)
                                (Z.max (windowSize - 1) (max - windowSize)).
Proof.
  intros Hint Hw [Hptr Hlen] Hplen Hmax Hbudget Hlat Hlong Hfuel. unfold clientSlidingWindow.
  destruct (latency_late_prefix windowSize Hw budget Hbudget Hptr Hint max msg Hlen Hmax
              fuel pmsg latency max) as (s & w' & Hlate & Hrun); [done|done|lia..|].
  unfold far_end in Hrun. rewrite (for_range_empty max max) in Hrun by lia.
  rewrite (bind_Done _ _ _ _ _ Hrun). exists w'. split; [|eapply late_wire; eassumption].
  destruct Hlate as (? & ? & _ & _ & _ & _ & _ & _ & Hr). simpl. by rewrite Hr.
Qed.

(** A latency above [MAX_TIME + windowSize]: nothing is lost, every frame
    is sent once, and the sender returns a count of 2. *)
Lemma window_latency_waits_once_witness :
  ∃ w', clientSlidingWindow (PF := LP64)
          (TW := Wire.wire_transport (SV := window_server (PF := LP64) 3 2))
          (Z.to_nat 1600) 3 [9; 9] 2 (Wire.launch 3 (rinit 2, [0; 0]) [] [] 1503) =
        Done (2 * ((1503 - 2) / (MAX_TIME + 1))) w' ∧
    Wire.delivered w' = frame_words (PF := LP64) 2 [9; 9] <$> seqZ 0 3 ∧
    count (Wire.far w') = 3 ∧ failed (Wire.far w') = false ∧
    Wire.answers w' ++ (Wire.flight w').*2 =
      ack_of 2 <$> seqZ (Z.min (3 - 2 + 1) 2) (Z.max (2 - 1) (3 - 2)).
Proof.
  apply (window_latency_waits_once (PF := LP64) (Z.to_nat 1600) 3 3 [9; 9] [0; 0] 2 1503);
    [done|lia|change (1 ≤ 2 ≤ 2)%nat; lia|change (2 ≤ 2)%nat; lia|change (2 ≤ 3); lia|lia|lia
    |lia|lia].
Defined.
