(* ===== verification/WindowAckLoss.v ===== *)
(** * The window session on a wire that drops acknowledgments

    Every frame reaches the receiver and is answered at once; the wire
    drops the acknowledgments its schedule names.  An acknowledgment of
    [serverEarlyRetrans] is cumulative: the next one that arrives names
    the frame after the last received, and [ackAdvance] moves the
    trailing edge of the sender over every frame it covers.  So the
    sender does not notice a dropped acknowledgment as long as one
    arrives before its ring is full.

    [acking] is the wire between two messages, [stalls_at] reads off the
    schedule whether the ring fills: it follows the trailing edge [a]
    through the messages and gives the frame at which the sender waits in
    vain, if there is one.  [session_dropping] is the induction on the
    messages left.  When [windowSize] acknowledgments in a row are
    dropped and a message is left to send, the sender waits for room with
    nothing on the wire: its retransmissions are addresses, the receiver
    has every frame and answers nothing more, and the sender does not
    return. *)

From stdpp Require Import prelude.
From S2P Require Import Prelude Transport Peer SeqRing AckAdvance WindowReceiver.
From S2P Require Import WindowSender WindowSession WindowLoss WindowLatency.

#[local] Open Scope Z_scope.
#[local] Open Scope cint_scope.

(** ** The schedule *)

(** The sender is due to send message [j] of [j + n] with the frames from
    [a] on outstanding, [sched] says which of the acknowledgments to come
    are dropped: the oldest outstanding frame when the sender finds its
    ring full, if it does. *)
Fixpoint stalls_at (windowSize : Z) (sched : list bool) (a j : Z) (n : nat) : option Z :=
  match n with
  | O => None
  | S n =>
      if decide (j - a < windowSize)
      then stalls_at windowSize (tail sched)
             (if decide (head sched = Some true) then a else j + 1) (j + 1) n
      else Some a
  end.

(** The wire between two messages: the receiver waits for frame [j],
    and whatever it has answered was dropped or is with the sender. *)
Record acking {PF : Platform} (windowSize max : Z) (msg : list Z) (j : Z)
    (w : Wire.wire (rstate * list Z)) : Prop := {
  ack_goal : Wire.goal w = max;
  ack_far : on_frame windowSize msg j (Wire.far w);
  ack_delivered : Wire.delivered w = frame_words windowSize msg <$> seqZ 0 j;
  ack_flight : Wire.flight w = [];
  ack_lost : Wire.lost w = [];
  ack_latency : Wire.latency w = 0
}.

Lemma stalls_at_none windowSize sched a j n :
  stalls_at windowSize sched a j (S n) = None →
  j - a < windowSize ∧
  stalls_at windowSize (tail sched)
    (if decide (head sched = Some true) then a else j + 1) (j + 1) n = None.
Proof. simpl. by destruct (decide (j - a < windowSize)). Qed.

(** What [stalls_at] finds: [windowSize] acknowledgments dropped in a
    row, those of the frames from [i] on, with a message left to send
    after them. *)
Lemma stalls_at_run windowSize (n : nat) : ∀ sched a j i,
  0 ≤ a ≤ j → j - a ≤ windowSize → stalls_at windowSize sched a j n = Some i →
  a ≤ i ∧ i + windowSize < j + Z.of_nat n ∧
  ∀ k, Z.max i j ≤ k < i + windowSize → sched !! Z.to_nat (k - j) = Some true.
Proof.
  induction n as [|n IH]; intros sched a j i Ha Hk; cbn [stalls_at]; [done|].
  destruct (decide (j - a < windowSize)) as [Hroom|Hfull];
    [|intros [= <-]; split_and!; [lia..|intros; lia]].
  intros Hrest.
  apply (IH (tail sched) (if decide (head sched = Some true) then a else j + 1) (j + 1) i)
    in Hrest as (Hi & Hn & Hrun); [|destruct (decide (head sched = Some true)); lia..].
  destruct (decide (head sched = Some true)) as [Hd|Hd]; (split_and!; [lia|lia|]); intros k Hik.
  all: destruct (decide (k = j)) as [->|Hne]; [rewrite Z.sub_diag; simpl; rewrite <- head_lookup; done || (exfalso; lia)|].
  all: specialize (Hrun k ltac:(lia)); rewrite lookup_tail in Hrun.
  all: by replace (S (Z.to_nat (k - (j + 1)))) with (Z.to_nat (k - j)) in Hrun by lia.
Qed.

Lemma drop_tail {A} (n : nat) (l : list A) : drop n (tail l) = drop (S n) l.
Proof. destruct l; simpl; [by rewrite !drop_nil|done]. Qed.

Section ack_loss.
Context {PF : Platform} (windowSize : Z) (Hw : 1 ≤ windowSize).
Context (budget : nat) (Hbudget : (Z.to_nat windowSize + 1 ≤ budget)%nat).
Context (Hptr : (1 ≤ words_of sizeof_ptr)%nat) (Hint : words_of sizeof_int = 1%nat).
Context (max : Z) (msg : list Z) (Hlen : (words_of sizeof_ptr ≤ length msg)%nat).
Context (Hmax : Z.of_nat (words_of sizeof_ptr) ≤ max).

#[local] Instance acking_server : Server (rstate * list Z) := window_server budget windowSize.
#[local] Abbreviation slots := (windowSize + 1).

Implicit Types w : Wire.wire (rstate * list Z).

Lemma acking_launch pmsg dropped :
  (words_of sizeof_ptr ≤ length pmsg)%nat →
  acking windowSize max msg 0 (Wire.launch max (rinit windowSize, pmsg) [] dropped 0).
Proof. intros Hpm. split; simpl; [done|by apply on_frame_waiting|done..]. Qed.

(** Time passes, an answer is read. *)
Lemma acking_wait n j w :
  acking windowSize max msg j w → acking windowSize max msg j (Wire.wait n w).
Proof. intros Ha. pose proof Ha as []. by rewrite Wire.wait_plain. Qed.

Lemma acking_read j w : acking windowSize max msg j w → acking windowSize max msg j (Wire.read w).
Proof. by intros []. Qed.

(** The frame of message [j] is sent: the receiver counts the message,
    and its acknowledgment is there at once or is dropped. *)
Lemma acking_send j d w :
  acking windowSize max msg j w → 0 ≤ j < max →
  seq_of windowSize j :: d = frame_words windowSize msg j →
  let w1 := Wire.send (Words (seq_of windowSize j :: d)) w in
  acking windowSize max msg (j + 1) w1 ∧ Wire.dropped w1 = tail (Wire.dropped w) ∧
  Wire.answers w1 =
    Wire.answers w ++ if decide (head (Wire.dropped w) = Some true) then []
                      else [ack_of windowSize j].
Proof.
  intros [Hgoal Hfar Hdel Hfl Hlost Hlat] Hj Hd.
  destruct (hear_on_frame windowSize Hw budget ltac:(lia) Hptr max msg j d (Wire.far w))
    as (p' & Hhear & Hfar'); [done|lia|done|done|].
  rewrite <- Hgoal in Hhear. unfold the_server in Hhear. cbv zeta.
  rewrite Wire.send_deliver by by rewrite Hlost. unfold acking_server.
  assert (frame_words windowSize msg <$> seqZ 0 (j + 1) = Wire.delivered w ++ [seq_of windowSize j :: d])
    as Hdel' by by rewrite Hdel, Hd, seqZ_app, fmap_app by lia.
  destruct (decide (head (Wire.dropped w) = Some true)) as [Hdrop|Hkeep].
  - rewrite (Wire.deliver_dropped _ _ _ (ack_of windowSize j)) by (done || by rewrite Hhear).
    rewrite app_nil_r. split; [|done]. split; simpl; by rewrite ?Hhear, ?Hdel', ?Hlost.
  - destruct (Wire.deliver_kept (seq_of windowSize j :: d) (tail (Wire.lost w)) w
                (ack_of windowSize j) Hfl) as [Heq _];
      [unfold acking_server; by rewrite Hhear|done|lia|].
    rewrite Hlat, Wire.wait_0 in Heq by apply Wire.still_deliver.
    unfold acking_server in Heq. rewrite Heq.
    split; [|done]. split; simpl; by rewrite ?Hhear, ?Hdel', ?Hlost.
Qed.

Lemma acking_wait_same n j w :
  acking windowSize max msg j w →
  Wire.answers (Wire.wait n w) = Wire.answers w ∧ Wire.dropped (Wire.wait n w) = Wire.dropped w.
Proof. intros []. by rewrite Wire.wait_plain. Qed.

(** ** One message *)

(** The call of line 147 when the acknowledgment of the frame just sent
    is there: it covers every outstanding frame. *)
Lemma advance_cumulative a j s w :
  stuck max windowSize msg a (j + 1 - a) s → 0 ≤ a ≤ j → j - a < windowSize →
  load (buffer s) (slot_index max windowSize s 1) = Some (Some (seq_of windowSize a)) →
  acking windowSize max msg (j + 1) w → Wire.answers w = [ack_of windowSize j] →
  ∃ s', advance_trailing_edge windowSize (slot_index max windowSize s 1) s w =
          Done s' (Wire.read (Wire.wait 1 w)) ∧
    stuck max windowSize msg (j + 1) 0 s' ∧ retrans s' = retrans s.
Proof.
  intros Hst Ha Hk Hhead Hack Hans. destruct (acking_wait_same 1 _ w Hack) as [Hans1 _].
  rewrite (advance_data Hint _ _ _ _ (seq_of windowSize a) (seq_of windowSize (j + 1)) []
             (Wire.read (Wire.wait 1 w)) Hhead).
  - assert (ack_distance (seq_of windowSize (j + 1)) (seq_of windowSize a) windowSize = j + 1 - a)
      as -> by (rewrite <- (ack_distance_exact windowSize a (j + 1 - a)) by lia; do 2 f_equal; lia).
    eexists. split; [done|]. split; [|done].
    pose proof (stuck_advanced windowSize Hw max msg a _ (j + 1 - a) s Hst ltac:(lia)) as Hst'.
    replace (a + (j + 1 - a)) with (j + 1) in Hst' by lia.
    by replace (j + 1 - a - (j + 1 - a)) with 0 in Hst' by lia.
  - simpl. by rewrite Hans, bool_decide_true.
  - cbn [sock_pollRecvFrom sock_recvFrom Wire.wire_transport]. unfold Wire.poll. cbn [snd].
    apply (Wire.recv_answer 1 _ [seq_of windowSize (j + 1)] []). by rewrite Hans1.
Qed.

(** Message [j] with the frames from [a] on outstanding and room in the
    ring: its frame is sent and read by the receiver; when the
    acknowledgment is dropped one more frame is outstanding, and none
    when it arrives. *)
Lemma send_message_dropping fuel a j s w :
  stuck max windowSize msg a (j - a) s → 0 ≤ a ≤ j → j - a < windowSize → j < max →
  acking windowSize max msg j w → Wire.answers w = [] →
  let a' := if decide (head (Wire.dropped w) = Some true) then a else j + 1 in
  ∃ s' w', send_message (S fuel) max windowSize j s w = Done s' w' ∧
    stuck max windowSize msg a' (j + 1 - a') s' ∧ retrans s' = retrans s ∧
    acking windowSize max msg (j + 1) w' ∧ Wire.answers w' = [] ∧
    Wire.dropped w' = tail (Wire.dropped w).
Proof.
  intros Hst Ha Hk Hj Hack Hans a'.
  pose proof (send_message_free windowSize Hw budget Hbudget Hptr Hint max msg Hlen fuel
                a (j - a) j s w Hst ltac:(lia)) as Hfree.
  unfold far_end in Hfree. unfold acking_server. rewrite Hfree. clear Hfree.
  destruct (send_tail_stuck windowSize Hw max msg a (j - a)
              (with_timeout {| startTime := Wire.now w |} s) w Hint (conj Hptr Hlen) Hmax)
    as (s1 & Hst1 & Hr & Hhead & Hrun); [lia|by apply (stuck_same_ring _ _ _ _ _ s)|lia|].
  replace (a + (j - a)) with j in Hrun by lia. unfold acking_server in Hrun.
  rewrite Hrun. clear Hrun.
  destruct (frame_words_head windowSize msg j Hptr ltac:(lia)) as [d Hd].
  cbn [sock_sendTo Wire.wire_transport]. unfold window_frame.
  fold (frame_words windowSize msg j). rewrite Hd.
  destruct (acking_send j d w Hack ltac:(lia) (eq_sym Hd)) as (Hack1 & Hdrop1 & Hans1).
  unfold acking_server in *. rewrite Hans in Hans1. set (w1 := Wire.send _ w) in *.
  destruct (acking_wait_same 1 _ w1 Hack1) as [Hans2 Hdrop2].
  subst a'. destruct (decide (head (Wire.dropped w) = Some true)); simpl in Hans1.
  - pose proof (stuck_cursors windowSize Hw max msg a _ s1 Hst1) as [Hlar _].
    rewrite (advance_no_data Hint _ _ _ _ _ Hhead) by (simpl; by rewrite Hans1).
    rewrite Z.add_0_r, cmod_small, with_lastAckRec_same by lia.
    exists s1, (Wire.wait 1 w1). replace (j + 1 - a) with (j - a + 1) by lia.
    split_and!; [done|done|done|by apply acking_wait|congruence|congruence].
  - replace (j - a + 1) with (j + 1 - a) in Hst1 by lia.
    destruct (advance_cumulative a j s1 w1 Hst1 Ha Hk Hhead Hack1 Hans1) as (s' & Hadv & Hst' & Hr').
    unfold acking_server in Hadv. rewrite Hadv.
    exists s', (Wire.read (Wire.wait 1 w1)). rewrite Z.sub_diag.
    split_and!; [done|done|by rewrite Hr', Hr|by apply acking_read, acking_wait| |].
    + change (tail (Wire.answers (Wire.wait 1 w1)) = []). by rewrite Hans2, Hans1.
    + change (Wire.dropped (Wire.wait 1 w1) = tail (Wire.dropped w)). congruence.
Qed.

(** ** The session *)

(** The [n] messages from [j] on, with the frames from [a] on
    outstanding: the sender gets through them when an acknowledgment
    arrives before [windowSize] frames are outstanding, and is held up
    for good at the message that finds the ring full. *)
Lemma session_dropping fuel (n : nat) : ∀ a j s w,
  Z.of_nat n = max - j → 0 ≤ a ≤ j → j - a ≤ windowSize →
  stuck max windowSize msg a (j - a) s → acking windowSize max msg j w → Wire.answers w = [] →
  match stalls_at windowSize (Wire.dropped w) a j n with
  | None =>
      ∃ s' w', for_range j max (send_message (S fuel) max windowSize) s w = Done s' w' ∧
        retrans s' = retrans s ∧ acking windowSize max msg max w' ∧ Wire.answers w' = [] ∧
        Wire.dropped w' = drop n (Wire.dropped w)
  | Some i =>
      ∃ w', for_range j max (send_message (S fuel) max windowSize) s w =
        if decide (i `mod` slots = windowSize) then Fault (OutOfBounds (slots * max)) w'
        else OutOfFuel w'
  end.
Proof.
  induction n as [|n IH]; intros a j s w Hn Ha Hk Hst Hack Hans.
  { assert (j = max) as -> by lia. exists s, w. by rewrite for_range_empty, drop_0 by lia. }
  rewrite for_range_step by lia. cbn [stalls_at]. destruct (decide (j - a < windowSize)) as [Hroom|].
  - destruct (send_message_dropping fuel a j s w Hst Ha Hroom ltac:(lia) Hack Hans)
      as (s1 & w1 & -> & Hst1 & Hr1 & Hack1 & Hans1 & Hd1).
    pose proof (λ H1 H2, IH (if decide (head (Wire.dropped w) = Some true) then a else j + 1)
                  (j + 1) s1 w1 ltac:(lia) H1 H2 Hst1 Hack1 Hans1) as Hrest.
    rewrite Hd1 in Hrest. specialize (Hrest ltac:(destruct (decide _); lia)
                                        ltac:(destruct (decide _); lia)). destruct (stalls_at _ _ _ _ _); [done|].
    destruct Hrest as (s' & w' & Hrun & Hr & Hack' & Hans' & Hd').
    exists s', w'. split_and!; [done|congruence|done|done|by rewrite Hd', drop_tail].
  - replace (j - a) with windowSize in Hst by lia.
    destruct (send_message_silent windowSize Hw budget Hbudget Hptr Hint max msg a Hlen fuel j
                s w Hst Hans) as (w' & Hstall); [apply Hack|].
    unfold far_server in Hstall. unfold acking_server. rewrite Hstall.
    exists w'. by destruct (decide _).
Qed.

End ack_loss.

(** C22: dropped acknowledgments are made up for by the next one that
    arrives.  On a wire that delivers every frame and answers at once,
    and drops the acknowledgments its schedule names, [clientSlidingWindow]
    returns 0 and the receiver has read the frame of every message, in
    order, provided that the ring never fills ([stalls_at] finds no
    [windowSize] acknowledgments dropped in a row with a message left to
    send): an acknowledgment that arrives covers the frames whose
    acknowledgments were dropped before it. *)
Theorem window_acks_dropped {PF : Platform} fuel budget max msg pmsg windowSize dropped :
  words_of sizeof_int = 1%nat → 1 ≤ windowSize →
  (1 ≤ words_of sizeof_ptr ≤ length msg)%nat → (words_of sizeof_ptr ≤ length pmsg)%nat →
  Z.of_nat (words_of sizeof_ptr) ≤ max → (Z.to_nat windowSize + 1 ≤ budget)%nat →
  stalls_at windowSize dropped 0 0 (Z.to_nat max) = None →
  ∃ w', clientSlidingWindow (TW := Wire.wire_transport (SV := window_server budget windowSize))
          (S fuel) max msg windowSize
          (Wire.launch max (rinit windowSize, pmsg) [] dropped 0) = Done 0 w' ∧
    Wire.delivered w' = frame_words windowSize msg <$> seqZ 0 max ∧
    count (Wire.far w') = max ∧ failed (Wire.far w') = false ∧
    Wire.answers w' = [] ∧ Wire.dropped w' = drop (Z.to_nat max) dropped.
Proof.
  intros Hint Hw [Hptr Hlen] Hplen Hmax Hbudget Hnone. unfold clientSlidingWindow.
  pose proof (session_dropping windowSize Hw budget Hbudget Hptr Hint max msg Hlen Hmax fuel
                (Z.to_nat max) 0 0 (winit max msg windowSize)
                (Wire.launch max (rinit windowSize, pmsg) [] dropped 0)) as Hrun.
  cbn [Wire.dropped Wire.launch] in Hrun. rewrite Hnone in Hrun.
  destruct Hrun as (s & w' & Hrun & Hr & [_ [Hc Hup _ _ _ _ _] Hdel _ _ _] & Hans & Hd);
    [lia|lia|lia|apply stuck_winit; lia|by apply acking_launch|done|].
  unfold acking_server in Hrun. rewrite (bind_Done _ _ _ _ _ Hrun). exists w'.
  split_and!; [simpl; by rewrite Hr|done..].
Qed.

Lemma window_acks_dropped_witness :
  ∃ w', clientSlidingWindow (PF := LP64)
          (TW := Wire.wire_transport (SV := window_server (PF := LP64) 4 3))
          1 7 [9; 9] 3
          (Wire.launch 7 (rinit 3, [0; 0]) [] [true; true; false; true; false; false; true] 0)
        = Done 0 w' ∧
    Wire.delivered w' = frame_words (PF := LP64) 3 [9; 9] <$> seqZ 0 7 ∧
    count (Wire.far w') = 7 ∧ failed (Wire.far w') = false ∧
    Wire.answers w' = [] ∧
    Wire.dropped w' = drop (Z.to_nat 7) [true; true; false; true; false; false; true].
Proof.
  apply (window_acks_dropped (PF := LP64) 0 4 7 [9; 9] [0; 0] 3);
    [done|lia|change (1 ≤ 2 ≤ 2)%nat; lia|change (2 ≤ 2)%nat; lia|change (2 ≤ 7); lia|lia|done].
Defined.

(** C23: a window of dropped acknowledgments is final.  When the
    acknowledgments of the [windowSize] frames from [i] on are dropped
    and a message is left to send ([stalls_at] finds [i]), the sender
    finds its ring full and waits: nothing is on the wire, what it
    retransmits after a timeout are addresses, and the receiver, which
    has read every frame sent, answers nothing more.  For every fuel the
    run is cut short in that loop, or, when the trailing edge is at the
    last slot, it reads [buffer] at its length (line 135). *)
Theorem window_acks_dropped_stall {PF : Platform} fuel budget max msg pmsg windowSize dropped i :
  words_of sizeof_int = 1%nat → 1 ≤ windowSize →
  (1 ≤ words_of sizeof_ptr ≤ length msg)%nat → (words_of sizeof_ptr ≤ length pmsg)%nat →
  Z.of_nat (words_of sizeof_ptr) ≤ max → (Z.to_nat windowSize + 1 ≤ budget)%nat →
  stalls_at windowSize dropped 0 0 (Z.to_nat max) = Some i →
  ∃ w', clientSlidingWindow (TW := Wire.wire_transport (SV := window_server budget windowSize))
          (S fuel) max msg windowSize
          (Wire.launch max (rinit windowSize, pmsg) [] dropped 0) =
        if decide (i `mod` (windowSize + 1) = windowSize)
        then Fault (OutOfBounds ((windowSize + 1) * max)) w' else OutOfFuel w'.
Proof.
  intros Hint Hw [Hptr Hlen] Hplen Hmax Hbudget Hsome. unfold clientSlidingWindow.
  pose proof (session_dropping windowSize Hw budget Hbudget Hptr Hint max msg Hlen Hmax fuel
                (Z.to_nat max) 0 0 (winit max msg windowSize)
                (Wire.launch max (rinit windowSize, pmsg) [] dropped 0)) as Hrun.
  cbn [Wire.dropped Wire.launch] in Hrun. rewrite Hsome in Hrun.
  destruct Hrun as (w' & Hrun);
    [lia|lia|lia|apply stuck_winit; lia|by apply acking_launch|done|].
  unfold acking_server in Hrun. exists w'.
  destruct (decide _); [apply bind_Fault|apply bind_OutOfFuel]; exact Hrun.
Qed.

Lemma window_acks_dropped_stall_witness :
  ∃ w', clientSlidingWindow (PF := LP64)
          (TW := Wire.wire_transport (SV := window_server (PF := LP64) 3 2))
          1 5 [9; 9] 2 (Wire.launch 5 (rinit 2, [0; 0]) [] [false; false; true; true] 0) =
        if decide (2 `mod` (2 + 1) = 2) then Fault (OutOfBounds ((2 + 1) * 5)) w'
        else OutOfFuel w'.
Proof.
  apply (window_acks_dropped_stall (PF := LP64) 0 3 5 [9; 9] [0; 0] 2 [false; false; true; true] 2);
    [done|lia|change (1 ≤ 2 ≤ 2)%nat; lia|change (2 ≤ 2)%nat; lia|change (2 ≤ 5); lia|lia|done].
Defined.
