(* ===== verification/WindowProtocol.v ===== *)
(** * The two window specifications on a channel

    [SenderSpec.v] and [ReceiverSpec.v] state what each side of the
    window protocol does on frame numbers.  Here the two are put on a
    channel ([Module WPSpec]).  The frames on their way to the receiver
    may be lost and may overtake one another; no frame is on the channel
    twice, since [clientSlidingWindow] hands every frame to the transport
    once (what line 127 retransmits is not a frame).  The acknowledgments
    on their way back may be lost and arrive in the order in which they
    were sent.

    The invariant [safe] is what makes the protocol correct on such a
    channel: the sender never takes a frame for acknowledged that the
    receiver has not got, the receiver never has a frame that was not
    sent, a frame on the channel is one the receiver misses, and an
    acknowledgment on the channel lies between what the sender knows and
    what the receiver has.  It follows that every frame that arrives is
    inside the receiver's window and every acknowledgment that arrives is
    one the sender tells apart from a stale one, which are the premises
    of the two refinements. *)

From stdpp Require Import gmap sorting.
From S2P Require Import Prelude SeqRing ReceiverSpec SenderSpec.

#[local] Open Scope Z_scope.

Module WPSpec.

(** The two sides and what is on the channel, as frame numbers. *)
Record link : Type := Link {
  sender : WSSpec.astate;
  receiver : WRSpec.astate;
  frames : list Z;
  acks : list Z
}.

Definition init : link :=
  {| sender := WSSpec.init; receiver := WRSpec.init; frames := []; acks := [] |}.

Inductive step (w : Z) : link → link → Prop :=
| step_send σ ρ F A :
    WSSpec.outstanding σ < w →
    step w (Link σ ρ F A) (Link (WSSpec.send σ) ρ (F ++ [WSSpec.next σ]) A)
| step_reorder σ ρ F F' A :
    F ≡ₚ F' → step w (Link σ ρ F A) (Link σ ρ F' A)
| step_lose_frame σ ρ i F A :
    step w (Link σ ρ (i :: F) A) (Link σ ρ F A)
| step_deliver σ ρ i F A :
    step w (Link σ ρ (i :: F) A)
      (Link σ (WRSpec.deliver w ρ i) F (A ++ [WRSpec.expected (WRSpec.deliver w ρ i)]))
| step_lose_ack σ ρ F A1 n A2 :
    step w (Link σ ρ F (A1 ++ n :: A2)) (Link σ ρ F (A1 ++ A2))
| step_ack σ ρ F n A :
    step w (Link σ ρ F (n :: A)) (Link (WSSpec.ack n σ) ρ F A).

Definition reach (w : Z) : relation link := rtc (step w).

(** The invariant. *)
Record safe (w : Z) (l : link) : Prop := {
  safe_sender : WSSpec.wf w (sender l);
  safe_receiver : WRSpec.wf w (receiver l);
  safe_acked : WSSpec.acked (sender l) ≤ WRSpec.expected (receiver l);
  safe_received j : j ∈ WRSpec.received (receiver l) → j < WSSpec.next (sender l);
  safe_frames : NoDup (frames l);
  safe_flying i :
    i ∈ frames l → 0 ≤ i < WSSpec.next (sender l) ∧ i ∉ WRSpec.received (receiver l);
  safe_sorted : StronglySorted Z.le (acks l);
  safe_acks n :
    n ∈ acks l → WSSpec.acked (sender l) ≤ n ≤ WRSpec.expected (receiver l)
}.

(** Frame [i] was sent and is neither on the channel nor with the
    receiver: it was lost. *)
Definition lost (l : link) (i : Z) : Prop :=
  0 ≤ i < WSSpec.next (sender l) ∧ (i ∉ frames l) ∧ (i ∉ WRSpec.received (receiver l)).

Lemma safe_init w : 0 ≤ w → safe w init.
Proof.
  intros. split; simpl; try (by intros ? ?%elem_of_nil); try set_solver.
  - unfold WSSpec.wf, WSSpec.outstanding. simpl. lia.
  - by apply WRSpec.wf_init.
  - apply NoDup_nil_2.
  - constructor.
Qed.

(** The receiver has no frame that was not sent. *)
Lemma safe_expected w l : safe w l → WRSpec.expected (receiver l) ≤ WSSpec.next (sender l).
Proof.
  intros Hs. destruct (decide (WRSpec.expected (receiver l) ≤ WSSpec.next (sender l))); [done|].
  pose proof (safe_sender _ _ Hs) as [? _].
  pose proof (WRSpec.wf_below _ _ (safe_receiver _ _ Hs) (WSSpec.next (sender l)) ltac:(lia)) as Hin.
  apply (safe_received _ _ Hs) in Hin. lia.
Qed.

(** The frames the receiver has are at least those before the first it
    misses and at most those that were sent. *)
Lemma safe_count w l :
  safe w l →
  WRSpec.expected (receiver l) ≤ Z.of_nat (size (WRSpec.received (receiver l)))
    ≤ WSSpec.next (sender l).
Proof.
  intros Hs. pose proof (safe_receiver _ _ Hs) as [He Hbelow _ Hwin].
  pose proof (safe_sender _ _ Hs) as [Hn _].
  assert (∀ n, 0 ≤ n → Z.of_nat (size (list_to_set (C := gset Z) (seqZ 0 n))) = n) as Hsize.
  { intros n ?. rewrite size_list_to_set, length_seqZ by apply NoDup_seqZ. lia. }
  split.
  - rewrite <- (Hsize (WRSpec.expected (receiver l))) by done.
    apply Nat2Z.inj_le, subseteq_size. intros j Hj%elem_of_list_to_set%elem_of_seqZ.
    apply Hbelow. lia.
  - rewrite <- (Hsize (WSSpec.next (sender l))) by lia.
    apply Nat2Z.inj_le, subseteq_size. intros j Hj.
    apply elem_of_list_to_set, elem_of_seqZ. pose proof (Hwin j Hj).
    pose proof (safe_received _ _ Hs j Hj). lia.
Qed.

(** A frame on the channel is one the receiver misses, inside its
    window. *)
Lemma flying_accepted w l i : safe w l → i ∈ frames l → WRSpec.accepts w (receiver l) i = true.
Proof.
  intros Hs Hi. apply (safe_flying _ _ Hs) in Hi as [Hi Hnew].
  pose proof (safe_sender _ _ Hs) as [? Hout]. pose proof (safe_acked _ _ Hs).
  apply bool_decide_eq_true. unfold WSSpec.outstanding in Hout. split; [|lia].
  destruct (decide (WRSpec.expected (receiver l) ≤ i)); [done|].
  destruct Hnew. apply (WRSpec.wf_below _ _ (safe_receiver _ _ Hs)). lia.
Qed.

(** An acknowledgment on the channel is in the sender's reach. *)
Lemma flying_in_reach w l n : 0 ≤ w → safe w l → n ∈ acks l → WSSpec.in_reach w (sender l) n.
Proof.
  intros Hw Hs Hn%(safe_acks _ _ Hs). pose proof (safe_expected _ _ Hs).
  unfold WSSpec.in_reach. lia.
Qed.

(** *** Each step keeps the invariant *)

Section steps.
Context (w : Z) (Hw : 0 ≤ w).
Implicit Types (σ : WSSpec.astate) (ρ : WRSpec.astate) (F A : list Z).

Lemma safe_send σ ρ F A :
  safe w (Link σ ρ F A) → WSSpec.outstanding σ < w →
  safe w (Link (WSSpec.send σ) ρ (F ++ [WSSpec.next σ]) A).
Proof.
  intros [Hσ Hρ Ha Hr Hnd Hf Hso Hacks] Hroom. simpl in *. split; simpl; try done.
  - by apply WSSpec.wf_send.
  - intros j Hj%Hr. lia.
  - apply NoDup_app. split_and!; [done| |apply NoDup_singleton].
    intros i Hi%Hf ->%list_elem_of_singleton. lia.
  - intros i [[Hi ?]%Hf | ->%list_elem_of_singleton]%elem_of_app; [split; [lia|done]|].
    destruct Hσ. split; [lia|]. intros ?%Hr. lia.
Qed.

Lemma safe_reorder σ ρ F F' A : safe w (Link σ ρ F A) → F ≡ₚ F' → safe w (Link σ ρ F' A).
Proof.
  intros [Hσ Hρ Ha Hr Hnd Hf Hso Hacks] Hp. simpl in *. split; simpl; try done.
  - by rewrite <- Hp.
  - intros i Hi. apply Hf. by rewrite Hp.
Qed.

Lemma safe_lose_frame σ ρ i F A : safe w (Link σ ρ (i :: F) A) → safe w (Link σ ρ F A).
Proof.
  intros [Hσ Hρ Ha Hr Hnd Hf Hso Hacks]. simpl in *. split; simpl; try done.
  - by apply NoDup_cons in Hnd as [_ ?].
  - intros j Hj. apply Hf. by right.
Qed.

Lemma safe_deliver σ ρ i F A :
  safe w (Link σ ρ (i :: F) A) →
  safe w (Link σ (WRSpec.deliver w ρ i) F (A ++ [WRSpec.expected (WRSpec.deliver w ρ i)])).
Proof.
  intros Hs. pose proof (WRSpec.expected_deliver w ρ i) as Hmono.
  pose proof Hs as [Hσ Hρ Ha Hr Hnd Hf Hso Hacks]. simpl in *.
  pose proof (Hf i ltac:(left)) as [Hi _]. apply NoDup_cons in Hnd as [Hnew Hnd].
  assert (∀ j, j ∈ WRSpec.received (WRSpec.deliver w ρ i) → j < WSSpec.next σ) as Hr'.
  { intros j [-> | ?%Hr]%WRSpec.received_deliver; lia. }
  assert (safe w (Link σ (WRSpec.deliver w ρ i) F [])) as Hs'.
  { split; simpl; [done|by apply WRSpec.wf_deliver|lia|done|done| |constructor|by intros ? ?%elem_of_nil].
    intros j Hj. split; [apply Hf; by right|].
    intros [-> | Hin]%WRSpec.received_deliver; [done|]. by apply (Hf j ltac:(by right)). }
  pose proof (safe_expected _ _ Hs') as He. simpl in He.
  split; simpl; try apply Hs'; try done.
  - apply StronglySorted_app_2; [|done|repeat constructor].
    intros n m Hn%Hacks ->%list_elem_of_singleton. lia.
  - intros n [Hn%Hacks | ->%list_elem_of_singleton]%elem_of_app; lia.
Qed.

Lemma safe_lose_ack σ ρ F A1 n A2 :
  safe w (Link σ ρ F (A1 ++ n :: A2)) → safe w (Link σ ρ F (A1 ++ A2)).
Proof.
  intros [Hσ Hρ Ha Hr Hnd Hf Hso Hacks]. simpl in *. split; simpl; try done.
  - apply StronglySorted_app in Hso as (Hle & H1 & [_ H2]%StronglySorted_cons).
    apply StronglySorted_app_2; [|done..]. intros x y Hx Hy. apply Hle; [done|by right].
  - intros m [Hm | Hm]%elem_of_app; apply Hacks, elem_of_app; [by left|by right; right].
Qed.

Lemma safe_ack σ ρ F n A : safe w (Link σ ρ F (n :: A)) → safe w (Link (WSSpec.ack n σ) ρ F A).
Proof.
  intros Hs. pose proof (safe_expected _ _ Hs) as He.
  pose proof Hs as [Hσ Hρ Ha Hr Hnd Hf Hso Hacks]. simpl in *.
  pose proof (Hacks n ltac:(left)) as Hn. apply StronglySorted_cons in Hso as [Hle Hso].
  rewrite Forall_forall in Hle.
  assert (WSSpec.next (WSSpec.ack n σ) = WSSpec.next σ) as Hnext.
  { unfold WSSpec.ack. by destruct (decide _). }
  assert (WSSpec.acked (WSSpec.ack n σ) = n) as Hacked.
  { unfold WSSpec.ack. destruct (decide _); simpl; lia. }
  split; simpl; rewrite ?Hnext, ?Hacked; try done.
  - by apply WSSpec.wf_ack.
  - lia.
  - intros m Hm. pose proof (Hle m Hm). pose proof (Hacks m ltac:(by right)). lia.
Qed.

Lemma step_safe l l' : safe w l → step w l l' → safe w l'.
Proof.
  intros Hs Hstep. destruct Hstep;
    eauto using safe_send, safe_reorder, safe_lose_frame, safe_deliver, safe_lose_ack, safe_ack.
Qed.

Lemma steps_safe l l' : safe w l → reach w l l' → safe w l'.
Proof. intros Hs. induction 1; eauto using step_safe. Qed.

Lemma reach_safe l : reach w init l → safe w l.
Proof. apply steps_safe. by apply safe_init. Qed.

End steps.

(** *** A loss is final *)

(** No step brings a lost frame back: the sender sends each frame once. *)
Lemma step_lost w l l' i : step w l l' → lost l i → lost l' i.
Proof.
  unfold lost. destruct 1 as [σ ρ F A _|σ ρ F F' A Hp|σ ρ j F A|σ ρ j F A|σ ρ F A1 n A2|σ ρ F n A];
    simpl; intros (Hi & HF & HR); try done.
  - split; [lia|]. split; [|done]. rewrite elem_of_app, list_elem_of_singleton.
    intros [?|?]; [done|lia].
  - by rewrite <- Hp.
  - rewrite not_elem_of_cons in HF. tauto.
  - apply not_elem_of_cons in HF as [? ?]. do 2 (split; [done|]).
    by intros [-> | ?]%WRSpec.received_deliver.
  - split; [|done]. unfold WSSpec.ack. by destruct (decide _).
Qed.

Lemma reach_lost w l l' i : reach w l l' → lost l i → lost l' i.
Proof. induction 1; eauto using step_lost. Qed.

(** The sender gets at most a window beyond a lost frame. *)
Lemma lost_bound w l i : safe w l → lost l i → WSSpec.next (sender l) ≤ i + w.
Proof.
  intros Hs (Hi & _ & HR). pose proof (safe_sender _ _ Hs) as [_ Hout].
  pose proof (safe_acked _ _ Hs). unfold WSSpec.outstanding in Hout.
  destruct (decide (WRSpec.expected (receiver l) ≤ i)); [lia|].
  destruct HR. apply (WRSpec.wf_below _ _ (safe_receiver _ _ Hs)). lia.
Qed.

(** The receiver has fewer frames than were sent while one is lost. *)
Lemma lost_count w l i :
  safe w l → lost l i →
  Z.of_nat (size (WRSpec.received (receiver l))) < WSSpec.next (sender l).
Proof.
  intros Hs (Hi & _ & HR). pose proof (safe_receiver _ _ Hs) as [_ _ _ Hwin].
  set (sent := list_to_set (C := gset Z) (seqZ 0 (WSSpec.next (sender l)))).
  assert (Z.of_nat (size sent) = WSSpec.next (sender l)) as Hsize.
  { unfold sent. rewrite size_list_to_set, length_seqZ by apply NoDup_seqZ. lia. }
  assert (i ∈ sent) as Hin by (apply elem_of_list_to_set, elem_of_seqZ; lia).
  assert (WRSpec.received (receiver l) ⊆ sent ∖ {[i]}) as Hsub%subseteq_size.
  { intros j Hj. apply elem_of_difference. split; [|by intros ->%elem_of_singleton].
    apply elem_of_list_to_set, elem_of_seqZ. pose proof (Hwin j Hj).
    pose proof (safe_received _ _ Hs j Hj). lia. }
  rewrite size_difference, size_singleton in Hsub by (by apply singleton_subseteq_l).
  assert (size sent ≠ 0)%nat; [|lia].
  apply size_non_empty_iff. intros Hem. rewrite Hem in Hin. by apply not_elem_of_empty in Hin.
Qed.

End WPSpec.
