(* ===== verification/WindowSystem.v ===== *)
(** * The two window functions as one system

    [clientSlidingWindow] and [serverEarlyRetrans] run at the two ends
    of a channel ([Module Chan] of [Channel.v]): what one side hands to its socket is
    what the other side's socket delivers, unless it is lost on the way.
    A configuration holds the locals of both functions, the place the
    client has reached (the top of its [for] loop, line 118, the test
    of its waiting loop, line 121, or the call of [ackAdvance] of line
    147), the number of messages the server has counted, and the
    channel; [Module Win] holds these definitions.  A step ([cstep]) is a piece of one of
    the two functions run on the channel ([client_step], [server_step]),
    the same pieces that [send_message] and [serverEarlyRetrans] are
    made of, or an event of the channel ([channel_step]): a frame or an
    acknowledgment is lost, a frame overtakes those sent before it,
    time passes.  The steps interleave in any
    order, which covers every schedule of loss and delay at once; the
    sessions of [WindowSession.v], [WindowLoss.v], [WindowLatency.v] and
    [WindowAckLoss.v] each fix one schedule and compute the result.

    The pieces are cut so that each has one operation that the other
    side can observe.  For the client these are the start of the timer
    (line 119), a turn of the waiting loop (lines 122-136, whose
    retransmissions reach nobody and which ends with the poll of
    [ackAdvance]), the sending of the frame (lines 139-145) and the
    call of [ackAdvance] of line 147; the server may therefore answer a
    frame before the client polls for the acknowledgment in the same
    pass of its loop, or after.  A pass of the server's loop (lines
    213-228) is one step, the receive together with the answer: what
    the other side and the channel do between the two can be done
    before the receive, with the frame that is read brought to the head
    of the channel again by [overtake].

    [holds] relates a configuration to a state of [WPSpec]: the locals
    of each side represent that side's specification, and the channel
    carries the frames and the acknowledgments of the specification's
    channel.  Every step of the system is matched by steps of [WPSpec]
    ([cstep_simulated]), so every configuration the system reaches holds
    a state [WPSpec] reaches, with the invariant of [WindowProtocol.v].

    [play] is the step as a function of a [move] (which side runs, which
    datagram is lost or overtakes, how much time passes); what it
    computes is a step ([play_sound]), so the configurations of the
    examples are computed and not constructed by hand.  The theorems at
    the end are stated for every configuration that is reached from
    [boot] under [well_sized]: the refinement, the order of the cursors
    of both programs, that the server's pass and the client's next piece
    return (the read of line 135 with the trailing edge at the last slot
    being the one piece that does not), that after the loss of a frame
    neither side gets a window beyond it, that the system has a path on
    which both functions complete ([quiet] is the invariant between two
    messages on that path), and that the two functions, when they
    return, are paths of the system. *)

From stdpp Require Import gmap sorting.
From S2P Require Import Prelude Transport Channel SeqRing AckAdvance WindowReceiver ReceiverSpec.
From S2P Require Import WindowSender WindowSession WindowLoss SenderSpec WindowProtocol.

#[local] Open Scope Z_scope.
#[local] Open Scope cint_scope.

(** ** Configurations and steps *)

Module Win.

(** Where the client is: at the top of the [for] loop with message [j]
    next (line 118), at the test of the waiting loop for message [j]
    (line 121), or before the call of [ackAdvance] of line 147, with the
    frame of message [j] sent and copied into [buffer]. *)
Inductive place : Type := Top (j : Z) | Loop (j : Z) | Sent (j : Z).

(** The index of the [for] loop of line 118 at a place. *)
Definition msgNum (p : place) : Z := match p with Top j | Loop j | Sent j => j end.

Record config : Type := Config {
  client : wstate;
  place_of : place;
  server : rstate * list Z;
  served : Z;
  net : Chan.chan
}.

(** Who moves next: one of the two functions, or the channel. *)
Inductive move : Type :=
| Client | Server | LoseFrame (i : nat) | Overtake (i : nat) | LoseAck (i : nat) | Tick (d : Z).

Section system.
Context {PF : Platform} (fuel : nat) (max windowSize : Z).

(** The two functions at entry, with nothing on the channel. *)
Definition boot (msg pmsg : list Z) (t : Z) : config :=
  Config (winit max msg windowSize) (Top 0) (rinit windowSize, pmsg) 0 (Chan.Chan [] [] t).

(** A piece of [clientSlidingWindow] that returned: the start of the
    timer (line 119), a turn of the waiting loop (lines 121-136), the
    sending of the frame when the test of line 121 fails (lines
    139-145), the call of [ackAdvance] that ends the body (lines
    147-148). *)
Inductive client_step : place → wstate → Chan.chan → place → wstate → Chan.chan → Prop :=
| client_top j s c tm c' :
    j < max → timer_start (TW := Chan.client_side) c = Done tm c' →
    client_step (Top j) s c (Loop j) (with_timeout tm s) c'
| client_turn j s c c1 s' c' :
    window_full windowSize s c = Done true c1 →
    wait_for_room (TW := Chan.client_side) max windowSize s c1 = Done s' c' →
    client_step (Loop j) s c (Loop j) s' c'
| client_send j s c c1 s' c' :
    window_full windowSize s c = Done false c1 →
    send_frame (TW := Chan.client_side) max windowSize j s c1 = Done s' c' →
    client_step (Loop j) s c (Sent j) s' c'
| client_poll j s c s' c' :
    advance_trailing_edge (TW := Chan.client_side) windowSize (slot_index max windowSize s 1) s c =
      Done s' c' →
    client_step (Sent j) s c (Top (j + 1)) s' c'.

(** A pass of the receive loop of [serverEarlyRetrans] that returned
    (lines 211-229), with [n] the index of the [for] loop of line 210:
    the loop of line 229 ends when [offset] is positive. *)
Inductive server_step :
    rstate * list Z → Z → Chan.chan → rstate * list Z → Z → Chan.chan → Prop :=
| server_pass r n c r' c' :
    n < max →
    receive_and_ack (TW := Chan.server_side) fuel windowSize r c = Done r' c' →
    server_step r n c r' (if 0 <? offset r'.1 then n + 1 else n) c'.

(** What the channel does by itself: a frame is lost, a frame overtakes
    those before it, an acknowledgment is lost, time passes. *)
Inductive channel_step : Chan.chan → Chan.chan → Prop :=
| lose_frame U1 f U2 D t : channel_step (Chan.Chan (U1 ++ f :: U2) D t) (Chan.Chan (U1 ++ U2) D t)
| overtake U1 f U2 D t :
    channel_step (Chan.Chan (U1 ++ f :: U2) D t) (Chan.Chan (f :: U1 ++ U2) D t)
| lose_ack U D1 d D2 t : channel_step (Chan.Chan U (D1 ++ d :: D2) t) (Chan.Chan U (D1 ++ D2) t)
| tick U D t d : 0 ≤ d → channel_step (Chan.Chan U D t) (Chan.Chan U D (t + d)).

(** A step of the system: one of the three moves. *)
Inductive cstep : config → config → Prop :=
| cstep_client s p r n c s' p' c' :
    client_step p s c p' s' c' → cstep (Config s p r n c) (Config s' p' r n c')
| cstep_server s p r n c r' n' c' :
    server_step r n c r' n' c' → cstep (Config s p r n c) (Config s p r' n' c')
| cstep_channel s p r n c c' :
    channel_step c c' → cstep (Config s p r n c) (Config s p r n c').

Lemma cstep_top j s r n c tm c' :
  j < max → timer_start (TW := Chan.client_side) c = Done tm c' →
  cstep (Config s (Top j) r n c) (Config (with_timeout tm s) (Loop j) r n c').
Proof. intros. by apply cstep_client, client_top. Qed.

Lemma cstep_turn j s r n c c1 s' c' :
  window_full windowSize s c = Done true c1 →
  wait_for_room (TW := Chan.client_side) max windowSize s c1 = Done s' c' →
  cstep (Config s (Loop j) r n c) (Config s' (Loop j) r n c').
Proof. intros. by eapply cstep_client, client_turn. Qed.

Lemma cstep_send j s r n c c1 s' c' :
  window_full windowSize s c = Done false c1 →
  send_frame (TW := Chan.client_side) max windowSize j s c1 = Done s' c' →
  cstep (Config s (Loop j) r n c) (Config s' (Sent j) r n c').
Proof. intros. by eapply cstep_client, client_send. Qed.

Lemma cstep_poll j s r n c s' c' :
  advance_trailing_edge (TW := Chan.client_side) windowSize (slot_index max windowSize s 1) s c =
    Done s' c' →
  cstep (Config s (Sent j) r n c) (Config s' (Top (j + 1)) r n c').
Proof. intros. by apply cstep_client, client_poll. Qed.

Lemma cstep_serve s p r n c r' c' :
  n < max →
  receive_and_ack (TW := Chan.server_side) fuel windowSize r c = Done r' c' →
  cstep (Config s p r n c) (Config s p r' (if 0 <? offset r'.1 then n + 1 else n) c').
Proof. intros. by apply cstep_server, server_pass. Qed.

Definition creach : relation config := rtc cstep.

(** ** The system as a function of who moves

    [play] runs one step, when there is one: the next piece of the
    client, a pass of the server's loop, or an event of the channel at
    the position given. *)

(** The next piece of the client, when it returns. *)
Definition client_move (cfg : config) : option config :=
  match place_of cfg with
  | Top j =>
      if decide (j < max) then
        match timer_start (TW := Chan.client_side) (net cfg) with
        | Done tm c' =>
            Some (Config (with_timeout tm (client cfg)) (Loop j) (server cfg) (served cfg) c')
        | _ => None
        end
      else None
  | Loop j =>
      match window_full windowSize (client cfg) (net cfg) with
      | Done true c1 =>
          match wait_for_room (TW := Chan.client_side) max windowSize (client cfg) c1 with
          | Done s' c' => Some (Config s' (Loop j) (server cfg) (served cfg) c')
          | _ => None
          end
      | Done false c1 =>
          match send_frame (TW := Chan.client_side) max windowSize j (client cfg) c1 with
          | Done s' c' => Some (Config s' (Sent j) (server cfg) (served cfg) c')
          | _ => None
          end
      | _ => None
      end
  | Sent j =>
      match advance_trailing_edge (TW := Chan.client_side) windowSize
              (slot_index max windowSize (client cfg) 1) (client cfg) (net cfg) with
      | Done s' c' => Some (Config s' (Top (j + 1)) (server cfg) (served cfg) c')
      | _ => None
      end
  end.

(** A pass of the receive loop of the server, when it returns. *)
Definition server_move (cfg : config) : option config :=
  if decide (served cfg < max) then
    match receive_and_ack (TW := Chan.server_side) fuel windowSize (server cfg) (net cfg) with
    | Done r' c' =>
        Some (Config (client cfg) (place_of cfg) r'
                (if 0 <? offset r'.1 then served cfg + 1 else served cfg) c')
    | _ => None
    end
  else None.

Definition with_net (c : Chan.chan) (cfg : config) : config :=
  Config (client cfg) (place_of cfg) (server cfg) (served cfg) c.

Definition play (m : move) (cfg : config) : option config :=
  let c := net cfg in
  match m with
  | Client => client_move cfg
  | Server => server_move cfg
  | LoseFrame i =>
      _ ← Chan.up c !! i; Some (with_net (Chan.Chan (delete i (Chan.up c)) (Chan.down c) (Chan.now c)) cfg)
  | Overtake i =>
      f ← Chan.up c !! i;
      Some (with_net (Chan.Chan (f :: delete i (Chan.up c)) (Chan.down c) (Chan.now c)) cfg)
  | LoseAck i =>
      _ ← Chan.down c !! i; Some (with_net (Chan.Chan (Chan.up c) (delete i (Chan.down c)) (Chan.now c)) cfg)
  | Tick d =>
      if decide (0 ≤ d) then Some (with_net (Chan.Chan (Chan.up c) (Chan.down c) (Chan.now c + d)) cfg)
      else None
  end.

Fixpoint plays (ms : list move) (cfg : config) : option config :=
  match ms with
  | [] => Some cfg
  | m :: ms => cfg' ← play m cfg; plays ms cfg'
  end.

(** ** Configurations and the specification *)

(** The datagram that acknowledges the frames before [n]. *)
Definition ack_words (n : Z) : list Z := [seq_of windowSize n].

Record holds (msg : list Z) (cfg : config) (l : WPSpec.link) : Prop := {
  holds_client : holds_window max windowSize msg (client cfg) (WPSpec.sender l);
  holds_server : represents windowSize (server cfg).1 (WPSpec.receiver l);
  holds_message : (words_of sizeof_ptr ≤ length (server cfg).2)%nat;
  holds_place :
    match place_of cfg with
    | Top j | Loop j => j = WSSpec.next (WPSpec.sender l)
    | Sent j => j + 1 = WSSpec.next (WPSpec.sender l) ∧ WSSpec.acked (WPSpec.sender l) ≤ j
    end;
  holds_max :
    match place_of cfg with Top j => j ≤ max | Loop j | Sent j => j < max end ∧ served cfg ≤ max;
  holds_served : served cfg = Z.of_nat (size (WRSpec.received (WPSpec.receiver l)));
  holds_up : Chan.up (net cfg) = frame_words windowSize msg <$> WPSpec.frames l;
  holds_down : Chan.down (net cfg) = ack_words <$> WPSpec.acks l
}.

End system.

End Win.

Import Win.

(** What a call of [ackAdvance] does to the sender's specification and
    to the acknowledgments on the channel: nothing is there, or the
    oldest is read. *)
Inductive read_ack : WSSpec.astate → list Z → WSSpec.astate → list Z → Prop :=
| read_none σ : read_ack σ [] σ []
| read_some σ n A : read_ack σ (n :: A) (WSSpec.ack n σ) A.

Lemma read_ack_steps w σ A σ' A' ρ F :
  read_ack σ A σ' A' → rtc (WPSpec.step w) (WPSpec.Link σ ρ F A) (WPSpec.Link σ' ρ F A').
Proof. destruct 1; [apply rtc_refl|apply rtc_once, WPSpec.step_ack]. Qed.

Lemma size_received_deliver windowSize ρ i :
  WRSpec.accepts windowSize ρ i = true → i ∉ WRSpec.received ρ →
  size (WRSpec.received (WRSpec.deliver windowSize ρ i)) = S (size (WRSpec.received ρ)).
Proof.
  intros Hacc Hnew. unfold WRSpec.deliver. rewrite Hacc. simpl.
  rewrite size_union by set_solver. by rewrite size_singleton.
Qed.

Section simulation.
Context {PF : Platform} (fuel : nat) (max windowSize : Z).
Context (Hint : words_of sizeof_int = 1%nat) (Hw : 1 ≤ windowSize).
Context (msg : list Z) (Hlen : (1 ≤ words_of sizeof_ptr ≤ length msg)%nat).
Context (Hmax : Z.of_nat (words_of sizeof_ptr) ≤ max).

#[local] Abbreviation slots := (windowSize + 1).

(** A call of [ackAdvance] on the channel, on the number of the oldest
    outstanding frame, returns: nothing is there, or the oldest
    acknowledgment is read. *)
Lemma advance_on_chan index s σ U A t :
  holds_window max windowSize msg s σ → WSSpec.wf windowSize σ →
  load (buffer s) index = Some (Some (seq_of windowSize (WSSpec.acked σ))) →
  (∀ n, n ∈ A → WSSpec.in_reach windowSize σ n) →
  ∃ s' σ' A',
    advance_trailing_edge (TW := Chan.client_side) windowSize index s
      (Chan.Chan U (ack_words windowSize <$> A) t) =
    Done s' (Chan.Chan U (ack_words windowSize <$> A') t) ∧
    read_ack σ A σ' A' ∧ holds_window max windowSize msg s' σ' ∧ retrans s' = retrans s.
Proof.
  intros Hrep Hwf Hhead Hreach. destruct A as [|n A].
  - rewrite (advance_no_data (TW := Chan.client_side) Hint _ _ _ _ _ Hhead) by (simpl; lia).
    pose proof (stuck_cursors windowSize Hw max msg _ _ s Hrep) as [Hlar _].
    rewrite Z.add_0_r, cmod_small, with_lastAckRec_same by lia.
    exists s, σ, []. split_and!; [done|constructor|done|done].
  - destruct (advance_refines (TW := Chan.client_side) Hint windowSize Hw max msg index s σ
                (Chan.Chan U (ack_words windowSize <$> n :: A) t) (seq_of windowSize n) []
                (Chan.Chan U (ack_words windowSize <$> A) t) Hrep Hwf Hhead)
      as (s1 & -> & Hr & Hn); [simpl; lia|done|].
    exists s1, (WSSpec.ack n σ), A. split_and!; [done|constructor| |done].
    apply Hn; [done|]. apply Hreach. by left.
Qed.

(** Line 121 on the channel. *)
Lemma full_on_chan s σ (c : Chan.chan) :
  holds_window max windowSize msg s σ → WSSpec.wf windowSize σ →
  window_full windowSize s c = Done (bool_decide (WSSpec.outstanding σ = windowSize)) c.
Proof.
  intros Hrep [Ha Hk]. apply (window_full_outstanding windowSize Hw max msg _ _ s _ Hrep).
  unfold WSSpec.outstanding in *. lia.
Qed.

(** A turn of the waiting loop on the channel (lines 122-136): the read
    of line 135 leaves [buffer] when the trailing edge is at the last
    slot; otherwise the turn returns. *)
Lemma turn_on_chan s σ U A t :
  holds_window max windowSize msg s σ → WSSpec.wf windowSize σ →
  WSSpec.outstanding σ = windowSize → (∀ n, n ∈ A → WSSpec.in_reach windowSize σ n) →
  if decide (WSSpec.acked σ `mod` slots = windowSize)
  then wait_for_room (TW := Chan.client_side) max windowSize s
         (Chan.Chan U (ack_words windowSize <$> A) t) =
       Fault (OutOfBounds (slots * max)) (Chan.Chan U (ack_words windowSize <$> A) t)
  else ∃ s' σ' A',
    wait_for_room (TW := Chan.client_side) max windowSize s
      (Chan.Chan U (ack_words windowSize <$> A) t) =
    Done s' (Chan.Chan U (ack_words windowSize <$> A') t) ∧
    read_ack σ A σ' A' ∧ holds_window max windowSize msg s' σ'.
Proof.
  intros Hrep Hwf Hfull Hreach.
  destruct (wait_for_room_advance (TW := Chan.client_side) windowSize Hw max msg _ _ s
              (Chan.Chan U (ack_words windowSize <$> A) t) Hrep ltac:(lia))
    as (s1 & w1 & Hring & _ & -> & Hw1).
  assert (w1 = Chan.Chan U (ack_words windowSize <$> A) t) as ->.
  { apply (Hw1 (λ w, w = Chan.Chan U (ack_words windowSize <$> A) t));
      [by intros ? ? ->|by intros ? ->|done]. }
  pose proof (stuck_same_ring windowSize max msg _ _ _ _ Hring Hrep) as Hrep1.
  destruct (decide _) as [Hlast|Hlast].
  - pose proof (stuck_unwrapped_last windowSize max msg _ _ _ Hrep1 Hlast) as Hix.
    rewrite advance_out_of_bounds by lia. by rewrite Hix, (stuck_length _ _ _ _ _ _ Hrep1).
  - destruct (advance_on_chan (unwrapped_index max s1) s1 σ U A t Hrep1 Hwf)
      as (s' & σ' & A' & ? & ? & ? & _); [|done|by exists s', σ', A'].
    apply (stuck_unwrapped windowSize Hw max msg _ _ _ Hrep1); [lia|done].
Qed.

(** Lines 139-145 on the channel, with room in the ring: the frame of
    the next message is put on the channel. *)
Lemma frame_on_chan s σ U D t :
  holds_window max windowSize msg s σ → WSSpec.wf windowSize σ →
  WSSpec.outstanding σ < windowSize →
  ∃ s', send_frame (TW := Chan.client_side) max windowSize (WSSpec.next σ) s (Chan.Chan U D t) =
        Done s' (Chan.Chan (U ++ [frame_words windowSize msg (WSSpec.next σ)]) D t) ∧
    holds_window max windowSize msg s' (WSSpec.send σ) ∧ retrans s' = retrans s.
Proof.
  intros Hrep [Ha Hk] Hroom.
  destruct (send_frame_stuck (TW := Chan.client_side) windowSize Hw max msg (WSSpec.acked σ)
              (WSSpec.outstanding σ) s (Chan.Chan U D t) Hint Hlen Hmax)
    as (s1 & Hst1 & ? & Heq); [lia|done|unfold WSSpec.outstanding in *; lia|].
  apply holds_window_send in Hst1; [|done..].
  replace (WSSpec.acked σ + WSSpec.outstanding σ) with (WSSpec.next σ) in Heq
    by (unfold WSSpec.outstanding; lia).
  by exists s1.
Qed.

(** Line 147 on the channel, with a frame outstanding: the call returns;
    nothing is there, or the oldest acknowledgment is read. *)
Lemma poll_on_chan s σ U A t :
  holds_window max windowSize msg s σ → WSSpec.wf windowSize σ →
  1 ≤ WSSpec.outstanding σ → (∀ n, n ∈ A → WSSpec.in_reach windowSize σ n) →
  ∃ s' σ' A',
    advance_trailing_edge (TW := Chan.client_side) windowSize (slot_index max windowSize s 1) s
      (Chan.Chan U (ack_words windowSize <$> A) t) =
    Done s' (Chan.Chan U (ack_words windowSize <$> A') t) ∧
    read_ack σ A σ' A' ∧ holds_window max windowSize msg s' σ' ∧ retrans s' = retrans s.
Proof.
  intros Hrep Hwf Hk Hreach.
  destruct (advance_on_chan (slot_index max windowSize s 1) s σ U A t Hrep Hwf)
    as (s' & σ' & A' & ? & ? & ? & ?); [|done|by exists s', σ', A'].
  pose proof (stuck_slot windowSize Hw max msg _ _ s 1 Hrep ltac:(lia)) as Hhead.
  by replace (WSSpec.acked σ + 1 - 1) with (WSSpec.acked σ) in Hhead by lia.
Qed.

Lemma frame_words_sized i :
  ∃ d, frame_words windowSize msg i = seq_of windowSize i :: d ∧
    length (seq_of windowSize i :: d) = words_of sizeof_ptr.
Proof.
  unfold frame_words. destruct msg as [|x rest]; [simpl in Hlen; lia|].
  destruct (words_of sizeof_ptr) as [|n] eqn:Hn; [lia|]. simpl in *.
  exists (take n rest). split; [done|]. rewrite length_take. lia.
Qed.

Lemma serve_on_chan r ρ i U D t :
  (Z.to_nat windowSize + 1 ≤ fuel)%nat →
  represents windowSize r.1 ρ → WRSpec.accepts windowSize ρ i = true →
  (words_of sizeof_ptr ≤ length r.2)%nat →
  ∃ r', receive_and_ack (TW := Chan.server_side) fuel windowSize r
          (Chan.Chan (frame_words windowSize msg i :: U) D t) =
        Done r' (Chan.Chan U
          (D ++ [ack_words windowSize (WRSpec.expected (WRSpec.deliver windowSize ρ i))]) t) ∧
    represents windowSize r'.1 (WRSpec.deliver windowSize ρ i) ∧ 0 < offset r'.1 ∧
    length r'.2 = length r.2.
Proof.
  destruct r as [st pm]. simpl. intros Hfuel Hrep Hacc Hpm.
  destruct (frame_words_sized i) as (d & Hd & Hld). rewrite Hd.
  assert (WRSpec.in_reach windowSize ρ i) as Hreach.
  { apply bool_decide_eq_true in Hacc. apply bool_decide_pack. lia. }
  destruct (recv_frame_simulates windowSize ltac:(lia) fuel st ρ i Hrep Hreach Hfuel)
    as (st' & Hrun & Hrep' & Hoff).
  assert (sock_recvFrom (Transport := Chan.server_side) (words_of sizeof_ptr)
            (Chan.Chan ((seq_of windowSize i :: d) :: U) D t) =
          Some (seq_of windowSize i :: d, Chan.Chan U D t)) as Hrecv.
  { simpl. unfold Chan.server_recv. simpl. by rewrite <- Hld, firstn_all. }
  destruct (receive_and_ack_on (TW := Chan.server_side) fuel windowSize st pm _ _ _ _ _ st'
              Hrecv ltac:(lia) Hrun) as (pm' & -> & Hl).
  exists (st', pm'). simpl. split_and!; [done|done|by apply Hoff; rewrite Hacc|done].
Qed.

Lemma read_ack_some σ n A σ' A' :
  read_ack σ (n :: A) σ' A' → σ' = WSSpec.ack n σ ∧ A' = A.
Proof. by inversion 1. Qed.

Lemma read_ack_next σ A σ' A' : read_ack σ A σ' A' → WSSpec.next σ' = WSSpec.next σ.
Proof. destruct 1; [done|]. unfold WSSpec.ack. by destruct (decide _). Qed.

Implicit Types (l : WPSpec.link) (cfg : config).
#[local] Abbreviation holds' := (holds max windowSize msg).
#[local] Abbreviation steps := (rtc (WPSpec.step windowSize)).

Lemma sim_top j s r n c tm c' l :
  holds' (Config s (Top j) r n c) l → j < max →
  timer_start (TW := Chan.client_side) c = Done tm c' →
  holds' (Config (with_timeout tm s) (Loop j) r n c') l.
Proof.
  intros [Hc Hsv Hm Hp [_ Hb] Hn Hu Hd] Hj [_ ->]%timer_start_inv. split; try done. simpl in *.
  by apply (stuck_same_ring windowSize max msg _ _ s).
Qed.

Lemma sim_turn j s r n c c1 s' c' σ ρ F A :
  holds' (Config s (Loop j) r n c) (WPSpec.Link σ ρ F A) →
  WPSpec.safe windowSize (WPSpec.Link σ ρ F A) →
  window_full windowSize s c = Done true c1 →
  wait_for_room (TW := Chan.client_side) max windowSize s c1 = Done s' c' →
  ∃ σ' A', read_ack σ A σ' A' ∧ holds' (Config s' (Loop j) r n c') (WPSpec.Link σ' ρ F A').
Proof.
  intros [Hc Hsv Hm Hp Hb Hn Hu Hd] Hs Hfull Hrun. destruct c as [U D t].
  simpl in *. subst U D. pose proof (WPSpec.safe_sender _ _ Hs) as Hwf. simpl in Hwf.
  rewrite (full_on_chan s σ _ Hc Hwf) in Hfull. injection Hfull as Hk%bool_decide_eq_true <-.
  pose proof (turn_on_chan s σ (frame_words windowSize msg <$> F) A t Hc Hwf Hk) as Hturn.
  destruct (decide _); [rewrite Hturn in Hrun; [done|]|destruct Hturn as (s1 & σ' & A' & Heq & Hread & ?)].
  1,2: intros; by apply (WPSpec.flying_in_reach windowSize (WPSpec.Link σ ρ F A)); [lia|..].
  rewrite Heq in Hrun. injection Hrun as <- <-. exists σ', A'. split; [done|].
  split; simpl; try done. by rewrite (read_ack_next _ _ _ _ Hread).
Qed.

Lemma sim_send j s r n c c1 s' c' σ ρ F A :
  holds' (Config s (Loop j) r n c) (WPSpec.Link σ ρ F A) →
  WPSpec.safe windowSize (WPSpec.Link σ ρ F A) →
  window_full windowSize s c = Done false c1 →
  send_frame (TW := Chan.client_side) max windowSize j s c1 = Done s' c' →
  WSSpec.outstanding σ < windowSize ∧
  holds' (Config s' (Sent j) r n c') (WPSpec.Link (WSSpec.send σ) ρ (F ++ [WSSpec.next σ]) A).
Proof.
  intros [Hc Hsv Hm Hp Hb Hn Hu Hd] Hs Hfull Hrun. destruct c as [U D t].
  simpl in *. subst U D j. pose proof (WPSpec.safe_sender _ _ Hs) as Hwf. simpl in Hwf.
  rewrite (full_on_chan s σ _ Hc Hwf) in Hfull. injection Hfull as Hk%bool_decide_eq_false <-.
  assert (WSSpec.outstanding σ < windowSize) as Hroom by (destruct Hwf; lia).
  destruct (frame_on_chan s σ (frame_words windowSize msg <$> F) (ack_words windowSize <$> A)
              t Hc Hwf Hroom) as (s1 & Heq & ? & _).
  rewrite Heq in Hrun. injection Hrun as <- <-. split; [done|].
  destruct Hwf. split; simpl; try done; [lia|by rewrite fmap_app].
Qed.

Lemma sim_poll j s r n c s' c' σ ρ F A :
  holds' (Config s (Sent j) r n c) (WPSpec.Link σ ρ F A) →
  WPSpec.safe windowSize (WPSpec.Link σ ρ F A) →
  advance_trailing_edge (TW := Chan.client_side) windowSize (slot_index max windowSize s 1) s c =
    Done s' c' →
  ∃ σ' A', read_ack σ A σ' A' ∧ holds' (Config s' (Top (j + 1)) r n c') (WPSpec.Link σ' ρ F A').
Proof.
  intros [Hc Hsv Hm [Hp Hout] Hb Hn Hu Hd] Hs Hrun. destruct c as [U D t].
  simpl in *. subst U D. pose proof (WPSpec.safe_sender _ _ Hs) as Hwf. simpl in Hwf.
  destruct (poll_on_chan s σ (frame_words windowSize msg <$> F) A t Hc Hwf)
    as (s1 & σ' & A' & Heq & Hread & ? & _); [unfold WSSpec.outstanding; lia| |].
  { intros; by apply (WPSpec.flying_in_reach windowSize (WPSpec.Link σ ρ F A)); [lia|..]. }
  rewrite Heq in Hrun. injection Hrun as <- <-. exists σ', A'. split; [done|].
  split; simpl; try done; [by rewrite (read_ack_next _ _ _ _ Hread)|lia].
Qed.

Lemma sim_serve s p r n c r' c' σ ρ F A :
  (Z.to_nat windowSize + 1 ≤ fuel)%nat →
  holds' (Config s p r n c) (WPSpec.Link σ ρ F A) →
  WPSpec.safe windowSize (WPSpec.Link σ ρ F A) → n < max →
  receive_and_ack (TW := Chan.server_side) fuel windowSize r c = Done r' c' →
  ∃ i F', F = i :: F' ∧
    holds' (Config s p r' (if 0 <? offset r'.1 then n + 1 else n) c')
      (WPSpec.Link σ (WRSpec.deliver windowSize ρ i) F'
         (A ++ [WRSpec.expected (WRSpec.deliver windowSize ρ i)])).
Proof.
  intros Hfuel [Hc Hsv Hm Hp [Hb ?] Hn Hu Hd] Hs Hlt Hrun. destruct c as [U D t].
  simpl in *. subst U D. destruct F as [|i F]; rewrite ?fmap_cons in Hrun.
  { unfold receive_and_ack in Hrun. erewrite bind_Blocked_l in Hrun; [done|].
    by apply recvFrom_array_blocked. }
  pose proof (WPSpec.flying_accepted _ _ i Hs ltac:(left)) as Hacc.
  pose proof (WPSpec.safe_flying _ _ Hs i ltac:(left)) as [_ Hnew]. simpl in Hacc, Hnew.
  destruct (serve_on_chan r ρ i (frame_words windowSize msg <$> F) (ack_words windowSize <$> A)
              t Hfuel Hsv Hacc Hm) as (r1 & Hrun1 & Hrep' & Hoff & Hl).
  rewrite Hrun1 in Hrun. injection Hrun as -> <-. exists i, F. split; [done|].
  apply Z.ltb_lt in Hoff as ->.
  split; simpl; try done; [lia|split; [done|lia]|rewrite size_received_deliver by done; lia|
                           by rewrite fmap_app].
Qed.

Lemma sim_lose_frame s p r n U1 f U2 D t l :
  holds' (Config s p r n (Chan.Chan (U1 ++ f :: U2) D t)) l →
  ∃ l', steps l l' ∧ holds' (Config s p r n (Chan.Chan (U1 ++ U2) D t)) l'.
Proof.
  intros [Hc Hsv Hm Hp Hb Hn Hu Hd]. destruct l as [σ ρ F A]. simpl in *.
  apply eq_sym, fmap_split in Hu as (F1 & i & F2 & -> & -> & -> & ->).
  exists (WPSpec.Link σ ρ (F1 ++ F2) A). split; [|split; simpl; try done; by rewrite fmap_app].
  eapply rtc_l; [apply (WPSpec.step_reorder _ _ _ _ (i :: F1 ++ F2) _)|].
  - by rewrite Permutation_middle.
  - apply rtc_once, WPSpec.step_lose_frame.
Qed.

Lemma sim_overtake s p r n U1 f U2 D t l :
  holds' (Config s p r n (Chan.Chan (U1 ++ f :: U2) D t)) l →
  ∃ l', steps l l' ∧ holds' (Config s p r n (Chan.Chan (f :: U1 ++ U2) D t)) l'.
Proof.
  intros [Hc Hsv Hm Hp Hb Hn Hu Hd]. destruct l as [σ ρ F A]. simpl in *.
  apply eq_sym, fmap_split in Hu as (F1 & i & F2 & -> & -> & -> & ->).
  exists (WPSpec.Link σ ρ (i :: F1 ++ F2) A).
  split; [|split; simpl; try done; by rewrite fmap_app].
  apply rtc_once, WPSpec.step_reorder. by rewrite Permutation_middle.
Qed.

Lemma sim_lose_ack s p r n U D1 d D2 t l :
  holds' (Config s p r n (Chan.Chan U (D1 ++ d :: D2) t)) l →
  ∃ l', steps l l' ∧ holds' (Config s p r n (Chan.Chan U (D1 ++ D2) t)) l'.
Proof.
  intros [Hc Hsv Hm Hp Hb Hn Hu Hd]. destruct l as [σ ρ F A]. simpl in *.
  apply eq_sym, fmap_split in Hd as (A1 & m & A2 & -> & -> & -> & ->).
  exists (WPSpec.Link σ ρ F (A1 ++ A2)). split; [apply rtc_once, WPSpec.step_lose_ack|].
  split; simpl; try done. by rewrite fmap_app.
Qed.

(** Every step of the system is matched by steps of the specification. *)
Lemma cstep_simulated cfg cfg' l :
  (Z.to_nat windowSize + 1 ≤ fuel)%nat →
  holds' cfg l → WPSpec.safe windowSize l → cstep fuel max windowSize cfg cfg' →
  ∃ l', steps l l' ∧ holds' cfg' l'.
Proof.
  intros Hfuel Hh Hs Hstep. destruct l as [σ ρ F A].
  destruct Hstep as [? ? ? ? ? ? ? ? Hstep|? ? ? ? ? ? ? ? Hstep|? ? ? ? ? ? Hstep]; destruct Hstep;
    eauto using sim_lose_frame, sim_overtake, sim_lose_ack.
  - eexists. split; [done|]. by eapply sim_top.
  - edestruct sim_turn as (σ' & A' & Hread & ?); [done..|].
    eexists. split; [by apply read_ack_steps|done].
  - edestruct sim_send as [? ?]; [done..|].
    eexists. split; [by apply rtc_once, WPSpec.step_send|done].
  - edestruct sim_poll as (σ' & A' & Hread & ?); [done..|].
    eexists. split; [by apply read_ack_steps|done].
  - edestruct sim_serve as (i & F' & HF & ?); try done. subst F.
    eexists. split; [apply rtc_once, WPSpec.step_deliver|done].
  - eexists. split; [done|]. by destruct Hh.
Qed.

(** ** What the system reaches *)

Context (Hfuel : (Z.to_nat windowSize + 1 ≤ fuel)%nat).
Context (pmsg : list Z) (Hpm : (words_of sizeof_ptr ≤ length pmsg)%nat).

Lemma holds_boot t : holds max windowSize msg (boot max windowSize msg pmsg t) WPSpec.init.
Proof.
  split; simpl; try done.
  - apply holds_window_winit; lia.
  - apply represents_init. lia.
  - lia.
Qed.

(** The simulation along a path of the system. *)
Lemma creach_simulated_from cfg l cfg' :
  holds' cfg l → WPSpec.safe windowSize l → creach fuel max windowSize cfg cfg' →
  ∃ l', steps l l' ∧ holds' cfg' l'.
Proof.
  intros Hh Hs. apply (rtc_ind_r (λ cfg', ∃ l', steps l l' ∧ holds' cfg' l')).
  - by exists l.
  - intros cfg1 cfg2 _ Hstep (l1 & Hsteps & Hh1).
    pose proof (WPSpec.steps_safe windowSize ltac:(lia) l l1 Hs Hsteps) as Hs1.
    destruct (cstep_simulated cfg1 cfg2 l1 Hfuel Hh1 Hs1 Hstep) as (l' & Hsteps' & Hh').
    exists l'. split; [by eapply rtc_trans|done].
Qed.

(** Every configuration the system reaches holds a state the
    specification reaches. *)
Lemma creach_simulated t cfg :
  creach fuel max windowSize (boot max windowSize msg pmsg t) cfg →
  ∃ l, WPSpec.reach windowSize WPSpec.init l ∧ holds max windowSize msg cfg l.
Proof.
  apply creach_simulated_from; [apply holds_boot|apply WPSpec.safe_init; lia].
Qed.

(** A frame that is lost is never made up for: the client gets at most
    a window beyond it and the server counts fewer frames than that,
    whatever happens afterwards. *)
Lemma creach_stalls t s p r n U1 f U2 D t' :
  creach fuel max windowSize (boot max windowSize msg pmsg t)
    (Config s p r n (Chan.Chan (U1 ++ f :: U2) D t')) →
  ∃ i, 0 ≤ i ∧ hd_error f = Some (seq_of windowSize i) ∧
    ∀ cfg', creach fuel max windowSize (Config s p r n (Chan.Chan (U1 ++ U2) D t')) cfg' →
      msgNum (place_of cfg') ≤ i + windowSize ∧ served cfg' < i + windowSize.
Proof.
  intros (l & Hs%(WPSpec.reach_safe windowSize ltac:(lia)) & Hh)%creach_simulated.
  pose proof Hh as [Hc Hsv Hm Hp Hb Hn Hu Hd]. destruct l as [σ ρ F A]. simpl in *.
  apply eq_sym, fmap_split in Hu as (F1 & i & F2 & -> & -> & -> & ->).
  pose proof (WPSpec.safe_flying _ _ Hs i ltac:(apply elem_of_app; right; left)) as [Hi HR].
  pose proof (WPSpec.safe_frames _ _ Hs) as (_ & Hnew1 & [Hnew2 _]%NoDup_cons)%NoDup_app.
  simpl in *.
  destruct (frame_words_sized i) as (d & Hhead & _). exists i. rewrite Hhead.
  split; [lia|]. split; [done|]. intros cfg' Hgo.
  assert (steps (WPSpec.Link σ ρ (F1 ++ i :: F2) A) (WPSpec.Link σ ρ (F1 ++ F2) A)) as Hlose.
  { eapply rtc_l; [apply (WPSpec.step_reorder _ _ _ _ (i :: F1 ++ F2) _)|].
    - by rewrite Permutation_middle.
    - apply rtc_once, WPSpec.step_lose_frame. }
  pose proof (WPSpec.steps_safe windowSize ltac:(lia) _ _ Hs Hlose) as Hs1.
  eapply (creach_simulated_from _ (WPSpec.Link σ ρ (F1 ++ F2) A)) in Hgo
    as (l' & Hsteps & Hh'); [|split; simpl; try done; by rewrite fmap_app|done].
  assert (WPSpec.lost (WPSpec.Link σ ρ (F1 ++ F2) A) i) as Hlost.
  { split; [done|]. split; [|done]. simpl. rewrite elem_of_app.
    intros [H1|H2]; [apply (Hnew1 i H1); left|done]. }
  apply (WPSpec.reach_lost windowSize _ l') in Hlost; [|done].
  pose proof (WPSpec.steps_safe windowSize ltac:(lia) _ _ Hs1 Hsteps) as Hs'.
  pose proof (WPSpec.lost_bound windowSize l' i Hs' Hlost).
  pose proof (WPSpec.lost_count windowSize l' i Hs' Hlost).
  pose proof (holds_place _ _ _ _ _ Hh') as Hp'. pose proof (holds_served _ _ _ _ _ Hh').
  destruct (place_of cfg'); simpl in *; lia.
Qed.

(** The cursors of the two sides in a configuration the system reaches. *)
Lemma creach_cursors t cfg :
  creach fuel max windowSize (boot max windowSize msg pmsg t) cfg →
  ∃ a e k,
    stuck max windowSize msg a k (client cfg) ∧
    match place_of cfg with
    | Top j | Loop j => j = a + k
    | Sent j => j + 1 = a + k ∧ 1 ≤ k
    end ∧
    lastAckSent (server cfg).1 = seq_of windowSize (e - 1) ∧
    rstate_ok windowSize (server cfg).1 ∧
    0 ≤ a ≤ e ∧ e ≤ served cfg ≤ a + k ∧ k ≤ windowSize ∧ a + k ≤ max.
Proof.
  intros (l & Hs%(WPSpec.reach_safe windowSize ltac:(lia)) & [Hc Hsv Hm Hp Hb Hn Hu Hd])%creach_simulated.
  pose proof (WPSpec.safe_count _ _ Hs) as Hcount. pose proof (WPSpec.safe_acked _ _ Hs).
  pose proof (WPSpec.safe_sender _ _ Hs) as [? ?]. destruct Hsv as [Hok _ [Hlas _ _]].
  exists (WSSpec.acked (WPSpec.sender l)), (WRSpec.expected (WPSpec.receiver l)),
    (WSSpec.outstanding (WPSpec.sender l)).
  unfold WSSpec.outstanding in *.
  replace (WSSpec.acked (WPSpec.sender l) + (WSSpec.next (WPSpec.sender l) - WSSpec.acked (WPSpec.sender l)))
    with (WSSpec.next (WPSpec.sender l)) by lia.
  split_and!; try done; try lia; destruct (place_of cfg); lia.
Qed.

(** A frame that reaches the server is new to it and inside its
    window: the pass of the receive loop returns and counts it. *)
Lemma creach_server_pass t cfg f U :
  creach fuel max windowSize (boot max windowSize msg pmsg t) cfg →
  Chan.up (net cfg) = f :: U →
  ∃ r' a, receive_and_ack (TW := Chan.server_side) fuel windowSize (server cfg) (net cfg) =
            Done r' (Chan.Chan U (Chan.down (net cfg) ++ [[a]]) (Chan.now (net cfg))) ∧
    0 < offset r'.1 ∧ is_seq windowSize a ∧ rstate_ok windowSize r'.1.
Proof.
  intros (l & Hs%(WPSpec.reach_safe windowSize ltac:(lia)) & [Hc Hsv Hm Hp Hb Hn Hu Hd])%creach_simulated.
  destruct l as [σ ρ F A], cfg as [s p r n [U' D t']]. simpl in *. subst U' D. intros HF.
  apply fmap_cons_inv in HF as (i & F' & -> & -> & ->).
  pose proof (WPSpec.flying_accepted _ _ i Hs ltac:(left)) as Hacc. simpl in Hacc.
  destruct (serve_on_chan r ρ i (frame_words windowSize msg <$> F')
              (ack_words windowSize <$> A) t' Hfuel Hsv Hacc Hm) as (r' & Hrun & Hrep & Hoff & _).
  exists r', (seq_of windowSize (WRSpec.expected (WRSpec.deliver windowSize ρ i))).
  split_and!; [done|done|apply seq_of_is_seq; lia|apply Hrep].
Qed.

(** The next piece of the client: it returns, unless the ring is full
    with the trailing edge at the last slot. *)
Lemma creach_client_piece t cfg :
  creach fuel max windowSize (boot max windowSize msg pmsg t) cfg →
  match place_of cfg with
  | Top j => returns (timer_start (TW := Chan.client_side) (net cfg))
  | Loop j =>
      ∃ b, window_full windowSize (client cfg) (net cfg) = Done b (net cfg) ∧
        if b : bool then
          if decide (lastAckRec (client cfg) = windowSize)
          then wait_for_room (TW := Chan.client_side) max windowSize (client cfg) (net cfg) =
                 Fault (OutOfBounds ((windowSize + 1) * max)) (net cfg)
          else returns (wait_for_room (TW := Chan.client_side) max windowSize (client cfg) (net cfg))
        else returns (send_frame (TW := Chan.client_side) max windowSize j (client cfg) (net cfg))
  | Sent j =>
      returns (advance_trailing_edge (TW := Chan.client_side) windowSize
                 (slot_index max windowSize (client cfg) 1) (client cfg) (net cfg))
  end.
Proof.
  intros (l & Hs%(WPSpec.reach_safe windowSize ltac:(lia)) & [Hc Hsv Hm Hp Hb Hn Hu Hd])%creach_simulated.
  destruct l as [σ ρ F A], cfg as [s p r n [U D t']]. simpl in *. subst U D.
  pose proof (WPSpec.safe_sender _ _ Hs) as Hwf. simpl in Hwf.
  assert (∀ n, n ∈ A → WSSpec.in_reach windowSize σ n) as Hreach.
  { intros; by apply (WPSpec.flying_in_reach windowSize (WPSpec.Link σ ρ F A)); [lia|..]. }
  destruct p as [j|j|j]; [done| |].
  - eexists. split; [by apply (full_on_chan s σ)|]. case_bool_decide as Hk.
    + pose proof (turn_on_chan s σ (frame_words windowSize msg <$> F)
                    A t' Hc Hwf Hk Hreach) as Hturn.
      rewrite (stuck_lar _ _ _ _ _ _ Hc).
      destruct (decide _); [done|]. destruct Hturn as (s' & ? & ? & -> & _). done.
    + destruct (frame_on_chan s σ (frame_words windowSize msg <$> F) (ack_words windowSize <$> A)
                  t' Hc Hwf) as (s' & Heq & _); [destruct Hwf; lia|]. subst j. by rewrite Heq.
  - destruct (poll_on_chan s σ (frame_words windowSize msg <$> F) A t' Hc Hwf)
      as (s' & ? & ? & -> & _); [unfold WSSpec.outstanding; lia|done|done].
Qed.

(** ** A session that completes *)

(** The two functions between two messages, with every frame before
    [j] sent, counted and acknowledged, nothing on the channel and
    nothing retransmitted. *)
Record quiet (t j : Z) (cfg : config) (l : WPSpec.link) : Prop := {
  quiet_holds : holds' cfg l;
  quiet_safe : WPSpec.safe windowSize l;
  quiet_acked : WSSpec.acked (WPSpec.sender l) = j;
  quiet_next : WSSpec.next (WPSpec.sender l) = j;
  quiet_expected : WRSpec.expected (WPSpec.receiver l) = j;
  quiet_frames : WPSpec.frames l = [];
  quiet_acks : WPSpec.acks l = [];
  quiet_place : place_of cfg = Top j;
  quiet_retrans : retrans (client cfg) = 0;
  quiet_now : Chan.now (net cfg) = t
}.

Lemma quiet_boot t : quiet t 0 (boot max windowSize msg pmsg t) WPSpec.init.
Proof. split; try done; [apply holds_boot|apply WPSpec.safe_init; lia]. Qed.

(** The first half of a message from there: the timer is started, the
    ring has room and the frame is sent. *)
Lemma quiet_send t j s r n σ ρ :
  quiet t j (Config s (Top j) r n (Chan.Chan [] [] t)) (WPSpec.Link σ ρ [] []) → j < max →
  ∃ s1,
    creach fuel max windowSize (Config s (Top j) r n (Chan.Chan [] [] t))
      (Config s1 (Sent j) r n (Chan.Chan [frame_words windowSize msg j] [] t)) ∧
    holds' (Config s1 (Sent j) r n (Chan.Chan [frame_words windowSize msg j] [] t))
      (WPSpec.Link (WSSpec.send σ) ρ [j] []) ∧
    WPSpec.safe windowSize (WPSpec.Link (WSSpec.send σ) ρ [j] []) ∧ retrans s1 = 0.
Proof.
  intros [Hh Hs Ha Hn _ _ _ _ Hr _] Hj. simpl in *.
  pose proof (WPSpec.safe_sender _ _ Hs) as Hwf. simpl in Hwf.
  assert (WSSpec.outstanding σ = 0) as Hout by (unfold WSSpec.outstanding; lia).
  set (tm := {| startTime := t |}).
  assert (holds' (Config (with_timeout tm s) (Loop j) r n (Chan.Chan [] [] t))
            (WPSpec.Link σ ρ [] [])) as Htop by (by apply (sim_top _ s r n (Chan.Chan [] [] t))).
  pose proof (full_on_chan _ σ (Chan.Chan [] [] t) (holds_client _ _ _ _ _ Htop) Hwf) as Hfull.
  rewrite bool_decide_eq_false_2 in Hfull by lia.
  destruct (frame_on_chan (with_timeout tm s) σ [] [] t (holds_client _ _ _ _ _ Htop) Hwf)
    as (s1 & Hsend & _ & Hr1); [lia|].
  simpl in Hsend, Hr1. rewrite Hn in Hsend.
  destruct (sim_send _ _ r n _ _ _ _ σ ρ [] [] Htop Hs Hfull Hsend) as [Hroom Hsent].
  pose proof (WPSpec.safe_send windowSize _ _ _ _ Hs Hroom) as Hs1.
  rewrite Hn in Hs1, Hsent. exists s1. split_and!; [|done|done|lia].
  eapply rtc_l; [by apply (cstep_top _ _ _ j s r n _ tm)|]. by eapply rtc_once, cstep_send.
Qed.

(** One message with the server ahead of the poll of line 147: the
    frame is sent, the server counts and answers it, and the client
    reads the answer. *)
Lemma quiet_round t j cfg l :
  quiet t j cfg l → j < max →
  ∃ cfg' l', creach fuel max windowSize cfg cfg' ∧ quiet t (j + 1) cfg' l'.
Proof.
  intros Hq Hj. pose proof Hq as [Hh Hs Ha Hn He HF HA Hp Hr Ht].
  destruct l as [σ ρ F A], cfg as [s p r n [U D t0]]. simpl in *. subst F A p t0.
  pose proof Hh as [_ Hsv Hm _ _ Hserved Hu Hd]. simpl in *. subst U D.
  pose proof (WPSpec.safe_count _ _ Hs) as Hcount. simpl in Hcount.
  destruct (quiet_send t j s r n σ ρ Hq Hj) as (s1 & Hgo & Hsent & Hs1 & Hr1).
  pose proof (WPSpec.flying_accepted _ _ j Hs1 ltac:(left)) as Hacc. simpl in Hacc.
  destruct (serve_on_chan r ρ j [] [] t Hfuel Hsv Hacc Hm) as (r1 & Hserve & _ & Hoff & _).
  destruct (sim_serve _ _ _ n _ _ _ _ _ _ _ Hfuel Hsent Hs1 ltac:(lia) Hserve)
    as (i & F' & [= <- <-] & Hserved1).
  pose proof (WPSpec.safe_deliver windowSize ltac:(lia) _ _ _ _ _ Hs1) as Hs2.
  apply Z.ltb_lt in Hoff. rewrite Hoff in Hserved1. simpl in Hs2, Hserved1.
  assert (WRSpec.expected (WRSpec.deliver windowSize ρ j) = j + 1) as He1.
  { pose proof (WPSpec.safe_expected _ _ Hs2) as Hle. simpl in Hle.
    pose proof (WRSpec.expected_deliver_next windowSize ρ Hw) as Hlt. rewrite He in Hlt. lia. }
  rewrite He1 in Hs2, Hserved1, Hserve.
  pose proof (WPSpec.safe_sender _ _ Hs2) as Hwf2. simpl in Hwf2.
  destruct (poll_on_chan s1 (WSSpec.send σ) [] [j + 1] t (holds_client _ _ _ _ _ Hserved1) Hwf2)
    as (s2 & σ' & A' & Hpoll & [-> ->]%read_ack_some & _ & Hr2).
  { unfold WSSpec.outstanding. simpl. lia. }
  { intros m ->%list_elem_of_singleton. unfold WSSpec.in_reach. simpl. lia. }
  destruct (sim_poll _ _ _ _ _ _ _ _ _ _ _ Hserved1 Hs2 Hpoll)
    as (σ' & A' & [-> ->]%read_ack_some & Hdone).
  pose proof (WPSpec.safe_ack windowSize _ _ _ _ _ Hs2) as Hs3.
  eexists _, _. split.
  - eapply rtc_trans; [exact Hgo|].
    eapply rtc_l; [apply (cstep_serve fuel max windowSize s1 (Sent j) r n _ _ _ ltac:(lia) Hserve)|].
    rewrite Hoff. by apply rtc_once, cstep_poll.
  - split; try done; simpl; unfold WSSpec.ack; simpl;
      rewrite ?decide_True by lia; simpl; lia.
Qed.

Lemma quiet_reached t (k : nat) :
  Z.of_nat k ≤ max →
  ∃ cfg l, creach fuel max windowSize (boot max windowSize msg pmsg t) cfg ∧
    quiet t (Z.of_nat k) cfg l.
Proof.
  induction k as [|k IH]; intros Hk; [exists (boot max windowSize msg pmsg t), WPSpec.init; split;
                                       [apply rtc_refl|apply quiet_boot]|].
  destruct IH as (cfg & l & Hgo & Hq); [lia|].
  destruct (quiet_round t _ cfg l Hq ltac:(lia)) as (cfg' & l' & Hgo' & Hq').
  exists cfg', l'. split; [by eapply rtc_trans|]. by replace (Z.of_nat (S k)) with (Z.of_nat k + 1) by lia.
Qed.

(** The system reaches the end of both functions: every message was
    sent once and counted, and nothing is left on the channel. *)
Lemma creach_completes t :
  ∃ cfg, creach fuel max windowSize (boot max windowSize msg pmsg t) cfg ∧
    place_of cfg = Top max ∧ served cfg = max ∧ retrans (client cfg) = 0 ∧
    net cfg = Chan.Chan [] [] t.
Proof.
  destruct (quiet_reached t (Z.to_nat max)) as (cfg & l & Hgo & [Hh Hs Ha Hn He HF HA Hp Hr Ht]); [lia|].
  rewrite Z2Nat.id in * by lia. exists cfg. split_and!; try done.
  - pose proof (WPSpec.safe_count _ _ Hs). rewrite (holds_served _ _ _ _ _ Hh). lia.
  - destruct Hh as [_ _ _ _ _ _ Hu Hd], cfg as [? ? ? ? [U D t0]]. simpl in *.
    rewrite HF in Hu. rewrite HA in Hd. by subst.
Qed.

End simulation.

(** ** The functions as paths of the system *)

Section paths.
Context {PF : Platform} (fuel : nat) (max windowSize : Z).

#[local] Abbreviation goes := (creach fuel max windowSize).

(** The waiting loop of line 121: each turn is a step. *)
Lemma waiting_loop_path n j s c s' c' r k :
  while_do n (window_full windowSize) (wait_for_room (TW := Chan.client_side) max windowSize)
    s c = Done s' c' →
  ∃ c1, goes (Config s (Loop j) r k c) (Config s' (Loop j) r k c1) ∧
    window_full windowSize s' c1 = Done false c'.
Proof.
  revert s c. induction n as [|n IH]; intros s c; [done|]. rewrite while_do_S.
  destruct (window_full windowSize s c) as [[] c1| | |] eqn:Hfull; try done.
  - destruct (wait_for_room max windowSize s c1) as [s1 c2| | |] eqn:Hturn; try done.
    intros (c3 & Hgo & Hout)%IH. exists c3. split; [|done].
    eapply rtc_l; [by eapply cstep_turn|done].
  - intros [= <- <-]. exists c. split; [apply rtc_refl|done].
Qed.

(** Lines 119-148: the body of the [for] loop of the client. *)
Lemma send_message_path n j s c s' c' r k :
  j < max →
  send_message (TW := Chan.client_side) n max windowSize j s c = Done s' c' →
  goes (Config s (Top j) r k c) (Config s' (Top (j + 1)) r k c').
Proof.
  intros Hj Hrun. unfold send_message in Hrun.
  apply bind_inv_Done in Hrun as (tm & c1 & Htm & Hrun).
  apply bind_inv_Done in Hrun as (s2 & c2 & Hloop & Htail).
  rewrite send_tail_frame in Htail. apply bind_inv_Done in Htail as (s3 & c4 & Hsend & Hpoll).
  apply (waiting_loop_path _ j _ _ _ _ r k) in Hloop as (c3 & Hgo & Hout).
  eapply rtc_l; [by apply cstep_top|]. eapply rtc_trans; [done|].
  eapply rtc_l; [by eapply cstep_send|]. by apply rtc_once, cstep_poll.
Qed.

Lemma clientSlidingWindow_path n msg c ret c' r k :
  0 ≤ max →
  clientSlidingWindow (TW := Chan.client_side) n max msg windowSize c = Done ret c' →
  ∃ s', goes (Config (winit max msg windowSize) (Top 0) r k c) (Config s' (Top max) r k c') ∧
    ret = retrans s'.
Proof.
  intros Hmax Hrun. unfold clientSlidingWindow in Hrun.
  apply bind_inv_Done in Hrun as (s' & c1 & Hfor & [= <- <-]). exists s'. split; [|done].
  apply (for_range_invariant
           (λ j s1 c1, goes (Config (winit max msg windowSize) (Top 0) r k c) (Config s1 (Top j) r k c1))
           0 max _ _ _ _ _ Hmax) in Hfor; [done| |apply rtc_refl].
  intros j s1 c2 s2 c3 Hj Hgo Hbody. eapply rtc_trans; [done|]. eapply send_message_path; [lia|done].
Qed.

(** Lines 211-229: the [do ... while] of the server counts one message. *)
Lemma server_loop_path n s p r k c r' c' :
  k < max →
  do_while n (receive_and_ack (TW := Chan.server_side) fuel windowSize)
    (λ r, mret (offset r.1 <=? 0)) r c = Done r' c' →
  goes (Config s p r k c) (Config s p r' (k + 1) c').
Proof.
  intros Hk. revert r c. induction n as [|n IH]; intros r c; [done|]. rewrite do_while_S.
  destruct (receive_and_ack fuel windowSize r c) as [r1 c1| | |] eqn:Hpass; try done.
  pose proof (cstep_serve fuel max windowSize s p r k c r1 c1 Hk Hpass) as Hstep.
  change ((mret (offset r1.1 <=? 0) : prog Chan.chan bool) c1) with (Done (W := Chan.chan) (offset r1.1 <=? 0) c1).
  destruct (Z.leb_spec (offset r1.1) 0) as [Hle|Hlt].
  - rewrite (proj2 (Z.ltb_ge 0 _)) in Hstep by done. intros Hgo%IH. by eapply rtc_l.
  - rewrite (proj2 (Z.ltb_lt 0 _)) in Hstep by done. intros [= <- <-]. by apply rtc_once.
Qed.

Lemma serverEarlyRetrans_path pmsg c r' c' s p :
  0 ≤ max →
  serverEarlyRetrans (TW := Chan.server_side) fuel max pmsg windowSize c = Done r' c' →
  goes (Config s p (rinit windowSize, pmsg) 0 c) (Config s p r' max c').
Proof.
  intros Hmax Hrun. unfold serverEarlyRetrans in Hrun.
  apply (for_range_invariant
           (λ j r1 c1, goes (Config s p (rinit windowSize, pmsg) 0 c) (Config s p r1 j c1))
           0 max _ _ _ _ _ Hmax) in Hrun; [done| |apply rtc_refl].
  intros j r1 c1 r2 c2 Hj Hgo Hbody. eapply rtc_trans; [done|]. eapply server_loop_path; [lia|done].
Qed.

End paths.

(** ** The steps [play] takes are steps of the system *)

Section play.
Context {PF : Platform} (fuel : nat) (max windowSize : Z).

Lemma client_move_sound cfg cfg' :
  client_move max windowSize cfg = Some cfg' → cstep fuel max windowSize cfg cfg'.
Proof.
  destruct cfg as [s p r n c]. unfold client_move. simpl. destruct p as [j|j|j].
  - destruct (decide _); [|done].
    destruct (timer_start (TW := Chan.client_side) c) as [tm c'| | |] eqn:Htm; [|done..]. intros [= <-]. by apply cstep_top.
  - destruct (window_full windowSize s c) as [[] c1| | |] eqn:Hfull; [| |done..].
    + destruct (wait_for_room (TW := Chan.client_side) max windowSize s c1) as [s' c'| | |] eqn:Hrun; [|done..].
      intros [= <-]. by eapply cstep_turn.
    + destruct (send_frame (TW := Chan.client_side) max windowSize j s c1) as [s' c'| | |] eqn:Hrun; [|done..].
      intros [= <-]. by eapply cstep_send.
  - destruct (advance_trailing_edge (TW := Chan.client_side) windowSize _ s c) as [s' c'| | |] eqn:Hrun;
      [|done..].
    intros [= <-]. by apply cstep_poll.
Qed.

Lemma server_move_sound cfg cfg' :
  server_move fuel max windowSize cfg = Some cfg' → cstep fuel max windowSize cfg cfg'.
Proof.
  destruct cfg as [s p r n c]. unfold server_move. simpl. destruct (decide _); [|done].
  destruct (receive_and_ack (TW := Chan.server_side) fuel windowSize r c) as [r' c'| | |] eqn:Hrun; [|done..].
  intros [= <-]. by apply cstep_serve.
Qed.

Lemma play_sound m cfg cfg' :
  play fuel max windowSize m cfg = Some cfg' → cstep fuel max windowSize cfg cfg'.
Proof.
  destruct m as [| |i|i|i|d]; [apply client_move_sound|apply server_move_sound|..];
    destruct cfg as [s p r n [U D t]]; unfold play, with_net; simpl.
  - destruct (U !! i) as [f|] eqn:Hi; [|done]. intros [= <-]. rewrite delete_take_drop.
    rewrite <- (take_drop_middle U i f Hi) at 1. apply cstep_channel, lose_frame.
  - destruct (U !! i) as [f|] eqn:Hi; [|done]. intros [= <-]. rewrite delete_take_drop.
    rewrite <- (take_drop_middle U i f Hi) at 1. apply cstep_channel, overtake.
  - destruct (D !! i) as [f|] eqn:Hi; [|done]. intros [= <-]. rewrite delete_take_drop.
    rewrite <- (take_drop_middle D i f Hi) at 1. apply cstep_channel, lose_ack.
  - destruct (decide _); [|done]. intros [= <-]. by apply cstep_channel, tick.
Qed.

Lemma plays_sound ms cfg cfg' :
  plays fuel max windowSize ms cfg = Some cfg' → creach fuel max windowSize cfg cfg'.
Proof.
  revert cfg. induction ms as [|m ms IH]; intros cfg; simpl; [intros [= <-]; apply rtc_refl|].
  destruct (play fuel max windowSize m cfg) as [cfg1|] eqn:Hm; [|done]. simpl. intros Hms%IH.
  eapply rtc_l; [exact (play_sound m _ _ Hm)|done].
Qed.

End play.

(** ** Sessions *)

(** The sizes of a session: an [int] is one word, the window is not
    empty, the fuel covers the slide loop of the receiver, the buffers of
    the two callers hold a frame, and so does a slot of [buffer]. *)
Record well_sized {PF : Platform} (fuel : nat) (max windowSize : Z) (msg pmsg : list Z) : Prop := {
  sized_int : words_of sizeof_int = 1%nat;
  sized_window : 1 ≤ windowSize;
  sized_fuel : (Z.to_nat windowSize + 1 ≤ fuel)%nat;
  sized_msg : (1 ≤ words_of sizeof_ptr ≤ length msg)%nat;
  sized_pmsg : (words_of sizeof_ptr ≤ length pmsg)%nat;
  sized_max : Z.of_nat (words_of sizeof_ptr) ≤ max
}.

Lemma well_sized_LP64 windowSize :
  1 ≤ windowSize ≤ 2 → well_sized (PF := LP64) 3 3 windowSize [9; 9] [0; 0].
Proof.
  intros. split; [done|lia|lia|change (1 ≤ 2 ≤ 2)%nat; lia|change (2 ≤ 2)%nat; lia|change (2 ≤ 3); lia].
Qed.

(** Sessions of three messages on a platform with 8-byte pointers.
    With a window of 2: the first frame is on the channel; the server
    has received it and answered.  With a window of 1 and a server that
    answers each frame after the client has polled for its
    acknowledgment ([late_server]): the client has sent two frames, has
    read the acknowledgment of the first in the waiting loop, and is at
    the test of line 121 for the third.  With a window of 1 and a server
    that answers each frame before the client polls ([prompt_server]):
    the client has sent every message and the server has counted
    them. *)
Definition first_sent : config :=
  Eval vm_compute in
    default (boot 3 2 [9; 9] [0; 0] 0)
      (plays (PF := LP64) 3 3 2 [Client; Client] (boot 3 2 [9; 9] [0; 0] 0)).

Definition first_served : config :=
  Eval vm_compute in
    default (boot 3 2 [9; 9] [0; 0] 0)
      (plays (PF := LP64) 3 3 2 [Client; Client; Server] (boot 3 2 [9; 9] [0; 0] 0)).

Definition late_server : list move :=
  [Client; Client; Client; Server; Client; Client; Client; Client; Client].

Definition prompt_server : list move :=
  [Client; Client; Server; Client; Client; Client; Server; Client;
   Client; Client; Server; Client].

Definition third_waits : config :=
  Eval vm_compute in
    default (boot 3 1 [9; 9] [0; 0] 0)
      (plays (PF := LP64) 3 3 1 late_server (boot 3 1 [9; 9] [0; 0] 0)).

Definition all_served : config :=
  Eval vm_compute in
    default (boot 3 1 [9; 9] [0; 0] 0)
      (plays (PF := LP64) 3 3 1 prompt_server (boot 3 1 [9; 9] [0; 0] 0)).

Lemma first_sent_reached : creach (PF := LP64) 3 3 2 (boot 3 2 [9; 9] [0; 0] 0) first_sent.
Proof. by apply (plays_sound (PF := LP64) 3 3 2 [Client; Client]). Qed.

Lemma first_served_reached : creach (PF := LP64) 3 3 2 (boot 3 2 [9; 9] [0; 0] 0) first_served.
Proof. by apply (plays_sound (PF := LP64) 3 3 2 [Client; Client; Server]). Qed.

Lemma third_waits_reached : creach (PF := LP64) 3 3 1 (boot 3 1 [9; 9] [0; 0] 0) third_waits.
Proof. by apply (plays_sound (PF := LP64) 3 3 1 late_server). Qed.

Lemma all_served_reached : creach (PF := LP64) 3 3 1 (boot 3 1 [9; 9] [0; 0] 0) all_served.
Proof. by apply (plays_sound (PF := LP64) 3 3 1 prompt_server). Qed.

(** The read of line 135 leaves [buffer] in a configuration the system
    reaches: the client cannot move. *)
Example third_waits_faults :
  place_of third_waits = Loop 2 ∧
  wait_for_room (TW := Chan.client_side) (PF := LP64) 3 1 (client third_waits) (net third_waits) =
    Fault (OutOfBounds 6) (net third_waits) ∧
  play (PF := LP64) 3 3 1 Client third_waits = None.
Proof. done. Qed.

(** The same session with the server ahead of every poll of line 147:
    the waiting loop is never entered, both functions are through
    their loops, nothing was retransmitted and nothing is left on the
    channel. *)
Example all_served_done :
  place_of all_served = Top 3 ∧ served all_served = 3 ∧ retrans (client all_served) = 0 ∧
  net all_served = Chan.Chan [] [] 0 ∧
  play (PF := LP64) 3 3 1 Client all_served = None ∧
  play (PF := LP64) 3 3 1 Server all_served = None.
Proof. done. Qed.

(** ** What holds in every configuration the system reaches *)

Section claims.
Context {PF : Platform} (fuel : nat) (max windowSize : Z) (msg pmsg : list Z).
Context (Hsized : well_sized fuel max windowSize msg pmsg).

#[local] Abbreviation reached t := (creach fuel max windowSize (boot max windowSize msg pmsg t)).

(** C5: the two functions together refine the two specifications on a
    channel.  However the pieces of [clientSlidingWindow], the passes of
    the loop of [serverEarlyRetrans], the losses of frames and of
    acknowledgments, the overtaking of frames and the passing of time
    interleave, the configuration reached holds a state that [WPSpec]
    reaches: the locals of each function represent its side, and the
    channel carries the frames and acknowledgments of that state, which
    satisfies the invariant [safe]. *)
Theorem system_refines t cfg :
  reached t cfg →
  ∃ l, WPSpec.reach windowSize WPSpec.init l ∧ WPSpec.safe windowSize l ∧
    holds max windowSize msg cfg l.
Proof.
  destruct Hsized. intros (l & Hreach & Hh)%creach_simulated; [|done..].
  exists l. split_and!; [done|apply WPSpec.reach_safe; [lia|done]|done].
Qed.

(** C6: the cursors of the two functions stay in order in every
    interleaving.  In a configuration the system reaches, with [a] the
    first frame the client has not seen acknowledged, [k] the frames
    outstanding in its ring and [e] the first frame the server misses:
    the client has sent the messages before [a + k], and is at message
    [a + k], or at message [a + k - 1] before the call of line 147; it
    has not released a frame that the server misses ([a ≤ e]); the
    server has counted at least the frames before [e] and no more than
    were sent ([e ≤ served ≤ a + k]); at most [windowSize] frames are
    outstanding and no more than [max] were sent. *)
Theorem system_cursors_ordered t cfg :
  reached t cfg →
  ∃ a e k,
    stuck max windowSize msg a k (client cfg) ∧
    match place_of cfg with
    | Top j | Loop j => j = a + k
    | Sent j => j + 1 = a + k ∧ 1 ≤ k
    end ∧
    lastAckSent (server cfg).1 = seq_of windowSize (e - 1) ∧
    rstate_ok windowSize (server cfg).1 ∧
    0 ≤ a ≤ e ∧ e ≤ served cfg ≤ a + k ∧ k ≤ windowSize ∧ a + k ≤ max.
Proof. destruct Hsized. by apply creach_cursors. Qed.

(** C14: on a channel that loses and reorders frames and never repeats
    one, every frame that reaches [serverEarlyRetrans] is new and inside
    its window.  In a configuration the system reaches with a frame at
    the head of the channel, the pass of the receive loop (lines 213-228)
    returns without fault, consumes that frame, answers with one sequence
    number, and leaves [offset] positive, so that the [do ... while] of
    line 229 ends and the frame is counted as one of the [max]
    messages. *)
Theorem server_counts_every_frame t cfg f U :
  reached t cfg → Chan.up (net cfg) = f :: U →
  ∃ r' a, receive_and_ack (TW := Chan.server_side) fuel windowSize (server cfg) (net cfg) =
            Done r' (Chan.Chan U (Chan.down (net cfg) ++ [[a]]) (Chan.now (net cfg))) ∧
    0 < offset r'.1 ∧ is_seq windowSize a ∧ rstate_ok windowSize r'.1.
Proof. destruct Hsized. by apply creach_server_pass. Qed.

(** C13: the read of line 135 is the only fault of the client in any
    interleaving.  In a configuration the system reaches, the piece of
    [clientSlidingWindow] that is next returns: the start of the timer
    at the top of the loop; at the test of line 121, which returns, the
    sending of the frame (lines 139-145) with room in the ring, and with
    the ring full the turn of the waiting loop (lines 122-136), unless
    [lastAckRec] is [windowSize], and then it reads [buffer] at its
    length; after the frame is sent, the call of line 147. *)
Theorem client_faults_at_last_slot_only t cfg :
  reached t cfg →
  match place_of cfg with
  | Top j => returns (timer_start (TW := Chan.client_side) (net cfg))
  | Loop j =>
      ∃ b, window_full windowSize (client cfg) (net cfg) = Done b (net cfg) ∧
        if b : bool then
          if decide (lastAckRec (client cfg) = windowSize)
          then wait_for_room (TW := Chan.client_side) max windowSize (client cfg) (net cfg) =
                 Fault (OutOfBounds ((windowSize + 1) * max)) (net cfg)
          else returns (wait_for_room (TW := Chan.client_side) max windowSize (client cfg) (net cfg))
        else returns (send_frame (TW := Chan.client_side) max windowSize j (client cfg) (net cfg))
  | Sent j =>
      returns (advance_trailing_edge (TW := Chan.client_side) windowSize
                 (slot_index max windowSize (client cfg) 1) (client cfg) (net cfg))
  end.
Proof. destruct Hsized. by apply creach_client_piece. Qed.

(** C12: a frame that the channel loses is never made up for, whatever
    happens afterwards.  When the channel loses a frame in a
    configuration the system has reached, that frame carries the
    sequence number of some message [i], and in every configuration
    reached from then on, in any interleaving, the client is at message
    [i + windowSize] at most and the server has counted fewer than
    [i + windowSize] frames: with [i + windowSize] messages or more,
    [serverEarlyRetrans] never completes its loop, and with more than
    that neither does [clientSlidingWindow]. *)
Theorem system_loss_is_final t s p r n U1 f U2 D t' :
  reached t (Config s p r n (Chan.Chan (U1 ++ f :: U2) D t')) →
  ∃ i, 0 ≤ i ∧ hd_error f = Some (seq_of windowSize i) ∧
    ∀ cfg', creach fuel max windowSize (Config s p r n (Chan.Chan (U1 ++ U2) D t')) cfg' →
      msgNum (place_of cfg') ≤ i + windowSize ∧ served cfg' < i + windowSize.
Proof. destruct Hsized. by apply creach_stalls. Qed.

(** C15: the two functions can complete.  For every window and every
    number of messages the system has a path from [boot], the one on
    which the server answers each frame before the client polls for the
    acknowledgment in line 147, to a configuration in which the client
    has left its [for] loop and the server has counted [max] messages:
    no side has a step left, nothing was retransmitted and nothing is on
    the channel. *)
Theorem system_can_complete t :
  ∃ cfg, reached t cfg ∧ place_of cfg = Top max ∧ served cfg = max ∧
    retrans (client cfg) = 0 ∧ net cfg = Chan.Chan [] [] t ∧
    client_move max windowSize cfg = None ∧ server_move fuel max windowSize cfg = None.
Proof.
  destruct Hsized. destruct (creach_completes fuel max windowSize) with (msg := msg) (pmsg := pmsg) (t := t)
    as (cfg & Hgo & Hp & Hn & Hr & Hc); [done..|].
  exists cfg. split_and!; [done..| |].
  - unfold client_move. rewrite Hp. by rewrite decide_False by lia.
  - unfold server_move. by rewrite decide_False by lia.
Qed.

End claims.

(** C24: the steps of the system are the two functions.  A run of
    [clientSlidingWindow] on the client's side of the channel that
    returns is a path of the system on which only the client moves, from
    the top of the loop for message 0 to the top for message [max], and
    the value returned is [retrans] at its end; a run of
    [serverEarlyRetrans] on the server's side that returns is a path on
    which only the server moves and counts [max] messages. *)
Theorem functions_are_paths {PF : Platform} fuel max windowSize :
  0 ≤ max →
  (∀ n msg c ret c' r k,
     clientSlidingWindow (TW := Chan.client_side) n max msg windowSize c = Done ret c' →
     ∃ s', creach fuel max windowSize (Config (winit max msg windowSize) (Top 0) r k c)
             (Config s' (Top max) r k c') ∧ ret = retrans s') ∧
  (∀ pmsg c r' c' s p,
     serverEarlyRetrans (TW := Chan.server_side) fuel max pmsg windowSize c = Done r' c' →
     creach fuel max windowSize (Config s p (rinit windowSize, pmsg) 0 c) (Config s p r' max c')).
Proof.
  intros Hmax. split; intros.
  - by eapply clientSlidingWindow_path.
  - by eapply serverEarlyRetrans_path.
Qed.

Lemma system_refines_witness :
  ∃ l, WPSpec.reach 2 WPSpec.init l ∧ WPSpec.safe 2 l ∧
    holds (PF := LP64) 3 2 [9; 9] first_served l.
Proof.
  exact (system_refines (PF := LP64) 3 3 2 [9; 9] [0; 0] (well_sized_LP64 2 ltac:(lia)) 0 _
           first_served_reached).
Defined.

Lemma system_cursors_ordered_witness :
  ∃ a e k,
    stuck 3 2 [9; 9] a k (client first_served) ∧
    (0 + 1 = a + k ∧ 1 ≤ k) ∧
    lastAckSent (server first_served).1 = seq_of 2 (e - 1) ∧
    rstate_ok 2 (server first_served).1 ∧
    0 ≤ a ≤ e ∧ e ≤ served first_served ≤ a + k ∧ k ≤ 2 ∧ a + k ≤ 3.
Proof.
  exact (system_cursors_ordered (PF := LP64) 3 3 2 [9; 9] [0; 0] (well_sized_LP64 2 ltac:(lia))
           0 _ first_served_reached).
Defined.

Lemma server_counts_every_frame_witness :
  ∃ r' a, receive_and_ack (TW := Chan.server_side) (PF := LP64) 3 2 (server first_sent)
            (net first_sent) =
            Done r' (Chan.Chan [] (Chan.down (net first_sent) ++ [[a]]) (Chan.now (net first_sent))) ∧
    0 < offset r'.1 ∧ is_seq 2 a ∧ rstate_ok 2 r'.1.
Proof.
  exact (server_counts_every_frame (PF := LP64) 3 3 2 [9; 9] [0; 0] (well_sized_LP64 2 ltac:(lia))
           0 _ [0; 9] [] first_sent_reached eq_refl).
Defined.

Lemma client_faults_at_last_slot_only_witness :
  ∃ b, window_full 1 (client third_waits) (net third_waits) = Done b (net third_waits) ∧
    if b : bool then
      if decide (lastAckRec (client third_waits) = 1)
      then wait_for_room (TW := Chan.client_side) (PF := LP64) 3 1 (client third_waits)
             (net third_waits) = Fault (OutOfBounds ((1 + 1) * 3)) (net third_waits)
      else returns (wait_for_room (TW := Chan.client_side) (PF := LP64) 3 1 (client third_waits)
                      (net third_waits))
    else returns (send_frame (TW := Chan.client_side) (PF := LP64) 3 1 2 (client third_waits)
                    (net third_waits)).
Proof.
  exact (client_faults_at_last_slot_only (PF := LP64) 3 3 1 [9; 9] [0; 0]
           (well_sized_LP64 1 ltac:(lia)) 0 _ third_waits_reached).
Defined.

Lemma functions_are_paths_witness :
  ∃ s', creach (PF := LP64) 3 2 2 (Config (winit 2 [9; 9] 2) (Top 0) (rinit 2, [0; 0]) 0
                                   (Chan.Chan [] [] 0))
          (Config s' (Top 2) (rinit 2, [0; 0]) 0 (Chan.Chan [[0; 9]; [1; 9]] [] 0)) ∧
    0 = retrans s'.
Proof.
  apply (proj1 (functions_are_paths (PF := LP64) 3 2 2 ltac:(lia)) 1%nat [9; 9]
           (Chan.Chan [] [] 0) 0 (Chan.Chan [[0; 9]; [1; 9]] [] 0) (rinit 2, [0; 0]) 0).
  vm_compute. reflexivity.
Defined.

Lemma system_loss_is_final_witness :
  ∃ i, 0 ≤ i ∧ hd_error [0; 9] = Some (seq_of 2 i) ∧
    ∀ cfg',
      creach (PF := LP64) 3 3 2
        (Config (client first_sent) (Sent 0) (server first_sent) 0 (Chan.Chan ([] ++ []) [] 0))
        cfg' →
      msgNum (place_of cfg') ≤ i + 2 ∧ served cfg' < i + 2.
Proof.
  exact (system_loss_is_final (PF := LP64) 3 3 2 [9; 9] [0; 0] (well_sized_LP64 2 ltac:(lia)) 0
           (client first_sent) (Sent 0) (server first_sent) 0 [] [0; 9] [] [] 0
           first_sent_reached).
Defined.

Lemma system_can_complete_witness :
  ∃ cfg, creach (PF := LP64) 3 3 1 (boot 3 1 [9; 9] [0; 0] 0) cfg ∧
    place_of cfg = Top 3 ∧ served cfg = 3 ∧ retrans (client cfg) = 0 ∧
    net cfg = Chan.Chan [] [] 0 ∧
    client_move (PF := LP64) 3 1 cfg = None ∧ server_move (PF := LP64) 3 3 1 cfg = None.
Proof.
  exact (system_can_complete (PF := LP64) 3 3 1 [9; 9] [0; 0] (well_sized_LP64 1 ltac:(lia)) 0).
Defined.
