(* ===== verification/StopWait.v ===== *)
(** * Stop-and-wait: [clientStopWait] and [serverReliable]

    [src/udp.cpp] lines 33-61 and 73-82.  The client numbers message
    [msgNum] with the bit [msgNum & 1], sends it, polls for an answer and
    resends whenever the timer passes [MAX_TIME]; it reads the answer and
    repeats the whole exchange until the answer equals the bit it sent.
    The server receives a frame, echoes its first word as the
    acknowledgment, and repeats until the guard of line 80 lets it go on
    to the next message.

    [cstate] holds the client's locals.  [wait_reply] is the polling loop
    (lines 46-53), [send_and_wait] one iteration of the [do ... while]
    (lines 42-57), [clientStopWait] the function.  [server_guard] is the
    condition of line 80 as C++ parses it, [recv_and_echo] the body of the
    server's loop, [serverReliable] the function.

    The pieces between two operations on the socket are definitions of
    their own ([number_message], [send_once], [no_reply], [read_answer],
    [try_again]); the loops are their composition
    ([send_and_wait_pieces], [exchange_pieces], [await_message_pieces]).
    [StopWaitSystem.v] interleaves them with the other side.
    [bit_words] is the frame of a message as the socket carries it. *)

From stdpp Require Import prelude.
From S2P Require Import Prelude Transport.

#[local] Open Scope Z_scope.
#[local] Open Scope cint_scope.

(** ** The client *)

Record cstate : Type := {
  retrans : Z;
  seqNum : Z;
  timeout : Timer;
  message : list Z
}.

(** Lines 34-36: the locals at entry. *)
Definition cinit (message : list Z) : cstate :=
  {| retrans := 0; seqNum := 1; timeout := {| startTime := 0 |}; message := message |}.

Definition set_timeout (tm : Timer) (s : cstate) : cstate :=
  {| retrans := retrans s; seqNum := seqNum s; timeout := tm; message := message s |}.

Definition set_message (msg : list Z) (s : cstate) : cstate :=
  {| retrans := retrans s; seqNum := seqNum s; timeout := timeout s; message := msg |}.

Definition set_seqNum (v : Z) (s : cstate) : cstate :=
  {| retrans := retrans s; seqNum := v; timeout := timeout s; message := message s |}.

Definition add_retrans (d : Z) (s : cstate) : cstate :=
  {| retrans := retrans s + d; seqNum := seqNum s; timeout := timeout s; message := message s |}.

(** Line 80, [message[0] != msgToAck & 1]: [!=] binds tighter than [&], so
    the comparison is made first and its result is masked with 1. *)
Definition server_guard (m0 msgToAck : Z) : bool :=
  i2b (Z.land (b2i (negb (m0 =? msgToAck))) 1).

(** The comparison the comment of line 79 describes: the received bit
    against the bit of [msgToAck]. *)
Definition expected_bit_guard (m0 msgToAck : Z) : bool :=
  negb (m0 =? Z.land msgToAck 1).

Section stopwait.
Context {W : Type} {TW : Transport W} {PF : Platform}.

(** Lines 47-52: the body of the polling loop. *)
Definition resend_on_timeout (s : cstate) : prog W cstate :=
  t ← timer_lap (timeout s);
  if MAX_TIME <? t then
    sendTo_array (message s) sizeof_ptr;;
    tm ← timer_start;
    mret (set_timeout tm (add_retrans 1 s))
  else mret s.

(** Lines 46-53: [while (sock.pollRecvFrom() < 1) ...]. *)
Definition wait_reply (fuel : nat) : cstate → prog W cstate :=
  while_do fuel (λ _, n ← pollRecvFrom; mret (n <? 1)) resend_on_timeout.

(** Lines 43-44: the frame is sent and the timer started. *)
Definition send_once (s : cstate) : prog W cstate :=
  sendTo_array (message s) sizeof_ptr;;
  tm ← timer_start;
  mret (set_timeout tm s).

(** Line 46: the test of the polling loop. *)
Definition no_reply : prog W bool := n ← pollRecvFrom; mret (n <? 1).

(** Lines 54-56: the answer is read into [seqNum] and counted when it
    differs from the bit that was sent. *)
Definition read_answer (s : cstate) : prog W cstate :=
  r ← recvFrom_int (Some (seqNum s));
  v ← checked Indeterminate r;
  m0 ← checked (OutOfBounds 0) (load (message s) 0);
  mret (add_retrans (Z.lxor v m0) (set_seqNum v s)).

(** Line 40: the message is numbered with the bit of [msgNum]. *)
Definition number_message (msgNum : Z) (s : cstate) : prog W cstate :=
  msg ← checked (OutOfBounds 0) (store (message s) 0 (Z.land msgNum 1));
  mret (set_message msg s).

(** Lines 43-56: one iteration of the [do ... while]. *)
Definition send_and_wait (fuel : nat) (s : cstate) : prog W cstate :=
  sendTo_array (message s) sizeof_ptr;;
  tm ← timer_start;
  s ← wait_reply fuel (set_timeout tm s);
  r ← recvFrom_int (Some (seqNum s));
  v ← checked Indeterminate r;
  m0 ← checked (OutOfBounds 0) (load (message s) 0);
  mret (add_retrans (Z.lxor v m0) (set_seqNum v s)).

(** Line 57: [seqNum != message[0]]. *)
Definition ack_mismatch (s : cstate) : prog W bool :=
  m0 ← checked (OutOfBounds 0) (load (message s) 0);
  mret (negb (seqNum s =? m0)).

(** Lines 40-57: the exchange for message [msgNum]. *)
Definition exchange (fuel : nat) (msgNum : Z) (s : cstate) : prog W cstate :=
  msg ← checked (OutOfBounds 0) (store (message s) 0 (Z.land msgNum 1));
  do_while fuel (send_and_wait fuel) ack_mismatch (set_message msg s).

(** [int clientStopWait(UdpSocket &sock, const int max, int message[])] *)
Definition clientStopWait (fuel : nat) (max : Z) (message : list Z) : prog W Z :=
  s ← for_range 0 max (exchange fuel) (cinit message);
  mret (retrans s).

(** ** The server *)

(** Lines 77-78: receive a frame and echo its first word. *)
Definition recv_and_echo (message : list Z) : prog W (list Z) :=
  message ← recvFrom_array message sizeof_ptr;
  m0 ← checked (OutOfBounds 0) (load message 0);
  ackTo_int m0;;
  mret message.

(** Line 80: the guard of the [do ... while]. *)
Definition try_again (msgToAck : Z) (message : list Z) : prog W bool :=
  m0 ← checked (OutOfBounds 0) (load message 0);
  mret (server_guard m0 msgToAck).

(** Lines 76-80: the [do ... while] for message [msgToAck]. *)
Definition await_message (fuel : nat) (msgToAck : Z) : list Z → prog W (list Z) :=
  do_while fuel recv_and_echo
    (λ message, m0 ← checked (OutOfBounds 0) (load message 0);
                mret (server_guard m0 msgToAck)).

(** [void serverReliable(UdpSocket &sock, const int max, int message[])];
    the result is the final content of [message]. *)
Definition serverReliable (fuel : nat) (max : Z) (message : list Z) : prog W (list Z) :=
  for_range 0 max (await_message fuel) message.

(** The iteration of the [do ... while] and the exchange in pieces. *)
Lemma send_and_wait_pieces fuel s (w : W) :
  send_and_wait fuel s w =
  (s ← send_once s; s ← while_do fuel (λ _, no_reply) resend_on_timeout s; read_answer s) w.
Proof.
  unfold send_and_wait, send_once, wait_reply, read_answer, no_reply. prog_simp.
  destruct (sendTo_array _ _ w) as [[] w1| | |]; [|done..]. by destruct (timer_start w1).
Qed.

Lemma await_message_pieces fuel msgToAck message (w : W) :
  await_message fuel msgToAck message w =
  do_while fuel recv_and_echo (try_again msgToAck) message w.
Proof. done. Qed.

Lemma exchange_pieces fuel msgNum s (w : W) :
  exchange fuel msgNum s w =
  (s ← number_message msgNum s; do_while fuel (send_and_wait fuel) ack_mismatch s) w.
Proof.
  unfold exchange, number_message. prog_simp.
  by destruct (store (message s) 0 (Z.land msgNum 1)).
Qed.

End stopwait.

(** ** What the two sides exchange *)

(** A frame of the alternating-bit protocol: its first word is a bit. *)
Definition bit_frame (d : list Z) : Prop := ∃ b rest, d = b :: rest ∧ 0 ≤ b ≤ 1.

(** The acknowledgments for a sequence of frames received into a buffer
    whose first word is [m0]: the first word of each frame, or the word
    already in the buffer when the frame is empty. *)
Fixpoint echoes (m0 : Z) (frames : list (list Z)) : list datagram :=
  match frames with
  | [] => []
  | d :: frames => Words [hd m0 d] :: echoes (hd m0 d) frames
  end.

(** The first word of the buffer after those frames. *)
Definition last_word (m0 : Z) (frames : list (list Z)) : Z :=
  foldl (λ m d, hd m d) m0 frames.

(** The datagram that a [sendTo] of the client's buffer hands over. *)
Definition cframe {PF : Platform} (s : cstate) : datagram :=
  Words (take (words_of sizeof_ptr) (message s)).

(** The frame for message [msgNum]: the caller's buffer with the bit of
    [msgNum] in its first word. *)
Definition client_frame {PF : Platform} (message : list Z) (msgNum : Z) : datagram :=
  Words (take (words_of sizeof_ptr) (<[0%nat := Z.land msgNum 1]> message)).

(** The words of the frame for message [j]: the caller's buffer with the
    bit of [j] in its first word. *)
Definition bit_words {PF : Platform} (message : list Z) (j : Z) : list Z :=
  take (words_of sizeof_ptr) (<[0%nat := Z.land j 1]> message).

(** What the client hands to the transport when it sends message [i]
    [k] times, then message [i + 1], and so on, [ks] giving the number of
    times for each. *)
Fixpoint client_sends {PF : Platform} (message : list Z) (i : Z) (ks : list nat) : list datagram :=
  match ks with
  | [] => []
  | k :: ks => replicate k (client_frame message i) ++ client_sends message (i + 1) ks
  end.

(** The answers of a receiver when nothing is lost or repeated: to
    message [i], a datagram whose first word is the bit of [i]. *)
Definition right_answers (acks : list (Z * list Z)) : Prop :=
  ∀ i t d, acks !! i = Some (t, d) → hd_error d = Some (Z.land (Z.of_nat i) 1).

(** [fuel] covers the polls from time [now] until the last of [acks] has
    arrived. *)
Definition covers (fuel : nat) (now : Z) (acks : list (Z * list Z)) : Prop :=
  Forall (λ a, (Z.to_nat (a.1 - now) < fuel)%nat) acks.

(** Between [(s, w)] and [(s', w')] the client only resent its frame, [k]
    times, and counted it. *)
Definition resent {PF : Platform} (s : cstate) (w : SimNet.net)
    (s' : cstate) (w' : SimNet.net) (k : nat) : Prop :=
  message s' = message s ∧ seqNum s' = seqNum s ∧ retrans s' = retrans s + Z.of_nat k ∧
  SimNet.inbox w' = SimNet.inbox w ∧ SimNet.sent w' = SimNet.sent w ++ replicate k (cframe s).

(** ** The frames *)

Lemma bit_words_head {PF : Platform} msg j :
  (1 ≤ words_of sizeof_ptr)%nat → (1 ≤ length msg)%nat →
  ∃ d, bit_words msg j = Z.land j 1 :: d.
Proof.
  intros Hptr Hlen. unfold bit_words. destruct msg as [|m0 s]; [simpl in Hlen; lia|].
  destruct (words_of sizeof_ptr); [lia|]. simpl. eauto.
Qed.

Lemma bit_words_length {PF : Platform} msg j :
  (words_of sizeof_ptr ≤ length msg)%nat → length (bit_words msg j) = words_of sizeof_ptr.
Proof. intros. unfold bit_words. rewrite length_take, length_insert. lia. Qed.

(** ** The guard of the server's loop *)

Lemma server_guard_neq m0 msgToAck : server_guard m0 msgToAck = negb (m0 =? msgToAck).
Proof. unfold server_guard. by rewrite b2i_land_1, i2b_b2i. Qed.

Lemma server_guard_bit m0 msgToAck : 2 ≤ msgToAck → 0 ≤ m0 ≤ 1 → server_guard m0 msgToAck = true.
Proof. intros. rewrite server_guard_neq. zbool. Qed.

(** The guard of line 80 is true exactly when the received word differs
    from [msgToAck] itself, not from its low bit: the loop is left only by
    a frame whose first word equals the message index. *)
Lemma server_guard_compares_index m0 msgToAck :
  server_guard m0 msgToAck = false ↔ m0 = msgToAck.
Proof. rewrite server_guard_neq. destruct (Z.eqb_spec m0 msgToAck); naive_solver. Qed.

(** For the first two messages the guard is the alternating-bit
    test, and from the third message on it differs from it on the very
    frame the client sends: a frame that carries the expected bit
    [msgToAck & 1] does not end the loop. *)
Theorem server_guard_rejects_expected_bit msgToAck :
  (0 ≤ msgToAck ≤ 1 → ∀ m0, server_guard m0 msgToAck = expected_bit_guard m0 msgToAck) ∧
  (2 ≤ msgToAck →
     expected_bit_guard (Z.land msgToAck 1) msgToAck = false ∧
     ∀ m0, 0 ≤ m0 ≤ 1 → server_guard m0 msgToAck = true).
Proof.
  split.
  - intros Hb m0. rewrite server_guard_neq. unfold expected_bit_guard.
    by assert (msgToAck = 0 ∨ msgToAck = 1) as [-> | ->] by lia.
  - intros Hge. split.
    + unfold expected_bit_guard. by rewrite Z.eqb_refl.
    + intros m0 Hm0. by apply server_guard_bit.
Qed.

(** ** Properties of the world that the transport keeps *)

Section stable_programs.
Context {W : Type} {TW : Transport W} {PF : Platform} (P : W → Prop) (HP : stable P).

Lemma exchange_preserves fuel msgNum s : preserves P (exchange fuel msgNum s).
Proof.
  unfold exchange, send_and_wait, wait_reply, resend_on_timeout, ack_mismatch.
  preserves_tac.
Qed.

Lemma clientStopWait_preserves fuel max message : preserves P (clientStopWait fuel max message).
Proof.
  unfold clientStopWait. apply preserves_bind; [|auto with prog].
  apply preserves_for_range. intros. apply exchange_preserves.
Qed.

Lemma await_message_preserves fuel msgToAck message :
  preserves P (await_message fuel msgToAck message).
Proof. unfold await_message, recv_and_echo. preserves_tac. Qed.

Lemma serverReliable_preserves fuel max message : preserves P (serverReliable fuel max message).
Proof. apply preserves_for_range. intros. apply await_message_preserves. Qed.

End stable_programs.

(** ** The client only receives after a poll that found a datagram *)

Section client_polls.
Context {W : Type} {TW : Transport W} {PF : Platform} {TL : TransportLaws W}.

Lemma checked_not_blocked {A} e (o : option A) (w : W) : ¬ is_blocked (checked e o w).
Proof. destruct o; simpl; tauto. Qed.

Lemma resend_on_timeout_not_blocked s (w : W) : ¬ is_blocked (resend_on_timeout s w).
Proof.
  unfold resend_on_timeout. rewrite (bind_Done _ _ _ _ _ (timer_lap_run _ _)).
  case_match; [|simpl; tauto].
  apply bind_not_blocked; [apply sendTo_array_not_blocked|]. intros _ w' _.
  rewrite (bind_Done _ _ _ _ _ (timer_start_run _)). simpl. tauto.
Qed.

Lemma wait_reply_not_blocked fuel s (w : W) : ¬ is_blocked (wait_reply fuel s w).
Proof.
  apply loop_not_blocked. intros s1 w1.
  apply bind_not_blocked; [simpl; tauto|]. intros [] w2 _; [|simpl; tauto].
  apply bind_not_blocked; [apply resend_on_timeout_not_blocked|]. simpl. tauto.
Qed.

(** The polling loop is left right after a poll that reported a datagram. *)
Lemma wait_reply_polled fuel s (w : W) s' w' :
  wait_reply fuel s w = Done s' w' →
  ∃ w1, w' = (sock_pollRecvFrom w1).2 ∧ 0 < (sock_pollRecvFrom w1).1.
Proof.
  intros Hrun. apply (while_do_invariant (λ _ _, True)) in Hrun as (w1 & _ & Hc); [|done..].
  exists w1. calls_inv. split; [done|]. lia.
Qed.

Lemma send_and_wait_not_blocked fuel s (w : W) : ¬ is_blocked (send_and_wait fuel s w).
Proof.
  unfold send_and_wait.
  apply bind_not_blocked; [apply sendTo_array_not_blocked|]. intros _ w1 _.
  rewrite (bind_Done _ _ _ _ _ (timer_start_run _)).
  apply bind_not_blocked; [apply wait_reply_not_blocked|].
  intros s1 w2 (w3 & -> & Hpoll)%wait_reply_polled.
  apply bind_not_blocked.
  - pose proof (recvFrom_int_after_poll (Some (seqNum s1)) w3 Hpoll) as Hret.
    destruct (recvFrom_int _ _); simpl in *; tauto.
  - intros r w4 _. apply bind_not_blocked; [apply checked_not_blocked|]. intros v w5 _.
    apply bind_not_blocked; [apply checked_not_blocked|]. simpl. tauto.
Qed.

Lemma exchange_not_blocked fuel j s (w : W) : ¬ is_blocked (exchange fuel j s w).
Proof.
  unfold exchange. apply bind_not_blocked; [apply checked_not_blocked|]. intros msg w1 _.
  apply loop_not_blocked. intros s1 w2.
  apply bind_not_blocked; [apply send_and_wait_not_blocked|]. intros s2 w3 _.
  apply bind_not_blocked; [|simpl; tauto].
  unfold ack_mismatch. apply bind_not_blocked; [apply checked_not_blocked|]. simpl. tauto.
Qed.

End client_polls.

(** On any transport on which a receive that follows a successful
    poll does not block, the client never blocks in a receive: whatever
    arrives and whenever, it is polling, sending or returning. *)
Theorem clientStopWait_not_blocked {W : Type} {TW : Transport W} {PF : Platform}
    {TL : TransportLaws W} fuel max message (w : W) :
  ¬ is_blocked (clientStopWait fuel max message w).
Proof.
  unfold clientStopWait. apply bind_not_blocked; [|simpl; tauto].
  apply for_count_not_blocked. intros. apply exchange_not_blocked.
Qed.

Lemma clientStopWait_not_blocked_witness :
  ¬ is_blocked (clientStopWait (PF := LP64) 3 2 [9; 9] (SimNet.start [(0, [0])])).
Proof. apply (clientStopWait_not_blocked (TL := SimNet.net_laws)). Defined.

(** ** The server on the network *)

Section server_net.
Context {PF : Platform} (Hptr : (1 ≤ words_of sizeof_ptr)%nat).

(** One pass of the server's loop consumes one datagram and sends one
    acknowledgment, the first word of the buffer after the receive. *)
Lemma recv_and_echo_net message w msg' w' :
  recv_and_echo message w = Done msg' w' →
  ∃ t d m0, SimNet.inbox w = (t, d) :: SimNet.inbox w' ∧
    blit (take (words_of sizeof_ptr) d) message = Some msg' ∧
    load msg' 0 = Some m0 ∧ SimNet.sent w' = SimNet.sent w ++ [Words [m0]].
Proof.
  unfold recv_and_echo, recvFrom_array. prog_simp.
  destruct (SimNet.recv _ w) as [[ws w1]|] eqn:Hr; [|done].
  apply SimNet.recv_inv in Hr as (t & d & Hin & -> & _ & Hout).
  destruct (blit _ message) as [msg1|] eqn:Hblit; [|done]. simpl.
  destruct (load msg1 0) as [m0|] eqn:Hm0; [|done]. simpl. intros [= <- <-].
  exists t, d, m0. split_and!; [done..|]. by rewrite SimNet.sent_send; unfold SimNet.sent; rewrite Hout.
Qed.

Lemma recv_and_echo_bit message w msg' w' :
  SimNet.inbox_all bit_frame w → recv_and_echo message w = Done msg' w' →
  SimNet.inbox_all bit_frame w' ∧ ∃ b, load msg' 0 = Some b ∧ 0 ≤ b ≤ 1.
Proof.
  intros Hbits (t & d & m0 & Hin & Hblit & Hm0 & _)%recv_and_echo_net.
  unfold SimNet.inbox_all in *. rewrite Hin in Hbits.
  apply Forall_cons in Hbits as [(b & rest & Hd & Hb) Hbits]. simpl in Hd. subst d.
  split; [done|]. exists b. split; [|done]. by eapply blit_take_head.
Qed.

(** While only bit frames arrive, the loop for a message of index 2 or more
    is never left. *)
Lemma await_message_stuck fuel msgToAck message w :
  2 ≤ msgToAck → SimNet.inbox_all bit_frame w →
  ¬ returns (await_message fuel msgToAck message w).
Proof.
  intros Hge. revert message w.
  induction fuel as [|fuel IH]; intros message w Hbits; [simpl; tauto|].
  unfold await_message. rewrite do_while_S. fold (await_message fuel msgToAck).
  destruct (recv_and_echo message w) as [msg' w'| | |] eqn:Hre; try (simpl; tauto).
  destruct (recv_and_echo_bit _ _ _ _ Hbits Hre) as [Hbits' (b & Hb & Hrange)].
  prog_simp. rewrite Hb. simpl. rewrite server_guard_bit by done. by apply IH.
Qed.

(** The first word of the buffer after a frame was received into it. *)
Lemma blit_take_hd n (d a a' : list Z) m0 :
  (1 ≤ n)%nat → load a 0 = Some m0 → blit (take n d) a = Some a' →
  load a' 0 = Some (hd m0 d).
Proof.
  intros Hn Hm0. destruct d as [|b rest]; [|by apply blit_take_head].
  rewrite take_nil, blit_nil. by intros [= <-].
Qed.

(** The frames consumed and the acknowledgments sent by the loop for one
    message: one acknowledgment per frame, and the last frame is the one
    whose first word is the index of the message. *)
Lemma await_message_echo fuel msgToAck message w msg' w' m0 :
  load message 0 = Some m0 →
  await_message fuel msgToAck message w = Done msg' w' →
  ∃ frames, (1 ≤ length frames)%nat ∧ SimNet.inbox w = frames ++ SimNet.inbox w' ∧
    SimNet.sent w' = SimNet.sent w ++ echoes m0 frames.*2 ∧
    load msg' 0 = Some (last_word m0 frames.*2) ∧ last_word m0 frames.*2 = msgToAck.
Proof.
  revert message w m0. induction fuel as [|fuel IH]; intros message w m0 Hm0; [done|].
  unfold await_message. rewrite do_while_S. fold (await_message fuel msgToAck).
  destruct (recv_and_echo message w) as [msg1 w1| | |] eqn:Hre; try done.
  apply recv_and_echo_net in Hre as (t & d & m1 & Hin & Hblit & Hm1 & Hsent).
  pose proof (blit_take_hd _ _ _ _ _ Hptr Hm0 Hblit) as Hhd.
  assert (m1 = hd m0 d) as -> by congruence.
  prog_simp. rewrite Hm1. simpl. destruct (server_guard _ _) eqn:Hg.
  - intros (frames & Hlen & Hin' & Hsent' & Hlast)%(IH _ _ _ Hm1).
    exists ((t, d) :: frames). simpl. split; [lia|]. split; [by rewrite Hin, Hin'|].
    split; [|done]. by rewrite Hsent', Hsent, <- app_assoc.
  - intros [= <- <-]. exists [(t, d)]. rewrite server_guard_neq in Hg.
    split_and!; [done..|]. simpl. zbool.
Qed.

Lemma echoes_app m0 fs gs : echoes m0 (fs ++ gs) = echoes m0 fs ++ echoes (last_word m0 fs) gs.
Proof. revert m0. induction fs as [|d fs IH]; intros m0; [done|]. simpl. by rewrite IH. Qed.

Lemma last_word_app m0 fs gs : last_word m0 (fs ++ gs) = last_word (last_word m0 fs) gs.
Proof. apply foldl_app. Qed.

Lemma await_message_bit fuel msgToAck message w msg' w' :
  SimNet.inbox_all bit_frame w → await_message fuel msgToAck message w = Done msg' w' →
  SimNet.inbox_all bit_frame w'.
Proof.
  intros Hbits Hrun.
  eapply (preserves_Done _ (await_message fuel msgToAck message)); [|done..].
  unfold await_message, recv_and_echo. preserves_tac.
Qed.

End server_net.

(** When the server returns, it has consumed at least one frame per
    message, it has sent exactly one acknowledgment per frame consumed,
    in order, and each acknowledgment is the first word of the frame it
    answers. *)
Theorem serverReliable_echoes {PF : Platform} fuel max message w msg' w' m0 :
  (1 ≤ words_of sizeof_ptr)%nat → 0 ≤ max → load message 0 = Some m0 →
  serverReliable fuel max message w = Done msg' w' →
  ∃ frames, SimNet.inbox w = frames ++ SimNet.inbox w' ∧
    SimNet.sent w' = SimNet.sent w ++ echoes m0 frames.*2 ∧
    max ≤ Z.of_nat (length frames).
Proof.
  intros Hptr Hmax Hm0 Hrun.
  pose (I := λ (j : Z) (msg : list Z) (w1 : SimNet.net),
    ∃ frames, SimNet.inbox w = frames ++ SimNet.inbox w1 ∧
      SimNet.sent w1 = SimNet.sent w ++ echoes m0 frames.*2 ∧
      load msg 0 = Some (last_word m0 frames.*2) ∧ j ≤ Z.of_nat (length frames)).
  destruct (for_range_invariant I 0 max (await_message fuel) message w msg' w')
    as (frames & ? & ? & _ & ?); [done| |by exists []; rewrite app_nil_r|done|by exists frames].
  intros j msg1 w1 msg2 w2 _ (fs & Hin & Hsent & Hlast & Hlen) Hstep.
  destruct (await_message_echo Hptr _ _ _ _ _ _ _ Hlast Hstep)
    as (gs & Hlen' & Hin' & Hsent' & Hlast' & _).
  exists (fs ++ gs). rewrite fmap_app, echoes_app, last_word_app, length_app.
  split_and!; [by rewrite Hin, Hin', app_assoc|by rewrite Hsent', Hsent, app_assoc|done|lia].
Qed.

Lemma serverReliable_echoes_witness :
  ∃ frames,
    SimNet.inbox (SimNet.start [(0, [0; 7]); (5, [0; 7]); (9, [1; 8])]) = frames ++ [] ∧
    [Words [0]; Words [0]; Words [1]] = [] ++ echoes 3 frames.*2 ∧
    2 ≤ Z.of_nat (length frames).
Proof.
  apply (serverReliable_echoes (PF := LP64) 3 2 [3; 3]
           (SimNet.start [(0, [0; 7]); (5, [0; 7]); (9, [1; 8])]) [1; 8]
           {| SimNet.now := 9; SimNet.inbox := [];
              SimNet.outbox := [(0, Words [0]); (5, Words [0]); (9, Words [1])] |} 3);
    [vm_compute; lia|lia|done|by vm_compute].
Defined.

(** A server asked for three messages or more never returns while
    the frames it receives are numbered with a bit, as the client numbers
    them: the loop for the message of index 2 cannot be left. *)
Theorem serverReliable_stuck {PF : Platform} fuel max message w :
  (1 ≤ words_of sizeof_ptr)%nat → 3 ≤ max → SimNet.inbox_all bit_frame w →
  ¬ returns (serverReliable fuel max message w).
Proof.
  intros Hptr Hmax Hbits Hret.
  destruct (for_range_body_returns (λ _ _, SimNet.inbox_all bit_frame) 0 max
              (await_message fuel) message w) with (j := 2)
    as (msg2 & w2 & Hbits2 & Hret2); [|done|done|lia|].
  - intros j msg1 w1 msg1' w1' _. apply await_message_bit.
  - by eapply await_message_stuck.
Qed.

Lemma serverReliable_stuck_witness :
  ¬ returns (serverReliable (PF := LP64) 8 3 [0; 0]
               (SimNet.start [(0, [0; 7]); (1, [1; 7]); (2, [0; 7]); (3, [0; 7])])).
Proof.
  apply serverReliable_stuck; [vm_compute; lia|lia|].
  repeat apply Forall_cons_2; try apply Forall_nil_2; simpl; eexists _, _; (split; [done|lia]).
Defined.

(** ** The client on the network *)

Section client_net.
Context {PF : Platform}.

Lemma resent_refl s w : resent s w s w 0.
Proof. unfold resent. by rewrite Z.add_0_r, app_nil_r. Qed.

Lemma resent_poll s w : resent s w s (SimNet.poll w).2 0.
Proof. unfold resent. by rewrite Z.add_0_r, app_nil_r. Qed.

Lemma resent_trans s w s1 w1 s2 w2 k1 k2 :
  resent s w s1 w1 k1 → resent s1 w1 s2 w2 k2 → resent s w s2 w2 (k1 + k2).
Proof.
  intros (Hm1 & Hs1 & Hr1 & Hi1 & Ho1) (Hm2 & Hs2 & Hr2 & Hi2 & Ho2).
  unfold resent, cframe in *. rewrite Hm1 in *.
  split_and!; [congruence|congruence|lia|congruence|].
  by rewrite Ho2, Ho1, replicate_add, app_assoc.
Qed.

Lemma cframe_message s s' : message s' = message s → cframe s' = cframe s.
Proof. unfold cframe. by intros ->. Qed.

(** Lines 47-52 send the frame again, once, or do nothing. *)
Lemma resend_on_timeout_net s (w : SimNet.net) s' w' :
  resend_on_timeout s w = Done s' w' → ∃ k, resent s w s' w' k.
Proof.
  unfold resend_on_timeout. intros Hrun. calls_inv.
  - exists 1%nat. unfold resent. simpl. by rewrite SimNet.sent_send.
  - exists 0%nat. apply resent_refl.
Qed.

(** The polling loop only resends, and is left right after a poll that
    found a datagram. *)
Lemma wait_reply_net fuel s (w : SimNet.net) s' w' :
  wait_reply fuel s w = Done s' w' →
  ∃ k w1, resent s w s' w1 k ∧ w' = (SimNet.poll w1).2 ∧ SimNet.ready w1 = true.
Proof.
  intros Hrun. unfold wait_reply in Hrun.
  apply (while_do_invariant (λ s1 w1, ∃ k, resent s w s1 w1 k)) in Hrun
    as (w1 & [k Hk] & Hc); [| |exists 0%nat; apply resent_refl].
  - exists k, w1. calls_inv. split_and!; [done..|].
    simpl in *. destruct (SimNet.ready w1); [done|simpl in *; lia].
  - intros s1 w1 s2 w2 w3 [k1 Hk1] Hc Hb. calls_inv.
    apply resend_on_timeout_net in Hb as [k2 Hk2]. exists (k1 + k2)%nat.
    eapply resent_trans; [done|].
    eapply (resent_trans _ _ _ _ _ _ 0); [apply resent_poll|done].
Qed.

Context (Hint : words_of sizeof_int = 1%nat).

(** One pass of the client's loop: the frame goes out once, and once more
    for each timeout; one datagram is consumed and its first word becomes
    [seqNum]; [retrans] grows by the number of timeouts and by
    [seqNum ^ message[0]]. *)
Lemma send_and_wait_net fuel s (w : SimNet.net) s' w' :
  send_and_wait fuel s w = Done s' w' →
  ∃ k t d m0, message s' = message s ∧ load (message s) 0 = Some m0 ∧
    seqNum s' = hd (seqNum s) d ∧
    retrans s' = retrans s + Z.of_nat k + Z.lxor (seqNum s') m0 ∧
    SimNet.inbox w = (t, d) :: SimNet.inbox w' ∧
    SimNet.sent w' = SimNet.sent w ++ replicate (S k) (cframe s).
Proof.
  unfold send_and_wait. intros Hrun. calls_inv.
  lazymatch goal with H : wait_reply _ _ _ = Done _ _ |- _ =>
    apply wait_reply_net in H as (k & w2 & (Hm & Hs & Hr & Hi & Ho) & -> & Hready) end.
  lazymatch goal with H : sock_recvFrom _ _ = Some _ |- _ =>
    apply SimNet.recv_inv in H as (t & d & Hin & -> & _ & Hout) end.
  lazymatch goal with H : load _ _ = Some ?m |- _ => exists k, t, d, m; rename H into Hm0 end.
  simpl in *. rewrite Hint in *. rewrite Hm in Hm0.
  split_and!; [done|done| |f_equal; lia|by rewrite <- Hi| ].
  - destruct d; simpl in *; congruence.
  - unfold SimNet.sent in *. rewrite Hout, Ho. simpl. by rewrite fmap_app, <- app_assoc.
Qed.

Lemma ack_mismatch_run {W : Type} s (w : W) m0 :
  load (message s) 0 = Some m0 → ack_mismatch s w = Done (negb (seqNum s =? m0)) w.
Proof. intros Hm0. unfold ack_mismatch. prog_simp. by rewrite Hm0. Qed.

(** The [do ... while] of lines 42-57 while the answers are bits: it
    sends the frame [S k] times, counts [k], consumes at least one answer
    and ends with [seqNum] equal to the bit it sent. *)
Lemma ack_loop_net n fuel s (w : SimNet.net) s' w' m0 :
  load (message s) 0 = Some m0 → 0 ≤ m0 ≤ 1 → SimNet.inbox_all bit_frame w →
  do_while n (send_and_wait fuel) ack_mismatch s w = Done s' w' →
  ∃ k acks, message s' = message s ∧ seqNum s' = m0 ∧
    retrans s' = retrans s + Z.of_nat k ∧ (1 ≤ length acks)%nat ∧
    SimNet.inbox w = acks ++ SimNet.inbox w' ∧
    SimNet.sent w' = SimNet.sent w ++ replicate (S k) (cframe s).
Proof.
  intros Hm0 Hbit. revert s w Hm0.
  induction n as [|n IH]; intros s w Hm0 Hbits; [done|].
  rewrite do_while_S. destruct (send_and_wait fuel s w) as [s1 w1| | |] eqn:Hsw; try done.
  apply send_and_wait_net in Hsw as (k1 & t & d & m & Hm & Hm0' & Hseq & Hr & Hin & Hsent).
  assert (m = m0) as -> by congruence. clear Hm0'.
  rewrite (ack_mismatch_run _ _ m0) by by rewrite Hm.
  unfold SimNet.inbox_all in Hbits. rewrite Hin in Hbits.
  apply Forall_cons in Hbits as [(b & rest & Hd & Hb) Hbits]. simpl in Hd. subst d.
  simpl in Hseq. rewrite Hseq in Hr |- *. rewrite lxor_bits in Hr by done.
  unfold b2i in Hr. destruct (Z.eqb_spec b m0) as [-> | Hne]; cbn [negb] in *.
  - intros [= <- <-]. exists k1, [(t, m0 :: rest)].
    split_and!; [done|done|lia|done|done|done].
  - intros (k2 & acks & Hm2 & Hseq2 & Hr2 & Hlen & Hin2 & Hsent2)%IH;
      [|by rewrite Hm|done].
    exists (k1 + 1 + k2)%nat, ((t, b :: rest) :: acks).
    split_and!; [congruence|done|lia|simpl; lia|by rewrite Hin, Hin2|].
    rewrite Hsent2, Hsent, (cframe_message s1 s) by done.
    replace (S (k1 + 1 + k2)) with (S k1 + S k2)%nat by lia.
    by rewrite (replicate_add (S k1) (S k2)), (app_assoc (SimNet.sent w)).
Qed.

(** The exchange for message [msgNum] while the answers are bits. *)
Lemma exchange_net fuel msgNum s (w : SimNet.net) s' w' :
  SimNet.inbox_all bit_frame w → exchange fuel msgNum s w = Done s' w' →
  ∃ k acks, message s' = <[0%nat := Z.land msgNum 1]> (message s) ∧
    retrans s' = retrans s + Z.of_nat k ∧ (1 ≤ length acks)%nat ∧
    SimNet.inbox w = acks ++ SimNet.inbox w' ∧
    SimNet.sent w' = SimNet.sent w ++ replicate (S k) (client_frame (message s) msgNum).
Proof.
  intros Hbits. unfold exchange.
  intros (msg & w1 & [Hst ->]%checked_inv_Done & Hloop)%bind_inv_Done.
  pose proof (load_store_eq _ _ _ _ Hst) as Hm0. apply store_Some in Hst as [_ ->].
  apply (ack_loop_net _ _ (set_message _ s) _ _ _ _ Hm0 (land_1_range _) Hbits) in Hloop
    as (k & acks & Hm & _ & Hr & Hlen & Hin & Hsent).
  by exists k, acks.
Qed.

Lemma client_sends_app message i ks ls :
  client_sends message i (ks ++ ls) =
  client_sends message i ks ++ client_sends message (i + Z.of_nat (length ks)) ls.
Proof.
  revert i. induction ks as [|k ks IH]; intros i; simpl.
  - by rewrite Z.add_0_r.
  - rewrite IH, <- app_assoc. do 3 f_equal. lia.
Qed.

Lemma client_frame_insert message x msgNum :
  client_frame (<[0%nat := x]> message) msgNum = client_frame message msgNum.
Proof. unfold client_frame. by rewrite list_insert_insert_eq. Qed.

(** The whole run of the client while the answers are bits: message by
    message, each frame [k ≥ 1] times, and [retrans] counts the sends
    beyond the first of each message. *)
Lemma clientStopWait_trace fuel max msg (w : SimNet.net) r w' :
  0 ≤ max → SimNet.inbox_all bit_frame w → clientStopWait fuel max msg w = Done r w' →
  ∃ ks, Z.of_nat (length ks) = max ∧ Forall (λ k, 1 ≤ k)%nat ks ∧
    r = Z.of_nat (sum_list ks) - max ∧
    SimNet.sent w' = SimNet.sent w ++ client_sends msg 0 ks ∧
    (length ks ≤ length (SimNet.inbox w) - length (SimNet.inbox w'))%nat.
Proof.
  intros Hmax Hbits. unfold clientStopWait.
  intros (s' & w1 & Hfor & [-> <-]%ret_inv_Done)%bind_inv_Done.
  pose (I := λ (j : Z) (s : cstate) (w1 : SimNet.net),
    SimNet.inbox_all bit_frame w1 ∧ (∃ x, message s = <[0%nat := x]> msg) ∧
    ∃ ks, Z.of_nat (length ks) = j ∧ Forall (λ k, 1 ≤ k)%nat ks ∧
      retrans s = Z.of_nat (sum_list ks) - j ∧
      SimNet.sent w1 = SimNet.sent w ++ client_sends msg 0 ks ∧
      (length ks + length (SimNet.inbox w1) ≤ length (SimNet.inbox w))%nat).
  destruct (for_range_invariant I 0 max (exchange fuel) (cinit msg) w s' w')
    as (_ & _ & ks & ? & ? & ? & ? & ?); [done| | |done|exists ks; split_and!; [done..|lia]].
  - intros j s1 w2 s2 w3 _ (Hb & [x Hx] & ks & Hlen & Hks & Hr & Hsent & Hin) Hstep.
    assert (SimNet.inbox_all bit_frame w3) as Hb'.
    { eapply (preserves_Done (SimNet.inbox_all bit_frame)); [|done..].
      apply exchange_preserves, SimNet.stable_inbox_all. }
    apply exchange_net in Hstep as (k & acks & Hm & Hr' & Hacks & Hin' & Hsent'); [|done].
    split; [done|]. split; [exists (Z.land j 1); by rewrite Hm, Hx, list_insert_insert_eq|].
    exists (ks ++ [S k]). rewrite length_app, sum_list_with_app, client_sends_app, Forall_app.
    rewrite Hx, client_frame_insert in Hsent'. rewrite Hin', length_app in Hin.
    simpl. rewrite app_nil_r, Z.add_0_l, Hlen, Hsent', Hsent, app_assoc.
    split_and!; [lia|done|by apply Forall_singleton; lia|lia|done|lia].
  - split; [done|]. split; [exists (hd 0 msg); by destruct msg|]. by exists []; rewrite app_nil_r.
Qed.

Lemma length_client_sends msg i ks : length (client_sends msg i ks) = sum_list ks.
Proof.
  revert i. induction ks as [|k ks IH]; intros i; [done|].
  simpl. by rewrite length_app, length_replicate, IH.
Qed.

(** *** The client returns when the answers come *)

Lemma poll_cond_run (w : SimNet.net) :
  (n ← pollRecvFrom; mret (n <? 1)) w = Done (negb (SimNet.ready w)) (SimNet.poll w).2.
Proof. prog_simp. by destruct (SimNet.ready w). Qed.

Lemma resend_on_timeout_returns s (w : SimNet.net) :
  (words_of sizeof_ptr ≤ length (message s))%nat →
  ∃ s' w', resend_on_timeout s w = Done s' w' ∧ SimNet.now w' = SimNet.now w.
Proof.
  intros Hlen. unfold resend_on_timeout. rewrite (bind_Done _ _ _ _ _ (timer_lap_run _ _)).
  case_match; [|by eexists _, _].
  rewrite (bind_Done _ _ _ _ _ (sendTo_array_run _ _ _ Hlen)).
  rewrite (bind_Done _ _ _ _ _ (timer_start_run _)). by eexists _, _.
Qed.

(** The polling loop ends once the datagram has arrived: one poll for
    each unit of time until then, and one more. *)
Lemma wait_reply_returns fuel s (w : SimNet.net) t d rest :
  SimNet.inbox w = (t, d) :: rest → (words_of sizeof_ptr ≤ length (message s))%nat →
  (Z.to_nat (t - SimNet.now w) < fuel)%nat → returns (wait_reply fuel s w).
Proof.
  revert s w. induction fuel as [|fuel IH]; intros s w Hin Hlen Hfuel; [lia|].
  unfold wait_reply. rewrite while_do_S, poll_cond_run. fold (wait_reply fuel).
  unfold SimNet.ready. rewrite Hin. destruct (Z.leb_spec t (SimNet.now w)); [done|]. cbn [negb].
  destruct (resend_on_timeout_returns s (SimNet.poll w).2 Hlen) as (s1 & w1 & Hrun & Hnow).
  rewrite Hrun. apply resend_on_timeout_net in Hrun as (k & Hm & _ & _ & Hi & _).
  apply IH; [by rewrite Hi|by rewrite Hm|]. rewrite Hnow. simpl. lia.
Qed.

Lemma send_and_wait_returns fuel s (w : SimNet.net) t d rest :
  SimNet.inbox w = (t, d) :: rest → (words_of sizeof_ptr ≤ length (message s))%nat →
  (1 ≤ length (message s))%nat →
  (Z.to_nat (t - SimNet.now w) < fuel)%nat → returns (send_and_wait fuel s w).
Proof.
  intros Hin Hlen Hlen1 Hfuel. unfold send_and_wait.
  rewrite (bind_Done _ _ _ _ _ (sendTo_array_run _ _ _ Hlen)).
  rewrite (bind_Done _ _ _ _ _ (timer_start_run _)).
  lazymatch goal with |- returns ((wait_reply ?f ?s0 ≫= _) ?w0) =>
    destruct (proj1 (returns_Done _) (wait_reply_returns f s0 w0 t d rest Hin Hlen Hfuel))
      as (s1 & w1 & Hrun) end.
  rewrite (bind_Done _ _ _ _ _ Hrun).
  apply wait_reply_net in Hrun as (k & w2 & (Hm & _ & _ & Hi & _) & -> & Hready).
  simpl in Hi, Hm.
  unfold recvFrom_int. rewrite Hint. prog_simp. unfold SimNet.recv. simpl. rewrite Hi, Hin. simpl.
  rewrite Hm. destruct (load (message s) 0) eqn:Hl; [by destruct d|].
  apply load_None in Hl. lia.
Qed.

(** The exchange for message [j] returns after one pass when the next
    datagram to arrive carries the bit of [j]. *)
Lemma exchange_returns fuel j s (w : SimNet.net) t d rest :
  SimNet.inbox w = (t, d) :: rest → hd_error d = Some (Z.land j 1) →
  (Z.to_nat (t - SimNet.now w) < fuel)%nat →
  (words_of sizeof_ptr ≤ length (message s))%nat → (1 ≤ length (message s))%nat →
  ∃ s' w', exchange fuel j s w = Done s' w' ∧ SimNet.inbox w' = rest ∧
    length (message s') = length (message s).
Proof.
  intros Hin Hd Hfuel Hlen Hlen1. unfold exchange.
  destruct (store (message s) 0 (Z.land j 1)) as [msg|] eqn:Hst; [|apply store_None in Hst; lia].
  rewrite (bind_Done _ _ _ _ _ (checked_Some _ _ _)).
  pose proof (store_length _ _ _ _ Hst) as Hlm.
  destruct fuel as [|n]; [lia|]. rewrite do_while_S.
  assert (returns (send_and_wait (S n) (set_message msg s) w)) as (s1 & w1 & Hrun)%returns_Done
    by (eapply send_and_wait_returns; [done|simpl; lia..]).
  rewrite Hrun.
  apply send_and_wait_net in Hrun as (k & t' & d' & m0 & Hm & Hm0 & Hseq & _ & Hin' & _).
  rewrite Hin in Hin'. injection Hin' as <- <- Hrest. simpl in Hm, Hm0, Hseq.
  pose proof (load_store_eq _ _ _ _ Hst) as Hl.
  rewrite (ack_mismatch_run _ _ _ (eq_trans (f_equal (λ m, load m 0) Hm) Hl)).
  destruct d as [|v d]; [done|]. injection Hd as ->. simpl in Hseq. rewrite Hseq, Z.eqb_refl.
  exists s1, w1. split_and!; [done..|]. by rewrite Hm.
Qed.

(** *** The run when every answer is already there *)

Lemma wait_reply_ready fuel s (w : SimNet.net) :
  SimNet.ready w = true → wait_reply (S fuel) s w = Done s (SimNet.poll w).2.
Proof. intros Hr. unfold wait_reply. by rewrite while_do_S, poll_cond_run, Hr. Qed.

Lemma send_and_wait_prompt fuel s (w : SimNet.net) t v d rest m0 :
  SimNet.inbox w = (t, v :: d) :: rest → t ≤ SimNet.now w →
  (words_of sizeof_ptr ≤ length (message s))%nat → load (message s) 0 = Some m0 →
  ∃ s' w', send_and_wait (S fuel) s w = Done s' w' ∧ message s' = message s ∧
    seqNum s' = v ∧ retrans s' = retrans s + Z.lxor v m0 ∧ SimNet.inbox w' = rest ∧
    SimNet.sent w' = SimNet.sent w ++ [cframe s] ∧ SimNet.now w' = SimNet.now w + 1.
Proof.
  intros Hin Ht Hlen Hm0. unfold send_and_wait.
  rewrite (bind_Done _ _ _ _ _ (sendTo_array_run _ _ _ Hlen)).
  rewrite (bind_Done _ _ _ _ _ (timer_start_run _)).
  assert (∀ f, SimNet.ready (SimNet.send f w) = true) as Hready.
  { intros f. unfold SimNet.ready. simpl. rewrite Hin. by apply Z.leb_le. }
  cbn [sock_sendTo clock SimNet.net_transport SimNet.read_clock fst snd].
  rewrite (bind_Done _ _ _ _ _ (wait_reply_ready _ _ _ (Hready _))).
  unfold recvFrom_int. rewrite Hint. prog_simp. unfold SimNet.recv. simpl.
  rewrite Hin, Hm0. simpl. eexists _, _. split; [done|]. simpl.
  split_and!; [done..|unfold SimNet.sent; simpl; by rewrite fmap_app|lia].
Qed.

Lemma exchange_prompt fuel j s (w : SimNet.net) t d rest :
  SimNet.inbox w = (t, d) :: rest → hd_error d = Some (Z.land j 1) → t ≤ SimNet.now w →
  (words_of sizeof_ptr ≤ length (message s))%nat → (1 ≤ length (message s))%nat →
  ∃ s' w', exchange (S fuel) j s w = Done s' w' ∧
    message s' = <[0%nat := Z.land j 1]> (message s) ∧ retrans s' = retrans s ∧
    SimNet.inbox w' = rest ∧ SimNet.now w' = SimNet.now w + 1 ∧
    SimNet.sent w' = SimNet.sent w ++ [client_frame (message s) j].
Proof.
  intros Hin Hd Ht Hlen Hlen1. unfold exchange.
  destruct (store (message s) 0 (Z.land j 1)) as [msg|] eqn:Hst; [|apply store_None in Hst; lia].
  rewrite (bind_Done _ _ _ _ _ (checked_Some _ _ _)). rewrite do_while_S.
  pose proof (load_store_eq _ _ _ _ Hst) as Hl. pose proof (store_length _ _ _ _ Hst) as Hlm.
  destruct d as [|v d]; [done|]. injection Hd as ->.
  destruct (send_and_wait_prompt fuel (set_message msg s) w _ _ _ _ (Z.land j 1) Hin Ht)
    as (s1 & w1 & -> & Hm & Hseq & Hr & Hin1 & Hsent & Hnow); [simpl; lia|done|].
  rewrite (ack_mismatch_run _ _ (Z.land j 1)) by by rewrite Hm.
  rewrite Hseq, Z.eqb_refl. simpl in *. rewrite Z.lxor_nilpotent in Hr.
  apply store_Some in Hst as [_ ->].
  exists s1, w1. split_and!; [done|done|lia|done..].
Qed.

Lemma client_sends_once msg n :
  client_sends msg 0 (replicate (S n) 1%nat) =
  client_sends msg 0 (replicate n 1%nat) ++ [client_frame msg (Z.of_nat n)].
Proof.
  by rewrite replicate_S_end, client_sends_app, length_replicate.
Qed.

Lemma exchange_later fuel j s (w : SimNet.net) s' w' :
  exchange fuel j s w = Done s' w' → SimNet.now w ≤ SimNet.now w'.
Proof.
  intros Hrun. eapply (preserves_Done (SimNet.later w)) in Hrun as [? _]; [done| |done].
  apply exchange_preserves, SimNet.stable_later.
Qed.

End client_net.

(** The client returns when the answers come: if the datagrams that
    arrive first are one right answer per message, whenever they arrive,
    and the fuel covers the polls until the last of them has arrived, then
    the client returns, having consumed exactly those answers. *)
Theorem clientStopWait_returns {PF : Platform} fuel msg w acks rest :
  words_of sizeof_int = 1%nat →
  (words_of sizeof_ptr ≤ length msg)%nat → (1 ≤ length msg)%nat →
  SimNet.inbox w = acks ++ rest → right_answers acks → covers fuel (SimNet.now w) acks →
  ∃ r w', clientStopWait fuel (Z.of_nat (length acks)) msg w = Done r w' ∧
          SimNet.inbox w' = rest.
Proof.
  intros Hint Hlen Hlen1 Hin Hacks Hfuel. unfold clientStopWait.
  pose (I := λ (j : Z) (s : cstate) (w1 : SimNet.net),
    SimNet.inbox w1 = drop (Z.to_nat j) acks ++ rest ∧ SimNet.now w ≤ SimNet.now w1 ∧
    length (message s) = length msg).
  destruct (for_range_returns I 0 (Z.of_nat (length acks)) (exchange fuel) (cinit msg) w)
    as (s' & w' & Hrun & Hin' & _); [lia| |done|].
  - intros j s1 w1 Hj (Hin1 & Hnow & Hmsg).
    destruct (lookup_lt_is_Some_2 acks (Z.to_nat j)) as [[t d] Hjth]; [lia|].
    rewrite (drop_S _ _ _ Hjth) in Hin1.
    destruct (exchange_returns Hint fuel j s1 w1 t d _ Hin1) as (s2 & w2 & Hrun & Hin2 & Hmsg2).
    + rewrite (Hacks _ _ _ Hjth). do 2 f_equal. lia.
    + eapply Forall_lookup_1 in Hfuel; [|done]. simpl in Hfuel. lia.
    + by rewrite Hmsg.
    + by rewrite Hmsg.
    + exists s2, w2. split; [done|]. pose proof (exchange_later _ _ _ _ _ _ Hrun).
      unfold I. replace (Z.to_nat (j + 1)) with (S (Z.to_nat j)) by lia.
      split_and!; [done|lia|congruence].
  - rewrite (bind_Done _ _ _ _ _ Hrun). exists (retrans s'), w'. split; [done|].
    by rewrite Hin', Nat2Z.id, drop_all.
Qed.

(** When nothing is lost, the client does not retransmit: if one
    right answer per message is already there, the client returns 0, has
    sent each message exactly once, in order, and has consumed exactly
    those answers. *)
Theorem clientStopWait_prompt {PF : Platform} fuel msg w acks rest :
  words_of sizeof_int = 1%nat →
  (words_of sizeof_ptr ≤ length msg)%nat → (1 ≤ length msg)%nat →
  SimNet.inbox w = acks ++ rest → right_answers acks →
  Forall (λ a, a.1 ≤ SimNet.now w) acks →
  ∃ w', clientStopWait (S fuel) (Z.of_nat (length acks)) msg w = Done 0 w' ∧
    SimNet.inbox w' = rest ∧
    SimNet.sent w' = SimNet.sent w ++ client_sends msg 0 (replicate (length acks) 1%nat).
Proof.
  intros Hint Hlen Hlen1 Hin Hacks Hnow. unfold clientStopWait.
  pose (I := λ (j : Z) (s : cstate) (w1 : SimNet.net),
    SimNet.inbox w1 = drop (Z.to_nat j) acks ++ rest ∧ SimNet.now w ≤ SimNet.now w1 ∧
    (∃ x, message s = <[0%nat := x]> msg) ∧ retrans s = 0 ∧
    SimNet.sent w1 = SimNet.sent w ++ client_sends msg 0 (replicate (Z.to_nat j) 1%nat)).
  destruct (for_range_returns I 0 (Z.of_nat (length acks)) (exchange (S fuel)) (cinit msg) w)
    as (s' & w' & Hrun & Hin' & _ & _ & Hr & Hsent); [lia| | |].
  - intros j s1 w1 Hj (Hin1 & Hnow1 & [x Hx] & Hr & Hsent).
    destruct (lookup_lt_is_Some_2 acks (Z.to_nat j)) as [[t d] Hjth]; [lia|].
    rewrite (drop_S _ _ _ Hjth) in Hin1.
    destruct (exchange_prompt Hint fuel j s1 w1 t d _ Hin1)
      as (s2 & w2 & Hrun & Hm2 & Hr2 & Hin2 & Hnow2 & Hsent2).
    + rewrite (Hacks _ _ _ Hjth). do 2 f_equal. lia.
    + eapply Forall_lookup_1 in Hnow; [|done]. simpl in Hnow. lia.
    + by rewrite Hx, length_insert.
    + by rewrite Hx, length_insert.
    + exists s2, w2. split; [done|]. unfold I.
      replace (Z.to_nat (j + 1)) with (S (Z.to_nat j)) by lia.
      rewrite client_sends_once, Z2Nat.id, app_assoc, <- Hsent by lia.
      rewrite Hx, client_frame_insert in Hsent2.
      split_and!; [done|lia| |lia|done].
      exists (Z.land j 1). by rewrite Hm2, Hx, list_insert_insert_eq.
  - unfold I. simpl. rewrite app_nil_r. split_and!; [done|lia| |done..].
    exists (hd 0 msg). by destruct msg.
  - rewrite (bind_Done _ _ _ _ _ Hrun). exists w'. rewrite Nat2Z.id, drop_all in *.
    split_and!; [simpl; by rewrite Hr|done..].
Qed.

Lemma clientStopWait_prompt_witness :
  ∃ w', clientStopWait (PF := LP64) 1 (Z.of_nat (length [(0, [0]); (0, [1; 5]); (0, [0])]))
          [9; 9] (SimNet.start [(0, [0]); (0, [1; 5]); (0, [0])]) = Done 0 w' ∧
    SimNet.inbox w' = [] ∧
    SimNet.sent w' = [] ++ client_sends (PF := LP64) [9; 9] 0 (replicate 3 1%nat).
Proof.
  apply (clientStopWait_prompt (PF := LP64) 0 [9; 9]
           (SimNet.start [(0, [0]); (0, [1; 5]); (0, [0])])
           [(0, [0]); (0, [1; 5]); (0, [0])] []);
    [done|change (2 ≤ 2)%nat; lia|simpl; lia|done| |].
  - intros [|[|[|i]]] t d; simpl; [by intros [= <- <-]..|done].
  - repeat apply Forall_cons_2; try apply Forall_nil_2; simpl; lia.
Defined.

(** Scenario A of the specification: three messages, the answer to
    message 1 comes only after the timeout; the client resends message 1
    exactly once and returns 1. *)
Example clientStopWait_scenario_A :
  clientStopWait (PF := LP64) 1700 3 [9; 9]
    (SimNet.start [(0, [0]); (1600, [1]); (1600, [0])]) =
  Done 1 {| SimNet.now := 1602; SimNet.inbox := [];
            SimNet.outbox := [(0, Words [0; 9]); (1, Words [1; 9]); (1502, Words [1; 9]);
                              (1601, Words [0; 9])] |}.
Proof. by vm_compute. Qed.

Lemma clientStopWait_returns_witness :
  ∃ r w', clientStopWait (PF := LP64) 1700 (Z.of_nat (length [(0, [0]); (1600, [1; 5])])) [9; 9]
            (SimNet.start [(0, [0]); (1600, [1; 5]); (1700, [7])]) = Done r w' ∧
          SimNet.inbox w' = [(1700, [7])].
Proof.
  apply (clientStopWait_returns (PF := LP64) 1700 [9; 9]
           (SimNet.start [(0, [0]); (1600, [1; 5]); (1700, [7])])
           [(0, [0]); (1600, [1; 5])] [(1700, [7])]);
    [done|change (2 ≤ 2)%nat; lia|simpl; lia|done| |].
  - intros [|[|i]] t d; simpl; [by intros [= <- <-]..|done].
  - repeat apply Forall_cons_2; try apply Forall_nil_2; simpl; lia.
Defined.

(** While the answers it reads are bits, the value the client returns
    is the number of datagrams it sent beyond one per message: [retrans]
    counts the retransmissions, those after a timeout and those after an
    answer that carried the other bit, and nothing else. *)
Theorem clientStopWait_counts_retransmissions {PF : Platform} fuel max msg w r w' :
  words_of sizeof_int = 1%nat → 0 ≤ max → SimNet.inbox_all bit_frame w →
  clientStopWait fuel max msg w = Done r w' →
  0 ≤ r ∧ Z.of_nat (length (SimNet.sent w')) = Z.of_nat (length (SimNet.sent w)) + max + r.
Proof.
  intros Hint Hmax Hbits (ks & Hlen & Hks & -> & -> & _)%clientStopWait_trace; [|done..].
  rewrite length_app, length_client_sends.
  assert (length ks ≤ sum_list ks)%nat; [|lia].
  clear Hlen. induction Hks; simpl; lia.
Qed.

Lemma clientStopWait_counts_retransmissions_witness :
  0 ≤ 1 ∧ Z.of_nat (length [Words [0; 9]; Words [0; 9]; Words [1; 9]]) = Z.of_nat 0 + 2 + 1.
Proof.
  apply (clientStopWait_counts_retransmissions (PF := LP64) 5 2 [9; 9]
           (SimNet.start [(0, [1]); (0, [0]); (0, [1])]) 1
           {| SimNet.now := 3; SimNet.inbox := [];
              SimNet.outbox := [(0, Words [0; 9]); (1, Words [0; 9]); (2, Words [1; 9])] |});
    [done|lia| |by vm_compute].
  repeat apply Forall_cons_2; try apply Forall_nil_2; simpl; eexists _, _; (split; [done|lia]).
Defined.

(** While the answers it reads are bits, the client sends the
    messages in order, each at least once and each as the caller's buffer
    with the bit of its index in the first word, sends nothing else, and
    consumes at least one answer per message. *)
Theorem clientStopWait_sends_in_order {PF : Platform} fuel max msg w r w' :
  words_of sizeof_int = 1%nat → 0 ≤ max → SimNet.inbox_all bit_frame w →
  clientStopWait fuel max msg w = Done r w' →
  ∃ ks, Z.of_nat (length ks) = max ∧ Forall (λ k, 1 ≤ k)%nat ks ∧
    SimNet.sent w' = SimNet.sent w ++ client_sends msg 0 ks ∧
    (length ks ≤ length (SimNet.inbox w) - length (SimNet.inbox w'))%nat.
Proof.
  intros Hint Hmax Hbits (ks & Hlen & Hks & _ & Hsent & Hin)%clientStopWait_trace; [|done..].
  by exists ks.
Qed.

Lemma clientStopWait_sends_in_order_witness :
  ∃ ks, Z.of_nat (length ks) = 2 ∧ Forall (λ k, 1 ≤ k)%nat ks ∧
    [Words [0; 9]; Words [0; 9]; Words [1; 9]] = [] ++ client_sends (PF := LP64) [9; 9] 0 ks ∧
    (length ks ≤ 3 - 0)%nat.
Proof.
  apply (clientStopWait_sends_in_order (PF := LP64) 5 2 [9; 9]
           (SimNet.start [(0, [1]); (0, [0]); (0, [1])]) 1
           {| SimNet.now := 3; SimNet.inbox := [];
              SimNet.outbox := [(0, Words [0; 9]); (1, Words [0; 9]); (2, Words [1; 9])] |});
    [done|lia| |by vm_compute].
  repeat apply Forall_cons_2; try apply Forall_nil_2; simpl; eexists _, _; (split; [done|lia]).
Defined.

(** An answer that is not a bit is counted for more than one
    retransmission: with the answers 2 and then 0 to message 0, the client
    sends the frame twice, one retransmission, and returns 2, the value of
    [seqNum ^ message[0]] that line 56 adds. *)
Example clientStopWait_overcounts :
  clientStopWait (PF := LP64) 5 1 [9; 9] (SimNet.start [(0, [2]); (0, [0])]) =
  Done 2 {| SimNet.now := 2; SimNet.inbox := [];
            SimNet.outbox := [(0, Words [0; 9]); (1, Words [0; 9])] |}.
Proof. by vm_compute. Qed.
