(* ===== verification/Fuel.v ===== *)
(** * Fuel is only a bound

    The loops of the model that wait for the network take a [fuel], and
    a function passes its fuel to every loop it runs, the nested ones
    included.  This file shows that the fuel decides nothing but
    whether a run is cut short: a run of one of the four functions with
    loops that is not [OutOfFuel] has the same outcome, result and
    world, with every larger fuel ([fuel_mono]).  So a result, a fault
    or a blocked call that a theorem or an example of the development
    establishes with some fuel is what the code does, and not an effect
    of the number chosen.

    [fuel_mono] is closed under the combinators of the monad
    ([fuel_mono_bind], [fuel_mono_while_do], [fuel_mono_do_while],
    [fuel_mono_for_range], [fuel_mono_local]); the tactic [fuel_tac]
    applies them, with the lemmas on the functions in the hint
    database [fuel]. *)

From stdpp Require Import prelude.
From S2P Require Import Prelude Transport AckAdvance WindowReceiver WindowSender StopWait.

#[local] Open Scope Z_scope.

(** ** Programs that depend on the fuel *)

(** More fuel does not change a run that was not cut short. *)
Definition fuel_mono {W A} (f : nat → prog W A) : Prop :=
  ∀ n m w, (n ≤ m)%nat → ¬ out_of_fuel (f n w) → f m w = f n w.

Section mono.
Context {W : Type}.

(** *** The combinators *)

Lemma fuel_mono_const {A} (p : prog W A) : fuel_mono (λ _, p).
Proof. by intros n m w _ _. Qed.

Lemma fuel_mono_bind {A B} (f : nat → prog W A) (g : nat → A → prog W B) :
  fuel_mono f → (∀ a, fuel_mono (λ n, g n a)) → fuel_mono (λ n, f n ≫= g n).
Proof.
  intros Hf Hg n m w Hle Hnf. unfold mbind, prog_mbind, prog_bind in *.
  specialize (Hf n m w Hle). destruct (f n w) as [a w1| | |] eqn:Hn.
  - rewrite Hf by (by intros []). by apply Hg.
  - rewrite Hf; [done|by intros []].
  - rewrite Hf; [done|by intros []].
  - by destruct Hnf.
Qed.

Lemma fuel_mono_loop {X A} (body : nat → X → prog W (X + A)) x :
  (∀ x, fuel_mono (λ n, body n x)) → fuel_mono (λ n, loop n (body n) x).
Proof.
  intros Hb n m w Hle.
  enough (∀ k k', (k ≤ k')%nat → ¬ out_of_fuel (loop k (body n) x w) →
            loop k' (body m) x w = loop k (body n) x w) as H by by apply H.
  intros k. revert x w. induction k as [|k IH]; intros x w k' Hk Hnf; [by destruct Hnf|].
  destruct k' as [|k']; [lia|]. rewrite !loop_S in *.
  unfold mbind, prog_mbind, prog_bind in *.
  specialize (Hb x n m w Hle). destruct (body n x w) as [[x'|a] w1| | |] eqn:Hn;
    try (rewrite Hb by (by intros []); try done).
  apply IH; [lia|done].
Qed.


Lemma fuel_mono_while_do {X} (cond : nat → X → prog W bool) (body : nat → X → prog W X) x :
  (∀ x, fuel_mono (λ n, cond n x)) → (∀ x, fuel_mono (λ n, body n x)) →
  fuel_mono (λ n, while_do n (cond n) (body n) x).
Proof.
  intros Hc Hb. unfold while_do. apply (fuel_mono_loop (λ n x, b ← cond n x; _)).
  intros y. apply (fuel_mono_bind (λ n, cond n y)); [done|]. intros [|]; [|apply fuel_mono_const].
  by apply (fuel_mono_bind (λ n, body n y) (λ _ x', mret (inl x'))); [|intros; apply fuel_mono_const].
Qed.

Lemma fuel_mono_do_while {X} (body : nat → X → prog W X) (cond : nat → X → prog W bool) x :
  (∀ x, fuel_mono (λ n, body n x)) → (∀ x, fuel_mono (λ n, cond n x)) →
  fuel_mono (λ n, do_while n (body n) (cond n) x).
Proof.
  intros Hb Hc. unfold do_while. apply (fuel_mono_loop (λ n x, x' ← body n x; _)).
  intros y. apply (fuel_mono_bind (λ n, body n y)); [done|]. intros x'.
  by apply (fuel_mono_bind (λ n, cond n x') (λ _ b, mret (if b : bool then inl x' else inr x')));
    [|intros; apply fuel_mono_const].
Qed.

Lemma fuel_mono_for_count {X} k (body : nat → Z → X → prog W X) i x :
  (∀ i x, fuel_mono (λ n, body n i x)) → fuel_mono (λ n, for_count k i (body n) x).
Proof.
  intros Hb. revert i x. induction k as [|k IH]; intros i x; [by intros n m w _ _|].
  simpl. by apply (fuel_mono_bind (λ n, body n i x) (λ n x', for_count k (i + 1) (body n) x')).
Qed.

Lemma fuel_mono_for_range {X} lo hi (body : nat → Z → X → prog W X) x :
  (∀ i x, fuel_mono (λ n, body n i x)) → fuel_mono (λ n, for_range lo hi (body n) x).
Proof. apply fuel_mono_for_count. Qed.

Lemma fuel_mono_local {S A} (f : nat → prog S A) s :
  fuel_mono f → fuel_mono (λ n, local (W := W) (f n) s).
Proof.
  intros Hf n m w Hle Hnf. unfold local in *. specialize (Hf n m s Hle).
  destruct (f n s); rewrite Hf; try done; by intros [].
Qed.

(** *** What a run with more fuel does *)

(** A run that returned returns the same with more fuel. *)
Lemma fuel_mono_Done {A} (f : nat → prog W A) n m w a w' :
  fuel_mono f → (n ≤ m)%nat → f n w = Done a w' → f m w = Done a w'.
Proof. intros Hf Hle Hn. rewrite <- Hn. apply Hf; [done|]. rewrite Hn. by intros []. Qed.

(** A run that reached undefined behaviour reaches it with more fuel. *)
Lemma fuel_mono_Fault {A} (f : nat → prog W A) n m w e w' :
  fuel_mono f → (n ≤ m)%nat → f n w = Fault e w' → f m w = Fault e w'.
Proof. intros Hf Hle Hn. rewrite <- Hn. apply Hf; [done|]. rewrite Hn. by intros []. Qed.

(** A run that ended in a blocked call ends there with more fuel. *)
Lemma fuel_mono_Blocked {A} (f : nat → prog W A) n m w w' :
  fuel_mono f → (n ≤ m)%nat → f n w = Blocked w' → f m w = Blocked w'.
Proof. intros Hf Hle Hn. rewrite <- Hn. apply Hf; [done|]. rewrite Hn. by intros []. Qed.

End mono.

(** ** The functions *)

Create HintDb fuel discriminated.

Ltac fuel_tac :=
  repeat first
    [ apply fuel_mono_const
    | solve [auto with fuel nocore]
    | apply fuel_mono_while_do; intros
    | apply fuel_mono_do_while; intros
    | apply fuel_mono_for_range; intros
    | apply fuel_mono_local
    | apply fuel_mono_bind; [|intros ?] ].

Section functions.
Context {W : Type} {TW : Transport W} {PF : Platform}.

Lemma wait_reply_fuel_mono s : fuel_mono (λ n, wait_reply (W := W) n s).
Proof. unfold wait_reply. fuel_tac. Qed.
#[local] Hint Resolve wait_reply_fuel_mono : fuel.

Lemma send_and_wait_fuel_mono s : fuel_mono (λ n, send_and_wait (W := W) n s).
Proof. unfold send_and_wait. fuel_tac. Qed.
#[local] Hint Resolve send_and_wait_fuel_mono : fuel.

Lemma exchange_fuel_mono msgNum s : fuel_mono (λ n, exchange (W := W) n msgNum s).
Proof. unfold exchange. fuel_tac. Qed.
#[local] Hint Resolve exchange_fuel_mono : fuel.

(** [clientStopWait]: the polling loop inside the [do ... while]
    inside the [for] loop. *)
Theorem clientStopWait_fuel_mono max message :
  fuel_mono (λ n, clientStopWait (W := W) n max message).
Proof. unfold clientStopWait. fuel_tac. Qed.

Lemma await_message_fuel_mono msgToAck message :
  fuel_mono (λ n, await_message (W := W) n msgToAck message).
Proof. unfold await_message. fuel_tac. Qed.
#[local] Hint Resolve await_message_fuel_mono : fuel.

(** [serverReliable]. *)
Theorem serverReliable_fuel_mono max message :
  fuel_mono (λ n, serverReliable (W := W) n max message).
Proof. unfold serverReliable. fuel_tac. Qed.

Lemma slide_fuel_mono windowSize : fuel_mono (λ n, slide n windowSize).
Proof. unfold slide. fuel_tac. Qed.
#[local] Hint Resolve slide_fuel_mono : fuel.

Lemma recv_frame_fuel_mono windowSize m : fuel_mono (λ n, recv_frame n windowSize m).
Proof. unfold recv_frame. fuel_tac. Qed.
#[local] Hint Resolve recv_frame_fuel_mono : fuel.

Lemma receive_and_ack_fuel_mono windowSize s :
  fuel_mono (λ n, receive_and_ack (W := W) n windowSize s).
Proof. unfold receive_and_ack. fuel_tac. Qed.
#[local] Hint Resolve receive_and_ack_fuel_mono : fuel.

(** [serverEarlyRetrans]: the slide loop inside the [do ... while]
    inside the [for] loop. *)
Theorem serverEarlyRetrans_fuel_mono max message windowSize :
  fuel_mono (λ n, serverEarlyRetrans (W := W) n max message windowSize).
Proof. unfold serverEarlyRetrans. fuel_tac. Qed.

Lemma send_message_fuel_mono max windowSize msgNum s :
  fuel_mono (λ n, send_message (W := W) n max windowSize msgNum s).
Proof. unfold send_message. fuel_tac. Qed.
#[local] Hint Resolve send_message_fuel_mono : fuel.

(** [clientSlidingWindow]: the waiting loop inside the [for] loop. *)
Theorem clientSlidingWindow_fuel_mono max message windowSize :
  fuel_mono (λ n, clientSlidingWindow (W := W) n max message windowSize).
Proof. unfold clientSlidingWindow. fuel_tac. Qed.

End functions.

(** ** Two runs, for every fuel that covers them *)

(** Scenario A of the specification: [clientStopWait] returns 1 for
    every fuel from 1700 on. *)
Example clientStopWait_scenario_A_any_fuel fuel :
  (1700 ≤ fuel)%nat →
  ∃ w', clientStopWait (PF := LP64) fuel 3 [9; 9]
          (SimNet.start [(0, [0]); (1600, [1]); (1600, [0])]) = Done 1 w'.
Proof.
  intros Hle. eexists.
  apply (fuel_mono_Done (λ n, clientStopWait (PF := LP64) n 3 [9; 9]) 1700 fuel);
    [apply clientStopWait_fuel_mono|done|apply clientStopWait_scenario_A].
Qed.

(** The read of line 135 outside [buffer] is reached for every fuel
    from 5 on. *)
Example clientSlidingWindow_out_of_bounds_any_fuel fuel :
  (5 ≤ fuel)%nat →
  ∃ w', clientSlidingWindow (PF := LP64) fuel 3 [9; 9] 1 (SimNet.start [(0, [1])]) =
          Fault (OutOfBounds 6) w'.
Proof.
  intros Hle. eexists.
  apply (fuel_mono_Fault (λ n, clientSlidingWindow (PF := LP64) n 3 [9; 9] 1) 5 fuel);
    [apply clientSlidingWindow_fuel_mono|done|apply clientSlidingWindow_out_of_bounds].
Qed.
