(* ===== verification/StopWaitSession.v ===== *)
(** * A session: the stop-and-wait client against its server

    [reliable_server] gives the loop of [serverReliable] as a [Server]:
    the body of its [do ... while] (lines 77-78) and its guard (line 80).
    [clientStopWait] runs on the [Wire] whose far end is that server: a
    wire with a schedule of the frames it loses, a schedule of the
    acknowledgments it drops, and a time that an acknowledgment takes to
    arrive.

    While that time is at most [MAX_TIME], and the server does not return
    before the client ([max] is at least 3, or no acknowledgment is
    dropped), the client returns, and what it returns is the number of
    frames lost and acknowledgments dropped; the server has read the frame
    of each message once more than its acknowledgment was dropped.  When
    [max] is 1 or 2 and the acknowledgment of the last message is dropped,
    the server has returned and the client never does. *)

From stdpp Require Import prelude.
From S2P Require Import Prelude Transport Peer StopWait.

#[local] Open Scope Z_scope.
#[local] Open Scope cint_scope.

(** ** The server of [serverReliable] *)

(** Lines 76-80: the [do ... while] for the message of index [msgToAck]. *)
#[export] Instance reliable_server {PF : Platform} : Server (list Z) := {|
  body := λ _, recv_and_echo;
  again := λ msgToAck message,
    m0 ← checked (OutOfBounds 0) (load message 0); mret (server_guard m0 msgToAck)
|}.

Lemma serverReliable_serve {PF : Platform} fuel max message :
  serverReliable fuel max message = serve fuel max message.
Proof. reflexivity. Qed.

#[export] Instance reliable_server_laws {PF : Platform} : ServerLaws (list Z).
Proof.
  split.
  - intros i s w Hinb. unfold pass. simpl. unfold recv_and_echo, recvFrom_array, await.
    prog_simp. unfold SimNet.recv. by rewrite Hinb.
  - intros i msg w t ws rest Hinb. unfold pass. simpl.
    unfold recv_and_echo, recvFrom_array, await, ackTo_int. prog_simp.
    unfold SimNet.recv. rewrite Hinb. simpl.
    destruct (blit (take _ ws) msg) as [msg1|]; simpl; [|eauto].
    destruct (load msg1 0) as [m|] eqn:Hm; simpl; rewrite ?Hm; simpl; [|eauto].
    eexists. split; [done|]. split; [done|]. by rewrite SimNet.sent_send.
Qed.

(** The frames of the messages from [j] on, the frame of each repeated
    as often as [ks] says, and once more. *)
Fixpoint arrivals {PF : Platform} (message : list Z) (j : Z) (ks : list nat) : list (list Z) :=
  match ks with
  | [] => []
  | k :: ks => replicate (S k) (bit_words message j) ++ arrivals message (j + 1) ks
  end.

(** ** The wire between two attempts *)

(** The client is about to send the frame of message [j], of which [n]
    copies have reached the server already.  The server has read every
    frame delivered, those of the messages before [j] and these copies,
    and nothing is waiting or on its way to the client.  The server has
    counted the messages whose frame it has read, up to 2 of them. *)
Record sw_step {PF : Platform} (max : Z) (msg : list Z) (j : Z) (n : nat)
    (w : Wire.wire (list Z)) : Prop := {
  sw_goal : Wire.goal w = max;
  sw_count : count (Wire.far w) = Z.min (if n is O then j else j + 1) 2;
  sw_heard : heard (Wire.far w) = length (Wire.delivered w);
  sw_up : failed (Wire.far w) = false;
  sw_answers : Wire.answers w = [];
  sw_flight : Wire.flight w = [];
  sw_latency : 0 ≤ Wire.latency w ≤ MAX_TIME;
  sw_delivered : ∃ ks, length ks = Z.to_nat j ∧
    Wire.delivered w = arrivals msg 0 ks ++ replicate n (bit_words msg j);
  sw_buffer : (words_of sizeof_ptr ≤ length (locals (Wire.far w)))%nat
}.

Lemma arrivals_app {PF : Platform} msg j ks ls :
  arrivals msg j (ks ++ ls) = arrivals msg j ks ++ arrivals msg (j + Z.of_nat (length ks)) ls.
Proof.
  revert j. induction ks as [|k ks IH]; intros j; [by rewrite Z.add_0_r|].
  cbn [arrivals app length]. rewrite IH, <- !app_assoc. do 3 f_equal. lia.
Qed.

Lemma length_arrivals {PF : Platform} msg j ks :
  length (arrivals msg j ks) = (length ks + sum_list ks)%nat.
Proof.
  revert j. induction ks as [|k ks IH]; intros j; [done|].
  cbn [arrivals]. rewrite length_app, length_replicate, IH. simpl. lia.
Qed.

(** No frame came twice: each message has one frame. *)
Lemma arrivals_once {PF : Platform} msg j ks :
  sum_list ks = 0%nat → arrivals msg j ks = bit_words msg <$> seqZ j (Z.of_nat (length ks)).
Proof.
  revert j. induction ks as [|k ks IH]; intros j Hks; [done|]. simpl in Hks.
  assert (k = 0%nat) as -> by lia. cbn [arrivals length replicate app].
  rewrite IH by done. rewrite Nat2Z.inj_succ, (seqZ_cons j) by lia.
  rewrite fmap_cons. do 3 f_equal; lia.
Qed.

Section server_side.
Context {PF : Platform} (Hptr : (1 ≤ words_of sizeof_ptr)%nat).

(** A frame reaches the server in its loop: the server echoes the first
    word, and counts the message when this word is the index. *)
Lemma hear_echo max b d (p : peer (list Z)) :
  running max p = true → (words_of sizeof_ptr ≤ length (locals p))%nat →
  ∃ pm, hear max (b :: d) p =
          ({| count := if server_guard b (count p) then count p else count p + 1;
              heard := S (heard p); locals := pm; failed := false |}, [Words [b]]) ∧
        length pm = length (locals p).
Proof.
  intros Hrun Hlen. unfold hear. rewrite Hrun. unfold pass. simpl.
  destruct (blit_take_is_Some (words_of sizeof_ptr) (b :: d) (locals p) Hlen) as [pm Hblit].
  pose proof (blit_take_head _ _ _ _ _ Hptr Hblit) as Hm.
  unfold recv_and_echo, recvFrom_array, await, ackTo_int. prog_simp.
  rewrite Hblit. simpl. rewrite !Hm. simpl. rewrite ?Hm. simpl. exists pm. split; [done|].
  by apply blit_length in Hblit.
Qed.

(** The count of the server after the first frame of message [j], and
    after another copy of it. *)
Lemma count_next j n :
  0 ≤ j →
  let c := Z.min (if n is O then j else j + 1) 2 in
  (if server_guard (Z.land j 1) c then c else c + 1) = Z.min (j + 1) 2.
Proof.
  intros Hj. cbv zeta. rewrite server_guard_neq. pose proof (land_1_range j) as Hb.
  destruct (decide (j = 0)) as [->|]; [by destruct n|].
  destruct (decide (j = 1)) as [->|]; [by destruct n|].
  destruct n; [destruct (Z.eqb_spec (Z.land j 1) (Z.min j 2))
             |destruct (Z.eqb_spec (Z.land j 1) (Z.min (j + 1) 2))]; simpl; lia.
Qed.

(** A frame of message [j] reaches the server in its loop: the server
    answers with the bit of [j], and has counted the message. *)
Lemma sw_step_hear max msg j n (w : Wire.wire (list Z)) :
  0 ≤ j → sw_step max msg j n w → (1 ≤ length msg)%nat →
  Z.min (if n is O then j else j + 1) 2 < max →
  ∃ p, hear (Wire.goal w) (bit_words msg j) (Wire.far w) = (p, [Words [Z.land j 1]]) ∧
    count p = Z.min (j + 1) 2 ∧ heard p = S (heard (Wire.far w)) ∧ failed p = false ∧
    length (locals p) = length (locals (Wire.far w)).
Proof.
  intros Hj [Hgoal Hcount Hheard Hup _ _ _ _ Hbuf] Hlen Hrun.
  destruct (bit_words_head msg j Hptr Hlen) as [d ->].
  destruct (hear_echo max (Z.land j 1) d (Wire.far w)) as (pm & Hhear & Hpm); [|done|].
  { unfold running. rewrite Hup, Hcount. simpl. by apply Z.ltb_lt. }
  rewrite Hgoal, Hhear. eexists. split; [done|]. simpl. rewrite Hcount.
  split; [by apply count_next|done].
Qed.

End server_side.

(** ** Schedules *)

(** What is left of a drop schedule after the first answer that it lets
    through. *)
Fixpoint next_kept (sched : list bool) : list bool :=
  match sched with
  | true :: sched => next_kept sched
  | false :: sched => sched
  | [] => []
  end.

Lemma next_kept_dropped l : head l = Some true → next_kept l = next_kept (tail l).
Proof. by destruct l as [|[] l]. Qed.

Lemma next_kept_kept l : head l ≠ Some true → next_kept l = tail l.
Proof. by destruct l as [|[] l]. Qed.

Lemma losses_head l :
  head l = Some true → losses l = S (losses (tail l)) ∧ length l = S (length (tail l)).
Proof. unfold losses. destruct l as [|[] l]; [done| |done]. by rewrite filter_cons_True. Qed.

Lemma losses_tail l :
  head l ≠ Some true → losses (tail l) = losses l ∧ (length (tail l) ≤ length l)%nat.
Proof.
  unfold losses. destruct l as [|[] l]; [done..|]. intros _.
  rewrite filter_cons_False by tauto. simpl. lia.
Qed.

(** From [(s, w)] to [(s', w')] the client has counted every frame that
    was lost and every answer that was dropped; [d] answers have arrived,
    and the server has got [d] frames, and one more for every answer that
    was dropped. *)
Record accounted (d : nat) (s : cstate) (w : Wire.wire (list Z))
    (s' : cstate) (w' : Wire.wire (list Z)) : Prop := {
  acc_retrans :
    retrans s' + Z.of_nat (losses (Wire.lost w') + losses (Wire.dropped w')) =
    retrans s + Z.of_nat (losses (Wire.lost w) + losses (Wire.dropped w));
  acc_lost : (length (Wire.lost w') ≤ length (Wire.lost w))%nat;
  acc_dropped : (length (Wire.dropped w') ≤ length (Wire.dropped w))%nat;
  acc_delivered :
    (length (Wire.delivered w') + losses (Wire.dropped w') =
     d + length (Wire.delivered w) + losses (Wire.dropped w))%nat
}.

Lemma accounted_refl s w : accounted 0 s w s w.
Proof. by split. Qed.

Lemma accounted_trans d1 d2 s1 w1 s2 w2 s3 w3 :
  accounted d1 s1 w1 s2 w2 → accounted d2 s2 w2 s3 w3 → accounted (d1 + d2) s1 w1 s3 w3.
Proof. intros [] []. split; lia. Qed.

(** ** The client on the wire *)

Section client_side.
Context {PF : Platform}.
Implicit Types w : Wire.wire (list Z).

Lemma poll_cond_wire w :
  (n ← pollRecvFrom; mret (n <? 1)) w =
  Done (bool_decide (Wire.answers w = [])) (Wire.wait 1 w).
Proof. prog_simp. by destruct (Wire.answers w). Qed.

Lemma wait_reply_S fuel s w :
  wait_reply (S fuel) s w =
  if bool_decide (Wire.answers w = [])
  then (resend_on_timeout s ≫= wait_reply fuel) (Wire.wait 1 w)
  else Done s (Wire.wait 1 w).
Proof.
  unfold wait_reply. rewrite while_do_S, poll_cond_wire. case_bool_decide; [|done].
  prog_simp. by destruct (resend_on_timeout s (Wire.wait 1 w)).
Qed.

Lemma resend_not_due s w :
  Wire.now w - startTime (timeout s) ≤ MAX_TIME → resend_on_timeout s w = Done s w.
Proof.
  intros Ht. unfold resend_on_timeout. rewrite (bind_Done _ _ _ _ _ (timer_lap_run _ _)).
  cbn [clock Wire.wire_transport fst snd].
  by destruct (Z.ltb_spec MAX_TIME (Wire.now w - startTime (timeout s))); [lia|].
Qed.

Lemma resend_due s w :
  MAX_TIME < Wire.now w - startTime (timeout s) →
  (words_of sizeof_ptr ≤ length (message s))%nat →
  resend_on_timeout s w =
  Done (set_timeout {| startTime := Wire.now w |} (add_retrans 1 s)) (Wire.send (cframe s) w).
Proof.
  intros Ht Hlen. unfold resend_on_timeout. rewrite (bind_Done _ _ _ _ _ (timer_lap_run _ _)).
  cbn [clock Wire.wire_transport fst snd].
  destruct (Z.ltb_spec MAX_TIME (Wire.now w - startTime (timeout s))); [|lia].
  rewrite (bind_Done _ _ _ _ _ (sendTo_array_run _ _ _ Hlen)).
  rewrite (bind_Done _ _ _ _ _ (timer_start_run _)).
  cbn [clock sock_sendTo Wire.wire_transport fst snd]. fold (cframe s). by rewrite Wire.send_keeps_time.
Qed.

(** No answer arrives for [n] units of time and the timer does not
    expire: [n] polls pass. *)
Lemma wait_reply_silent (n : nat) fuel s w :
  Wire.still 0 w → (∀ i, 0 ≤ i < Z.of_nat n → Wire.answers (Wire.wait i w) = []) →
  Wire.now w - startTime (timeout s) + Z.of_nat n ≤ MAX_TIME →
  wait_reply (n + fuel) s w = wait_reply fuel s (Wire.wait (Z.of_nat n) w).
Proof.
  revert w. induction n as [|n IH]; intros w Hst Hans Ht; [by rewrite Wire.wait_0|].
  cbn [Nat.add]. rewrite wait_reply_S, bool_decide_eq_true_2
    by (rewrite <- (Wire.wait_0 w) by done; apply Hans; lia).
  rewrite (bind_Done _ _ _ _ _ (resend_not_due s (Wire.wait 1 w) ltac:(simpl; lia))).
  rewrite IH; [|apply Wire.still_wait_0| |simpl; lia].
  - rewrite Wire.wait_wait by lia. do 2 f_equal. lia.
  - intros i Hi. rewrite Wire.wait_wait by lia. apply Hans. lia.
Qed.

Lemma wait_reply_answered fuel s w :
  Wire.answers w ≠ [] → wait_reply (S fuel) s w = Done s (Wire.wait 1 w).
Proof. intros Hans. by rewrite wait_reply_S, bool_decide_eq_false_2. Qed.

(** Nothing is there or on its way, and the timer has just been started:
    the client polls until the timer expires, and sends the frame again. *)
Lemma wait_reply_timeout fuel s w :
  Wire.answers w = [] → Wire.flight w = [] → startTime (timeout s) = Wire.now w →
  (words_of sizeof_ptr ≤ length (message s))%nat →
  let w1 := Wire.at_time (Wire.now w + 1501) w in
  wait_reply (1501 + fuel) s w =
  wait_reply fuel (set_timeout {| startTime := Wire.now w1 |} (add_retrans 1 s))
    (Wire.send (cframe s) w1).
Proof.
  intros Hans Hfl Hnow Hlen w1.
  assert (Wire.wait 1 (Wire.wait (Z.of_nat (Z.to_nat MAX_TIME)) w) = w1) as Hw1.
  { rewrite (Wire.wait_plain _ w), Wire.wait_plain by done. subst w1. unfold Wire.at_time. simpl. f_equal.
    unfold MAX_TIME. lia. }
  change (1501 + fuel)%nat with (Z.to_nat MAX_TIME + S fuel)%nat.
  rewrite wait_reply_silent; [|by apply Wire.still_flight| |unfold MAX_TIME in *; lia].
  - rewrite wait_reply_S, Hw1, bool_decide_eq_true_2 by by rewrite Wire.wait_plain.
    by rewrite (bind_Done _ _ _ _ _
                  (resend_due s w1 ltac:(subst w1; simpl; unfold MAX_TIME; lia) Hlen)).
  - intros i Hi. by rewrite Wire.wait_plain.
Qed.

(** *** One attempt *)

Section attempts.
Context (Hptr : (1 ≤ words_of sizeof_ptr)%nat).
Context (max : Z) (msg : list Z) (j : Z) (Hj : 0 ≤ j) (Hmsg : (1 ≤ length msg)%nat).

Lemma sw_step_at_time n t w : sw_step max msg j n w → sw_step max msg j n (Wire.at_time t w).
Proof. by intros []. Qed.

Lemma sw_step_lose n l w : sw_step max msg j n w → sw_step max msg j n (Wire.lose l w).
Proof. by intros []. Qed.

(** One more copy of the frame has reached the server, and nothing is
    left of its answer. *)
Lemma sw_step_heard n p l sched t w :
  sw_step max msg j n w → count p = Z.min (j + 1) 2 → heard p = S (heard (Wire.far w)) →
  failed p = false → length (locals p) = length (locals (Wire.far w)) →
  sw_step max msg j (S n)
    {| Wire.goal := Wire.goal w; Wire.far := p; Wire.answers := []; Wire.flight := [];
       Wire.lost := l; Wire.dropped := sched; Wire.latency := Wire.latency w;
       Wire.delivered := Wire.delivered w ++ [bit_words msg j]; Wire.now := t |}.
Proof.
  intros [Hgoal Hcount Hheard Hup Hans Hfl Hlat (ks & Hks & Hdel) Hbuf] Hc Hh Hf Hl.
  split; simpl; [done|done| |done|done|done|done| |lia].
  - rewrite Hh, Hheard, length_app. simpl. lia.
  - exists ks. by rewrite Hdel, replicate_cons_app, app_assoc.
Qed.

(** The frame is lost: the timer expires and the frame is sent again. *)
Lemma attempt_lost fuel s w l :
  Wire.lost w = true :: l → Wire.answers w = [] → Wire.flight w = [] →
  startTime (timeout s) = Wire.now w → (words_of sizeof_ptr ≤ length (message s))%nat →
  let w1 := Wire.at_time (Wire.now w + 1501) (Wire.lose l w) in
  wait_reply (1501 + fuel) s (Wire.send (cframe s) w) =
  wait_reply fuel (set_timeout {| startTime := Wire.now w1 |} (add_retrans 1 s))
    (Wire.send (cframe s) w1).
Proof.
  intros Hl Ha Hf Ht Hlen. unfold cframe at 1. rewrite (Wire.send_lost _ l) by done.
  exact (wait_reply_timeout fuel s (Wire.lose l w) Ha Hf Ht Hlen).
Qed.

(** The frame reaches the server and the answer is dropped: the timer
    expires and the frame is sent again. *)
Lemma attempt_dropped fuel s w n :
  sw_step max msg j n w → Z.min (if n is O then j else j + 1) 2 < max →
  head (Wire.lost w) ≠ Some true → head (Wire.dropped w) = Some true →
  take (words_of sizeof_ptr) (message s) = bit_words msg j →
  startTime (timeout s) = Wire.now w → (words_of sizeof_ptr ≤ length (message s))%nat →
  ∃ w1, sw_step max msg j (S n) w1 ∧ Wire.lost w1 = tail (Wire.lost w) ∧
    Wire.dropped w1 = tail (Wire.dropped w) ∧
    length (Wire.delivered w1) = S (length (Wire.delivered w)) ∧
    wait_reply (1501 + fuel) s (Wire.send (cframe s) w) =
    wait_reply fuel (set_timeout {| startTime := Wire.now w1 |} (add_retrans 1 s))
      (Wire.send (cframe s) w1).
Proof.
  intros Hstep Hrun Hlost Hdrop Hframe Ht Hlen.
  destruct (sw_step_hear Hptr max msg j n w Hj Hstep Hmsg Hrun) as (p & Hhear & Hc & Hh & Hf & Hl).
  pose proof (sw_answers _ _ _ _ _ Hstep) as Hans. pose proof (sw_flight _ _ _ _ _ Hstep) as Hfl.
  eexists. split_and!; [| | | |unfold cframe at 1; rewrite Hframe, Wire.send_deliver by done;
    rewrite (Wire.deliver_dropped _ _ _ (Words [Z.land j 1])) by (done || by rewrite Hhear);
    by apply wait_reply_timeout].
  - rewrite Hhear, Hans. by apply sw_step_at_time, sw_step_heard.
  - done.
  - done.
  - simpl. rewrite length_app. simpl. lia.
Qed.

(** The frame reaches the server and the answer arrives, before the timer
    expires. *)
Lemma attempt_heard fuel s w n :
  sw_step max msg j n w → Z.min (if n is O then j else j + 1) 2 < max →
  head (Wire.lost w) ≠ Some true → head (Wire.dropped w) ≠ Some true →
  take (words_of sizeof_ptr) (message s) = bit_words msg j →
  startTime (timeout s) = Wire.now w →
  ∃ w', wait_reply (1501 + fuel) s (Wire.send (cframe s) w) = Done s w' ∧
    Wire.answers w' = [Words [Z.land j 1]] ∧ sw_step max msg j (S n) (Wire.read w') ∧
    Wire.lost w' = tail (Wire.lost w) ∧ Wire.dropped w' = tail (Wire.dropped w) ∧
    length (Wire.delivered w') = S (length (Wire.delivered w)).
Proof.
  intros Hstep Hrun Hlost Hdrop Hframe Ht.
  destruct (sw_step_hear Hptr max msg j n w Hj Hstep Hmsg Hrun) as (p & Hhear & Hc & Hh & Hf & Hl).
  pose proof (sw_answers _ _ _ _ _ Hstep) as Hans. pose proof (sw_flight _ _ _ _ _ Hstep) as Hfl.
  pose proof (sw_latency _ _ _ _ _ Hstep) as Hlat.
  destruct (Wire.deliver_kept (bit_words msg j) (tail (Wire.lost w)) w (Words [Z.land j 1]))
    as [Hthere Hquiet]; [done|by rewrite Hhear|done|lia|].
  unfold cframe. rewrite Hframe, Wire.send_deliver by done.
  replace (1501 + fuel)%nat
    with (Z.to_nat (Wire.latency w) + S (1500 - Z.to_nat (Wire.latency w) + fuel))%nat
    by (unfold MAX_TIME in Hlat; lia).
  rewrite wait_reply_silent, Z2Nat.id, Hthere;
    [|lia|apply Wire.still_deliver|intros i Hi; rewrite Hquiet by lia; done|simpl; lia].
  rewrite wait_reply_answered, Wire.wait_plain by (simpl; by rewrite ?Hans).
  eexists. split; [done|]. simpl. rewrite Hhear, Hans. split_and!; [done| |done|done|].
  - by apply (sw_step_heard n p _ _ _ w).
  - rewrite length_app. simpl. lia.
Qed.

(** An attempt that fails: the frame is lost, or its answer is dropped.
    The timer expires and the client sends the frame again, having
    counted one more; the schedules are shorter by one entry. *)
Lemma attempt_failed fuel s w n :
  sw_step max msg j n w → Z.min (if n is O then j else j + 1) 2 < max →
  head (Wire.lost w) = Some true ∨ head (Wire.dropped w) = Some true →
  Z.min (j + 1) 2 < max ∨ Wire.dropped w = [] →
  take (words_of sizeof_ptr) (message s) = bit_words msg j →
  startTime (timeout s) = Wire.now w → (words_of sizeof_ptr ≤ length (message s))%nat →
  ∃ w1 n1, let s1 := set_timeout {| startTime := Wire.now w1 |} (add_retrans 1 s) in
    sw_step max msg j n1 w1 ∧ Z.min (if n1 is O then j else j + 1) 2 < max ∧
    accounted 0 s w s1 w1 ∧ next_kept (Wire.dropped w1) = next_kept (Wire.dropped w) ∧
    (length (Wire.lost w1) + length (Wire.dropped w1) <
     length (Wire.lost w) + length (Wire.dropped w))%nat ∧
    (Wire.dropped w = [] → Wire.dropped w1 = []) ∧
    wait_reply (1501 + fuel) s (Wire.send (cframe s) w) =
    wait_reply fuel s1 (Wire.send (cframe s1) w1).
Proof.
  intros Hstep Hrun Hfail Hmore Hframe Ht Hlen.
  destruct (decide (head (Wire.lost w) = Some true)) as [Hl|Hl].
  - destruct (losses_head _ Hl) as [Hc Hn].
    assert (Wire.lost w = true :: tail (Wire.lost w)) as El
      by (by destruct (Wire.lost w) as [|[] ?]).
    exists (Wire.at_time (Wire.now w + 1501) (Wire.lose (tail (Wire.lost w)) w)), n.
    split_and!; [by apply sw_step_at_time, sw_step_lose|done| |done|simpl; lia|done|].
    + split; simpl; lia.
    + apply (attempt_lost fuel s w _ El); [apply Hstep..|done|done].
  - destruct Hfail as [?|Hd]; [done|]. destruct (losses_head _ Hd) as [Hc Hn].
    destruct (losses_tail _ Hl) as [Hcl Hnl].
    destruct (attempt_dropped fuel s w n) as (w1 & Hstep1 & Hl1 & Hd1 & Hdel & Hrun1); [done..|].
    exists w1, (S n). rewrite Hrun1.
    split_and!; [done| | |by rewrite Hd1, <- next_kept_dropped|rewrite Hl1, Hd1; lia
                |rewrite Hd1; by destruct (Wire.dropped w)|done].
    + destruct Hmore as [?|Hnil]; [done|by rewrite Hnil in Hd].
    + split; rewrite ?Hl1, ?Hd1; simpl; lia.
Qed.

(** The attempts for message [j]: the frame is sent until a copy has
    reached the server and the answer to it has arrived. *)
Lemma wait_reply_session (m : nat) : ∀ fuel s w n,
  (length (Wire.lost w) + length (Wire.dropped w) ≤ m)%nat →
  sw_step max msg j n w → Z.min (if n is O then j else j + 1) 2 < max →
  Z.min (j + 1) 2 < max ∨ Wire.dropped w = [] →
  take (words_of sizeof_ptr) (message s) = bit_words msg j →
  startTime (timeout s) = Wire.now w → (words_of sizeof_ptr ≤ length (message s))%nat →
  1501 * (Z.of_nat m + 1) < Z.of_nat fuel →
  ∃ s' w' k, wait_reply fuel s (Wire.send (cframe s) w) = Done s' w' ∧
    message s' = message s ∧ seqNum s' = seqNum s ∧ accounted 1 s w s' w' ∧
    Wire.dropped w' = next_kept (Wire.dropped w) ∧
    Wire.answers w' = [Words [Z.land j 1]] ∧ sw_step max msg j (S k) (Wire.read w').
Proof.
  induction m as [m IH] using lt_wf_ind. intros fuel s w n Hm Hstep Hrun Hmore Hframe Ht Hlen Hfuel.
  replace fuel with (1501 + (fuel - 1501))%nat by lia.
  destruct (decide (head (Wire.lost w) = Some true ∨ head (Wire.dropped w) = Some true))
    as [Hfail|Hok].
  - destruct (attempt_failed (fuel - 1501) s w n)
      as (w1 & n1 & Hstep1 & Hrun1 & Hacc & Hnext & Hless & Hnil & ->); [done..|].
    edestruct (IH (m - 1)%nat ltac:(lia) (fuel - 1501)%nat
                 (set_timeout {| startTime := Wire.now w1 |} (add_retrans 1 s)) w1 n1)
      as (s' & w' & k & Hrun' & Hm' & Hs' & Hacc' & Hd' & Hans & Hstep');
      [lia|done|done| |done|done|done|lia|].
    { destruct Hmore; auto. }
    exists s', w', k. split_and!; [done..| |congruence|done|done].
    apply (accounted_trans 0 1 _ _ _ _ _ _ Hacc Hacc').
  - destruct (attempt_heard (fuel - 1501) s w n)
      as (w' & Hrun' & Hans & Hstep' & Hl & Hd & Hdel); [done|done|tauto|tauto|done|done|].
    destruct (losses_tail (Wire.lost w)) as [Hcl Hnl]; [tauto|].
    destruct (losses_tail (Wire.dropped w)) as [Hcd Hnd]; [tauto|].
    exists s, w', n. split_and!; [done..| |rewrite next_kept_kept; tauto|done|done].
    split; rewrite ?Hl, ?Hd; lia.
Qed.

End attempts.

(** *** One message *)

Lemma send_and_wait_split fuel s w :
  (words_of sizeof_ptr ≤ length (message s))%nat →
  send_and_wait fuel s w =
  (wait_reply fuel (set_timeout {| startTime := Wire.now w |} s)
   ≫= λ s, r ← recvFrom_int (Some (seqNum s)); v ← checked Indeterminate r;
           m0 ← checked (OutOfBounds 0) (load (message s) 0);
           mret (add_retrans (Z.lxor v m0) (set_seqNum v s))) (Wire.send (cframe s) w).
Proof.
  intros Hlen. unfold send_and_wait.
  rewrite (bind_Done _ _ _ _ _ (sendTo_array_run _ _ _ Hlen)).
  rewrite (bind_Done _ _ _ _ _ (timer_start_run _)).
  cbn [clock sock_sendTo Wire.wire_transport fst snd]. fold (cframe s).
  by rewrite Wire.send_keeps_time.
Qed.

(** The copies of the frame of message [j] are the frames of one more
    message. *)
Lemma sw_step_next max msg j k w :
  0 ≤ j → sw_step max msg j (S k) w → sw_step max msg (j + 1) 0 w.
Proof.
  intros Hj [Hgoal Hcount Hheard Hup Hans Hfl Hlat (ks & Hks & Hdel) Hbuf].
  split; [done..| |done]. exists (ks ++ [k]). rewrite length_app, arrivals_app, Hdel. simpl.
  split; [lia|]. rewrite !app_nil_r. do 3 f_equal; f_equal; lia.
Qed.

Lemma accounted_read d s0 s w s' w' s'' :
  accounted d s w s' w' → retrans s0 = retrans s → retrans s'' = retrans s' →
  accounted d s0 w s'' (Wire.read w').
Proof. intros [] Hr0 Hr. split; simpl; (done || lia). Qed.

(** The exchange for message [j] on the wire: the frame is sent until the
    answer to it arrives, the server echoes its bit, and the client has
    counted the attempts that failed. *)
Lemma exchange_session fuel max msg j s w :
  words_of sizeof_int = 1%nat → (1 ≤ words_of sizeof_ptr)%nat → 0 ≤ j < max → sw_step max msg j 0 w → Z.min (j + 1) 2 < max ∨ Wire.dropped w = [] →
  (1 ≤ length msg)%nat → (words_of sizeof_ptr ≤ length (message s))%nat →
  (∀ i, bit_words (message s) i = bit_words msg i) →
  1501 * (Z.of_nat (length (Wire.lost w) + length (Wire.dropped w)) + 1) < Z.of_nat fuel →
  ∃ s' w', exchange fuel j s w = Done s' w' ∧ accounted 1 s w s' w' ∧
    Wire.dropped w' = next_kept (Wire.dropped w) ∧
    message s' = <[0%nat := Z.land j 1]> (message s) ∧ sw_step max msg (j + 1) 0 w'.
Proof.
  intros Hint Hptr Hj Hstep Hmore Hmsg Hlen Hs Hfuel. unfold exchange.
  destruct (store (message s) 0 (Z.land j 1)) as [msg1|] eqn:Hst; [|apply store_None in Hst; lia].
  rewrite (bind_Done _ _ _ _ _ (checked_Some _ _ _)).
  pose proof (load_store_eq _ _ _ _ Hst) as Hl0. apply store_Some in Hst as [_ ->].
  change (Z.to_nat 0) with 0%nat in Hl0. destruct fuel as [|n]; [lia|].
  set (s1 := set_message (<[0%nat := Z.land j 1]> (message s)) s).
  rewrite do_while_S, send_and_wait_split by (simpl; by rewrite length_insert).
  destruct (wait_reply_session Hptr max msg j (proj1 Hj) Hmsg _ (S n)
              (set_timeout {| startTime := Wire.now w |} s1) w 0%nat (le_n _) Hstep)
    as (s2 & w2 & k & Hrun & Hm & Hseq & Hacc & Hsched & Hans2 & Hnext);
    [lia|done|apply Hs|done|simpl; by rewrite length_insert|done|].
  rewrite (bind_Done _ _ _ _ _ Hrun). simpl in Hm.
  pose proof (Wire.recv_answer 1 w2 [Z.land j 1] [] Hans2) as Hrecv.
  change (Wire.recv 1 w2) with (sock_recvFrom 1 w2) in Hrecv.
  rewrite (bind_Done _ _ _ _ _ (recvFrom_int_run _ _ _ _ _ Hint Hrecv)).
  cbn [take]. rewrite (bind_Done _ _ _ _ _ (checked_Some _ _ _)), Hm.
  rewrite Hl0, (bind_Done _ _ _ _ _ (checked_Some _ _ _)). cbn [mret prog_mret prog_ret].
  rewrite (ack_mismatch_run _ _ (Z.land j 1)) by (simpl; by rewrite Hm).
  cbn [seqNum add_retrans set_seqNum]. rewrite Z.eqb_refl. cbn [negb].
  eexists _, _. split; [done|]. split_and!; [|done|done|eapply sw_step_next; [lia|done]].
  eapply accounted_read; [exact Hacc|done|]. simpl. rewrite Z.lxor_nilpotent. lia.
Qed.

End client_side.

(** ** The transfer *)

Lemma sw_step_launch {PF : Platform} max msg pmsg lost dropped latency :
  0 ≤ latency ≤ MAX_TIME → (words_of sizeof_ptr ≤ length pmsg)%nat →
  sw_step max msg 0 0 (Wire.launch max pmsg lost dropped latency).
Proof. intros Hlat Hlen. split; simpl; try done. by exists []. Qed.

(** The messages before [n]: the exchange of each has returned. *)
Lemma clientStopWait_prefix {PF : Platform} fuel max msg pmsg lost dropped latency n :
  words_of sizeof_int = 1%nat →
  (1 ≤ words_of sizeof_ptr ≤ length msg)%nat → (words_of sizeof_ptr ≤ length pmsg)%nat →
  0 ≤ n ≤ max → 0 ≤ latency ≤ MAX_TIME → Z.min n 2 < max ∨ dropped = [] →
  1501 * (Z.of_nat (length lost + length dropped) + 1) < Z.of_nat fuel →
  let w0 := Wire.launch max pmsg lost dropped latency in
  ∃ s' w', for_range 0 max (exchange fuel) (cinit msg) w0 =
             for_range n max (exchange fuel) s' w' ∧
    accounted (Z.to_nat n) (cinit msg) w0 s' w' ∧
    Wire.dropped w' = Nat.iter (Z.to_nat n) next_kept dropped ∧ sw_step max msg n 0 w' ∧
    length (message s') = length msg ∧ (∀ i, bit_words (message s') i = bit_words msg i).
Proof.
  intros Hint [Hptr Hlen] Hplen Hn Hlat Hmore Hfuel w0.
  pose (I := λ (j : Z) (s : cstate) (w : Wire.wire (list Z)),
    sw_step max msg j 0 w ∧ length (message s) = length msg ∧
    (∀ i, bit_words (message s) i = bit_words msg i) ∧
    accounted (Z.to_nat j) (cinit msg) w0 s w ∧
    Wire.dropped w = Nat.iter (Z.to_nat j) next_kept dropped ∧
    (Z.min n 2 < max ∨ Wire.dropped w = [])).
  destruct (for_range_upto I 0 n max (exchange fuel) (cinit msg) w0)
    as (s' & w' & (Hstep & Hl & Hs & Hacc & Hsched & _) & Hrun); [lia| | |by exists s', w'].
  - intros j s w Hj (Hstep & Hl & Hs & Hacc & Hsched & Hm).
    destruct (exchange_session fuel max msg j s w)
      as (s1 & w1 & Hrun & Hacc1 & Hsched1 & Hm1 & Hstep1); [done|done|lia|done| |lia|lia|done| |].
    { destruct Hm; [left; lia|by right]. }
    { destruct Hacc as [_ ? ? _]. simpl in *. lia. }
    exists s1, w1. split; [done|]. unfold I. rewrite Hm1.
    replace (Z.to_nat (j + 1)) with (Z.to_nat j + 1)%nat by lia.
    split_and!; [done|by rewrite length_insert| | | |].
    + intros i. unfold bit_words. rewrite list_insert_insert_eq. apply Hs.
    + by eapply accounted_trans.
    + by rewrite Nat.add_1_r, Hsched1, Hsched.
    + destruct Hm as [?|Hnil]; [by left|right]. destruct Hacc1 as [_ _ Hd _].
      rewrite Hnil in Hd. by apply nil_length_inv, Nat.le_0_r.
  - split_and!; [by apply sw_step_launch|done|done|apply accounted_refl|done|].
    destruct Hmore; [by left|by right].
Qed.

Lemma clientStopWait_wire {PF : Platform} fuel max msg pmsg lost dropped latency :
  words_of sizeof_int = 1%nat →
  (1 ≤ words_of sizeof_ptr ≤ length msg)%nat → (words_of sizeof_ptr ≤ length pmsg)%nat →
  0 ≤ max → 0 ≤ latency ≤ MAX_TIME → 3 ≤ max ∨ dropped = [] →
  1501 * (Z.of_nat (length lost + length dropped) + 1) < Z.of_nat fuel →
  let w0 := Wire.launch max pmsg lost dropped latency in
  ∃ s' w', for_range 0 max (exchange fuel) (cinit msg) w0 = Done s' w' ∧
    accounted (Z.to_nat max) (cinit msg) w0 s' w' ∧
    Wire.dropped w' = Nat.iter (Z.to_nat max) next_kept dropped ∧ sw_step max msg max 0 w'.
Proof.
  intros Hint Hlen Hplen Hmax Hlat Hmore Hfuel w0.
  destruct (clientStopWait_prefix fuel max msg pmsg lost dropped latency max)
    as (s' & w' & Hrun & Hacc & Hsched & Hstep & _); [done..|lia|done| |done|].
  { destruct Hmore; [left; lia|by right]. }
  exists s', w'. subst w0. by rewrite Hrun, for_range_empty.
Qed.

(** C9: on a wire that loses the frames and drops the acknowledgments its
    schedules say, and on which an acknowledgment takes no longer than
    [MAX_TIME] to arrive, [clientStopWait] against the loop of
    [serverReliable] returns, provided that [max] is at least 3 or that no
    acknowledgment is dropped.  What it returns is the number of frames
    that were lost and acknowledgments that were dropped.  The server has
    read the frame of each message, in order, once more than an
    acknowledgment of this message was dropped, and every acknowledgment
    that arrived has been read.  The server has counted the first two
    messages and no other. *)
Theorem stopwait_session {PF : Platform} fuel max msg pmsg lost dropped latency :
  words_of sizeof_int = 1%nat →
  (1 ≤ words_of sizeof_ptr ≤ length msg)%nat → (words_of sizeof_ptr ≤ length pmsg)%nat →
  0 ≤ max → 0 ≤ latency ≤ MAX_TIME → 3 ≤ max ∨ dropped = [] →
  1501 * (Z.of_nat (length lost + length dropped) + 1) < Z.of_nat fuel →
  ∃ r w' ks, clientStopWait fuel max msg (Wire.launch max pmsg lost dropped latency) = Done r w' ∧
    r + Z.of_nat (losses (Wire.lost w') + losses (Wire.dropped w')) =
      Z.of_nat (losses lost + losses dropped) ∧
    Wire.delivered w' = arrivals msg 0 ks ∧ length ks = Z.to_nat max ∧
    (sum_list ks + losses (Wire.dropped w') = losses dropped)%nat ∧
    Wire.dropped w' = Nat.iter (Z.to_nat max) next_kept dropped ∧
    count (Wire.far w') = Z.min max 2 ∧ failed (Wire.far w') = false ∧
    Wire.answers w' = [] ∧ Wire.flight w' = [].
Proof.
  intros Hint Hlen Hplen Hmax Hlat Hmore Hfuel. unfold clientStopWait.
  destruct (clientStopWait_wire fuel max msg pmsg lost dropped latency)
    as (s' & w' & Hrun & [Hr _ _ Hd] & Hsched & [_ Hc _ Hup Ha Hf _ (ks & Hks & Hdel) _]);
    [done..|].
  rewrite (bind_Done _ _ _ _ _ Hrun). exists (retrans s'), w', ks.
  rewrite app_nil_r in Hdel. rewrite Hdel, length_arrivals in Hd. simpl in Hr, Hd.
  split_and!; [done|lia|done|done|lia|done..].
Qed.

Lemma stopwait_session_witness :
  ∃ r w' ks,
    clientStopWait (PF := LP64) (TW := Wire.wire_transport (SV := reliable_server (PF := LP64)))
      (Z.to_nat 7506) 3 [7; 8] (Wire.launch 3 [0; 0] [true; false] [false; true] 2) = Done r w' ∧
    r + Z.of_nat (losses (Wire.lost w') + losses (Wire.dropped w')) =
      Z.of_nat (losses [true; false] + losses [false; true]) ∧
    Wire.delivered w' = arrivals (PF := LP64) [7; 8] 0 ks ∧ length ks = Z.to_nat 3 ∧
    (sum_list ks + losses (Wire.dropped w') = losses [false; true])%nat ∧
    Wire.dropped w' = Nat.iter (Z.to_nat 3) next_kept [false; true] ∧
    count (Wire.far w') = Z.min 3 2 ∧ failed (Wire.far w') = false ∧
    Wire.answers w' = [] ∧ Wire.flight w' = [].
Proof.
  apply (stopwait_session (PF := LP64) (Z.to_nat 7506) 3 [7; 8] [0; 0] [true; false]
           [false; true] 2);
    [done|change (1 ≤ 2 ≤ 2)%nat; lia|change (2 ≤ 2)%nat; lia|lia|unfold MAX_TIME; lia
    |left; lia|done].
Defined.

(** No acknowledgment is dropped: the frame of each message has reached
    the server exactly once. *)
Corollary stopwait_frames_once {PF : Platform} fuel max msg pmsg lost latency :
  words_of sizeof_int = 1%nat →
  (1 ≤ words_of sizeof_ptr ≤ length msg)%nat → (words_of sizeof_ptr ≤ length pmsg)%nat →
  0 ≤ max → 0 ≤ latency ≤ MAX_TIME → 1501 * (Z.of_nat (length lost) + 1) < Z.of_nat fuel →
  ∃ r w', clientStopWait fuel max msg (Wire.launch max pmsg lost [] latency) = Done r w' ∧
    r + Z.of_nat (losses (Wire.lost w')) = Z.of_nat (losses lost) ∧
    Wire.delivered w' = bit_words msg <$> seqZ 0 max.
Proof.
  intros Hint Hlen Hplen Hmax Hlat Hfuel. unfold clientStopWait.
  destruct (clientStopWait_wire fuel max msg pmsg lost [] latency)
    as (s' & w' & Hrun & [Hr _ Hn Hd] & _ & [_ _ _ _ _ _ _ (ks & Hks & Hdel) _]);
    [done..|by right|simpl; lia|].
  rewrite (bind_Done _ _ _ _ _ Hrun). exists (retrans s'), w'.
  apply Nat.le_0_r, nil_length_inv in Hn. rewrite app_nil_r in Hdel.
  rewrite Hn, Hdel, length_arrivals in Hd. rewrite Hn in Hr. simpl in Hr, Hd.
  split_and!; [done|lia|]. rewrite Hdel, arrivals_once, Hks by lia. by rewrite Z2Nat.id.
Qed.

(** ** The far end is [serverReliable] *)

(** C29: the client has returned and the frame of every message has reached
    the server, but when [max] is 3 or more [serverReliable] has not
    returned: run on a socket that holds the frames that were delivered,
    it has read them all and waits for another. *)
Theorem stopwait_server_waits {PF : Platform} fuel budget max msg pmsg lost dropped latency :
  words_of sizeof_int = 1%nat →
  (1 ≤ words_of sizeof_ptr ≤ length msg)%nat → (words_of sizeof_ptr ≤ length pmsg)%nat →
  3 ≤ max → 0 ≤ latency ≤ MAX_TIME →
  1501 * (Z.of_nat (length lost + length dropped) + 1) < Z.of_nat fuel →
  (Z.to_nat max + losses dropped < budget)%nat →
  ∃ r w' net ks,
    clientStopWait fuel max msg (Wire.launch max pmsg lost dropped latency) = Done r w' ∧
    (SimNet.inbox (Wire.replay w')).*2 = arrivals msg 0 ks ∧ length ks = Z.to_nat max ∧
    serverReliable budget max pmsg (Wire.replay w') = Blocked net ∧ SimNet.inbox net = [].
Proof.
  intros Hint Hlen Hplen Hmax Hlat Hfuel Hbudget.
  destruct (clientStopWait_wire fuel max msg pmsg lost dropped latency)
    as (s' & w' & Hrun & [_ _ _ Hd] & _ & [Hg Hc Hh Hup Ha Hf _ (ks & Hks & Hdel) Hb]);
    [done..|lia|done|by left|done|].
  rewrite app_nil_r in Hdel. simpl in Hd. apply (bind_Done _ (λ s, mret (retrans s))) in Hrun.
  assert (Wire.tracks max pmsg w') as Htr.
  { eapply (preserves_Done _ (clientStopWait fuel max msg));
      [|apply (tracks_launch max pmsg lost dropped latency)|done].
    apply clientStopWait_preserves, stable_tracks. }
  destruct (tracks_serve budget max pmsg w' Htr Hup) as (net & _ & Hinb & Hserve).
  { rewrite Hdel, length_arrivals in *. lia. }
  exists (retrans s'), w', net, ks. rewrite serverReliable_serve, Hserve, Hc.
  destruct (Z.ltb_spec (Z.min max 2) max); [|lia]. split_and!; [done| |done|done|].
  - simpl. by rewrite <- list_fmap_compose, list_fmap_id.
  - rewrite Hinb, Hh. apply drop_ge. simpl. by rewrite length_fmap.
Qed.

Lemma stopwait_server_waits_witness :
  ∃ r w' net ks,
    clientStopWait (PF := LP64) (TW := Wire.wire_transport (SV := reliable_server (PF := LP64)))
      (Z.to_nat 7506) 3 [7; 8] (Wire.launch 3 [0; 0] [true; false] [false; true] 2) = Done r w' ∧
    (SimNet.inbox (Wire.replay w')).*2 = arrivals (PF := LP64) [7; 8] 0 ks ∧
    length ks = Z.to_nat 3 ∧
    serverReliable (PF := LP64) 5 3 [0; 0] (Wire.replay w') = Blocked net ∧ SimNet.inbox net = [].
Proof.
  apply (stopwait_server_waits (PF := LP64) (Z.to_nat 7506) 5 3 [7; 8] [0; 0] [true; false]
           [false; true] 2);
    [done|change (1 ≤ 2 ≤ 2)%nat; lia|change (2 ≤ 2)%nat; lia|lia|unfold MAX_TIME; lia|done
    |vm_compute; lia].
Defined.

(** ** The last acknowledgment *)

(** The client waits in vain: nothing is there or on its way to it, and
    the server has returned, or it returns when the next frame reaches
    it and its answer to that frame is dropped. *)
Record doomed {PF : Platform} (max : Z) (msg : list Z) (w : Wire.wire (list Z)) : Prop := {
  doom_answers : Wire.answers w = [];
  doom_flight : Wire.flight w = [];
  doom_far : running (Wire.goal w) (Wire.far w) = false ∨
             (sw_step max msg (max - 1) 0 w ∧ head (Wire.dropped w) = Some true)
}.

Section last_ack.
Context {PF : Platform} (Hptr : (1 ≤ words_of sizeof_ptr)%nat).
Context (max : Z) (Hmax : 1 ≤ max ≤ 2) (msg : list Z) (Hmsg : (1 ≤ length msg)%nat).
Implicit Types w : Wire.wire (list Z).

Lemma doomed_wait n w : doomed max msg w → doomed max msg (Wire.wait n w).
Proof.
  intros [Ha Hf Hfar]. rewrite Wire.wait_plain by done. split; [done..|].
  destruct Hfar as [?|[? ?]]; [by left|right]. split; [by apply sw_step_at_time|done].
Qed.

(** Whatever becomes of the frame, no answer to it reaches the client. *)
Lemma doomed_send w :
  doomed max msg w → doomed max msg (Wire.send (Words (bit_words msg (max - 1))) w).
Proof.
  intros [Ha Hf Hfar]. destruct (decide (head (Wire.lost w) = Some true)) as [Hl|Hl].
  - destruct (Wire.lost w) as [|[] l] eqn:El; try done. rewrite (Wire.send_lost _ l) by done.
    split; [done..|]. destruct Hfar as [?|[? ?]]; [by left|right].
    split; [by apply sw_step_lose|done].
  - rewrite Wire.send_deliver by done. destruct Hfar as [Hstop|[Hstep Hd]].
    + rewrite Wire.deliver_silent by (done || by rewrite hear_stopped).
      split; simpl; [done..|]. left. by rewrite hear_stopped.
    + destruct (sw_step_hear Hptr max msg (max - 1) 0 w) as (p & Hhear & Hc & _ & Hf' & _);
        [lia|done|done|lia|].
      rewrite (Wire.deliver_dropped _ _ _ (Words [Z.land (max - 1) 1])) by (done || by rewrite Hhear).
      split; simpl; [done..|]. left. rewrite Hhear. unfold running. simpl.
      rewrite Hc, (sw_goal _ _ _ _ _ Hstep). apply andb_false_intro2, Z.ltb_ge. lia.
Qed.

(** The client polls and sends for ever. *)
Lemma wait_reply_doomed fuel s w :
  doomed max msg w → take (words_of sizeof_ptr) (message s) = bit_words msg (max - 1) →
  (words_of sizeof_ptr ≤ length (message s))%nat →
  ∃ w', wait_reply fuel s w = OutOfFuel w'.
Proof.
  intros Hw Hframe Hlen.
  destruct (while_do_diverges
              (λ s w, doomed max msg w ∧
                      take (words_of sizeof_ptr) (message s) = bit_words msg (max - 1) ∧
                      (words_of sizeof_ptr ≤ length (message s))%nat)
              fuel (λ _, n ← pollRecvFrom; mret (n <? 1)) resend_on_timeout s w)
    as (s' & w' & Hrun & _); [|done|by exists w'].
  intros s1 w1 (Hw1 & Hframe1 & Hlen1). exists (Wire.wait 1 w1).
  rewrite poll_cond_wire, bool_decide_eq_true_2 by apply Hw1.
  pose proof (doomed_wait 1 w1 Hw1) as Hw2.
  destruct (decide (Wire.now (Wire.wait 1 w1) - startTime (timeout s1) ≤ MAX_TIME)).
  - exists s1, (Wire.wait 1 w1). rewrite resend_not_due by done. by split_and!.
  - eexists _, _. rewrite resend_due by (done || lia). split; [done|]. split; [done|].
    split; [|done]. unfold cframe. rewrite Hframe1. by apply doomed_send.
Qed.

(** The exchange for the last message does not return when the answer to
    its frame is dropped. *)
Lemma exchange_doomed fuel s w :
  sw_step max msg (max - 1) 0 w → head (Wire.dropped w) = Some true →
  (words_of sizeof_ptr ≤ length (message s))%nat →
  (∀ i, bit_words (message s) i = bit_words msg i) →
  ∃ w', exchange fuel (max - 1) s w = OutOfFuel w'.
Proof.
  intros Hstep Hd Hlen Hs. unfold exchange.
  destruct (store (message s) 0 (Z.land (max - 1) 1)) as [msg1|] eqn:Hst;
    [|apply store_None in Hst; lia].
  rewrite (bind_Done _ _ _ _ _ (checked_Some _ _ _)). apply store_Some in Hst as [_ ->].
  destruct fuel as [|n]; [by eexists|].
  set (s1 := set_message (<[0%nat := Z.land (max - 1) 1]> (message s)) s).
  assert (take (words_of sizeof_ptr) (message s1) = bit_words msg (max - 1)) as Hframe by apply Hs.
  assert (words_of sizeof_ptr ≤ length (message s1))%nat as Hlen1
    by (simpl; by rewrite length_insert).
  rewrite do_while_S, send_and_wait_split by done.
  destruct (wait_reply_doomed (S n) (set_timeout {| startTime := Wire.now w |} s1)
              (Wire.send (cframe s1) w)) as [w' Hrun]; [|done|done|].
  { unfold cframe. rewrite Hframe. apply doomed_send. split; [apply Hstep..|by right]. }
  rewrite (bind_OutOfFuel _ _ _ _ Hrun). by exists w'.
Qed.

End last_ack.

(** C31: when [max] is 1 or 2, [serverReliable] returns as soon as it has
    read the frame of the last message; when the acknowledgment of that
    frame is dropped, [clientStopWait] sends the frame again and again to
    a server that is no longer there, and never returns. *)
Theorem stopwait_last_ack_dropped {PF : Platform} fuel max msg pmsg lost dropped latency :
  words_of sizeof_int = 1%nat →
  (1 ≤ words_of sizeof_ptr ≤ length msg)%nat → (words_of sizeof_ptr ≤ length pmsg)%nat →
  1 ≤ max ≤ 2 → 0 ≤ latency ≤ MAX_TIME →
  head (Nat.iter (Z.to_nat (max - 1)) next_kept dropped) = Some true →
  1501 * (Z.of_nat (length lost + length dropped) + 1) < Z.of_nat fuel →
  ∃ w', clientStopWait fuel max msg (Wire.launch max pmsg lost dropped latency) = OutOfFuel w'.
Proof.
  intros Hint Hlen Hplen Hmax Hlat Hdrop Hfuel. unfold clientStopWait.
  destruct (clientStopWait_prefix fuel max msg pmsg lost dropped latency (max - 1))
    as (s' & w' & Hrun & _ & Hsched & Hstep & Hl & Hs); [done..|lia|done|left; lia|done|].
  destruct (exchange_doomed (proj1 Hlen) max Hmax msg ltac:(lia) fuel s' w') as [w'' Hex];
    [done|by rewrite Hsched|lia|done|].
  exists w''. apply bind_OutOfFuel. rewrite Hrun, for_range_step by lia.
  replace (max - 1 + 1) with max by lia. by rewrite Hex.
Qed.

Lemma stopwait_last_ack_dropped_witness :
  ∃ w', clientStopWait (PF := LP64)
          (TW := Wire.wire_transport (SV := reliable_server (PF := LP64)))
          (Z.to_nat 4504) 2 [7; 8] (Wire.launch 2 [0; 0] [] [false; true] 3) = OutOfFuel w'.
Proof.
  apply (stopwait_last_ack_dropped (PF := LP64) (Z.to_nat 4504) 2 [7; 8] [0; 0] [] [false; true] 3);
    [done|change (1 ≤ 2 ≤ 2)%nat; lia|change (2 ≤ 2)%nat; lia|lia|unfold MAX_TIME; lia|done|done].
Defined.

(** An acknowledgment that takes one unit of time longer than [MAX_TIME]:
    nothing is lost, yet the client sends the frame of every message
    twice and returns 3 for 3 messages, and an acknowledgment is still
    on its way when it returns. *)
Example stopwait_late_ack :
  ∃ w', clientStopWait (PF := LP64)
          (TW := Wire.wire_transport (SV := reliable_server (PF := LP64)))
          (Z.to_nat 7506) 3 [7; 8] (Wire.launch 3 [0; 0] [] [] (MAX_TIME + 1)) = Done 3 w' ∧
    Wire.delivered w' = [[0; 8]; [0; 8]; [1; 8]; [1; 8]; [0; 8]; [0; 8]] ∧
    Wire.flight w' = [(6006, Words [0])].
Proof. eexists. split; [vm_compute; reflexivity|by vm_compute]. Qed.
