(* ===== verification/StopWaitProtocol.v ===== *)
(** * What stop-and-wait promises on a channel that loses datagrams

    The specification of [clientStopWait] and [serverReliable] taken
    together, stated on the indices of the messages instead of their
    bits.  A [link] is the index of the message the sender is at, the
    frames on their way to the receiver and the acknowledgments on their
    way back (each named by the index of its message, oldest first), the
    frames the receiver has read so far, and the number of frames the
    sender has handed over.  Its steps ([step]): the sender sends the
    frame of its message, once more at any time; a frame or an
    acknowledgment is lost; the receiver reads the oldest frame and
    answers it; the sender reads the oldest acknowledgment and goes on
    to the next message when it is the one of its message.  The channel
    keeps the order of what it delivers.

    [safe] is the invariant of every link that is reached
    ([link_reach_safe]): what is on its way, oldest first, the
    acknowledgments before the frames, belongs to the message before
    that of the sender and then to the sender's message; so an
    acknowledgment is that of the sender's message when its index and
    that of the message have the same bit ([ack_bit]), which is all the
    code compares.  The receiver has read the frames of the messages in
    order, each message before the sender went on to the next
    ([heard_in_order]). *)

From stdpp Require Import relations list sorting.
From S2P Require Import Prelude.

#[local] Open Scope Z_scope.

Module SWSpec.

Record link : Type := Link {
  sending : Z;
  frames : list Z;
  acks : list Z;
  heard : list Z;
  sent : Z
}.

Definition init : link := Link 0 [] [] [] 0.

Inductive step : link → link → Prop :=
| step_send j F A H n : step (Link j F A H n) (Link j (F ++ [j]) A H (n + 1))
| step_lose_frame j F1 i F2 A H n : step (Link j (F1 ++ i :: F2) A H n) (Link j (F1 ++ F2) A H n)
| step_deliver j i F A H n : step (Link j (i :: F) A H n) (Link j F (A ++ [i]) (H ++ [i]) n)
| step_lose_ack j F A1 i A2 H n : step (Link j F (A1 ++ i :: A2) H n) (Link j F (A1 ++ A2) H n)
| step_ack j i F A H n :
    step (Link j F (i :: A) H n) (Link (if decide (i = j) then j + 1 else j) F A H n).

Definition reach : relation link := rtc step.

(** The messages the receiver has counted, as [serverReliable] counts
    them: the first when it has read a frame of message 0, the second
    when it has read one of message 1, and no other. *)
Definition counted (H : list Z) : Z :=
  (if decide (0 ∈ H) then 1 else 0) + (if decide (1 ∈ H) then 1 else 0).

Record safe (l : link) : Prop := {
  safe_sending : 0 ≤ sending l;
  safe_pipeline : StronglySorted Z.le (acks l ++ frames l);
  safe_flying i : i ∈ acks l ++ frames l → sending l - 1 ≤ i ≤ sending l ∧ 0 ≤ i;
  safe_order : StronglySorted Z.le (heard l ++ frames l);
  safe_heard i : i ∈ heard l → 0 ≤ i ≤ sending l;
  safe_acks i : i ∈ acks l → i ∈ heard l;
  safe_before i : 0 ≤ i < sending l → i ∈ heard l;
  safe_sent : Z.of_nat (length (heard l) + length (frames l)) ≤ sent l
}.

(** ** Sorted lists *)

Lemma sorted_drop_middle {A} (R : relation A) l1 x l2 :
  StronglySorted R (l1 ++ x :: l2) → StronglySorted R (l1 ++ l2).
Proof.
  intros (Hle & H1 & [_ H2]%StronglySorted_cons)%StronglySorted_app.
  apply StronglySorted_app_2; [|done..]. intros a b Ha Hb. apply Hle; [done|by right].
Qed.

Lemma sorted_snoc l (x : Z) :
  StronglySorted Z.le l → (∀ y, y ∈ l → y ≤ x) → StronglySorted Z.le (l ++ [x]).
Proof.
  intros Hl Hx. apply StronglySorted_app_2; [|done|repeat constructor].
  intros a b Ha ->%list_elem_of_singleton. by apply Hx.
Qed.

(** ** The invariant *)

Lemma link_safe_init : safe init.
Proof.
  split; simpl; try (by intros ? ?%elem_of_nil); try (by constructor); try lia.
Qed.

Lemma link_safe_send j F A H n : safe (Link j F A H n) → safe (Link j (F ++ [j]) A H (n + 1)).
Proof.
  intros [Hj Hp Hf Ho Hh Ha Hb Hn]. simpl in *. split; simpl; try done.
  - rewrite app_assoc. apply sorted_snoc; [done|]. intros y Hy%Hf. lia.
  - rewrite app_assoc. intros i [Hi | ->%list_elem_of_singleton]%elem_of_app; [auto|lia].
  - rewrite app_assoc. apply sorted_snoc; [done|].
    intros y [Hy%Hh | Hy]%elem_of_app; [lia|].
    assert (y ∈ A ++ F) as Hy'%Hf by (apply elem_of_app; by right). lia.
  - rewrite length_app. simpl. lia.
Qed.

Lemma link_safe_lose_frame j F1 i F2 A H n :
  safe (Link j (F1 ++ i :: F2) A H n) → safe (Link j (F1 ++ F2) A H n).
Proof.
  intros [Hj Hp Hf Ho Hh Ha Hb Hn]. simpl in *. split; simpl; try done.
  - rewrite app_assoc in *. by eapply sorted_drop_middle.
  - intros x Hx. apply Hf. rewrite !elem_of_app in *. rewrite elem_of_cons. tauto.
  - rewrite app_assoc in *. by eapply sorted_drop_middle.
  - rewrite !length_app in *. simpl in *. lia.
Qed.

Lemma link_safe_deliver j i F A H n :
  safe (Link j (i :: F) A H n) → safe (Link j F (A ++ [i]) (H ++ [i]) n).
Proof.
  intros [Hj Hp Hf Ho Hh Ha Hb Hn]. simpl in *.
  assert (j - 1 ≤ i ≤ j ∧ 0 ≤ i) as Hi by (apply Hf, elem_of_app; right; left).
  split; simpl; try done.
  - by rewrite <- app_assoc.
  - rewrite <- app_assoc. done.
  - by rewrite <- app_assoc.
  - intros x [Hx%Hh | ->%list_elem_of_singleton]%elem_of_app; lia.
  - intros x [Hx%Ha | ->%list_elem_of_singleton]%elem_of_app; apply elem_of_app; [by left|right; by left].
  - intros x Hx%Hb. apply elem_of_app. by left.
  - rewrite !length_app in *. simpl in *. lia.
Qed.

Lemma link_safe_lose_ack j F A1 i A2 H n :
  safe (Link j F (A1 ++ i :: A2) H n) → safe (Link j F (A1 ++ A2) H n).
Proof.
  intros [Hj Hp Hf Ho Hh Ha Hb Hn]. simpl in *. split; simpl; try done.
  - rewrite <- app_assoc in *. by eapply sorted_drop_middle.
  - intros x Hx. apply Hf. rewrite !elem_of_app in *. rewrite elem_of_cons. tauto.
  - intros x Hx. apply Ha. rewrite !elem_of_app in *. rewrite elem_of_cons. tauto.
Qed.

Lemma link_safe_ack j i F A H n :
  safe (Link j F (i :: A) H n) → safe (Link (if decide (i = j) then j + 1 else j) F A H n).
Proof.
  intros [Hj Hp Hf Ho Hh Ha Hb Hn]. simpl in *.
  apply StronglySorted_cons in Hp as [Hle Hp].
  assert (∀ x, x ∈ A ++ F → j - 1 ≤ x ≤ j ∧ 0 ≤ x ∧ i ≤ x) as Hf'.
  { intros x Hx. pose proof (Hf x ltac:(by right)).
    rewrite Forall_forall in Hle. specialize (Hle x Hx). lia. }
  destruct (decide (i = j)) as [-> | Hne]; split; simpl; try done; try lia.
  - intros x Hx%Hf'. lia.
  - intros x Hx%Hh. lia.
  - intros x Hx. apply Ha. by right.
  - intros x Hx. destruct (decide (x = j)) as [-> | ?]; [apply Ha; by left|apply Hb; lia].
  - intros x Hx%Hf'. lia.
  - intros x Hx. apply Ha. by right.
Qed.

Lemma link_step_safe l l' : safe l → step l l' → safe l'.
Proof.
  intros Hs Hstep. destruct Hstep;
    eauto using link_safe_send, link_safe_lose_frame, link_safe_deliver, link_safe_lose_ack, link_safe_ack.
Qed.

Lemma link_steps_safe l l' : safe l → reach l l' → safe l'.
Proof. induction 2; eauto using link_step_safe. Qed.

Lemma link_reach_safe l : reach init l → safe l.
Proof. apply link_steps_safe, link_safe_init. Qed.

(** ** What the invariant gives *)

(** The acknowledgment that the sender reads is that of its message, or
    that of the message before; the bits tell them apart. *)
Lemma ack_bit j i F A H n :
  safe (Link j F (i :: A) H n) →
  (i = j ∨ i = j - 1 ∧ 1 ≤ j) ∧ (Z.land i 1 = Z.land j 1 ↔ i = j).
Proof.
  intros Hs. pose proof (safe_flying _ Hs i ltac:(by left)) as Hi. simpl in Hi.
  split; [lia|]. rewrite !land_1_mod. split; [|by intros ->].
  intros Hbit. destruct (decide (i = j)) as [|Hne]; [done|].
  assert (i = j - 1) as -> by lia. replace j with (j - 1 + 1) in Hbit at 2 by lia.
  rewrite Z.add_mod in Hbit by lia. pose proof (Z.mod_pos_bound (j - 1) 2 ltac:(lia)) as Hb.
  assert ((j - 1) `mod` 2 = 0 ∨ (j - 1) `mod` 2 = 1) as [Hm | Hm] by lia; rewrite Hm in Hbit; done.
Qed.

(** The frames are read in the order of the messages, and every message
    before that of the sender was read. *)
Lemma heard_in_order l :
  safe l →
  StronglySorted Z.le (heard l) ∧ (∀ i, i ∈ heard l → 0 ≤ i ≤ sending l) ∧
  (∀ i, 0 ≤ i < sending l → i ∈ heard l).
Proof.
  intros [_ _ _ (_ & Ho & _)%StronglySorted_app Hh _ Hb _]. done.
Qed.

(** No more than two messages are counted. *)
Lemma counted_range H : 0 ≤ counted H ≤ 2.
Proof. unfold counted. by repeat destruct (decide _). Qed.

(** The count after one more frame: it moves when the bit of the frame
    is the number of messages counted so far, as line 80 has it. *)
Lemma counted_snoc H i :
  (∀ x, 0 ≤ x < i → x ∈ H) → (1 ∈ H → 0 ∈ H) → 0 ≤ i →
  counted (H ++ [i]) = if decide (Z.land i 1 = counted H) then counted H + 1 else counted H.
Proof.
  intros Hbelow H10 Hi. pose proof (land_1_range i) as Hb. unfold counted.
  assert (∀ x, x ∈ H ++ [i] ↔ x ∈ H ∨ x = i) as Hin.
  { intros x. by rewrite elem_of_app, list_elem_of_singleton. }
  destruct (decide (i = 0)) as [-> | H0]; [|destruct (decide (i = 1)) as [-> | H1]].
  - rewrite (decide_True (P := 0 ∈ H ++ [0])) by (apply Hin; by right).
    rewrite (decide_ext (1 ∈ H ++ [0]) (1 ∈ H))
      by (rewrite Hin; split; [intros [?|?]; [done|lia]|by left]).
    change (Z.land 0 1) with 0. repeat destruct (decide _); try lia; tauto.
  - pose proof (Hbelow 0 ltac:(lia)).
    rewrite (decide_True (P := 1 ∈ H ++ [1])) by (apply Hin; by right).
    rewrite (decide_True (P := 0 ∈ H ++ [1])) by (apply Hin; by left).
    change (Z.land 1 1) with 1. repeat destruct (decide _); try lia; tauto.
  - pose proof (Hbelow 0 ltac:(lia)). pose proof (Hbelow 1 ltac:(lia)).
    rewrite (decide_True (P := 0 ∈ H ++ [i])) by (apply Hin; by left).
    rewrite (decide_True (P := 1 ∈ H ++ [i])) by (apply Hin; by left).
    rewrite (decide_True (P := 0 ∈ H)), (decide_True (P := 1 ∈ H)) by done.
    by rewrite decide_False by lia.
Qed.

End SWSpec.
