(* ===== verification/StopWaitSystem.v ===== *)
(** * Stop-and-wait as one system

    [clientStopWait] and [serverReliable] run at the two ends of the
    channel of [Channel.v].  A configuration ([SW.config]) holds the
    locals of the client, the place it has reached, the array and the
    loop index of the server, and the channel; beside these it records
    what an observer of the channel sees and the programs do not keep:
    the frames the server has read ([log]) and the number of frames the
    client has handed to its socket ([handed]).

    A step ([SW.cstep]) is a piece of one of the two functions that
    returned, or an event of the channel.  The pieces of the client
    ([SW.client_step]) are the numbering of the message (line 40), the
    sending of the frame with the start of the timer (lines 43-44), a
    turn of the polling loop that found nothing (lines 46-52), and the
    reading of an answer with the test of line 57 (lines 46, 54-57); a
    piece of the server ([SW.server_step]) is one pass of its
    [do ... while] (lines 76-80).  The channel ([SW.channel_step]) loses
    a frame or an acknowledgment, or lets time pass; it keeps the order
    of what it delivers and delivers nothing twice.  Each piece has one
    operation the other side can observe, so the steps interleave as the
    operations on the sockets do; time passes between any two pieces, so
    every timing of the answers is covered, those that take longer than
    [MAX_TIME] included.

    [SW.holds] relates a configuration to a link of
    [StopWaitProtocol.v]: the frames and acknowledgments on the channel
    and the frames in [log] carry the bits of the messages of the link.
    Every step of the system is matched by steps of the specification
    ([sw_cstep_simulated]). *)

From stdpp Require Import relations list sorting.
From S2P Require Import Prelude Transport Channel StopWait StopWaitProtocol.

#[local] Open Scope Z_scope.
#[local] Open Scope cint_scope.

Module SW.

(** Where the client is: at the head of the [for] loop with message [j]
    next (line 39), at the head of the [do ... while] (line 43), or at
    the test of the polling loop (line 46). *)
Inductive place : Type := Head (j : Z) | Send (j : Z) | Poll (j : Z).

(** The index of the [for] loop of line 39 at a place. *)
Definition msgNum (p : place) : Z := match p with Head j | Send j | Poll j => j end.

Record config : Type := Config {
  client : cstate;
  place_of : place;
  server : list Z;
  served : Z;
  log : list (list Z);
  handed : Z;
  net : Chan.chan
}.

(** Who moves next: one of the two functions, or the channel. *)
Inductive move : Type := Client | Server | LoseFrame (i : nat) | LoseAck (i : nat) | Tick (d : Z).

(** The acknowledgment of a frame of message [i]: its bit. *)
Definition bit_ack (i : Z) : list Z := [Z.land i 1].

Section system.
Context {PF : Platform} (max : Z).

(** The two functions at entry, with nothing on the channel. *)
Definition boot (msg pmsg : list Z) (t : Z) : config :=
  Config (cinit msg) (Head 0) pmsg 0 [] 0 (Chan.Chan [] [] t).

(** A piece of [clientStopWait] that returned. *)
Inductive client_step : place → cstate → Chan.chan → place → cstate → Chan.chan → Prop :=
| client_head j s c s' c' :
    j < max → number_message j s c = Done s' c' →
    client_step (Head j) s c (Send j) s' c'
| client_send j s c s' c' :
    send_once (TW := Chan.client_side) s c = Done s' c' →
    client_step (Send j) s c (Poll j) s' c'
| client_wait j s c c1 s' c' :
    no_reply (TW := Chan.client_side) c = Done true c1 →
    resend_on_timeout (TW := Chan.client_side) s c1 = Done s' c' →
    client_step (Poll j) s c (Poll j) s' c'
| client_read j s c c1 s' c2 b c' :
    no_reply (TW := Chan.client_side) c = Done false c1 →
    read_answer (TW := Chan.client_side) s c1 = Done s' c2 →
    ack_mismatch s' c2 = Done b c' →
    client_step (Poll j) s c (if b then Send j else Head (j + 1)) s' c'.

(** A pass of the loop of [serverReliable] that returned (lines 76-80),
    with [n] the index of the [for] loop of line 75. *)
Inductive server_step : list Z → Z → Chan.chan → list Z → Z → Chan.chan → Prop :=
| server_pass m n c m' c1 b c' :
    n < max →
    recv_and_echo (TW := Chan.server_side) m c = Done m' c1 →
    try_again n m' c1 = Done b c' →
    server_step m n c m' (if b then n else n + 1) c'.

(** What the channel does by itself: a frame or an acknowledgment is
    lost, time passes. *)
Inductive channel_step : Chan.chan → Chan.chan → Prop :=
| lose_frame U1 f U2 D t : channel_step (Chan.Chan (U1 ++ f :: U2) D t) (Chan.Chan (U1 ++ U2) D t)
| lose_ack U D1 d D2 t : channel_step (Chan.Chan U (D1 ++ d :: D2) t) (Chan.Chan U (D1 ++ D2) t)
| tick U D t d : 0 ≤ d → channel_step (Chan.Chan U D t) (Chan.Chan U D (t + d)).

(** A step of the system.  [handed] grows by the frames a piece of the
    client has put on the channel, [log] by the frame a pass of the
    server has taken from it. *)
Inductive cstep : config → config → Prop :=
| cstep_client s p m n L h c s' p' c' :
    client_step p s c p' s' c' →
    cstep (Config s p m n L h c)
          (Config s' p' m n L
             (h + Z.of_nat (length (Chan.up c')) - Z.of_nat (length (Chan.up c))) c')
| cstep_server s p m n L h c m' n' c' :
    server_step m n c m' n' c' →
    cstep (Config s p m n L h c) (Config s p m' n' (L ++ take 1 (Chan.up c)) h c')
| cstep_channel s p m n L h c c' :
    channel_step c c' → cstep (Config s p m n L h c) (Config s p m n L h c').

Definition creach : relation config := rtc cstep.

(** ** The system as a function of who moves *)

(** The next piece of the client, when it returns. *)
Definition client_piece (p : place) (s : cstate) (c : Chan.chan)
    : option (place * cstate * Chan.chan) :=
  match p with
  | Head j =>
      if decide (j < max) then
        match number_message j s c with Done s' c' => Some (Send j, s', c') | _ => None end
      else None
  | Send j =>
      match send_once (TW := Chan.client_side) s c with
      | Done s' c' => Some (Poll j, s', c')
      | _ => None
      end
  | Poll j =>
      match no_reply (TW := Chan.client_side) c with
      | Done true c1 =>
          match resend_on_timeout (TW := Chan.client_side) s c1 with
          | Done s' c' => Some (Poll j, s', c')
          | _ => None
          end
      | Done false c1 =>
          match read_answer (TW := Chan.client_side) s c1 with
          | Done s' c2 =>
              match ack_mismatch s' c2 with
              | Done b c' => Some (if b then Send j else Head (j + 1), s', c')
              | _ => None
              end
          | _ => None
          end
      | _ => None
      end
  end.

Definition client_move (cfg : config) : option config :=
  '(p', s', c') ← client_piece (place_of cfg) (client cfg) (net cfg);
  Some (Config s' p' (server cfg) (served cfg) (log cfg)
          (handed cfg + Z.of_nat (length (Chan.up c')) - Z.of_nat (length (Chan.up (net cfg)))) c').

(** A pass of the loop of the server, when it returns. *)
Definition server_move (cfg : config) : option config :=
  if decide (served cfg < max) then
    match recv_and_echo (TW := Chan.server_side) (server cfg) (net cfg) with
    | Done m' c1 =>
        match try_again (served cfg) m' c1 with
        | Done b c' =>
            Some (Config (client cfg) (place_of cfg) m'
                    (if b then served cfg else served cfg + 1)
                    (log cfg ++ take 1 (Chan.up (net cfg))) (handed cfg) c')
        | _ => None
        end
    | _ => None
    end
  else None.

Definition with_net (c : Chan.chan) (cfg : config) : config :=
  Config (client cfg) (place_of cfg) (server cfg) (served cfg) (log cfg) (handed cfg) c.

Definition play (m : move) (cfg : config) : option config :=
  let c := net cfg in
  match m with
  | Client => client_move cfg
  | Server => server_move cfg
  | LoseFrame i =>
      _ ← Chan.up c !! i;
      Some (with_net (Chan.Chan (delete i (Chan.up c)) (Chan.down c) (Chan.now c)) cfg)
  | LoseAck i =>
      _ ← Chan.down c !! i;
      Some (with_net (Chan.Chan (Chan.up c) (delete i (Chan.down c)) (Chan.now c)) cfg)
  | Tick d =>
      if decide (0 ≤ d)
      then Some (with_net (Chan.Chan (Chan.up c) (Chan.down c) (Chan.now c + d)) cfg)
      else None
  end.

Fixpoint plays (ms : list move) (cfg : config) : option config :=
  match ms with
  | [] => Some cfg
  | m :: ms => cfg' ← play m cfg; plays ms cfg'
  end.

(** ** Configurations and the specification *)

Record holds (msg : list Z) (cfg : config) (l : SWSpec.link) : Prop := {
  holds_place : msgNum (place_of cfg) = SWSpec.sending l;
  holds_max :
    match place_of cfg with Head j => j ≤ max | Send j | Poll j => j < max end ∧
    served cfg ≤ max;
  holds_message :
    ∃ x, message (client cfg) = <[0%nat := x]> msg ∧
      match place_of cfg with Head _ => True | Send j | Poll j => x = Z.land j 1 end;
  holds_retrans :
    retrans (client cfg) =
    SWSpec.sent l - match place_of cfg with Poll j => j + 1 | Head j | Send j => j end;
  holds_handed : handed cfg = SWSpec.sent l;
  holds_up : Chan.up (net cfg) = bit_words msg <$> SWSpec.frames l;
  holds_down : Chan.down (net cfg) = bit_ack <$> SWSpec.acks l;
  holds_log : log cfg = bit_words msg <$> SWSpec.heard l;
  holds_server : (words_of sizeof_ptr ≤ length (server cfg))%nat;
  holds_served : served cfg = SWSpec.counted (SWSpec.heard l)
}.

End system.

End SW.

Import SW.

(** ** The pieces on the channel *)

Section pieces.
Context {PF : Platform} (Hint : words_of sizeof_int = 1%nat).
Context (msg : list Z) (Hlen : (1 ≤ words_of sizeof_ptr ≤ length msg)%nat).

(** Line 40. *)
Lemma head_on_chan j s x (c : Chan.chan) :
  message s = <[0%nat := x]> msg →
  number_message j s c = Done (set_message (<[0%nat := Z.land j 1]> msg) s) c.
Proof.
  intros Hx. unfold number_message.
  erewrite bind_Done; [done|].
  assert (store (message s) 0 (Z.land j 1) = Some (<[0%nat := Z.land j 1]> msg)) as ->; [|done].
  apply store_Some. rewrite Hx, length_insert, list_insert_insert_eq. split; [lia|done].
Qed.

(** Lines 43-44. *)
Lemma send_on_chan j s U D t :
  message s = <[0%nat := Z.land j 1]> msg →
  send_once (TW := Chan.client_side) s (Chan.Chan U D t) =
  Done (set_timeout {| startTime := t |} s) (Chan.Chan (U ++ [bit_words msg j]) D t).
Proof.
  intros Hx. unfold send_once.
  erewrite bind_Done; [|apply sendTo_array_run; rewrite Hx, length_insert; lia].
  by rewrite Hx.
Qed.

(** Lines 46-52 with nothing to read: the frame is sent again when the
    timer has run out. *)
Lemma wait_on_chan j s U t :
  message s = <[0%nat := Z.land j 1]> msg →
  no_reply (TW := Chan.client_side) (Chan.Chan U [] t) = Done true (Chan.Chan U [] t) ∧
  resend_on_timeout (TW := Chan.client_side) s (Chan.Chan U [] t) =
    if MAX_TIME <? t - startTime (timeout s)
    then Done (set_timeout {| startTime := t |} (add_retrans 1 s))
           (Chan.Chan (U ++ [bit_words msg j]) [] t)
    else Done s (Chan.Chan U [] t).
Proof.
  intros Hx. split; [done|]. unfold resend_on_timeout.
  rewrite (bind_Done _ _ _ _ _ (timer_lap_run _ _)). simpl. case_match; [|done].
  erewrite bind_Done; [|apply sendTo_array_run; rewrite Hx, length_insert; lia].
  by rewrite Hx.
Qed.

(** Lines 46 and 54-57 with the acknowledgment of a frame of message
    [i] to read. *)
Lemma read_on_chan j i s U D t :
  message s = <[0%nat := Z.land j 1]> msg →
  let s' := add_retrans (Z.lxor (Z.land i 1) (Z.land j 1)) (set_seqNum (Z.land i 1) s) in
  no_reply (TW := Chan.client_side) (Chan.Chan U (bit_ack i :: D) t) =
    Done false (Chan.Chan U (bit_ack i :: D) t) ∧
  read_answer (TW := Chan.client_side) s (Chan.Chan U (bit_ack i :: D) t) =
    Done s' (Chan.Chan U D t) ∧
  ack_mismatch s' (Chan.Chan U D t) =
    Done (negb (Z.land i 1 =? Z.land j 1)) (Chan.Chan U D t).
Proof.
  intros Hx s'. assert (load (message s) 0 = Some (Z.land j 1)) as Hload.
  { apply load_Some. rewrite Hx, length_insert. split; [lia|].
    apply list_lookup_insert_eq. lia. }
  split_and!; [done| |].
  - unfold read_answer.
    erewrite bind_Done; [|by apply (recvFrom_int_run (TW := Chan.client_side) _ 1%nat)].
    simpl. by rewrite Hload.
  - unfold ack_mismatch. simpl. by rewrite Hload.
Qed.

(** Lines 77-80 with a frame of message [i] to read. *)
Lemma echo_on_chan i m n U D t :
  (words_of sizeof_ptr ≤ length m)%nat →
  ∃ m', recv_and_echo (TW := Chan.server_side) m (Chan.Chan (bit_words msg i :: U) D t) =
          Done m' (Chan.Chan U (D ++ [bit_ack i]) t) ∧
    length m' = length m ∧
    ∀ c : Chan.chan, try_again n m' c = Done (negb (Z.land i 1 =? n)) c.
Proof.
  intros Hm. destruct (bit_words_head msg i) as [d Hd]; [lia..|].
  pose proof (bit_words_length msg i ltac:(lia)) as Hl.
  destruct (blit_is_Some (bit_words msg i) m ltac:(lia)) as [m' Hblit].
  assert (load m' 0 = Some (Z.land i 1)) as Hload by (rewrite Hd in Hblit; by eapply blit_head).
  exists m'. split_and!.
  - unfold recv_and_echo.
    erewrite bind_Done; cycle 1.
    { eapply (recvFrom_array_run (TW := Chan.server_side)); [|exact Hblit].
      simpl. unfold Chan.server_recv. simpl. by rewrite <- Hl, firstn_all. }
    simpl. by rewrite Hload.
  - by eapply blit_length.
  - intros c. rewrite <- server_guard_neq. unfold try_again.
    erewrite bind_Done; [done|]. by rewrite Hload.
Qed.

End pieces.

(** ** The simulation *)

Section simulation.
Context {PF : Platform} (max : Z) (Hint : words_of sizeof_int = 1%nat).
Context (msg : list Z) (Hlen : (1 ≤ words_of sizeof_ptr ≤ length msg)%nat).

#[local] Abbreviation holds' := (holds max msg).
#[local] Abbreviation steps := (rtc SWSpec.step).

(** The bits of an acknowledgment and of the message, when the
    acknowledgment is the oldest on its way. *)
Lemma ack_bits j i F A H k :
  SWSpec.safe (SWSpec.Link j F (i :: A) H k) →
  (Z.land i 1 =? Z.land j 1) = bool_decide (i = j) ∧
  Z.lxor (Z.land i 1) (Z.land j 1) = if decide (i = j) then 0 else 1.
Proof.
  intros [_ Hbit]%SWSpec.ack_bit. rewrite lxor_bits by apply land_1_range.
  case_bool_decide as Hij.
  - rewrite decide_True by done. apply Hbit in Hij as ->. by rewrite Z.eqb_refl.
  - rewrite decide_False by done. destruct (Z.eqb_spec (Z.land i 1) (Z.land j 1)); [tauto|done].
Qed.

Lemma sw_sim_head j s m n L h c s' c' l :
  holds' (Config s (Head j) m n L h c) l → j < max → number_message j s c = Done s' c' →
  holds' (Config s' (Send j) m n L (h + Z.of_nat (length (Chan.up c')) - Z.of_nat (length (Chan.up c))) c') l.
Proof.
  intros [Hp [_ Hb] (x & Hx & _) Hr Hh Hu Hd Hl Hm Hn] Hj Hrun. simpl in *.
  rewrite (head_on_chan Hint msg Hlen j s x c Hx) in Hrun. injection Hrun as <- <-.
  split; simpl; try done; [by eexists|lia].
Qed.

Lemma sw_sim_send j s m n L h c s' c' i F A H k :
  holds' (Config s (Send j) m n L h c) (SWSpec.Link i F A H k) →
  send_once (TW := Chan.client_side) s c = Done s' c' →
  holds' (Config s' (Poll j) m n L (h + Z.of_nat (length (Chan.up c')) - Z.of_nat (length (Chan.up c))) c')
    (SWSpec.Link i (F ++ [i]) A H (k + 1)).
Proof.
  intros [Hp Hb (x & Hx & ->) Hr Hh Hu Hd Hl Hm Hn] Hrun. destruct c as [U D t]. simpl in *.
  subst i. rewrite (send_on_chan Hint msg Hlen j s U D t Hx) in Hrun. injection Hrun as <- <-.
  split; simpl; try done; [by eexists|lia|rewrite length_app; simpl; lia|by rewrite Hu, fmap_app].
Qed.

Lemma sw_sim_wait j s m n L h c c1 s' c' i F A H k :
  holds' (Config s (Poll j) m n L h c) (SWSpec.Link i F A H k) →
  no_reply (TW := Chan.client_side) c = Done true c1 →
  resend_on_timeout (TW := Chan.client_side) s c1 = Done s' c' →
  ∃ F' k', (F' = F ∧ k' = k ∨ F' = F ++ [i] ∧ k' = k + 1) ∧
    holds' (Config s' (Poll j) m n L (h + Z.of_nat (length (Chan.up c')) - Z.of_nat (length (Chan.up c))) c')
      (SWSpec.Link i F' A H k').
Proof.
  intros [Hp Hb (x & Hx & ->) Hr Hh Hu Hd Hl Hm Hn] Hpoll Hrun. destruct c as [U D t].
  simpl in *. subst i. destruct A as [|a A]; [rewrite fmap_nil in Hd|rewrite fmap_cons in Hd]; subst D; [|done].
  destruct (wait_on_chan Hint msg Hlen j s U t Hx) as [Hnone Hturn].
  rewrite Hnone in Hpoll. injection Hpoll as <-. rewrite Hturn in Hrun.
  destruct (MAX_TIME <? _); injection Hrun as <- <-.
  - exists (F ++ [j]), (k + 1). split; [by right|].
    split; simpl; try done; [by eexists|lia|rewrite length_app; simpl; lia|by rewrite Hu, fmap_app].
  - exists F, k. split; [by left|]. split; simpl; try done; [by eexists|lia].
Qed.

Lemma sw_sim_read j s m n L h c c1 s' c2 b c' i F A H k :
  holds' (Config s (Poll j) m n L h c) (SWSpec.Link i F A H k) →
  SWSpec.safe (SWSpec.Link i F A H k) →
  no_reply (TW := Chan.client_side) c = Done false c1 →
  read_answer (TW := Chan.client_side) s c1 = Done s' c2 →
  ack_mismatch s' c2 = Done b c' →
  ∃ a A', A = a :: A' ∧ b = negb (bool_decide (a = i)) ∧
    holds' (Config s' (if b then Send j else Head (j + 1)) m n L
              (h + Z.of_nat (length (Chan.up c')) - Z.of_nat (length (Chan.up c))) c')
      (SWSpec.Link (if decide (a = i) then i + 1 else i) F A' H k).
Proof.
  intros [Hp [Hb ?] (x & Hx & ->) Hr Hh Hu Hd Hl Hm Hn] Hs Hpoll Hread Hmis.
  destruct c as [U D t]. simpl in *. subst i. destruct A as [|a A]; [rewrite fmap_nil in Hd|rewrite fmap_cons in Hd]; subst D; [done|].
  destruct (read_on_chan Hint msg Hlen j a s U (bit_ack <$> A) t Hx) as (Hsome & Hrun & Htest).
  rewrite Hsome in Hpoll. injection Hpoll as <-. rewrite Hrun in Hread. injection Hread as <- <-.
  rewrite Htest in Hmis. injection Hmis as <- <-.
  destruct (ack_bits _ _ _ _ _ _ Hs) as [-> Hxor]. exists a, A. split_and!; [done..|].
  simpl in Hr. case_bool_decide as Ha; [rewrite decide_True in * by done|rewrite decide_False in * by done];
    split; simpl; try done; try lia; by eexists.
Qed.

Lemma sw_sim_serve s p m n L h c m' c1 b c' i F A H k :
  holds' (Config s p m n L h c) (SWSpec.Link i F A H k) →
  SWSpec.safe (SWSpec.Link i F A H k) → n < max →
  recv_and_echo (TW := Chan.server_side) m c = Done m' c1 → try_again n m' c1 = Done b c' →
  ∃ f F', F = f :: F' ∧
    holds' (Config s p m' (if b then n else n + 1) (L ++ take 1 (Chan.up c)) h c')
      (SWSpec.Link i F' (A ++ [f]) (H ++ [f]) k).
Proof.
  intros [Hp [Hb ?] Hx Hr Hh Hu Hd Hl Hm Hn] Hs Hlt Hrun Hgo.
  destruct c as [U D t]. simpl in *. subst U D. destruct F as [|f F]; rewrite ?fmap_cons in Hrun.
  { unfold recv_and_echo in Hrun. erewrite bind_Blocked_l in Hrun; [done|].
    by apply recvFrom_array_blocked. }
  destruct (echo_on_chan Hint msg Hlen f m n (bit_words msg <$> F) (bit_ack <$> A) t Hm)
    as (m1 & Hecho & Hl1 & Hagain).
  rewrite Hecho in Hrun. injection Hrun as <- <-. rewrite Hagain in Hgo. injection Hgo as <- <-.
  exists f, F. split; [done|].
  pose proof (SWSpec.safe_flying _ Hs f ltac:(apply elem_of_app; right; left)) as Hf.
  assert (SWSpec.counted (H ++ [f]) = if negb (Z.land f 1 =? n) then n else n + 1) as Hcount.
  { rewrite SWSpec.counted_snoc, <- Hn; simpl in *.
    - destruct (Z.eqb_spec (Z.land f 1) n); [by rewrite decide_True|by rewrite decide_False].
    - intros y Hy. apply (SWSpec.safe_before _ Hs). simpl. lia.
    - intros H1%(SWSpec.safe_heard _ Hs). apply (SWSpec.safe_before _ Hs). simpl in *. lia.
    - lia. }
  split; simpl; try done; [|by rewrite fmap_app|by rewrite fmap_app, Hl|lia].
  split; [done|]. destruct (negb _); lia.
Qed.

Lemma sw_sim_channel s p m n L h c c' l :
  holds' (Config s p m n L h c) l → channel_step c c' →
  ∃ l', steps l l' ∧ holds' (Config s p m n L h c') l'.
Proof.
  intros [Hp Hb Hx Hr Hh Hu Hd Hl Hm Hn] Hstep. destruct l as [i F A H k]. simpl in *.
  destruct Hstep as [U1 f U2 D t|U D1 d D2 t|U D t d Hd0]; simpl in *.
  - apply eq_sym, fmap_split in Hu as (F1 & a & F2 & -> & -> & -> & ->).
    exists (SWSpec.Link i (F1 ++ F2) A H k). split; [apply rtc_once, SWSpec.step_lose_frame|].
    split; simpl; try done. by rewrite fmap_app.
  - apply eq_sym, fmap_split in Hd as (A1 & a & A2 & -> & -> & -> & ->).
    exists (SWSpec.Link i F (A1 ++ A2) H k). split; [apply rtc_once, SWSpec.step_lose_ack|].
    split; simpl; try done. by rewrite fmap_app.
  - exists (SWSpec.Link i F A H k). split; [done|]. by split.
Qed.

(** Every step of the system is matched by steps of the specification. *)
Lemma sw_cstep_simulated cfg cfg' l :
  holds' cfg l → SWSpec.safe l → cstep max cfg cfg' → ∃ l', steps l l' ∧ holds' cfg' l'.
Proof.
  intros Hh Hs Hstep. destruct l as [i F A H k].
  destruct Hstep as [? ? ? ? ? ? ? ? ? ? Hstep|? ? ? ? ? ? ? ? ? ? Hstep|? ? ? ? ? ? ? ? Hstep];
    [destruct Hstep|destruct Hstep|by eapply sw_sim_channel].
  - eexists. split; [done|]. by eapply sw_sim_head.
  - eexists. split; [apply rtc_once, SWSpec.step_send|]. by eapply sw_sim_send.
  - edestruct sw_sim_wait as (F' & k' & [[-> ->]|[-> ->]] & ?); [done..| |];
      (eexists; split; [|done]); [done|apply rtc_once, SWSpec.step_send].
  - edestruct sw_sim_read as (a & A' & HA & _ & ?); [done..|]. subst A.
    eexists. split; [apply rtc_once, SWSpec.step_ack|done].
  - edestruct sw_sim_serve as (f & F' & HF & ?); [done..|]. subst F.
    eexists. split; [apply rtc_once, SWSpec.step_deliver|done].
Qed.

(** No step lowers what the client has counted. *)
Lemma sw_cstep_counts cfg cfg' l :
  holds' cfg l → SWSpec.safe l → cstep max cfg cfg' →
  retrans (client cfg) ≤ retrans (client cfg').
Proof.
  intros Hh Hs Hstep. pose proof (holds_retrans _ _ _ _ Hh) as Hr. destruct l as [i F A H k].
  destruct Hstep as [? ? ? ? ? ? ? ? ? ? Hstep|? ? ? ? ? ? ? ? ? ? Hstep|? ? ? ? ? ? ? ? Hstep];
    [destruct Hstep|simpl; lia..].
  - eapply sw_sim_head in Hh; [|done..]. apply holds_retrans in Hh. simpl in *. lia.
  - eapply sw_sim_send in Hh; [|done..]. apply holds_retrans in Hh. simpl in *. lia.
  - edestruct sw_sim_wait as (F' & k' & Hk & Hh'%holds_retrans); [done..|]. simpl in *. lia.
  - edestruct sw_sim_read as (a & A' & _ & -> & Hh'%holds_retrans); [done..|]. simpl in *.
    case_bool_decide; simpl in *; lia.
Qed.

End simulation.

(** ** What the system reaches *)

Section reach.
Context {PF : Platform} (max : Z) (Hint : words_of sizeof_int = 1%nat) (Hmax : 0 ≤ max).
Context (msg : list Z) (Hlen : (1 ≤ words_of sizeof_ptr ≤ length msg)%nat).
Context (pmsg : list Z) (Hpm : (words_of sizeof_ptr ≤ length pmsg)%nat).

Lemma sw_holds_boot t : holds max msg (boot msg pmsg t) SWSpec.init.
Proof.
  split; simpl; try done. destruct msg as [|m0 rest]; [simpl in Hlen; lia|]. by exists m0.
Qed.

(** The simulation along a path of the system. *)
Lemma sw_creach_simulated_from cfg l cfg' :
  holds max msg cfg l → SWSpec.safe l → creach max cfg cfg' →
  ∃ l', SWSpec.reach l l' ∧ holds max msg cfg' l'.
Proof.
  intros Hh Hs. apply (rtc_ind_r (λ cfg', ∃ l', SWSpec.reach l l' ∧ holds max msg cfg' l')).
  - by exists l.
  - intros cfg1 cfg2 _ Hstep (l1 & Hsteps & Hh1).
    pose proof (SWSpec.link_steps_safe l l1 Hs Hsteps) as Hs1.
    destruct (sw_cstep_simulated max Hint msg Hlen cfg1 cfg2 l1 Hh1 Hs1 Hstep) as (l' & Hsteps' & Hh').
    exists l'. split; [by eapply rtc_trans|done].
Qed.

(** Every configuration the system reaches holds a link the
    specification reaches. *)
Lemma sw_creach_simulated t cfg :
  creach max (boot msg pmsg t) cfg →
  ∃ l, SWSpec.reach SWSpec.init l ∧ SWSpec.safe l ∧ holds max msg cfg l.
Proof.
  intros (l & Hreach & Hh)%(sw_creach_simulated_from _ SWSpec.init);
    [|apply sw_holds_boot|apply SWSpec.link_safe_init].
  exists l. split_and!; [done|by apply SWSpec.link_reach_safe|done].
Qed.

(** The frames the server has read are those of the messages in order,
    each message before the client went on to the next. *)
Lemma sw_creach_in_order t cfg :
  creach max (boot msg pmsg t) cfg →
  ∃ H, log cfg = bit_words msg <$> H ∧ StronglySorted Z.le H ∧
    (∀ i, i ∈ H → 0 ≤ i ≤ msgNum (place_of cfg)) ∧
    (∀ i, 0 ≤ i < msgNum (place_of cfg) → i ∈ H) ∧
    served cfg = SWSpec.counted H.
Proof.
  intros (l & _ & Hs & Hh)%sw_creach_simulated. exists (SWSpec.heard l).
  destruct (SWSpec.heard_in_order l Hs) as (? & ? & ?). rewrite (holds_place _ _ _ _ Hh).
  split_and!; [apply Hh|done..|apply Hh].
Qed.

(** What the client has counted against what it has handed to its
    socket, and what it has handed over against what has come of it. *)
Lemma sw_creach_counts t cfg :
  creach max (boot msg pmsg t) cfg →
  retrans (client cfg) =
    handed cfg - match place_of cfg with Poll j => j + 1 | Head j | Send j => j end ∧
  Z.of_nat (length (log cfg) + length (Chan.up (net cfg))) ≤ handed cfg.
Proof.
  intros (l & _ & Hs & [Hp Hb Hx Hr Hh Hu Hd Hl Hm Hn])%sw_creach_simulated.
  rewrite Hh, Hu, Hl, !length_fmap. split; [done|apply Hs].
Qed.

(** The count of the client never decreases, and is never negative. *)
Lemma sw_creach_monotone t cfg cfg' :
  creach max (boot msg pmsg t) cfg → creach max cfg cfg' →
  retrans (client cfg) ≤ retrans (client cfg').
Proof.
  intros Hgo.
  apply (rtc_ind_r (R := cstep max) (λ cfg', retrans (client cfg) ≤ retrans (client cfg'))); [lia|].
  intros cfg1 cfg2 Hpath Hstep IH.
  destruct (sw_creach_simulated t cfg1) as (l & _ & Hs & Hh); [by eapply rtc_trans|].
  pose proof (sw_cstep_counts max Hint msg Hlen cfg1 cfg2 l Hh Hs Hstep). lia.
Qed.

Lemma sw_creach_nonneg t cfg : creach max (boot msg pmsg t) cfg → 0 ≤ retrans (client cfg).
Proof. intros Hgo. by apply (sw_creach_monotone t (boot msg pmsg t) cfg). Qed.

(** The piece of the client that is next returns. *)
Lemma sw_creach_client_moves t cfg :
  creach max (boot msg pmsg t) cfg → msgNum (place_of cfg) < max →
  is_Some (client_move max cfg).
Proof.
  intros (l & _ & Hs & [Hp Hb (x & Hx & Hbit) Hr Hh Hu Hd Hl Hm Hn])%sw_creach_simulated Hj.
  destruct l as [i F A H k], cfg as [s p m n L h [U D t']].
  cbn [place_of client net Chan.up Chan.down SWSpec.frames SWSpec.acks] in *. subst U D.
  unfold client_move, client_piece. cbn [place_of client net].
  destruct p as [j|j|j]; cbn [msgNum] in Hj; try subst x.
  - rewrite decide_True by done. by rewrite (head_on_chan Hint msg Hlen j s x _ Hx).
  - by rewrite (send_on_chan Hint msg Hlen j s _ _ _ Hx).
  - destruct A as [|a A]; [rewrite fmap_nil|rewrite fmap_cons].
    + destruct (wait_on_chan Hint msg Hlen j s (bit_words msg <$> F) t' Hx) as [-> ->].
      by destruct (MAX_TIME <? _).
    + by destruct (read_on_chan Hint msg Hlen j a s (bit_words msg <$> F) (bit_ack <$> A) t' Hx)
        as (-> & -> & ->).
Qed.

(** A pass of the server returns on every frame that reaches it. *)
Lemma sw_creach_server_moves t cfg f U :
  creach max (boot msg pmsg t) cfg → Chan.up (net cfg) = f :: U → served cfg < max →
  ∃ cfg', server_move max cfg = Some cfg' ∧ log cfg' = log cfg ++ [f] ∧
    ∃ b, 0 ≤ b ≤ 1 ∧ hd_error f = Some b ∧
      net cfg' = Chan.Chan U (Chan.down (net cfg) ++ [[b]]) (Chan.now (net cfg)).
Proof.
  intros (l & _ & Hs & [Hp Hb Hx Hr Hh Hu Hd Hl Hm Hn])%sw_creach_simulated HU Hlt.
  destruct l as [i F A H k], cfg as [s p m n L h [U' D t']]. simpl in *. subst U'.
  apply fmap_cons_inv in HU as (a & F' & -> & -> & ->).
  destruct (echo_on_chan Hint msg Hlen a m n (bit_words msg <$> F') D t' Hm)
    as (m' & Hecho & _ & Hagain).
  unfold server_move. cbn [served server net]. rewrite fmap_cons, decide_True, Hecho, Hagain by done.
  eexists. split; [done|]. split; [done|]. exists (Z.land a 1).
  destruct (bit_words_head msg a) as [d ->]; [lia..|]. split_and!; [apply land_1_range..|done|done].
Qed.

End reach.

(** ** The functions as paths of the system *)

Section paths.
Context {PF : Platform} (max : Z).

(** A path on which only the client moves. *)
Definition client_path (p : place) (s : cstate) (c : Chan.chan)
    (p' : place) (s' : cstate) (c' : Chan.chan) : Prop :=
  ∀ m n L h,
    creach max (Config s p m n L h c)
      (Config s' p' m n L (h + Z.of_nat (length (Chan.up c')) - Z.of_nat (length (Chan.up c))) c').

Lemma client_path_refl p s c : client_path p s c p s c.
Proof.
  intros m n L h. replace (h + _ - _) with h by lia. apply rtc_refl.
Qed.

Lemma client_path_step p s c p' s' c' p'' s'' c'' :
  client_step max p s c p' s' c' → client_path p' s' c' p'' s'' c'' →
  client_path p s c p'' s'' c''.
Proof.
  intros Hstep Hpath m n L h. eapply rtc_l; [by apply cstep_client|].
  specialize (Hpath m n L (h + Z.of_nat (length (Chan.up c')) - Z.of_nat (length (Chan.up c)))).
  by replace (h + _ - _ + _ - _)
    with (h + Z.of_nat (length (Chan.up c'')) - Z.of_nat (length (Chan.up c))) in Hpath by lia.
Qed.

(** The polling loop of line 46: each turn that finds nothing is a
    step, and the loop is left by a poll that finds an answer. *)
Lemma polling_loop_path fuel j s c s' c' p'' s'' c'' :
  while_do fuel (λ _, no_reply (TW := Chan.client_side))
    (resend_on_timeout (TW := Chan.client_side)) s c = Done s' c' →
  (∀ c1, no_reply (TW := Chan.client_side) c1 = Done false c' →
     client_path (Poll j) s' c1 p'' s'' c'') →
  client_path (Poll j) s c p'' s'' c''.
Proof.
  revert s c. induction fuel as [|fuel IH]; intros s c; [done|]. rewrite while_do_S.
  destruct (no_reply (TW := Chan.client_side) c) as [[] c1| | |] eqn:Hpoll; try done.
  - destruct (resend_on_timeout (TW := Chan.client_side) s c1) as [s1 c2| | |] eqn:Hturn; try done.
    intros Hloop Hrest. eapply client_path_step; [by eapply client_wait|]. by apply IH.
  - intros [= <- <-] Hrest. by apply Hrest.
Qed.

(** Lines 42-57: the [do ... while] of the client. *)
Lemma exchange_loop_path fuel n j s c s' c' :
  do_while n (send_and_wait (TW := Chan.client_side) fuel) ack_mismatch s c = Done s' c' →
  client_path (Send j) s c (Head (j + 1)) s' c'.
Proof.
  revert s c. induction n as [|n IH]; intros s c; [done|]. rewrite do_while_S.
  destruct (send_and_wait (TW := Chan.client_side) fuel s c) as [s3 c3| | |] eqn:Hbody; try done.
  rewrite send_and_wait_pieces in Hbody.
  apply bind_inv_Done in Hbody as (s1 & c1 & Hsend & Hbody).
  apply bind_inv_Done in Hbody as (s2 & c2 & Hloop & Hread).
  destruct (ack_mismatch s3 c3) as [b c4| | |] eqn:Htest; try done. intros Hrest.
  eapply client_path_step; [by apply client_send|].
  eapply polling_loop_path; [exact Hloop|]. intros c0 Hsome.
  eapply client_path_step; [by eapply client_read|].
  destruct b; [by apply IH|]. injection Hrest as <- <-. apply client_path_refl.
Qed.

Lemma client_path_trans p s c p' s' c' p'' s'' c'' :
  client_path p s c p' s' c' → client_path p' s' c' p'' s'' c'' →
  client_path p s c p'' s'' c''.
Proof.
  intros H1 H2 m n L h. eapply rtc_trans; [apply H1|].
  specialize (H2 m n L (h + Z.of_nat (length (Chan.up c')) - Z.of_nat (length (Chan.up c)))).
  by replace (h + _ - _ + _ - _)
    with (h + Z.of_nat (length (Chan.up c'')) - Z.of_nat (length (Chan.up c))) in H2 by lia.
Qed.

(** Lines 40-57: the body of the [for] loop of the client. *)
Lemma exchange_path fuel j s c s' c' :
  j < max → exchange (TW := Chan.client_side) fuel j s c = Done s' c' →
  client_path (Head j) s c (Head (j + 1)) s' c'.
Proof.
  intros Hj Hbody. rewrite exchange_pieces in Hbody.
  apply bind_inv_Done in Hbody as (s3 & c4 & Hnum & Hloop).
  eapply client_path_step; [by apply client_head|]. by eapply exchange_loop_path.
Qed.

(** [clientStopWait] that returns is a path of the client from the head
    of the loop for message 0 to the head for message [max]. *)
Lemma clientStopWait_path fuel msg c ret c' :
  0 ≤ max →
  clientStopWait (TW := Chan.client_side) fuel max msg c = Done ret c' →
  ∃ s', client_path (Head 0) (cinit msg) c (Head max) s' c' ∧ ret = retrans s'.
Proof.
  intros Hmax Hrun. unfold clientStopWait in Hrun.
  apply bind_inv_Done in Hrun as (s' & c1 & Hfor & [= <- <-]). exists s'. split; [|done].
  apply (for_range_invariant (λ j s1 c1, client_path (Head 0) (cinit msg) c (Head j) s1 c1)
           0 max _ _ _ _ _ Hmax) in Hfor; [done| |apply client_path_refl].
  intros j s1 c2 s2 c3 Hj Hgo Hbody. eapply client_path_trans; [done|].
  apply (exchange_path fuel); [lia|done].
Qed.

(** Lines 76-80: the [do ... while] of the server counts one message. *)
Lemma await_message_path fuel s p n m c m' c' L h :
  n < max →
  await_message (TW := Chan.server_side) fuel n m c = Done m' c' →
  ∃ L', creach max (Config s p m n L h c) (Config s p m' (n + 1) L' h c').
Proof.
  intros Hn. rewrite await_message_pieces. revert m c L.
  induction fuel as [|fuel IH]; intros m c L; [done|]. rewrite do_while_S.
  destruct (recv_and_echo (TW := Chan.server_side) m c) as [m1 c1| | |] eqn:Hpass; try done.
  destruct (try_again n m1 c1) as [b c2| | |] eqn:Hagain; try done.
  pose proof (cstep_server max s p m n L h c m1 _ c2 (server_pass max m n c m1 c1 b c2 Hn Hpass Hagain))
    as Hstep.
  destruct b.
  - intros (L' & Hgo)%(IH _ _ (L ++ take 1 (Chan.up c))). exists L'. by eapply rtc_l.
  - intros [= <- <-]. eexists. by apply rtc_once.
Qed.

(** [serverReliable] that returns is a path of the server on which it
    counts [max] messages. *)
Lemma serverReliable_path fuel pmsg c m' c' s p h :
  0 ≤ max →
  serverReliable (TW := Chan.server_side) fuel max pmsg c = Done m' c' →
  ∃ L', creach max (Config s p pmsg 0 [] h c) (Config s p m' max L' h c').
Proof.
  intros Hmax Hrun. unfold serverReliable in Hrun.
  apply (for_range_invariant
           (λ j m1 c1, ∃ L', creach max (Config s p pmsg 0 [] h c) (Config s p m1 j L' h c1))
           0 max _ _ _ _ _ Hmax) in Hrun; [done| |by exists []].
  intros j m1 c1 m2 c2 Hj (L1 & Hgo) Hbody.
  destruct (await_message_path fuel s p j m1 c1 m2 c2 L1 h ltac:(lia) Hbody) as (L2 & Hgo2).
  exists L2. by eapply rtc_trans.
Qed.

End paths.

(** ** The steps [play] takes are steps of the system *)

Section play.
Context {PF : Platform} (max : Z).

Lemma sw_client_move_sound cfg cfg' : client_move max cfg = Some cfg' → cstep max cfg cfg'.
Proof.
  destruct cfg as [s p m n L h c]. unfold client_move. cbn [place_of client net server served log handed].
  destruct (client_piece max p s c) as [[[p' s'] c']|] eqn:Hpiece; [|done]. intros [= <-].
  apply cstep_client. unfold client_piece in Hpiece. destruct p as [j|j|j].
  - destruct (decide _); [|done].
    destruct (number_message j s c) as [s1 c1| | |] eqn:Hrun; [|done..].
    injection Hpiece as <- <- <-. by apply client_head.
  - destruct (send_once (TW := Chan.client_side) s c) as [s1 c1| | |] eqn:Hrun; [|done..].
    injection Hpiece as <- <- <-. by apply client_send.
  - destruct (no_reply (TW := Chan.client_side) c) as [[] c1| | |] eqn:Hpoll; [| |done..].
    + destruct (resend_on_timeout (TW := Chan.client_side) s c1) as [s1 c2| | |] eqn:Hrun; [|done..].
      injection Hpiece as <- <- <-. by eapply client_wait.
    + destruct (read_answer (TW := Chan.client_side) s c1) as [s1 c2| | |] eqn:Hrun; [|done..].
      destruct (ack_mismatch s1 c2) as [b c3| | |] eqn:Htest; [|done..].
      injection Hpiece as <- <- <-. by eapply client_read.
Qed.

Lemma sw_server_move_sound cfg cfg' : server_move max cfg = Some cfg' → cstep max cfg cfg'.
Proof.
  destruct cfg as [s p m n L h c]. unfold server_move. cbn [place_of client net server served log handed].
  destruct (decide _); [|done].
  destruct (recv_and_echo (TW := Chan.server_side) m c) as [m1 c1| | |] eqn:Hrun; [|done..].
  destruct (try_again n m1 c1) as [b c2| | |] eqn:Hagain; [|done..].
  intros [= <-]. by eapply cstep_server, server_pass.
Qed.

Lemma sw_play_sound mv cfg cfg' : play max mv cfg = Some cfg' → cstep max cfg cfg'.
Proof.
  destruct mv as [| |i|i|d]; [apply sw_client_move_sound|apply sw_server_move_sound|..];
    destruct cfg as [s p m n L h [U D t]]; unfold play, with_net; simpl.
  - destruct (U !! i) as [f|] eqn:Hi; [|done]. intros [= <-]. rewrite delete_take_drop.
    rewrite <- (take_drop_middle U i f Hi) at 1. apply cstep_channel, lose_frame.
  - destruct (D !! i) as [f|] eqn:Hi; [|done]. intros [= <-]. rewrite delete_take_drop.
    rewrite <- (take_drop_middle D i f Hi) at 1. apply cstep_channel, lose_ack.
  - destruct (decide _); [|done]. intros [= <-]. by apply cstep_channel, tick.
Qed.

Lemma sw_plays_sound ms cfg cfg' : plays max ms cfg = Some cfg' → creach max cfg cfg'.
Proof.
  revert cfg. induction ms as [|m ms IH]; intros cfg; simpl; [intros [= <-]; apply rtc_refl|].
  destruct (play max m cfg) as [cfg1|] eqn:Hm; [|done]. simpl. intros Hms%IH.
  eapply rtc_l; [exact (sw_play_sound m _ _ Hm)|done].
Qed.

End play.

(** ** A session that completes *)

Section completes.
Context {PF : Platform} (max : Z) (Hint : words_of sizeof_int = 1%nat) (Hmax : 0 ≤ max).
Context (msg : list Z) (Hlen : (1 ≤ words_of sizeof_ptr ≤ length msg)%nat).
Context (pmsg : list Z) (Hpm : (words_of sizeof_ptr ≤ length pmsg)%nat).

(** The number of frames handed over, written in any way. *)
Lemma cstep_client_to s p m n L h c s' p' c' h' :
  client_step max p s c p' s' c' →
  h' = h + Z.of_nat (length (Chan.up c')) - Z.of_nat (length (Chan.up c)) →
  cstep max (Config s p m n L h c) (Config s' p' m n L h' c').
Proof. intros ? ->. by apply cstep_client. Qed.

Lemma holds_handed s p m n L h h' c l :
  holds max msg (Config s p m n L h c) l → h' = h → holds max msg (Config s p m n L h' c) l.
Proof. by intros ? ->. Qed.

Lemma counted_seqZ j : 0 ≤ j → SWSpec.counted (seqZ 0 j) = Z.min j 2.
Proof.
  intros Hj. unfold SWSpec.counted.
  rewrite (decide_ext (0 ∈ seqZ 0 j) (0 < j)), (decide_ext (1 ∈ seqZ 0 j) (1 < j))
    by (rewrite elem_of_seqZ; lia).
  repeat destruct (decide _); lia.
Qed.

(** The two functions between two messages, with every frame before
    [j] sent once, read and acknowledged, and nothing on the channel. *)
Record sw_quiet (t j : Z) (cfg : config) (l : SWSpec.link) : Prop := {
  sw_quiet_holds : holds max msg cfg l;
  sw_quiet_safe : SWSpec.safe l;
  sw_quiet_frames : SWSpec.frames l = [];
  sw_quiet_acks : SWSpec.acks l = [];
  sw_quiet_heard : SWSpec.heard l = seqZ 0 j;
  sw_quiet_place : place_of cfg = Head j;
  sw_quiet_retrans : retrans (client cfg) = 0;
  sw_quiet_now : Chan.now (net cfg) = t
}.

Lemma sw_quiet_boot t : sw_quiet t 0 (boot msg pmsg t) SWSpec.init.
Proof. split; try done; [by apply sw_holds_boot|apply SWSpec.link_safe_init]. Qed.

(** The first half of a message from there: the message is numbered
    and its frame is sent. *)
Lemma sw_quiet_send t j s m n L h H k :
  sw_quiet t j (Config s (Head j) m n L h (Chan.Chan [] [] t)) (SWSpec.Link j [] [] H k) →
  j < max →
  ∃ s1,
    creach max (Config s (Head j) m n L h (Chan.Chan [] [] t))
      (Config s1 (Poll j) m n L (h + 1) (Chan.Chan [bit_words msg j] [] t)) ∧
    holds max msg (Config s1 (Poll j) m n L (h + 1) (Chan.Chan [bit_words msg j] [] t))
      (SWSpec.Link j [j] [] H (k + 1)) ∧
    SWSpec.safe (SWSpec.Link j [j] [] H (k + 1)) ∧ retrans s1 = retrans s.
Proof.
  intros [Hh Hs _ _ _ _ _ _] Hj. pose proof Hh as [_ _ (x & Hx & _) _ _ _ _ _ _ _]. simpl in Hx.
  pose proof (head_on_chan Hint msg Hlen j s x (Chan.Chan [] [] t) Hx) as Hnum.
  pose proof (sw_sim_head max Hint msg Hlen _ _ _ _ _ _ _ _ _ _ Hh Hj Hnum) as Hh1.
  apply (holds_handed _ _ _ _ _ _ h) in Hh1; [|lia].
  set (s0 := set_message (<[0%nat := Z.land j 1]> msg) s) in *.
  pose proof (send_on_chan Hint msg Hlen j s0 [] [] t eq_refl) as Hsend.
  pose proof (sw_sim_send max Hint msg Hlen _ _ _ _ _ _ _ _ _ _ _ _ _ _ Hh1 Hsend) as Hh2.
  apply (holds_handed _ _ _ _ _ _ (h + 1)) in Hh2; [|simpl; lia].
  exists (set_timeout {| startTime := t |} s0).
  split_and!; [|done|by apply (SWSpec.link_safe_send _ [])|done].
  eapply rtc_l; [apply (cstep_client_to _ _ _ _ _ _ _ _ _ _ h (client_head max j s _ _ _ Hj Hnum)); lia|].
  apply rtc_once, (cstep_client_to _ _ _ _ _ _ _ _ _ _ _ (client_send max j s0 _ _ _ Hsend)).
  simpl. lia.
Qed.

(** One message with the server ahead of the poll of line 46: the frame
    is sent, the server reads and answers it, and the client reads the
    answer. *)
Lemma sw_quiet_round t j cfg l :
  sw_quiet t j cfg l → j < max →
  ∃ cfg' l', creach max cfg cfg' ∧ sw_quiet t (j + 1) cfg' l'.
Proof.
  intros Hq Hj. pose proof Hq as [Hh Hs HF HA HH Hp Hr Ht].
  destruct l as [i F A H k], cfg as [s p m n L h [U D t0]]. simpl in *. subst F A H p t0.
  pose proof Hh as [Hi _ _ Hk _ Hu Hd _ Hm Hn]. simpl in *. subst U D i.
  destruct (sw_quiet_send t j s m n L h _ k Hq Hj) as (s1 & Hgo & Hh1 & Hs1 & Hr1).
  assert (0 ≤ j) as Hj0 by (destruct Hs; simpl in *; lia). rewrite counted_seqZ in Hn by done.
  destruct (echo_on_chan Hint msg Hlen j m n [] [] t Hm) as (m' & Hecho & _ & Hagain).
  pose proof (server_pass max m n _ m' _ _ _ ltac:(lia) Hecho (Hagain _)) as Hstep3.
  destruct (sw_sim_serve max Hint msg Hlen _ _ _ _ _ _ _ _ _ _ _ _ _ _ _ _ Hh1 Hs1 ltac:(lia)
              Hecho (Hagain _)) as (f & F' & [= <- <-] & Hh3).
  pose proof (SWSpec.link_safe_deliver _ _ _ _ _ _ Hs1) as Hs3.
  apply (cstep_server max s1 (Poll j) _ _ L (h + 1)) in Hstep3.
  pose proof Hh3 as [_ _ (x & Hx & ->) _ _ _ _ _ _ _]. simpl in Hx.
  destruct (read_on_chan Hint msg Hlen j j s1 [] [] t Hx) as (Hsome & Hread & Htest).
  rewrite Z.eqb_refl in Htest.
  pose proof (client_read max j s1 _ _ _ _ _ _ Hsome Hread Htest) as Hstep4.
  destruct (sw_sim_read max Hint msg Hlen _ _ _ _ _ _ _ _ _ _ _ _ _ _ _ _ _ Hh3 Hs3 Hsome Hread Htest)
    as (a & A' & [= <- <-] & _ & Hh4).
  pose proof (SWSpec.link_safe_ack _ _ _ _ _ _ Hs3) as Hs4.
  apply (holds_handed _ _ _ _ _ _ (h + 1)) in Hh4; [|simpl; lia].
  apply (cstep_client_to _ _ m' (if negb (Z.land j 1 =? n) then n else n + 1)
           (L ++ [bit_words msg j]) (h + 1) _ _ _ _ (h + 1)) in Hstep4; [|simpl; lia].
  simpl in Hh4, Hstep4, Hstep3. rewrite decide_True in Hh4, Hs4 by done.
  eexists _, _. split; [eapply rtc_trans; [exact Hgo|]; eapply rtc_l; [exact Hstep3|]; by apply rtc_once|].
  split; try done; simpl.
  - rewrite seqZ_app by lia. by rewrite Z.add_0_l.
  - rewrite Z.lxor_nilpotent. lia.
Qed.

Lemma sw_quiet_reached t (k : nat) :
  Z.of_nat k ≤ max →
  ∃ cfg l, creach max (boot msg pmsg t) cfg ∧ sw_quiet t (Z.of_nat k) cfg l.
Proof.
  induction k as [|k IH]; intros Hk;
    [exists (boot msg pmsg t), SWSpec.init; split; [apply rtc_refl|apply sw_quiet_boot]|].
  destruct IH as (cfg & l & Hgo & Hq); [lia|].
  destruct (sw_quiet_round t _ cfg l Hq ltac:(lia)) as (cfg' & l' & Hgo' & Hq').
  exists cfg', l'. split; [by eapply rtc_trans|]. by replace (Z.of_nat (S k)) with (Z.of_nat k + 1) by lia.
Qed.

(** The system reaches the end of [clientStopWait]: each frame was sent
    once and read by the server, in order; the server has counted two
    messages at most. *)
Lemma sw_creach_completes t :
  ∃ cfg, creach max (boot msg pmsg t) cfg ∧
    place_of cfg = Head max ∧ retrans (client cfg) = 0 ∧ handed cfg = max ∧
    log cfg = bit_words msg <$> seqZ 0 max ∧ served cfg = Z.min max 2 ∧
    net cfg = Chan.Chan [] [] t.
Proof.
  destruct (sw_quiet_reached t (Z.to_nat max)) as (cfg & l & Hgo & [Hh Hs HF HA HH Hp Hr Ht]); [lia|].
  rewrite Z2Nat.id in * by lia. exists cfg.
  pose proof Hh as [_ _ _ Hk Hhd Hu Hd Hl _ Hn]. rewrite Hp in Hk.
  split_and!; try done; [lia|by rewrite Hl, HH|by rewrite Hn, HH, counted_seqZ|].
  destruct cfg as [? ? ? ? ? ? [U D t0]]. simpl in *. rewrite HF in Hu. rewrite HA in Hd. by subst.
Qed.

End completes.

(** ** Sessions *)

(** The sizes of a session: an [int] is one word, and the arrays of the
    two callers hold a frame. *)
Record stopwait_sized {PF : Platform} (max : Z) (msg pmsg : list Z) : Prop := {
  sw_sized_int : words_of sizeof_int = 1%nat;
  sw_sized_max : 0 ≤ max;
  sw_sized_msg : (1 ≤ words_of sizeof_ptr ≤ length msg)%nat;
  sw_sized_pmsg : (words_of sizeof_ptr ≤ length pmsg)%nat
}.

Lemma stopwait_sized_LP64 max : 0 ≤ max → stopwait_sized (PF := LP64) max [9; 9] [0; 0].
Proof. intros. split; [done|done|change (1 ≤ 2 ≤ 2)%nat; lia|change (2 ≤ 2)%nat; lia]. Qed.

(** Two sessions of three messages on a platform with 8-byte pointers.
    In the first the server answers each frame before the client
    polls.  In the second the answer to the first frame takes longer
    than [MAX_TIME]: the client sends the frame again, the server reads
    and answers both copies, and the second answer, read after the frame
    of the next message was sent, is taken for a wrong acknowledgment of
    that message. *)
Definition prompt_answers : list move :=
  [Client; Client; Server; Client; Client; Client; Server; Client;
   Client; Client; Server; Client].

Definition late_answer : list move :=
  [Client; Client; Tick 1501; Client; Server; Server; Client; Client; Client; Client].

Definition all_sent : config :=
  Eval vm_compute in
    default (boot [9; 9] [0; 0] 0) (plays (PF := LP64) 3 prompt_answers (boot [9; 9] [0; 0] 0)).

Definition second_resent : config :=
  Eval vm_compute in
    default (boot [9; 9] [0; 0] 0) (plays (PF := LP64) 3 late_answer (boot [9; 9] [0; 0] 0)).

Lemma all_sent_reached : creach (PF := LP64) 3 (boot [9; 9] [0; 0] 0) all_sent.
Proof. by apply (sw_plays_sound (PF := LP64) 3 prompt_answers). Qed.

Lemma second_resent_reached : creach (PF := LP64) 3 (boot [9; 9] [0; 0] 0) second_resent.
Proof. by apply (sw_plays_sound (PF := LP64) 3 late_answer). Qed.

(** With prompt answers the client is through its loop and has counted
    nothing, and the server has counted two of the three messages. *)
Example all_sent_done :
  place_of all_sent = Head 3 ∧ retrans (client all_sent) = 0 ∧ handed all_sent = 3 ∧
  log all_sent = [[0; 9]; [1; 9]; [0; 9]] ∧ served all_sent = 2 ∧
  net all_sent = Chan.Chan [] [] 0.
Proof. done. Qed.

(** With one late answer the client is about to send the frame of the
    second message again: it has handed over three frames for two
    messages and has counted two of them as retransmissions, the copy
    of the first frame and the frame it is about to send. *)
Example second_resent_counts :
  place_of second_resent = Send 1 ∧ retrans (client second_resent) = 2 ∧
  handed second_resent = 3 ∧ log second_resent = [[0; 9]; [0; 9]] ∧
  net second_resent = Chan.Chan [[1; 9]] [] 1501.
Proof. done. Qed.

(** ** An acknowledgment that overtakes another

    The channel of the system keeps the order of what it delivers.  The
    run below leaves it once: the first answer took longer than
    [MAX_TIME], so that the copy of the first frame was answered too,
    and the answer to that copy is overtaken by the answer to the
    second frame.  The client reads the answer to the second frame,
    sends the third, which is lost, and takes the answer to the copy,
    which carries the bit of the third message, for its acknowledgment:
    it leaves its loop with a frame that the server never read. *)
Definition before_overtaking : list move :=
  [Client; Client; Tick 1501; Client; Server; Server; Client; Client; Client; Server].

Definition after_overtaking : list move :=
  [Client; Client; Client; LoseFrame 0; Client].

Definition answers_waiting : config :=
  Eval vm_compute in
    default (boot [9; 9] [0; 0] 0)
      (plays (PF := LP64) 3 before_overtaking (boot [9; 9] [0; 0] 0)).
Definition answers_swapped : config :=
  with_net (Chan.Chan [] [[1]; [0]] 1501) answers_waiting.

Definition third_unread : config :=
  Eval vm_compute in
    default answers_swapped (plays (PF := LP64) 3 after_overtaking answers_swapped).

(** The list of messages 0, 1 and 2 in order is the only one of its
    length that is sorted and names them all. *)
Lemma sorted_three (H : list Z) :
  length H = 3%nat → StronglySorted Z.le H → (∀ i, 0 ≤ i < 3 → i ∈ H) → H = [0; 1; 2].
Proof.
  intros Hlen Hs Hall. destruct H as [|a [|b [|c [|]]]]; try done.
  apply StronglySorted_inv in Hs as [Hs Ha]. apply StronglySorted_inv in Hs as [_ Hb].
  apply Forall_cons in Ha as [? Ha]. apply Forall_cons in Ha as [? _].
  apply Forall_cons in Hb as [? _].
  pose proof (Hall 0 ltac:(lia)) as Hi0. pose proof (Hall 1 ltac:(lia)) as Hi1.
  pose proof (Hall 2 ltac:(lia)) as Hi2.
  rewrite !elem_of_cons, elem_of_nil in Hi0, Hi1, Hi2.
  assert (a = 0 ∧ b = 1 ∧ c = 2) as (-> & -> & ->) by lia. done.
Qed.

(** After the exchange of the two answers the client is through its
    loop, one frame counted as sent again; the server has read nothing
    since the answers were exchanged, and what it has read are not the
    frames of the three messages in order. *)
Example stale_answer_accepted :
  plays (PF := LP64) 3 before_overtaking (boot [9; 9] [0; 0] 0) = Some answers_waiting ∧
  Chan.down (net answers_waiting) = [[0]; [1]] ∧
  plays (PF := LP64) 3 after_overtaking answers_swapped = Some third_unread ∧
  place_of third_unread = Head 3 ∧ retrans (client third_unread) = 1 ∧
  handed third_unread = 4 ∧ log third_unread = log answers_waiting ∧
  ¬ ∃ H, log third_unread = bit_words (PF := LP64) [9; 9] <$> H ∧ StronglySorted Z.le H ∧
      ∀ i, 0 ≤ i < 3 → i ∈ H.
Proof.
  split_and!; try done. intros (H & Hlog & Hs & Hall).
  assert (length H = 3%nat) as Hlen.
  { apply (f_equal length) in Hlog. by rewrite length_fmap in Hlog. }
  by rewrite (sorted_three H Hlen Hs Hall) in Hlog.
Qed.

(** ** What holds in every configuration the system reaches *)

Section claims.
Context {PF : Platform} (max : Z) (msg pmsg : list Z).
Context (Hsized : stopwait_sized max msg pmsg).

#[local] Abbreviation reached t := (creach max (boot msg pmsg t)).

(** C7: the two stop-and-wait functions together refine the
    specification of the protocol.  However the pieces of
    [clientStopWait], the passes of the loop of [serverReliable], the
    losses of frames and of acknowledgments and the passing of time
    interleave, the configuration reached holds a link that [SWSpec]
    reaches: the channel and the log carry the bits of the messages of
    that link, which satisfies the invariant [safe]. *)
Theorem stopwait_system_refines t cfg :
  reached t cfg →
  ∃ l, SWSpec.reach SWSpec.init l ∧ SWSpec.safe l ∧ holds max msg cfg l.
Proof. destruct Hsized. by apply sw_creach_simulated. Qed.

(** C8: stop-and-wait delivers the messages in order on a channel that
    loses datagrams and keeps their order, whatever the timing.  In a
    configuration the system reaches with the client at message [j],
    the frames [serverReliable] has read are those of a list of
    messages that is in ascending order, names no message after [j] and
    names every message before [j]; the messages the server has
    counted are the first two of them at most. *)
Theorem stopwait_delivers_in_order t cfg :
  reached t cfg →
  ∃ H, log cfg = bit_words msg <$> H ∧ StronglySorted Z.le H ∧
    (∀ i, i ∈ H → 0 ≤ i ≤ msgNum (place_of cfg)) ∧
    (∀ i, 0 ≤ i < msgNum (place_of cfg) → i ∈ H) ∧
    served cfg = SWSpec.counted H.
Proof. destruct Hsized. by apply sw_creach_in_order. Qed.

(** C18: what [clientStopWait] counts.  In a configuration the system
    reaches, [retrans] is the number of frames the client has handed to
    its socket beyond the first frame of each message it has begun,
    the frame it is about to send included when it is at the head of
    its [do ... while]; and no frame has been read or is on its way
    that was not handed over. *)
Theorem stopwait_counts_every_resend t cfg :
  reached t cfg →
  retrans (client cfg) =
    handed cfg - match place_of cfg with Poll j => j + 1 | Head j | Send j => j end ∧
  Z.of_nat (length (log cfg) + length (Chan.up (net cfg))) ≤ handed cfg.
Proof. destruct Hsized. by apply sw_creach_counts. Qed.

(** C17: neither function of the pair faults or blocks for good.  In a
    configuration the system reaches, the piece of [clientStopWait]
    that is next returns while messages are left, and a pass of the
    loop of [serverReliable] returns on every frame at the head of the
    channel while the server has not counted [max] messages: it takes
    the frame and answers with its first word, a bit. *)
Theorem stopwait_pieces_return t cfg :
  reached t cfg →
  (msgNum (place_of cfg) < max → is_Some (client_move max cfg)) ∧
  (∀ f U, Chan.up (net cfg) = f :: U → served cfg < max →
     ∃ cfg', server_move max cfg = Some cfg' ∧ log cfg' = log cfg ++ [f] ∧
       ∃ b, 0 ≤ b ≤ 1 ∧ hd_error f = Some b ∧
         net cfg' = Chan.Chan U (Chan.down (net cfg) ++ [[b]]) (Chan.now (net cfg))).
Proof.
  destruct Hsized. intros Hgo. split; [by eapply sw_creach_client_moves|].
  intros f U. by eapply sw_creach_server_moves.
Qed.

(** C16: [clientStopWait] can complete, and [serverReliable] cannot when
    there are more than two messages.  For every number of messages the
    system has a path, the one on which the server answers each frame
    before the client polls, to a configuration in which the client has
    left its [for] loop with [retrans] 0, each frame was handed over
    once and read by the server in order, and nothing is on the
    channel; there the server has counted [min max 2] messages, so that
    with three messages or more it is left in its receive with no frame
    to come. *)
Theorem stopwait_can_complete t :
  ∃ cfg, reached t cfg ∧
    place_of cfg = Head max ∧ retrans (client cfg) = 0 ∧ handed cfg = max ∧
    log cfg = bit_words msg <$> seqZ 0 max ∧ served cfg = Z.min max 2 ∧
    net cfg = Chan.Chan [] [] t ∧ client_move max cfg = None.
Proof.
  destruct Hsized. destruct (sw_creach_completes max) with (msg := msg) (pmsg := pmsg) (t := t)
    as (cfg & Hgo & Hp & Hrest); [done..|].
  exists cfg. split_and!; [done|done|apply Hrest..|].
  unfold client_move, client_piece. rewrite Hp. by rewrite decide_False by lia.
Qed.

End claims.

(** C25: the steps of the system are the two functions.  A run of
    [clientStopWait] on the client's side of the channel that returns
    is a path of the system on which only the client moves, from the
    head of the loop for message 0 to the head for message [max], and
    the value returned is [retrans] at its end; a run of
    [serverReliable] on the server's side that returns is a path on
    which only the server moves and counts [max] messages. *)
Theorem stopwait_functions_are_paths {PF : Platform} max :
  0 ≤ max →
  (∀ fuel msg c ret c',
     clientStopWait (TW := Chan.client_side) fuel max msg c = Done ret c' →
     ∃ s', client_path max (Head 0) (cinit msg) c (Head max) s' c' ∧ ret = retrans s') ∧
  (∀ fuel pmsg c m' c' s p h,
     serverReliable (TW := Chan.server_side) fuel max pmsg c = Done m' c' →
     ∃ L', creach max (Config s p pmsg 0 [] h c) (Config s p m' max L' h c')).
Proof.
  intros Hmax. split; intros.
  - by eapply clientStopWait_path.
  - by eapply serverReliable_path.
Qed.

Lemma stopwait_system_refines_witness :
  ∃ l, SWSpec.reach SWSpec.init l ∧ SWSpec.safe l ∧ holds (PF := LP64) 3 [9; 9] second_resent l.
Proof.
  exact (stopwait_system_refines (PF := LP64) 3 [9; 9] [0; 0] (stopwait_sized_LP64 3 ltac:(lia)) 0 _
           second_resent_reached).
Defined.

Lemma stopwait_delivers_in_order_witness :
  ∃ H, log second_resent = bit_words (PF := LP64) [9; 9] <$> H ∧ StronglySorted Z.le H ∧
    (∀ i, i ∈ H → 0 ≤ i ≤ 1) ∧ (∀ i, 0 ≤ i < 1 → i ∈ H) ∧
    served second_resent = SWSpec.counted H.
Proof.
  exact (stopwait_delivers_in_order (PF := LP64) 3 [9; 9] [0; 0] (stopwait_sized_LP64 3 ltac:(lia))
           0 _ second_resent_reached).
Defined.

Lemma stopwait_counts_every_resend_witness :
  retrans (client second_resent) = handed second_resent - 1 ∧
  Z.of_nat (length (log second_resent) + length (Chan.up (net second_resent))) ≤
    handed second_resent.
Proof.
  exact (stopwait_counts_every_resend (PF := LP64) 3 [9; 9] [0; 0]
           (stopwait_sized_LP64 3 ltac:(lia)) 0 _ second_resent_reached).
Defined.

Lemma stopwait_pieces_return_witness :
  (1 < 3 → is_Some (client_move (PF := LP64) 3 second_resent)) ∧
  (∀ f U, Chan.up (net second_resent) = f :: U → served second_resent < 3 →
     ∃ cfg', server_move (PF := LP64) 3 second_resent = Some cfg' ∧
       log cfg' = log second_resent ++ [f] ∧
       ∃ b, 0 ≤ b ≤ 1 ∧ hd_error f = Some b ∧
         net cfg' = Chan.Chan U (Chan.down (net second_resent) ++ [[b]])
                      (Chan.now (net second_resent))).
Proof.
  exact (stopwait_pieces_return (PF := LP64) 3 [9; 9] [0; 0] (stopwait_sized_LP64 3 ltac:(lia))
           0 _ second_resent_reached).
Defined.

Lemma stopwait_can_complete_witness :
  ∃ cfg, creach (PF := LP64) 3 (boot [9; 9] [0; 0] 0) cfg ∧
    place_of cfg = Head 3 ∧ retrans (client cfg) = 0 ∧ handed cfg = 3 ∧
    log cfg = bit_words (PF := LP64) [9; 9] <$> seqZ 0 3 ∧ served cfg = Z.min 3 2 ∧
    net cfg = Chan.Chan [] [] 0 ∧ client_move (PF := LP64) 3 cfg = None.
Proof.
  exact (stopwait_can_complete (PF := LP64) 3 [9; 9] [0; 0] (stopwait_sized_LP64 3 ltac:(lia)) 0).
Defined.

Lemma stopwait_functions_are_paths_witness :
  ∃ s', client_path (PF := LP64) 1 (Head 0) (cinit [9; 9]) (Chan.Chan [] [[0]] 0)
          (Head 1) s' (Chan.Chan [[0; 9]] [] 0) ∧ 0 = retrans s'.
Proof.
  apply (proj1 (stopwait_functions_are_paths (PF := LP64) 1 ltac:(lia)) 2%nat [9; 9]
           (Chan.Chan [] [[0]] 0) 0 (Chan.Chan [[0; 9]] [] 0)).
  vm_compute. reflexivity.
Defined.
