(* ===== verification/IntRange.v ===== *)
(** * The arithmetic of the loops stays inside [int]

    The model computes in [Z]; the code computes in [int], where an
    overflow is undefined.  This file lists the values that the
    arithmetic of [clientSlidingWindow], [serverEarlyRetrans] and
    [clientStopWait] forms outside [ackAdvance] (whose values are
    [ack_intermediates] of [AckAdvance.v]) and shows that they are
    values of type [int] under the invariants of the locals, so that
    the two computations agree there:

    - the sender ([sender_values]), when the cursors are slots of the
      ring, the buffer with one more frame fits in an [int] and the
      count of retransmissions has not reached [INT_MAX];
    - the receiver ([receiver_values]), when its locals satisfy
      [rstate_ok] and the first word of the frame is not below
      [INT_MIN + 2 * seqRange]; a frame whose first word is [INT_MIN]
      overflows the sum of line 215 ([offset_overflows]);
    - the stop-and-wait client ([stopwait_values]), when the answer it
      reads is a bit; an answer that is not a bit can overflow the sum
      of line 56 ([retrans_overflows]). *)

From stdpp Require Import relations list sorting.
From S2P Require Import Prelude Transport Channel SeqRing AckAdvance WindowReceiver WindowSender.
From S2P Require Import WindowSession WindowLoss WindowSystem StopWait StopWaitProtocol.
From S2P Require Import StopWaitSystem.

#[local] Open Scope Z_scope.
#[local] Open Scope cint_scope.

(** ** The values *)

Section values.
Context (max windowSize : Z).

(** Lines 114-115: the length of [buffer] and [seqRange]. *)
Definition sender_locals : list Z :=
  [windowSize + 1; (windowSize + 1) * max; windowSize * 2; seqRange windowSize].

(** Line 121: the test of the waiting loop. *)
Definition window_full_values (s : wstate) : list Z :=
  [lastFrameSent s + 1; windowSize + 1; (lastFrameSent s + 1) %% (windowSize + 1)].

(** Lines 124-129 for one [i]: the bound of the loop, the subscript of
    [buffer], and the two counters. *)
Definition resend_values (s : wstate) (i : Z) : list Z :=
  [lastFrameSent s - lastAckRec s; lastFrameSent s - lastAckRec s + windowSize;
   lastFrameSent s - lastAckRec s + windowSize + 1; outstanding windowSize s;
   lastAckRec s + i; (lastAckRec s + i) %% (windowSize + 1); slot_index max windowSize s i;
   WindowSender.retrans s + 1; i + 1].

(** Lines 135-136, [a] being what [ackAdvance] returned. *)
Definition wait_values (s : wstate) (a : Z) : list Z :=
  [lastAckRec s + 1; unwrapped_index max s; lastAckRec s + a;
   (lastAckRec s + a) %% (windowSize + 1)].

(** Lines 139-148 and the increment of line 118: [i] is the index of
    the copy loop, [a] what [ackAdvance] returned. *)
Definition send_values (msgNum : Z) (s : wstate) (i a : Z) : list Z :=
  let f := (lastFrameSent s + 1) %% (windowSize + 1) in
  [msgNum %% seqRange windowSize; lastFrameSent s + 1; f; f * max; f * max + i; i + 1;
   lastAckRec s + 1; slot_index max windowSize s 1; lastAckRec s + a;
   (lastAckRec s + a) %% (windowSize + 1); msgNum + 1].

(** One pass of the [for] loop of [clientSlidingWindow]. *)
Definition sender_values (msgNum : Z) (s : wstate) (i j a : Z) : list Z :=
  sender_locals ++ window_full_values s ++ resend_values s i ++ wait_values s a ++
  send_values msgNum s j a.

(** Lines 199-201: the locals of [serverEarlyRetrans] at entry. *)
Definition receiver_locals : list Z :=
  [windowSize * 2; seqRange windowSize; windowSize - 1; seqRange windowSize - 1].

(** Lines 214-227 for a frame with first word [m] and the index
    [msgToAck] of the [for] loop. *)
Definition receiver_values (st : rstate) (m msgToAck : Z) : list Z :=
  receiver_locals ++
  [seqRange windowSize + largestAccFrame st;
   seqRange windowSize + largestAccFrame st - m;
   (seqRange windowSize + largestAccFrame st - m) %% seqRange windowSize;
   accept_offset windowSize (largestAccFrame st) m;
   lastAckSent st + 1; next_slot windowSize st;
   largestAccFrame st + 1; (largestAccFrame st + 1) %% seqRange windowSize;
   msgToAck + 1].

End values.

(** Lines 39-56 of [clientStopWait] for message [msgNum], [v] being the
    answer read at line 54 and [m0] the first word of [message]. *)
Definition stopwait_values (msgNum : Z) (s : cstate) (v m0 : Z) : list Z :=
  [Z.land msgNum 1; StopWait.retrans s + 1; Z.lxor v m0; StopWait.retrans s + Z.lxor v m0;
   msgNum + 1].

(** ** They are values of type [int] *)

Lemma int_range_between a b z : int_range a → int_range b → a ≤ z ≤ b → int_range z.
Proof. unfold int_range. lia. Qed.

Lemma int_range_nonneg z : 0 ≤ z ≤ INT_MAX → int_range z.
Proof. unfold int_range, INT_MIN, INT_MAX. lia. Qed.

Section sender.
Context (max windowSize : Z) (nwords : Z).
Context (Hw : 0 ≤ windowSize ≤ MAX_WINDOW) (Hmax : 0 ≤ max) (Hn : 0 ≤ nwords).
Context (Hsize : (windowSize + 1) * max + nwords ≤ INT_MAX).

(** The first word of a slot, and of the slot after the last. *)
Lemma slot_product c : 0 ≤ c ≤ windowSize + 1 → 0 ≤ c * max ≤ (windowSize + 1) * max.
Proof using Hmax. intros. nia. Qed.

Lemma max_int : max ≤ INT_MAX.
Proof using Hw Hmax Hn Hsize. nia. Qed.

Lemma sender_locals_int : Forall int_range (sender_locals max windowSize).
Proof using Hw Hmax Hn Hsize.
  pose proof (slot_product (windowSize + 1) ltac:(lia)).
  unfold sender_locals, seqRange, MAX_WINDOW in *.
  repeat apply Forall_cons_2; try apply Forall_nil_2; apply int_range_nonneg;
    unfold INT_MAX in *; lia.
Qed.

Lemma window_full_values_int s :
  cursors_ok windowSize s → Forall int_range (window_full_values windowSize s).
Proof using Hw.
  intros [? ?]. pose proof (cmod_range (lastFrameSent s + 1) (windowSize + 1)).
  unfold window_full_values, MAX_WINDOW in *.
  repeat apply Forall_cons_2; try apply Forall_nil_2; apply int_range_nonneg;
    unfold INT_MAX; lia.
Qed.

Lemma resend_values_int s i :
  cursors_ok windowSize s → WindowSender.retrans s < INT_MAX →
  INT_MIN ≤ WindowSender.retrans s → 1 ≤ i ≤ windowSize →
  Forall int_range (resend_values max windowSize s i).
Proof using Hw Hmax Hn Hsize.
  intros [? ?] ? ? ?.
  pose proof (cmod_range (lastFrameSent s - lastAckRec s + windowSize + 1) (windowSize + 1)).
  pose proof (cmod_range (lastAckRec s + i) (windowSize + 1)).
  pose proof (slot_product ((lastAckRec s + i) %% (windowSize + 1)) ltac:(lia)).
  unfold resend_values, outstanding, slot_index, MAX_WINDOW in *.
  repeat apply Forall_cons_2; try apply Forall_nil_2;
    unfold int_range, INT_MIN, INT_MAX in *; lia.
Qed.

Lemma wait_values_int s a :
  cursors_ok windowSize s → 0 ≤ a ≤ windowSize →
  Forall int_range (wait_values max windowSize s a).
Proof using Hw Hmax Hn Hsize.
  intros [? ?] ?. pose proof (cmod_range (lastAckRec s + a) (windowSize + 1)).
  pose proof (slot_product (lastAckRec s + 1) ltac:(lia)).
  unfold wait_values, unwrapped_index, MAX_WINDOW in *.
  repeat apply Forall_cons_2; try apply Forall_nil_2; apply int_range_nonneg;
    unfold INT_MAX in *; lia.
Qed.

Lemma send_values_int msgNum s i a :
  cursors_ok windowSize s → 0 ≤ msgNum < max → 0 ≤ i < nwords → 0 ≤ a ≤ windowSize →
  Forall int_range (send_values max windowSize msgNum s i a).
Proof using Hw Hmax Hn Hsize.
  intros [? ?] ? ? ?. pose proof max_int.
  pose proof (cmod_range (lastFrameSent s + 1) (windowSize + 1)).
  pose proof (cmod_range (lastAckRec s + 1) (windowSize + 1)).
  pose proof (cmod_range (lastAckRec s + a) (windowSize + 1)).
  pose proof (cmod_between msgNum (seqRange windowSize) ltac:(unfold seqRange; lia)) as [? _].
  pose proof (slot_product ((lastFrameSent s + 1) %% (windowSize + 1)) ltac:(lia)).
  pose proof (slot_product ((lastAckRec s + 1) %% (windowSize + 1)) ltac:(lia)).
  unfold send_values, slot_index, MAX_WINDOW in *.
  repeat apply Forall_cons_2; try apply Forall_nil_2; apply int_range_nonneg;
    unfold INT_MAX in *; lia.
Qed.

(** No value that a pass of the [for] loop of [clientSlidingWindow]
    forms outside [ackAdvance] overflows: the window is [MAX_WINDOW] at
    most, the buffer and one frame more fit in an [int], the cursors
    are slots of the ring, [retrans] is below [INT_MAX], and
    [ackAdvance] returned a distance on the ring. *)
Theorem sender_values_int msgNum s i j a :
  cursors_ok windowSize s → INT_MIN ≤ WindowSender.retrans s < INT_MAX → 0 ≤ msgNum < max →
  1 ≤ i ≤ windowSize → 0 ≤ j < nwords → 0 ≤ a ≤ windowSize →
  Forall int_range (sender_values max windowSize msgNum s i j a).
Proof using Hw Hmax Hn Hsize.
  intros. unfold sender_values. rewrite !Forall_app.
  split_and!; [apply sender_locals_int|by apply window_full_values_int|
    apply resend_values_int; (done || lia)|by apply wait_values_int|by apply send_values_int].
Qed.

End sender.

Section receiver.
Context (windowSize : Z) (Hw : 0 ≤ windowSize ≤ MAX_WINDOW).

Lemma receiver_locals_int : Forall int_range (receiver_locals windowSize).
Proof using Hw.
  unfold receiver_locals, seqRange, MAX_WINDOW in *.
  repeat apply Forall_cons_2; try apply Forall_nil_2;
    unfold int_range, INT_MIN, INT_MAX; lia.
Qed.

(** No value that [serverEarlyRetrans] forms for a frame overflows when
    its locals satisfy the invariant and the first word of the frame is
    [INT_MIN + 2 * seqRange] at least; every sequence number is. *)
Theorem receiver_values_int st m msgToAck max :
  rstate_ok windowSize st → INT_MIN + 2 * seqRange windowSize ≤ m ≤ INT_MAX →
  0 ≤ msgToAck < max → max ≤ INT_MAX →
  Forall int_range (receiver_values windowSize st m msgToAck).
Proof using Hw.
  intros [_ Hlas Hlaf _] Hm ? ?.
  pose proof (seq_of_is_seq windowSize ltac:(lia) (lastAckSent st + windowSize)) as Hs.
  rewrite <- Hlaf in Hs. unfold is_seq in *.
  assert (0 < seqRange windowSize) as HR by (unfold seqRange; lia).
  pose proof (cmod_between (seqRange windowSize + largestAccFrame st - m) _ HR) as [Hp Hq].
  pose proof (cmod_range (lastAckSent st + 1) _ ltac:(lia) HR).
  pose proof (cmod_range (largestAccFrame st + 1) _ ltac:(lia) HR).
  pose proof (cmod_range (seqRange windowSize + largestAccFrame st - m) (seqRange windowSize)).
  pose proof (cmod_neg_range (seqRange windowSize + largestAccFrame st - m) (seqRange windowSize)).
  unfold receiver_values. rewrite Forall_app. split; [apply receiver_locals_int|].
  unfold accept_offset, next_slot, MAX_WINDOW in *.
  repeat apply Forall_cons_2; try apply Forall_nil_2;
    unfold int_range, INT_MIN, INT_MAX, seqRange in *; lia.
Qed.

End receiver.

(** No value that [clientStopWait] forms for a message overflows while
    the answer it reads and the first word of [message] are bits and
    [retrans] is below [INT_MAX]. *)
Theorem stopwait_values_int msgNum max s v m0 :
  0 ≤ msgNum < max → max ≤ INT_MAX → 0 ≤ StopWait.retrans s < INT_MAX → 0 ≤ v ≤ 1 → 0 ≤ m0 ≤ 1 →
  Forall int_range (stopwait_values msgNum s v m0).
Proof.
  intros ? ? ? Hv Hm.
  pose proof (land_1_range msgNum).
  assert (0 ≤ Z.lxor v m0 ≤ 1).
  { assert (v = 0 ∨ v = 1) as [-> | ->] by lia; assert (m0 = 0 ∨ m0 = 1) as [-> | ->] by lia;
      by vm_compute. }
  unfold stopwait_values.
  repeat apply Forall_cons_2; try apply Forall_nil_2; apply int_range_nonneg;
    unfold INT_MAX in *; lia.
Qed.

(** ** In the two systems *)

Section systems.
Context {PF : Platform}.

(** C38: no signed overflow in the system of the window functions.  For
    a window of [MAX_WINDOW] at most and a buffer that fits in an [int]
    with one frame more, in every configuration the system reaches the
    values that [clientSlidingWindow] forms in lines 114-148 for the
    message it is at are values of type [int] while [retrans] is
    below [INT_MAX], and so are the values that [serverEarlyRetrans]
    forms in lines 199-227 for any frame on the channel. *)
Theorem window_system_values_int fuel max windowSize msg pmsg t cfg :
  well_sized fuel max windowSize msg pmsg → windowSize ≤ MAX_WINDOW →
  (windowSize + 1) * max + Z.of_nat (words_of sizeof_ptr) ≤ INT_MAX →
  Win.creach fuel max windowSize (Win.boot max windowSize msg pmsg t) cfg →
  (∀ i j a, Win.msgNum (Win.place_of cfg) < max →
     0 ≤ WindowSender.retrans (Win.client cfg) < INT_MAX →
     1 ≤ i ≤ windowSize → 0 ≤ j < Z.of_nat (words_of sizeof_ptr) → 0 ≤ a ≤ windowSize →
     Forall int_range
       (sender_values max windowSize (Win.msgNum (Win.place_of cfg)) (Win.client cfg) i j a)) ∧
  (∀ f, f ∈ Chan.up (Win.net cfg) → Win.served cfg < max →
     ∃ m, hd_error f = Some m ∧
       Forall int_range (receiver_values windowSize (Win.server cfg).1 m (Win.served cfg))).
Proof.
  intros [Hint Hw Hfuel Hlen Hpm Hmax] HW Hsize Hgo.
  destruct (creach_cursors fuel max windowSize Hint Hw msg Hlen Hmax Hfuel pmsg Hpm t cfg Hgo)
    as (a0 & e & k & Hst & Hpl & _ & Hok & ? & ? & ? & ?).
  pose proof (stuck_cursors windowSize Hw max msg a0 k _ Hst) as Hc.
  assert (max ≤ INT_MAX) by nia. split.
  - intros i j a Hj Hr Hi Hjj Ha.
    apply (sender_values_int max windowSize (Z.of_nat (words_of sizeof_ptr)));
      try done; try lia; [unfold INT_MIN; lia|].
    destruct (Win.place_of cfg); simpl in *; lia.
  - intros f Hf Hserved.
    destruct (creach_simulated fuel max windowSize Hint Hw msg Hlen Hmax Hfuel pmsg Hpm t cfg Hgo)
      as (l & _ & Hh).
    rewrite (Win.holds_up _ _ _ _ _ Hh) in Hf. apply list_elem_of_fmap in Hf as (n & -> & _).
    destruct (frame_words_head windowSize msg n) as [d ->]; [lia..|].
    exists (seq_of windowSize n). split; [done|].
    pose proof (seq_of_is_seq windowSize ltac:(lia) n) as Hn.
    apply (receiver_values_int windowSize ltac:(lia) _ _ _ max); try done; try lia.
    unfold is_seq, seqRange, INT_MIN, INT_MAX, MAX_WINDOW in *. lia.
Qed.

(** In every configuration the system of the stop-and-wait functions
    reaches with the client at the test of its polling loop and an
    answer to read, the answer is a bit, and the values the client forms
    are values of type [int] as long as it has not handed more than
    [INT_MAX] frames to its socket. *)
Theorem stopwait_system_values_int max msg pmsg t cfg j d D :
  stopwait_sized max msg pmsg → max ≤ INT_MAX →
  SW.creach max (SW.boot msg pmsg t) cfg → SW.handed cfg ≤ INT_MAX →
  SW.place_of cfg = SW.Poll j → Chan.down (SW.net cfg) = d :: D →
  ∃ v m0, d = [v] ∧ load (message (SW.client cfg)) 0 = Some m0 ∧
    Forall int_range (stopwait_values j (SW.client cfg) v m0).
Proof.
  intros [Hint Hmax Hlen Hpm] HM Hgo Hh Hp Hd.
  pose proof (sw_creach_nonneg max Hint Hmax msg Hlen pmsg Hpm t cfg Hgo) as Hr0.
  pose proof (sw_creach_counts max Hint Hmax msg Hlen pmsg Hpm t cfg Hgo) as [Hr _].
  destruct (sw_creach_simulated max Hint Hmax msg Hlen pmsg Hpm t cfg Hgo) as (l & _ & Hs & Hl).
  pose proof (SW.holds_down _ _ _ _ Hl) as Hdown.
  pose proof (SW.holds_place _ _ _ _ Hl) as Hpl. pose proof (SWSpec.safe_sending _ Hs).
  destruct (SW.holds_max _ _ _ _ Hl) as [Hjm _].
  destruct (SW.holds_message _ _ _ _ Hl) as (x & Hx & Hbit).
  rewrite Hp in Hr, Hpl, Hjm, Hbit. simpl in Hpl. subst x. rewrite Hd in Hdown.
  symmetry in Hdown. apply fmap_cons_inv in Hdown as (a & A & -> & _ & _).
  exists (Z.land a 1), (Z.land j 1). split_and!; [done| |].
  { apply load_Some. rewrite Hx, length_insert. split; [lia|]. apply list_lookup_insert_eq. lia. }
  apply (stopwait_values_int j max); try apply land_1_range; lia.
Qed.

End systems.

Lemma window_system_values_int_witness :
  (∀ i j a, Win.msgNum (Win.place_of first_sent) < 3 →
     0 ≤ WindowSender.retrans (Win.client first_sent) < INT_MAX →
     1 ≤ i ≤ 2 → 0 ≤ j < Z.of_nat (words_of (PF := LP64) 8) → 0 ≤ a ≤ 2 →
     Forall int_range
       (sender_values 3 2 (Win.msgNum (Win.place_of first_sent)) (Win.client first_sent) i j a)) ∧
  (∀ f, f ∈ Chan.up (Win.net first_sent) → Win.served first_sent < 3 →
     ∃ m, hd_error f = Some m ∧
       Forall int_range (receiver_values 2 (Win.server first_sent).1 m (Win.served first_sent))).
Proof.
  apply (window_system_values_int (PF := LP64) 3 3 2 [9; 9] [0; 0] 0 first_sent
           (well_sized_LP64 2 ltac:(lia)));
    [unfold MAX_WINDOW; lia|by vm_compute|exact first_sent_reached].
Defined.

(** ** Where they are not *)

(** A frame whose first word is [INT_MIN]: the sum of line 215 is above
    [INT_MAX], for every window and from the first frame on. *)
Example offset_overflows windowSize :
  1 ≤ windowSize →
  ¬ Forall int_range (receiver_values windowSize (rinit windowSize) INT_MIN 0).
Proof.
  intros ? HF. unfold receiver_values in HF. apply Forall_app in HF as [_ HF].
  apply Forall_cons in HF as [_ HF]. apply Forall_cons in HF as [HF _].
  unfold int_range, INT_MIN, INT_MAX, seqRange in HF. simpl in HF. lia.
Qed.

(** An answer that is not a bit: with [INT_MAX] read at line 54 and one
    retransmission counted, the sum of line 56 is above [INT_MAX]. *)
Example retrans_overflows :
  ¬ Forall int_range (stopwait_values 0 (add_retrans 1 (cinit [0; 9])) INT_MAX 0).
Proof.
  intros HF. do 3 apply Forall_cons in HF as [_ HF]. apply Forall_cons in HF as [HF _].
  vm_compute in HF. destruct HF as [_ HF]. by apply HF.
Qed.
